(* ===== verification/_CoqProject ===== *)
-Q . S2P
Prelude.v
Etcd.v
EtcdFacts.v
Sends.v
Schema.v
Store.v
StoreLogic.v
StoreProps.v
Locks.v
Extents.v
ExtentProps.v
ExtentSeek.v
SchemaProps.v
Allocator.v
AllocatorProps.v
ArenaPool.v
ArenaProps.v
InodeTimes.v
Dirents.v
Fencing.v
LinkCounts.v
NamespaceProps.v
RenameProps.v
TimesProps.v
FenceRecords.v
Membership.v
Controller.v
ControllerProps.v
MembershipProps.v
FenceProps.v
Xattrs.v
NodeReqs.v
Service.v
DataPath.v
ReadProps.v
ReplayProps.v
WriteProps.v
Delegate.v
SvcLogic.v
LockCache.v
BufferProps.v
FlushOrder.v
YieldOrder.v
FlushProps.v
Wire.v
WireProps.v
DataHandlers.v
LostReplies.v
NodeCaches.v
DirentCacheProps.v
Daemon.v
Handlers.v
HandlerProps.v
ListingProps.v
SetattrProps.v
Notify.v
Watch.v
DaemonReqs.v
DaemonProps.v
Scrub.v
ScrubProps.v
ScrubFiles.v
ScrubLinks.v
Quota.v
QuotaProps.v
Fsck.v
Fencers.v
FenceWatch.v
FencerProps.v
Tools.v
Cluster.v
ClusterProps.v
Lifecycle.v
LifecycleProps.v
Csi.v
CsiProps.v
History.v
Checkers.v
CheckerProps.v
Served.v
