(* ===== verification/Prelude.v ===== *)
(** * EtcFS: a verification development

    EtcFS is a shared-disk file system.  Every node runs a FUSE front end in C
    and a metadata daemon in Go (cmd/etcfuse-meta); the daemons share one block
    device and one etcd cluster.  File bytes live on the device, everything else
    lives in etcd: inodes, names, extents (which device bytes hold which file
    bytes), locks, the ownership of the device's 1 GiB arenas, membership and
    the fencing generation of each node.  No daemon talks to another; they meet
    only in etcd's transactions.  Beside the daemon there are a scrubber, an
    offline checker, an operator's tool (cmd/etcfsctl), a membership manager and
    a CSI driver, which work on the same records; and a daemon can record what
    it serves, for checkers that look for an order that explains it.  This
    development models the Go code of all of these and proves what makes it
    correct.

    ** How the program is modelled

    - Operations are programs ([Etcd.prog]): trees of requests to etcd, the
      clock, the device fencer, the block device and the kernel, each
      continuation receiving the reply.  [x ⇐ p; q] sequences, [x ⇐? p; q]
      returns early on an error, as the Go code does.  Errors are values of
      [result].
    - What a daemon keeps in memory is threaded through: [Service.svc] is a
      program over the lock entries, the allocator and the device ([x ⇠ p; q]),
      [Daemon.dmn] one over the whole daemon ([x ⇝ p; q]), and a handler takes a
      payload to a response in it.
    - The fencers ([Fencers.fprog]) and the CSI driver ([Csi.cprog]) talk to an
      NVMe namespace, to EC2 and to the operating system, so they are programs
      over requests of their own, with the same shape.
    - etcd is not part of the repository.  It is the class [Etcd.Etcd], whose
      one law is that each reply is one that etcd's documentation allows: a
      range reads the current store, a transaction evaluates its comparisons and
      applies its operations atomically, a failed request may or may not have
      taken effect.  [ReliableEtcd] adds that every valid request is answered;
      theorems that say what an operation returns assume it, safety theorems do
      not.  [EtcdFacts.ref_etcd] is an executable server that meets both, and
      the witnesses run on it.
    - Concurrency is [Etcd.cstep]: any number of programs interleaved request by
      request, with leases expiring in between.  [Etcd.wp] is a rely/guarantee
      logic for it, proved sound in EtcdFacts; StoreLogic has its rules for the
      store's reads and transactions, and the exact rules ([wpx]) for one
      program on a server that answers.  Sends is the logic of what a program
      puts on the wire, given that range replies lie in their range.
    - Integers are [Z] with the wrap-around of their width written out
      ([wrap64], [add64], ...); byte strings are lists of [Z]; Go maps are
      [gmap]s, visited in an order that is a parameter where it matters.

    ** Files, and the sources they model

    The records (pkg/metadata, pkg/arena).
    - Prelude: notations, tactics, machine integers, byte strings, decimal
      numbers.  Etcd, EtcdFacts: the interface above.
    - Schema (schema.go, inode.go): keys, parsers, records.  SchemaProps: keys
      are unambiguous, scans exact, formats round-trip.
    - Store (client.go, gen.go, alloc.go, inode.go): the guarded store,
      generations, shared counters, compare-and-swap retry.  StoreProps: of
      racing controllers one bumps a generation (C16), reserved ranges never
      overlap (C17), and a fenced transaction is reported as such.  Fencing: a
      fenced node's guarded operations change nothing.
    - Locks (lock.go): an exclusive holder is alone under every interleaving of
      lock operations.  NodeReqs: what a daemon may put on the wire, and that
      every operation of the store keeps to it.
    - Extents (extent.go).  ExtentProps: splitting around a write keeps every
      byte the write leaves.  ExtentSeek: data ranges and SEEK_DATA/SEEK_HOLE
      answer from the bytes extents hold.
    - Allocator (allocator.go, the bitmaps).  AllocatorProps: against the sets
      of taken and available bytes, allocation takes exactly what it returns or
      nothing (C13); freeing and rebuilding too.
    - ArenaPool (arena.go, allocator.go).  ArenaProps: no arena has two owners
      under any interleaving (C12), and the lost reply that makes a node keep an
      arena it has returned.
    - InodeTimes (inodetimes.go).  TimesProps: a flush publishes exactly what is
      queued (C37).
    - Dirents (dirent.go).  LinkCounts: link counts are exact under every
      interleaving (C8).  NamespaceProps: what create, unlink and rmdir do.
      RenameProps: the ancestor walk ends and decides reachability (C36), what a
      rename to a free name does, and a race that loses a file.
    - Xattrs (xattr.go): setting an attribute and reading it back.

    Membership and fencing (pkg/metadata, pkg/fencing, pkg/nvmeresv,
    pkg/membership, cmd/etcfuse-meta).
    - FenceRecords (fence.go), Membership (membership.go, watchdog.go),
      Controller (controller.go); Membership also has the start of a daemon
      (main.go).  ControllerProps: a fence cuts the device off before it bumps,
      and bumps before it reclaims (C14), and the restart it does not cover.
      MembershipProps: leaving, registering, the watchdog's window.  FenceProps:
      a sweep fences every node that is owed it and leaves the others alone
      (C15).  FenceWatch (the loop of controller.go): a fence is started for
      every node that disappears, once (C38), and the sweep that erases the
      instance of an expired node.
    - Fencers (nvmeresv.go, nvme.go, detach.go).  FencerProps: a successful
      preempt removes the victim's registration and no other (C27), a detachment
      ends, and succeeds only when it was read to be done (C28), and what the
      confirmation of a preempt compares on a documented device.
    - Cluster (pkg/membership).  ClusterProps: managers and daemons together
      keep ownership exclusive (C29), and the two operations that are left out
      of it.
    - Lifecycle (internal/config, main.go, service.go, resolve.go, device.go):
      flags, finding and opening the device, construction, the way down.
      LifecycleProps: flush, request and self-fencing intervals are in order
      (C40), how long the pauses between attempts are, a node that leaves holds
      nothing and is not fenced (C31).

    The daemon (internal/ipc).
    - Service (service.go, the device of pkg/blockio): the state the operations
      share, guarded commits, device access.
    - DataPath (datapath.go, writeop.go, sparse.go): planning a write,
      reclaiming, replaying into the cache, reading, truncating, punching.
      ReadProps: a read returns the file's bytes (C4).  ReplayProps: the cache
      after a commit is what a reread would give (C9).  WriteProps: a write
      reads back and spares every other byte (C3), and where older bytes shadow
      a write.
    - Delegate (delegate.go): the buffer of unpublished writes.  BufferProps: a
      buffer published once does what its writes would have done (C10).
      SvcLogic: a discipline is a condition on each request given the requests
      before it; its rules carry an invariant through the flushes, entry by
      entry.  FlushOrder: no extent is published before its bytes are on the
      device (C5).  FlushProps: a flush publishes the buffer (C11).
      LostReplies: runs in which a block that is still published is freed.
    - LockCache (lockcache.go, lockmap.go, retry.go): cached lock keys,
      eviction, recall, session loss.  YieldOrder: no flush publishes without
      requiring the inode's exclusive lock (C6), no lock key is deleted while
      the kernel may serve the inode's pages (C7).
    - Wire (socket.go, errno.go).  WireProps: requests survive the wire, cut
      ones are refused.
    - NodeCaches (inodealloc.go, opendescriptors.go, readdircursor.go,
      direntcache.go).  DirentCacheProps: a name reported absent was absent
      recently (C20).
    - DataHandlers, Daemon, Handlers (handlers.go, xattr.go, dispatch): every
      request.  HandlerProps: every answer has the shape its request asks for
      (C18), every request is answered in order, what is refused touches nothing
      (C39).  ListingProps: the pages of a listing are the directory (C19).
      SetattrProps: what a deferred setattr reports and publishes.
    - Notify (notify.go), Watch (watch.go): a re-opened watch loses no event or
      reports a gap (C21).
    - DaemonReqs follows every handler and every background operation; with it
      DaemonProps: an exclusive holder is alone, whatever the daemons serve
      (C1), a fenced daemon changes no key but its own want keys and the pool
      (C2), and the arena a fenced node loses.

    Around it.
    - Scrub (pkg/scrub).  ScrubFiles: scrubbers change no readable byte and no
      inode (C22).  ScrubProps: blocks are freed exactly for confirmed removals
      (C23).  ScrubLinks: the link checks report exactly the wrong counts (C26).
    - Quota (pkg/quota, pkg/metadata/quota.go, etcfsctl quota).  QuotaProps: a
      quota walk ends and charges what is reachable, once (C25).
    - Fsck (pkg/fsck): no error is reported exactly on a healthy store (C24).
    - Tools (cmd/etcfsctl, pkg/fsinfo, cmd/seed-etcd): every command only reads,
      but for the record it is asked to write; the seeding tool leaves its
      symbolic link without a name.
    - Csi (csi/internal/driver, csi/cmd).  CsiProps: calls touch only the
      volume's own directory and the node's own intent (C30).

    The operation history (internal/history, internal/ipc, test/verify,
    cmd/verify-history).
    - History (history.go, histevents.go, the decoders of test/verify): what a
      daemon records and what is read back; recorded events are decoded as they
      were recorded (C34).
    - Checkers (test/verify, cmd/verify-history): the sequential models and the
      checks over them.  CheckerProps: what a clean run of the command proves
      (C32), a history that took place is never reported (C35); relaxing a check
      accepts more; the lock and generation checks decide what they are for;
      three histories that are turned down although nothing was wrong.
    - Served (socket.go): served requests are decoded as they were served (C33).

    The classes through which components meet are [Etcd] (every component and
    the cluster), [Scrub.Reclaimer] (scrubber and allocator), [Scrub.MapOrder]
    (Go's map iteration), [Fencers.World] (fencers and the world they act on)
    and [Checkers.Porcupine] (checkers and the search for an order;
    [brute_force] is an executable search that meets its laws).

    ** Bounds and fuel

    The compare-and-swap loops run [casAttempts] times, as the code does, and
    then report contention; other retry loops have their source's bound.  Loops
    without a bound in the source carry fuel that is shown to be enough: the
    search for a free run advances at every step; an arena gives at most one run
    per free block ([arena_fuel], [free_count_bound]); the ancestor walk has one
    step more than the index has entries, which is the code's own bound, and
    gives up only on a cycle; a binary search and the splitting into batches
    have the length of their list; a quota walk pops each directory's children
    once ([quota_fuel], part of C25); the polls of a detachment are bounded by
    its timeout ([poll_fuel], part of C28).  Hypotheses such as a counter
    staying below 2^64 or a link count below 2^32 state where the source would
    wrap around.

    ** What is not modelled

    Metrics, logging and error texts; the tickers and goroutines that call the
    operations again (flusher, reapers, lock revocation, session watch);
    accepting connections and the recovery from a panic; JSON decoders (a
    parameter where they are used; what is encoded is written out); mutexes of a
    single daemon, whose operations are taken one after the other on its
    in-memory state.  Sockets, ioctls, dialling, TLS and gRPC are I/O; what the
    system answers when a device is found and opened is a parameter, and so is
    Porcupine's search.  The test harness (a mock of etcd and scripts that drive
    it) and the C front end are outside. *)

From stdpp Require Export base gmap list sorting strings.
From Stdlib Require Export ZArith Lia.

Declare Scope etcfs_scope.
Delimit Scope etcfs_scope with etcfs.
#[global] Open Scope Z_scope.

(** The proof automation of the development: [etcfs] collects the lemmas that
    discharge the routine side conditions (ranges, digit strings, prefixes). *)
Create HintDb etcfs.
Create Rewrite HintDb etcfs.

(** Linear arithmetic with [Z.div] and [Z.modulo] turned into equations. *)
Ltac dlia := Z.div_mod_to_equations; lia.

(** Split every boolean test of the goal, turning it into a proposition. *)
Ltac zbool :=
  repeat match goal with
  | H : (_ && _)%bool = true |- _ => apply andb_true_iff in H as [? ?]
  | H : (_ || _)%bool = false |- _ => apply orb_false_iff in H as [? ?]
  | H : negb _ = true |- _ => apply negb_true_iff in H
  | H : negb _ = false |- _ => apply negb_false_iff in H
  | H : (_ <? _) = true |- _ => apply Z.ltb_lt in H
  | H : (_ <? _) = false |- _ => apply Z.ltb_ge in H
  | H : (_ <=? _) = true |- _ => apply Z.leb_le in H
  | H : (_ <=? _) = false |- _ => apply Z.leb_gt in H
  | H : (_ >? _) = true |- _ => rewrite Z.gtb_ltb in H; apply Z.ltb_lt in H
  | H : (_ >? _) = false |- _ => rewrite Z.gtb_ltb in H; apply Z.ltb_ge in H
  | H : (_ =? _) = true |- _ => apply Z.eqb_eq in H
  | H : (_ =? _) = false |- _ => apply Z.eqb_neq in H
  end.

(** Case analysis on the innermost boolean test of an [if] in the goal. *)
Ltac case_if :=
  match goal with
  | |- context [if ?b then _ else _] =>
    lazymatch b with
    | context [if _ then _ else _] => fail
    | _ => let E := fresh "E" in destruct b eqn:E
    end
  end.

(** ** Go's fixed-width unsigned integers

    A [uint64] is a [Z] in [0, 2^64); addition, subtraction and multiplication
    wrap, and the wrap is written out at every operation of the source. *)

Definition wrap64 (x : Z) : Z := x mod 2 ^ 64.
Definition wrap32 (x : Z) : Z := x mod 2 ^ 32.
Definition is_u64 (x : Z) : Prop := 0 <= x < 2 ^ 64.
Definition is_u32 (x : Z) : Prop := 0 <= x < 2 ^ 32.
Definition is_i64 (x : Z) : Prop := - 2 ^ 63 <= x < 2 ^ 63.

Definition add64 (x y : Z) : Z := wrap64 (x + y).
Definition sub64 (x y : Z) : Z := wrap64 (x - y).
Definition mul64 (x y : Z) : Z := wrap64 (x * y).

(** [int64(x)] of a [uint64]: two's complement reinterpretation. *)
Definition to_i64 (x : Z) : Z := if x <? 2 ^ 63 then x else x - 2 ^ 64.

Lemma wrap64_small x : is_u64 x → wrap64 x = x.
Proof. intros; apply Z.mod_small; unfold is_u64 in *; lia. Qed.

Lemma wrap64_u64 x : is_u64 (wrap64 x).
Proof. apply Z.mod_pos_bound; lia. Qed.

Lemma add64_small x y : 0 <= x + y < 2 ^ 64 → add64 x y = x + y.
Proof. intros; apply wrap64_small; unfold is_u64; lia. Qed.

Lemma sub64_small x y : 0 <= x - y < 2 ^ 64 → sub64 x y = x - y.
Proof. intros; apply wrap64_small; unfold is_u64; lia. Qed.

Lemma mul64_small x y : 0 <= x * y < 2 ^ 64 → mul64 x y = x * y.
Proof. intros; apply wrap64_small; unfold is_u64; lia. Qed.

Lemma to_i64_wrap64 x : is_i64 x → to_i64 (wrap64 x) = x.
Proof. unfold is_i64, to_i64, wrap64. intros. case_if; zbool; dlia. Qed.

#[export] Hint Resolve wrap64_u64 : etcfs.
#[export] Hint Unfold is_u64 is_u32 is_i64 : etcfs.

(** ** Go strings and byte slices

    Both are finite sequences of bytes; a byte is a [Z] in [0, 256). *)

Abbreviation bytes := (list Z).

Definition lit (s : string) : bytes :=
  map (λ c, Z.of_N (Ascii.N_of_ascii c)) (String.list_ascii_of_string s).
Arguments lit _%_string.

Definition slash : Z := 47.
Definition comma : Z := 44.
Definition dash : Z := 45.

(** [strings.CutPrefix]: the remainder of [s] after [p], if [p] is a prefix. *)
Fixpoint cut_prefix (p s : bytes) : option bytes :=
  match p, s with
  | [], _ => Some s
  | a :: p', b :: s' => if a =? b then cut_prefix p' s' else None
  | _ :: _, [] => None
  end.

Definition has_prefix (p s : bytes) : bool :=
  match cut_prefix p s with Some _ => true | None => false end.

(** [strings.Cut] for a one-byte separator: split at its first occurrence. *)
Fixpoint cut (sep : Z) (s : bytes) : option (bytes * bytes) :=
  match s with
  | [] => None
  | c :: s' =>
    if c =? sep then Some ([], s')
    else match cut sep s' with
         | Some (a, b) => Some (c :: a, b)
         | None => None
         end
  end.

(** Split at the last occurrence of the separator ([strings.LastIndex]). *)
Fixpoint cut_last (sep : Z) (s : bytes) : option (bytes * bytes) :=
  match s with
  | [] => None
  | c :: s' =>
    match cut_last sep s' with
    | Some (a, b) => Some (c :: a, b)
    | None => if c =? sep then Some ([], s') else None
    end
  end.

(** [strings.SplitN(s, sep, n)] for a one-byte separator and [n >= 1]. *)
Fixpoint split_n (sep : Z) (n : nat) (s : bytes) : list bytes :=
  match n with
  | O => []
  | S O => [s]
  | S n' => match cut sep s with
            | Some (a, b) => a :: split_n sep n' b
            | None => [s]
            end
  end.

Lemma cut_prefix_app p s : cut_prefix p (p ++ s) = Some s.
Proof. induction p as [|a p IH]; simpl; [done|]. by rewrite Z.eqb_refl. Qed.

Lemma cut_prefix_Some p s t : cut_prefix p s = Some t ↔ s = p ++ t.
Proof.
  split; [|intros ->; apply cut_prefix_app].
  revert s; induction p as [|a p IH]; intros s; simpl; [congruence|].
  destruct s as [|b s]; [done|]. case_if; [|done]. zbool; subst.
  intros ?%IH. by subst.
Qed.

Lemma has_prefix_true p s : has_prefix p s = true ↔ ∃ t, s = p ++ t.
Proof.
  unfold has_prefix. destruct (cut_prefix p s) as [t|] eqn:E.
  - apply cut_prefix_Some in E. naive_solver.
  - split; [done|]. intros [t ->]. by rewrite cut_prefix_app in E.
Qed.

Lemma has_prefix_app p s : has_prefix p (p ++ s) = true.
Proof. apply has_prefix_true. eauto. Qed.

Lemma cut_app sep a b : sep ∉ a → cut sep (a ++ sep :: b) = Some (a, b).
Proof.
  induction a as [|c a IH]; simpl; intros Hn; [by rewrite Z.eqb_refl|].
  apply not_elem_of_cons in Hn as [? Hn].
  case_if; zbool; [congruence|]. by rewrite (IH Hn).
Qed.

Lemma cut_last_None sep s : sep ∉ s → cut_last sep s = None.
Proof.
  induction s as [|c s IH]; simpl; intros Hn; [done|].
  apply not_elem_of_cons in Hn as [? Hn]. rewrite (IH Hn).
  case_if; zbool; [congruence|done].
Qed.

Lemma cut_last_app sep a b : sep ∉ b → cut_last sep (a ++ sep :: b) = Some (a, b).
Proof.
  intros Hn. induction a as [|c a IH]; simpl.
  - rewrite (cut_last_None _ _ Hn), Z.eqb_refl. done.
  - by rewrite IH.
Qed.

#[export] Hint Rewrite cut_prefix_app has_prefix_app : etcfs.

(** ** Decimal numerals: [fmt.Sprintf("%d", n)] and [strconv.ParseUint] *)

Fixpoint dec_digits (fuel : nat) (n : Z) : bytes :=
  match fuel with
  | O => []
  | S f => if n <? 10 then [48 + n] else dec_digits f (n / 10) ++ [48 + n mod 10]
  end.

(** One digit per bit is always enough fuel. *)
Definition fmt_uint (n : Z) : bytes := dec_digits (S (Z.to_nat (Z.log2 n))) n.

Definition is_digit (c : Z) : bool := (48 <=? c) && (c <=? 57).

Fixpoint parse_digits (acc : Z) (s : bytes) : option Z :=
  match s with
  | [] => Some acc
  | c :: s' =>
    if is_digit c then
      let v := acc * 10 + (c - 48) in
      if v <? 2 ^ 64 then parse_digits v s' else None
    else None
  end.

(** [strconv.ParseUint(s, 10, 64)]; [None] is its syntax or range error. *)
Definition ParseUint (s : bytes) : option Z :=
  match s with [] => None | _ => parse_digits 0 s end.

(** [strconv.ParseInt(s, 10, 64)]. *)
Definition ParseInt (s : bytes) : option Z :=
  match s with
  | 45 :: s' =>
    match ParseUint s' with
    | Some n => if n <=? 2 ^ 63 then Some (- n) else None
    | None => None
    end
  | 43 :: s' | s' =>
    match ParseUint s' with
    | Some n => if n <? 2 ^ 63 then Some n else None
    | None => None
    end
  end.

Definition dec_value (acc : Z) (s : bytes) : Z :=
  foldl (λ a c, a * 10 + (c - 48)) acc s.

Lemma dec_value_ge acc s :
  0 <= acc → Forall (λ c, is_digit c = true) s → acc <= dec_value acc s.
Proof.
  intros Ha Hs. revert acc Ha. induction Hs as [|c s Hc Hs IH]; intros acc Ha; simpl; [lia|].
  unfold dec_value in IH. unfold is_digit in Hc. zbool.
  specialize (IH (acc * 10 + (c - 48)) ltac:(lia)). unfold dec_value; simpl. lia.
Qed.

Lemma parse_digits_value acc s :
  0 <= acc → Forall (λ c, is_digit c = true) s → dec_value acc s < 2 ^ 64 →
  parse_digits acc s = Some (dec_value acc s).
Proof.
  intros Ha Hs. revert acc Ha. induction Hs as [|c s Hc Hs IH]; intros acc Ha Hv; [done|].
  simpl. rewrite Hc. unfold is_digit in Hc. zbool.
  pose proof (dec_value_ge (acc * 10 + (c - 48)) s ltac:(lia) Hs) as Hge.
  unfold dec_value in *. simpl in *.
  rewrite (proj2 (Z.ltb_lt _ _)) by lia. apply IH; lia.
Qed.

Lemma ParseUint_u64 s n : ParseUint s = Some n → is_u64 n.
Proof.
  assert (∀ acc, is_u64 acc → parse_digits acc s = Some n → is_u64 n) as H.
  { induction s as [|c s IH]; intros acc Ha; simpl; [by intros [= <-]|].
    destruct (is_digit c) eqn:Ec; [|done]. unfold is_digit in Ec. case_if; [|done]. zbool.
    apply IH. unfold is_u64 in *. lia. }
  unfold ParseUint. destruct s; [done|]. apply H. unfold is_u64. lia.
Qed.

Lemma dec_digits_digit fuel n :
  0 <= n → Forall (λ c, is_digit c = true) (dec_digits fuel n).
Proof.
  revert n; induction fuel as [|f IH]; intros n Hn; simpl; [constructor|].
  case_if; zbool.
  - constructor; [|constructor]. unfold is_digit. apply andb_true_iff; split; apply Z.leb_le; lia.
  - apply Forall_app; split; [apply IH, Z.div_pos; lia|].
    constructor; [|constructor]. pose proof (Z.mod_pos_bound n 10 ltac:(lia)).
    unfold is_digit. apply andb_true_iff; split; apply Z.leb_le; lia.
Qed.

Lemma dec_digits_value fuel n :
  0 <= n < 2 ^ Z.of_nat fuel → dec_value 0 (dec_digits fuel n) = n.
Proof.
  revert n; induction fuel as [|f IH]; intros n Hn; [simpl in *; unfold dec_value; simpl; lia|].
  rewrite Nat2Z.inj_succ, Z.pow_succ_r in Hn by lia. simpl.
  case_if; zbool; [unfold dec_value; simpl; lia|].
  unfold dec_value. rewrite foldl_app. simpl. fold (dec_value 0 (dec_digits f (n / 10))).
  rewrite IH; [dlia|]. split; [apply Z.div_pos; lia|].
  apply Z.div_lt_upper_bound; lia.
Qed.

Lemma dec_digits_nonempty f n : dec_digits (S f) n ≠ [].
Proof. simpl. case_if; [done|]. by intros [_ ?]%app_eq_nil. Qed.

Lemma fmt_uint_digit n : 0 <= n → Forall (λ c, is_digit c = true) (fmt_uint n).
Proof. apply dec_digits_digit. Qed.

Lemma fmt_uint_fuel n : 0 <= n → n < 2 ^ Z.of_nat (S (Z.to_nat (Z.log2 n))).
Proof.
  intros Hn. rewrite Nat2Z.inj_succ, Z2Nat.id by apply Z.log2_nonneg.
  destruct (decide (n = 0)) as [->|]; [simpl; lia|].
  apply Z.log2_spec; lia.
Qed.

Lemma fmt_uint_value n : 0 <= n → dec_value 0 (fmt_uint n) = n.
Proof. intros Hn. apply dec_digits_value. split; [done|]. by apply fmt_uint_fuel. Qed.

Lemma ParseUint_fmt_uint n : is_u64 n → ParseUint (fmt_uint n) = Some n.
Proof.
  intros [? ?]. pose proof (dec_digits_nonempty (Z.to_nat (Z.log2 n)) n) as Hne.
  unfold ParseUint. fold (fmt_uint n) in Hne.
  destruct (fmt_uint n) as [|c s] eqn:E; [done|]. rewrite <- E.
  rewrite parse_digits_value; rewrite ?fmt_uint_value; auto using fmt_uint_digit with lia.
Qed.

Lemma fmt_uint_inj m n : 0 <= m → 0 <= n → fmt_uint m = fmt_uint n → m = n.
Proof. intros Hm Hn E. rewrite <- (fmt_uint_value m), <- (fmt_uint_value n) by done. by rewrite E. Qed.

Lemma fmt_uint_not_elem sep n : is_digit sep = false → 0 <= n → sep ∉ fmt_uint n.
Proof.
  intros Hs Hn Hin. pose proof (fmt_uint_digit n Hn) as Hd.
  rewrite Forall_forall in Hd. specialize (Hd _ Hin). congruence.
Qed.

Lemma fmt_uint_nonempty n : fmt_uint n ≠ [].
Proof. apply dec_digits_nonempty. Qed.

#[export] Hint Resolve ParseUint_fmt_uint fmt_uint_not_elem fmt_uint_nonempty : etcfs.

(** Two numerals that are followed by the same non-digit separator agree. *)
Lemma fmt_uint_sep_inj sep m n s t :
  is_digit sep = false → 0 <= m → 0 <= n →
  fmt_uint m ++ sep :: s = fmt_uint n ++ sep :: t → m = n ∧ s = t.
Proof.
  intros Hs Hm Hn E.
  pose proof (cut_app sep (fmt_uint m) s (fmt_uint_not_elem _ _ Hs Hm)) as Em.
  pose proof (cut_app sep (fmt_uint n) t (fmt_uint_not_elem _ _ Hs Hn)) as En.
  rewrite E, En in Em. injection Em as Ed Et.
  split; [|done]. symmetry. by apply fmt_uint_inj.
Qed.

(** ** Sorted lists *)

(** Spending one unit of one entry. *)
Lemma sum_list_spend (l : list nat) i b :
  l !! i = Some (S b) → (sum_list (<[i := b]> l) + 1 = sum_list l)%nat.
Proof.
  revert i. induction l as [|x l IH]; intros [|i] H; simplify_eq/=; [lia|]. specialize (IH i H). lia.
Qed.

Lemma StronglySorted_lookup_lt {A} (R : relation A) l i j x y :
  StronglySorted R l → (i < j)%nat → l !! i = Some x → l !! j = Some y → R x y.
Proof.
  intros Hs. revert i j. induction Hs as [|a l Hs IH Ha]; intros i j Hij Hi Hj; [done|].
  destruct j as [|j]; [lia|]. destruct i as [|i]; simpl in *.
  - injection Hi as <-. eapply Forall_lookup_1; eauto.
  - eapply IH; [|eauto..]. lia.
Qed.
