(* ===== verification/Etcd.v ===== *)
(** * The etcd interface and the programs that talk to it

    EtcFS keeps every structural fact in etcd.  etcd itself is not part of the
    repository, so it is a parameter here: the class [Etcd] is a server the
    daemon's programs talk to, and its one law says that each answer is one
    that etcd's documentation allows ([etcd_ok]).  A request may fail, and a
    failed mutation may or may not have taken effect, which is what a lost
    reply means.  The clock, the device fencer, the block device and the kernel
    behind the FUSE daemon, which the daemon also asks and which hold no record
    in etcd, answer through the same interface.

    The daemon's operations are programs ([prog]): trees of requests whose
    continuations receive the replies.  They run alone ([run]) or interleaved
    with other nodes' programs and lease expiry ([cstep]); [wp] is the
    rely/guarantee reasoning the components use. *)

From S2P Require Import Prelude.

(** ** Requests of the etcd v3 client *)

Inductive cmp_op := CEq | CNe | CGt.

Inductive cmp_target :=
| TCreate (rev : Z)   (* clientv3.CreateRevision *)
| TMod (rev : Z)      (* clientv3.ModRevision *)
| TValue (v : bytes). (* clientv3.Value *)

(** [clientv3.Compare(target(key), op, v)], over a prefix with [WithPrefix]. *)
Record cmp := Cmp { c_key : bytes; c_prefix : bool; c_op : cmp_op; c_target : cmp_target }.

Inductive op :=
| OpPut (k v : bytes) (lease : Z)   (* lease 0: no lease *)
| OpDelete (k : bytes) (prefix : bool).

Inductive range :=
| RKey (k : bytes)
| RPrefix (p : bytes)
| RAfter (start p : bytes) (limit : Z).  (* keys under [p] from [start] on; limit 0: none *)

(** One stored record: value, creation and modification revision, lease. *)
Record kv := KV { kv_val : bytes; kv_create : Z; kv_mod : Z; kv_lease : Z }.
#[global] Instance kv_eq_dec : EqDecision kv.
Proof. solve_decision. Defined.

Inductive op_resp := RPut | RDel (deleted : Z).

Record txn_resp := TxnResp { succeeded : bool; rrev : Z; rresps : list op_resp }.

(** Requests to the shared block device (pkg/blockio) and, through the FUSE
    daemon, to the kernel's page cache. *)
Inductive io_req :=
| AddrAligned (n : Z)                   (* is this [n]-byte slice's address sector-aligned? *)
| AlignedBuffer (n : Z)                 (* could the aligned buffer be mapped? *)
| DevWrite (off : Z) (b : bytes)        (* WriteAt: done? *)
| DevRead (off len : Z)                 (* ReadAt *)
| DevFlush                              (* FlushDevice: done? *)
| DevSync (off len : Z)                 (* SyncRange: done? *)
| DevSize                               (* RefreshSize *)
| InvalPages (ino : Z).                 (* drop the inode's kernel pages *)

Inductive inval := InvalDone | InvalNoClient | InvalFailed.

Definition io_resp (i : io_req) : Type :=
  match i with
  | DevRead _ _ => option bytes
  | DevSize => option Z
  | InvalPages _ => inval
  | _ => bool
  end.

Inductive req :=
| QRange (r : range) (serializable : bool)
| QReadTxn (rs : list range) (serializable : bool)
| QTxn (ifs : list cmp) (thens elses : list op)
| QPut (k v : bytes) (lease : Z)
| QDelete (k : bytes) (prefix : bool)
| QNow                                  (* time.Now *)
| QNewSession (ttl : Z)                 (* Lease.Grant, concurrency.NewSession *)
| QSessionDone (lease : Z)              (* has the session ended? *)
| QSessionClose (lease : Z)             (* Lease.Revoke, session.Close *)
| QBackoff (attempt : nat)              (* casBackoff: has the context ended? *)
| QFence (node instance : bytes)        (* Fencer.Fence: is severance confirmed? *)
| QIO (i : io_req).                     (* device and page cache *)

(** Replies; [None] is an error of the call. *)
Definition resp (q : req) : Type :=
  match q with
  | QRange _ _ => option (list (bytes * kv) * Z)
  | QReadTxn _ _ => option (list (list (bytes * kv)))
  | QTxn _ _ _ => option txn_resp
  | QPut _ _ _ => option Z
  | QDelete _ _ => option Z
  | QNow => Z
  | QNewSession _ => option Z
  | QSessionDone _ => bool
  | QSessionClose _ => option unit
  | QBackoff _ => bool
  | QFence _ _ => bool
  | QIO i => io_resp i
  end.

(** ** The documented behaviour of the store *)

Record mvcc := MVCC { mrev : Z; mkvs : gmap bytes kv; mleases : gset Z }.

Fixpoint bytes_leb (a b : bytes) : bool :=
  match a, b with
  | [], _ => true
  | _ :: _, [] => false
  | x :: a', y :: b' => if x <? y then true else if x =? y then bytes_leb a' b' else false
  end.

Definition key_le (x y : bytes * kv) : Prop := bytes_leb x.1 y.1 = true.
#[global] Instance key_le_dec : RelDecision key_le.
Proof. intros x y. unfold key_le. apply _. Defined.

Definition in_range (r : range) (k : bytes) : bool :=
  match r with
  | RKey k' => bool_decide (k = k')
  | RPrefix p => has_prefix p k
  | RAfter start p _ => has_prefix p k && bytes_leb start k
  end.

Definition range_all (r : range) (m : gmap bytes kv) : list (bytes * kv) :=
  merge_sort key_le (filter (λ x, in_range r x.1 = true) (map_to_list m)).

Definition range_kvs (r : range) (m : mvcc) : list (bytes * kv) :=
  match r with
  | RKey k => match mkvs m !! k with Some e => [(k, e)] | None => [] end
  | RPrefix _ => range_all r (mkvs m)
  | RAfter _ _ limit =>
    if 0 <? limit then take (Z.to_nat limit) (range_all r (mkvs m)) else range_all r (mkvs m)
  end.

Definition cmp_int (o : cmp_op) (stored want : Z) : bool :=
  match o with CEq => stored =? want | CNe => negb (stored =? want) | CGt => want <? stored end.

Definition cmp_bytes (o : cmp_op) (stored want : bytes) : bool :=
  match o with
  | CEq => bool_decide (stored = want)
  | CNe => negb (bool_decide (stored = want))
  | CGt => bytes_leb want stored && negb (bool_decide (stored = want))
  end.

(** A comparison against one existing record. *)
Definition cmp_kv (c : cmp) (e : kv) : bool :=
  match c_target c with
  | TCreate z => cmp_int (c_op c) (kv_create e) z
  | TMod z => cmp_int (c_op c) (kv_mod e) z
  | TValue v => cmp_bytes (c_op c) (kv_val e) v
  end.

(** A comparison against nothing: revisions are 0, a value comparison fails. *)
Definition cmp_missing (c : cmp) : bool :=
  match c_target c with
  | TCreate z | TMod z => cmp_int (c_op c) 0 z
  | TValue _ => false
  end.

(** A comparison over a range holds when it holds of every key in it. *)
Definition eval_cmp (m : gmap bytes kv) (c : cmp) : bool :=
  if c_prefix c then
    match range_all (RPrefix (c_key c)) m with
    | [] => cmp_missing c
    | l => forallb (λ x, cmp_kv c x.2) l
    end
  else match m !! c_key c with Some e => cmp_kv c e | None => cmp_missing c end.

Definition put_kv (rev : Z) (k v : bytes) (lease : Z) (m : gmap bytes kv) : gmap bytes kv :=
  <[k := KV v (match m !! k with Some e => kv_create e | None => rev end) rev lease]> m.

Definition del_keys (k : bytes) (prefix : bool) (m : gmap bytes kv) : gmap bytes kv :=
  if prefix then filter (λ x, has_prefix k x.1 = false) m else delete k m.

Definition apply_op (rev : Z) (m : gmap bytes kv) (o : op) : gmap bytes kv * op_resp :=
  match o with
  | OpPut k v lease => (put_kv rev k v lease m, RPut)
  | OpDelete k p => (del_keys k p m, RDel (Z.of_nat (size m - size (del_keys k p m))))
  end.

Fixpoint apply_ops (rev : Z) (m : gmap bytes kv) (os : list op) : gmap bytes kv * list op_resp :=
  match os with
  | [] => (m, [])
  | o :: os' =>
    let '(m1, r) := apply_op rev m o in
    let '(m2, rs) := apply_ops rev m1 os' in (m2, r :: rs)
  end.

Definition op_changed (r : op_resp) : bool :=
  match r with RPut => true | RDel n => 0 <? n end.

(** All comparisons hold: the [thens] are applied, otherwise the [elses]; the
    store moves to the next revision when anything changed. *)
Definition mvcc_ops (m : mvcc) (os : list op) : mvcc * list op_resp :=
  let '(kvs', rs) := apply_ops (mrev m + 1) (mkvs m) os in
  (MVCC (if existsb op_changed rs then mrev m + 1 else mrev m) kvs' (mleases m), rs).

Definition txn_branch (m : mvcc) (ifs : list cmp) (thens elses : list op) : bool * list op :=
  if forallb (eval_cmp (mkvs m)) ifs then (true, thens) else (false, elses).

Definition mvcc_txn (m : mvcc) (ifs : list cmp) (thens elses : list op) : mvcc * txn_resp :=
  let '(b, os) := txn_branch m ifs thens elses in
  let '(m', rs) := mvcc_ops m os in (m', TxnResp b (mrev m') rs).

(** "It is not allowed to modify the same key several times within one txn". *)
Definition op_puts (o : op) : list bytes := match o with OpPut k _ _ => [k] | _ => [] end.
Definition op_covers (o : op) (k : bytes) : bool :=
  match o with
  | OpPut _ _ _ => false
  | OpDelete k' p => if p then has_prefix k' k else bool_decide (k = k')
  end.
Definition ops_distinct (os : list op) : bool :=
  let puts := concat (map op_puts os) in
  bool_decide (NoDup puts) && forallb (λ k, negb (existsb (λ o, op_covers o k) os)) puts.

Definition op_lease_live (m : mvcc) (o : op) : bool :=
  match o with
  | OpPut _ _ l => (l =? 0) || bool_decide (l ∈ mleases m)
  | OpDelete _ _ => true
  end.

(** etcd's default --max-txn-ops. *)
Definition max_txn_ops : nat := 128.

Definition txn_valid (m : mvcc) (ifs : list cmp) (thens elses : list op) : bool :=
  ops_distinct thens && ops_distinct elses &&
  bool_decide (length ifs <= max_txn_ops)%nat &&
  bool_decide (length thens <= max_txn_ops)%nat &&
  bool_decide (length elses <= max_txn_ops)%nat &&
  forallb (op_lease_live m) (snd (txn_branch m ifs thens elses)).

(** Lease expiry deletes every key attached to the lease (lease 0 is none). *)
Definition mvcc_expire (l : Z) (m : mvcc) : mvcc :=
  let kvs' := filter (λ x, kv_lease x.2 ≠ l ∨ l = 0) (mkvs m) in
  MVCC (if bool_decide (kvs' = mkvs m) then mrev m else mrev m + 1) kvs' (mleases m ∖ {[l]}).

(** [m'] is a later state of the same store: whatever it holds at a revision
    [m] had already reached was there, unchanged, in [m]. *)
Definition evolves (m m' : mvcc) : Prop :=
  mrev m <= mrev m' ∧
  ∀ k e, mkvs m' !! k = Some e → kv_mod e <= mrev m → mkvs m !! k = Some e.

(** The outcomes documented for a request that the server answers. *)
Definition etcd_exact (q : req) (m m' : mvcc) : resp q → Prop :=
  match q return resp q → Prop with
  | QRange r false => λ a, m' = m ∧ a = Some (range_kvs r m, mrev m)
  | QRange r true => λ a,
    m' = m ∧ (∃ m0, evolves m0 m ∧ a = Some (range_kvs r m0, mrev m0))
  | QReadTxn rs false => λ a, m' = m ∧ a = Some (map (λ r, range_kvs r m) rs)
  | QReadTxn rs true => λ a,
    m' = m ∧ (∃ m0, evolves m0 m ∧ a = Some (map (λ r, range_kvs r m0) rs))
  | QTxn ifs thens elses => λ a,
    (if txn_valid m ifs thens elses
     then m' = (mvcc_txn m ifs thens elses).1 ∧ a = Some (mvcc_txn m ifs thens elses).2
     else m' = m ∧ a = None)
  | QPut k v l => λ a,
    (if op_lease_live m (OpPut k v l)
     then m' = (mvcc_ops m [OpPut k v l]).1 ∧ a = Some (mrev m')
     else m' = m ∧ a = None)
  | QDelete k p => λ a,
    m' = (mvcc_ops m [OpDelete k p]).1 ∧
    a = Some (Z.of_nat (size (mkvs m) - size (mkvs m')))
  | QNow => λ _, m' = m
  | QNewSession _ => λ a,
    (∃ l, 0 < l ∧ l ∉ mleases m ∧ (∀ k e, mkvs m !! k = Some e → kv_lease e ≠ l) ∧
    m' = MVCC (mrev m) (mkvs m) (mleases m ∪ {[l]}) ∧ a = Some l)
  | QSessionDone _ => λ _, m' = m
  | QSessionClose l => λ a, m' = mvcc_expire l m ∧ a = Some tt
  | QBackoff _ => λ _, m' = m
  | QFence _ _ => λ _, m' = m
  | QIO _ => λ _, m' = m
  end.

(** The reply of a call that failed. *)
Definition is_fault (q : req) : resp q → Prop :=
  match q return resp q → Prop with
  | QNow | QSessionDone _ | QBackoff _ | QFence _ _ | QIO _ => λ _, False
  | _ => λ a, a = None
  end.

(** Every documented outcome: the answer, or a failure after which the request
    may or may not have taken effect. *)
Definition etcd_ok (q : req) (m m' : mvcc) (a : resp q) : Prop :=
  etcd_exact q m m' a ∨
  (is_fault q a ∧ (m' = m ∨ ∃ a', etcd_exact q m m' a')).

(** ** The server, a parameter *)

Class Etcd := {
  esrv : Type;
  eview : esrv → mvcc;
  eserve : ∀ q : req, esrv → esrv * resp q;
  eexpire : Z → esrv → esrv;
  etcd_documented : ∀ q s, etcd_ok q (eview s) (eview (eserve q s).1) (eserve q s).2;
  etcd_expiry : ∀ l s, eview (eexpire l s) = mvcc_expire l (eview s)
}.

(** A server that answers every call. *)
Class ReliableEtcd (E : Etcd) : Prop :=
  etcd_answers : ∀ q s, etcd_exact q (eview s) (eview (eserve q s).1) (eserve q s).2.

(** ** Programs *)

Inductive prog (A : Type) : Type :=
| Ret (a : A)
| Call (q : req) (k : resp q → prog A).
Arguments Ret {A} a.
Arguments Call {A} q k.

Fixpoint bind {A B} (p : prog A) (f : A → prog B) : prog B :=
  match p with
  | Ret a => f a
  | Call q k => Call q (λ r, bind (k r) f)
  end.

Definition call (q : req) : prog (resp q) := Call q Ret.

Notation "x ⇐ p ; q" := (bind p (λ x, q))
  (at level 100, p at next level, right associativity) : etcfs_scope.
Open Scope etcfs_scope.

(** The sentinel errors of pkg/metadata and internal/ipc ([errors.Is] sees
    through the wrapping text), [EEtcd] for a failed call, [ErrDevice] for
    failed device I/O and [EOther] for an error that wraps none. *)
Inductive err :=
| EEtcd | EOther
| ErrConflict | ErrExists | ErrFenced | ErrGuardUnavailable | ErrNotEmpty | ErrNotDir
| ErrIsDir | ErrInvalid | ErrNotFound | ErrPerm | ErrNoData | ErrTooBig | ErrNoSpace
| ErrDevice | ErrUnaligned | ErrExtentChanged | ErrBufferPublished | ErrNotYielded.
#[global] Instance err_eq_dec : EqDecision err.
Proof. solve_decision. Defined.

Inductive result (A : Type) := Ok (a : A) | Err (e : err).
Arguments Ok {A} a.
Arguments Err {A} e.

(** [if err != nil { return err }]. *)
Definition ebind {A B} (p : prog (result A)) (f : A → prog (result B)) : prog (result B) :=
  bind p (λ r, match r with Ok a => f a | Err e => Ret (Err e) end).
Notation "x ⇐? p ; q" := (ebind p (λ x, q))
  (at level 100, p at next level, right associativity) : etcfs_scope.

(** ** Running a program *)

Section running.
Context `{E : Etcd}.

Fixpoint run {A} (p : prog A) (s : esrv) : esrv * A :=
  match p with
  | Ret a => (s, a)
  | Call q k => let '(s', r) := eserve q s in run (k r) s'
  end.

(** One step of a cluster: some client's next request is served, or the
    server expires a lease. *)
Inductive cstep {A} : esrv * list (prog A) → esrv * list (prog A) → Prop :=
  | cstep_call s ps i q k :
  ps !! i = Some (Call q k) →
  cstep (s, ps) ((eserve q s).1, <[i := k (eserve q s).2]> ps)
  | cstep_expire s ps l : cstep (s, ps) (eexpire l s, ps).

(** The same steps driven by a schedule, for evaluation. *)
Inductive event := Step (i : nat) | Expire (l : Z).
Definition cexec {A} (c : esrv * list (prog A)) (ev : event) : esrv * list (prog A) :=
  match ev with
  | Step i => match c.2 !! i with
              | Some (Call q k) => ((eserve q c.1).1, <[i := k (eserve q c.1).2]> c.2)
              | _ => c
              end
  | Expire l => (eexpire l c.1, c.2)
  end.
End running.

(** ** Rely/guarantee reasoning

    [wp X R G p Q (m, g)]: started when the store is [m], with the environment
    moving the store by [R] before every request, each request of [p] answered
    as [X] allows moves the store by [G], and a result [a] satisfies [Q a].
    [g] is auxiliary state of the proof (a log of what was granted, say): every
    request may extend it, no program can see it. *)
Section logic.
Context {Γ : Type} (X : ∀ q : req, mvcc → mvcc → resp q → Prop).
Context (R G : mvcc * Γ → mvcc * Γ → Prop).

Fixpoint wp {A} (p : prog A) (Q : A → mvcc * Γ → Prop) (σ : mvcc * Γ) : Prop :=
  match p with
  | Ret a => ∀ σ1, R σ σ1 → Q a σ1
  | Call q k =>
    ∀ σ1 m2 r, R σ σ1 → X q σ1.1 m2 r → ∃ g2, G σ1 (m2, g2) ∧ wp (k r) Q (m2, g2)
  end.

Lemma wp_mono {A} (p : prog A) (Q Q' : A → mvcc * Γ → Prop) σ :
  (∀ a σ, Q a σ → Q' a σ) → wp p Q σ → wp p Q' σ.
Proof.
  intros HQ. revert σ. induction p as [a|q k IH]; simpl; intros σ Hp; [eauto|].
  intros σ1 m2 r HR HX. destruct (Hp _ _ _ HR HX) as (g2 & ? & ?). eauto.
Qed.

Context `{!PreOrder R}.

Lemma wp_rely {A} (p : prog A) Q σ σ1 : R σ σ1 → wp p Q σ → wp p Q σ1.
Proof.
  intros HR. destruct p as [a|q k]; simpl; intros Hp.
  - intros m2 ?. apply Hp. by trans σ1.
  - intros m2 m3 r ??. apply Hp; [by trans σ1|done].
Qed.

Lemma wp_bind {A B} (p : prog A) (f : A → prog B) Q σ :
  wp p (λ a σ1, wp (f a) Q σ1) σ → wp (bind p f) Q σ.
Proof.
  revert σ. induction p as [a|q k IH]; simpl; intros σ Hp; [by apply Hp|].
  intros σ1 m2 r HR HX. destruct (Hp _ _ _ HR HX) as (g2 & ? & ?). eauto.
Qed.

Lemma wp_ebind {A B} (p : prog (result A)) (f : A → prog (result B)) Q σ :
  wp p (λ r σ1, match r with Ok a => wp (f a) Q σ1 | Err e => wp (Ret (Err e)) Q σ1 end) σ →
  wp (ebind p f) Q σ.
Proof.
  intros Hp. apply wp_bind. eapply wp_mono; [|exact Hp]. by intros [a|e] σ1.
Qed.
End logic.

(** Every request a program can issue, whatever the replies, satisfies [P]. *)
Fixpoint issues (P : req → Prop) {A} (p : prog A) : Prop :=
  match p with
  | Ret _ => True
  | Call q k => P q ∧ ∀ r, issues P (k r)
  end.

Lemma issues_bind P {A B} (p : prog A) (f : A → prog B) :
  issues P p → (∀ a, issues P (f a)) → issues P (bind p f).
Proof. intros Hp Hf. induction p as [a|q k IH]; simpl in *; [done|]. destruct Hp. split; auto. Qed.

Lemma issues_bind_inv P {A B} (p : prog A) (f : A → prog B) : issues P (bind p f) → issues P p.
Proof. induction p as [a|q k IH]; simpl; [done|]. intros [? Hk]. split; auto. Qed.

Lemma issues_ebind P {A B} (p : prog (result A)) (f : A → prog (result B)) :
  issues P p → (∀ a, issues P (f a)) → issues P (ebind p f).
Proof. intros Hp Hf. apply issues_bind; [done|]. by intros [a|e]; simpl. Qed.

Lemma issues_mono (P P' : req → Prop) {A} (p : prog A) :
  (∀ q, P q → P' q) → issues P p → issues P' p.
Proof. intros HP. induction p as [a|q k IH]; simpl; [done|]. intros [? ?]. split; auto. Qed.

(** ** Disciplines over every possible run of a program *)

Section discipline.
Context {S : Type} (ok : S → req → Prop) (upd : S → ∀ q, resp q → S).

(** Whatever the replies, every request is allowed in the phase it is made
    in, and the run ends in a phase and with a result that [Q] accepts. *)
Fixpoint obeys {A} (st : S) (p : prog A) (Q : S → A → Prop) : Prop :=
  match p with
  | Ret a => Q st a
  | Call q k => ok st q ∧ ∀ r, obeys (upd st q r) (k r) Q
  end.

Lemma obeys_bind {A B} (p : prog A) (f : A → prog B) st Q :
  obeys st p (λ st' a, obeys st' (f a) Q) → obeys st (bind p f) Q.
Proof. revert st. induction p as [a|q k IH]; intros st; simpl; [done|]. intros [? Hk]. split; eauto. Qed.

Lemma obeys_mono {A} (p : prog A) st (Q Q' : S → A → Prop) :
  (∀ st a, Q st a → Q' st a) → obeys st p Q → obeys st p Q'.
Proof. intros HQ. revert st. induction p as [a|q k IH]; intros st; simpl; [eauto|]. intros [? Hk]. split; eauto. Qed.

(** A part that only makes requests without consequence. *)
Lemma obeys_idle {A} (P : req → Prop) (p : prog A) st (Q : S → A → Prop) :
  (∀ q, P q → ok st q ∧ ∀ r, upd st q r = st) → issues P p → (∀ a, Q st a) → obeys st p Q.
Proof.
  intros HP. induction p as [a|q k IH]; simpl; [eauto|]. intros [Hq Hk] HQ.
  destruct (HP q Hq) as [Hok Hu]. split; [done|]. intros r. rewrite Hu. eauto.
Qed.
End discipline.
