(* ===== verification/EtcdFacts.v ===== *)
(** * Facts about the etcd interface

    What a transaction does to one key, that every answered or failed request
    only moves the store forward ([evolves]), the meaning of the comparisons
    the daemon uses, soundness of the rely/guarantee logic for interleaved
    clients, and a reference server that shows the interface can be met. *)

From S2P Require Import Prelude Etcd.

(** ** The order of keys *)

Lemma leb_refl a : bytes_leb a a = true.
Proof. induction a as [|x a IH]; simpl; [done|]. by rewrite Z.ltb_irrefl, Z.eqb_refl. Qed.
Lemma leb_trans a b c : bytes_leb a b = true → bytes_leb b c = true → bytes_leb a c = true.
Proof.
  revert b c. induction a as [|x a IH]; intros [|y b] [|z c]; simpl; try done.
  destruct (Z.ltb_spec x y), (Z.ltb_spec y z), (Z.ltb_spec x z), (Z.eqb_spec x y), (Z.eqb_spec y z), (Z.eqb_spec x z);
    try done; try lia. apply IH.
Qed.
Lemma leb_total a b : bytes_leb a b = true ∨ bytes_leb b a = true.
Proof.
  revert b. induction a as [|x a IH]; intros [|y b]; simpl; auto.
  destruct (Z.ltb_spec x y), (Z.ltb_spec y x), (Z.eqb_spec x y), (Z.eqb_spec y x); auto; lia.
Qed.
Lemma leb_antisym a b : bytes_leb a b = true → bytes_leb b a = true → a = b.
Proof.
  revert b. induction a as [|x a IH]; intros [|y b]; simpl; try done.
  destruct (Z.ltb_spec x y), (Z.ltb_spec y x), (Z.eqb_spec x y), (Z.eqb_spec y x); try done; try lia. intros. f_equal; auto.
Qed.

(** ** Transactions that modify no key twice *)

Lemma ops_distinct_intro os :
  NoDup (concat (map op_puts os)) →
  (∀ k o, k ∈ concat (map op_puts os) → o ∈ os → op_covers o k = false) → ops_distinct os = true.
Proof.
  intros Hn Hc. unfold ops_distinct. rewrite bool_decide_eq_true_2 by done. simpl.
  apply forallb_forall. intros k Hk. apply negb_true_iff, not_true_is_false. rewrite existsb_exists.
  intros (o & Ho & Hcov). rewrite (Hc k o) in Hcov; [done|by apply list_elem_of_In..].
Qed.

(** ** Range reads *)

Lemma elem_of_range_all r m k e :
  (k, e) ∈ range_all r m ↔ m !! k = Some e ∧ in_range r k = true.
Proof.
  unfold range_all. rewrite merge_sort_Permutation, list_elem_of_filter, elem_of_map_to_list.
  simpl. tauto.
Qed.

Lemma elem_of_range_prefix p m k e :
  (k, e) ∈ range_kvs (RPrefix p) m ↔ mkvs m !! k = Some e ∧ has_prefix p k = true.
Proof. apply elem_of_range_all. Qed.

Lemma range_all_nil r m :
  range_all r m = [] ↔ ∀ k e, m !! k = Some e → in_range r k = false.
Proof.
  split.
  - intros E k e Hk. apply not_true_is_false. intros Hr.
    assert ((k, e) ∈ range_all r m) as Hin by by apply elem_of_range_all.
    rewrite E in Hin. by apply not_elem_of_nil in Hin.
  - intros H. destruct (range_all r m) as [|[k e] l] eqn:E; [done|].
    assert ((k, e) ∈ range_all r m) as Hin by (rewrite E; left).
    apply elem_of_range_all in Hin as [Hk Hr]. rewrite (H _ _ Hk) in Hr. done.
Qed.

(** ** What the operations of a transaction do to one key *)

Definition op_touches (o : op) (k : bytes) : bool :=
  match o with
  | OpPut k' _ _ => bool_decide (k = k')
  | OpDelete k' p => if p then has_prefix k' k else bool_decide (k = k')
  end.

Lemma del_keys_lookup k p m k' :
  del_keys k p m !! k' = if op_touches (OpDelete k p) k' then None else m !! k'.
Proof.
  unfold del_keys, op_touches. destruct p.
  - destruct (has_prefix k k') eqn:E.
    + apply map_lookup_filter_None. right. intros e _. simpl. congruence.
    + destruct (m !! k') as [e|] eqn:Em.
      * by apply map_lookup_filter_Some.
      * apply map_lookup_filter_None. by left.
  - case_bool_decide; subst; by simplify_map_eq.
Qed.

Lemma apply_op_untouched rev m o k :
  op_touches o k = false → (apply_op rev m o).1 !! k = m !! k.
Proof.
  destruct o as [k' v l|k' p]; simpl; intros Ht.
  - apply bool_decide_eq_false in Ht. unfold put_kv. by rewrite lookup_insert_ne by congruence.
  - rewrite del_keys_lookup. simpl. by rewrite Ht.
Qed.

Lemma apply_ops_cons rev m o os :
  (apply_ops rev m (o :: os)).1 = (apply_ops rev (apply_op rev m o).1 os).1.
Proof. simpl. destruct (apply_op rev m o) as [m1 r]. simpl. by destruct (apply_ops rev m1 os). Qed.

Lemma apply_ops_untouched rev m os k :
  Forall (λ o, op_touches o k = false) os → (apply_ops rev m os).1 !! k = m !! k.
Proof.
  intros H. revert m. induction H as [|o os Ho Hos IH]; intros m; [done|].
  rewrite apply_ops_cons, IH. by apply apply_op_untouched.
Qed.

(** Where a record found after a transaction comes from. *)
Lemma apply_ops_lookup rev m os k e :
  (apply_ops rev m os).1 !! k = Some e →
  m !! k = Some e ∨
  (kv_mod e = rev ∧ OpPut k (kv_val e) (kv_lease e) ∈ os ∧
   (kv_create e = rev ∨ ∃ e0, m !! k = Some e0 ∧ kv_create e = kv_create e0)).
Proof.
  revert m. induction os as [|o os IH]; intros m Hk; [by left|].
  rewrite apply_ops_cons in Hk. apply IH in Hk as [Hk|(Hm & Hin & Hc)].
  - destruct o as [k' v l|k' p]; simpl in Hk.
    + unfold put_kv in Hk. destruct (decide (k' = k)) as [->|Hne].
      * rewrite lookup_insert_eq in Hk. injection Hk as <-. right. simpl.
        split; [done|]. split; [by left|]. destruct (m !! k); naive_solver.
      * rewrite lookup_insert_ne in Hk by done. by left.
    + rewrite del_keys_lookup in Hk. case_match; by try left.
  - right. split; [done|]. split; [by right|].
    destruct Hc as [?|(e0 & He0 & Hc)]; [by left|].
    destruct o as [k' v l|k' p]; simpl in He0.
    + unfold put_kv in He0. destruct (decide (k' = k)) as [->|Hne].
      * rewrite lookup_insert_eq in He0. injection He0 as <-. simpl in Hc.
        destruct (m !! k); naive_solver.
      * rewrite lookup_insert_ne in He0 by done. naive_solver.
    + rewrite del_keys_lookup in He0. case_match; naive_solver.
Qed.

(** ** The effect of a transaction on one key: the last operation wins *)

Definition op_effect (o : op) (k : bytes) : option (option (bytes * Z)) :=
  if op_touches o k then Some match o with OpPut _ v l => Some (v, l) | OpDelete _ _ => None end
  else None.

Fixpoint ops_effect (os : list op) (k : bytes) : option (option (bytes * Z)) :=
  match os with
  | [] => None
  | o :: os' => match ops_effect os' k with Some x => Some x | None => op_effect o k end
  end.

Lemma ops_effect_app os1 os2 k :
  ops_effect (os1 ++ os2) k = match ops_effect os2 k with Some x => Some x | None => ops_effect os1 k end.
Proof. induction os1 as [|o os IH]; simpl; [by destruct (ops_effect os2 k)|]. rewrite IH. by destruct (ops_effect os2 k). Qed.

Lemma ops_effect_untouched os k : Forall (λ o, op_touches o k = false) os → ops_effect os k = None.
Proof. induction 1 as [|o os Ho _ IH]; simpl; [done|]. rewrite IH. unfold op_effect. by rewrite Ho. Qed.

Lemma ops_effect_source os k x : ops_effect os k = Some x → ∃ o, o ∈ os ∧ op_effect o k = Some x.
Proof.
  induction os as [|o os IH]; simpl; [done|]. destruct (ops_effect os k) as [y|].
  - intros [= ->]. destruct (IH eq_refl) as (o' & ? & ?). exists o'. split; [by right|done].
  - intros Ho. exists o. split; [left|done].
Qed.

(** Value and lease of a key: what a client can store in it. *)
Definition val_at (k : bytes) (m : mvcc) : option (bytes * Z) :=
  (λ e, (kv_val e, kv_lease e)) <$> mkvs m !! k.

Lemma apply_ops_effect rev m os k :
  (λ e, (kv_val e, kv_lease e)) <$> (apply_ops rev m os).1 !! k =
  match ops_effect os k with Some x => x | None => (λ e, (kv_val e, kv_lease e)) <$> m !! k end.
Proof.
  revert m. induction os as [|o os IH]; intros m; [done|]. rewrite apply_ops_cons, IH. simpl.
  destruct (ops_effect os k); [done|]. unfold op_effect. destruct (op_touches o k) eqn:Et.
  - destruct o as [k' v l|k' p]; simpl in *.
    + apply bool_decide_eq_true in Et as ->. unfold put_kv. by rewrite lookup_insert_eq.
    + rewrite del_keys_lookup. simpl. by rewrite Et.
  - by rewrite apply_op_untouched.
Qed.

(** The same for the value and the modification revision. *)
Lemma apply_ops_kv rev m os k :
  (λ e, (kv_val e, kv_mod e)) <$> (apply_ops rev m os).1 !! k =
  match ops_effect os k with
  | Some x => (λ y, (y.1, rev)) <$> x
  | None => (λ e, (kv_val e, kv_mod e)) <$> m !! k
  end.
Proof.
  revert m. induction os as [|o os IH]; intros m; [done|]. rewrite apply_ops_cons, IH. simpl.
  destruct (ops_effect os k); [done|]. unfold op_effect. destruct (op_touches o k) eqn:Et.
  - destruct o as [k' v l|k' p]; simpl in *.
    + apply bool_decide_eq_true in Et as ->. unfold put_kv. by rewrite lookup_insert_eq.
    + rewrite del_keys_lookup. simpl. by rewrite Et.
  - by rewrite apply_op_untouched.
Qed.

(** In a transaction that modifies no key twice, a put decides its key. *)
Lemma put_unique k v l v' l' os :
  NoDup (concat (map op_puts os)) → OpPut k v l ∈ os → OpPut k v' l' ∈ os → v = v' ∧ l = l'.
Proof.
  induction os as [|o os IH]; [by intros _ ?%elem_of_nil|].
  intros Hn H1 H2. simpl in Hn. apply NoDup_app in Hn as (Hn1 & Hd & Hn2).
  assert (∀ v l, OpPut k v l ∈ os → k ∈ concat (map op_puts os)) as Hin.
  { clear. intros v l Hi. induction os as [|o os IH]; [by apply elem_of_nil in Hi|]. simpl.
    apply elem_of_app. apply elem_of_cons in Hi as [<-|Hi]; [left; simpl; left|right; auto]. }
  apply elem_of_cons in H1 as [E1|H1]; apply elem_of_cons in H2 as [E2|H2].
  - rewrite <- E1 in E2. by simplify_eq.
  - destruct (Hd k); [rewrite <- E1; simpl; left|eauto].
  - destruct (Hd k); [rewrite <- E2; simpl; left|eauto].
  - eauto.
Qed.

Lemma ops_distinct_spec os :
  ops_distinct os = true →
  NoDup (concat (map op_puts os)) ∧
  ∀ k v l o, OpPut k v l ∈ os → o ∈ os → op_covers o k = false.
Proof.
  unfold ops_distinct. intros [Hn Hf]%andb_true_iff. apply bool_decide_eq_true in Hn. split; [done|].
  intros k v l o Hk Ho. rewrite forallb_forall in Hf. apply not_true_is_false. intros Hc.
  specialize (Hf k). rewrite negb_true_iff in Hf. assert (k ∈ concat (map op_puts os)) as Hin.
  { clear -Hk. induction os as [|o os IH]; [by apply elem_of_nil in Hk|]. simpl.
    apply elem_of_app. apply elem_of_cons in Hk as [<-|Hi]; [left; simpl; left|right; auto]. }
  assert (existsb (λ o, op_covers o k) os = true) as Hx by (apply existsb_exists; exists o; by rewrite <- list_elem_of_In).
  rewrite Hf in Hx; [done|by apply list_elem_of_In].
Qed.

Lemma ops_effect_touched os k : ops_effect os k = None → Forall (λ o, op_touches o k = false) os.
Proof.
  induction os as [|o os IH]; [constructor|]. simpl. destruct (ops_effect os k); [done|].
  unfold op_effect. destruct (op_touches o k) eqn:E; [done|]. constructor; auto.
Qed.

Lemma ops_effect_put os k v l :
  ops_distinct os = true → OpPut k v l ∈ os → ops_effect os k = Some (Some (v, l)).
Proof.
  intros [Hn Hc]%ops_distinct_spec Hin. destruct (ops_effect os k) as [x|] eqn:E.
  - apply ops_effect_source in E as (o & Ho & He). unfold op_effect in He.
    destruct (op_touches o k) eqn:Et; [|done]. injection He as <-. destruct o as [k' v' l'|k' p].
    + simpl in Et. apply bool_decide_eq_true in Et as <-.
      by destruct (put_unique k v l v' l' os Hn Hin Ho) as [-> ->].
    + specialize (Hc k v l _ Hin Ho). simpl in *. by rewrite Hc in Et.
  - apply ops_effect_touched in E. rewrite Forall_forall in E. specialize (E _ Hin). simpl in E.
    by rewrite bool_decide_eq_true_2 in E.
Qed.

(** A record that a transaction changed or removed was touched by an operation
    that reported a change. *)
Lemma apply_op_changed rev m o :
  op_changed (apply_op rev m o).2 = false → (apply_op rev m o).1 = m.
Proof.
  destruct o as [k v l|k p]; simpl; [done|]. intros Hs. zbool.
  assert (del_keys k p m ⊆ m) as Hsub.
  { apply map_subseteq_spec. intros k' e He. rewrite del_keys_lookup in He. by case_match. }
  apply map_eq. intros k'. apply map_subseteq_size_eq in Hsub; [by rewrite Hsub|].
  apply map_subseteq_size in Hsub. lia.
Qed.

Lemma apply_ops_unchanged rev m os :
  existsb op_changed (apply_ops rev m os).2 = false → (apply_ops rev m os).1 = m.
Proof.
  revert m. induction os as [|o os IH]; intros m; [done|].
  rewrite apply_ops_cons. simpl.
  pose proof (apply_op_changed rev m o) as Ho.
  destruct (apply_op rev m o) as [m1 r]. simpl in *. specialize (IH m1).
  destruct (apply_ops rev m1 os) as [m2 rs]. simpl in *.
  intros [Hr Hrs]%orb_false_iff. rewrite (IH Hrs). auto.
Qed.

(** ** Transactions move the store forward *)

Definition mvcc_wf (m : mvcc) : Prop :=
  0 <= mrev m ∧
  ∀ k e, mkvs m !! k = Some e → 0 < kv_create e <= kv_mod e ∧ kv_mod e <= mrev m.

#[global] Instance evolves_preorder : PreOrder evolves.
Proof.
  split; [split; [lia|done]|].
  intros m1 m2 m3 [? H12] [? H23]. split; [lia|].
  intros k e Hk Hm. apply H12; [|done]. apply H23; [done|lia].
Qed.

Lemma mvcc_ops_kvs m os : mkvs (mvcc_ops m os).1 = (apply_ops (mrev m + 1) (mkvs m) os).1.
Proof. unfold mvcc_ops. by destruct (apply_ops _ _ os). Qed.

Lemma val_at_ops m os k :
  val_at k (mvcc_ops m os).1 = match ops_effect os k with Some x => x | None => val_at k m end.
Proof. unfold val_at. rewrite mvcc_ops_kvs. apply apply_ops_effect. Qed.

Lemma val_at_is_Some k m : is_Some (mkvs m !! k) ↔ is_Some (val_at k m).
Proof. unfold val_at. by rewrite fmap_is_Some. Qed.

Lemma val_at_Some k m v l :
  val_at k m = Some (v, l) ↔ ∃ e, mkvs m !! k = Some e ∧ kv_val e = v ∧ kv_lease e = l.
Proof. unfold val_at. rewrite fmap_Some. naive_solver. Qed.

Lemma val_at_None k m : val_at k m = None ↔ mkvs m !! k = None.
Proof. unfold val_at. by rewrite fmap_None. Qed.

Lemma mvcc_ops_leases m os : mleases (mvcc_ops m os).1 = mleases m.
Proof. unfold mvcc_ops. by destruct (apply_ops _ _ os). Qed.

Lemma mvcc_ops_rev m os : mrev m <= mrev (mvcc_ops m os).1 <= mrev m + 1.
Proof. unfold mvcc_ops. destruct (apply_ops _ _ os). simpl. case_if; lia. Qed.

Lemma mvcc_ops_same_rev m os :
  mrev (mvcc_ops m os).1 = mrev m → mkvs (mvcc_ops m os).1 = mkvs m.
Proof.
  unfold mvcc_ops. pose proof (apply_ops_unchanged (mrev m + 1) (mkvs m) os) as Hu.
  destruct (apply_ops _ _ os) as [k rs]. simpl in *. case_if; [lia|]. auto.
Qed.

Lemma mvcc_ops_evolves m os : evolves m (mvcc_ops m os).1.
Proof.
  split; [apply mvcc_ops_rev|]. intros k e Hk Hm. rewrite mvcc_ops_kvs in Hk.
  apply apply_ops_lookup in Hk as [?|(? & _)]; [done|lia].
Qed.

Lemma mvcc_ops_wf m os : mvcc_wf m → mvcc_wf (mvcc_ops m os).1.
Proof.
  intros [Hr Hw]. pose proof (mvcc_ops_rev m os) as Hrev.
  destruct (decide (mrev (mvcc_ops m os).1 = mrev m)) as [Hs|Hs].
  { split; [lia|]. rewrite (mvcc_ops_same_rev _ _ Hs), Hs. done. }
  split; [lia|]. intros k e Hk. rewrite mvcc_ops_kvs in Hk.
  apply apply_ops_lookup in Hk as [Hk|(Hm & _ & Hc)].
  - apply Hw in Hk. lia.
  - destruct Hc as [?|(e0 & He0 & ?)]; [lia|]. apply Hw in He0. lia.
Qed.

Lemma mvcc_txn_kvs m ifs ts es :
  (mvcc_txn m ifs ts es).1 = (mvcc_ops m (txn_branch m ifs ts es).2).1.
Proof.
  unfold mvcc_txn. destruct (txn_branch m ifs ts es) as [b os]. simpl.
  by destruct (mvcc_ops m os).
Qed.

Lemma mvcc_txn_succeeded m ifs ts es :
  succeeded (mvcc_txn m ifs ts es).2 = forallb (eval_cmp (mkvs m)) ifs.
Proof.
  unfold mvcc_txn, txn_branch. case_if; destruct (mvcc_ops _ _); done.
Qed.

Lemma mvcc_txn_rev m ifs ts es :
  rrev (mvcc_txn m ifs ts es).2 = mrev (mvcc_txn m ifs ts es).1.
Proof.
  unfold mvcc_txn. destruct (txn_branch m ifs ts es) as [b os]. by destruct (mvcc_ops m os).
Qed.

(** A transaction whose comparisons fail and that has no alternative. *)
Lemma mvcc_txn_rejected m ifs ts :
  forallb (eval_cmp (mkvs m)) ifs = false → (mvcc_txn m ifs ts []).1 = m.
Proof.
  intros Hf. rewrite mvcc_txn_kvs. unfold txn_branch. rewrite Hf. simpl.
  unfold mvcc_ops. simpl. by destruct m.
Qed.

Lemma mvcc_txn_committed m ifs ts es :
  forallb (eval_cmp (mkvs m)) ifs = true → (mvcc_txn m ifs ts es).1 = (mvcc_ops m ts).1.
Proof. intros Hf. rewrite mvcc_txn_kvs. unfold txn_branch. by rewrite Hf. Qed.

Lemma mvcc_expire_lookup l m k e :
  mkvs (mvcc_expire l m) !! k = Some e ↔ mkvs m !! k = Some e ∧ (kv_lease e ≠ l ∨ l = 0).
Proof. simpl. rewrite map_lookup_filter_Some. done. Qed.

(** A key without a lease outlives every expiry. *)
Lemma mvcc_expire_unleased l m k e :
  mkvs m !! k = Some e → kv_lease e = 0 → mkvs (mvcc_expire l m) !! k = Some e.
Proof. intros Hk Hl. apply mvcc_expire_lookup. split; [done|]. rewrite Hl. destruct (decide (l = 0)); auto. Qed.

Lemma mvcc_expire_evolves l m : evolves m (mvcc_expire l m).
Proof.
  split; [simpl; case_bool_decide; lia|].
  intros k e Hk _. by apply mvcc_expire_lookup in Hk as [? _].
Qed.

Lemma mvcc_expire_wf l m : mvcc_wf m → mvcc_wf (mvcc_expire l m).
Proof.
  intros [Hr Hw]. destruct (mvcc_expire_evolves l m) as [Hrev _].
  split; [lia|]. intros k e [Hk _]%mvcc_expire_lookup. apply Hw in Hk. lia.
Qed.

(** How a request can change the store, whatever the reply. *)
Lemma etcd_ok_store q m m' a :
  etcd_ok q m m' a →
  match q with
  | QTxn ifs ts es => m' = m ∨ m' = (mvcc_txn m ifs ts es).1
  | QPut k v l => m' = m ∨ m' = (mvcc_ops m [OpPut k v l]).1
  | QDelete k p => m' = m ∨ m' = (mvcc_ops m [OpDelete k p]).1
  | QNewSession _ => mkvs m' = mkvs m ∧ mrev m' = mrev m ∧ mleases m ⊆ mleases m'
  | QSessionClose l => m' = m ∨ m' = mvcc_expire l m
  | _ => m' = m
  end.
Proof.
  unfold etcd_ok.
  assert (∀ a0, etcd_exact q m m' a0 →
    match q with
    | QTxn ifs ts es => m' = m ∨ m' = (mvcc_txn m ifs ts es).1
    | QPut k v l => m' = m ∨ m' = (mvcc_ops m [OpPut k v l]).1
    | QDelete k p => m' = m ∨ m' = (mvcc_ops m [OpDelete k p]).1
    | QNewSession _ => mkvs m' = mkvs m ∧ mrev m' = mrev m ∧ mleases m ⊆ mleases m'
    | QSessionClose l => m' = m ∨ m' = mvcc_expire l m
    | _ => m' = m
    end) as H0.
  { intros a0. destruct q as [r []|rs []| | | | | | | | | |]; simpl; repeat case_if;
      try by (intros [-> ?]; auto).
    - done.
    - intros (l & _ & _ & _ & -> & _). simpl. set_solver.
    - done.
    - done.
    - done.
    - done. }
  intros [H|(_ & [->|[a' H]])]; [exact (H0 _ H)| |exact (H0 _ H)].
  destruct q; auto.
Qed.

Lemma etcd_ok_evolves q m m' a : etcd_ok q m m' a → evolves m m'.
Proof.
  intros H%etcd_ok_store.
  destruct q; repeat match type of H with
    | _ ∨ _ => destruct H as [->| ->]
    | _ = _ => rewrite H
    | mkvs _ = _ ∧ _ => destruct H as (Hk & Hr & _)
    end; try reflexivity; rewrite ?mvcc_txn_kvs;
    auto using mvcc_ops_evolves, mvcc_expire_evolves.
  split; [lia|]. rewrite Hk. done.
Qed.

Lemma etcd_ok_wf q m m' a : etcd_ok q m m' a → mvcc_wf m → mvcc_wf m'.
Proof.
  intros H%etcd_ok_store Hw.
  destruct q; repeat match type of H with
    | _ ∨ _ => destruct H as [->| ->]
    | _ = _ => rewrite H
    | mkvs _ = _ ∧ _ => destruct H as (Hk & Hr & _)
    end; rewrite ?mvcc_txn_kvs; auto using mvcc_ops_wf, mvcc_expire_wf.
  split; [rewrite Hr; apply Hw|]. rewrite Hk, Hr. apply Hw.
Qed.

(** A record read at some revision and found later at the same modification
    revision is the same record: what a ModRevision comparison buys. *)
Lemma evolves_pinned m m' k e e' :
  mvcc_wf m → evolves m m' → mkvs m !! k = Some e → mkvs m' !! k = Some e' →
  kv_mod e' = kv_mod e → e' = e.
Proof.
  intros [_ Hw] [_ Hev] Hk Hk' Hm. specialize (Hev k e' Hk').
  destruct (Hw k e Hk) as [_ ?]. rewrite Hev in Hk by lia. congruence.
Qed.

(** ** The comparisons the daemon uses *)

Definition key_absent (k : bytes) : cmp := Cmp k false CEq (TCreate 0).
Definition key_present (k : bytes) : cmp := Cmp k false CGt (TCreate 0).
Definition key_exists (k : bytes) : cmp := Cmp k false CNe (TCreate 0).
Definition prefix_absent (p : bytes) : cmp := Cmp p true CEq (TCreate 0).
Definition mod_is (k : bytes) (rev : Z) : cmp := Cmp k false CEq (TMod rev).
Definition value_is (k v : bytes) : cmp := Cmp k false CEq (TValue v).

Section comparisons.
Context (m : mvcc) (Hwf : mvcc_wf m).

Lemma eval_key_absent k : eval_cmp (mkvs m) (key_absent k) = true ↔ mkvs m !! k = None.
Proof.
  unfold eval_cmp, key_absent, cmp_kv, cmp_missing. simpl.
  destruct (mkvs m !! k) as [e|] eqn:E; simpl; [|done].
  destruct (proj2 Hwf k e E). split; [|done]. intros ?; zbool; lia.
Qed.

Lemma eval_key_present k : eval_cmp (mkvs m) (key_present k) = true ↔ is_Some (mkvs m !! k).
Proof.
  unfold eval_cmp, key_present, cmp_kv, cmp_missing. simpl.
  destruct (mkvs m !! k) as [e|] eqn:E; simpl; [|by split; [|intros []]].
  destruct (proj2 Hwf k e E). split; [eauto|]. intros _. apply Z.ltb_lt. lia.
Qed.

Lemma eval_key_exists k : eval_cmp (mkvs m) (key_exists k) = true ↔ is_Some (mkvs m !! k).
Proof.
  unfold eval_cmp, key_exists, cmp_kv, cmp_missing. simpl.
  destruct (mkvs m !! k) as [e|] eqn:E; simpl; [|by split; [|intros []]].
  destruct (proj2 Hwf k e E). split; [eauto|]. intros _.
  apply negb_true_iff, Z.eqb_neq. lia.
Qed.

Lemma eval_prefix_absent p :
  eval_cmp (mkvs m) (prefix_absent p) = true ↔
  ∀ k e, mkvs m !! k = Some e → has_prefix p k = false.
Proof.
  unfold eval_cmp, prefix_absent, cmp_kv, cmp_missing. simpl.
  pose proof (range_all_nil (RPrefix p) (mkvs m)) as Hn. simpl in Hn. rewrite <- Hn.
  destruct (range_all (RPrefix p) (mkvs m)) as [|[k e] l] eqn:E; [done|].
  split; [|done]. simpl. intros [Hz _]%andb_true_iff. zbool.
  assert ((k, e) ∈ range_all (RPrefix p) (mkvs m)) as Hin by (rewrite E; left).
  apply elem_of_range_all in Hin as [Hk _]. destruct (proj2 Hwf k e Hk). lia.
Qed.

Lemma eval_mod_is k rev :
  0 < rev → eval_cmp (mkvs m) (mod_is k rev) = true ↔ ∃ e, mkvs m !! k = Some e ∧ kv_mod e = rev.
Proof.
  intros Hr. unfold eval_cmp, mod_is, cmp_kv, cmp_missing, cmp_int.
  cbn [c_key c_prefix c_op c_target].
  destruct (mkvs m !! k) as [e|] eqn:E; rewrite Z.eqb_eq; naive_solver lia.
Qed.

Lemma eval_value_is k v :
  eval_cmp (mkvs m) (value_is k v) = true ↔ ∃ e, mkvs m !! k = Some e ∧ kv_val e = v.
Proof.
  unfold eval_cmp, value_is, cmp_kv, cmp_missing. simpl.
  destruct (mkvs m !! k) as [e|] eqn:E; simpl; rewrite ?bool_decide_eq_true; naive_solver.
Qed.
End comparisons.

(** ** Interleaved clients *)

(** A schedule is an execution of the cluster. *)
Lemma cexec_steps `{E : Etcd} {A} (c : esrv * list (prog A)) (evs : list event) :
  rtc cstep c (foldl cexec c evs).
Proof.
  revert c. induction evs as [|ev evs IH]; intros [s ps]; simpl; [reflexivity|].
  trans (cexec (s, ps) ev); [|apply IH]. destruct ev as [i|l]; simpl.
  - destruct (ps !! i) as [[a|q k]|] eqn:Ei; [reflexivity| |reflexivity].
    apply rtc_once. by constructor.
  - apply rtc_once. constructor.
Qed.

Section cluster.
Context `{E : Etcd} {A : Type}.

(** An invariant that every request of a discipline [P] and every lease
    expiry preserve holds in every reachable state. *)
Theorem cluster_invariant (P : req → Prop) (I : mvcc → Prop) (c c' : esrv * list (prog A)) :
  (∀ q m m' a, P q → I m → etcd_ok q m m' a → I m') →
  (∀ l m, I m → I (mvcc_expire l m)) →
  Forall (issues P) c.2 → I (eview c.1) → rtc cstep c c' →
  Forall (issues P) c'.2 ∧ I (eview c'.1).
Proof.
  intros HP HE Hps HI Hst. induction Hst as [|c1 c2 c3 Hs _ IH]; [done|].
  apply IH; clear IH; destruct Hs as [s ps i q k Hi|s ps l]; simpl in *.
  - pose proof (Forall_lookup_1 _ _ _ _ Hps Hi) as [_ Hk].
    apply Forall_insert; auto.
  - done.
  - pose proof (Forall_lookup_1 _ _ _ _ Hps Hi) as [Hq _].
    eapply HP; eauto using etcd_documented.
  - rewrite etcd_expiry. auto.
Qed.

Context {Γ : Type} (R G : nat → mvcc * Γ → mvcc * Γ → Prop) (Q : nat → A → mvcc * Γ → Prop).
Context `{!∀ i, PreOrder (R i)}.
Context (HGR : ∀ i j σ σ', i ≠ j → G i σ σ' → R j σ σ').
Context (Hexp : ∀ i l m g, R i (m, g) (mvcc_expire l m, g)).

Definition cluster_ok (c : esrv * list (prog A)) (g : Γ) : Prop :=
  ∀ i p, c.2 !! i = Some p → wp etcd_ok (R i) (G i) p (Q i) (eview c.1, g).

(** Clients proved in isolation against a rely stay correct interleaved, and
    what every guarantee and every expiry preserve holds throughout. *)
Theorem cluster_rely_guarantee_inv (I : mvcc * Γ → Prop) (c c' : esrv * list (prog A)) g :
  (∀ i σ σ', G i σ σ' → I σ → I σ') → (∀ l m g, I (m, g) → I (mvcc_expire l m, g)) →
  cluster_ok c g → I (eview c.1, g) → rtc cstep c c' → ∃ g', cluster_ok c' g' ∧ I (eview c'.1, g').
Proof.
  intros HGI HEI Hc HI Hst. revert g Hc HI.
  induction Hst as [|c1 c2 c3 Hs _ IH]; intros g Hc HI; [eauto|].
  destruct Hs as [s ps j q k Hj|s ps l].
  - pose proof (Hc _ _ Hj) as Hw. simpl in Hw.
    destruct (Hw (eview s, g) (eview (eserve q s).1) (eserve q s).2) as (g2 & HG & Hk);
      [reflexivity|apply etcd_documented|].
    apply (IH g2); [|by eapply HGI]. intros i p Hi. simpl in *.
    destruct (decide (j = i)) as [->|Hne].
    + rewrite list_lookup_insert_eq in Hi by eauto using lookup_lt_Some. by injection Hi as <-.
    + rewrite list_lookup_insert_ne in Hi by done.
      eapply wp_rely; [by apply _|eapply HGR; eauto|]. by apply Hc.
  - apply (IH g); simpl in *; [|rewrite etcd_expiry; by apply HEI]. intros i p Hi. simpl in *.
    rewrite etcd_expiry. eapply wp_rely; [by apply _|apply Hexp|]. by apply Hc.
Qed.

Theorem cluster_rely_guarantee (c c' : esrv * list (prog A)) g :
  cluster_ok c g → rtc cstep c c' → ∃ g', cluster_ok c' g'.
Proof.
  intros Hc Hst. destruct (cluster_rely_guarantee_inv (λ _, True) c c' g) as (g' & ? & _); eauto.
Qed.

(** What a client that has finished was promised holds now. *)
Lemma cluster_done (c : esrv * list (prog A)) g i a :
  cluster_ok c g → c.2 !! i = Some (Ret a) → Q i a (eview c.1, g).
Proof. intros Hc Hi. apply (Hc i _ Hi). reflexivity. Qed.
End cluster.

(** A program running alone. *)
Lemma wp_run `{E : Etcd} {A} (p : prog A) (Q : A → mvcc → Prop) s :
  wp etcd_ok eq (λ _ _, True) p (λ a σ, Q a σ.1) (eview s, tt) →
  Q (run p s).2 (eview (run p s).1).
Proof.
  revert s. induction p as [a|q k IH]; simpl; intros s Hp; [by apply (Hp (eview s, tt))|].
  destruct (eserve q s) as [s' r] eqn:Es. apply IH.
  pose proof (etcd_documented q s) as Hd. rewrite Es in Hd.
  by destruct (Hp (eview s, tt) _ _ eq_refl Hd) as ([] & _ & ?).
Qed.

Lemma run_bind `{E : Etcd} {A B} (p : prog A) (f : A → prog B) srv :
  run (bind p f) srv = let '(srv', a) := run p srv in run (f a) srv'.
Proof.
  revert srv. induction p as [a|q k IH]; intros srv; simpl; [done|]. destruct (eserve q srv) as [srv' r]. apply IH.
Qed.

Lemma wp_run_reliable `{E : Etcd, !ReliableEtcd E} {A} (p : prog A) (Q : A → mvcc → Prop) s :
  wp etcd_exact eq (λ _ _, True) p (λ a σ, Q a σ.1) (eview s, tt) →
  Q (run p s).2 (eview (run p s).1).
Proof.
  revert s. induction p as [a|q k IH]; simpl; intros s Hp; [by apply (Hp (eview s, tt))|].
  destruct (eserve q s) as [s' r] eqn:Es. apply IH.
  pose proof (etcd_answers q s) as Hd. rewrite Es in Hd.
  by destruct (Hp (eview s, tt) _ _ eq_refl Hd) as ([] & _ & ?).
Qed.

(** ** A reference server *)

Record ref_srv := RefSrv { rs_store : mvcc; rs_clock : Z }.

Definition ref_fresh_lease (m : mvcc) : Z :=
  1 + foldr Z.max 0 (elements (mleases m) ++ map (λ x, kv_lease x.2) (map_to_list (mkvs m))).

Lemma foldr_max_ge l x : x ∈ l → x <= foldr Z.max 0 l.
Proof. induction 1; simpl; lia. Qed.

Lemma ref_fresh_lease_fresh m :
  0 < ref_fresh_lease m ∧ ref_fresh_lease m ∉ mleases m ∧
  ∀ k e, mkvs m !! k = Some e → kv_lease e ≠ ref_fresh_lease m.
Proof.
  unfold ref_fresh_lease. set (l := _ ++ _). pose proof (foldr_max_ge l) as Hge.
  split; [|split].
  - assert (0 <= foldr Z.max 0 l); [|lia]. clear. induction l; simpl; lia.
  - intros Hin. specialize (Hge (1 + foldr Z.max 0 l)).
    assert (1 + foldr Z.max 0 l ∈ l) by (apply elem_of_app; left; by apply elem_of_elements).
    naive_solver lia.
  - intros k e Hk Heq. specialize (Hge (kv_lease e)).
    assert (kv_lease e ∈ l); [|naive_solver lia].
    apply elem_of_app; right. apply (list_elem_of_fmap_2 (λ x, kv_lease x.2) _ (k, e)).
    by apply elem_of_map_to_list.
Qed.

(** A device that accepts every write and whose bytes never change. *)
Definition ref_disk (d : Z) : Z := d mod 251.

Definition ref_io (i : io_req) : io_resp i :=
  match i return io_resp i with
  | DevRead off n => Some (map ref_disk (seqZ off n))
  | DevSize => Some (2 ^ 40)
  | InvalPages _ => InvalDone
  | AddrAligned _ | AlignedBuffer _ | DevWrite _ _ | DevFlush | DevSync _ _ => true
  end.

Definition ref_serve (q : req) (s : ref_srv) : ref_srv * resp q :=
  let m := rs_store s in
  let s1 m' := RefSrv m' (rs_clock s) in
  match q return ref_srv * resp q with
  | QRange r _ => (s, Some (range_kvs r m, mrev m))
  | QReadTxn rs _ => (s, Some (map (λ r, range_kvs r m) rs))
  | QTxn ifs ts es =>
    if txn_valid m ifs ts es
    then (s1 (mvcc_txn m ifs ts es).1, Some (mvcc_txn m ifs ts es).2)
    else (s, None)
  | QPut k v l =>
    if op_lease_live m (OpPut k v l)
    then let m' := (mvcc_ops m [OpPut k v l]).1 in (s1 m', Some (mrev m'))
    else (s, None)
  | QDelete k p =>
    let m' := (mvcc_ops m [OpDelete k p]).1 in
    (s1 m', Some (Z.of_nat (size (mkvs m) - size (mkvs m'))))
  | QNow => (RefSrv m (rs_clock s + 1), rs_clock s + 1)
  | QNewSession _ =>
    let l := ref_fresh_lease m in
    (s1 (MVCC (mrev m) (mkvs m) (mleases m ∪ {[l]})), Some l)
  | QSessionDone l => (s, negb (bool_decide (l ∈ mleases m)))
  | QSessionClose l => (s1 (mvcc_expire l m), Some tt)
  | QBackoff _ => (s, false)
  | QFence _ _ => (s, true)
  | QIO i => (s, ref_io i)
  end.

Lemma ref_serve_exact q s :
  etcd_exact q (rs_store s) (rs_store (ref_serve q s).1) (ref_serve q s).2.
Proof.
  destruct q as [r []|rs []| | | | | | | | | |]; simpl; try done.
  - split; [done|]. exists (rs_store s). done.
  - split; [done|]. exists (rs_store s). done.
  - by case_if.
  - by case_if.
  - exists (ref_fresh_lease (rs_store s)). destruct (ref_fresh_lease_fresh (rs_store s)). naive_solver.
Qed.

Definition ref_etcd : Etcd := {|
  esrv := ref_srv;
  eview := rs_store;
  eserve := ref_serve;
  eexpire l s := RefSrv (mvcc_expire l (rs_store s)) (rs_clock s);
  etcd_documented q s := or_introl (ref_serve_exact q s);
  etcd_expiry l s := eq_refl
|}.

#[global] Instance ref_etcd_reliable : ReliableEtcd ref_etcd := ref_serve_exact.

Definition empty_store : mvcc := MVCC 1 ∅ ∅.
Lemma empty_store_wf : mvcc_wf empty_store.
Proof. split; [simpl; lia|]. intros k e. simpl. by rewrite lookup_empty. Qed.

(** The same server, losing the reply of the next transaction when armed: the
    transaction takes effect and the client is told it failed. *)
Record lossy_srv := LossySrv { ls_inner : ref_srv; ls_armed : bool }.

Definition lossy_serve (q : req) (s : lossy_srv) : lossy_srv * resp q :=
  let '(s', a) := ref_serve q (ls_inner s) in
  match q return resp q → lossy_srv * resp q with
  | QTxn _ _ _ => λ a, if ls_armed s then (LossySrv s' false, None) else (LossySrv s' false, a)
  | _ => λ a, (LossySrv s' (ls_armed s), a)
  end a.

Lemma lossy_serve_ok q s :
  etcd_ok q (rs_store (ls_inner s)) (rs_store (ls_inner (lossy_serve q s).1)) (lossy_serve q s).2.
Proof.
  pose proof (ref_serve_exact q (ls_inner s)) as H. unfold lossy_serve.
  destruct (ref_serve q (ls_inner s)) as [s' a]. cbn [fst snd] in H.
  destruct q; try (left; exact H). destruct (ls_armed s); [|left; exact H].
  right. split; [done|]. right. by exists a.
Qed.

Definition lossy_etcd : Etcd := {|
  esrv := lossy_srv;
  eview s := rs_store (ls_inner s);
  eserve := lossy_serve;
  eexpire l s := LossySrv (RefSrv (mvcc_expire l (rs_store (ls_inner s))) (rs_clock (ls_inner s))) (ls_armed s);
  etcd_documented := lossy_serve_ok;
  etcd_expiry l s := eq_refl
|}.
