(* ===== verification/Sends.v ===== *)
(** * What a program puts on the wire, and what it returns

    [sends P p Q]: every request [p] makes satisfies [P] and its result satisfies
    [Q], whatever the replies are, as long as a range reply has keys of its range
    only.  Unlike [Etcd.issues] it has a postcondition, so that what a program
    read can decide what it writes; unlike [Etcd.wp] it does not speak of the
    store.

    What a request that satisfies [P] preserves holds wherever such programs run:
    alone ([sends_run]) or interleaved ([sends_cluster]). *)

From S2P Require Import Prelude Etcd EtcdFacts.

(** The keys of a range reply lie in the range. *)
Definition plausible (q : req) : resp q → Prop :=
  match q return resp q → Prop with
  | QRange r _ => λ a, ∀ kvs rev, a = Some (kvs, rev) → ∀ x, x ∈ kvs → in_range r x.1 = true
  | QReadTxn rs _ => λ a, ∀ ls, a = Some ls → ∀ i r l x, rs !! i = Some r → ls !! i = Some l → x ∈ l → in_range r x.1 = true
  | _ => λ _, True
  end.

Lemma range_all_in r m x : x ∈ range_all r m → in_range r x.1 = true.
Proof. unfold range_all. rewrite merge_sort_Permutation. by intros [? _]%list_elem_of_filter. Qed.

Lemma range_kvs_in r m x : x ∈ range_kvs r m → in_range r x.1 = true.
Proof.
  destruct r as [k|p|start p n]; simpl.
  - destruct (mkvs m !! k); [intros ->%list_elem_of_singleton; by apply bool_decide_eq_true_2|by intros ?%elem_of_nil].
  - apply (range_all_in (RPrefix p)).
  - case_if; [|apply (range_all_in (RAfter start p n))]. intros Hx. apply (range_all_in (RAfter start p n) (mkvs m)).
    apply elem_of_take in Hx as (i & Hi & _). by eapply list_elem_of_lookup_2.
Qed.

Lemma reads_plausible rs m i r l x :
  rs !! i = Some r → map (λ r, range_kvs r m) rs !! i = Some l → x ∈ l → in_range r x.1 = true.
Proof. intros Hr Hl. rewrite list_lookup_fmap, Hr in Hl. injection Hl as <-. apply range_kvs_in. Qed.

Lemma etcd_plausible q m m' a : etcd_ok q m m' a → plausible q a.
Proof.
  intros [Hx|[Hf _]]; destruct q as [r []|rs []| | | | | | | | | |]; try done; simpl in *; try (by intros; simplify_eq).
  - destruct Hx as (_ & m0 & _ & ->). intros kvs rev [= <- <-] x. apply range_kvs_in.
  - destruct Hx as [_ ->]. intros kvs rev [= <- <-] x. apply range_kvs_in.
  - destruct Hx as (_ & m0 & _ & ->). intros ls [= <-] i r l x. apply reads_plausible.
  - destruct Hx as [_ ->]. intros ls [= <-] i r l x. apply reads_plausible.
Qed.

Section sends.
Context (P : req → Prop).

Fixpoint sends {A} (p : prog A) (Q : A → Prop) : Prop :=
  match p with
  | Ret a => Q a
  | Call q k => P q ∧ ∀ r, plausible q r → sends (k r) Q
  end.

Lemma sends_mono {A} (p : prog A) (Q Q' : A → Prop) : sends p Q → (∀ a, Q a → Q' a) → sends p Q'.
Proof. intros Hp HQ. induction p as [a|q k IH]; simpl in *; [auto|]. destruct Hp. split; [done|]. eauto. Qed.

Lemma sends_bind {A B} (p : prog A) (f : A → prog B) Q : sends p (λ a, sends (f a) Q) → sends (bind p f) Q.
Proof. induction p as [a|q k IH]; simpl; [done|]. intros [? Hk]. split; [done|]. eauto. Qed.

Lemma sends_then {A B} (p : prog A) (f : A → prog B) Q R : sends p Q → (∀ a, Q a → sends (f a) R) → sends (bind p f) R.
Proof. intros Hp Hf. apply sends_bind. by eapply sends_mono. Qed.

Lemma sends_ethen {A B} (p : prog (result A)) (f : A → prog (result B)) Q R :
  sends p Q → (∀ a, Q (Ok a) → sends (f a) R) → (∀ e, R (Err e)) → sends (ebind p f) R.
Proof. intros Hp Hf He. eapply sends_then; [exact Hp|]. intros [a|e] Ha; [by apply Hf|apply He]. Qed.

Lemma sends_issues {A} (p : prog A) : issues P p → sends p (λ _, True).
Proof. induction p as [a|q k IH]; simpl; [done|]. intros [? ?]. split; auto. Qed.

Lemma sends_true {A} (p : prog A) Q : sends p Q → sends p (λ _, True).
Proof. intros Hp. by eapply sends_mono. Qed.
End sends.

Lemma sends_weaken (P P' : req → Prop) {A} (p : prog A) Q : (∀ q, P q → P' q) → sends P p Q → sends P' p Q.
Proof. intros HP. induction p as [a|q k IH]; simpl; [done|]. intros [? ?]. split; eauto. Qed.

(** ** Soundness *)

Section sound.
Context `{E : Etcd} (P : req → Prop) (I : mvcc → mvcc → Prop).
Context (Hrefl : ∀ m, I m m) (Htrans : ∀ m1 m2 m3, I m1 m2 → I m2 m3 → I m1 m3).

(** One program: what relates the store before and after each of its requests
    relates the store before and after all of them. *)
Lemma sends_run (ok : mvcc → Prop) {A} (p : prog A) Q srv :
  (∀ q m m' a, ok m → P q → etcd_ok q m m' a → I m m' ∧ ok m') →
  sends P p Q → ok (eview srv) → I (eview srv) (eview (run p srv).1) ∧ ok (eview (run p srv).1).
Proof.
  intros HI. revert srv. induction p as [a|q k IH]; intros srv; [by split|]. simpl. intros [Hq Hk] Hok.
  pose proof (etcd_documented q srv) as Hd. destruct (HI _ _ _ _ Hok Hq Hd) as [Hm Hok'].
  destruct (eserve q srv) as [srv' r] eqn:Es. simpl in *. destruct (IH r srv') as [H1 H2]; [|done|].
  - apply Hk. by eapply etcd_plausible.
  - split; [by eapply Htrans|done].
Qed.
End sound.

Section sound_cluster.
Context `{E : Etcd} {A : Type} (P : req → Prop) (J : mvcc → Prop).

(** Interleaved programs: an invariant that every such request and every lease
    expiry preserve. *)
Lemma sends_cluster (c c' : esrv * list (prog A)) :
  (∀ q m m' a, P q → J m → etcd_ok q m m' a → J m') → (∀ l m, J m → J (mvcc_expire l m)) →
  Forall (λ p, sends P p (λ _, True)) c.2 → J (eview c.1) → rtc cstep c c' →
  Forall (λ p, sends P p (λ _, True)) c'.2 ∧ J (eview c'.1).
Proof.
  intros HP HE Hps HJ Hst. induction Hst as [|c1 c2 c3 Hs _ IH]; [done|].
  apply IH; clear IH; destruct Hs as [s ps i q k Hi|s ps l]; simpl in *.
  - pose proof (Forall_lookup_1 _ _ _ _ Hps Hi) as [_ Hk]. apply Forall_insert; [done|]. apply Hk.
    by eapply etcd_plausible, etcd_documented.
  - done.
  - pose proof (Forall_lookup_1 _ _ _ _ Hps Hi) as [Hq _]. eapply HP; eauto using etcd_documented.
  - rewrite etcd_expiry. auto.
Qed.
End sound_cluster.
