(* ===== verification/Schema.v ===== *)
(** * The etcd key schema and the stored records

    Models pkg/metadata/schema.go and the serialisation half of
    pkg/metadata/inode.go: the key builders and parsers, the reserved inode
    numbers, the mode bits, the big-endian encodings and the inode record.
    The lemmas give each constructor's injectivity and each parser's inverse;
    SchemaProps combines them. *)

From S2P Require Import Prelude Etcd.

(** ** Key prefixes *)

Definition PrefixInode := lit "inode:".
Definition PrefixDirent := lit "dirent:".
Definition PrefixXattr := lit "xattr:".
Definition PrefixQuota := lit "quota:".
Definition PrefixLock := lit "lock:".
Definition PrefixLockWant := lit "lock_want:".
Definition PrefixArena := lit "arena:".
Definition PrefixExtent := lit "extent:".
Definition PrefixFreeArena := lit "free_arena:".
Definition PrefixMembership := lit "membership:".
Definition PrefixGen := lit "gen:".
Definition PrefixArenaLog := lit "arena_alloc_log".
Definition PrefixOrphan := lit "orphan:".
Definition PrefixSymlink := lit "symlink:".
Definition PrefixFencePending := lit "fence_pending:".
Definition PrefixFenceClaim := lit "fence_claim:".
Definition PrefixFenceDone := lit "fence_done:".
Definition PrefixDeparted := lit "departed:".
Definition KeyInodeAllocCounter := lit "inode_alloc_counter".

Definition RootIno : Z := 1.
Definition FirstUsableIno : Z := 2.

(** ** Mode bits *)

Definition S_IFMT : Z := 61440.      (* 0170000 *)
Definition ModeDir : Z := 16384.     (* 0040000 *)
Definition ModeSymlink : Z := 40960. (* 0120000 *)
Definition ModeFile : Z := 32768.    (* 0100000 *)
Definition S_ISUID : Z := 2048.      (* 0004000 *)
Definition S_ISGID : Z := 1024.      (* 0002000 *)
Definition S_IXGRP : Z := 8.         (* 0000010 *)

Definition ftype (mode : Z) : Z := Z.land mode S_IFMT.

(** The set-user-ID and set-group-ID bits a write by [uid] must drop. *)
Definition ClearSetIDOnWrite (mode uid : Z) : Z :=
  if uid =? 0 then mode
  else
    let mode := Z.ldiff mode S_ISUID in
    if negb (Z.land mode S_IXGRP =? 0) then Z.ldiff mode S_ISGID else mode.

(** ** Keys *)

Definition InodeKey (ino : Z) : bytes := PrefixInode ++ fmt_uint ino.
Definition OrphanKey (node : bytes) (ino : Z) : bytes :=
  PrefixOrphan ++ node ++ slash :: fmt_uint ino.
Definition OrphanPrefix (node : bytes) : bytes := PrefixOrphan ++ node ++ [slash].
Definition InodeSymlinkKey (ino : Z) : bytes := PrefixSymlink ++ fmt_uint ino.
Definition DirentKey (parent : Z) (name : bytes) : bytes :=
  PrefixDirent ++ fmt_uint parent ++ slash :: name.
Definition DirentPrefix (parent : Z) : bytes := PrefixDirent ++ fmt_uint parent ++ [slash].
Definition XattrKey (ino : Z) (name : bytes) : bytes :=
  PrefixXattr ++ fmt_uint ino ++ slash :: name.
Definition XattrPrefix (ino : Z) : bytes := PrefixXattr ++ fmt_uint ino ++ [slash].
Definition QuotaKey (ino : Z) : bytes := PrefixQuota ++ fmt_uint ino.

(** [type LockMode string]: any byte string; two values are meaningful. *)
Definition LockShared : bytes := lit "shared".
Definition LockExclusive : bytes := lit "exclusive".

Definition LockKey (ino : Z) (mode holder : bytes) : bytes :=
  PrefixLock ++ fmt_uint ino ++ slash :: mode ++ slash :: holder.
Definition LockPrefix (ino : Z) : bytes := PrefixLock ++ fmt_uint ino ++ [slash].
Definition LockModePrefix (ino : Z) (mode : bytes) : bytes :=
  PrefixLock ++ fmt_uint ino ++ slash :: mode ++ [slash].
Definition LockWantKey (ino : Z) (node : bytes) : bytes :=
  PrefixLockWant ++ fmt_uint ino ++ slash :: node.
Definition ArenaOwnerKey (nodeID : bytes) (arenaID : Z) : bytes :=
  PrefixArena ++ nodeID ++ slash :: fmt_uint arenaID.
Definition ArenaNodePrefix (nodeID : bytes) : bytes := PrefixArena ++ nodeID ++ [slash].
Definition FreeArenaKey (arenaID : Z) : bytes := PrefixFreeArena ++ fmt_uint arenaID.
Definition MembershipKey (nodeID : bytes) : bytes := PrefixMembership ++ nodeID.
Definition GenKey (nodeID : bytes) : bytes := PrefixGen ++ nodeID.
Definition FencePendingKey (nodeID : bytes) : bytes := PrefixFencePending ++ nodeID.
Definition FenceClaimKey (nodeID : bytes) : bytes := PrefixFenceClaim ++ nodeID.
Definition FenceDoneKey (nodeID : bytes) : bytes := PrefixFenceDone ++ nodeID.
Definition DepartedKey (nodeID : bytes) : bytes := PrefixDeparted ++ nodeID.

(** ** Parsers *)

(** [<prefix><number>]: inode and quota keys. *)
Definition ParseInodeKey (key : bytes) : option Z :=
  match cut_prefix PrefixInode key with
  | Some rest => ParseUint rest
  | None => None
  end.

Definition ParseQuotaKey (key : bytes) : option Z :=
  match cut_prefix PrefixQuota key with
  | Some rest => ParseUint rest
  | None => None
  end.

(** [<prefix><number>/<rest>]: split at the first slash. *)
Definition parse_num_rest (prefix key : bytes) : option (Z * bytes) :=
  match cut_prefix prefix key with
  | None => None
  | Some rest =>
    match cut slash rest with
    | None => None
    | Some (num, name) =>
      match ParseUint num with Some n => Some (n, name) | None => None end
    end
  end.

Definition ParseDirentKey (key : bytes) : option (Z * bytes) := parse_num_rest PrefixDirent key.
Definition ParseXattrKey (key : bytes) : option (Z * bytes) := parse_num_rest PrefixXattr key.
Definition ParseLockWantKey (key : bytes) : option (Z * bytes) := parse_num_rest PrefixLockWant key.

Definition ParseLockKey (key : bytes) (ino : Z) : option bytes :=
  match cut_prefix (LockPrefix ino) key with
  | None => None
  | Some rest =>
    match cut slash rest with
    | None => None
    | Some (mode, _) =>
      if bool_decide (mode = LockShared) || bool_decide (mode = LockExclusive)
      then Some mode else None
    end
  end.

(** Split on the last slash; an empty node ID is refused ([slash < 1]). *)
Definition ParseArenaKey (key : bytes) : option (bytes * Z) :=
  match cut_prefix PrefixArena key with
  | None => None
  | Some rest =>
    match cut_last slash rest with
    | None => None
    | Some ([], _) => None
    | Some (node, num) =>
      match ParseUint num with Some id => Some (node, id) | None => None end
    end
  end.

(** ** Big-endian integers *)

Fixpoint be (n : nat) (v : Z) : bytes :=
  match n with
  | O => []
  | S n' => (v / 256 ^ Z.of_nat n') mod 256 :: be n' v
  end.

Definition be_decode (b : bytes) : Z := foldl (λ a x, a * 256 + x) 0 b.

Definition EncodeUint64 (v : Z) : bytes := be 8 v.
Definition DecodeUint64 (b : bytes) : Z :=
  if bool_decide (length b < 8)%nat then 0 else be_decode (take 8 b).

(** ** The inode record

    Times are nanoseconds since the epoch; [Unix] and [Nanosecond] are their
    second and sub-second parts, as in Go. *)

Record InodeRecord := mkInode {
  Ino : Z; Size : Z; Blocks : Z; Mode : Z; Nlink : Z; UID : Z; GID : Z; Rdev : Z; Blksize : Z;
  Generation : Z; Atime : Z; Mtime : Z; Ctime : Z
}.
#[global] Instance InodeRecord_eq_dec : EqDecision InodeRecord.
Proof. solve_decision. Defined.

Definition set_Nlink (n : Z) (r : InodeRecord) : InodeRecord :=
  mkInode (Ino r) (Size r) (Blocks r) (Mode r) n (UID r) (GID r) (Rdev r) (Blksize r)
    (Generation r) (Atime r) (Mtime r) (Ctime r).
Definition set_Ctime (t : Z) (r : InodeRecord) : InodeRecord :=
  mkInode (Ino r) (Size r) (Blocks r) (Mode r) (Nlink r) (UID r) (GID r) (Rdev r) (Blksize r)
    (Generation r) (Atime r) (Mtime r) t.
Definition set_Mtime (t : Z) (r : InodeRecord) : InodeRecord :=
  mkInode (Ino r) (Size r) (Blocks r) (Mode r) (Nlink r) (UID r) (GID r) (Rdev r) (Blksize r)
    (Generation r) (Atime r) t (Ctime r).
Definition set_Size (n : Z) (r : InodeRecord) : InodeRecord :=
  mkInode (Ino r) n (Blocks r) (Mode r) (Nlink r) (UID r) (GID r) (Rdev r) (Blksize r)
    (Generation r) (Atime r) (Mtime r) (Ctime r).
Definition set_Mode (n : Z) (r : InodeRecord) : InodeRecord :=
  mkInode (Ino r) (Size r) (Blocks r) n (Nlink r) (UID r) (GID r) (Rdev r) (Blksize r)
    (Generation r) (Atime r) (Mtime r) (Ctime r).
Definition set_Rdev (n : Z) (r : InodeRecord) : InodeRecord :=
  mkInode (Ino r) (Size r) (Blocks r) (Mode r) (Nlink r) (UID r) (GID r) n (Blksize r)
    (Generation r) (Atime r) (Mtime r) (Ctime r).
Definition set_Generation (n : Z) (r : InodeRecord) : InodeRecord :=
  mkInode (Ino r) (Size r) (Blocks r) (Mode r) (Nlink r) (UID r) (GID r) (Rdev r) (Blksize r)
    n (Atime r) (Mtime r) (Ctime r).

Definition nanos : Z := 1000000000.
Definition Unix (t : Z) : Z := t / nanos.
Definition Nanosecond (t : Z) : Z := t mod nanos.

Definition inodeBytesV1 : nat := 72.
Definition inodeBytes : nat := 84.

Definition EncodeInodeV1 (r : InodeRecord) : bytes :=
  be 8 (Ino r) ++ be 8 (Size r) ++ be 8 (Blocks r) ++
  be 4 (Mode r) ++ be 4 (Nlink r) ++ be 4 (UID r) ++ be 4 (GID r) ++ be 4 (Rdev r) ++
  be 4 (Blksize r) ++
  be 8 (wrap64 (Unix (Atime r))) ++ be 8 (wrap64 (Unix (Mtime r))) ++ be 8 (wrap64 (Unix (Ctime r))).

Definition EncodeInode (r : InodeRecord) : bytes :=
  EncodeInodeV1 r ++
  be 4 (Nanosecond (Atime r)) ++ be 4 (Nanosecond (Mtime r)) ++ be 4 (Nanosecond (Ctime r)).

(** Read an [n]-byte integer and advance the cursor. *)
Definition getn (n : nat) (d : bytes) : Z * bytes := (be_decode (take n d), drop n d).

Definition DecodeInode (data : bytes) : option InodeRecord :=
  if bool_decide (length data < inodeBytesV1)%nat then None
  else
    let '(ino, d) := getn 8 data in
    let '(size, d) := getn 8 d in
    let '(blocks, d) := getn 8 d in
    let '(mode, d) := getn 4 d in
    let '(nlink, d) := getn 4 d in
    let '(uid, d) := getn 4 d in
    let '(gid, d) := getn 4 d in
    let '(rdev, d) := getn 4 d in
    let '(blksize, d) := getn 4 d in
    let '(at_, d) := getn 8 d in
    let '(mt, d) := getn 8 d in
    let '(ct, d) := getn 8 d in
    let atime := to_i64 at_ * nanos in
    let mtime := to_i64 mt * nanos in
    let ctime := to_i64 ct * nanos in
    if bool_decide (inodeBytes <= length data)%nat then
      let '(an, d) := getn 4 d in
      let '(mn, d) := getn 4 d in
      let '(cn, d) := getn 4 d in
      Some (mkInode ino size blocks mode nlink uid gid rdev blksize 0
              (atime + an) (mtime + mn) (ctime + cn))
    else
      Some (mkInode ino size blocks mode nlink uid gid rdev blksize 0 atime mtime ctime).

(** Two for a directory (its own "." and its entry), one for everything else. *)
Definition InitialNlink (mode : Z) : Z := if ftype mode =? ModeDir then 2 else 1.

Definition NewInodeRecord (now ino mode uid gid : Z) : InodeRecord :=
  mkInode ino 0 0 mode (InitialNlink mode) uid gid 0 4096 0 now now now.

(** ** Op constructors *)

Definition put (k v : bytes) : op := OpPut k v 0.
Definition PutDirent (parent : Z) (name : bytes) (ino : Z) : op :=
  put (DirentKey parent name) (EncodeUint64 ino).
Definition DeleteDirent (parent : Z) (name : bytes) : op := OpDelete (DirentKey parent name) false.
Definition PutInode (r : InodeRecord) : op := put (InodeKey (Ino r)) (EncodeInode r).

(** The ranges of the record's fields. *)
Definition inode_wf (r : InodeRecord) : Prop :=
  is_u64 (Ino r) ∧ is_u64 (Size r) ∧ is_u64 (Blocks r) ∧
  is_u32 (Mode r) ∧ is_u32 (Nlink r) ∧ is_u32 (UID r) ∧ is_u32 (GID r) ∧
  is_u32 (Rdev r) ∧ is_u32 (Blksize r) ∧
  is_i64 (Unix (Atime r)) ∧ is_i64 (Unix (Mtime r)) ∧ is_i64 (Unix (Ctime r)).

(** ** Facts *)

Lemma length_be n v : length (be n v) = n.
Proof. induction n; simpl; congruence. Qed.

Lemma foldl_be acc n v :
  foldl (λ a x, a * 256 + x) acc (be n v) = acc * 256 ^ Z.of_nat n + v mod 256 ^ Z.of_nat n.
Proof.
  revert acc. induction n as [|n IH]; intros acc; [simpl; rewrite Z.mod_1_r; lia|].
  cbn [be foldl]. rewrite IH. rewrite Nat2Z.inj_succ, Z.pow_succ_r by lia.
  set (p := 256 ^ Z.of_nat n). assert (0 < p) by (apply Z.pow_pos_nonneg; lia).
  rewrite (Z.mul_comm 256 p), (Z.rem_mul_r v) by lia. lia.
Qed.

Lemma be_decode_be n v : be_decode (be n v) = v mod 256 ^ Z.of_nat n.
Proof. unfold be_decode. rewrite foldl_be. lia. Qed.

Lemma getn_be n v d : 0 <= v < 256 ^ Z.of_nat n → getn n (be n v ++ d) = (v, d).
Proof.
  intros Hv. unfold getn.
  rewrite take_app_length' by (by rewrite length_be). rewrite drop_app_length' by (by rewrite length_be).
  by rewrite be_decode_be, Z.mod_small.
Qed.

Lemma DecodeUint64_EncodeUint64 v : is_u64 v → DecodeUint64 (EncodeUint64 v) = v.
Proof.
  intros Hv. unfold DecodeUint64, EncodeUint64. rewrite length_be, bool_decide_eq_false_2 by lia.
  rewrite take_ge by (rewrite length_be; lia). rewrite be_decode_be. apply Z.mod_small, Hv.
Qed.

Lemma EncodeUint64_inj v w : is_u64 v → is_u64 w → EncodeUint64 v = EncodeUint64 w → v = w.
Proof.
  intros Hv Hw E. rewrite <- (DecodeUint64_EncodeUint64 v), <- (DecodeUint64_EncodeUint64 w) by done.
  by rewrite E.
Qed.

Lemma length_EncodeInodeV1 r : length (EncodeInodeV1 r) = inodeBytesV1.
Proof. unfold EncodeInodeV1. by rewrite !length_app, !length_be. Qed.

Lemma length_EncodeInode r : length (EncodeInode r) = inodeBytes.
Proof. unfold EncodeInode. by rewrite !length_app, length_EncodeInodeV1, !length_be. Qed.

Lemma Unix_Nanosecond t : Unix t * nanos + Nanosecond t = t.
Proof. unfold Unix, Nanosecond. rewrite (Z.div_mod t nanos) at 3 by done. lia. Qed.

Lemma Nanosecond_u32 t : 0 <= Nanosecond t < 256 ^ Z.of_nat 4.
Proof. pose proof (Z.mod_pos_bound t nanos ltac:(done)). unfold Nanosecond, nanos in *. lia. Qed.

(** Peel one field off the cursor. *)
Ltac getn_step :=
  rewrite getn_be by
    first [ apply Nanosecond_u32
          | match goal with |- context [wrap64 ?x] => pose proof (wrap64_u64 x) end;
            unfold is_u64 in *; lia
          | unfold inode_wf, is_u64, is_u32 in *; lia ].

(** The fixed part followed by anything decodes field by field. *)
Lemma DecodeInode_V1 r :
  inode_wf r →
  DecodeInode (EncodeInodeV1 r) =
  Some (mkInode (Ino r) (Size r) (Blocks r) (Mode r) (Nlink r) (UID r) (GID r) (Rdev r) (Blksize r)
          0 (Unix (Atime r) * nanos) (Unix (Mtime r) * nanos) (Unix (Ctime r) * nanos)).
Proof.
  intros Hw. unfold DecodeInode.
  rewrite length_EncodeInodeV1, !bool_decide_eq_false_2 by (unfold inodeBytes, inodeBytesV1; lia).
  unfold EncodeInodeV1. rewrite <- (app_nil_r (be 8 (wrap64 (Unix (Ctime r))))).
  do 12 getn_step. unfold inode_wf in Hw. by rewrite !to_i64_wrap64 by tauto.
Qed.

Lemma DecodeInode_EncodeInode r :
  inode_wf r → DecodeInode (EncodeInode r) = Some (set_Generation 0 r).
Proof.
  intros Hw. unfold DecodeInode.
  rewrite length_EncodeInode, bool_decide_eq_false_2, bool_decide_eq_true_2
    by (unfold inodeBytes, inodeBytesV1; lia).
  unfold EncodeInode, EncodeInodeV1. rewrite <- !app_assoc.
  rewrite <- (app_nil_r (be 4 (Nanosecond (Ctime r)))).
  do 15 getn_step. unfold inode_wf in Hw. rewrite !to_i64_wrap64 by tauto.
  by rewrite !Unix_Nanosecond.
Qed.

(** Any record, in range or not, decodes to its fields reduced to their widths. *)
Lemma getn_be_mod n v d : getn n (be n v ++ d) = (v mod 256 ^ Z.of_nat n, d).
Proof.
  unfold getn. rewrite take_app_length' by (by rewrite length_be). rewrite drop_app_length' by (by rewrite length_be).
  by rewrite be_decode_be.
Qed.

Lemma DecodeInode_fields r :
  ∃ r', DecodeInode (EncodeInode r) = Some r' ∧ Ino r' = wrap64 (Ino r) ∧ Mode r' = wrap32 (Mode r) ∧
        Nlink r' = wrap32 (Nlink r).
Proof.
  unfold DecodeInode.
  rewrite length_EncodeInode, bool_decide_eq_false_2, bool_decide_eq_true_2
    by (unfold inodeBytes, inodeBytesV1; lia).
  unfold EncodeInode, EncodeInodeV1. rewrite <- !app_assoc.
  rewrite <- (app_nil_r (be 4 (Nanosecond (Ctime r)))).
  do 15 rewrite getn_be_mod. eexists. split; [reflexivity|]. cbn [Ino Mode Nlink]. done.
Qed.

(** Keys of the shape [<prefix><number>/<rest>]. *)
Lemma is_digit_slash : is_digit slash = false.
Proof. done. Qed.
#[export] Hint Resolve is_digit_slash : etcfs.

Lemma parse_num_rest_ok prefix n name :
  is_u64 n → parse_num_rest prefix (prefix ++ fmt_uint n ++ slash :: name) = Some (n, name).
Proof.
  intros Hn. unfold parse_num_rest. rewrite cut_prefix_app, cut_app.
  - by rewrite ParseUint_fmt_uint.
  - apply fmt_uint_not_elem; [done|]. unfold is_u64 in Hn; lia.
Qed.

Lemma num_prefix_isolated prefix m n rest :
  0 <= m → 0 <= n →
  has_prefix (prefix ++ fmt_uint m ++ [slash]) (prefix ++ fmt_uint n ++ slash :: rest) = true ↔ m = n.
Proof.
  intros Hm Hn. rewrite has_prefix_true. split.
  - intros [t Ht]. rewrite <- !app_assoc in Ht. apply app_inv_head in Ht.
    symmetry in Ht. by apply fmt_uint_sep_inj in Ht as [-> _].
  - intros ->. exists rest. by rewrite <- !app_assoc.
Qed.

(** A trailing number after the last slash. *)
Lemma sep_fmt_uint_inj a b m n :
  0 <= m → 0 <= n → a ++ slash :: fmt_uint m = b ++ slash :: fmt_uint n → a = b ∧ m = n.
Proof.
  intros Hm Hn E. assert (Some (a, fmt_uint m) = Some (b, fmt_uint n)) as [= -> ?].
  { rewrite <- (cut_last_app slash a (fmt_uint m)) by by apply fmt_uint_not_elem.
    rewrite <- (cut_last_app slash b (fmt_uint n)) by by apply fmt_uint_not_elem. by rewrite E. }
  split; [done|]. by apply fmt_uint_inj.
Qed.

Lemma InodeKey_inj m n : 0 <= m → 0 <= n → InodeKey m = InodeKey n → m = n.
Proof. intros ?? H%app_inv_head. by apply fmt_uint_inj. Qed.

Lemma DirentKey_inj p q a b :
  0 <= p → 0 <= q → DirentKey p a = DirentKey q b → p = q ∧ a = b.
Proof. intros ?? H%app_inv_head. by apply (fmt_uint_sep_inj slash). Qed.

Lemma DirentPrefix_isolated p q name :
  0 <= p → 0 <= q → has_prefix (DirentPrefix p) (DirentKey q name) = true ↔ p = q.
Proof. apply num_prefix_isolated. Qed.

Lemma GenKey_inj a b : GenKey a = GenKey b → a = b.
Proof. apply app_inv_head. Qed.
