(* ===== verification/Store.v ===== *)
(** * The metadata store: guarded transactions, generations, counters, inodes

    Models pkg/metadata/client.go (the [Store] facade), gen.go (fencing
    generations), alloc.go (shared counters) and the operations of inode.go.
    A [Store] is the node's identity, whether a colocated etcd member answers
    its reads first, and the fencing guard.
    StoreLogic has the reasoning rules, StoreProps and Fencing the theorems. *)

From S2P Require Import Prelude Etcd EtcdFacts Schema.

(** [guard]: [None] is a store without one; [Some None] a guard whose
    generation is not known yet; [Some (Some g)] the guard at generation [g]. *)
Record Store := mkStore { nodeID : bytes; localClient : bool; guard : option (option Z) }.

(** ** Reads *)

Definition read (s : Store) (r : range) (ser : bool) : prog (result (list (bytes * kv) * Z)) :=
  let remote := x ⇐ call (QRange r ser);
                Ret match x with Some a => Ok a | None => Err EEtcd end in
  if localClient s then
    x ⇐ call (QRange r ser);
    match x with Some a => Ret (Ok a) | None => remote end
  else remote.

Definition readTxn (s : Store) (rs : list range) (ser : bool)
  : prog (result (list (list (bytes * kv)))) :=
  let remote := x ⇐ call (QReadTxn rs ser);
                Ret match x with Some a => Ok a | None => Err EEtcd end in
  if localClient s then
    x ⇐ call (QReadTxn rs ser);
    match x with Some a => Ret (Ok a) | None => remote end
  else remote.

(** An empty value is absent on the wire: the client sees a nil slice. *)
Definition Get (s : Store) (key : bytes) : prog (result (option bytes)) :=
  x ⇐? read s (RKey key) false;
  Ret (Ok match x.1 with
          | [] => None
          | (_, e) :: _ => match kv_val e with [] => None | v => Some v end
          end).

Definition GetPrefix (s : Store) (prefix : bytes) : prog (result (list (bytes * kv))) :=
  x ⇐? read s (RPrefix prefix) false; Ret (Ok x.1).

Definition GetRevision (s : Store) (key : bytes) : prog (result (list (bytes * kv) * Z)) :=
  read s (RKey key) false.

(** ** Generations and the guard *)

Definition GetGeneration (s : Store) (node : bytes) : prog (result Z) :=
  v ⇐? Get s (GenKey node);
  Ret match v with
      | None => Ok 0
      | Some v => match ParseUint v with Some g => Ok g | None => Err EOther end
      end.

Definition WithGenerationGuard (node : bytes) (expectedGen : Z) : cmp :=
  value_is (GenKey node) (fmt_uint expectedGen).

(** Whether the installed guard no longer matches the stored generation. *)
Definition guardFailed (s : Store) : prog (result bool) :=
  match guard s with
  | Some (Some expected) =>
    current ⇐? GetGeneration s (nodeID s); Ret (Ok (negb (current =? expected)))
  | _ => Ret (Ok false)
  end.

(** ** Transactions *)

Definition txnRawResponse (ifs : list cmp) (thens elses : list op) : prog (result txn_resp) :=
  x ⇐ call (QTxn ifs thens elses);
  Ret match x with Some r => Ok r | None => Err EEtcd end.

Definition txnRaw (ifs : list cmp) (thens elses : list op) : prog (result bool) :=
  r ⇐? txnRawResponse ifs thens elses; Ret (Ok (succeeded r)).

Definition TxnResponse (s : Store) (ifs : list cmp) (thens elses : list op)
  : prog (result txn_resp) :=
  match guard s with
  | Some None => Ret (Err ErrGuardUnavailable)
  | None => txnRawResponse ifs thens elses
  | Some (Some g) =>
    r ⇐? txnRawResponse (WithGenerationGuard (nodeID s) g :: ifs) thens elses;
    if negb (succeeded r) then
      f ⇐ guardFailed s;
      match f with
      | Ok true => Ret (Err ErrFenced)
      | _ => Ret (Ok r)
      end
    else Ret (Ok r)
  end.

Definition TxnRev (s : Store) (ifs : list cmp) (thens elses : list op) : prog (result (bool * Z)) :=
  r ⇐? TxnResponse s ifs thens elses; Ret (Ok (succeeded r, rrev r)).

Definition Txn (s : Store) (ifs : list cmp) (thens elses : list op) : prog (result bool) :=
  r ⇐? TxnRev s ifs thens elses; Ret (Ok r.1).

(** ** Single-key mutations *)

Definition putRaw (key value : bytes) (lease : Z) : prog (result Z) :=
  x ⇐ call (QPut key value lease);
  Ret match x with Some rev => Ok rev | None => Err EEtcd end.

(** One mutation inside a guarded transaction, a rejection being a fence. *)
Definition guardedOp (s : Store) (g : Z) (o : op) : prog (result txn_resp) :=
  x ⇐ call (QTxn [WithGenerationGuard (nodeID s) g] [o] []);
  Ret match x with
      | None => Err EEtcd
      | Some r => if succeeded r then Ok r else Err ErrFenced
      end.

Definition guardedWrite (s : Store) (o : op) : prog (result Z) :=
  match guard s with
  | Some (Some g) => r ⇐? guardedOp s g o; Ret (Ok (rrev r))
  | _ => Ret (Err ErrGuardUnavailable)
  end.

Definition Put (s : Store) (key value : bytes) (lease : Z) : prog (result Z) :=
  match guard s with
  | Some _ => guardedWrite s (OpPut key value lease)
  | None => putRaw key value lease
  end.

(** [resp.Responses[0].GetResponseDeleteRange().Deleted]. *)
Definition first_deleted (r : txn_resp) : Z :=
  match rresps r with RDel n :: _ => n | _ => 0 end.

Definition delete_with (s : Store) (key : bytes) (prefix : bool) : prog (result Z) :=
  match guard s with
  | Some None => Ret (Err ErrGuardUnavailable)
  | Some (Some g) => r ⇐? guardedOp s g (OpDelete key prefix); Ret (Ok (first_deleted r))
  | None => x ⇐ call (QDelete key prefix);
            Ret match x with Some n => Ok n | None => Err EEtcd end
  end.

Definition DeleteCounting (s : Store) (key : bytes) : prog (result Z) := delete_with s key false.
Definition DeletePrefix (s : Store) (prefix : bytes) : prog (result Z) := delete_with s prefix true.
Definition Delete (s : Store) (key : bytes) : prog (result unit) :=
  _ ⇐? DeleteCounting s key; Ret (Ok tt).

(** ** Fencing generations (gen.go) *)

Definition PutGeneration (node : bytes) (gen : Z) : prog (result unit) :=
  _ ⇐? putRaw (GenKey node) (fmt_uint gen) 0; Ret (Ok tt).

Definition BumpGeneration (s : Store) (node : bytes) (expectedOld : Z) : prog (result Z) :=
  let key := GenKey node in
  let newGen := add64 expectedOld 1 in
  let o := put key (fmt_uint newGen) in
  ok ⇐? txnRaw [value_is key (fmt_uint expectedOld)] [o] [];
  ok ⇐? (if negb ok && (expectedOld =? 0)
         then txnRaw [key_absent key] [o] []
         else Ret (Ok ok));
  if negb ok then _ ⇐ GetGeneration s node; Ret (Err EOther) else Ret (Ok newGen).

Definition EnsureGenerationKey (s : Store) (node : bytes) : prog (result Z) :=
  let key := GenKey node in
  created ⇐? txnRaw [key_absent key] [put key (fmt_uint 0)] [];
  if created then Ret (Ok 0) else GetGeneration s node.

Definition IsFenceActive (s : Store) (node : bytes) : prog (result bool) :=
  gen ⇐? GetGeneration s node; Ret (Ok (0 <? gen)).

(** ** Counters (alloc.go) *)

Definition casAttempts : nat := 20.

Fixpoint reserve_loop (s : Store) (key : bytes) (floor count : Z) (fuel attempt : nat)
  : prog (result Z) :=
  match fuel with
  | O => Ret (Err EOther)
  | S fuel' =>
    v ⇐? Get s key;
    let guard := match v with None => key_absent key | Some v => value_is key v end in
    let stored := match v with None => 0 | Some v => DecodeUint64 v end in
    let reserved := if stored <? floor then floor else stored in
    ok ⇐? Txn s [guard] [put key (EncodeUint64 (add64 reserved count))] [];
    if (ok : bool) then Ret (Ok reserved)
    else
      done ⇐ call (QBackoff attempt);
      if (done : bool) then Ret (Err EOther) else reserve_loop s key floor count fuel' (S attempt)
  end.

Definition ReserveCounter (s : Store) (key : bytes) (floor count : Z) : prog (result Z) :=
  if count =? 0 then Ret (Err EOther) else reserve_loop s key floor count casAttempts 0.

Definition NextCounter (s : Store) (key : bytes) (floor : Z) : prog (result Z) :=
  ReserveCounter s key floor 1.

(** ** Inode operations (inode.go) *)

Definition CreateInode (s : Store) (ino mode uid gid : Z) : prog (result InodeRecord) :=
  now ⇐ call QNow;
  let rec := NewInodeRecord now ino mode uid gid in
  ok ⇐? Txn s [key_absent (InodeKey ino)] [put (InodeKey ino) (EncodeInode rec)] [];
  Ret (if (ok : bool) then Ok rec else Err EOther).

(** [None] is the nil record: the inode is gone (or does not decode). *)
Definition GetInode (s : Store) (ino : Z) : prog (result (option InodeRecord)) :=
  v ⇐? Get s (InodeKey ino);
  Ret (Ok match v with Some v => DecodeInode v | None => None end).

Definition GetInodeRev (s : Store) (ino : Z) : prog (result (option InodeRecord * Z)) :=
  x ⇐? GetRevision s (InodeKey ino);
  Ret (Ok match x.1 with
          | [] => (None, 0)
          | (_, e) :: _ => (DecodeInode (kv_val e), kv_mod e)
          end).

Definition InodeUnchanged (ino modRev : Z) : cmp := mod_is (InodeKey ino) modRev.

(** [retryCAS]: run [attempt] until it commits.  The attempt's [Ok None] is its
    [(false, nil)], contention; [Ok (Some a)] is [(true, nil)] with what it left
    in the variables it captures. *)
Fixpoint retry_loop {A} (attempt : prog (result (option A))) (fuel i : nat) : prog (result A) :=
  match fuel with
  | O => Ret (Err ErrConflict)
  | S fuel' =>
    r ⇐? attempt;
    match r with
    | Some a => Ret (Ok a)
    | None =>
      done ⇐ call (QBackoff i);
      if (done : bool) then Ret (Err EOther) else retry_loop attempt fuel' (S i)
    end
  end.

Definition retryCAS {A} (attempt : prog (result (option A))) : prog (result A) :=
  retry_loop attempt casAttempts 0.

(** ** The discipline: every mutation carries the guard *)

Definition guarded_req (node : bytes) (g : Z) (q : req) : Prop :=
  match q with
  | QTxn ifs _ elses => elses = [] ∧ WithGenerationGuard node g ∈ ifs
  | QPut _ _ _ | QDelete _ _ | QSessionClose _ => False
  | _ => True
  end.

Definition read_only (q : req) : Prop :=
  match q with
  | QTxn _ _ _ | QPut _ _ _ | QDelete _ _ | QSessionClose _ | QNewSession _ => False
  | _ => True
  end.

Lemma read_only_guarded node g q : read_only q → guarded_req node g q.
Proof. by destruct q. Qed.

Create HintDb issues.

Lemma issues_read (P : req → Prop) s r ser : P (QRange r ser) → issues P (read s r ser).
Proof. intros HP. unfold read. destruct (localClient s); simpl; repeat (split; auto); by intros [?|]; simpl. Qed.

Lemma issues_readTxn (P : req → Prop) s rs ser : P (QReadTxn rs ser) → issues P (readTxn s rs ser).
Proof. intros HP. unfold readTxn. destruct (localClient s); simpl; repeat (split; auto); by intros [?|]; simpl. Qed.

Lemma issues_Get (P : req → Prop) s k : P (QRange (RKey k) false) → issues P (Get s k).
Proof. intros HP. apply issues_ebind; [by apply issues_read|done]. Qed.

Lemma issues_GetPrefix (P : req → Prop) s k : P (QRange (RPrefix k) false) → issues P (GetPrefix s k).
Proof. intros HP. apply issues_ebind; [by apply issues_read|done]. Qed.

Lemma issues_GetGeneration (P : req → Prop) s n :
  P (QRange (RKey (GenKey n)) false) → issues P (GetGeneration s n).
Proof. intros HP. apply issues_ebind; [by apply issues_Get|done]. Qed.

Lemma issues_guardFailed (P : req → Prop) s :
  P (QRange (RKey (GenKey (nodeID s))) false) → issues P (guardFailed s).
Proof.
  intros HP. unfold guardFailed. destruct (guard s) as [[g|]|]; try done.
  apply issues_ebind; [by apply issues_GetGeneration|done].
Qed.

Lemma issues_txnRaw (P : req → Prop) ifs ts es : P (QTxn ifs ts es) → issues P (txnRaw ifs ts es).
Proof. intros HP. apply issues_ebind; simpl; auto. Qed.

(** What a transaction of the store may put on the wire. *)
Lemma issues_TxnResponse (P : req → Prop) s ifs ts es :
  (∀ r ser, P (QRange r ser)) →
  (guard s = None → P (QTxn ifs ts es)) →
  (∀ g, guard s = Some (Some g) → P (QTxn (WithGenerationGuard (nodeID s) g :: ifs) ts es)) →
  issues P (TxnResponse s ifs ts es).
Proof.
  intros HR H0 H1. unfold TxnResponse. destruct (guard s) as [[g|]|]; [|done|by simpl; auto].
  apply issues_ebind; [by simpl; auto|]. intros r. case_if; [|done].
  apply issues_bind; [by apply issues_guardFailed|]. by intros [[]|].
Qed.

Lemma issues_Txn (P : req → Prop) s ifs ts es :
  (∀ r ser, P (QRange r ser)) →
  (guard s = None → P (QTxn ifs ts es)) →
  (∀ g, guard s = Some (Some g) → P (QTxn (WithGenerationGuard (nodeID s) g :: ifs) ts es)) →
  issues P (Txn s ifs ts es).
Proof.
  intros. apply issues_ebind; [|done]. apply issues_ebind; [|done]. by apply issues_TxnResponse.
Qed.

Lemma issues_Txn_guarded s g ifs ts :
  guard s = Some (Some g) → issues (guarded_req (nodeID s) g) (Txn s ifs ts []).
Proof.
  intros Hg. apply issues_Txn; [done|congruence|]. intros g' ?. simplify_eq.
  split; [done|]. left.
Qed.

Lemma issues_TxnResponse_guarded s g ifs ts :
  guard s = Some (Some g) → issues (guarded_req (nodeID s) g) (TxnResponse s ifs ts []).
Proof.
  intros Hg. apply issues_TxnResponse; [done|congruence|]. intros g' ?. simplify_eq.
  split; [done|]. left.
Qed.

Lemma issues_guardedOp s g o : issues (guarded_req (nodeID s) g) (guardedOp s g o).
Proof. simpl. split; [|done]. split; [done|]. left. Qed.

Lemma issues_Put s g k v l : guard s = Some (Some g) → issues (guarded_req (nodeID s) g) (Put s k v l).
Proof.
  intros Hg. unfold Put, guardedWrite. rewrite Hg.
  apply issues_ebind; [apply issues_guardedOp|done].
Qed.

Lemma issues_delete_with s g k p :
  guard s = Some (Some g) → issues (guarded_req (nodeID s) g) (delete_with s k p).
Proof.
  intros Hg. unfold delete_with. rewrite Hg. apply issues_ebind; [apply issues_guardedOp|done].
Qed.

Lemma issues_retry (P : req → Prop) {A} (attempt : prog (result (option A))) fuel i :
  (∀ n, P (QBackoff n)) → issues P attempt → issues P (retry_loop attempt fuel i).
Proof.
  intros HP Ha. revert i. induction fuel as [|f IH]; intros i; [done|].
  apply issues_ebind; [done|]. intros []; [done|]. simpl. split; [done|]. by intros [].
Qed.

Lemma issues_retryCAS (P : req → Prop) {A} (attempt : prog (result (option A))) :
  (∀ n, P (QBackoff n)) → issues P attempt → issues P (retryCAS attempt).
Proof. apply issues_retry. Qed.

Lemma issues_GetInodeRev (P : req → Prop) s ino :
  P (QRange (RKey (InodeKey ino)) false) → issues P (GetInodeRev s ino).
Proof. intros. apply issues_ebind; [by apply issues_read|done]. Qed.

Lemma issues_GetInode (P : req → Prop) s ino :
  P (QRange (RKey (InodeKey ino)) false) → issues P (GetInode s ino).
Proof. intros. apply issues_ebind; [by apply issues_Get|done]. Qed.

Lemma issues_reserve s g key floor count fuel i :
  guard s = Some (Some g) →
  issues (guarded_req (nodeID s) g) (reserve_loop s key floor count fuel i).
Proof.
  intros Hg. revert i. induction fuel as [|f IH]; intros i; [done|].
  apply issues_ebind; [by apply issues_Get|]. intros v.
  apply issues_ebind; [by apply issues_Txn_guarded|]. intros []; [done|].
  simpl. split; [done|]. by intros [].
Qed.

#[export] Hint Resolve issues_read issues_readTxn issues_Get issues_GetPrefix issues_GetGeneration
  issues_guardFailed issues_Txn_guarded issues_TxnResponse_guarded issues_Put issues_delete_with
  issues_retry issues_retryCAS issues_GetInodeRev issues_GetInode issues_reserve : issues.

#[export] Hint Extern 4 (guarded_req _ _ _) => exact I : issues.
#[export] Hint Extern 4 (read_only _) => exact I : issues.

(** Walk a program, one bind at a time. *)
Ltac issues_step :=
  match goal with
  | |- ∀ _, _ => intros
  | |- issues _ (ebind _ _) => apply issues_ebind; [|intros]
  | |- issues _ (bind _ _) => apply issues_bind; [|intros]
  | |- issues _ (Ret _) => exact I
  | |- issues _ (call _) => split; [|intros; exact I]
  | |- issues _ (if ?b then _ else _) => destruct b
  | |- issues _ (match ?x with _ => _ end) => destruct x
  end.
Ltac issues_auto := repeat (first [ by eauto with issues | issues_step; try done ]).

(** ** A stale generation cannot write *)

(** The stored generation of [node] is not [g]. *)
Definition guard_stale (node : bytes) (g : Z) (m : mvcc) : Prop :=
  ∀ e, mkvs m !! GenKey node = Some e → kv_val e ≠ fmt_uint g.

Lemma guard_stale_eval node g m :
  guard_stale node g m → eval_cmp (mkvs m) (WithGenerationGuard node g) = false.
Proof.
  intros Hs. apply not_true_is_false. intros (e & He & Hv)%eval_value_is. by apply (Hs e).
Qed.

Lemma guarded_req_stale node g q m m' a :
  guarded_req node g q → guard_stale node g m → etcd_ok q m m' a →
  mkvs m' = mkvs m ∧ mrev m' = mrev m ∧
  match q return resp q → Prop with
  | QTxn _ _ _ => λ a, a = None ∨ ∃ r, a = Some r ∧ succeeded r = false
  | _ => λ _, True
  end a.
Proof.
  intros Hq Hs Hok. pose proof (etcd_ok_store _ _ _ _ Hok) as Hst.
  destruct q as [| |ifs ts es| | | | | | | | |]; simpl in Hq; try done; subst; try done.
  - destruct Hq as [-> Hin].
    assert (forallb (eval_cmp (mkvs m)) ifs = false) as Hf.
    { apply not_true_is_false. rewrite forallb_forall. intros Hall.
      specialize (Hall _ (proj1 (list_elem_of_In _ _) Hin)).
      by rewrite guard_stale_eval in Hall. }
    assert (m' = m) as ->. { by destruct Hst as [->| ->]; [|rewrite mvcc_txn_rejected]. }
    split; [done|]. split; [done|].
    destruct Hok as [Hx|[Hx _]]; [|by left]. simpl in Hx.
    case_match; [|naive_solver]. destruct Hx as [_ ->]. right.
    eexists. split; [done|]. by rewrite mvcc_txn_succeeded.
  - naive_solver.
Qed.
