(* ===== verification/StoreLogic.v ===== *)
(** * Reasoning rules for the store's operations

    Rely/guarantee rules for reads and transactions against a server that may
    fail ([etcd_ok]), and the exact rules for a server that answers
    ([etcd_exact]); the components' proofs are built from these. *)

From S2P Require Import Prelude Etcd EtcdFacts Schema Store.

(** The value a plain [Get] reports for a key. *)
Definition stored (k : bytes) (m : mvcc) : option bytes :=
  match mkvs m !! k with
  | Some e => match kv_val e with [] => None | v => Some v end
  | None => None
  end.

(** The next value a shared counter would hand out. *)
Definition counter_value (key : bytes) (m : mvcc) : Z :=
  match stored key m with Some v => DecodeUint64 v | None => 0 end.

Lemma stored_val_at k m :
  stored k m = match val_at k m with Some ([], _) | None => None | Some (v, _) => Some v end.
Proof. unfold stored, val_at. by destruct (mkvs m !! k) as [[[] ? ? ?]|]. Qed.

Lemma counter_value_same key m m' : val_at key m' = val_at key m → counter_value key m' = counter_value key m.
Proof. intros E. unfold counter_value. by rewrite !stored_val_at, E. Qed.

Lemma stored_range k m :
  match range_kvs (RKey k) m with
  | [] => None
  | (_, e) :: _ => match kv_val e with [] => None | v => Some v end
  end = stored k m.
Proof. unfold stored. simpl. by destruct (mkvs m !! k). Qed.

Lemma stored_put m k v l : v ≠ [] → stored k (mvcc_ops m [OpPut k v l]).1 = Some v.
Proof.
  intros Hv. unfold stored. rewrite mvcc_ops_kvs, apply_ops_cons. cbn [apply_op fst apply_ops].
  unfold put_kv. rewrite lookup_insert_eq. cbn [kv_val]. by destruct v.
Qed.

(** Enter a bind of the program under proof. *)
Ltac wpb := first [apply wp_ebind | apply wp_bind]; try (by apply _).

(** Apply a rule of the logic, discharging the side conditions on the rely and
    the guarantee. *)
Tactic Notation "wpr" uconstr(H) := apply H; try (by apply _); try (intros ?; reflexivity).

(** ** A server that may fail *)

Section rules.
Context {Γ : Type} (R G : mvcc * Γ → mvcc * Γ → Prop) `{!PreOrder R}.
Context (Grefl : ∀ σ, G σ σ).

Lemma etcd_ok_read r m m' a :
  etcd_ok (QRange r false) m m' a →
  m' = m ∧ (a = None ∨ a = Some (range_kvs r m, mrev m)).
Proof. intros [[-> ->]|[-> [->|[a' [-> _]]]]]; auto. Qed.

Lemma wp_read s r Q σ :
  (∀ σ1, R σ σ1 → Q (Err EEtcd) σ1) →
  (∀ σ1 σ2, R σ σ1 → R σ1 σ2 → Q (Ok (range_kvs r σ1.1, mrev σ1.1)) σ2) →
  wp etcd_ok R G (read s r false) Q σ.
Proof.
  intros He Ho.
  assert (∀ σ0, R σ σ0 → wp etcd_ok R G (x ⇐ call (QRange r false);
            Ret match x with Some a => Ok a | None => Err EEtcd end) Q σ0) as Hrem.
  { intros σ0 H0 [m1 g1] m2 a H1 [-> Ha]%etcd_ok_read. exists g1. split; [apply Grefl|].
    intros σ3 H3. destruct Ha as [->| ->].
    - apply He. by trans σ0; [|trans (m1, g1)].
    - apply (Ho (m1, g1)); [by trans σ0|done]. }
  unfold read. destruct (localClient s); [|by apply Hrem].
  intros [m1 g1] m2 a H1 [-> Ha]%etcd_ok_read. exists g1. split; [apply Grefl|].
  destruct Ha as [->| ->]; [by apply Hrem|].
  intros σ3 H3. by apply (Ho (m1, g1)).
Qed.

Lemma wp_Get s k Q σ :
  (∀ σ1, R σ σ1 → Q (Err EEtcd) σ1) →
  (∀ σ1 σ2, R σ σ1 → R σ1 σ2 → Q (Ok (stored k σ1.1)) σ2) →
  wp etcd_ok R G (Get s k) Q σ.
Proof.
  intros He Ho. wpb. apply wp_read.
  - intros σ1 H1 σ2 H2. apply He. by trans σ1.
  - intros σ1 σ2 H1 H2 σ3 H3. cbn [fst]. rewrite stored_range. apply Ho; [done|by trans σ2].
Qed.

Lemma wp_GetPrefix s p Q σ :
  (∀ σ1, R σ σ1 → Q (Err EEtcd) σ1) →
  (∀ σ1 σ2, R σ σ1 → R σ1 σ2 → Q (Ok (range_kvs (RPrefix p) σ1.1)) σ2) →
  wp etcd_ok R G (GetPrefix s p) Q σ.
Proof.
  intros He Ho. wpb. apply wp_read.
  - intros σ1 H1 σ2 H2. apply He. by trans σ1.
  - intros σ1 σ2 H1 H2 σ3 H3. apply Ho; [done|by trans σ2].
Qed.

(** A program that only reads may return anything, and changes nothing. *)
Lemma wp_reading {A} (p : prog A) Q σ :
  issues read_only p → (∀ a σ1, R σ σ1 → Q a σ1) → wp etcd_ok R G p Q σ.
Proof.
  intros Hp. revert σ. induction p as [a|q k IH]; intros σ HQ; [intros σ1 H1; by apply HQ|].
  destruct Hp as [Hq Hk]. intros [m1 g1] m2 r H1 Hok. exists g1.
  assert (m2 = m1) as -> by (apply etcd_ok_store in Hok; by destruct q).
  split; [apply Grefl|]. apply IH; [apply Hk|]. intros a σ2 H2. apply HQ. by trans (m1, g1).
Qed.

Lemma wp_any_GetGeneration s n Q σ :
  (∀ a σ1, R σ σ1 → Q a σ1) → wp etcd_ok R G (GetGeneration s n) Q σ.
Proof.
  intros HQ. wpb. apply wp_Get.
  - intros σ1 H1 σ2 H2. apply HQ. by trans σ1.
  - intros σ1 σ2 H1 H2 σ3 H3. apply HQ. trans σ1; [done|by trans σ2].
Qed.

Lemma wp_any_guardFailed s Q σ :
  (∀ a σ1, R σ σ1 → Q a σ1) → wp etcd_ok R G (guardFailed s) Q σ.
Proof.
  intros HQ. unfold guardFailed. destruct (guard s) as [[g|]|]; try (intros σ1 H1; by apply HQ).
  wpb. apply wp_any_GetGeneration. intros [c|e] σ1 H1 σ2 H2; apply HQ; by trans σ1.
Qed.

(** A transaction on the wire: it fails, is rejected, or commits. *)
Lemma wp_txnRawResponse ifs ts Q σ :
  (∀ σ1, R σ σ1 → Q (Err EEtcd) σ1) →
  (∀ σ1 r, R σ σ1 → succeeded r = false → Q (Ok r) σ1) →
  (∀ σ1, R σ σ1 → forallb (eval_cmp (mkvs σ1.1)) ifs = true → txn_valid σ1.1 ifs ts [] = true →
     ∃ g2, G σ1 ((mvcc_ops σ1.1 ts).1, g2) ∧
     ∀ σ3, R ((mvcc_ops σ1.1 ts).1, g2) σ3 →
       Q (Ok (mvcc_txn σ1.1 ifs ts []).2) σ3 ∧ Q (Err EEtcd) σ3) →
  wp etcd_ok R G (txnRawResponse ifs ts []) Q σ.
Proof.
  intros He Hr Hc [m1 g1] m2 a H1 Hok.
  assert (∀ a', etcd_exact (QTxn ifs ts []) m1 m2 a' →
    ∃ g2, G (m1, g1) (m2, g2) ∧ ∀ σ3, R (m2, g2) σ3 →
      Q match a' with Some r => Ok r | None => Err EEtcd end σ3 ∧ Q (Err EEtcd) σ3) as Hx.
  { intros a' Ha. simpl in Ha. destruct (txn_valid m1 ifs ts []) eqn:Hval.
    - destruct Ha as [-> ->].
      destruct (forallb (eval_cmp (mkvs m1)) ifs) eqn:Hf.
      + destruct (Hc (m1, g1) H1 Hf Hval) as (g2 & HG & HQ). exists g2.
        rewrite mvcc_txn_committed by done. auto.
      + rewrite mvcc_txn_rejected by done. exists g1. split; [apply Grefl|].
        intros σ3 H3. split; [apply Hr; [by trans (m1, g1)|by rewrite mvcc_txn_succeeded]|].
        apply He. by trans (m1, g1).
    - destruct Ha as [-> ->]. exists g1. split; [apply Grefl|].
      intros σ3 H3. split; apply He; by trans (m1, g1). }
  destruct Hok as [Ha|[-> [->|[a' Ha]]]].
  - destruct (Hx a Ha) as (g2 & HG & HQ). exists g2. split; [done|]. intros σ3 H3. by apply HQ.
  - exists g1. split; [apply Grefl|]. intros σ3 H3. apply He. by trans (m1, g1).
  - destruct (Hx a' Ha) as (g2 & HG & HQ). exists g2. split; [done|]. intros σ3 H3. by apply HQ.
Qed.

Lemma wp_txnRaw ifs ts Q σ :
  (∀ σ1, R σ σ1 → Q (Err EEtcd) σ1) →
  (∀ σ1, R σ σ1 → Q (Ok false) σ1) →
  (∀ σ1, R σ σ1 → forallb (eval_cmp (mkvs σ1.1)) ifs = true →
     ∃ g2, G σ1 ((mvcc_ops σ1.1 ts).1, g2) ∧
     ∀ σ3, R ((mvcc_ops σ1.1 ts).1, g2) σ3 → Q (Ok true) σ3 ∧ Q (Err EEtcd) σ3) →
  wp etcd_ok R G (txnRaw ifs ts []) Q σ.
Proof.
  intros He Hr Hc. wpb. apply wp_txnRawResponse.
  - intros σ1 H1 σ2 H2. apply He. by trans σ1.
  - intros σ1 r H1 Hs σ2 H2. rewrite Hs. apply Hr. by trans σ1.
  - intros σ1 H1 Hf _. destruct (Hc σ1 H1 Hf) as (g2 & HG & HQ). exists g2. split; [done|].
    intros σ3 H3. rewrite mvcc_txn_succeeded, Hf. split; intros σ4 H4.
    + apply (HQ σ4). by trans σ3.
    + apply (HQ σ4). by trans σ3.
Qed.

(** The store's guarded transaction; [e] ranges over the reported errors. *)
Lemma wp_Txn s ifs ts Q σ :
  (∀ e σ1, R σ σ1 → Q (Err e) σ1) →
  (∀ σ1, R σ σ1 → Q (Ok false) σ1) →
  (∀ σ1, R σ σ1 → forallb (eval_cmp (mkvs σ1.1)) ifs = true →
     ∃ g2, G σ1 ((mvcc_ops σ1.1 ts).1, g2) ∧
     ∀ σ3, R ((mvcc_ops σ1.1 ts).1, g2) σ3 → Q (Ok true) σ3 ∧ Q (Err EEtcd) σ3) →
  wp etcd_ok R G (Txn s ifs ts []) Q σ.
Proof.
  intros He Hr Hc.
  wpb. wpb. unfold TxnResponse.
  assert (∀ r σ1, R σ σ1 → succeeded r = false → wp etcd_ok R G (Ret (Ok (succeeded r, rrev r)))
    (λ (r0 : result (bool * Z)) σ2, match r0 with
       | Ok a => wp etcd_ok R G (Ret (Ok a.1)) Q σ2 | Err e => wp etcd_ok R G (Ret (Err e)) Q σ2 end) σ1)
    as Hrej.
  { intros r σ1 H1 Hs σ2 H2 σ3 H3. simpl. rewrite Hs. apply Hr. trans σ1; [done|by trans σ2]. }
  assert (∀ e σ1, R σ σ1 → wp etcd_ok R G (Ret (Err e))
    (λ (r0 : result (bool * Z)) σ2, match r0 with
       | Ok a => wp etcd_ok R G (Ret (Ok a.1)) Q σ2 | Err e => wp etcd_ok R G (Ret (Err e)) Q σ2 end) σ1)
    as Herr.
  { intros e σ1 H1 σ2 H2 σ3 H3. apply He. trans σ1; [done|by trans σ2]. }
  destruct (guard s) as [[g|]|].
  - wpb. apply wp_txnRawResponse.
    + intros σ1 H1 σ2 H2. apply Herr. by trans σ1.
    + intros σ1 r H1 Hs. rewrite Hs. simpl. wpb.
      apply wp_any_guardFailed. intros [[]|e] σ2 H2 σ3 H3;
        first [apply Herr|apply Hrej]; try done; trans σ1; (done || by trans σ2).
    + intros σ1 H1 Hf _. simpl in Hf. apply andb_true_iff in Hf as [Hg Hf].
      destruct (Hc σ1 H1 Hf) as (g2 & HG & HQ). exists g2. split; [done|].
      intros σ3 H3. rewrite mvcc_txn_succeeded. simpl. rewrite Hg, Hf. simpl. split.
      * intros σ4 H4 σ5 H5 σ6 H6. simpl. rewrite mvcc_txn_succeeded. simpl. rewrite Hg, Hf.
        apply HQ. do 3 (etrans; [eassumption|]). done.
      * intros σ4 H4 σ5 H5 σ6 H6. apply HQ. do 3 (etrans; [eassumption|]). done.
  - intros σ1 H1. by apply Herr.
  - apply wp_txnRawResponse.
    + intros σ1 H1. by apply Herr.
    + intros σ1 r H1 Hs. by apply Hrej.
    + intros σ1 H1 Hf _. destruct (Hc σ1 H1 Hf) as (g2 & HG & HQ). exists g2. split; [done|].
      intros σ3 H3. split.
      * intros σ4 H4 σ5 H5. simpl. rewrite mvcc_txn_succeeded, Hf. apply HQ.
        do 2 (etrans; [eassumption|]). done.
      * intros σ4 H4 σ5 H5. apply HQ. do 2 (etrans; [eassumption|]). done.
Qed.

Lemma wp_GetRevision s k Q σ :
  (∀ σ1, R σ σ1 → Q (Err EEtcd) σ1) →
  (∀ σ1 σ2, R σ σ1 → R σ1 σ2 → Q (Ok (range_kvs (RKey k) σ1.1, mrev σ1.1)) σ2) →
  wp etcd_ok R G (GetRevision s k) Q σ.
Proof. apply wp_read. Qed.

Lemma wp_GetInodeRev s ino Q σ :
  (∀ σ1, R σ σ1 → Q (Err EEtcd) σ1) →
  (∀ σ1 σ2, R σ σ1 → R σ1 σ2 → mkvs σ1.1 !! InodeKey ino = None → Q (Ok (None, 0)) σ2) →
  (∀ σ1 σ2 e, R σ σ1 → R σ1 σ2 → mkvs σ1.1 !! InodeKey ino = Some e →
     Q (Ok (DecodeInode (kv_val e), kv_mod e)) σ2) →
  wp etcd_ok R G (GetInodeRev s ino) Q σ.
Proof.
  intros He Hn Hs. wpb. apply wp_GetRevision.
  - intros σ1 H1 σ2 H2. apply He. by trans σ1.
  - intros σ1 σ2 H1 H2 σ3 H3. cbn [fst range_kvs]. destruct (mkvs σ1.1 !! InodeKey ino) as [e|] eqn:E.
    + apply (Hs σ1); [done|by trans σ2|done].
    + apply (Hn σ1); [done|by trans σ2|done].
Qed.

Lemma wp_now (Q : Z → mvcc * Γ → Prop) σ :
  (∀ t σ1, R σ σ1 → Q t σ1) → wp etcd_ok R G (call QNow) Q σ.
Proof.
  intros HQ [m1 g1] m2 t H1 [->|[[] _]]. exists g1. split; [apply Grefl|]. intros σ3 H3. apply HQ. by trans (m1, g1).
Qed.

(** A retried operation keeps [I] while it is contended. *)
Lemma wp_retry {A} (attempt : prog (result (option A))) (I : mvcc * Γ → Prop) Q fuel n σ :
  (∀ σ σ', R σ σ' → I σ → I σ') → (∀ r σ σ', R σ σ' → Q r σ → Q r σ') →
  (∀ e σ, I σ → Q (Err e) σ) →
  (∀ σ, I σ → wp etcd_ok R G attempt
     (λ r σ', match r with Ok (Some a) => Q (Ok a) σ' | Ok None => I σ' | Err e => Q (Err e) σ' end) σ) →
  I σ → wp etcd_ok R G (retry_loop attempt fuel n) Q σ.
Proof.
  intros HI HQ He Ha. revert n σ. induction fuel as [|f IH]; intros n σ Hσ.
  { intros σ1 H1. apply He. by eapply HI. }
  cbn [retry_loop]. wpb. eapply wp_mono; [|by apply Ha]. cbn beta. intros [[a|]|e] σ1 Hσ1.
  - intros σ2 H2. by eapply HQ.
  - intros [m2 g2] m3 d H2 Hx. exists g2. assert (m3 = m2) as -> by by destruct Hx as [->|[[] _]].
    split; [apply Grefl|]. assert (I (m2, g2)) by by eapply HI.
    destruct d; [intros σ4 H4; apply He; by eapply HI|by apply IH].
  - intros σ2 H2. by eapply HQ.
Qed.

(** Taking values from a shared counter: in the state where the reservation
    commits, the counter still has the value the reservation was based on. *)
Lemma wp_reserve_loop s key floor count fuel attempt Q σ :
  (∀ σ1, R σ σ1 → mvcc_wf σ1.1) →
  (∀ e σ1, R σ σ1 → Q (Err e) σ1) →
  (∀ σ1, R σ σ1 →
     let r := if counter_value key σ1.1 <? floor then floor else counter_value key σ1.1 in
     let m2 := (mvcc_ops σ1.1 [put key (EncodeUint64 (add64 r count))]).1 in
     ∃ g2, G σ1 (m2, g2) ∧ ∀ σ3, R (m2, g2) σ3 → Q (Ok r) σ3 ∧ Q (Err EEtcd) σ3) →
  wp etcd_ok R G (reserve_loop s key floor count fuel attempt) Q σ.
Proof.
  revert attempt σ. induction fuel as [|f IH]; intros attempt σ Hwf He Hc; [intros σ1 H1; by apply He|].
  cbn [reserve_loop]. wpb. apply wp_Get.
  { intros σ1 H1 σ2 H2. apply He. by trans σ1. }
  intros σ1 σ2 H1 H2. assert (R σ σ2) as H02 by by trans σ1. wpb. apply wp_Txn.
  { intros e σ3 H3 σ4 H4. apply He. trans σ2; [done|by trans σ3]. }
  - intros σ3 H3 [m4 g4] m5 d H4 Hx. exists g4.
    assert (m5 = m4) as -> by by destruct Hx as [->|[[] _]].
    assert (R σ (m4, g4)) as H04 by (trans σ2; [done|by trans σ3]).
    split; [apply Grefl|]. destruct d; [intros σ6 H6; apply He; by trans (m4, g4)|].
    apply IH; intros; [apply Hwf|apply He|apply Hc]; by trans (m4, g4).
  - intros [m3 γ3] H3 Hf. assert (R σ (m3, γ3)) as H03 by by trans σ2.
    assert (counter_value key m3 =
      match stored key σ1.1 with Some v => DecodeUint64 v | None => 0 end) as Hcv.
    { simpl in Hf. rewrite andb_true_r in Hf. unfold counter_value.
      destruct (stored key σ1.1) as [v|] eqn:Es.
      - apply eval_value_is in Hf as (e & He' & Hv). unfold stored. rewrite He', Hv.
        destruct v; [|done]. unfold stored in Es. by repeat case_match.
      - apply eval_key_absent in Hf; [|by apply (Hwf (m3, γ3))]. unfold stored. by rewrite Hf. }
    rewrite <- Hcv. destruct (Hc (m3, γ3) H03) as (g2 & HG & HQ). exists g2. split; [done|].
    intros σ4 H4. split; intros σ5 H5; apply HQ; by trans σ4.
Qed.
End rules.

(** ** A server that answers, no interference *)

Abbreviation wpx p Q m := (wp etcd_exact eq (λ _ _, True) p Q (m, tt)).

Section exact.
Implicit Types (m : mvcc).

Lemma wpx_ret {A} (a : A) (Q : A → mvcc * unit → Prop) m : Q a (m, tt) → wpx (Ret a) Q m.
Proof. by intros ? σ1 <-. Qed.

Lemma wpx_bind {A B} (p : prog A) (f : A → prog B) Q m :
  wpx p (λ a σ, wpx (f a) Q σ.1) m → wpx (bind p f) Q m.
Proof. intros H. wpb. eapply wp_mono; [|exact H]. by intros a [m' []]. Qed.

Lemma wpx_ebind {A B} (p : prog (result A)) (f : A → prog (result B)) Q m :
  wpx p (λ r σ, match r with Ok a => wpx (f a) Q σ.1 | Err e => Q (Err e) σ end) m →
  wpx (ebind p f) Q m.
Proof.
  intros H. wpb. eapply wp_mono; [|exact H].
  intros [a|e] [m' []]; [done|]. by intros ? σ <-.
Qed.

Lemma wpx_read s r (Q : _ → mvcc * unit → Prop) m :
  Q (Ok (range_kvs r m, mrev m)) (m, tt) → wpx (read s r false) Q m.
Proof.
  intros HQ. unfold read. destruct (localClient s);
    intros σ1 m2 a <- [-> ->]; exists tt; (split; [done|]); by intros σ3 <-.
Qed.

Lemma wpx_Get s k (Q : _ → mvcc * unit → Prop) m :
  Q (Ok (stored k m)) (m, tt) → wpx (Get s k) Q m.
Proof.
  intros HQ. apply wpx_ebind, wpx_read, wpx_ret. cbn [fst]. by rewrite stored_range.
Qed.

Lemma wpx_GetPrefix s k (Q : _ → mvcc * unit → Prop) m :
  Q (Ok (range_kvs (RPrefix k) m)) (m, tt) → wpx (GetPrefix s k) Q m.
Proof. intros HQ. by apply wpx_ebind, wpx_read, wpx_ret. Qed.

Lemma wpx_now (Q : Z → mvcc * unit → Prop) m : (∀ t, Q t (m, tt)) → wpx (call QNow) Q m.
Proof. intros HQ σ1 m2 t <- ->. exists tt. split; [done|]. by intros σ3 <-. Qed.

Lemma wpx_GetInodeRev s ino (Q : _ → mvcc * unit → Prop) m :
  Q (Ok match mkvs m !! InodeKey ino with
        | None => (None, 0) | Some e => (DecodeInode (kv_val e), kv_mod e) end) (m, tt) →
  wpx (GetInodeRev s ino) Q m.
Proof.
  intros HQ. apply wpx_ebind, wpx_read, wpx_ret. cbn [fst range_kvs]. by destruct (mkvs m !! InodeKey ino).
Qed.

Lemma wpx_retry {A} (attempt : prog (result (option A))) (Q : result A → mvcc * unit → Prop) m :
  wpx attempt (λ r σ, match r with Ok (Some a) => Q (Ok a) σ | Ok None => False | Err e => Q (Err e) σ end) m →
  wpx (retryCAS attempt) Q m.
Proof.
  intros H. apply (wpx_ebind attempt). eapply wp_mono; [|exact H]. by intros [[a|]|e] [m' []]; [apply wpx_ret|done|].
Qed.

(** The comparisons a store's transaction puts on the wire. *)
Definition wire_cmps (s : Store) (ifs : list cmp) : list cmp :=
  match guard s with
  | Some (Some g) => WithGenerationGuard (nodeID s) g :: ifs
  | _ => ifs
  end.

(** The store is unguarded, or its generation is the stored one. *)
Definition guard_current (s : Store) (m : mvcc) : Prop :=
  match guard s with
  | None => True
  | Some None => False
  | Some (Some g) => is_u64 g ∧ ∃ e, mkvs m !! GenKey (nodeID s) = Some e ∧ kv_val e = fmt_uint g
  end.

Lemma guard_current_eval s m ifs :
  guard_current s m →
  forallb (eval_cmp (mkvs m)) (wire_cmps s ifs) = forallb (eval_cmp (mkvs m)) ifs.
Proof.
  unfold guard_current, wire_cmps. destruct (guard s) as [[g|]|]; [|done|done].
  intros [_ H]. simpl. unfold WithGenerationGuard.
  by rewrite (proj2 (eval_value_is m (GenKey (nodeID s)) (fmt_uint g)) H).
Qed.

Lemma wpx_GetGeneration_current s m g (Q : _ → mvcc * unit → Prop) :
  guard s = Some (Some g) → guard_current s m → Q (Ok g) (m, tt) →
  wpx (GetGeneration s (nodeID s)) Q m.
Proof.
  intros Hg Hc HQ. unfold guard_current in Hc. rewrite Hg in Hc. destruct Hc as (Hu & e & He & Hv).
  apply wpx_ebind, wpx_Get, wpx_ret. unfold stored. rewrite He, Hv.
  destruct (fmt_uint g) as [|c t] eqn:Ef; [by destruct (fmt_uint_nonempty g)|].
  rewrite <- Ef. by rewrite ParseUint_fmt_uint.
Qed.

(** Transactions within etcd's limits: few, on distinct keys, no leases. *)
Lemma txn_valid_small s m ifs ts :
  ops_distinct ts = true → (length ifs <= 127)%nat → (length ts <= 127)%nat →
  Forall (λ o, op_lease_live m o = true) ts → txn_valid m (wire_cmps s ifs) ts [] = true.
Proof.
  intros Hd Hi Ht Hl. unfold txn_valid. rewrite Hd.
  assert (length (wire_cmps s ifs) <= max_txn_ops)%nat as H1.
  { unfold wire_cmps, max_txn_ops. destruct (guard s) as [[g|]|]; simpl; lia. }
  rewrite (bool_decide_eq_true_2 _ H1), (bool_decide_eq_true_2 (length ts <= max_txn_ops)%nat)
    by (unfold max_txn_ops; lia).
  cbn [ops_distinct andb length]. rewrite (bool_decide_eq_true_2 (0 <= max_txn_ops)%nat) by lia.
  unfold txn_branch. case_if; [|done]. cbn [snd]. apply forallb_forall. intros o Ho.
  rewrite Forall_forall in Hl. by apply Hl, list_elem_of_In.
Qed.

(** A guarded transaction of a node that is not fenced. *)
Lemma wpx_TxnRev s ifs ts (Q : _ → mvcc * unit → Prop) m :
  guard_current s m → txn_valid m (wire_cmps s ifs) ts [] = true →
  (forallb (eval_cmp (mkvs m)) ifs = true →
     Q (Ok (true, mrev (mvcc_ops m ts).1)) ((mvcc_ops m ts).1, tt)) →
  (forallb (eval_cmp (mkvs m)) ifs = false → Q (Ok (false, mrev m)) (m, tt)) →
  wpx (TxnRev s ifs ts []) Q m.
Proof.
  intros Hc Hv Ht Hf. pose proof (guard_current_eval s m ifs Hc) as Hw. apply wpx_ebind.
  assert (∀ (Q' : result txn_resp → mvcc * unit → Prop),
    (∀ r, let ok := forallb (eval_cmp (mkvs m)) ifs in let m' := if ok then (mvcc_ops m ts).1 else m in
      succeeded r = ok → rrev r = mrev m' → Q' (Ok r) (m', tt)) →
    wpx (txnRawResponse (wire_cmps s ifs) ts []) Q' m) as Hraw.
  { intros Q' HQ' σ1 m2 a <- Ha. simpl in Ha. rewrite Hv in Ha. destruct Ha as [-> ->].
    exists tt. split; [done|]. intros σ3 <-.
    specialize (HQ' (mvcc_txn m (wire_cmps s ifs) ts []).2). simpl in HQ'.
    rewrite mvcc_txn_succeeded, mvcc_txn_rev, Hw in HQ'. specialize (HQ' eq_refl).
    destruct (forallb (eval_cmp (mkvs m)) ifs) eqn:E.
    - rewrite mvcc_txn_committed in HQ' |- * by by rewrite Hw. auto.
    - rewrite mvcc_txn_rejected in HQ' |- * by by rewrite Hw. auto. }
  unfold TxnResponse. unfold wire_cmps in *. destruct (guard s) as [[g|]|] eqn:Eg.
  - apply wpx_ebind, Hraw. intros r Hs Hr. cbn [fst].
    destruct (forallb (eval_cmp (mkvs m)) ifs) eqn:E; rewrite Hs; cbn [negb].
    + apply wpx_ret, wpx_ret. rewrite Hs, Hr. auto.
    + apply wpx_bind. unfold guardFailed. rewrite Eg.
      apply wpx_ebind. eapply wpx_GetGeneration_current; [done|done|].
      apply wpx_ret. rewrite Z.eqb_refl. cbn [negb fst].
      apply wpx_ret, wpx_ret. rewrite Hs, Hr. auto.
  - unfold guard_current in Hc. rewrite Eg in Hc. done.
  - apply Hraw. intros r Hs Hr. apply wpx_ret. rewrite Hs, Hr.
    destruct (forallb (eval_cmp (mkvs m)) ifs); auto.
Qed.

Lemma wpx_Txn s ifs ts (Q : _ → mvcc * unit → Prop) m :
  guard_current s m → txn_valid m (wire_cmps s ifs) ts [] = true →
  (forallb (eval_cmp (mkvs m)) ifs = true → Q (Ok true) ((mvcc_ops m ts).1, tt)) →
  (forallb (eval_cmp (mkvs m)) ifs = false → Q (Ok false) (m, tt)) →
  wpx (Txn s ifs ts []) Q m.
Proof. intros Hc Hv Ht Hf. apply wpx_ebind, wpx_TxnRev; [done|done| |]; intros E; apply wpx_ret; auto. Qed.
End exact.
