(* ===== verification/StoreProps.v ===== *)
(** * Properties of the metadata store

    Fencing: what a stale generation can and cannot do, and who may bump it.
    Counters: reservations by concurrent nodes never overlap. *)

From S2P Require Import Prelude Etcd EtcdFacts Schema Store StoreLogic.

(** ** A fenced node is inert *)

(** Any program all of whose mutations carry the guard leaves a store that has
    moved past the guard's generation exactly as it found it. *)
Lemma stale_run `{E : Etcd} {A} (p : prog A) node g s :
  issues (guarded_req node g) p → guard_stale node g (eview s) →
  mkvs (eview (run p s).1) = mkvs (eview s) ∧ mrev (eview (run p s).1) = mrev (eview s).
Proof.
  revert s. induction p as [a|q k IH]; simpl; intros s Hp Hs; [done|].
  destruct Hp as [Hq Hk]. pose proof (etcd_documented q s) as Hd.
  destruct (eserve q s) as [s' r]. simpl in *.
  destruct (guarded_req_stale _ _ _ _ _ _ Hq Hs Hd) as (Hm & Hr & _).
  rewrite <- Hm, <- Hr. apply IH; [done|]. unfold guard_stale in *. by rewrite Hm.
Qed.

(** The same for one step of a fenced client among others. *)
Lemma stale_step `{E : Etcd} {A} (s : esrv) (q : req) (k : resp q → prog A) node g :
  issues (guarded_req node g) (Call q k) → guard_stale node g (eview s) →
  mkvs (eview (eserve q s).1) = mkvs (eview s).
Proof.
  intros [Hq _] Hs. by destruct (guarded_req_stale _ _ _ _ _ _ Hq Hs (etcd_documented q s)).
Qed.

Lemma wpx_GetGeneration s node m g (Q : _ → mvcc * unit → Prop) :
  is_u64 g → (∃ e, mkvs m !! GenKey node = Some e ∧ kv_val e = fmt_uint g) →
  Q (Ok g) (m, tt) → wpx (GetGeneration s node) Q m.
Proof.
  intros Hu (e & He & Hv) HQ.
  apply wpx_ebind, wpx_Get, wpx_ret. unfold stored. rewrite He, Hv.
  destruct (fmt_uint g) as [|c t] eqn:Ef; [by destruct (fmt_uint_nonempty g)|].
  rewrite <- Ef. by rewrite ParseUint_fmt_uint.
Qed.

(** A transaction of a fenced node is not mistaken for contention: when the
    stored generation is no longer the guard's, [Txn] reports [ErrFenced] and
    nothing is written, whatever the transaction compares or puts. *)
Theorem fenced_txn_is_reported `{E : Etcd, !ReliableEtcd E} s g g' ifs ts srv
  (Hguard : guard s = Some (Some g)) (Hne : g ≠ g') (Hg : is_u64 g) (Hg' : is_u64 g')
  (Hgen : ∃ e, mkvs (eview srv) !! GenKey (nodeID s) = Some e ∧ kv_val e = fmt_uint g')
  (Hvalid : txn_valid (eview srv) (WithGenerationGuard (nodeID s) g :: ifs) ts [] = true) :
  (run (Txn s ifs ts []) srv).2 = Err ErrFenced ∧
  mkvs (eview (run (Txn s ifs ts []) srv).1) = mkvs (eview srv).
Proof.
  assert (guard_stale (nodeID s) g (eview srv)) as Hst.
  { destruct Hgen as (e & He & Hv). intros e' He'. simplify_eq. rewrite Hv.
    intros ?%fmt_uint_inj; unfold is_u64 in *; lia. }
  split; [|by apply (stale_run _ (nodeID s) g); [apply issues_Txn_guarded|]].
  apply (wp_run_reliable _ (λ r _, r = Err ErrFenced)).
  apply wpx_ebind, wpx_ebind. unfold TxnResponse. rewrite Hguard. apply wpx_ebind.
  intros σ1 m2 a <- Ha. exists tt. split; [done|]. intros σ3 <-.
  simpl in Ha. rewrite Hvalid in Ha. destruct Ha as [-> ->].
  assert (forallb (eval_cmp (mkvs (eview srv))) (WithGenerationGuard (nodeID s) g :: ifs) = false) as Hf.
  { simpl. by rewrite guard_stale_eval. }
  rewrite mvcc_txn_rejected by done. rewrite mvcc_txn_succeeded, Hf. cbn [negb fst].
  apply wpx_bind. unfold guardFailed. rewrite Hguard. apply wpx_ebind.
  apply (wpx_GetGeneration _ _ _ g'); [done|done|]. apply wpx_ret. cbn [fst].
  rewrite (proj2 (Z.eqb_neq g' g)) by congruence. cbn [negb]. by apply wpx_ret.
Qed.

(** A cluster with node "n1" at generation 1, running a transaction at 0. *)
Definition demo_node : bytes := lit "n1".
Definition demo_store : Store := mkStore demo_node false (Some (Some 0)).
Definition demo_srv (gen : Z) : ref_srv :=
  RefSrv (MVCC 5 {[ GenKey demo_node := KV (fmt_uint gen) 2 5 0 ]} ∅) 100.

Lemma fenced_txn_is_reported_witness :
  (@run ref_etcd _ (Txn demo_store [key_absent (lit "k")] [put (lit "k") (lit "v")] []) (demo_srv 1)).2
  = Err ErrFenced.
Proof.
  apply (@fenced_txn_is_reported ref_etcd _ demo_store 0 1 [key_absent (lit "k")]
           [put (lit "k") (lit "v")] (demo_srv 1)).
  - reflexivity.
  - lia.
  - unfold is_u64; lia.
  - unfold is_u64; lia.
  - eexists. split; vm_compute; reflexivity.
  - vm_compute. reflexivity.
Defined.

(** ** Bumping a generation *)

Section bump.
Context (node : bytes) (g : Z) (Hg : is_u64 g).

Definition bump_inv (σ : mvcc * option nat) : Prop :=
  mvcc_wf σ.1 ∧
  ∀ j, σ.2 = Some j →
    ∃ e, mkvs σ.1 !! GenKey node = Some e ∧ kv_val e = fmt_uint (add64 g 1) ∧ kv_lease e = 0.

(** The winner, once recorded, stays recorded. *)
Definition bump_rel (σ σ' : mvcc * option nat) : Prop :=
  (bump_inv σ → bump_inv σ') ∧ ∀ j, σ.2 = Some j → σ'.2 = Some j.

#[export] Instance bump_rel_preorder : PreOrder bump_rel.
Proof. split; [by split|]. intros σ1 σ2 σ3 [? ?] [? ?]. split; auto. Qed.

Lemma add64_succ_ne : add64 g 1 ≠ g.
Proof. unfold add64, wrap64, is_u64 in *. intros H. dlia. Qed.

Lemma add64_nonneg : 0 <= add64 g 1.
Proof. destruct (wrap64_u64 (g + 1)). done. Qed.

Lemma bump_expire l m γ : bump_rel (m, γ) (mvcc_expire l m, γ).
Proof.
  split; [|done]. intros [Hw Hx]. split; [by apply mvcc_expire_wf|].
  intros k Hk. destruct (Hx k Hk) as (e & He & ? & Hl).
  exists e. split; [by apply mvcc_expire_unleased|done].
Qed.

(** A commit of the bump from [g]: nobody has won yet, and now [i] has. *)
Lemma bump_commit i m γ :
  bump_inv (m, γ) →
  (∃ e, mkvs m !! GenKey node = Some e ∧ kv_val e = fmt_uint g) ∨ mkvs m !! GenKey node = None →
  let m2 := (mvcc_ops m [put (GenKey node) (fmt_uint (add64 g 1))]).1 in
  bump_rel (m, γ) (m2, Some i) ∧ bump_inv (m2, Some i).
Proof.
  intros [Hwf Hwin] Hc m2.
  assert (γ = None) as ->.
  { destruct γ as [j|]; [|done]. destruct (Hwin j eq_refl) as (e & He & Hv & _). exfalso.
    simpl in He. destruct Hc as [(e' & He' & Hv')|Hn]; [|congruence].
    assert (fmt_uint g = fmt_uint (add64 g 1)) as Hf by congruence.
    apply fmt_uint_inj in Hf; [|unfold is_u64 in Hg; lia|apply add64_nonneg].
    by destruct add64_succ_ne. }
  assert (bump_inv (m2, Some i)) as Hi.
  { split; [by apply mvcc_ops_wf|]. intros j _. simpl.
    unfold put_kv. rewrite lookup_insert_eq. eexists. repeat split. }
  split; [|done]. by split.
Qed.

Lemma wp_bump i st σ :
  bump_inv σ →
  wp etcd_ok bump_rel bump_rel (BumpGeneration st node g)
    (λ r σ', ∀ v, r = Ok v → v = add64 g 1 ∧ σ'.2 = Some i) σ.
Proof.
  intros Hinv. unfold BumpGeneration.
  set (Q := λ (r : result Z) (σ' : mvcc * option nat), ∀ v, r = Ok v → v = add64 g 1 ∧ σ'.2 = Some i).
  assert (∀ e σ1, wp etcd_ok bump_rel bump_rel (Ret (Err e)) Q σ1) as Herr by by intros e σ1 σ2 _ v.
  assert (∀ ok σ1, (ok = true → σ1.2 = Some i) →
    wp etcd_ok bump_rel bump_rel
      (if negb ok then _ ⇐ GetGeneration st node; Ret (Err EOther) else Ret (Ok (add64 g 1))) Q σ1) as Hend.
  { intros [] σ1 Hi; simpl.
    - intros σ2 H2 v [= <-]. split; [done|]. by apply H2, Hi.
    - wpb. wpr wp_any_GetGeneration. intros a σ2 _ σ3 _ v. done. }
  wpb. wpr wp_txnRaw.
  - intros σ1 _. apply Herr.
  - intros σ1 H1. cbn [negb andb]. destruct (g =? 0) eqn:E0.
    + wpb. wpr wp_txnRaw.
      * intros σ2 _. apply Herr.
      * intros σ2 _. by apply Hend.
      * intros [m2 γ2] H2 Hf. assert (bump_inv (m2, γ2)) as Hi2 by by apply H2, H1.
        destruct (bump_commit i m2 γ2 Hi2) as [HG Hi3].
        { right. simpl in Hf. rewrite andb_true_r in Hf. by apply eval_key_absent in Hf; [|apply Hi2]. }
        exists (Some i). split; [done|]. intros σ3 H3. split; [|by apply Herr].
        apply Hend. intros _. by apply H3.
    + wpb. intros σ2 H2. by apply Hend.
  - intros [m1 γ1] H1 Hf. assert (bump_inv (m1, γ1)) as Hi1 by by apply H1.
    destruct (bump_commit i m1 γ1 Hi1) as [HG Hi3].
    { left. simpl in Hf. rewrite andb_true_r in Hf. by apply eval_value_is in Hf. }
    exists (Some i). split; [done|]. intros σ3 H3. cbn [negb andb]. split; [|by apply Herr].
    wpb. intros σ4 H4. apply Hend. intros _. by apply H4, H3.
Qed.
End bump.

(** C16. Of any number of controllers bumping one node's generation from the
    same expected value, interleaved in any order, with lost replies and lease
    expiry, at most one is told that it did. *)
Theorem bump_generation_once `{E : Etcd} (stores : list Store) node g c' i j a
  srv (Hg : is_u64 g) (Hwf : mvcc_wf (eview srv)) (Hij : i ≠ j)
  (Hrun : rtc cstep (srv, map (λ st, BumpGeneration st node g) stores) c')
  (Hi : c'.2 !! i = Some (Ret (Ok a))) :
  a = add64 g 1 ∧ ∀ b, c'.2 !! j ≠ Some (Ret (Ok b)).
Proof.
  destruct (cluster_rely_guarantee (λ _, bump_rel node g) (λ _, bump_rel node g)
    (λ i r σ, ∀ v, r = Ok v → v = add64 g 1 ∧ σ.2 = Some i)
    ltac:(done) (λ _, bump_expire node g)
    (srv, map (λ st, BumpGeneration st node g) stores) c' None) as [γ Hok]; [|exact Hrun|].
  - intros k p Hp. simpl in Hp. rewrite list_lookup_fmap in Hp.
    destruct (stores !! k) as [st|]; [|done]. injection Hp as <-.
    apply wp_bump; [done|]. by split.
  - destruct (cluster_done _ _ _ _ _ _ _ Hok Hi a eq_refl) as [-> H1]. split; [done|].
    intros b Hj. destruct (cluster_done _ _ _ _ _ _ _ Hok Hj b eq_refl) as [_ H2].
    simpl in *. congruence.
Qed.

(** Two controllers race to fence "n1"; the first to commit wins. *)
Definition bump_race : ref_srv * list (prog (result Z)) :=
  foldl (@cexec ref_etcd _)
    (demo_srv 0, map (λ st, BumpGeneration st demo_node 0)
       [mkStore (lit "a") false None; mkStore (lit "b") true None])
    [Step 1; Step 0; Step 0; Step 0; Step 1; Step 1].

Lemma bump_generation_once_witness :
  bump_race.2 !! 1%nat = Some (Ret (Ok 1)) ∧ bump_race.2 !! 0%nat ≠ Some (Ret (Ok 1)).
Proof.
  assert (bump_race.2 !! 1%nat = Some (Ret (Ok 1))) as H1 by (vm_compute; reflexivity).
  split; [exact H1|].
  apply (@bump_generation_once ref_etcd
           [mkStore (lit "a") false None; mkStore (lit "b") true None]
           demo_node 0 bump_race 1 0 1 (demo_srv 0)).
  - unfold is_u64; lia.
  - split; [simpl; lia|]. intros k e He. cbn in He.
    apply lookup_singleton_Some in He as [_ <-]. simpl. lia.
  - discriminate.
  - apply cexec_steps.
  - exact H1.
Defined.

(** ** Counter reservations *)

Section counter.
Context (key : bytes) (base C : Z) (N : nat).
Context (Hbase : 0 <= base) (HC : 0 < C) (Hmax : base + C * Z.of_nat N < 2 ^ 64).

(** What each node has reserved so far: disjoint runs below the counter. *)
Definition counter_inv (σ : mvcc * gmap nat (Z * Z)) : Prop :=
  mvcc_wf σ.1 ∧
  (∀ e, mkvs σ.1 !! key = Some e → kv_lease e = 0) ∧
  0 <= counter_value key σ.1 <= base + C * Z.of_nat (size σ.2) ∧
  (∀ i a b, σ.2 !! i = Some (a, b) → b <= counter_value key σ.1) ∧
  (∀ i j a b c d, i ≠ j → σ.2 !! i = Some (a, b) → σ.2 !! j = Some (c, d) → b <= c ∨ d <= a) ∧
  dom σ.2 ⊆ set_seq 0 N.

Definition counter_rel (i : nat) (σ σ' : mvcc * gmap nat (Z * Z)) : Prop :=
  (counter_inv σ → counter_inv σ') ∧ σ.2 ⊆ σ'.2 ∧ (σ.2 !! i = None → σ'.2 !! i = None).
Definition counter_guar (i : nat) (σ σ' : mvcc * gmap nat (Z * Z)) : Prop :=
  (counter_inv σ → counter_inv σ') ∧ σ.2 ⊆ σ'.2 ∧ ∀ j, j ≠ i → σ'.2 !! j = σ.2 !! j.

#[export] Instance counter_rel_preorder i : PreOrder (counter_rel i).
Proof.
  split; [by split|]. intros σ1 σ2 σ3 (? & ? & ?) (? & ? & ?).
  split; [auto|]. split; [by trans σ2.2|auto].
Qed.

#[export] Instance counter_guar_refl i : Reflexive (counter_guar i).
Proof. by split. Qed.

Lemma counter_expire i l m γ : counter_rel i (m, γ) (mvcc_expire l m, γ).
Proof.
  split; [|done]. intros (Hw & Hl & Hv & Hb & Hd & Hdom).
  assert (mkvs (mvcc_expire l m) !! key = mkvs m !! key) as Hk.
  { destruct (mkvs m !! key) as [e|] eqn:He; [by apply mvcc_expire_unleased; [|apply Hl]|].
    destruct (mkvs (mvcc_expire l m) !! key) as [e|] eqn:He'; [|done].
    apply mvcc_expire_lookup in He' as [? _]. congruence. }
  unfold counter_inv, counter_value, stored in *. cbn [fst snd] in *. rewrite Hk.
  split; [by apply mvcc_expire_wf|]. done.
Qed.

Context (i : nat) (Hi : (i < N)%nat) (floor count : Z).
Context (Hfloor : 0 <= floor <= base) (Hcount : 0 < count <= C).

(** A committed reservation extends the log by one run past all others. *)
Lemma counter_commit m γ :
  let r := if counter_value key m <? floor then floor else counter_value key m in
  let m2 := (mvcc_ops m [put key (EncodeUint64 (add64 r count))]).1 in
  counter_inv (m, γ) → γ !! i = None →
  counter_guar i (m, γ) (m2, <[i := (r, r + count)]> γ) ∧
  counter_inv (m2, <[i := (r, r + count)]> γ).
Proof.
  intros r m2 Hinv Hn. pose proof Hinv as (Hw & Hl & Hv & Hb & Hd & Hdom). cbn [fst snd] in *.
  assert (counter_value key m <= r ∧ r <= base + C * Z.of_nat (size γ)) as [Hr1 Hr2].
  { unfold r. case_if; zbool; lia. }
  assert (size γ < N)%nat as Hsz.
  { assert (size (dom γ ∪ {[i]}) <= N)%nat as Hs.
    { rewrite <- (size_set_seq (C := gset nat) 0 N). apply subseteq_size.
      apply union_least; [done|]. intros x ->%elem_of_singleton. apply elem_of_set_seq. lia. }
    rewrite size_union, size_singleton, size_dom in Hs; [lia|].
    apply disjoint_singleton_r. by apply not_elem_of_dom. }
  assert (r + count <= base + C * (Z.of_nat (size γ) + 1)) as Hr3 by lia.
  assert (r + count < 2 ^ 64) as Hr4 by nia.
  assert (counter_value key m2 = r + count) as Hcv.
  { unfold counter_value, m2, put. rewrite stored_put by done.
    rewrite add64_small by lia. apply DecodeUint64_EncodeUint64. unfold is_u64; lia. }
  assert (counter_inv (m2, <[i := (r, r + count)]> γ)) as Hi2.
  { split; [by apply mvcc_ops_wf|]. cbn [fst snd]. split.
    { intros e. simpl. unfold put_kv. rewrite lookup_insert_eq. by intros [= <-]. }
    rewrite Hcv, map_size_insert_None by done.
    split; [lia|]. split.
    { intros j a b [[-> [= <- <-]]|[_ Hj]]%lookup_insert_Some; [lia|].
      specialize (Hb _ _ _ Hj). lia. }
    split.
    { intros j k a b c d Hjk Hj Hk.
      apply lookup_insert_Some in Hj as [[-> [= <- <-]]|[_ Hj]];
        apply lookup_insert_Some in Hk as [[-> [= <- <-]]|[_ Hk]]; [done| | |by eapply Hd].
      - specialize (Hb _ _ _ Hk). lia.
      - specialize (Hb _ _ _ Hj). lia. }
    rewrite dom_insert_L. apply union_least; [|done].
    intros x ->%elem_of_singleton. apply elem_of_set_seq. lia. }
  split; [|done]. split; [done|]. split; [by apply insert_subseteq|].
  intros j Hj. cbn [snd]. by rewrite lookup_insert_ne.
Qed.

Lemma wp_reserve st fuel attempt σ :
  counter_inv σ → σ.2 !! i = None →
  wp etcd_ok (counter_rel i) (counter_guar i) (reserve_loop st key floor count fuel attempt)
    (λ r σ', ∀ v, r = Ok v → σ'.2 !! i = Some (v, v + count)) σ.
Proof.
  intros Hinv Hn. wpr wp_reserve_loop; [intros σ1 H1; by apply H1|by intros e σ1 _ v|].
  intros [m1 γ1] H1 r m2. destruct (counter_commit m1 γ1) as [HG _]; [by apply H1|by apply H1|].
  eexists. split; [exact HG|]. intros σ3 H3. split; [|done].
  intros v [= <-]. eapply lookup_weaken; [|apply H3]. apply lookup_insert_eq.
Qed.
End counter.

(** C17. Concurrent reservations from one counter never overlap: whichever way
    the nodes' requests interleave, and whatever replies are lost, two nodes
    that are each told they reserved a run hold disjoint runs, as long as the
    counter cannot reach 2^64. *)
Theorem reservations_disjoint `{E : Etcd} (key : bytes) (clients : list (Store * Z * Z)) base C srv c' i j
  si fi ni sj fj nj a b
  (Hclients : Forall (λ x, 0 <= x.1.2 <= base ∧ 0 < x.2 <= C) clients)
  (Hwf : mvcc_wf (eview srv))
  (Hlease : ∀ e, mkvs (eview srv) !! key = Some e → kv_lease e = 0)
  (Hstart : 0 <= counter_value key (eview srv) <= base)
  (Hmax : base + C * Z.of_nat (length clients) < 2 ^ 64)
  (Hrun : rtc cstep (srv, map (λ x, ReserveCounter x.1.1 key x.1.2 x.2) clients) c')
  (Hij : i ≠ j)
  (Hci : clients !! i = Some (si, fi, ni)) (Hcj : clients !! j = Some (sj, fj, nj))
  (Hi : c'.2 !! i = Some (Ret (Ok a))) (Hj : c'.2 !! j = Some (Ret (Ok b))) :
  a + ni <= b ∨ b + nj <= a.
Proof.
  set (N := length clients).
  assert (0 < C) as HC.
  { destruct (Forall_lookup_1 _ _ _ _ Hclients Hci) as [_ [? ?]]. simpl in *. lia. }
  destruct (cluster_rely_guarantee (counter_rel key base C N) (counter_guar key base C N)
    (λ i r σ, counter_inv key base C N σ ∧
       ∀ x, clients !! i = Some x → ∀ v, r = Ok v → σ.2 !! i = Some (v, v + x.2))
    ltac:(intros ? ? ? ? ? (? & ? & Hx); split; [done|]; split; [done|]; intros; rewrite Hx; [done|congruence])
    (counter_expire key base C N)
    (srv, map (λ x, ReserveCounter x.1.1 key x.1.2 x.2) clients) c' ∅) as [γ Hok]; [|exact Hrun|].
  - intros k p Hp. simpl in Hp. rewrite list_lookup_fmap in Hp.
    destruct (clients !! k) as [[[st fl] cnt]|] eqn:Ek; [|done]. injection Hp as <-.
    destruct (Forall_lookup_1 _ _ _ _ Hclients Ek) as [Hf Hc]. simpl in Hf, Hc.
    assert (counter_inv key base C N (eview srv, ∅)) as Hinv.
    { split; [done|]. split; [done|]. cbn [fst snd]. rewrite map_size_empty.
      split; [lia|]. split; [by intros ?????|]. split; [by intros ????????|]. set_solver. }
    assert (∀ p0 σ0 (Q0 : _ → _ → Prop), counter_inv key base C N σ0 →
      wp etcd_ok (counter_rel key base C N k) (counter_guar key base C N k) p0 Q0 σ0 →
      wp etcd_ok (counter_rel key base C N k) (counter_guar key base C N k) p0
        (λ (r : result Z) σ, counter_inv key base C N σ ∧ Q0 r σ) σ0) as Hfr.
    { clear. intros p0. induction p0 as [r|q kk IH]; simpl; intros σ0 Q0 Hi Hw.
      - intros σ1 H1. split; [by apply H1|by apply Hw].
      - intros σ1 m2 rr H1 HX. destruct (Hw _ _ _ H1 HX) as (g2 & HG & Hk).
        exists g2. split; [done|]. apply IH; [by apply HG, H1|done]. }
    apply Hfr; [done|]. unfold ReserveCounter.
    rewrite (proj2 (Z.eqb_neq cnt 0)) by lia.
    eapply wp_mono; [|apply (wp_reserve key base C N); try done; try lia; eauto using lookup_lt_Some].
    simpl. intros r σ Hv x [= <-]. simpl. exact Hv.
  - destruct (cluster_done _ _ _ _ _ _ _ Hok Hi) as [(_ & _ & _ & _ & Hd & _) H1].
    destruct (cluster_done _ _ _ _ _ _ _ Hok Hj) as [_ H2].
    by apply (Hd i j a (a + ni) b (b + nj) Hij); [apply (H1 _ Hci)|apply (H2 _ Hcj)].
Qed.

(** Two nodes reserve blocks of inode numbers from a counter at 7; the requests
    interleave so that the first loses a race and retries. *)
Definition reserve_srv : ref_srv :=
  RefSrv (MVCC 5 {[ KeyInodeAllocCounter := KV (EncodeUint64 7) 2 5 0 ]} ∅) 100.
Definition reserve_clients : list (Store * Z * Z) :=
  [(mkStore (lit "a") false None, FirstUsableIno, 1024);
   (mkStore (lit "b") false None, FirstUsableIno, 1024)].
Definition reserve_race : ref_srv * list (prog (result Z)) :=
  foldl (@cexec ref_etcd _)
    (reserve_srv,
     map (λ x, ReserveCounter x.1.1 KeyInodeAllocCounter x.1.2 x.2) reserve_clients)
    [Step 0; Step 1; Step 1; Step 0; Step 0; Step 0; Step 0].

Lemma reservations_disjoint_witness :
  reserve_race.2 !! 0%nat = Some (Ret (Ok 1031)) ∧ reserve_race.2 !! 1%nat = Some (Ret (Ok 7)) ∧
  (1031 + 1024 <= 7 ∨ 7 + 1024 <= 1031).
Proof.
  assert (reserve_race.2 !! 0%nat = Some (Ret (Ok 1031))) as H0 by (vm_compute; reflexivity).
  assert (reserve_race.2 !! 1%nat = Some (Ret (Ok 7))) as H1 by (vm_compute; reflexivity).
  split; [exact H0|]. split; [exact H1|].
  apply (@reservations_disjoint ref_etcd KeyInodeAllocCounter reserve_clients 1000 1024 reserve_srv
           reserve_race 0 1 (mkStore (lit "a") false None) 2 1024 (mkStore (lit "b") false None) 2 1024
           1031 7).
  - repeat constructor; simpl; unfold FirstUsableIno; lia.
  - split; [simpl; lia|]. intros k e He. cbn in He.
    apply lookup_singleton_Some in He as [_ <-]. simpl. lia.
  - intros e He. cbn in He. apply lookup_singleton_Some in He as [_ <-]. reflexivity.
  - split; apply Z.leb_le; vm_compute; reflexivity.
  - simpl. lia.
  - apply cexec_steps.
  - discriminate.
  - reflexivity.
  - reflexivity.
  - exact H0.
  - exact H1.
Defined.
