(* ===== verification/Locks.v ===== *)
(** * Inode locks

    Models pkg/metadata/lock.go: a lock is a set of holder keys
    [lock:<ino>/<mode>/<holder>] written under the node's session lease, and
    whether one may be taken is decided by a range comparison inside the
    transaction that takes it.  [LockState] is the part of the Store that
    changes: the session lease and the holder counter.

    Theorems: an exclusive holder is alone under every interleaving of lock
    operations, lost replies and lease expiry; an acquisition is granted
    exactly when no blocking holder exists. *)

From S2P Require Import Prelude Etcd EtcdFacts Schema Store StoreLogic.

Record LockState := mkLockState { session : option Z; lockSeq : Z }.

Definition second : Z := 1000000000.
Definition fallbackSessionTTL : Z := 2 * second.

Definition fmt_int (n : Z) : bytes := if n <? 0 then dash :: fmt_uint (- n) else fmt_uint n.

(** ** Sessions *)

Definition session_seconds (ttl : Z) : Z :=
  let seconds := Z.quot (ttl + second - 1) second in
  if seconds <? 1 then 1 else seconds.

Definition grant_session (ls : LockState) (ttl : Z) : prog (LockState * result Z) :=
  x ⇐ call (QNewSession (session_seconds ttl));
  Ret match x with
      | Some l => (mkLockState (Some l) (lockSeq ls), Ok l)
      | None => (mkLockState None (lockSeq ls), Err EEtcd)
      end.

(** The lease every lock of this node is written under, granted on first use
    and replaced once its session has ended. *)
Definition lockSession (ls : LockState) (ttl : Z) : prog (LockState * result Z) :=
  match session ls with
  | Some l =>
    ended ⇐ call (QSessionDone l);
    if (ended : bool) then grant_session ls ttl else Ret (ls, Ok l)
  | None => grant_session ls ttl
  end.

Definition LockSessionLease (ls : LockState) : prog (option Z) :=
  match session ls with
  | None => Ret None
  | Some l => ended ⇐ call (QSessionDone l); Ret (if (ended : bool) then None else Some l)
  end.

Definition LockHolderLease (holder : bytes) : option Z :=
  match cut dash holder with
  | None => None
  | Some (lease, _) => ParseInt lease
  end.

(** ** Taking a lock *)

Definition valid_mode (mode : bytes) : bool :=
  bool_decide (mode = LockShared) || bool_decide (mode = LockExclusive).

(** The range that must be empty for the acquisition to be allowed. *)
Definition blocked_prefix (ino : Z) (mode : bytes) : bytes :=
  if bool_decide (mode = LockShared) then LockModePrefix ino LockExclusive else LockPrefix ino.

Definition mint_holder (lease seq : Z) : bytes := fmt_int lease ++ dash :: fmt_uint seq.

Definition lock_cmp (ino : Z) (mode : bytes) : cmp := prefix_absent (blocked_prefix ino mode).
Definition lock_op (s : Store) (ino : Z) (mode holder : bytes) (lease : Z) : op :=
  OpPut (LockKey ino mode holder) (nodeID s) lease.

(** The holder token is returned even when the transaction fails: its reply may
    have been lost, and the token names the key that would prove it. *)
Definition AcquireLock (s : Store) (ls : LockState) (ino : Z) (mode : bytes) (ttl : Z)
  : prog (LockState * (bytes * option err)) :=
  if negb (valid_mode mode) then Ret (ls, ([], Some ErrInvalid))
  else
    x ⇐ lockSession ls ttl;
    match x with
    | (ls, Err e) => Ret (ls, ([], Some e))
    | (ls, Ok lease) =>
      let seq := add64 (lockSeq ls) 1 in
      let ls := mkLockState (session ls) seq in
      let holder := mint_holder lease seq in
      ok ⇐ Txn s [lock_cmp ino mode] [lock_op s ino mode holder lease] [];
      Ret match ok with
          | Err e => (ls, (holder, Some e))
          | Ok false => (ls, (holder, Some ErrConflict))
          | Ok true => (ls, (holder, None))
          end
    end.

(** The comparison and the write, for a caller's own transaction. *)
Definition PrepareLock (s : Store) (ls : LockState) (ino : Z) (mode : bytes) (ttl : Z)
  : prog (LockState * result (bytes * cmp * op)) :=
  if negb (valid_mode mode) then Ret (ls, Err ErrInvalid)
  else
    x ⇐ lockSession ls ttl;
    match x with
    | (ls, Err e) => Ret (ls, Err e)
    | (ls, Ok lease) =>
      let seq := add64 (lockSeq ls) 1 in
      let holder := mint_holder lease seq in
      Ret (mkLockState (session ls) seq,
           Ok (holder, lock_cmp ino mode, lock_op s ino mode holder lease))
    end.

(** ** Giving a lock up *)

Record LockRelease := mkRelease { rel_ino : Z; rel_mode : bytes; rel_holder : bytes }.

Definition release_key (r : LockRelease) : bytes := LockKey (rel_ino r) (rel_mode r) (rel_holder r).

Definition ReleaseLocks (s : Store) (batch : list LockRelease) : prog (result (list bool)) :=
  match batch with
  | [] => Ret (Ok [])
  | _ =>
    r ⇐? TxnResponse s [] (map (λ r, OpDelete (release_key r) false) batch) [];
    if negb (succeeded r) then Ret (Err EOther)
    else Ret (Ok (map (λ x, match x with RDel n => 0 <? n | _ => false end) (rresps r)))
  end.

Definition ReleaseLock (s : Store) (ino : Z) (mode holder : bytes) : prog (result bool) :=
  n ⇐? DeleteCounting s (LockKey ino mode holder); Ret (Ok (0 <? n)).

Definition CloseLockSession (ls : LockState) : prog (LockState * result unit) :=
  match session ls with
  | None => Ret (ls, Ok tt)
  | Some l =>
    x ⇐ call (QSessionClose l);
    Ret (mkLockState None (lockSeq ls), match x with Some _ => Ok tt | None => Err EEtcd end)
  end.

(** ** Asking for a lock, and looking at one *)

Definition AnnounceLockWant (s : Store) (ls : LockState) (ino : Z) : prog (LockState * result unit) :=
  x ⇐ lockSession ls fallbackSessionTTL;
  match x with
  | (ls, Err e) => Ret (ls, Err e)
  | (ls, Ok lease) =>
    r ⇐ putRaw (LockWantKey ino (nodeID s)) (nodeID s) lease;
    Ret (ls, match r with Ok _ => Ok tt | Err e => Err e end)
  end.

Definition ClearLockWant (s : Store) (ino : Z) : prog (result unit) :=
  x ⇐ call (QDelete (LockWantKey ino (nodeID s)) false);
  Ret match x with Some _ => Ok tt | None => Err EEtcd end.

Definition LockHeldBy (s : Store) (ino : Z) (mode holder : bytes) : prog (result bool) :=
  v ⇐? Get s (LockKey ino mode holder);
  Ret (Ok match v with Some _ => true | None => false end).

Record LockRecord := mkLockRecord { lr_mode : bytes; lr_holders : list bytes }.

Definition GetLockInfo (s : Store) (ino : Z) : prog (result (option LockRecord)) :=
  kvs ⇐? GetPrefix s (LockPrefix ino);
  Ret (Ok match kvs with
          | [] => None
          | _ =>
            let exclusive :=
              existsb (λ x, match ParseLockKey x.1 ino with
                            | Some mode => bool_decide (mode = LockExclusive)
                            | None => false
                            end) kvs in
            Some (mkLockRecord (if exclusive then LockExclusive else LockShared)
                    (map (λ x, kv_val x.2) kvs))
          end).

Definition IsLocked (s : Store) (ino : Z) : prog (result bool) :=
  kvs ⇐? GetPrefix s (LockPrefix ino);
  Ret (Ok match kvs with [] => false | _ => true end).

(** ** Facts about lock keys *)

Lemma LockKey_prefix ino mode h : LockKey ino mode h = LockPrefix ino ++ mode ++ slash :: h.
Proof. unfold LockKey, LockPrefix. by rewrite <- !app_assoc. Qed.

Lemma LockKey_mode_prefix ino mode h : LockKey ino mode h = LockModePrefix ino mode ++ h.
Proof. unfold LockKey, LockModePrefix. rewrite <- !app_assoc. simpl. by rewrite <- app_assoc. Qed.

Lemma LockPrefix_isolated i j mode h :
  0 <= i → 0 <= j → has_prefix (LockPrefix i) (LockKey j mode h) = true ↔ i = j.
Proof. apply num_prefix_isolated. Qed.

Lemma valid_mode_no_slash mode : valid_mode mode = true → slash ∉ mode.
Proof.
  unfold valid_mode. intros [->%bool_decide_eq_true| ->%bool_decide_eq_true]%orb_true_iff;
    apply (bool_decide_eq_true_1 _); vm_compute; reflexivity.
Qed.

(** A number that starts a key after [i]'s digits is [i]. *)
Lemma fmt_uint_starts i j s t : 0 <= i → fmt_uint i ++ slash :: s = fmt_uint j ++ slash :: t → i = j ∧ s = t.
Proof.
  intros Hi He. destruct (decide (0 <= j)) as [Hj|Hj]; [by apply fmt_uint_sep_inj in He|].
  pose proof (fmt_uint_digit i Hi) as Hd. destruct (fmt_uint i) as [|c l] eqn:Ei; [by destruct (fmt_uint_nonempty i)|].
  assert (fmt_uint j = [48 + j]) as Ej.
  { unfold fmt_uint. rewrite Z.log2_nonpos by lia. cbn [Z.to_nat dec_digits]. case_if; zbool; [done|lia]. }
  rewrite Ej in He. injection He as Hc _. inversion Hd as [|? ? Hdc _]. unfold is_digit in Hdc. lia.
Qed.

Lemma LockPrefix_of i j mode h : 0 <= i → has_prefix (LockPrefix i) (LockKey j mode h) = true → i = j.
Proof.
  intros Hi [t Ht]%has_prefix_true. unfold LockKey, LockPrefix in Ht. rewrite <- !app_assoc in Ht.
  apply app_inv_head in Ht. by apply eq_sym, fmt_uint_starts in Ht as [-> _].
Qed.

Lemma LockKey_inj i j m1 m2 h1 h2 :
  0 <= i → valid_mode m1 = true → valid_mode m2 = true →
  LockKey i m1 h1 = LockKey j m2 h2 → i = j ∧ m1 = m2 ∧ h1 = h2.
Proof.
  intros Hi Hm1 Hm2 [-> He]%app_inv_head%fmt_uint_starts; try done.
  pose proof (cut_app slash m1 h1 (valid_mode_no_slash _ Hm1)) as E1.
  rewrite He, cut_app in E1 by by apply valid_mode_no_slash. by simplify_eq.
Qed.

Definition is_lock_key (k : bytes) : bool := has_prefix PrefixLock k.

Lemma LockKey_is_lock_key ino mode h : is_lock_key (LockKey ino mode h) = true.
Proof. apply has_prefix_app. Qed.

(** ** The lock invariant: an exclusive holder is alone *)

Definition lock_exclusion (m : mvcc) : Prop :=
  ∀ ino h k e e', 0 <= ino →
    mkvs m !! LockKey ino LockExclusive h = Some e →
    mkvs m !! k = Some e' → has_prefix (LockPrefix ino) k = true →
    k = LockKey ino LockExclusive h.

Definition op_locks (o : op) : list bytes := filter (λ k, is_lock_key k = true) (op_puts o).

(** What the daemon may put on the wire as far as locks are concerned: a lock
    key is written only inside a transaction that requires its blocking range
    to be empty, one per transaction. *)
Definition lock_disciplined (q : req) : Prop :=
  match q with
  | QTxn ifs ts es =>
    es = [] ∧ (length (concat (map op_locks ts)) <= 1)%nat ∧
    ∀ k, k ∈ concat (map op_locks ts) →
      ∃ ino mode h, valid_mode mode = true ∧ k = LockKey ino mode h ∧ lock_cmp ino mode ∈ ifs
  | QPut k _ _ => is_lock_key k = false
  | _ => True
  end.

Lemma op_locks_elem k v l os :
  OpPut k v l ∈ os → is_lock_key k = true → k ∈ concat (map op_locks os).
Proof.
  intros Hin Hk. apply list_elem_of_In, in_concat. exists (op_locks (OpPut k v l)). split.
  - apply in_map. by apply list_elem_of_In.
  - unfold op_locks. apply list_elem_of_In, list_elem_of_filter. split; [done|]. left.
Qed.

Lemma lock_txn_preserved m ifs ts :
  mvcc_wf m → lock_exclusion m → lock_disciplined (QTxn ifs ts []) →
  forallb (eval_cmp (mkvs m)) ifs = true → lock_exclusion (mvcc_ops m ts).1.
Proof.
  intros Hwf Hinv (_ & Hone & Hput) Hifs ino h k e e' Hino He He' Hpre.
  rewrite mvcc_ops_kvs in He, He'.
  assert (∀ ino mode, lock_cmp ino mode ∈ ifs → ∀ k' e0, mkvs m !! k' = Some e0 →
    has_prefix (blocked_prefix ino mode) k' = false) as Hcmp.
  { intros i md Hin. apply eval_prefix_absent; [done|].
    rewrite forallb_forall in Hifs. apply Hifs. by apply list_elem_of_In. }
  apply apply_ops_lookup in He as [He|(_ & Hin & _)];
    apply apply_ops_lookup in He' as [He'|(_ & Hin' & _)].
  - by eapply Hinv.
  - apply op_locks_elem in Hin' as Hl.
    2:{ apply has_prefix_true in Hpre as [t ->]. unfold is_lock_key, LockPrefix.
        rewrite <- app_assoc. apply has_prefix_app. }
    destruct (Hput _ Hl) as (i & md & h' & Hmd & -> & Hc).
    apply LockPrefix_of in Hpre as <-; [|done].
    specialize (Hcmp _ _ Hc _ _ He). unfold blocked_prefix in Hcmp. case_bool_decide.
    + by rewrite LockKey_mode_prefix, has_prefix_app in Hcmp.
    + by rewrite LockKey_prefix, has_prefix_app in Hcmp.
  - apply op_locks_elem in Hin as Hl; [|apply LockKey_is_lock_key].
    destruct (Hput _ Hl) as (i & md & h' & Hmd & Heq & Hc).
    apply LockKey_inj in Heq as (<- & <- & <-); [|done..].
    specialize (Hcmp _ _ Hc _ _ He'). unfold blocked_prefix in Hcmp.
    rewrite bool_decide_eq_false_2 in Hcmp by done. congruence.
  - apply op_locks_elem in Hin as Hl; [|apply LockKey_is_lock_key].
    apply op_locks_elem in Hin' as Hl'.
    2:{ apply has_prefix_true in Hpre as [t ->]. unfold is_lock_key, LockPrefix.
        rewrite <- app_assoc. apply has_prefix_app. }
    destruct (concat (map op_locks ts)) as [|x [|y l]]; simpl in Hone; [by inversion Hl| |lia].
    apply list_elem_of_singleton in Hl, Hl'. congruence.
Qed.

Lemma lock_exclusion_mono m m' :
  (∀ k e, is_lock_key k = true → mkvs m' !! k = Some e → ∃ e0, mkvs m !! k = Some e0) →
  lock_exclusion m → lock_exclusion m'.
Proof.
  intros Hsub Hinv ino h k e e' Hino He He' Hpre.
  apply Hsub in He as [e0 He]; [|apply LockKey_is_lock_key].
  apply Hsub in He' as [e1 He']; [by eapply Hinv|].
  apply has_prefix_true in Hpre as [t ->]. unfold is_lock_key, LockPrefix.
  rewrite <- app_assoc. apply has_prefix_app.
Qed.

Lemma lock_exclusion_preserved q m m' a :
  lock_disciplined q → mvcc_wf m ∧ lock_exclusion m → etcd_ok q m m' a →
  mvcc_wf m' ∧ lock_exclusion m'.
Proof.
  intros Hq [Hwf Hinv] Hok. split; [by eapply etcd_ok_wf|].
  apply etcd_ok_store in Hok.
  destruct q as [| |ifs ts es|k v l|k p| |t|l|l| | |]; lazy beta iota in Hok; subst; try done.
  - destruct Hok as [->| ->]; [done|]. pose proof Hq as [-> _].
    destruct (forallb (eval_cmp (mkvs m)) ifs) eqn:Hf.
    + rewrite mvcc_txn_committed by done. by eapply lock_txn_preserved.
    + by rewrite mvcc_txn_rejected.
  - destruct Hok as [->| ->]; [done|]. eapply lock_exclusion_mono, Hinv.
    intros k' e Hk' He. rewrite mvcc_ops_kvs in He.
    apply apply_ops_lookup in He as [?|(_ & Hin & _)]; [eauto|].
    apply list_elem_of_singleton in Hin. simplify_eq. simpl in Hq. congruence.
  - destruct Hok as [->| ->]; [done|]. eapply lock_exclusion_mono, Hinv.
    intros k' e Hk' He. rewrite mvcc_ops_kvs in He.
    apply apply_ops_lookup in He as [?|(_ & Hin & _)]; [eauto|].
    by apply list_elem_of_singleton in Hin.
  - destruct Hok as (Hk & _ & _). unfold lock_exclusion. by rewrite Hk.
  - destruct Hok as [->| ->]; [done|]. eapply lock_exclusion_mono, Hinv.
    intros k' e _ [? _]%mvcc_expire_lookup. eauto.
Qed.

(** ** Every operation follows the discipline *)

Lemma issues_lockSession (P : req → Prop) ls ttl :
  (∀ t, P (QNewSession t)) → (∀ l, P (QSessionDone l)) → issues P (lockSession ls ttl).
Proof.
  intros H1 H2. unfold lockSession, grant_session.
  destruct (session ls); simpl; auto. split; [done|]. intros []; simpl; auto.
Qed.

Lemma lock_op_disciplined s ino mode h l pre :
  valid_mode mode = true →
  lock_disciplined (QTxn (pre ++ [lock_cmp ino mode]) [lock_op s ino mode h l] []).
Proof.
  intros Hm. split; [done|].
  assert (concat (map op_locks [lock_op s ino mode h l]) = [LockKey ino mode h]) as ->.
  { unfold op_locks, lock_op. cbn [map concat op_puts].
    by rewrite filter_cons_True by apply LockKey_is_lock_key. }
  split; [simpl; lia|]. intros k ->%list_elem_of_singleton. exists ino, mode, h.
  repeat split; try done. apply elem_of_app. right. left.
Qed.

Lemma AcquireLock_disciplined s ls ino mode ttl :
  issues lock_disciplined (AcquireLock s ls ino mode ttl).
Proof.
  unfold AcquireLock. destruct (valid_mode mode) eqn:Hm; [|done]. simpl.
  apply issues_bind; [by apply issues_lockSession|]. intros [ls' [lease|e]]; [|done].
  apply issues_bind; [|by intros [[]|]].
  apply issues_Txn; [done| |]; intros.
  - by apply (lock_op_disciplined _ _ _ _ _ []).
  - by apply (lock_op_disciplined _ _ _ _ _ [WithGenerationGuard (nodeID s) g]).
Qed.

Lemma no_put_disciplined ifs ts :
  concat (map op_locks ts) = [] → lock_disciplined (QTxn ifs ts []).
Proof. intros E. split; [done|]. rewrite E. split; [simpl; lia|]. intros k Hk. by inversion Hk. Qed.

Lemma ReleaseLocks_disciplined s batch : issues lock_disciplined (ReleaseLocks s batch).
Proof.
  unfold ReleaseLocks. destruct batch as [|r batch]; [done|].
  apply issues_ebind; [|intros a; by case_if].
  assert (∀ l, concat (map op_locks (map (λ r, OpDelete (release_key r) false) l)) = []) as Hn.
  { induction l; simpl; [done|]. exact IHl. }
  apply issues_TxnResponse; [done| |]; intros; apply no_put_disciplined, Hn.
Qed.

Lemma ReleaseLock_disciplined s ino mode h : issues lock_disciplined (ReleaseLock s ino mode h).
Proof.
  apply issues_ebind; [|done]. unfold DeleteCounting, delete_with.
  destruct (guard s) as [[g|]|]; simpl; try done.
  repeat split; try (simpl; lia); [by intros k Hk; inversion Hk|].
  intros [[[] ? ?]|]; simpl; done.
Qed.

Lemma CloseLockSession_disciplined ls : issues lock_disciplined (CloseLockSession ls).
Proof. unfold CloseLockSession. by destruct (session ls). Qed.

Lemma LockWantKey_not_lock_key ino n : is_lock_key (LockWantKey ino n) = false.
Proof. reflexivity. Qed.

Lemma AnnounceLockWant_disciplined s ls ino : issues lock_disciplined (AnnounceLockWant s ls ino).
Proof.
  apply issues_bind; [by apply issues_lockSession|]. intros [ls' [l|e]]; [|done]. simpl.
  split; [apply LockWantKey_not_lock_key|done].
Qed.

(** ** A node's lock traffic: any sequence of lock operations *)

Inductive lock_cmd :=
| LAcquire (ino : Z) (mode : bytes) (ttl : Z)
| LRelease (ino : Z) (mode holder : bytes)
| LReleaseAll (batch : list LockRelease)
| LWant (ino : Z)
| LClearWant (ino : Z)
| LClose.

Fixpoint lock_script (s : Store) (ls : LockState) (cmds : list lock_cmd) : prog unit :=
  match cmds with
  | [] => Ret tt
  | LAcquire ino mode ttl :: cs => x ⇐ AcquireLock s ls ino mode ttl; lock_script s x.1 cs
  | LRelease ino mode h :: cs => _ ⇐ ReleaseLock s ino mode h; lock_script s ls cs
  | LReleaseAll b :: cs => _ ⇐ ReleaseLocks s b; lock_script s ls cs
  | LWant ino :: cs => x ⇐ AnnounceLockWant s ls ino; lock_script s x.1 cs
  | LClearWant ino :: cs => _ ⇐ ClearLockWant s ino; lock_script s ls cs
  | LClose :: cs => x ⇐ CloseLockSession ls; lock_script s x.1 cs
  end.

Lemma lock_script_disciplined s ls cmds : issues lock_disciplined (lock_script s ls cmds).
Proof.
  revert ls. induction cmds as [|c cs IH]; intros ls; [done|].
  destruct c; cbn [lock_script]; apply issues_bind; intros; try apply IH.
  - apply AcquireLock_disciplined.
  - apply ReleaseLock_disciplined.
  - apply ReleaseLocks_disciplined.
  - apply AnnounceLockWant_disciplined.
  - by simpl.
  - apply CloseLockSession_disciplined.
Qed.

(** Mutual exclusion.  Nodes run arbitrary sequences of lock operations,
    interleaved request by request, with lost replies and leases expiring at
    any moment: in every reachable state an exclusive holder key of an inode is
    the only lock key of that inode. *)
Theorem locks_mutually_exclusive `{E : Etcd} (nodes : list (Store * LockState * list lock_cmd)) srv c'
  (Hwf : mvcc_wf (eview srv)) (Hinit : lock_exclusion (eview srv))
  (Hrun : rtc cstep (srv, map (λ x, lock_script x.1.1 x.1.2 x.2) nodes) c') :
  lock_exclusion (eview c'.1).
Proof.
  eapply (cluster_invariant lock_disciplined (λ m, mvcc_wf m ∧ lock_exclusion m)) in Hrun
    as [_ [_ H]]; [done|..].
  - apply lock_exclusion_preserved.
  - intros l m [Hw Hi]. split; [by apply mvcc_expire_wf|].
    eapply lock_exclusion_mono, Hi. intros k e _ [? _]%mvcc_expire_lookup. eauto.
  - simpl. apply Forall_map, Forall_forall. intros x _. apply lock_script_disciplined.
  - done.
Qed.

(** Two nodes race for inode 7; the loser's session then expires. *)
Definition lock_race_nodes : list (Store * LockState * list lock_cmd) :=
  [(mkStore (lit "a") false None, mkLockState None 0, [LAcquire 7 LockExclusive second; LWant 9]);
   (mkStore (lit "b") false None, mkLockState None 0, [LAcquire 7 LockShared second; LClose])].
Definition lock_race : ref_srv * list (prog unit) :=
  foldl (@cexec ref_etcd _)
    (RefSrv empty_store 0, map (λ x, lock_script x.1.1 x.1.2 x.2) lock_race_nodes)
    [Step 0; Step 1; Step 1; Step 0; Step 1; Expire 2; Step 0; Step 0].

Lemma locks_mutually_exclusive_witness : lock_exclusion (@eview ref_etcd lock_race.1).
Proof.
  apply (@locks_mutually_exclusive ref_etcd lock_race_nodes (RefSrv empty_store 0) lock_race).
  - exact empty_store_wf.
  - intros ino h k e e' _ He. vm_compute in He. discriminate He.
  - apply cexec_steps.
Defined.

(** ** An acquisition is granted exactly when nothing blocks it *)

Lemma wpx_lockSession ls ttl m (Q : LockState * result Z → mvcc * unit → Prop) :
  (∀ l, session ls = Some l → l ∈ mleases m ∧ 0 < l) →
  (∀ ls' l m', lockSeq ls' = lockSeq ls → mkvs m' = mkvs m → mrev m' = mrev m →
     l ∈ mleases m' → 0 < l → Q (ls', Ok l) (m', tt)) →
  wpx (lockSession ls ttl) Q m.
Proof.
  intros Hl HQ.
  assert (wpx (grant_session ls ttl) Q m) as Hnew.
  { intros σ1 m2 a <- (l & Hl0 & _ & _ & -> & ->). exists tt. split; [done|].
    intros σ3 <-. apply HQ; simpl; try done. set_solver. }
  unfold lockSession. destruct (session ls) as [l|] eqn:Es; [|done].
  intros σ1 m2 a <- ->. exists tt. split; [done|]. destruct a; [done|].
  intros σ3 <-. destruct (Hl l eq_refl). by apply HQ.
Qed.

Lemma ops_distinct_single k v l : ops_distinct [OpPut k v l] = true.
Proof.
  unfold ops_distinct. cbn [map concat op_puts app].
  by rewrite bool_decide_eq_true_2 by apply NoDup_singleton.
Qed.

(** Nothing blocks [mode] on [ino]. *)
Definition lock_free_for (ino : Z) (mode : bytes) (m : mvcc) : Prop :=
  ∀ k e, mkvs m !! k = Some e → has_prefix (blocked_prefix ino mode) k = false.

(** [AcquireLock] grants exactly when no blocking holder exists: an unfenced
    node talking to a server that answers gets the lock if the blocking range is
    empty, and then its key is stored under its live session lease; otherwise it
    is told [ErrConflict] and no key changes. *)
Theorem acquire_lock_iff_free `{E : Etcd, !ReliableEtcd E} s ls ino mode ttl srv
  (Hmode : valid_mode mode = true) (Hwf : mvcc_wf (eview srv))
  (Hguard : guard_current s (eview srv))
  (Hsess : ∀ l, session ls = Some l → l ∈ mleases (eview srv) ∧ 0 < l) :
  let '(srv', (_, (holder, e))) := run (AcquireLock s ls ino mode ttl) srv in
  (lock_free_for ino mode (eview srv) → e = None ∧
     ∃ kv, mkvs (eview srv') !! LockKey ino mode holder = Some kv ∧
           kv_val kv = nodeID s ∧ kv_lease kv ∈ mleases (eview srv')) ∧
  (¬ lock_free_for ino mode (eview srv) → e = Some ErrConflict ∧
     mkvs (eview srv') = mkvs (eview srv)).
Proof.
  pose proof (wp_run_reliable (AcquireLock s ls ino mode ttl) (λ r m',
    (lock_free_for ino mode (eview srv) → r.2.2 = None ∧
       ∃ kv, mkvs m' !! LockKey ino mode r.2.1 = Some kv ∧
             kv_val kv = nodeID s ∧ kv_lease kv ∈ mleases m') ∧
    (¬ lock_free_for ino mode (eview srv) → r.2.2 = Some ErrConflict ∧
       mkvs m' = mkvs (eview srv))) srv) as Hrun.
  destruct (run (AcquireLock s ls ino mode ttl) srv) as [srv' [ls' [holder e]]].
  apply Hrun; clear Hrun. unfold AcquireLock. rewrite Hmode. cbn [negb].
  apply wpx_bind, wpx_lockSession; [done|]. intros ls1 l m1 Hseq Hk Hr Hl Hl0. cbn [fst].
  apply wpx_bind, wpx_Txn.
  - unfold guard_current in *. by rewrite Hk.
  - unfold txn_valid. unfold lock_op at 1. rewrite ops_distinct_single.
    assert (forallb (op_lease_live m1) (txn_branch m1 (wire_cmps s [lock_cmp ino mode])
      [lock_op s ino mode (mint_holder l (add64 (lockSeq ls1) 1)) l] []).2 = true) as ->.
    { unfold txn_branch. case_if; [|done]. simpl. rewrite (bool_decide_eq_true_2 _ Hl).
      by rewrite orb_true_r. }
    unfold wire_cmps. by destruct (guard s) as [[g|]|].
  - intros Hf. apply wpx_ret. simpl in Hf. rewrite andb_true_r in Hf.
    split; [|intros Hn; destruct Hn; intros k e0; rewrite <- Hk; revert k e0;
             apply eval_prefix_absent; [unfold mvcc_wf; by rewrite Hk, Hr|done]].
    intros _. split; [done|]. cbn [snd fst]. rewrite mvcc_ops_kvs, mvcc_ops_leases, apply_ops_cons.
    cbn [apply_op lock_op fst apply_ops]. unfold put_kv. rewrite lookup_insert_eq.
    eexists. split; [done|]. split; [done|]. exact Hl.
  - intros Hf. apply wpx_ret. simpl in Hf. rewrite andb_true_r in Hf.
    split; [|done]. intros Hfree. exfalso. apply not_true_iff_false in Hf. apply Hf.
    apply eval_prefix_absent; [unfold mvcc_wf; by rewrite Hk, Hr|]. by rewrite Hk.
Qed.

(** Node "b" asks for a shared lock while "a" holds the exclusive one. *)
Definition held_srv : ref_srv :=
  RefSrv (MVCC 5 {[ LockKey 7 LockExclusive (lit "1-1") := KV (lit "a") 5 5 1 ]} {[1]}) 0.

Lemma acquire_lock_iff_free_witness :
  (@run ref_etcd _ (AcquireLock (mkStore (lit "b") false None) (mkLockState None 0) 7 LockShared second)
     held_srv).2.2.2 = Some ErrConflict.
Proof.
  pose proof (@acquire_lock_iff_free ref_etcd _ (mkStore (lit "b") false None) (mkLockState None 0) 7
    LockShared second held_srv) as H.
  assert (¬ lock_free_for 7 LockShared (rs_store held_srv)) as Hn.
  { intros Hf. specialize (Hf (LockKey 7 LockExclusive (lit "1-1")) (KV (lit "a") 5 5 1)).
    assert (has_prefix (blocked_prefix 7 LockShared) (LockKey 7 LockExclusive (lit "1-1")) = true)
      by (vm_compute; reflexivity).
    rewrite Hf in H0; [discriminate|vm_compute; reflexivity]. }
  destruct (@run ref_etcd _ _ held_srv) as [srv' [ls' [holder e]]].
  apply H; [reflexivity| |exact I|intros l Hl; discriminate Hl|exact Hn].
  split; [simpl; lia|]. intros k e0 He. cbn in He.
  apply lookup_singleton_Some in He as [_ <-]. simpl. lia.
Defined.
