(* ===== verification/Extents.v ===== *)
(** * Extents: the map from file bytes to device bytes

    Models pkg/metadata/extent.go: the extent record and its encoding, the
    resolution order, splitting an extent around a write, the blocks a split
    gives back, and the data/hole queries.  [End] and the offsets wrap at 64
    bits as in the source; the theorems ask for extents that do not. *)

From S2P Require Import Prelude Etcd EtcdFacts Schema Store.

Record Extent := mkExtent {
  Key : bytes; Chunk : Z; ModRevision : Z; Seq : Z; Node : bytes;
  LogOff : Z; DiskOff : Z; Length : Z; Gen : Z
}.
#[global] Instance Extent_eq_dec : EqDecision Extent.
Proof. solve_decision. Defined.

(** ** Keys and encoding *)

Definition ExtentKey (ino chunk : Z) : bytes :=
  PrefixExtent ++ fmt_uint ino ++ slash :: fmt_uint chunk.
Definition ExtentPrefix (ino : Z) : bytes := PrefixExtent ++ fmt_uint ino ++ [slash].

Definition ParseExtentKey (key : bytes) : option (Z * Z) :=
  match cut_prefix PrefixExtent key with
  | None => None
  | Some rest =>
    match cut slash rest with
    | None => None
    | Some (inoStr, chunkStr) =>
      match ParseUint inoStr with
      | None => None
      | Some ino => match ParseUint chunkStr with
                    | None => None
                    | Some chunk => Some (ino, chunk)
                    end
      end
    end
  end.

Definition InoFromExtentKey (key : bytes) : Z :=
  match ParseExtentKey key with Some (ino, _) => ino | None => 0 end.

Definition extent_ino (e : Extent) : Z := InoFromExtentKey (Key e).

Definition Encode (e : Extent) : bytes :=
  fmt_uint (LogOff e) ++ comma :: fmt_uint (DiskOff e) ++ comma :: fmt_uint (Length e) ++
  comma :: fmt_uint (Gen e) ++ comma :: fmt_uint (Seq e) ++ comma :: Node e.

Definition DecodeExtent (key value : bytes) : option Extent :=
  match split_n comma 6 value with
  | [p0; p1; p2; p3; p4; node] =>
    match ParseUint p0, ParseUint p1, ParseUint p2, ParseUint p3, ParseUint p4 with
    | Some f0, Some f1, Some f2, Some f3, Some f4 =>
      let chunk := match ParseExtentKey key with Some (_, c) => c | None => 0 end in
      Some (mkExtent key chunk 0 f4 node f0 f1 f2 f3)
    | _, _, _, _, _ => None
    end
  | _ => None
  end.

(** ** Geometry *)

Definition End_ (e : Extent) : Z := add64 (LogOff e) (Length e).

Definition WithinDisk (e : Extent) (start end_ : Z) : bool :=
  (start <=? DiskOff e) && (add64 (DiskOff e) (Length e) <=? end_).

Definition Supersedes (e other : Extent) : bool :=
  (Seq other <? Seq e) && (LogOff e <=? LogOff other) && (End_ other <=? End_ e).

(** ** Resolution order: logical offset, then newest first *)

Definition cmp_compare (x y : Z) : Z := if x <? y then -1 else if y <? x then 1 else 0.

Definition extentOrder (a b : Extent) : Z :=
  if negb (LogOff a =? LogOff b) then cmp_compare (LogOff a) (LogOff b)
  else if negb (Seq a =? Seq b) then cmp_compare (Seq b) (Seq a)
  else cmp_compare (Chunk b) (Chunk a).

Definition ext_le (a b : Extent) : Prop := extentOrder a b <= 0.
#[global] Instance ext_le_dec : RelDecision ext_le.
Proof. intros a b. unfold ext_le. apply _. Defined.

Definition SortExtents (l : list Extent) : list Extent := merge_sort ext_le l.

(** [sort.Search]: binary search for the first index where [f] holds. *)
Fixpoint sort_search (f : nat → bool) (fuel i j : nat) : nat :=
  match fuel with
  | O => i
  | S fuel' =>
    if bool_decide (i < j)%nat then
      let h := ((i + j) / 2)%nat in
      if f h then sort_search f fuel' i h else sort_search f fuel' (S h) j
    else i
  end.

Definition InsertExtent (l : list Extent) (e : Extent) : list Extent :=
  let f i := match l !! i with Some x => 0 <=? extentOrder x e | None => true end in
  let i := sort_search f (S (length l)) 0 (length l) in
  take i l ++ e :: drop i l.

Definition set_ModRevision (r : Z) (e : Extent) : Extent :=
  mkExtent (Key e) (Chunk e) r (Seq e) (Node e) (LogOff e) (DiskOff e) (Length e) (Gen e).

Definition DecodeExtents (kvs : list (bytes * kv)) : list Extent :=
  SortExtents (omap (λ x, set_ModRevision (kv_mod x.2) <$> DecodeExtent x.1 (kv_val x.2)) kvs).

(** ** Splitting an extent around a write *)

Definition BlockSize : Z := 4096.

Definition blocksFor (n : Z) : Z := add64 n (BlockSize - 1) / BlockSize.

Definition SplitAround (old : Extent) (start end_ : Z) : option Extent * option Extent :=
  let head :=
    if LogOff old <? start then
      Some (mkExtent [] 0 0 (Seq old) (Node old) (LogOff old) (DiskOff old)
              (sub64 start (LogOff old)) (Gen old))
    else None in
  let tail :=
    if end_ <? End_ old then
      let skip := sub64 end_ (LogOff old) / BlockSize * BlockSize in
      Some (mkExtent [] 0 0 (Seq old) (Node old) (add64 (LogOff old) skip) (add64 (DiskOff old) skip)
              (sub64 (Length old) skip) (Gen old))
    else None in
  (head, tail).

Definition CoveredBlocks (old : Extent) (head tail : option Extent) : Z * Z :=
  let first := match head with Some h => blocksFor (Length h) | None => 0 end in
  let last := match tail with
              | Some t => sub64 (DiskOff t) (DiskOff old) / BlockSize
              | None => blocksFor (Length old)
              end in
  if last <=? first then (0, 0)
  else (add64 (DiskOff old) (mul64 first BlockSize), mul64 (last - first) BlockSize).

(** ** Data and holes *)

(** One step of the walk: [acc] holds the ranges so far, most recent first. *)
Definition data_step (size : Z) (st : list (Z * Z) * Z) (e : Extent) : list (Z * Z) * Z :=
  let '(acc, pos) := st in
  if size <=? pos then st
  else if End_ e <=? pos then st
  else
    let start := Z.max (LogOff e) pos in
    let end_ := Z.min (End_ e) size in
    if end_ <=? start then st
    else
      (match acc with
       | (a, b) :: acc' => if start <=? b then (a, Z.max b end_) :: acc' else (start, end_) :: acc
       | [] => [(start, end_)]
       end, end_).

Definition DataRanges (extents : list Extent) (size : Z) : list (Z * Z) :=
  rev (foldl (data_step size) ([], 0) extents).1.

Fixpoint seek_data (rs : list (Z * Z)) (offset : Z) : option Z :=
  match rs with
  | [] => None
  | (a, b) :: rs' => if offset <? b then Some (Z.max a offset) else seek_data rs' offset
  end.

Definition SeekData (extents : list Extent) (size offset : Z) : option Z :=
  if size <=? offset then None else seek_data (DataRanges extents size) offset.

Fixpoint seek_hole (rs : list (Z * Z)) (offset : Z) : Z :=
  match rs with
  | [] => offset
  | (a, b) :: rs' =>
    if offset <? a then offset
    else seek_hole rs' (if offset <? b then b else offset)
  end.

Definition SeekHole (extents : list Extent) (size offset : Z) : option Z :=
  if size <=? offset then None else Some (seek_hole (DataRanges extents size) offset).

(** ** The store's extent operations *)

Definition GetExtents (s : Store) (ino : Z) (ser : bool) : prog (result (list Extent)) :=
  x ⇐? read s (RPrefix (ExtentPrefix ino)) ser; Ret (Ok (DecodeExtents x.1)).

Definition GetInodeAndExtents (s : Store) (ino : Z)
  : prog (result (option (option InodeRecord * list Extent))) :=
  x ⇐? readTxn s [RKey (InodeKey ino); RPrefix (ExtentPrefix ino)] true;
  Ret match x with
      | [[]; _] => Ok None
      | [(_, e) :: _; exts] => Ok (Some (DecodeInode (kv_val e), DecodeExtents exts))
      | _ => Err EOther
      end.

Definition AllExtents (s : Store) : prog (result (list Extent)) :=
  kvs ⇐? GetPrefix s PrefixExtent; Ret (Ok (DecodeExtents kvs)).

Definition next_chunk (chunks : list Z) : Z :=
  foldl (λ next c, if next <=? c then add64 c 1 else next) 0 chunks.

Definition NextExtentChunk (s : Store) (ino : Z) : prog (result Z) :=
  kvs ⇐? GetPrefix s (ExtentPrefix ino);
  Ret (Ok (next_chunk (omap (λ x, snd <$> ParseExtentKey x.1) kvs))).

Definition AppendExtent (s : Store) (ino logicalOff diskOff len generation : Z) : prog (result unit) :=
  chunk ⇐? NextExtentChunk s ino;
  let ext := mkExtent [] 0 0 chunk (nodeID s) logicalOff diskOff len generation in
  _ ⇐? Put s (ExtentKey ino chunk) (Encode ext) 0; Ret (Ok tt).

(** ** Well-formed extents: ranges that fit in 64 bits *)

Definition ext_wf (e : Extent) : Prop :=
  0 <= LogOff e ∧ 0 <= DiskOff e ∧ 0 <= Length e ∧
  LogOff e + Length e < 2 ^ 64 ∧ DiskOff e + Length e + BlockSize < 2 ^ 64 ∧
  is_u64 (Gen e) ∧ is_u64 (Seq e).

(** [e] holds the bytes of [x], at device offset [ext_disk e x]. *)
Definition covers (e : Extent) (x : Z) : Prop := LogOff e <= x < LogOff e + Length e.
Definition ext_disk (e : Extent) (x : Z) : Z := DiskOff e + (x - LogOff e).

Lemma End_wf e : ext_wf e → End_ e = LogOff e + Length e.
Proof. intros H. unfold ext_wf in H. apply add64_small. lia. Qed.

(** ** Encoding round trips *)

Lemma is_digit_comma : is_digit comma = false.
Proof. done. Qed.

Lemma split_n_field n z rest :
  0 <= z → split_n comma (S (S n)) (fmt_uint z ++ comma :: rest) = fmt_uint z :: split_n comma (S n) rest.
Proof.
  intros Hz. cbn [split_n]. rewrite cut_app; [done|]. by apply fmt_uint_not_elem.
Qed.

Lemma ParseExtentKey_ok ino chunk :
  is_u64 ino → is_u64 chunk → ParseExtentKey (ExtentKey ino chunk) = Some (ino, chunk).
Proof.
  intros Hi Hc. unfold ParseExtentKey, ExtentKey. rewrite cut_prefix_app, cut_app.
  - by rewrite !ParseUint_fmt_uint.
  - apply fmt_uint_not_elem; [done|]. unfold is_u64 in Hi; lia.
Qed.

Lemma DecodeExtent_Encode ino chunk e :
  is_u64 ino → is_u64 chunk → ext_wf e →
  DecodeExtent (ExtentKey ino chunk) (Encode e) =
  Some (mkExtent (ExtentKey ino chunk) chunk 0 (Seq e) (Node e) (LogOff e) (DiskOff e) (Length e) (Gen e)).
Proof.
  intros Hi Hc Hw. unfold ext_wf, is_u64 in Hw. unfold DecodeExtent, Encode.
  rewrite !split_n_field by lia. cbn [split_n].
  rewrite !ParseUint_fmt_uint by (unfold is_u64, BlockSize in *; lia).
  by rewrite ParseExtentKey_ok.
Qed.

(** ** The order is total; insertion keeps a list in order *)

Ltac order_solve :=
  unfold ext_le, extentOrder, cmp_compare in *; repeat case_match; zbool; lia.

#[global] Instance ext_le_total : Total ext_le.
Proof. intros a b. destruct (decide (ext_le a b)) as [|H]; [by left|right]. revert H. order_solve. Qed.

#[global] Instance ext_le_trans : Transitive ext_le.
Proof. intros a b c. order_solve. Qed.

Lemma extentOrder_nonneg a b : (0 <=? extentOrder a b) = true ↔ ext_le b a.
Proof. order_solve. Qed.

Lemma sort_search_spec f n :
  (∀ i j, (i <= j)%nat → (j < n)%nat → f i = true → f j = true) →
  ∀ fuel i j, (i <= j <= n)%nat → (j - i < fuel)%nat →
  (∀ k, (k < i)%nat → f k = false) → (∀ k, (j <= k < n)%nat → f k = true) →
  (sort_search f fuel i j <= n)%nat ∧
  (∀ k, (k < sort_search f fuel i j)%nat → f k = false) ∧
  (∀ k, (sort_search f fuel i j <= k < n)%nat → f k = true).
Proof.
  intros Hmono. induction fuel as [|fuel IH]; intros i j Hij Hf Hlo Hhi; [lia|].
  cbn [sort_search]. case_bool_decide; [|assert (i = j) as -> by lia; repeat split; auto; lia].
  assert (i <= (i + j) / 2 < j)%nat as Hh.
  { split; [apply Nat.div_le_lower_bound; lia|apply Nat.Div0.div_lt_upper_bound; lia]. }
  set (h := ((i + j) / 2)%nat) in *. destruct (f h) eqn:Eh; apply IH; try lia; auto.
  - intros k Hk. apply (Hmono h); [lia|lia|done].
  - intros k Hk. apply not_true_is_false. intros Hk'.
    rewrite (Hmono k h) in Eh; [done|lia|lia|done].
Qed.

Lemma InsertExtent_perm l e : InsertExtent l e ≡ₚ e :: l.
Proof.
  unfold InsertExtent. set (i := sort_search _ _ _ _).
  rewrite <- Permutation_middle. by rewrite (take_drop i l).
Qed.

Lemma InsertExtent_sorted l e :
  StronglySorted ext_le l → StronglySorted ext_le (InsertExtent l e).
Proof.
  intros Hs. unfold InsertExtent.
  set (f := λ i, match l !! i with Some x => 0 <=? extentOrder x e | None => true end).
  assert (∀ i x, l !! i = Some x → f i = true ↔ ext_le e x) as Hf.
  { intros i x Hi. unfold f. rewrite Hi. apply extentOrder_nonneg. }
  destruct (sort_search_spec f (length l)) with (fuel := S (length l)) (i := 0%nat) (j := length l)
    as (Hle & Hlo & Hhi); try lia.
  { intros i j Hij Hj Hi. destruct (lookup_lt_is_Some_2 l j Hj) as [y Hy].
    destruct (lookup_lt_is_Some_2 l i ltac:(lia)) as [x Hx]. apply (Hf _ _ Hy).
    apply (Hf _ _ Hx) in Hi. destruct (decide (i = j)) as [->|]; [by simplify_eq|].
    trans x; [done|]. eapply (StronglySorted_lookup_lt ext_le l i j); eauto; lia. }
  set (i := sort_search f (S (length l)) 0 (length l)) in *.
  rewrite <- (take_drop i l) in Hs. apply StronglySorted_app in Hs as (Hc & H1 & H2).
  apply StronglySorted_app. split; [|split; [done|]].
  - intros x y Hx Hy. apply elem_of_cons in Hy as [->|Hy]; [|by apply Hc].
    apply list_elem_of_lookup in Hx as [k Hk]. apply lookup_take_Some in Hk as [Hk Hki].
    destruct (total ext_le x e) as [|Hex]; [done|].
    apply (Hf _ _ Hk) in Hex. by rewrite Hlo in Hex.
  - constructor; [done|]. apply Forall_forall. intros x Hx.
    apply list_elem_of_lookup in Hx as [k Hk]. rewrite lookup_drop in Hk.
    apply (Hf _ _ Hk). apply Hhi. apply lookup_lt_Some in Hk. lia.
Qed.
