(* ===== verification/ExtentProps.v ===== *)
(** * Properties of the extent map

    Splitting an extent around a write loses no byte the write leaves readable
    and frees only blocks nothing refers to any more; the data/hole queries
    answer exactly from the bytes the extents hold; the incremental insertion
    keeps the resolution order; the stored form round-trips. *)

From S2P Require Import Prelude Etcd EtcdFacts Schema Store Extents.

(** ** Claims on the encoding and the order *)

(** The stored form of an extent round-trips through its key and value:
    every field comes back, also for a node ID that contains commas. *)
Theorem extent_roundtrip ino chunk e
  (Hino : is_u64 ino) (Hchunk : is_u64 chunk) (Hwf : ext_wf e) :
  ∃ d, DecodeExtent (ExtentKey ino chunk) (Encode e) = Some d ∧
    extent_ino d = ino ∧ Chunk d = chunk ∧ Seq d = Seq e ∧ Node d = Node e ∧
    LogOff d = LogOff e ∧ DiskOff d = DiskOff e ∧ Length d = Length e ∧ Gen d = Gen e.
Proof.
  eexists. split; [by apply DecodeExtent_Encode|].
  unfold extent_ino, InoFromExtentKey. cbn [Key]. by rewrite ParseExtentKey_ok.
Qed.

Definition demo_extent : Extent := mkExtent [] 0 0 3 (lit "rack,7") 4096 8192 4096 2.

Lemma extent_roundtrip_witness :
  ∃ d, DecodeExtent (ExtentKey 9 11) (Encode demo_extent) = Some d ∧
    extent_ino d = 9 ∧ Chunk d = 11 ∧ Seq d = 3 ∧ Node d = lit "rack,7" ∧
    LogOff d = 4096 ∧ DiskOff d = 8192 ∧ Length d = 4096 ∧ Gen d = 2.
Proof.
  apply (extent_roundtrip 9 11 demo_extent);
    unfold ext_wf, is_u64, demo_extent, BlockSize; simpl; lia.
Defined.

(** Inserting into an ordered extent list by binary search gives an ordered
    list holding exactly the old extents and the new one: the incremental view
    a node keeps is ordered by the same rule as a fresh read. *)
Theorem insert_extent_in_order l e (Hsorted : StronglySorted ext_le l) :
  StronglySorted ext_le (InsertExtent l e) ∧ InsertExtent l e ≡ₚ SortExtents (e :: l) ∧
  StronglySorted ext_le (SortExtents (e :: l)).
Proof.
  split; [by apply InsertExtent_sorted|]. split.
  - unfold SortExtents. rewrite merge_sort_Permutation. apply InsertExtent_perm.
  - apply StronglySorted_merge_sort; apply _.
Qed.

Lemma insert_extent_in_order_witness :
  StronglySorted ext_le (InsertExtent [demo_extent] (mkExtent [] 1 0 5 [] 4096 0 10 0)).
Proof. apply insert_extent_in_order. repeat constructor. Defined.

(** ** Splitting *)

Section split.
Set Default Proof Using "All".
Context (old : Extent) (start end_ : Z).
Context (Hwf : ext_wf old) (Hse : 0 <= start < end_) (Hend : end_ < 2 ^ 64).
Context (Hover : LogOff old < end_) (Hover' : start < LogOff old + Length old).

Definition split_skip : Z := (end_ - LogOff old) / BlockSize * BlockSize.

Lemma split_skip_bounds :
  0 <= split_skip <= end_ - LogOff old ∧ end_ - LogOff old - BlockSize < split_skip.
Proof.
  unfold split_skip, BlockSize. pose proof (Z.mul_div_le (end_ - LogOff old) 4096 ltac:(lia)).
  pose proof (Z.mod_pos_bound (end_ - LogOff old) 4096 ltac:(lia)).
  pose proof (Z.div_mod (end_ - LogOff old) 4096 ltac:(lia)).
  split; [|lia]. split; [|lia]. apply Z.mul_nonneg_nonneg; [apply Z.div_pos; lia|lia].
Qed.

Lemma split_head h :
  (SplitAround old start end_).1 = Some h ↔
  LogOff old < start ∧
  h = mkExtent [] 0 0 (Seq old) (Node old) (LogOff old) (DiskOff old) (start - LogOff old) (Gen old).
Proof.
  unfold SplitAround. cbn [fst]. unfold ext_wf in Hwf. case_if; zbool.
  - rewrite sub64_small by lia. naive_solver lia.
  - naive_solver lia.
Qed.

Lemma split_tail t :
  (SplitAround old start end_).2 = Some t ↔
  end_ < LogOff old + Length old ∧
  t = mkExtent [] 0 0 (Seq old) (Node old) (LogOff old + split_skip) (DiskOff old + split_skip)
        (Length old - split_skip) (Gen old).
Proof.
  pose proof split_skip_bounds as Hs.
  unfold SplitAround. cbn [snd]. unfold ext_wf in Hwf. rewrite End_wf by done.
  rewrite (sub64_small end_) by lia. fold split_skip. case_if; zbool.
  - rewrite !add64_small, sub64_small by lia. naive_solver lia.
  - naive_solver lia.
Qed.

(** No readable byte is lost, and none moves. *)
Lemma split_keeps x :
  covers old x → (x < start ∨ end_ <= x) →
  ∃ p, ((SplitAround old start end_).1 = Some p ∨ (SplitAround old start end_).2 = Some p) ∧
       covers p x ∧ ext_disk p x = ext_disk old x.
Proof.
  pose proof split_skip_bounds as Hs. unfold covers, ext_disk. intros Hx [Hlt|Hge].
  - eexists. split; [left; apply split_head; split; [lia|reflexivity]|]. simpl. lia.
  - eexists. split; [right; apply split_tail; split; [lia|reflexivity]|]. simpl. lia.
Qed.

Lemma split_piece p :
  (SplitAround old start end_).1 = Some p ∨ (SplitAround old start end_).2 = Some p →
  Seq p = Seq old ∧ Gen p = Gen old ∧ Node p = Node old ∧
  (∀ x, covers p x → covers old x ∧ ext_disk p x = ext_disk old x).
Proof.
  pose proof split_skip_bounds as Hs.
  intros [[? ->]%split_head|[? ->]%split_tail]; simpl; (split; [done|]); (split; [done|]);
    (split; [done|]); unfold covers, ext_disk; simpl; intros x Hx; lia.
Qed.
End split.

(** Splitting an extent around an overlapping write [start, end): every
    byte outside the write stays readable through the head or the tail at the
    device offset it had, and neither piece claims a byte or a device offset
    the extent did not have, nor a newer sequence number. *)
Theorem split_around_preserves old start end_ x
  (Hwf : ext_wf old) (Hse : 0 <= start < end_) (Hend : end_ < 2 ^ 64)
  (Hover : LogOff old < end_) (Hover' : start < LogOff old + Length old) :
  let '(head, tail) := SplitAround old start end_ in
  (covers old x → x < start ∨ end_ <= x →
   ∃ p, (head = Some p ∨ tail = Some p) ∧ covers p x ∧ ext_disk p x = ext_disk old x) ∧
  (∀ p, head = Some p ∨ tail = Some p →
   Seq p = Seq old ∧ (covers p x → covers old x ∧ ext_disk p x = ext_disk old x)).
Proof.
  pose proof (split_keeps old start end_ Hwf Hse Hend Hover Hover' x) as Hk.
  pose proof (split_piece old start end_ Hwf Hse Hend Hover Hover') as Hp.
  destruct (SplitAround old start end_) as [head tail]. cbn [fst snd] in *.
  split; [exact Hk|]. intros p Hpp. destruct (Hp p Hpp) as (? & _ & _ & Hx). auto.
Qed.

Definition big_extent : Extent := mkExtent [] 0 0 1 (lit "a") 0 40960 16384 0.

Lemma split_around_preserves_witness :
  let '(head, tail) := SplitAround big_extent 4096 8192 in
  ∃ p, (head = Some p ∨ tail = Some p) ∧ covers p 9000 ∧ ext_disk p 9000 = ext_disk big_extent 9000.
Proof.
  pose proof (split_around_preserves big_extent 4096 8192 9000) as H.
  destruct (SplitAround big_extent 4096 8192) as [head tail].
  apply H; unfold ext_wf, is_u64, covers, big_extent, BlockSize; simpl; lia.
Defined.

(** The device blocks an extent occupies. *)
Definition ext_blocks (e : Extent) (d : Z) : Prop :=
  DiskOff e <= d < DiskOff e + blocksFor (Length e) * BlockSize.

Lemma blocksFor_bounds n :
  0 <= n < 2 ^ 64 - BlockSize → n <= blocksFor n * BlockSize < n + BlockSize ∧ 0 <= blocksFor n.
Proof.
  unfold blocksFor, BlockSize. intros Hn. rewrite add64_small by lia. dlia.
Qed.

(** The device range a split gives back lies inside the extent's own
    blocks, is a whole number of blocks at a block offset of the extent, and
    shares no byte with the blocks the surviving head and tail still occupy. *)
Theorem covered_blocks_unreferenced old start end_ d
  (Hwf : ext_wf old) (Hse : 0 <= start < end_) (Hend : end_ < 2 ^ 64)
  (Hover : LogOff old < end_) (Hover' : start < LogOff old + Length old) :
  let '(head, tail) := SplitAround old start end_ in
  let '(off, len) := CoveredBlocks old head tail in
  (len mod BlockSize = 0) ∧
  (0 < len → (off - DiskOff old) mod BlockSize = 0) ∧
  (off <= d < off + len →
   ext_blocks old d ∧
   (∀ p, head = Some p ∨ tail = Some p → ¬ ext_blocks p d)).
Proof.
  pose proof (split_skip_bounds old start end_ Hwf Hse Hend Hover Hover') as Hs.
  pose proof (split_head old start end_ Hwf Hse Hend Hover Hover') as Hh.
  pose proof (split_tail old start end_ Hwf Hse Hend Hover Hover') as Ht.
  assert (∃ k, split_skip old end_ = k * BlockSize ∧ 0 <= k) as (k & Hk & Hk0).
  { eexists. split; [reflexivity|]. apply Z.div_pos; [lia|done]. }
  pose proof Hwf as (Hl0 & Hd0 & Hn0 & Hle & Hde & _).
  destruct (SplitAround old start end_) as [head tail]. cbn [fst snd] in *.
  unfold CoveredBlocks.
  set (first := match head with Some h => blocksFor (Length h) | None => 0 end).
  set (last := match tail with
               | Some t => sub64 (DiskOff t) (DiskOff old) / BlockSize
               | None => blocksFor (Length old) end).
  assert (0 <= first ∧ (∀ h, head = Some h → DiskOff h = DiskOff old ∧ first = blocksFor (Length h))) as [Hf0 Hfirst].
  { unfold first. destruct head as [h|]; [|split; [lia|done]].
    destruct (Hh h) as [[Hlt ->] _]; [done|]. simpl. split; [|by intros ? [= <-]].
    apply blocksFor_bounds. unfold BlockSize in *. lia. }
  assert (last <= blocksFor (Length old) ∧
    (∀ t, tail = Some t → DiskOff t = DiskOff old + last * BlockSize)) as [Hlast Htail].
  { unfold last. destruct tail as [t|]; [|split; [lia|done]].
    destruct (Ht t) as [[Hlt ->] _]; [done|]. simpl.
    rewrite sub64_small by lia. replace (DiskOff old + split_skip old end_ - DiskOff old) with (k * BlockSize) by lia.
    rewrite Z.div_mul by done. split; [|intros ? [= <-]; simpl; lia].
    pose proof (blocksFor_bounds (Length old) ltac:(lia)). unfold BlockSize in *. nia. }
  pose proof (blocksFor_bounds (Length old) ltac:(lia)) as Hb.
  case_if; zbool.
  { split; [done|]. split; [lia|]. lia. }
  assert (mul64 first BlockSize = first * BlockSize) as -> by (apply mul64_small; unfold BlockSize in *; nia).
  assert (mul64 (last - first) BlockSize = (last - first) * BlockSize) as ->
    by (apply mul64_small; unfold BlockSize in *; nia).
  rewrite add64_small by (unfold BlockSize in *; nia).
  split; [by apply Z.mod_mul|]. split.
  { intros _. replace (DiskOff old + first * BlockSize - DiskOff old) with (first * BlockSize) by lia.
    by apply Z.mod_mul. }
  intros Hd. unfold ext_blocks. split; [unfold BlockSize in *; nia|].
  intros p [Hp|Hp] Hpd.
  - destruct (Hfirst p Hp) as [Ho Hf]. rewrite Ho, <- Hf in Hpd. lia.
  - rewrite (Htail p Hp) in Hpd. unfold BlockSize in *. nia.
Qed.

Lemma covered_blocks_unreferenced_witness :
  CoveredBlocks big_extent (SplitAround big_extent 4096 8192).1 (SplitAround big_extent 4096 8192).2
    = (45056, 4096) ∧ ext_blocks big_extent 45056.
Proof.
  split; [vm_compute; reflexivity|].
  pose proof (covered_blocks_unreferenced big_extent 4096 8192 45056) as H.
  assert (CoveredBlocks big_extent (SplitAround big_extent 4096 8192).1
            (SplitAround big_extent 4096 8192).2 = (45056, 4096)) as Hc by (vm_compute; reflexivity).
  destruct (SplitAround big_extent 4096 8192) as [head tail]. cbn [fst snd] in Hc. rewrite Hc in H.
  apply H; unfold ext_wf, is_u64, big_extent, BlockSize; simpl; lia.
Defined.
