(* ===== verification/ExtentSeek.v ===== *)
(** * Data ranges and SEEK_DATA / SEEK_HOLE

    [DataRanges] walks the ordered extent list once; here it is shown to
    describe exactly the bytes below [size] that some extent holds, as disjoint
    ascending ranges that never touch, and the two seek operations to answer
    with the first data byte and the first hole at or after the offset. *)

From S2P Require Import Prelude Etcd EtcdFacts Schema Store Extents.

Definition in_ranges (rs : list (Z * Z)) (x : Z) : Prop := ∃ a b, (a, b) ∈ rs ∧ a <= x < b.

(** The file has data at [x]. *)
Definition has_data (extents : list Extent) (size x : Z) : Prop :=
  0 <= x < size ∧ ∃ e, e ∈ extents ∧ covers e x.

(** Ranges most recent first, below [hi], not touching one another. *)
Fixpoint ranges_desc (rs : list (Z * Z)) (hi : Z) : Prop :=
  match rs with
  | [] => True
  | (a, b) :: rs' => 0 <= a < b ∧ b <= hi ∧ ranges_desc rs' (a - 1)
  end.

Fixpoint ranges_asc (lo : Z) (rs : list (Z * Z)) : Prop :=
  match rs with
  | [] => True
  | (a, b) :: rs' => lo <= a < b ∧ ranges_asc (b + 1) rs'
  end.

Lemma in_ranges_cons a b rs x : in_ranges ((a, b) :: rs) x ↔ a <= x < b ∨ in_ranges rs x.
Proof.
  unfold in_ranges. split.
  - intros (c & d & [[= -> ->]|Hin]%elem_of_cons & Hx); [by left|right; eauto].
  - intros [Hx|(c & d & Hin & Hx)]; [exists a, b; split; [left|done]|exists c, d; split; [by right|done]].
Qed.

Lemma in_ranges_nil x : ¬ in_ranges [] x.
Proof. intros (a & b & Hin & _). by inversion Hin. Qed.

Lemma in_ranges_rev rs x : in_ranges (rev rs) x ↔ in_ranges rs x.
Proof. unfold in_ranges. setoid_rewrite list_elem_of_In. by setoid_rewrite <- in_rev. Qed.

Lemma ranges_asc_app lo l a b :
  ranges_asc lo l → lo <= a < b → (∀ x y, (x, y) ∈ l → y < a) → ranges_asc lo (l ++ [(a, b)]).
Proof.
  revert lo. induction l as [|[c d] l IH]; intros lo Hl Hab Hlt; simpl; [done|].
  destruct Hl as [Hcd Hl]. split; [done|]. apply IH; [done| |].
  - assert (d < a) by (apply (Hlt c); left). lia.
  - intros x y Hin. apply (Hlt x). by right.
Qed.

Lemma ranges_asc_ge lo rs c d : ranges_asc lo rs → (c, d) ∈ rs → lo <= c.
Proof.
  revert lo. induction rs as [|[p q] rs IH]; intros lo Hl Hin; [by inversion Hin|].
  destruct Hl as [? Hl]. apply elem_of_cons in Hin as [[= -> ->]|Hin]; [lia|].
  specialize (IH _ Hl Hin). lia.
Qed.

Lemma ranges_desc_lt rs hi x y : ranges_desc rs hi → (x, y) ∈ rs → y <= hi.
Proof.
  revert hi. induction rs as [|[a b] rs IH]; intros hi Hd Hin; [by inversion Hin|].
  destruct Hd as (Hab & Hb & Hd). apply elem_of_cons in Hin as [[= -> ->]|Hin]; [done|].
  specialize (IH _ Hd Hin). lia.
Qed.

Lemma ranges_desc_asc rs hi : ranges_desc rs hi → ranges_asc 0 (rev rs).
Proof.
  revert hi. induction rs as [|[a b] rs IH]; intros hi Hd; [done|].
  destruct Hd as (Hab & Hb & Hd). simpl. apply ranges_asc_app; [by eapply IH|lia|].
  intros x y Hin. apply list_elem_of_In, in_rev, list_elem_of_In in Hin.
  pose proof (ranges_desc_lt _ _ _ _ Hd Hin). lia.
Qed.

(** ** The walk *)

Section walk.
Context (size : Z) (Hsize : 0 <= size).

(** After a prefix [l] of the extents: the ranges are those bytes, and the
    cursor is the clamped end of one of the extents seen. *)
Definition walk_ok (l : list Extent) (st : list (Z * Z) * Z) : Prop :=
  let '(acc, pos) := st in
  (∀ x, in_ranges acc x ↔ has_data l size x) ∧
  0 <= pos <= size ∧
  match acc with
  | [] => pos = 0
  | (a, b) :: acc' => b = pos ∧ 0 <= a < b ∧ ranges_desc acc' (a - 1) ∧
                      ∃ e, e ∈ l ∧ pos = Z.min (LogOff e + Length e) size
  end.

Lemma has_data_snoc l e x :
  has_data (l ++ [e]) size x ↔ has_data l size x ∨ (0 <= x < size ∧ covers e x).
Proof.
  unfold has_data. split.
  - intros (Hx & e' & [Hin| ->%list_elem_of_singleton]%elem_of_app & Hc); eauto.
  - intros [(Hx & e' & Hin & Hc)|(Hx & Hc)]; (split; [done|]).
    + exists e'. split; [apply elem_of_app; by left|done].
    + exists e. split; [apply elem_of_app; right; left|done].
Qed.

(** Bytes of the next extent behind the cursor are already described. *)
Lemma walk_behind l acc pos e x :
  walk_ok l (acc, pos) → ext_wf e → (∀ e', e' ∈ l → LogOff e' <= LogOff e) →
  0 <= x < size → covers e x → x < pos → has_data l size x.
Proof.
  intros (_ & Hpos & Hacc) Hwf Hord Hx Hc Hlt. destruct acc as [|[a b] acc']; [lia|].
  destruct Hacc as (_ & _ & _ & e' & He' & ->). split; [done|]. exists e'. split; [done|].
  specialize (Hord e' He'). unfold covers in *. lia.
Qed.

(** An extent that lies behind the cursor changes nothing. *)
Lemma walk_skip l acc pos e :
  walk_ok l (acc, pos) → ext_wf e → (∀ e', e' ∈ l → LogOff e' <= LogOff e) →
  (∀ x, 0 <= x < size → covers e x → x < pos) → walk_ok (l ++ [e]) (acc, pos).
Proof.
  intros Hw Hwf Hord Hall. pose proof Hw as (Hin & Hpos & Hacc). split; [|split; [done|]].
  - intros x. rewrite has_data_snoc, Hin. split; [by left|].
    intros [?|[Hx Hc]]; [done|]. eapply walk_behind; eauto.
  - destruct acc as [|[a b] acc']; [done|]. destruct Hacc as (? & ? & ? & e' & He' & ?).
    repeat (split; [done|]). exists e'. split; [apply elem_of_app; by left|done].
Qed.

Lemma walk_step l st e :
  walk_ok l st → ext_wf e → (∀ e', e' ∈ l → LogOff e' <= LogOff e) →
  walk_ok (l ++ [e]) (data_step size st e).
Proof.
  destruct st as [acc pos]. intros Hw Hwf Hord. pose proof Hw as (Hin & Hpos & Hacc).
  pose proof (walk_skip l acc pos e Hw Hwf Hord) as Hskip.
  pose proof (λ x, walk_behind l acc pos e x Hw Hwf Hord) as Hbehind.
  unfold data_step. rewrite End_wf by done. unfold ext_wf in Hwf.
  unfold covers in *.
  case_if; zbool; [apply Hskip; intros; lia|].
  case_if; zbool; [apply Hskip; intros; lia|].
  case_if; zbool; [apply Hskip; intros; lia|].
  assert (∃ e0, e0 ∈ l ++ [e] ∧ Z.min (LogOff e + Length e) size = Z.min (LogOff e0 + Length e0) size) as Hex.
  { exists e. split; [apply elem_of_app; right; left|done]. }
  destruct acc as [|[a b] acc'].
  - split; [|split; [lia|]].
    + intros x. rewrite in_ranges_cons, has_data_snoc, <- Hin. unfold covers.
      pose proof (in_ranges_nil x). split; [intros [?|?]; [right; lia|done]|].
      intros [?|?]; [done|]. left. lia.
    + repeat (split; [lia|]). split; [exact I|done].
  - destruct Hacc as (-> & Hab & Hd & _).
    assert (∀ x, in_ranges ((a, pos) :: acc') x ∨
      (Z.max (LogOff e) pos <= x < Z.min (LogOff e + Length e) size) ↔
      has_data (l ++ [e]) size x) as Hnew.
    { intros x. rewrite has_data_snoc, <- Hin. unfold covers. split.
      - intros [?|?]; [by left|right; lia].
      - intros [?|[Hx Hc]]; [by left|]. destruct (decide (x < pos)).
        + left. apply Hin. by apply Hbehind.
        + right. lia. }
    case_if; zbool.
    + split; [|split; [lia|]].
      * intros x. rewrite <- Hnew, !in_ranges_cons. split; [|].
        -- intros [?|?]; [|by left; right]. destruct (decide (x < pos)); [left; left; lia|right; lia].
        -- intros [[?|?]|?]; [left; lia|by right|left; lia].
      * repeat (split; [lia|]). by split.
    + split; [|split; [lia|]].
      * intros x. rewrite <- Hnew, (in_ranges_cons (Z.max _ _)). tauto.
      * repeat (split; [lia|]). split; [|done]. simpl. repeat (split; [lia|]). done.
Qed.

Lemma walk_all l :
  Forall ext_wf l → StronglySorted ext_le l → walk_ok l (foldl (data_step size) ([], 0) l).
Proof.
  induction l as [|e l IH] using rev_ind; intros Hw Hs.
  - split; [|simpl; lia]. intros x. split; [by intros ?%in_ranges_nil|].
    intros (_ & e & He & _). by inversion He.
  - apply Forall_app in Hw as [Hw He]. apply StronglySorted_app in Hs as (Hc & Hs & _).
    rewrite foldl_app. simpl. apply walk_step; [by apply IH|by inversion He|].
    intros e' He'. specialize (Hc e' e He' ltac:(left)).
    unfold ext_le, extentOrder, cmp_compare in Hc. repeat case_match; zbool; lia.
Qed.
End walk.

Lemma walk_ranges l size acc pos : walk_ok size l (acc, pos) → ranges_desc acc size.
Proof.
  intros (_ & Hpos & Hacc). destruct acc as [|[a b] acc']; [done|].
  destruct Hacc as (-> & ? & ? & _). simpl. split; [done|]. split; [lia|done].
Qed.

Lemma DataRanges_spec l size :
  0 <= size → Forall ext_wf l → StronglySorted ext_le l →
  (∀ x, in_ranges (DataRanges l size) x ↔ has_data l size x) ∧ ranges_asc 0 (DataRanges l size).
Proof.
  intros Hz Hw Hs. pose proof (walk_all size Hz l Hw Hs) as Hk. unfold DataRanges.
  destruct (foldl (data_step size) ([], 0) l) as [acc pos]. cbn [fst]. split.
  - intros x. rewrite in_ranges_rev. apply Hk.
  - eapply ranges_desc_asc, walk_ranges, Hk.
Qed.

(** ** Claims *)

(** [DataRanges] of an ordered extent list describes exactly the bytes of
    the file that some extent holds, in ascending ranges that do not touch. *)
Theorem data_ranges_exact extents size
  (Hsize : 0 <= size) (Hwf : Forall ext_wf extents) (Hsorted : StronglySorted ext_le extents) :
  (∀ x, in_ranges (DataRanges extents size) x ↔ has_data extents size x) ∧
  ranges_asc 0 (DataRanges extents size).
Proof. by apply DataRanges_spec. Qed.

Definition sparse_file : list Extent :=
  SortExtents [mkExtent [] 1 0 1 [] 8192 0 4096 0; mkExtent [] 0 0 0 [] 0 4096 4096 0;
               mkExtent [] 2 0 2 [] 12288 20480 100 0].

Lemma sparse_file_ok : Forall ext_wf sparse_file ∧ StronglySorted ext_le sparse_file.
Proof.
  split; [|apply StronglySorted_merge_sort; apply _].
  assert (sparse_file = [mkExtent [] 0 0 0 [] 0 4096 4096 0; mkExtent [] 1 0 1 [] 8192 0 4096 0;
    mkExtent [] 2 0 2 [] 12288 20480 100 0]) as -> by (vm_compute; reflexivity).
  repeat constructor; unfold is_u64; simpl; unfold BlockSize; lia.
Qed.

Lemma data_ranges_exact_witness :
  DataRanges sparse_file 12388 = [(0, 4096); (8192, 12388)] ∧
  ∀ x, in_ranges (DataRanges sparse_file 12388) x ↔ has_data sparse_file 12388 x.
Proof.
  split; [vm_compute; reflexivity|].
  apply data_ranges_exact; [lia|apply sparse_file_ok|apply sparse_file_ok].
Defined.

Lemma seek_data_spec rs lo off :
  ranges_asc lo rs →
  match seek_data rs off with
  | Some x => off <= x ∧ in_ranges rs x ∧ ∀ y, off <= y < x → ¬ in_ranges rs y
  | None => ∀ y, off <= y → ¬ in_ranges rs y
  end.
Proof.
  revert lo. induction rs as [|[a b] rs IH]; intros lo Hr; simpl.
  { intros y _. apply in_ranges_nil. }
  destruct Hr as [Hab Hr]. case_if; zbool.
  - split; [lia|]. split; [apply in_ranges_cons; left; lia|].
    intros y Hy [?|(c & d & Hin & Hcd)]%in_ranges_cons; [lia|].
    pose proof (ranges_asc_ge _ _ _ _ Hr Hin). lia.
  - specialize (IH _ Hr). destruct (seek_data rs off) as [x|].
    + destruct IH as (? & ? & Hno). split; [done|]. split; [apply in_ranges_cons; by right|].
      intros y Hy [?|?]%in_ranges_cons; [lia|by eapply Hno].
    + intros y Hy [?|?]%in_ranges_cons; [lia|by eapply IH].
Qed.

Lemma seek_hole_spec rs lo off :
  ranges_asc lo rs → off <= seek_hole rs off ∧
  (∀ y, off <= y < seek_hole rs off → in_ranges rs y) ∧ ¬ in_ranges rs (seek_hole rs off).
Proof.
  revert lo off. induction rs as [|[a b] rs IH]; intros lo off Hr; simpl.
  { split; [lia|]. split; [lia|]. apply in_ranges_nil. }
  destruct Hr as [Hab Hr]. case_if; zbool.
  - split; [lia|]. split; [lia|]. intros [?|(c & d & Hin & Hcd)]%in_ranges_cons; [lia|].
    pose proof (ranges_asc_ge _ _ _ _ Hr Hin). lia.
  - destruct (IH _ (if off <? b then b else off) Hr) as (H1 & H2 & H3).
    case_if; zbool.
    + split; [lia|]. split.
      * intros y Hy. apply in_ranges_cons. destruct (decide (y < b)); [left; lia|right; apply H2; lia].
      * intros [?|?]%in_ranges_cons; [lia|done].
    + split; [lia|]. split.
      * intros y Hy. apply in_ranges_cons. right. apply H2. lia.
      * intros [?|?]%in_ranges_cons; [lia|done].
Qed.

(** lseek(SEEK_DATA) answers with the first byte at or after the offset
    that holds data, and ENXIO exactly when there is none; lseek(SEEK_HOLE)
    answers with the first byte at or after the offset that holds none, the end
    of the file counting as a hole. *)
Theorem seek_answers extents size off
  (Hsize : 0 <= size) (Hoff : 0 <= off)
  (Hwf : Forall ext_wf extents) (Hsorted : StronglySorted ext_le extents) :
  match SeekData extents size off with
  | Some x => off <= x ∧ has_data extents size x ∧ ∀ y, off <= y < x → ¬ has_data extents size y
  | None => ∀ y, off <= y → ¬ has_data extents size y
  end ∧
  match SeekHole extents size off with
  | Some x => off < size ∧ off <= x ∧ (∀ y, off <= y < x → has_data extents size y) ∧
              ¬ has_data extents size x
  | None => size <= off
  end.
Proof.
  destruct (DataRanges_spec extents size Hsize Hwf Hsorted) as [Hin Hasc].
  unfold SeekData, SeekHole. case_if; zbool.
  { split; [|done]. intros y Hy [? _]. lia. }
  pose proof (seek_data_spec _ _ off Hasc) as Hd. pose proof (seek_hole_spec _ _ off Hasc) as (Hh1 & Hh2 & Hh3).
  split.
  - destruct (seek_data _ off) as [x|]; [|intros y Hy; rewrite <- Hin; by apply Hd].
    destruct Hd as (? & ? & Hno). split; [done|]. split; [by apply Hin|].
    intros y Hy. rewrite <- Hin. by apply Hno.
  - split; [done|]. split; [done|]. split; [|by rewrite <- Hin].
    intros y Hy. apply Hin. by apply Hh2.
Qed.

Lemma seek_answers_witness :
  SeekData sparse_file 12388 5000 = Some 8192 ∧ SeekHole sparse_file 12388 100 = Some 4096 ∧
  has_data sparse_file 12388 8192 ∧ ¬ has_data sparse_file 12388 4096.
Proof.
  split; [vm_compute; reflexivity|]. split; [vm_compute; reflexivity|]. split.
  - destruct (seek_answers sparse_file 12388 5000 ltac:(lia) ltac:(lia)
      (proj1 sparse_file_ok) (proj2 sparse_file_ok)) as [H _].
    assert (SeekData sparse_file 12388 5000 = Some 8192) as Hs by (vm_compute; reflexivity).
    rewrite Hs in H. apply H.
  - destruct (seek_answers sparse_file 12388 100 ltac:(lia) ltac:(lia)
      (proj1 sparse_file_ok) (proj2 sparse_file_ok)) as [_ H].
    assert (SeekHole sparse_file 12388 100 = Some 4096) as Hs by (vm_compute; reflexivity).
    rewrite Hs in H. apply H.
Defined.
