(* ===== verification/SchemaProps.v ===== *)
(** * What the key schema and the record formats promise

    Every key the daemon builds determines its kind and its components; every
    parser inverts its constructor and a prefix scan returns the keys of its
    own family; inode records survive the store, the older format included. *)

From S2P Require Import Prelude Etcd EtcdFacts Schema Extents.

(** ** Keys *)

(** The keys the daemon writes, by the constructor that builds them. *)
Inductive schema_key :=
  | KInode (ino : Z) | KSymlink (ino : Z) | KQuota (ino : Z) | KFreeArena (id : Z)
  | KDirent (parent : Z) (name : bytes) | KXattr (ino : Z) (name : bytes) | KLockWant (ino : Z) (node : bytes)
  | KExtent (ino chunk : Z) | KLock (ino : Z) (exclusive : bool) (holder : bytes)
  | KOrphan (node : bytes) (ino : Z) | KArena (node : bytes) (id : Z)
  | KMembership (node : bytes) | KGen (node : bytes) | KFencePending (node : bytes) | KFenceClaim (node : bytes)
  | KFenceDone (node : bytes) | KDeparted (node : bytes) | KInodeCounter.

Definition lock_mode (exclusive : bool) : bytes := if exclusive then LockExclusive else LockShared.

Definition key_bytes (k : schema_key) : bytes :=
  match k with
  | KInode i => InodeKey i | KSymlink i => InodeSymlinkKey i | KQuota i => QuotaKey i | KFreeArena i => FreeArenaKey i
  | KDirent p n => DirentKey p n | KXattr i n => XattrKey i n | KLockWant i n => LockWantKey i n
  | KExtent i c => ExtentKey i c | KLock i x h => LockKey i (lock_mode x) h
  | KOrphan n i => OrphanKey n i | KArena n i => ArenaOwnerKey n i
  | KMembership n => MembershipKey n | KGen n => GenKey n | KFencePending n => FencePendingKey n
  | KFenceClaim n => FenceClaimKey n | KFenceDone n => FenceDoneKey n | KDeparted n => DepartedKey n
  | KInodeCounter => KeyInodeAllocCounter
  end.

(** The numbers in a key are 64-bit; names and node IDs are arbitrary. *)
Definition key_in_range (k : schema_key) : Prop :=
  match k with
  | KInode i | KSymlink i | KQuota i | KFreeArena i | KDirent i _ | KXattr i _ | KLockWant i _ | KLock i _ _
  | KOrphan _ i | KArena _ i => is_u64 i
  | KExtent i c => is_u64 i ∧ is_u64 c
  | KMembership _ | KGen _ | KFencePending _ | KFenceClaim _ | KFenceDone _ | KDeparted _ | KInodeCounter => True
  end.

Lemma lock_mode_inj x y h1 h2 :
  lock_mode x ++ slash :: h1 = lock_mode y ++ slash :: h2 → x = y ∧ h1 = h2.
Proof. destruct x, y; vm_compute; intros [=]; by subst. Qed.

(** The key space is unambiguous: two keys the daemon builds are the same
    bytes only if they are of the same kind with the same components, whatever
    the file names and node IDs contain. *)
Theorem keys_unambiguous a b (Ha : key_in_range a) (Hb : key_in_range b) (He : key_bytes a = key_bytes b) : a = b.
Proof.
  destruct a, b; cbn [key_bytes key_in_range] in *;
    try (exfalso; apply (f_equal (take 6)) in He; lazy in He; discriminate He); unfold is_u64 in *; try done.
  all: try (exfalso; apply (f_equal (take 8)) in He; cbn in He; discriminate He).
  all: apply app_inv_head in He.
  all: first [ by apply fmt_uint_inj in He as ->; [|lia|lia]
             | apply sep_fmt_uint_inj in He as [-> ->]; [done|lia|lia]
             | apply fmt_uint_sep_inj in He as [-> He]; [|done|lia|lia]
             | by subst ].
  all: first [ by subst | by apply fmt_uint_inj in He as ->; [|lia|lia] | by apply lock_mode_inj in He as [-> ->] ].
Qed.

(** The prefix scans of the daemon. *)
Inductive scan :=
  | SDirents (parent : Z) | SXattrs (ino : Z) | SExtents (ino : Z) | SLocks (ino : Z) | SLockMode (ino : Z) (exclusive : bool).

Definition scan_prefix (s : scan) : bytes :=
  match s with
  | SDirents p => DirentPrefix p | SXattrs i => XattrPrefix i | SExtents i => ExtentPrefix i
  | SLocks i => LockPrefix i | SLockMode i x => LockModePrefix i (lock_mode x)
  end.

(** The keys a scan is meant to return. *)
Definition scan_wants (s : scan) (k : schema_key) : bool :=
  match s, k with
  | SDirents p, KDirent q _ | SXattrs p, KXattr q _ | SExtents p, KExtent q _ | SLocks p, KLock q _ _ => p =? q
  | SLockMode p x, KLock q y _ => (p =? q) && eqb x y
  | _, _ => false
  end.

Definition scan_in_range (s : scan) : Prop :=
  match s with SDirents i | SXattrs i | SExtents i | SLocks i | SLockMode i _ => is_u64 i end.

Lemma num_prefix_eqb prefix m n rest :
  is_u64 m → is_u64 n →
  has_prefix (prefix ++ fmt_uint m ++ [slash]) (prefix ++ fmt_uint n ++ slash :: rest) = (m =? n).
Proof.
  unfold is_u64. intros Hm Hn. apply eq_bool_prop_intro. rewrite !Is_true_true, num_prefix_isolated, Z.eqb_eq by lia. done.
Qed.

Lemma lock_mode_prefix m x n y h :
  is_u64 m → is_u64 n → has_prefix (LockModePrefix m (lock_mode x)) (LockKey n (lock_mode y) h) = (m =? n) && eqb x y.
Proof.
  unfold is_u64. intros Hm Hn. apply eq_bool_prop_intro. rewrite !Is_true_true, andb_true_iff, Z.eqb_eq, eqb_true_iff, has_prefix_true.
  split; [|intros [-> ->]; exists h; unfold LockModePrefix, LockKey; by rewrite <- !app_assoc, <- app_comm_cons, <- !app_assoc].
  intros [t Ht]. unfold LockModePrefix, LockKey in Ht. rewrite <- !app_assoc, <- app_comm_cons, <- app_assoc in Ht.
  apply app_inv_head, fmt_uint_sep_inj in Ht as [-> Ht]; [|done|lia|lia]. split; [done|].
  symmetry in Ht. by apply lock_mode_inj in Ht as [-> _].
Qed.

(** A prefix scan returns the keys of its own family and of no other: no
    key of another directory, inode, mode or kind starts with its prefix. *)
Theorem scan_exact s k (Hs : scan_in_range s) (Hk : key_in_range k) :
  has_prefix (scan_prefix s) (key_bytes k) = scan_wants s k.
Proof.
  destruct s, k; cbn [scan_prefix key_bytes scan_wants scan_in_range key_in_range] in *; try reflexivity.
  all: first [ by apply num_prefix_eqb | by apply num_prefix_eqb; [|apply Hk] | by apply lock_mode_prefix ].
Qed.

(** What each parser reads back from a key. *)
Definition parsed (k : schema_key) : Prop :=
  match k with
  | KInode i => ParseInodeKey (key_bytes k) = Some i
  | KQuota i => ParseQuotaKey (key_bytes k) = Some i
  | KDirent p n => ParseDirentKey (key_bytes k) = Some (p, n)
  | KXattr i n => ParseXattrKey (key_bytes k) = Some (i, n)
  | KLockWant i n => ParseLockWantKey (key_bytes k) = Some (i, n)
  | KExtent i c => ParseExtentKey (key_bytes k) = Some (i, c)
  | KLock i x _ => ParseLockKey (key_bytes k) i = Some (lock_mode x)
  | KArena n i => n ≠ [] → ParseArenaKey (key_bytes k) = Some (n, i)
  | _ => True
  end.

(** Every parser inverts the constructor of its keys; an arena's owner may
    contain slashes, since its key is split at the last one. *)
Theorem keys_roundtrip k (Hk : key_in_range k) : parsed k.
Proof.
  destruct k as [i|i|i|i|p n|i n|i n|i c|i x h|n i|n i|n|n|n|n|n|n|]; cbn [parsed key_bytes key_in_range] in *; try done.
  - unfold ParseInodeKey, InodeKey. by rewrite cut_prefix_app, ParseUint_fmt_uint.
  - unfold ParseQuotaKey, QuotaKey. by rewrite cut_prefix_app, ParseUint_fmt_uint.
  - by apply parse_num_rest_ok.
  - by apply parse_num_rest_ok.
  - by apply parse_num_rest_ok.
  - destruct Hk. by apply ParseExtentKey_ok.
  - unfold ParseLockKey, LockPrefix, LockKey.
    replace (PrefixLock ++ fmt_uint i ++ slash :: lock_mode x ++ slash :: h)
      with ((PrefixLock ++ fmt_uint i ++ [slash]) ++ lock_mode x ++ slash :: h) by by rewrite <- !app_assoc.
    rewrite cut_prefix_app, cut_app by (destruct x; vm_compute; set_solver). by destruct x.
  - intros Hn. unfold ParseArenaKey, ArenaOwnerKey. rewrite cut_prefix_app, cut_last_app.
    + rewrite ParseUint_fmt_uint by done. by destruct n.
    + apply fmt_uint_not_elem; [done|]. unfold is_u64 in Hk. lia.
Qed.

(** ** Inode records *)

(** The record a daemon of the first format stored: whole seconds. *)
Definition truncated (r : InodeRecord) : InodeRecord :=
  mkInode (Ino r) (Size r) (Blocks r) (Mode r) (Nlink r) (UID r) (GID r) (Rdev r) (Blksize r) 0
    (Unix (Atime r) * nanos) (Unix (Mtime r) * nanos) (Unix (Ctime r) * nanos).

(** An inode record survives the store: decoding what [EncodeInode] wrote
    gives the record back to the nanosecond, except the generation, which is
    not stored; a record of the older, shorter format decodes to whole seconds;
    anything shorter still is refused. *)
Theorem inode_record_roundtrip r (Hr : inode_wf r) :
  DecodeInode (EncodeInode r) = Some (set_Generation 0 r) ∧
  DecodeInode (EncodeInodeV1 r) = Some (truncated r) ∧
  ∀ n, (n < inodeBytesV1)%nat → DecodeInode (take n (EncodeInode r)) = None.
Proof.
  split; [by apply DecodeInode_EncodeInode|]. split; [by apply DecodeInode_V1|].
  intros n Hn. unfold DecodeInode. rewrite length_take, bool_decide_eq_true_2 by lia. done.
Qed.

(** ** Concrete inputs *)

Definition demo_key : schema_key := KDirent 7 (lit "a/b").
Lemma demo_key_range : key_in_range demo_key.
Proof. unfold key_in_range, demo_key, is_u64. lia. Qed.

Lemma keys_unambiguous_witness : demo_key = KDirent (3 + 4) (lit "a" ++ slash :: lit "b").
Proof.
  apply (keys_unambiguous demo_key (KDirent (3 + 4) (lit "a" ++ slash :: lit "b"))).
  - exact demo_key_range.
  - exact demo_key_range.
  - vm_compute. reflexivity.
Defined.

Lemma scan_exact_witness : has_prefix (DirentPrefix 7) (key_bytes demo_key) = true ∧ has_prefix (DirentPrefix 70) (key_bytes demo_key) = false.
Proof.
  split.
  - apply (scan_exact (SDirents 7) demo_key); [unfold scan_in_range, is_u64; lia|exact demo_key_range].
  - apply (scan_exact (SDirents 70) demo_key); [unfold scan_in_range, is_u64; lia|exact demo_key_range].
Defined.

Lemma keys_roundtrip_witness : ParseDirentKey (key_bytes demo_key) = Some (7, lit "a/b").
Proof. apply (keys_roundtrip demo_key). exact demo_key_range. Defined.

Definition demo_inode : InodeRecord := NewInodeRecord 1700000000123456789 42 33188 1000 1000.
Lemma inode_record_roundtrip_witness : DecodeInode (EncodeInode demo_inode) = Some demo_inode.
Proof.
  apply (inode_record_roundtrip demo_inode).
  unfold inode_wf, is_u64, is_u32, is_i64. repeat split; apply Z.leb_le || apply Z.ltb_lt; vm_compute; reflexivity.
Defined.
