(* ===== verification/Allocator.v ===== *)
(** * The block allocator's bitmaps

    Models the in-memory half of pkg/arena/allocator.go: an arena's bitmap of
    64-bit words, the hinted search for a free run, allocation over several
    arenas with its undo, freeing with its double-free count, and the
    reconstruction of a bitmap from live extents.

    AllocatorProps relates it to the sets of taken and available bytes. *)

From S2P Require Import Prelude Etcd EtcdFacts Schema Store Extents.

Definition ArenaSizeBytes : Z := 1073741824. (* 1 << 30 *)
Definition BlocksPerArena : Z := ArenaSizeBytes / BlockSize.
Definition allones : Z := 2 ^ 64 - 1.

Record Arena := mkArena { ID : Z; DiskStart : Z; DiskEnd : Z; bitmap : list Z; hint : Z }.

Definition set_bitmap (bm : list Z) (ar : Arena) : Arena :=
  mkArena (ID ar) (DiskStart ar) (DiskEnd ar) bm (hint ar).
Definition set_hint (h : Z) (ar : Arena) : Arena :=
  mkArena (ID ar) (DiskStart ar) (DiskEnd ar) (bitmap ar) h.

Record Allocator := mkAllocator { arenas : list Arena; doubleFrees : Z; deviceSize : Z }.

Definition set_arenas (l : list Arena) (a : Allocator) : Allocator :=
  mkAllocator l (doubleFrees a) (deviceSize a).

Definition NewAllocator : Allocator := mkAllocator [] 0 0.
Definition SetDeviceSize (a : Allocator) (n : Z) : Allocator := mkAllocator (arenas a) (doubleFrees a) n.

(** ** Bits *)

Definition word (bm : list Z) (idx : Z) : Z := default 0 (bm !! Z.to_nat idx).

Definition isFree (ar : Arena) (block : Z) : bool :=
  Z.land (word (bitmap ar) (block / 64)) (Z.shiftl 1 (block mod 64)) =? 0.

Definition markAllocated (ar : Arena) (block : Z) : Arena :=
  let idx := block / 64 in
  set_bitmap (<[Z.to_nat idx := Z.lor (word (bitmap ar) idx) (Z.shiftl 1 (block mod 64))]> (bitmap ar)) ar.

Definition markFree (ar : Arena) (block : Z) : Arena :=
  let idx := block / 64 in
  set_bitmap (<[Z.to_nat idx := Z.ldiff (word (bitmap ar) idx) (Z.shiftl 1 (block mod 64))]> (bitmap ar)) ar.

Definition isEmpty (ar : Arena) : bool := forallb (λ w, w =? 0) (bitmap ar).

(** [bits.OnesCount64]. *)
Fixpoint ones_count (n : nat) (w : Z) : Z :=
  match n with
  | O => 0
  | S n' => (if Z.testbit w (Z.of_nat n') then 1 else 0) + ones_count n' w
  end.

Definition countAllocated (ar : Arena) : Z := foldr (λ w c, ones_count 64 w + c) 0 (bitmap ar).

(** ** Searching *)

(** The inner loop: how long the free run starting at [i] is. *)
Fixpoint run_length (ar : Arena) (fuel : nat) (i to max : Z) : Z :=
  match fuel with
  | O => 0
  | S f => if (0 <? max) && (i <? to) && isFree ar i
           then 1 + run_length ar f (i + 1) to (max - 1) else 0
  end.

Fixpoint find_run_in (ar : Arena) (fuel : nat) (i to max : Z) : Z * Z :=
  match fuel with
  | O => (0, 0)
  | S f =>
    if i <? to then
      if word (bitmap ar) (i / 64) =? allones then find_run_in ar f ((i / 64 + 1) * 64) to max
      else if negb (isFree ar i) then find_run_in ar f (i + 1) to max
      else (i, run_length ar (Z.to_nat (to - i)) i to max)
    else (0, 0)
  end.

(** Every step of the loop advances [i], so this is enough fuel. *)
Definition findRunIn (ar : Arena) (from to max : Z) : Z * Z :=
  find_run_in ar (S (Z.to_nat (to - from))) from to max.

Definition findRun (ar : Arena) (max : Z) : Arena * (Z * Z) :=
  let '(start, length) := findRunIn ar (hint ar) BlocksPerArena max in
  if 0 <? length then (set_hint (start + length) ar, (start, length))
  else
    let '(start, length) := findRunIn ar 0 (hint ar) max in
    if 0 <? length then (set_hint (start + length) ar, (start, length))
    else (ar, (0, 0)).

(** ** Allocation *)

Record Run := mkRun { r_off : Z; r_len : Z }.

(** The loop over one arena: take runs until [need] is met or it is full. *)
Fixpoint take_from (fuel : nat) (ar : Arena) (need : Z) : Arena * list Run * Z :=
  match fuel with
  | O => (ar, [], 0)
  | S f =>
    if 0 <? need then
      let '(ar, (start, length)) := findRun ar need in
      if length =? 0 then (ar, [], 0)
      else
        let ar := foldl markAllocated ar (seqZ start length) in
        let '(ar', runs, got) := take_from f ar (need - length) in
        (ar', mkRun (add64 (DiskStart ar) (mul64 start BlockSize)) (mul64 length BlockSize) :: runs, length + got)
    else (ar, [], 0)
  end.

(** Every iteration takes a block and an arena has no more than these. *)
Definition arena_fuel : nat := S (Z.to_nat BlocksPerArena).

(** The loop over the arenas; the arenas after the one that met the request
    are left alone. *)
Fixpoint alloc_loop (ars : list Arena) (need : Z) : list Arena * list Run * Z :=
  match ars with
  | [] => ([], [], 0)
  | ar :: ars' =>
    let '(ar', runs, got) := take_from arena_fuel ar need in
    if got =? need then (ar' :: ars', runs, got)
    else
      let '(ars'', runs', got') := alloc_loop ars' (need - got) in
      (ar' :: ars'', runs ++ runs', got + got')
  end.

(** Freeing one block: a block already free is a double free. *)
Definition free_block (st : Arena * Z) (b : Z) : Arena * Z :=
  if isFree st.1 b then (st.1, st.2 + 1) else (markFree st.1 b, st.2).

Definition free_in_arena (ar : Arena) (diskOff size : Z) : Arena * Z :=
  let blocks := add64 size (BlockSize - 1) / BlockSize in
  let start := (diskOff - DiskStart ar) / BlockSize in
  let '(ar', df) := foldl free_block (ar, 0) (seqZ start (Z.min blocks (BlocksPerArena - start))) in
  (if start <? hint ar' then set_hint start ar' else ar', df).

Definition holds (ar : Arena) (diskOff : Z) : bool :=
  (DiskStart ar <=? diskOff) && (diskOff <? DiskEnd ar).

Fixpoint free_loop (ars : list Arena) (diskOff size : Z) : list Arena * Z :=
  match ars with
  | [] => ([], 0)
  | ar :: ars' =>
    if holds ar diskOff then
      let '(ar', df) := free_in_arena ar diskOff size in (ar' :: ars', df)
    else let '(ars'', df) := free_loop ars' diskOff size in (ar :: ars'', df)
  end.

Definition Free (a : Allocator) (diskOff size : Z) : Allocator :=
  let '(ars, df) := free_loop (arenas a) diskOff size in
  mkAllocator ars (doubleFrees a + df) (deviceSize a).

Definition Allocate (a : Allocator) (size : Z) : Allocator * option (list Run) :=
  let want := add64 size (BlockSize - 1) / BlockSize in
  if want =? 0 then (a, Some [])
  else
    let '(ars, runs, got) := alloc_loop (arenas a) want in
    if got =? want then (set_arenas ars a, Some runs)
    else (foldl (λ a r, Free a (r_off r) (r_len r)) (set_arenas ars a) runs, None).

Definition Owns (a : Allocator) (diskOff : Z) : bool := existsb (λ ar, holds ar diskOff) (arenas a).

Definition ArenaCount (a : Allocator) : Z := Z.of_nat (length (arenas a)).

(** [LiveRatio] as the pair of block counts it divides (0/0 answers 0). *)
Definition LiveBlocks (a : Allocator) : Z * Z :=
  (foldr (λ ar c, countAllocated ar + c) 0 (arenas a), BlocksPerArena * ArenaCount a).

(** ** Rebuilding a bitmap *)

(** An arena with nothing allocated, at the place its number gives it. *)
Definition new_arena (id : Z) : Arena :=
  mkArena id (mul64 id ArenaSizeBytes) (add64 (mul64 id ArenaSizeBytes) ArenaSizeBytes)
    (replicate (Z.to_nat (BlocksPerArena / 64)) 0) 0.

Definition mark_extent (ar : Arena) (e : Extent) : Arena :=
  if WithinDisk e (DiskStart ar) (DiskEnd ar) then
    let start := (DiskOff e - DiskStart ar) / BlockSize in
    let blocks := add64 (Length e) (BlockSize - 1) / BlockSize in
    foldl markAllocated ar (seqZ start (Z.min blocks (BlocksPerArena - start)))
  else ar.

Definition markLiveExtents (ar : Arena) (extents : list Extent) : Arena := foldl mark_extent ar extents.

(** ** Facts about one arena *)

Definition arena_wf (ar : Arena) : Prop :=
  length (bitmap ar) = Z.to_nat (BlocksPerArena / 64) ∧
  Forall is_u64 (bitmap ar) ∧ 0 <= hint ar <= BlocksPerArena ∧
  DiskEnd ar = DiskStart ar + ArenaSizeBytes ∧ 0 <= DiskStart ar ∧ DiskEnd ar < 2 ^ 64.

Definition in_arena (b : Z) : Prop := 0 <= b < BlocksPerArena.

Lemma BlocksPerArena_val : BlocksPerArena = 262144.
Proof. reflexivity. Qed.

Lemma block_index b : in_arena b → (Z.to_nat (b / 64) < Z.to_nat (BlocksPerArena / 64))%nat ∧ 0 <= b mod 64 < 64.
Proof.
  unfold in_arena. change (BlocksPerArena / 64) with 4096. rewrite BlocksPerArena_val.
  intros Hb. split; [|apply Z.mod_pos_bound; lia].
  apply Z2Nat.inj_lt; [apply Z.div_pos; lia|done|]. apply Z.div_lt_upper_bound; lia.
Qed.

Lemma testbit_shiftl1 k n : 0 <= k → 0 <= n → Z.testbit (Z.shiftl 1 k) n = (n =? k).
Proof.
  intros Hk Hn. rewrite Z.shiftl_1_l. destruct (Z.eqb_spec n k) as [->|].
  - by apply Z.pow2_bits_true.
  - by apply Z.pow2_bits_false.
Qed.

Lemma isFree_testbit ar b : 0 <= b → isFree ar b = negb (Z.testbit (word (bitmap ar) (b / 64)) (b mod 64)).
Proof.
  intros Hb. unfold isFree. pose proof (Z.mod_pos_bound b 64 ltac:(lia)).
  destruct (Z.testbit (word (bitmap ar) (b / 64)) (b mod 64)) eqn:E; simpl.
  - apply Z.eqb_neq. intros H0. apply (f_equal (λ z, Z.testbit z (b mod 64))) in H0.
    by rewrite Z.land_spec, E, testbit_shiftl1, Z.bits_0, Z.eqb_refl in H0 by lia.
  - apply Z.eqb_eq. apply Z.bits_inj'. intros n Hn. rewrite Z.land_spec, Z.bits_0.
    rewrite testbit_shiftl1 by lia.
    destruct (Z.eqb_spec n (b mod 64)) as [->|]; [by rewrite E|apply andb_false_r].
Qed.

Lemma word_insert bm i j w :
  (Z.to_nat i < length bm)%nat → 0 <= i → 0 <= j →
  word (<[Z.to_nat i := w]> bm) j = if j =? i then w else word bm j.
Proof.
  intros Hi Hi0 Hj0. unfold word. destruct (Z.eqb_spec j i) as [->|Hne].
  - by rewrite list_lookup_insert_eq.
  - rewrite list_lookup_insert_ne; [done|]. intros ?%Z2Nat.inj; lia.
Qed.

Lemma mod_div_ne b c : c ≠ b → c / 64 = b / 64 → c mod 64 ≠ b mod 64.
Proof. intros Hne Hd Hm. pose proof (Z.div_mod c 64). pose proof (Z.div_mod b 64). lia. Qed.

Lemma isFree_markAllocated ar b c :
  arena_wf ar → in_arena b → in_arena c →
  isFree (markAllocated ar b) c = negb (c =? b) && isFree ar c.
Proof.
  intros (Hl & _) Hb Hc. pose proof (block_index b Hb) as [Hi Hm]. pose proof (block_index c Hc) as [_ Hmc].
  unfold in_arena in *. rewrite !isFree_testbit by lia. unfold markAllocated. cbn [bitmap set_bitmap].
  rewrite word_insert by (try lia; apply Z.div_pos; lia).
  destruct (Z.eqb_spec c b) as [->|Hne]; simpl.
  - by rewrite Z.eqb_refl, Z.lor_spec, testbit_shiftl1, Z.eqb_refl, orb_true_r by lia.
  - destruct (Z.eqb_spec (c / 64) (b / 64)) as [Hd|]; [|done].
    rewrite Z.lor_spec, testbit_shiftl1, Hd by lia.
    rewrite (proj2 (Z.eqb_neq (c mod 64) (b mod 64))) by by apply mod_div_ne. by rewrite orb_false_r.
Qed.

Lemma isFree_markFree ar b c :
  arena_wf ar → in_arena b → in_arena c → isFree (markFree ar b) c = (c =? b) || isFree ar c.
Proof.
  intros (Hl & _) Hb Hc. pose proof (block_index b Hb) as [Hi Hm]. pose proof (block_index c Hc) as [_ Hmc].
  unfold in_arena in *. rewrite !isFree_testbit by lia. unfold markFree. cbn [bitmap set_bitmap].
  rewrite word_insert by (try lia; apply Z.div_pos; lia).
  destruct (Z.eqb_spec c b) as [->|Hne]; simpl.
  - by rewrite Z.eqb_refl, Z.ldiff_spec, testbit_shiftl1, Z.eqb_refl, andb_false_r by lia.
  - destruct (Z.eqb_spec (c / 64) (b / 64)) as [Hd|]; [|done].
    rewrite Z.ldiff_spec, testbit_shiftl1, Hd by lia.
    rewrite (proj2 (Z.eqb_neq (c mod 64) (b mod 64))) by by apply mod_div_ne. by rewrite andb_true_r.
Qed.

Lemma u64_bits w n : is_u64 w → 64 <= n → Z.testbit w n = false.
Proof.
  intros [? ?] Hn. destruct (decide (w = 0)) as [->|]; [apply Z.bits_0|].
  apply Z.bits_above_log2; [lia|]. assert (Z.log2 w < 64); [|lia]. apply Z.log2_lt_pow2; lia.
Qed.

Lemma u64_of_bits w : 0 <= w → (∀ n, 64 <= n → Z.testbit w n = false) → is_u64 w.
Proof.
  intros H0 Hb. split; [done|]. destruct (decide (w = 0)) as [->|]; [lia|].
  apply Z.log2_lt_pow2; [lia|]. apply Z.nle_gt. intros Hge.
  specialize (Hb _ Hge). rewrite Z.bit_log2 in Hb; [done|lia].
Qed.

Lemma word_u64 bm i : Forall is_u64 bm → is_u64 (word bm i).
Proof.
  intros H. unfold word.
  destruct (bm !! Z.to_nat i) as [w|] eqn:E; [by eapply Forall_lookup_1|]. unfold is_u64; simpl; lia.
Qed.

Lemma markAllocated_wf ar b : arena_wf ar → in_arena b → arena_wf (markAllocated ar b).
Proof.
  intros (Hl & Hu & Hh & Hd) Hb. pose proof (block_index b Hb) as [_ Hm].
  pose proof (word_u64 (bitmap ar) (b / 64) Hu) as Hw.
  split; [cbn; by rewrite length_insert|]. split; [|done]. cbn. apply Forall_insert; [done|].
  apply u64_of_bits; [apply Z.lor_nonneg; split; [apply Hw|by apply Z.shiftl_nonneg]|].
  intros n Hn. rewrite Z.lor_spec, testbit_shiftl1, (u64_bits _ _ Hw Hn) by lia.
  simpl. apply Z.eqb_neq. lia.
Qed.

Lemma markFree_wf ar b : arena_wf ar → in_arena b → arena_wf (markFree ar b).
Proof.
  intros (Hl & Hu & Hh & Hd) Hb. pose proof (word_u64 (bitmap ar) (b / 64) Hu) as Hw.
  split; [cbn; by rewrite length_insert|]. split; [|done]. cbn. apply Forall_insert; [done|].
  apply u64_of_bits; [apply Z.ldiff_nonneg; left; apply Hw|].
  intros n Hn. by rewrite Z.ldiff_spec, (u64_bits _ _ Hw Hn).
Qed.
