(* ===== verification/AllocatorProps.v ===== *)
(** * Properties of the block allocator

    The abstract view of an allocator is the set of device bytes that are taken
    ([taken]) and available ([avail]).  Allocation takes exactly the blocks it
    returns, all of them available before, or changes nothing; freeing returns
    exactly the blocks named; a bitmap rebuilt from extents never offers a block
    an extent occupies. *)

From S2P Require Import Prelude Etcd EtcdFacts Schema Store Extents Allocator.

#[local] Opaque BlocksPerArena.

(** ** Marking and freeing a list of blocks *)

Lemma mark_blocks bs ar :
  arena_wf ar → Forall in_arena bs →
  arena_wf (foldl markAllocated ar bs) ∧
  (∀ c, in_arena c → isFree (foldl markAllocated ar bs) c = negb (bool_decide (c ∈ bs)) && isFree ar c) ∧
  DiskStart (foldl markAllocated ar bs) = DiskStart ar ∧
  DiskEnd (foldl markAllocated ar bs) = DiskEnd ar ∧ ID (foldl markAllocated ar bs) = ID ar.
Proof.
  revert ar. induction bs as [|b bs IH]; intros ar Hw Hb; simpl.
  { split; [done|]. split; [|done]. intros c _. done. }
  inversion Hb as [|? ? Hb1 Hb2]; subst.
  destruct (IH (markAllocated ar b)) as (Hw' & Hf & ? & ? & ?); [by apply markAllocated_wf|done|].
  split; [done|]. split; [|done]. intros c Hc. rewrite Hf, isFree_markAllocated by done.
  rewrite andb_assoc. f_equal. rewrite <- negb_orb. f_equal.
  destruct (Z.eqb_spec c b) as [->|Hne].
  - rewrite orb_true_r. symmetry. apply bool_decide_eq_true_2. left.
  - rewrite orb_false_r. apply bool_decide_ext. rewrite elem_of_cons. naive_solver.
Qed.

Lemma filter_ext_in {A} (P Q : A → Prop) `{∀ x, Decision (P x), ∀ x, Decision (Q x)} (l : list A) :
  (∀ x, x ∈ l → P x ↔ Q x) → filter P l = filter Q l.
Proof.
  induction l as [|x l IH]; intros Hpq; [done|]. rewrite !filter_cons.
  pose proof (Hpq x ltac:(left)). rewrite IH by (intros; apply Hpq; by right).
  by destruct (decide (P x)), (decide (Q x)); try tauto.
Qed.

Lemma filter_none {A} (P : A → Prop) `{∀ x, Decision (P x)} (l : list A) :
  (∀ x, x ∈ l → ¬ P x) → filter P l = [].
Proof.
  induction l as [|x l IH]; intros Hp; [done|].
  rewrite filter_cons_False by (apply Hp; left). apply IH. intros. apply Hp. by right.
Qed.

Lemma free_blocks bs ar k :
  arena_wf ar → Forall in_arena bs → NoDup bs →
  let '(ar', k') := foldl free_block (ar, k) bs in
  arena_wf ar' ∧ k' = k + Z.of_nat (length (filter (λ b, isFree ar b = true) bs)) ∧
  (∀ c, in_arena c → isFree ar' c = bool_decide (c ∈ bs) || isFree ar c) ∧
  DiskStart ar' = DiskStart ar ∧ DiskEnd ar' = DiskEnd ar ∧ ID ar' = ID ar ∧ hint ar' = hint ar.
Proof.
  revert ar k. induction bs as [|b bs IH]; intros ar k Hw Hb Hnd; simpl.
  { split; [done|]. split; [simpl; lia|]. split; [|done]. intros c _. done. }
  inversion Hb as [|? ? Hb1 Hb2]; subst. apply NoDup_cons in Hnd as [Hnin Hnd].
  assert (∀ c, c ≠ b → bool_decide (c ∈ b :: bs) = bool_decide (c ∈ bs)) as Hne.
  { intros c Hc. apply bool_decide_ext. rewrite elem_of_cons. naive_solver. }
  unfold free_block at 2. cbn [fst snd]. destruct (isFree ar b) eqn:Ey.
  - specialize (IH ar (k + 1) Hw Hb2 Hnd). destruct (foldl free_block (ar, k + 1) bs) as [ar' k'].
    destruct IH as (Hw' & Hk & Hf & Hrest). split; [done|].
    split; [rewrite filter_cons_True by done; simpl; lia|]. split; [|done].
    intros c Hc. rewrite Hf by done. destruct (decide (c = b)) as [->|Hcb]; [|by rewrite Hne].
    by rewrite Ey, !orb_true_r.
  - specialize (IH (markFree ar b) k (markFree_wf _ _ Hw Hb1) Hb2 Hnd).
    destruct (foldl free_block (markFree ar b, k) bs) as [ar' k'].
    destruct IH as (Hw' & Hk & Hf & Hrest). split; [done|]. split; [|split; [|done]].
    + rewrite filter_cons_False by (rewrite Ey; done). rewrite Hk. do 3 f_equal.
      apply filter_ext_in. intros c Hc. rewrite Forall_forall in Hb2.
      rewrite isFree_markFree by auto. rewrite (proj2 (Z.eqb_neq c b)) by congruence. done.
    + intros c Hc. rewrite Hf, isFree_markFree by done. destruct (Z.eqb_spec c b) as [->|Hcb]; [|by rewrite Hne].
      rewrite (bool_decide_eq_true_2 (b ∈ b :: bs)) by left. by rewrite orb_true_r.
Qed.

Lemma seqZ_in_arena s l : 0 <= s → s + l <= BlocksPerArena → Forall in_arena (seqZ s l).
Proof. intros. apply Forall_forall. intros x Hx%elem_of_seqZ. unfold in_arena. lia. Qed.

(** ** Searching for a run *)

Lemma run_length_spec ar fuel i to max :
  (Z.of_nat fuel = Z.max 0 (to - i)) → 0 <= max →
  let l := run_length ar fuel i to max in
  0 <= l <= max ∧ l <= Z.max 0 (to - i) ∧ (∀ c, i <= c < i + l → isFree ar c = true) ∧
  (0 < max → i < to → isFree ar i = true → 0 < l).
Proof.
  revert i max. induction fuel as [|f IH]; intros i max Hf Hm; simpl.
  { split; [lia|]. split; [lia|]. split; [lia|]. lia. }
  destruct ((0 <? max) && (i <? to) && isFree ar i) eqn:E.
  - zbool. destruct (IH (i + 1) (max - 1)) as (Hr1 & Hr2 & Hr3 & _); [lia|lia|].
    split; [lia|]. split; [lia|]. split; [|lia].
    intros c Hc. destruct (decide (c = i)) as [->|]; [done|]. apply Hr3. lia.
  - split; [lia|]. split; [lia|]. split; [lia|]. intros Ha Hb Hc.
    rewrite Hc, (proj2 (Z.ltb_lt 0 max)), (proj2 (Z.ltb_lt i to)) in E by lia. done.
Qed.

Lemma allones_busy ar i c :
  0 <= i → word (bitmap ar) (i / 64) = allones → i <= c < (i / 64 + 1) * 64 → isFree ar c = false.
Proof.
  intros Hi Hw Hc. rewrite isFree_testbit by lia.
  assert (c / 64 = i / 64) as -> by dlia. rewrite Hw. pose proof (Z.mod_pos_bound c 64 ltac:(lia)).
  unfold allones. change (2 ^ 64 - 1) with (Z.ones 64). by rewrite Z.ones_spec_low.
Qed.

Definition run_found (ar : Arena) (from to max : Z) (r : Z * Z) : Prop :=
  (0 < r.2 <= max ∧ from <= r.1 ∧ r.1 + r.2 <= to ∧ ∀ c, r.1 <= c < r.1 + r.2 → isFree ar c = true) ∨
  (r.2 = 0 ∧ ∀ c, from <= c < to → isFree ar c = false).

Lemma find_run_in_spec ar fuel i to max :
  0 <= i → 0 < max → to - i < Z.of_nat fuel →
  run_found ar i to max (find_run_in ar fuel i to max).
Proof.
  intros Hi Hm. revert i Hi. induction fuel as [|f IH]; intros i Hi Hf;
    [right; split; [done|simpl in *; lia]|].
  cbn [find_run_in]. destruct (Z.ltb_spec i to); [|right; split; [done|lia]].
  assert (∀ j, i < j → 0 <= j → (∀ c, i <= c < j → isFree ar c = false) →
    run_found ar i to max (find_run_in ar f j to max)) as Hskip.
  { intros j Hj Hj0 Hb. assert (to - j < Z.of_nat f) as Hfj by lia. destruct (IH j Hj0 Hfj) as [(? & ? & ? & ?)|[? Hn]];
      [left; repeat (split; [lia|]); done|right]. split; [done|].
    intros c Hc. destruct (decide (c < j)); [apply Hb; lia|apply Hn; lia]. }
  destruct (Z.eqb_spec (word (bitmap ar) (i / 64)) allones) as [Hw|_].
  { apply Hskip; [dlia|dlia|]. intros c Hc. by apply (allones_busy _ i). }
  destruct (isFree ar i) eqn:Ei; simpl.
  - left. cbn [fst snd].
    destruct (run_length_spec ar (Z.to_nat (to - i)) i to max) as (H1 & H2 & H3 & H4); [lia|lia|].
    split; [split; [by apply H4|lia]|]. split; [lia|]. split; [lia|done].
  - apply Hskip; [lia|lia|]. intros c Hc. assert (c = i) as -> by lia. done.
Qed.

Lemma findRun_spec ar max :
  arena_wf ar → 0 < max →
  let '(ar', r) := findRun ar max in
  arena_wf ar' ∧ bitmap ar' = bitmap ar ∧ DiskStart ar' = DiskStart ar ∧ DiskEnd ar' = DiskEnd ar ∧
  ID ar' = ID ar ∧ run_found ar 0 BlocksPerArena max r.
Proof.
  intros (Hl & Hu & Hh & Hd) Hm. unfold findRun, findRunIn.
  pose proof (find_run_in_spec ar (S (Z.to_nat (BlocksPerArena - hint ar))) (hint ar) BlocksPerArena max
    ltac:(lia) Hm ltac:(lia)) as H1.
  destruct (find_run_in ar _ (hint ar) BlocksPerArena max) as [s1 l1].
  destruct H1 as [(Hl1 & ? & ? & Hfr)|[Hl1 Hn1]]; cbn [fst snd] in *.
  { rewrite (proj2 (Z.ltb_lt 0 l1)) by lia. split; [by repeat split; cbn; try lia|].
    repeat (split; [done|]). left. cbn. repeat (split; [lia|]). done. }
  rewrite Hl1, Z.ltb_irrefl.
  pose proof (find_run_in_spec ar (S (Z.to_nat (hint ar - 0))) 0 (hint ar) max
    ltac:(lia) Hm ltac:(lia)) as H2.
  destruct (find_run_in ar _ 0 (hint ar) max) as [s2 l2].
  destruct H2 as [(Hl2 & ? & ? & Hfr)|[Hl2 Hn2]]; cbn [fst snd] in *.
  { rewrite (proj2 (Z.ltb_lt 0 l2)) by lia. split; [by repeat split; cbn; try lia|].
    repeat (split; [done|]). left. cbn. repeat (split; [lia|]). done. }
  rewrite Hl2, Z.ltb_irrefl. split; [done|]. repeat (split; [done|]). right. split; [done|].
  intros c Hc. destruct (decide (c < hint ar)); [apply Hn2; lia|apply Hn1; lia].
Qed.

(** ** The abstract view *)

Definition block_of (ar : Arena) (d : Z) : Z := (d - DiskStart ar) / BlockSize.
Definition taken_in (ar : Arena) (d : Z) : Prop := holds ar d = true ∧ isFree ar (block_of ar d) = false.
Definition avail_in (ar : Arena) (d : Z) : Prop := holds ar d = true ∧ isFree ar (block_of ar d) = true.
Definition in_run (r : Run) (d : Z) : Prop := r_off r <= d < r_off r + r_len r.
Definition in_runs (rs : list Run) (d : Z) : Prop := ∃ r, r ∈ rs ∧ in_run r d.
Definition run_disjoint (r1 r2 : Run) : Prop := ∀ d, ¬ (in_run r1 d ∧ in_run r2 d).
Definition runs_total (rs : list Run) : Z := foldr (λ r t, r_len r + t) 0 rs.
Definition same_place (ar ar' : Arena) : Prop :=
  DiskStart ar' = DiskStart ar ∧ DiskEnd ar' = DiskEnd ar ∧ ID ar' = ID ar.

(** A run that is a whole number of blocks of one arena. *)
Definition run_in (ar : Arena) (r : Run) : Prop :=
  ∃ s l, 0 <= s ∧ 0 < l ∧ s + l <= BlocksPerArena ∧
         r = mkRun (DiskStart ar + s * BlockSize) (l * BlockSize).

Lemma holds_block ar d : arena_wf ar → holds ar d = true ↔ in_arena (block_of ar d).
Proof.
  intros (_ & _ & _ & He & H0 & _). unfold holds, in_arena, block_of. rewrite He.
  change BlocksPerArena with 262144. unfold ArenaSizeBytes, BlockSize.
  rewrite andb_true_iff, Z.leb_le, Z.ltb_lt. split; intros H; dlia.
Qed.

Lemma in_run_block ar s l d :
  in_run (mkRun (DiskStart ar + s * BlockSize) (l * BlockSize)) d ↔ s <= block_of ar d < s + l.
Proof. unfold in_run, block_of, BlockSize. simpl. split; intros H; dlia. Qed.

Lemma runs_total_app l1 l2 : runs_total (l1 ++ l2) = runs_total l1 + runs_total l2.
Proof. induction l1 as [|r l1 IH]; simpl; lia. Qed.

Lemma in_runs_cons r rs d : in_runs (r :: rs) d ↔ in_run r d ∨ in_runs rs d.
Proof.
  unfold in_runs. split.
  - intros (r' & [->|Hin]%elem_of_cons & Hd); [by left|right; eauto].
  - intros [Hd|(r' & Hin & Hd)]; [exists r; split; [left|done]|exists r'; split; [by right|done]].
Qed.

Lemma in_runs_app l1 l2 d : in_runs (l1 ++ l2) d ↔ in_runs l1 d ∨ in_runs l2 d.
Proof. unfold in_runs. setoid_rewrite elem_of_app. naive_solver. Qed.

(** ** Taking runs from one arena *)

Definition free_count (ar : Arena) : nat :=
  length (filter (λ b, isFree ar b = true) (seqZ 0 BlocksPerArena)).

Lemma free_count_bound ar : (free_count ar < arena_fuel)%nat.
Proof.
  unfold free_count, arena_fuel. pose proof (length_filter (λ b, isFree ar b = true) (seqZ 0 BlocksPerArena)).
  rewrite length_seqZ in *. lia.
Qed.

Lemma free_count_decr ar ar' c :
  in_arena c → isFree ar c = true → isFree ar' c = false →
  (∀ b, in_arena b → isFree ar' b = true → isFree ar b = true) →
  (free_count ar' < free_count ar)%nat.
Proof.
  intros Hc Hf Hf' Hsub. unfold free_count. 
  assert (∀ l, Forall in_arena l →
    (length (filter (λ b, isFree ar' b = true) l) <= length (filter (λ b, isFree ar b = true) l))%nat ∧
    (c ∈ l → (length (filter (λ b, isFree ar' b = true) l) < length (filter (λ b, isFree ar b = true) l))%nat)) as H.
  { induction l as [|b l IH]; intros Hl; [split; [done|by inversion 1]|].
    inversion Hl as [|? ? Hb Hl']; subst. destruct (IH Hl') as [IH1 IH2].
    rewrite !filter_cons. specialize (Hsub b Hb).
    destruct (decide (isFree ar' b = true)), (decide (isFree ar b = true)); simpl; split; try lia;
      try (intros [->|Hin]%elem_of_cons); try (specialize (IH2 Hin); lia); try congruence; try lia; auto.
    all: exfalso; auto. }
  apply H; [apply seqZ_in_arena; lia|]. apply elem_of_seqZ. unfold in_arena in Hc. lia.
Qed.

Definition take_ok (ar : Arena) (need : Z) (out : Arena * list Run * Z) : Prop :=
  let '(ar', runs, got) := out in
  arena_wf ar' ∧ same_place ar ar' ∧ 0 <= got <= need ∧ runs_total runs = got * BlockSize ∧
  Forall (run_in ar) runs ∧ StronglySorted run_disjoint runs ∧
  (∀ d, in_runs runs d → avail_in ar d) ∧
  (∀ d, taken_in ar' d ↔ taken_in ar d ∨ in_runs runs d) ∧
  (got < need → ∀ d, ¬ avail_in ar' d).

Lemma take_ok_nil ar ar' need :
  arena_wf ar' → same_place ar ar' → 0 <= need → bitmap ar' = bitmap ar →
  (0 < need → ∀ d, ¬ avail_in ar' d) → take_ok ar need (ar', [], 0).
Proof.
  intros Hw Hs Hn Hb Hf. pose proof Hs as (E1 & E2 & E3).
  unfold take_ok. split; [done|]. split; [done|]. split; [lia|]. split; [done|].
  split; [done|]. split; [constructor|]. split; [by intros d (r & Hr & _); inversion Hr|].
  split; [|done]. intros d. unfold taken_in, holds, block_of, isFree. rewrite E1, E2, Hb.
  split; [by left|]. intros [?|(r & Hr & _)]; [done|by inversion Hr].
Qed.

(** Taking the blocks [s .. s + l) of an arena in which they are all free. *)
Lemma take_run ar ar1 s l :
  arena_wf ar1 → bitmap ar1 = bitmap ar → same_place ar ar1 → 0 < l → 0 <= s → s + l <= BlocksPerArena →
  (∀ c, s <= c < s + l → isFree ar c = true) →
  let ar2 := foldl markAllocated ar1 (seqZ s l) in
  let r := mkRun (DiskStart ar + s * BlockSize) (l * BlockSize) in
  arena_wf ar2 ∧ same_place ar ar2 ∧ (free_count ar2 < free_count ar)%nat ∧
  (∀ d, in_run r d → avail_in ar d) ∧
  (∀ d, taken_in ar2 d ↔ taken_in ar d ∨ in_run r d) ∧
  (∀ d, avail_in ar2 d → avail_in ar d ∧ ¬ in_run r d).
Proof.
  intros Hw1 Hb1 (Hs1 & Hd1 & Hi1) Hl Hs0 Hsl Hfree ar2 r.
  destruct (mark_blocks (seqZ s l) ar1) as (Hw2 & Hf2 & Hs2 & Hd2 & Hi2); [done|by apply seqZ_in_arena|].
  fold ar2 in Hw2, Hf2, Hs2, Hd2, Hi2.
  assert (∀ c, in_arena c → isFree ar2 c = negb (bool_decide (s <= c < s + l)) && isFree ar c) as Hf.
  { intros c Hc. rewrite Hf2 by done. f_equal; [|unfold isFree; by rewrite Hb1].
    f_equal. apply bool_decide_ext. rewrite elem_of_seqZ. lia. }
  assert (∀ d, holds ar2 d = holds ar d) as Hhs by (intros; unfold holds; congruence).
  assert (∀ d, block_of ar2 d = block_of ar d) as Hbo by (intros; unfold block_of; congruence).
  assert (∀ d, holds ar d = true ↔ in_arena (block_of ar d)) as Hhb.
  { intros d. rewrite <- Hhs, <- Hbo. by apply holds_block. }
  assert (∀ d, in_run r d ↔ s <= block_of ar d < s + l) as Hr by (intros d; apply in_run_block).
  split; [done|]. split; [unfold same_place; repeat split; congruence|].
  split; [|split; [|split]]; [|intros d Hd%Hr|intros d|intros d].
  - assert (in_arena s) by (unfold in_arena; lia).
    apply (free_count_decr _ _ s); [done|apply Hfree; lia| |].
    + by rewrite Hf, bool_decide_eq_true_2 by (done || lia).
    + intros b Hb. rewrite Hf by done. by intros [_ ?]%andb_true_iff.
  - split; [apply Hhb; unfold in_arena; lia|]. apply Hfree. lia.
  - unfold taken_in. rewrite Hhs, Hbo, Hr. split.
    + intros [Hh Hx]. rewrite Hf in Hx by by apply Hhb. case_bool_decide; [by right|by left].
    + intros [[Hh Hx]|Hd].
      * split; [done|]. rewrite Hf, Hx by by apply Hhb. apply andb_false_r.
      * assert (in_arena (block_of ar d)) as Hia by (unfold in_arena; lia).
        split; [by apply Hhb|]. by rewrite Hf, bool_decide_eq_true_2.
  - unfold avail_in. rewrite Hhs, Hbo, Hr. intros [Hh Hx]. rewrite Hf in Hx by by apply Hhb.
    case_bool_decide; done.
Qed.

Lemma take_from_spec fuel ar need :
  arena_wf ar → 0 <= need → (free_count ar < fuel)%nat → take_ok ar need (take_from fuel ar need).
Proof.
  revert ar need. induction fuel as [|f IH]; intros ar need Hw Hn Hfuel; [lia|].
  cbn [take_from]. destruct (Z.ltb_spec 0 need) as [Hpos|]; [|by apply take_ok_nil; try lia].
  pose proof (findRun_spec ar need Hw Hpos) as Hfr.
  destruct (findRun ar need) as [ar1 [s l]]. destruct Hfr as (Hw1 & Hb1 & Hs1 & Hd1 & Hi1 & Hfound).
  destruct Hfound as [(Hl & Hs0 & Hsl & Hfree)|[Hl Hnone]]; cbn [fst snd] in *.
  2:{ rewrite Hl, Z.eqb_refl. apply take_ok_nil; try done; try lia.
      intros _ d [Hh Hf]. apply holds_block in Hh; [|done]. unfold isFree in Hf. rewrite Hb1 in Hf.
      fold (isFree ar (block_of ar1 d)) in Hf. rewrite Hnone in Hf; [done|]. unfold in_arena in Hh. lia. }
  rewrite (proj2 (Z.eqb_neq l 0)) by lia.
  destruct (take_run ar ar1 s l) as (Hw2 & Hp2 & Hfc & Hrav & Htk2 & Hav2); try done; try lia.
  set (ar2 := foldl markAllocated ar1 (seqZ s l)) in *.
  specialize (IH ar2 (need - l) Hw2 ltac:(lia) ltac:(lia)).
  destruct (take_from f ar2 (need - l)) as [[ar' runs] got].
  destruct IH as (Hw' & (Ha & Hb & Hc) & Hgot & Htot & Hin & Hsort & Hav & Htk & Hfull).
  pose proof Hp2 as (Eds & Ede & Eid). rewrite Eds.
  assert (add64 (DiskStart ar) (mul64 s BlockSize) = DiskStart ar + s * BlockSize ∧
          mul64 l BlockSize = l * BlockSize) as [-> ->].
  { destruct Hw as (_ & _ & _ & He & H0 & H1). rewrite BlocksPerArena_val in Hsl.
    unfold ArenaSizeBytes, BlockSize in *. rewrite !mul64_small, add64_small by lia. done. }
  unfold take_ok. split; [done|]. split; [unfold same_place; repeat split; congruence|]. split; [lia|].
  split; [simpl; rewrite Htot; lia|].
  split. { constructor; [exists s, l; repeat (split; [lia|]); done|].
           eapply Forall_impl; [exact Hin|]. intros x (s' & l' & ? & ? & ? & ->). exists s', l'. by rewrite Eds. }
  split. { constructor; [done|]. apply Forall_forall. intros x Hx d [H1 H2].
           destruct (Hav2 d) as [_ Hno]; [apply Hav; by exists x|]. done. }
  split. { intros d [?|?]%in_runs_cons; [auto|by apply Hav2, Hav]. }
  split. { intros d. rewrite Htk, Htk2, in_runs_cons. tauto. }
  intros Hlt. apply Hfull. lia.
Qed.

(** ** Taking runs from several arenas *)

Definition arenas_wf (ars : list Arena) : Prop :=
  Forall arena_wf ars ∧
  StronglySorted (λ a1 a2, ∀ d, holds a1 d = true → holds a2 d = false) ars.
Definition taken (ars : list Arena) (d : Z) : Prop := ∃ ar, ar ∈ ars ∧ taken_in ar d.
Definition avail (ars : list Arena) (d : Z) : Prop := ∃ ar, ar ∈ ars ∧ avail_in ar d.

Lemma taken_cons ar ars d : taken (ar :: ars) d ↔ taken_in ar d ∨ taken ars d.
Proof. unfold taken. setoid_rewrite elem_of_cons. naive_solver. Qed.
Lemma avail_cons ar ars d : avail (ar :: ars) d ↔ avail_in ar d ∨ avail ars d.
Proof. unfold avail. setoid_rewrite elem_of_cons. naive_solver. Qed.

Lemma same_place_holds ar ar' d : same_place ar ar' → holds ar' d = holds ar d.
Proof. intros (H1 & H2 & _). unfold holds. by rewrite H1, H2. Qed.

Lemma same_places_wf ars ars' :
  Forall2 same_place ars ars' → Forall arena_wf ars' → arenas_wf ars → arenas_wf ars'.
Proof.
  intros H2 Hw [_ Hs]. split; [done|]. clear Hw.
  induction H2 as [|a a' l l' Ha Hl IH]; [constructor|].
  inversion Hs as [|? ? Hs1 Hf1]; subst. constructor; [by apply IH|].
  rewrite Forall_forall in Hf1 |- *. intros x' Hx' d Hd.
  rewrite (same_place_holds _ _ _ Ha) in Hd. apply list_elem_of_lookup in Hx' as [i Hi].
  destruct (Forall2_lookup_r _ _ _ _ _ Hl Hi) as (x & Hx & Hsp).
  rewrite (same_place_holds _ _ _ Hsp). apply Hf1; [|done]. by apply list_elem_of_lookup_2 in Hx.
Qed.

Lemma same_places_refl ars : Forall2 same_place ars ars.
Proof. induction ars; constructor; done. Qed.

Lemma same_places_trans l1 l2 l3 : Forall2 same_place l1 l2 → Forall2 same_place l2 l3 → Forall2 same_place l1 l3.
Proof.
  intros H. revert l3. induction H as [|x y l l' (?&?&?) Hl IH]; intros l3 H3; inversion H3 as [|? z ? ? (?&?&?)]; subst;
    constructor; [repeat split; congruence|by apply IH].
Qed.

Definition alloc_ok (ars : list Arena) (need : Z) (out : list Arena * list Run * Z) : Prop :=
  let '(ars', runs, got) := out in
  Forall arena_wf ars' ∧ Forall2 same_place ars ars' ∧ 0 <= got <= need ∧
  runs_total runs = got * BlockSize ∧ Forall (λ r, ∃ ar, ar ∈ ars ∧ run_in ar r) runs ∧
  StronglySorted run_disjoint runs ∧ (∀ d, in_runs runs d → avail ars d) ∧
  (∀ d, taken ars' d ↔ taken ars d ∨ in_runs runs d) ∧
  (got < need → ∀ d, ¬ avail ars' d).

Lemma StronglySorted_app_2 {A} (R : A → A → Prop) l1 l2 :
  StronglySorted R l1 → StronglySorted R l2 → (∀ x y, x ∈ l1 → y ∈ l2 → R x y) → StronglySorted R (l1 ++ l2).
Proof.
  induction 1 as [|x l Hl IH Hx]; intros H2 Hc; simpl; [done|]. constructor.
  - apply IH; [done|]. intros. apply Hc; [by right|done].
  - apply Forall_app. split; [done|]. apply Forall_forall. intros y Hy. apply Hc; [left|done].
Qed.

Lemma alloc_loop_spec ars need :
  arenas_wf ars → 0 <= need → alloc_ok ars need (alloc_loop ars need).
Proof.
  revert need. induction ars as [|ar ars IH]; intros need [Hw Hs] Hn.
  { simpl. split; [done|]. split; [done|]. split; [lia|]. split; [done|]. split; [done|].
    split; [constructor|]. split; [by intros d (r & Hr & _); inversion Hr|]. split; [|by intros _ d (a & Ha & _); inversion Ha].
    intros d. split; [by left|]. intros [?|(r & Hr & _)]; [done|inversion Hr]. }
  inversion Hw as [|? ? Hw1 Hw2]; inversion Hs as [|? ? Hs2 Hs1]; subst. cbn [alloc_loop].
  pose proof (take_from_spec arena_fuel ar need Hw1 Hn (free_count_bound ar)) as Ht.
  destruct (take_from arena_fuel ar need) as [[ar' runs] got].
  destruct Ht as (Ha & Hp & Hgot & Htot & Hin & Hsort & Hav & Htk & Hfull).
  assert (∀ P : Arena → Prop, P ar → ∃ a, a ∈ ar :: ars ∧ P a) as Hhd by (intros; exists ar; split; [left|done]).
  destruct (Z.eqb_spec got need) as [->|Hne].
  { split; [by constructor|]. split; [constructor; [done|apply same_places_refl]|]. split; [lia|].
    split; [done|]. split; [eapply Forall_impl; [exact Hin|]; intros; by apply Hhd|].
    split; [done|]. split; [intros d Hd; apply Hhd; auto|]. split; [|lia].
    intros d. rewrite !taken_cons, Htk. tauto. }
  specialize (IH (need - got) (conj Hw2 Hs2) ltac:(lia)).
  destruct (alloc_loop ars (need - got)) as [[ars' runs'] got'].
  destruct IH as (Ia & Ip & Igot & Itot & Iin & Isort & Iav & Itk & Ifull).
  split; [by constructor|]. split; [by constructor|]. split; [lia|].
  split; [rewrite runs_total_app; lia|].
  split. { apply Forall_app. split; (eapply Forall_impl; [first [exact Hin|exact Iin]|]); [intros; by apply Hhd|].
           intros r (a & Ha' & Hr). exists a. split; [by right|done]. }
  split. { apply StronglySorted_app_2; [done|done|]. intros x y Hx Hy d [H1 H2].
           destruct (Hav d) as [Hh _]; [by exists x|]. destruct (Iav d) as (a & Ha' & Hh2 & _); [by exists y|].
           rewrite Forall_forall in Hs1. rewrite (Hs1 a Ha' d Hh) in Hh2. done. }
  split. { intros d [Hd|Hd]%in_runs_app; rewrite avail_cons; auto. }
  split. { intros d. rewrite !taken_cons, in_runs_app, Htk, Itk. tauto. }
  intros Hlt d. rewrite avail_cons. intros [Hd|Hd]; [by apply (Hfull ltac:(lia) d)|by apply (Ifull ltac:(lia) d)].
Qed.

(** ** Freeing *)

(** The blocks that [Free a off size] names: [size] rounded up to whole blocks. *)
Definition freed_run (off size : Z) : Run := mkRun off ((size + (BlockSize - 1)) / BlockSize * BlockSize).

(** The number of the run's blocks that the arena already has free. *)
Definition already_free (ar : Arena) (r : Run) : Z :=
  Z.of_nat (length (filter (λ b, isFree ar b = true) (seqZ (block_of ar (r_off r)) (r_len r / BlockSize)))).

Lemma free_in_arena_spec ar off size :
  arena_wf ar → 0 < size → is_u64 (size + (BlockSize - 1)) → run_in ar (freed_run off size) →
  let '(ar', df) := free_in_arena ar off size in
  arena_wf ar' ∧ same_place ar ar' ∧ df = already_free ar (freed_run off size) ∧
  (∀ d, taken_in ar' d ↔ taken_in ar d ∧ ¬ in_run (freed_run off size) d) ∧
  (∀ d, avail_in ar' d ↔ avail_in ar d ∨ in_run (freed_run off size) d).
Proof.
  intros Hw Hsz Hu (s & l & Hs0 & Hl0 & Hsl & Er). unfold free_in_arena, add64.
  rewrite wrap64_small by done. unfold freed_run in *. injection Er as Eo El.
  assert ((size + (BlockSize - 1)) / BlockSize = l) as El' by (unfold BlockSize in *; lia).
  rewrite El'. assert ((off - DiskStart ar) / BlockSize = s) as Es.
  { rewrite Eo. unfold BlockSize. replace (DiskStart ar + s * 4096 - DiskStart ar) with (s * 4096) by lia.
    by apply Z.div_mul. }
  rewrite Es. replace (Z.min l (BlocksPerArena - s)) with l by lia.
  pose proof (free_blocks (seqZ s l) ar 0 Hw (seqZ_in_arena s l Hs0 Hsl) (NoDup_seqZ _ _)) as Hfb.
  destruct (foldl free_block (ar, 0) (seqZ s l)) as [ar' df].
  destruct Hfb as (Hw' & Hk & Hf & Ha & Hb & Hc & Hh).
  set (ar'' := if s <? hint ar' then set_hint s ar' else ar').
  assert (arena_wf ar'' ∧ same_place ar ar'' ∧ bitmap ar'' = bitmap ar') as (Hw2 & Hp2 & Hbm).
  { unfold ar''. destruct Hw' as (? & ? & ? & ?). destruct (Z.ltb_spec s (hint ar')); [|done].
    split; [|done]. repeat split; cbn; try done; lia. }
  assert (∀ c, in_arena c → isFree ar'' c = bool_decide (s <= c < s + l) || isFree ar c) as Hf2.
  { intros c Hcc. unfold isFree at 1. rewrite Hbm. fold (isFree ar' c). rewrite Hf by done. f_equal.
    apply bool_decide_ext. rewrite elem_of_seqZ. lia. }
  pose proof Hp2 as (E1 & E2 & _).
  assert (∀ d, in_run (mkRun off (l * BlockSize)) d ↔ s <= block_of ar d < s + l) as Hr.
  { intros d. rewrite Eo. apply in_run_block. }
  split; [done|]. split; [done|]. split.
  { unfold already_free, block_of; cbn [r_off r_len]. rewrite Es. unfold BlockSize. by rewrite Z.div_mul, Hk by done. }
  assert (∀ d, block_of ar'' d = block_of ar d) as Hbo by (intros; unfold block_of; congruence).
  split; intros d; unfold taken_in, avail_in; rewrite (same_place_holds _ _ _ Hp2), Hbo, Hr.
  - split.
    + intros [Hh1 Hx]. pose proof Hh1 as Hh2. apply holds_block in Hh2; [|done]. rewrite Hf2 in Hx by done.
      by case_bool_decide.
    + intros [[Hh1 Hx] Hno]. split; [done|]. apply holds_block in Hh1; [|done].
      by rewrite Hf2, bool_decide_eq_false_2.
  - split.
    + intros [Hh1 Hx]. pose proof Hh1 as Hh2. apply holds_block in Hh2; [|done]. rewrite Hf2 in Hx by done.
      case_bool_decide; [by right|by left].
    + intros [[Hh1 Hx]|Hd].
      * split; [done|]. apply holds_block in Hh1; [|done]. rewrite Hf2, Hx by done. apply orb_true_r.
      * assert (in_arena (block_of ar d)) as Hia by (unfold in_arena; lia).
        split; [by apply holds_block|]. by rewrite Hf2, bool_decide_eq_true_2.
Qed.

Definition free_ok (ars : list Arena) (r : Run) (out : list Arena * Z) : Prop :=
  let '(ars', df) := out in
  arenas_wf ars' ∧ Forall2 same_place ars ars' ∧
  (∀ d, taken ars' d ↔ taken ars d ∧ ¬ in_run r d) ∧ (∀ d, avail ars' d ↔ avail ars d ∨ in_run r d) ∧
  ((∀ d, in_run r d → taken ars d) → df = 0).

Lemma taken_avail_excl ars d : arenas_wf ars → taken ars d → ¬ avail ars d.
Proof.
  intros [_ Hs] (a & Ha & Hh & Hf) (b & Hb & Hh' & Hf').
  induction Hs as [|x l Hs IH Hx]; [inversion Ha|]. rewrite Forall_forall in Hx.
  apply elem_of_cons in Ha as [->|Ha]; apply elem_of_cons in Hb as [->|Hb]; [congruence| | |by apply IH].
  - by rewrite (Hx b Hb d Hh) in Hh'.
  - by rewrite (Hx a Ha d Hh') in Hh.
Qed.

Lemma already_free_none ar r :
  arena_wf ar → run_in ar r → (∀ d, in_run r d → ¬ avail_in ar d) → already_free ar r = 0.
Proof.
  intros Hw (s & l & H1 & H2 & H3 & ->) Hno. unfold already_free, block_of; cbn [r_off r_len].
  replace (DiskStart ar + s * BlockSize - DiskStart ar) with (s * BlockSize) by lia.
  unfold BlockSize. rewrite !Z.div_mul by done.
  rewrite filter_none; [done|]. intros b Hb Hf. apply elem_of_seqZ in Hb.
  assert (block_of ar (DiskStart ar + b * BlockSize) = b) as Eb.
  { unfold block_of, BlockSize. replace (DiskStart ar + b * 4096 - DiskStart ar) with (b * 4096) by lia.
    by apply Z.div_mul. }
  apply (Hno (DiskStart ar + b * BlockSize)); [apply in_run_block; rewrite Eb; lia|].
  split; [apply holds_block; [done|]; rewrite Eb; unfold in_arena; lia|by rewrite Eb].
Qed.

Lemma free_loop_spec ars off size :
  arenas_wf ars → 0 < size → is_u64 (size + (BlockSize - 1)) →
  (∃ ar, ar ∈ ars ∧ run_in ar (freed_run off size)) →
  free_ok ars (freed_run off size) (free_loop ars off size).
Proof.
  intros Hwf Hsz Hu. induction ars as [|ar ars IH]; intros (a & Ha & Hrun); [inversion Ha|].
  pose proof Hwf as [Hw Hs]. inversion Hw as [|? ? Hw1 Hw2]; inversion Hs as [|? ? Hs2 Hs1]; subst.
  rewrite Forall_forall in Hs1. cbn [free_loop].
  assert (∀ x, arena_wf x → run_in x (freed_run off size) → ∀ d, in_run (freed_run off size) d → holds x d = true) as Hcov.
  { intros x Hx (s & l & ? & ? & ? & E) d Hd. rewrite E in Hd. apply in_run_block in Hd.
    apply holds_block; [done|]. unfold in_arena. lia. }
  assert (in_run (freed_run off size) off) as Hoff.
  { destruct Hrun as (s & l & ? & ? & ? & E). unfold in_run. rewrite E. injection E as -> _. simpl. unfold BlockSize. lia. }
  destruct (holds ar off) eqn:Eh.
  - assert (run_in ar (freed_run off size)) as Hin.
    { apply elem_of_cons in Ha as [->|Ha]; [done|]. rewrite Forall_forall in Hw2.
      pose proof (Hcov a (Hw2 a Ha) Hrun off Hoff). pose proof (Hs1 a Ha off Eh). congruence. }
    pose proof (free_in_arena_spec ar off size Hw1 Hsz Hu Hin) as Hf.
    destruct (free_in_arena ar off size) as [ar' df]. destruct Hf as (Hw' & Hp & Hdf & Htk & Hav).
    assert (Forall2 same_place (ar :: ars) (ar' :: ars)) as Hsp by (constructor; [done|apply same_places_refl]).
    split; [eapply same_places_wf; [exact Hsp|by constructor|done]|]. split; [done|].
    assert (∀ d, in_run (freed_run off size) d → ¬ taken ars d) as Hno.
    { intros d Hd (x & Hx & Hh & _). by rewrite (Hs1 x Hx d (Hcov ar Hw1 Hin d Hd)) in Hh. }
    split; [intros d; rewrite !taken_cons, Htk; specialize (Hno d); tauto|].
    split; [intros d; rewrite !avail_cons, Hav; tauto|].
    intros Hall. rewrite Hdf. apply already_free_none; [done|done|]. intros d Hd Hav'.
    apply (taken_avail_excl _ d Hwf (Hall d Hd)). apply avail_cons. by left.
  - apply elem_of_cons in Ha as [->|Ha]; [by rewrite (Hcov ar Hw1 Hrun off Hoff) in Eh|].
    specialize (IH (conj Hw2 Hs2) ltac:(eauto)). destruct (free_loop ars off size) as [ars' df].
    destruct IH as (Iw & Ip & Itk & Iav & Idf).
    assert (∀ d, in_run (freed_run off size) d → ¬ taken_in ar d) as Hno.
    { intros d Hd [Hh _]. rewrite Forall_forall in Hw2.
      pose proof (Hcov a (Hw2 a Ha) Hrun d Hd). pose proof (Hs1 a Ha d Hh). congruence. }
    assert (Forall2 same_place (ar :: ars) (ar :: ars')) as Hsp by (by constructor).
    split; [eapply same_places_wf; [exact Hsp|constructor; [done|apply Iw]|done]|]. split; [done|].
    split; [intros d; rewrite !taken_cons, Itk; specialize (Hno d); tauto|].
    split; [intros d; rewrite !avail_cons, Iav; tauto|].
    intros Hall. apply Idf. intros d Hd. specialize (Hall d Hd). apply taken_cons in Hall as [?|?]; [|done].
    by destruct (Hno d Hd).
Qed.

(** ** Undoing a partial allocation *)

Lemma run_in_place ar ar' r : same_place ar ar' → run_in ar r → run_in ar' r.
Proof. intros (E & _) (s & l & H). exists s, l. by rewrite E. Qed.

Lemma placed_in ars ars' r :
  Forall2 same_place ars ars' → (∃ ar, ar ∈ ars ∧ run_in ar r) → ∃ ar, ar ∈ ars' ∧ run_in ar r.
Proof.
  intros H2 (a & Ha & Hr). apply list_elem_of_lookup in Ha as [i Hi].
  destruct (Forall2_lookup_l _ _ _ _ _ H2 Hi) as (a' & Ha' & Hp).
  exists a'. split; [by apply list_elem_of_lookup_2 in Ha'|by eapply run_in_place].
Qed.

(** A run of whole blocks is freed as it is. *)
Lemma freed_run_whole ar r :
  run_in ar r → freed_run (r_off r) (r_len r) = r ∧ 0 < r_len r ∧ is_u64 (r_len r + (BlockSize - 1)).
Proof.
  intros (s & l & H1 & H2 & H3 & ->). rewrite BlocksPerArena_val in H3. unfold freed_run, is_u64, BlockSize; simpl.
  split; [|lia]. f_equal. f_equal. dlia.
Qed.

Lemma free_runs a ars0 runs :
  arenas_wf (arenas a) → Forall2 same_place ars0 (arenas a) →
  Forall (λ r, ∃ ar, ar ∈ ars0 ∧ run_in ar r) runs → StronglySorted run_disjoint runs →
  (∀ d, in_runs runs d → taken (arenas a) d) →
  let a' := foldl (λ a r, Free a (r_off r) (r_len r)) a runs in
  arenas_wf (arenas a') ∧ Forall2 same_place ars0 (arenas a') ∧ doubleFrees a' = doubleFrees a ∧
  (∀ d, taken (arenas a') d ↔ taken (arenas a) d ∧ ¬ in_runs runs d).
Proof.
  revert a. induction runs as [|r runs IH]; intros a Hwf Hp Hin Hs Htk; simpl.
  { repeat (split; [done|]). intros d. split; [|tauto]. intros H. split; [done|].
    intros (x & Hx & _). inversion Hx. }
  inversion Hin as [|? ? Hr Hin']; inversion Hs as [|? ? Hs' Hd]; subst.
  pose proof (placed_in _ _ _ Hp Hr) as Hr'. destruct Hr as (ar & _ & Hrin).
  destruct (freed_run_whole _ _ Hrin) as (Er & Hlen & Hu).
  pose proof (free_loop_spec (arenas a) (r_off r) (r_len r) Hwf Hlen Hu) as Hf. rewrite Er in Hf.
  specialize (Hf Hr'). unfold free_ok in Hf. destruct (free_loop (arenas a) (r_off r) (r_len r)) as [ars' df] eqn:El.
  destruct Hf as (Fw & Fp & Ft & _ & Fd).
  assert (df = 0) as ->. { apply Fd. intros d H. apply Htk, in_runs_cons. by left. }
  set (a1 := mkAllocator ars' (doubleFrees a) (deviceSize a)).
  replace (Free a (r_off r) (r_len r)) with a1 by (unfold Free; by rewrite El, Z.add_0_r).
  destruct (IH a1) as (Iw & Ip & Idf & It); [done| |done|done| |].
  { by eapply same_places_trans. }
  { intros d H. apply Ft. split; [apply Htk, in_runs_cons; by right|]. intros H1.
    destruct H as (y & Hy & Hyd). rewrite Forall_forall in Hd. by apply (Hd y Hy d). }
  repeat (split; [done|]). intros d. rewrite It, in_runs_cons. simpl. rewrite Ft. tauto.
Qed.

(** ** The contracts of the allocator *)

(** C13. An allocation of [size] bytes either returns runs of whole blocks
    that add up to [size] rounded up, pairwise disjoint, every byte of them
    available before and exactly those bytes newly taken after; or it fails,
    and then what is taken is exactly what was taken before (the partial
    allocation is undone without counting a double free) and the space
    available before was less than the request. *)
Theorem allocate_exact a size :
  arenas_wf (arenas a) → 0 <= size → is_u64 (size + (BlockSize - 1)) →
  let want := (size + (BlockSize - 1)) / BlockSize in
  let '(a', res) := Allocate a size in
  arenas_wf (arenas a') ∧ doubleFrees a' = doubleFrees a ∧
  match res with
  | Some runs =>
    runs_total runs = want * BlockSize ∧ StronglySorted run_disjoint runs ∧
    (∀ d, in_runs runs d → avail (arenas a) d) ∧
    (∀ d, taken (arenas a') d ↔ taken (arenas a) d ∨ in_runs runs d)
  | None =>
    (∀ d, taken (arenas a') d ↔ taken (arenas a) d) ∧
    ∃ runs, runs_total runs < want * BlockSize ∧ ∀ d, avail (arenas a) d → in_runs runs d
  end.
Proof.
  intros Hwf Hsz Hu want. unfold Allocate, add64. rewrite wrap64_small by done. fold want.
  assert (0 <= want) by (unfold want, BlockSize in *; dlia).
  destruct (Z.eqb_spec want 0) as [->|Hne].
  { repeat (split; [done|]). split; [constructor|]. split; [by intros d (r & Hr & _); inversion Hr|].
    intros d. split; [by left|]. intros [?|(r & Hr & _)]; [done|inversion Hr]. }
  pose proof (alloc_loop_spec (arenas a) want Hwf ltac:(lia)) as Ha.
  destruct (alloc_loop (arenas a) want) as [[ars runs] got].
  destruct Ha as (Aw & Ap & Ag & At & Ain & As & Aav & Atk & Afull).
  pose proof (same_places_wf _ _ Ap Aw Hwf) as Awf.
  destruct (Z.eqb_spec got want) as [->|Hlt]; [done|].
  destruct (free_runs (set_arenas ars a) (arenas a) runs) as (Fw & Fp & Fd & Ft); try done.
  { intros d Hd. apply Atk. by right. }
  split; [done|]. split; [done|]. split.
  - intros d. rewrite Ft. simpl. rewrite Atk. split; [tauto|]. intros Hd. split; [by left|].
    intros Hr. by apply (taken_avail_excl _ d Hwf Hd), Aav.
  - exists runs. split; [unfold BlockSize in *; lia|]. intros d Hav.
    assert (taken ars d) as [Hd|Hd]%Atk; [|by destruct (taken_avail_excl _ d Hwf Hd)|done].
    destruct Hav as (x & Hx & Hh & _). apply list_elem_of_lookup in Hx as [i Hi].
    destruct (Forall2_lookup_l _ _ _ _ _ Ap Hi) as (x' & Hx' & Hp). apply list_elem_of_lookup_2 in Hx'.
    exists x'. split; [done|]. split; [by rewrite (same_place_holds _ _ _ Hp)|].
    destruct (isFree x' (block_of x' d)) eqn:E; [|done]. destruct (Afull ltac:(lia) d).
    exists x'. split; [done|]. split; [by rewrite (same_place_holds _ _ _ Hp)|done].
Qed.

(** Freeing a range that starts on a block of an arena and, rounded up to
    whole blocks, stays inside it makes exactly those bytes available again and
    leaves every other byte as it was; a range that was wholly taken counts no
    double free. *)
Theorem free_exact a off size :
  arenas_wf (arenas a) → 0 < size → is_u64 (size + (BlockSize - 1)) →
  (∃ ar, ar ∈ arenas a ∧ run_in ar (freed_run off size)) →
  let a' := Free a off size in
  arenas_wf (arenas a') ∧
  (∀ d, taken (arenas a') d ↔ taken (arenas a) d ∧ ¬ in_run (freed_run off size) d) ∧
  (∀ d, avail (arenas a') d ↔ avail (arenas a) d ∨ in_run (freed_run off size) d) ∧
  ((∀ d, in_run (freed_run off size) d → taken (arenas a) d) → doubleFrees a' = doubleFrees a).
Proof.
  intros Hwf Hsz Hu Hin. unfold Free. pose proof (free_loop_spec _ _ _ Hwf Hsz Hu Hin) as Hf.
  unfold free_ok in Hf. destruct (free_loop (arenas a) off size) as [ars' df]. simpl.
  destruct Hf as (H1 & _ & H2 & H3 & H4). repeat (split; [done|]). intros Hall. rewrite H4 by done. lia.
Qed.

(** ** Rebuilding *)

Lemma word_zeros n i : word (replicate n 0) i = 0.
Proof.
  unfold word. destruct (replicate n 0 !! Z.to_nat i) as [w|] eqn:E; [|done].
  by apply lookup_replicate in E as [-> _].
Qed.

(** The arenas whose range ends below 2^64. *)
Definition arena_id_ok (id : Z) : Prop := 0 <= id < 2 ^ 33.

Lemma new_arena_place id :
  arena_id_ok id → DiskStart (new_arena id) = id * ArenaSizeBytes ∧ DiskEnd (new_arena id) = (id + 1) * ArenaSizeBytes.
Proof.
  unfold arena_id_ok, new_arena, ArenaSizeBytes. cbn [DiskStart DiskEnd]. intros.
  rewrite mul64_small, add64_small by lia. lia.
Qed.

Lemma new_arena_wf id : arena_id_ok id → arena_wf (new_arena id).
Proof.
  intros Hid. split; [cbn; by rewrite length_replicate|].
  split; [cbn; apply Forall_replicate; unfold is_u64; lia|].
  split; [cbn; rewrite BlocksPerArena_val; lia|]. destruct (new_arena_place id Hid) as [-> ->].
  unfold arena_id_ok, ArenaSizeBytes in *. lia.
Qed.

Lemma new_arena_free id c : isFree (new_arena id) c = true.
Proof. unfold isFree. cbn [bitmap new_arena]. by rewrite word_zeros, Z.land_0_l. Qed.

Lemma new_arenas_disjoint i j d :
  arena_id_ok i → arena_id_ok j → i ≠ j → holds (new_arena i) d = true → holds (new_arena j) d = false.
Proof.
  intros Hi Hj Hne H. unfold holds in *. destruct (new_arena_place i Hi) as [E1 E2], (new_arena_place j Hj) as [E3 E4].
  rewrite E1, E2 in H. rewrite E3, E4. unfold ArenaSizeBytes in *. zbool.
  apply andb_false_iff. rewrite Z.leb_gt, Z.ltb_ge. lia.
Qed.

Lemma new_arenas_wf ids : NoDup ids → Forall arena_id_ok ids → arenas_wf (map new_arena ids).
Proof.
  induction 1 as [|i ids Hi Hnd IH]; intros Hpos; [split; constructor|].
  inversion Hpos as [|? ? Hi0 Hpos']; subst. destruct (IH Hpos') as [Hw Hs].
  split; [constructor; [by apply new_arena_wf|done]|]. simpl. constructor; [done|].
  apply Forall_forall. intros x Hx d. apply list_elem_of_fmap in Hx as (j & -> & Hj).
  rewrite Forall_forall in Hpos'. apply new_arenas_disjoint; [done|by apply Hpos'|congruence].
Qed.

(** The device bytes of the blocks an extent occupies. *)
Definition occupies (e : Extent) (d : Z) : Prop := in_run (freed_run (DiskOff e) (Length e)) d.

Lemma mark_extent_spec ar e :
  arena_wf ar → ext_wf e → (DiskOff e - DiskStart ar) mod BlockSize = 0 →
  arena_wf (mark_extent ar e) ∧ same_place ar (mark_extent ar e) ∧
  ∀ d, holds ar d = true →
    taken_in (mark_extent ar e) d ↔
    taken_in ar d ∨ (WithinDisk e (DiskStart ar) (DiskEnd ar) = true ∧ occupies e d).
Proof.
  intros Hw He Hal. unfold mark_extent. destruct (WithinDisk _ _ _) eqn:Ew; [|split; [done|split; [done|naive_solver]]].
  unfold WithinDisk in Ew. zbool. destruct He as (_ & Hd0 & Hl0 & _ & Hde & _).
  pose proof Hw as (_ & _ & _ & Hend & _).
  rewrite add64_small in * by (unfold is_u64, BlockSize in *; lia).
  set (s := (DiskOff e - DiskStart ar) / BlockSize).
  set (l := (Length e + (BlockSize - 1)) / BlockSize).
  assert (DiskOff e = DiskStart ar + s * BlockSize) as Eoff by (unfold s, BlockSize in *; dlia).
  assert (0 <= s ∧ 0 <= l ∧ s + l <= BlocksPerArena) as (Hs & Hl & Hsl).
  { rewrite BlocksPerArena_val. unfold s, l, ArenaSizeBytes, BlockSize in *. dlia. }
  replace (Z.min l (BlocksPerArena - s)) with l by lia.
  destruct (mark_blocks (seqZ s l) ar Hw (seqZ_in_arena s l Hs Hsl)) as (Hw' & Hf & E1 & E2 & E3).
  split; [done|]. split; [done|]. intros d Hh.
  assert (occupies e d ↔ s <= block_of ar d < s + l) as ->.
  { unfold occupies, freed_run. rewrite Eoff. apply in_run_block. }
  assert (in_arena (block_of ar d)) as Hia by by apply holds_block.
  unfold taken_in. rewrite (same_place_holds ar) by done. unfold block_of at 1. rewrite E1.
  fold (block_of ar d). rewrite Hf by done. destruct (bool_decide_reflect (block_of ar d ∈ seqZ s l)) as [Hi|Hi];
    rewrite elem_of_seqZ in Hi; simpl; [naive_solver lia|]. naive_solver lia.
Qed.

Lemma mark_extents ar exts :
  arena_wf ar → Forall ext_wf exts → Forall (λ e, (DiskOff e - DiskStart ar) mod BlockSize = 0) exts →
  arena_wf (markLiveExtents ar exts) ∧ same_place ar (markLiveExtents ar exts) ∧
  ∀ d, holds ar d = true →
    taken_in (markLiveExtents ar exts) d ↔
    taken_in ar d ∨ ∃ e, e ∈ exts ∧ WithinDisk e (DiskStart ar) (DiskEnd ar) = true ∧ occupies e d.
Proof.
  unfold markLiveExtents. revert ar. induction exts as [|e exts IH]; intros ar Hw He Ha; simpl.
  { split; [done|]. split; [done|]. intros d _. split; [by left|]. intros [?|(e & He' & _)]; [done|inversion He']. }
  inversion He as [|? ? He1 He2]; inversion Ha as [|? ? Ha1 Ha2]; subst.
  destruct (mark_extent_spec ar e Hw He1 Ha1) as (Mw & (M1 & M2 & M3) & Mt).
  destruct (IH (mark_extent ar e) Mw He2) as (Iw & (I1 & I2 & I3) & It); [by rewrite M1|].
  split; [done|]. split; [repeat split; congruence|]. intros d Hd.
  rewrite It by by rewrite (same_place_holds ar). rewrite Mt, M1, M2 by done. setoid_rewrite elem_of_cons.
  clear. naive_solver.
Qed.

(** The bitmap rebuilt for an arena from the extents in etcd marks taken
    exactly the blocks that an extent lying in the arena occupies, so a
    restarted node neither hands out a block a file still uses nor loses a
    free one. *)
Theorem rebuild_exact id exts :
  arena_id_ok id → Forall ext_wf exts → Forall (λ e, DiskOff e mod BlockSize = 0) exts →
  let ar := markLiveExtents (new_arena id) exts in
  ∀ d, holds (new_arena id) d = true →
    (taken_in ar d ↔ ∃ e, e ∈ exts ∧ WithinDisk e (DiskStart (new_arena id)) (DiskEnd (new_arena id)) = true ∧
                          occupies e d) ∧
    (avail_in ar d ↔ ¬ taken_in ar d).
Proof.
  intros Hid He Ha ar d Hd.
  destruct (mark_extents (new_arena id) exts (new_arena_wf id Hid) He) as (Hw & Hp & Ht).
  { eapply Forall_impl; [exact Ha|]. intros e H.
    rewrite (proj1 (new_arena_place id Hid)). unfold ArenaSizeBytes, BlockSize in *. dlia. }
  split.
  - unfold ar. rewrite Ht by done. split; [|by right]. intros [[_ Hf]|?]; [|done]. by rewrite new_arena_free in Hf.
  - unfold avail_in, taken_in, ar. rewrite (same_place_holds _ _ _ Hp), Hd.
    destruct (isFree (markLiveExtents (new_arena id) exts) _); split; [by intros [_ ?] [_ ?]|done|by intros [_ ?]|tauto].
Qed.

(** ** Concrete instances *)

Definition demo_alloc : Allocator := mkAllocator (map new_arena [3; 5]) 0 0.
Definition demo_live : list Extent := [mkExtent [] 0 0 1 [] 0 8192 5000 0].

Lemma demo_alloc_wf : arenas_wf (arenas demo_alloc).
Proof. apply new_arenas_wf; [apply (bool_decide_unpack _); by vm_compute|repeat constructor; done]. Qed.

Lemma allocate_exact_witness :
  arenas_wf (arenas demo_alloc) ∧
  (Allocate demo_alloc 10000).2 = Some [mkRun (3 * ArenaSizeBytes) 12288] ∧
  doubleFrees (Allocate demo_alloc 10000).1 = doubleFrees demo_alloc.
Proof.
  split; [exact demo_alloc_wf|]. split; [by vm_compute|].
  pose proof (allocate_exact demo_alloc 10000 demo_alloc_wf ltac:(lia) ltac:(unfold is_u64, BlockSize; lia)) as H.
  destruct (Allocate demo_alloc 10000) as [a' res]. exact (proj1 (proj2 H)).
Defined.

Lemma free_exact_witness :
  arenas_wf (arenas (Free demo_alloc (3 * ArenaSizeBytes + BlockSize) 100)).
Proof.
  apply (free_exact demo_alloc (3 * ArenaSizeBytes + BlockSize) 100 demo_alloc_wf);
    [lia|unfold is_u64, BlockSize; lia|].
  exists (new_arena 3). split; [left|]. exists 1, 1. split; [lia|]. split; [lia|].
  split; [rewrite BlocksPerArena_val; lia|reflexivity].
Defined.

Lemma rebuild_exact_witness :
  holds (new_arena 0) 8200 = true ∧ taken_in (markLiveExtents (new_arena 0) demo_live) 8200.
Proof.
  split; [reflexivity|]. apply (rebuild_exact 0 demo_live); [done| | |reflexivity|].
  - repeat constructor; unfold is_u64, BlockSize; simpl; lia.
  - repeat constructor.
  - exists (mkExtent [] 0 0 1 [] 0 8192 5000 0). split; [left|]. split; [reflexivity|].
    unfold occupies, in_run. split; vm_compute; [discriminate|reflexivity].
Defined.
