(* ===== verification/ArenaPool.v ===== *)
(** * The cluster-wide arena pool

    Models pkg/metadata/arena.go (releasing and claiming arenas) and the half
    of pkg/arena/allocator.go that talks to etcd: acquiring an arena, recording
    its ownership, rebuilding the free lists after a restart and returning
    emptied arenas.  A node's operations run one after the other on its own
    [Allocator]; operations of different nodes interleave request by request. *)

From S2P Require Import Prelude Etcd EtcdFacts Schema Store StoreLogic Extents Allocator.

(** ** pkg/metadata/arena.go *)

Definition ReleaseArenaID (nodeID : bytes) (arenaID : Z) : prog (result bool) :=
  let key := ArenaOwnerKey nodeID arenaID in
  txnRaw [key_exists key] [OpDelete key false; put (FreeArenaKey arenaID) (lit "free")] [].

(** The loop over the node's records; the arenas released so far come back
    with the error, if any. *)
Fixpoint release_all (nodeID : bytes) (kvs : list (bytes * kv)) (released : list Z)
  : prog (list Z * option err) :=
  match kvs with
  | [] => Ret (released, None)
  | (key, _) :: kvs' =>
    match ParseArenaKey key with
    | None => release_all nodeID kvs' released
    | Some (_, arenaID) =>
      won ⇐ ReleaseArenaID nodeID arenaID;
      match won with
      | Err e => Ret (released, Some e)
      | Ok true => release_all nodeID kvs' (released ++ [arenaID])
      | Ok false => release_all nodeID kvs' released
      end
    end
  end.

Definition ReleaseArena (s : Store) (nodeID : bytes) : prog (list Z * option err) :=
  kvs ⇐ GetPrefix s (ArenaNodePrefix nodeID);
  match kvs with
  | Err e => Ret ([], Some e)
  | Ok kvs => release_all nodeID kvs []
  end.

(** A count-only read: the number of keys under the prefix. *)
Definition CountOwnedArenas (s : Store) : prog (result Z) :=
  x ⇐? read s (RPrefix PrefixArena) false; Ret (Ok (Z.of_nat (length x.1))).

Fixpoint claim_loop (kvs : list (bytes * kv)) : prog (result (option Z)) :=
  match kvs with
  | [] => Ret (Ok None)
  | (key, _) :: kvs' =>
    match ParseUint (drop (length PrefixFreeArena) key) with
    | None => claim_loop kvs'
    | Some arenaID =>
      won ⇐? txnRaw [key_exists key] [OpDelete key false] [];
      if (won : bool) then Ret (Ok (Some arenaID)) else claim_loop kvs'
    end
  end.

Definition ClaimFreeArena (s : Store) : prog (result (option Z)) :=
  kvs ⇐? GetPrefix s PrefixFreeArena; claim_loop kvs.

(** ** pkg/arena/allocator.go *)

Definition allocateArenaID (s : Store) : prog (result (Z * bool)) :=
  c ⇐ ClaimFreeArena s;
  match c with
  | Ok (Some id) => Ret (Ok (id, true))
  | _ => id ⇐? NextCounter s PrefixArenaLog 0; Ret (Ok (id, false))
  end.

Definition recordOwnership (s : Store) (arenaID : Z) : prog (result unit) :=
  let key := ArenaOwnerKey (nodeID s) arenaID in
  ok ⇐? Txn s [key_absent key] [put key (EncodeUint64 arenaID)] [];
  Ret (if (ok : bool) then Ok tt else Err EOther).

Definition AcquireArena (s : Store) (a : Allocator) : prog (Allocator * result Arena) :=
  let size := deviceSize a in
  if (0 <? size) && (size <? ArenaSizeBytes) then Ret (a, Err ErrNoSpace)
  else
    r ⇐ allocateArenaID s;
    match r with
    | Err e => Ret (a, Err e)
    | Ok (arenaID, reused) =>
      let diskEnd := add64 (mul64 arenaID ArenaSizeBytes) ArenaSizeBytes in
      if (0 <? size) && (size <? diskEnd) then Ret (a, Err ErrNoSpace)
      else
        o ⇐ recordOwnership s arenaID;
        match o with
        | Err e => Ret (a, Err e)
        | Ok _ =>
          let free := new_arena arenaID in
          if (reused : bool) then
            x ⇐ AllExtents s;
            match x with
            | Err e => Ret (a, Err e)
            | Ok extents =>
              let free := markLiveExtents free extents in
              Ret (set_arenas (arenas a ++ [free]) a, Ok free)
            end
          else Ret (set_arenas (arenas a ++ [free]) a, Ok free)
        end
    end.

(** A record is exactly eight bytes; anything else is skipped. *)
Definition existingArenaIDs (s : Store) : prog (result (list Z)) :=
  kvs ⇐? GetPrefix s (ArenaNodePrefix (nodeID s));
  Ret (Ok (omap (λ x, if bool_decide (length (kv_val x.2) = 8%nat)
                      then Some (DecodeUint64 (kv_val x.2)) else None) kvs)).

(** The arenas are listed (empty) before the extents are read. *)
Definition Reconstruct (s : Store) (a : Allocator) : prog (Allocator * result unit) :=
  ids ⇐ existingArenaIDs s;
  match ids with
  | Err e => Ret (a, Err e)
  | Ok arenaIDs =>
    let fresh := map new_arena arenaIDs in
    x ⇐ AllExtents s;
    match x with
    | Err e => Ret (set_arenas fresh a, Err e)
    | Ok extents => Ret (set_arenas (map (λ ar, markLiveExtents ar extents) fresh) a, Ok tt)
    end
  end.

(** An arena whose release did not go through is reattached. *)
Fixpoint release_empty (s : Store) (a : Allocator) (empty : list Arena) (released : list Z)
  : prog (Allocator * (list Z * option err)) :=
  match empty with
  | [] => Ret (a, (released, None))
  | ar :: empty' =>
    r ⇐ ReleaseArenaID (nodeID s) (ID ar);
    let back := set_arenas (arenas a ++ [ar]) a in
    match r with
    | Err e => Ret (back, (released, Some e))
    | Ok false => release_empty s back empty' released
    | Ok true => release_empty s a empty' (released ++ [ID ar])
    end
  end.

Definition ReleaseEmptyArenas (s : Store) (a : Allocator) : prog (Allocator * (list Z * option err)) :=
  let empty := List.filter isEmpty (arenas a) in
  let kept := List.filter (λ ar, negb (isEmpty ar)) (arenas a) in
  release_empty s (set_arenas kept a) empty [].

(** ** A node's traffic with the pool *)

Inductive pool_cmd :=
| PAcquire
| PReconstruct
| PReleaseEmpty
| PReleaseNode (node : bytes)   (* departure, or fencing a peer *)
| PCount
| PAllocate (size : Z)
| PFree (diskOff size : Z).

Fixpoint pool_script (s : Store) (a : Allocator) (cmds : list pool_cmd) : prog Allocator :=
  match cmds with
  | [] => Ret a
  | PAcquire :: cs => x ⇐ AcquireArena s a; pool_script s x.1 cs
  | PReconstruct :: cs => x ⇐ Reconstruct s a; pool_script s x.1 cs
  | PReleaseEmpty :: cs => x ⇐ ReleaseEmptyArenas s a; pool_script s x.1 cs
  | PReleaseNode n :: cs => _ ⇐ ReleaseArena s n; pool_script s a cs
  | PCount :: cs => _ ⇐ CountOwnedArenas s; pool_script s a cs
  | PAllocate size :: cs => pool_script s (Allocate a size).1 cs
  | PFree off size :: cs => pool_script s (Free a off size) cs
  end.

(** How many arenas a node may draw from the counter. *)
Definition acquires (cmds : list pool_cmd) : nat :=
  length (List.filter (λ c, match c with PAcquire => true | _ => false end) cmds).

(** ** What the records say *)

Definition owned (m : mvcc) (node : bytes) (id : Z) : Prop := is_Some (val_at (ArenaOwnerKey node id) m).
Definition pooled (m : mvcc) (id : Z) : Prop := is_Some (val_at (FreeArenaKey id) m).

(** No arena has two owners, nor an owner while it sits in the free pool. *)
Definition arenas_exclusive (m : mvcc) : Prop :=
  ∀ id node, is_u64 id → owned m node id →
    ¬ pooled m id ∧ ∀ node', owned m node' id → node' = node.

(** Records as the code writes them: canonical keys, an owner record holding
    its arena's number, no leases, every number below the counter. *)
Definition pool_wf (m : mvcc) : Prop :=
  mvcc_wf m ∧
  (∀ v l, val_at PrefixArenaLog m = Some (v, l) → l = 0) ∧
  (∀ k v l, val_at k m = Some (v, l) → has_prefix PrefixArena k = true →
     ∃ node id, is_u64 id ∧ k = ArenaOwnerKey node id ∧ v = EncodeUint64 id ∧ l = 0) ∧
  (∀ k, is_Some (val_at k m) → has_prefix PrefixFreeArena k = true → ∃ id, is_u64 id ∧ k = FreeArenaKey id) ∧
  (∀ id, is_u64 id → pooled m id → id < counter_value PrefixArenaLog m) ∧
  (∀ id node, is_u64 id → owned m node id → id < counter_value PrefixArenaLog m).
