(* ===== verification/ArenaProps.v ===== *)
(** * Exclusive ownership of arenas

    Whatever nodes do with the pool (acquire, restart, return, release a fenced
    peer's arenas), interleaved request by request and with replies lost, the
    records never give one arena two owners nor an owner and a place in the
    pool.  The proof tracks, beside the store, the arena numbers that a node has
    taken out of the pool or the counter and not recorded yet, and how many
    more numbers each node may still draw. *)

From S2P Require Import Prelude Etcd EtcdFacts Schema Store StoreLogic Extents Allocator ArenaPool.

(** ** The keys of the pool *)

Lemma ArenaOwnerKey_inj n id n' id' :
  is_u64 id → is_u64 id' → ArenaOwnerKey n id = ArenaOwnerKey n' id' → n = n' ∧ id = id'.
Proof. intros [? _] [? _] E%app_inv_head. by apply sep_fmt_uint_inj. Qed.

Lemma FreeArenaKey_inj id id' : is_u64 id → is_u64 id' → FreeArenaKey id = FreeArenaKey id' → id = id'.
Proof. intros [? _] [? _] E. apply app_inv_head in E. by apply fmt_uint_inj. Qed.

Lemma ArenaKey_parse n id :
  is_u64 id → ParseArenaKey (ArenaOwnerKey n id) = if bool_decide (n = []) then None else Some (n, id).
Proof.
  intros Hid. unfold ParseArenaKey, ArenaOwnerKey. rewrite cut_prefix_app, cut_last_app.
  - destruct n as [|c n]; [done|]. by rewrite ParseUint_fmt_uint.
  - apply fmt_uint_not_elem; [done|]. apply Hid.
Qed.

Lemma FreeArenaKey_parse id : is_u64 id → ParseUint (drop (length PrefixFreeArena) (FreeArenaKey id)) = Some id.
Proof. intros. unfold FreeArenaKey. rewrite drop_app_length. by apply ParseUint_fmt_uint. Qed.

Lemma ParseArenaKey_u64 k n id : ParseArenaKey k = Some (n, id) → is_u64 id.
Proof.
  unfold ParseArenaKey. intros H. repeat case_match; simplify_eq. by eapply ParseUint_u64.
Qed.

(** ** The ghost state and the invariant *)

Abbreviation ghost := (gmap Z nat * list nat)%type.

Definition pool_inv (σ : mvcc * ghost) : Prop :=
  pool_wf σ.1 ∧ arenas_exclusive σ.1 ∧
  0 <= counter_value PrefixArenaLog σ.1 ∧
  counter_value PrefixArenaLog σ.1 + Z.of_nat (sum_list σ.2.2) < 2 ^ 64 ∧
  ∀ id i, σ.2.1 !! id = Some i →
    is_u64 id ∧ id < counter_value PrefixArenaLog σ.1 ∧ ¬ pooled σ.1 id ∧ ∀ n, ¬ owned σ.1 n id.

(** How the store looks to the pool after a transaction: a restatement of the
    operations' effect on the keys of the pool. *)
Lemma pool_wf_ops m os :
  pool_wf m → Forall (λ o, match o with
    | OpPut k v l =>
      (has_prefix PrefixArena k = true → ∃ n id, is_u64 id ∧ k = ArenaOwnerKey n id ∧ v = EncodeUint64 id ∧ l = 0) ∧
      (has_prefix PrefixFreeArena k = true → ∃ id, is_u64 id ∧ k = FreeArenaKey id) ∧ l = 0
    | OpDelete _ _ => True end) os →
  (∀ id, is_u64 id → pooled (mvcc_ops m os).1 id → id < counter_value PrefixArenaLog (mvcc_ops m os).1) →
  (∀ id n, is_u64 id → owned (mvcc_ops m os).1 n id → id < counter_value PrefixArenaLog (mvcc_ops m os).1) →
  pool_wf (mvcc_ops m os).1.
Proof.
  intros (Hw & Hc & Ha & Hf & _) Hos Hp Ho. rewrite Forall_forall in Hos.
  assert (∀ k v l, val_at k (mvcc_ops m os).1 = Some (v, l) → val_at k m = Some (v, l) ∨ OpPut k v l ∈ os) as Hsrc.
  { intros k v l (e & He & <- & <-)%val_at_Some. rewrite mvcc_ops_kvs in He.
    apply apply_ops_lookup in He as [He|(_ & Hin & _)]; [left|by right].
    apply val_at_Some. eauto. }
  split; [by apply mvcc_ops_wf|]. split.
  { intros v l [H|H]%Hsrc; [by eapply Hc|]. by apply Hos in H as (_ & _ & ->). }
  split.
  { intros k v l [H|H]%Hsrc Hk; [by eapply Ha|]. apply Hos in H as (H & _ & _). auto. }
  split; [|done]. intros k [[v l] [H|H]%Hsrc] Hk; [by apply Hf; [eexists|]|]. apply Hos in H as (_ & H & _). auto.
Qed.

Lemma owner_ne_free n id id' : ArenaOwnerKey n id ≠ FreeArenaKey id'.
Proof. done. Qed.
Lemma owner_ne_counter n id : ArenaOwnerKey n id ≠ PrefixArenaLog.
Proof. done. Qed.
Lemma free_ne_counter id : FreeArenaKey id ≠ PrefixArenaLog.
Proof. done. Qed.

(** Taking arena [id] out of the pool. *)
Lemma claim_step i m fl bud id :
  pool_inv (m, (fl, bud)) → is_u64 id → pooled m id →
  let m2 := (mvcc_ops m [OpDelete (FreeArenaKey id) false]).1 in
  fl !! id = None ∧ pool_inv (m2, (<[id := i]> fl, bud)) ∧ ∀ n x, owned m2 n x ↔ owned m n x.
Proof.
  intros (Hw & He & H0 & Hb & Hfl) Hid Hp m2. cbn [fst snd] in *.
  assert (fl !! id = None) as Hn.
  { destruct (fl !! id) as [j|] eqn:E; [|done]. by apply Hfl in E as (_ & _ & ? & _). }
  assert (∀ n x, owned m2 n x ↔ owned m n x) as Ho.
  { intros n x. unfold owned, m2. rewrite val_at_ops. done. }
  assert (∀ x, is_u64 x → pooled m2 x ↔ pooled m x ∧ x ≠ id) as Hpo.
  { intros x Hx. unfold pooled, m2. rewrite val_at_ops. unfold ops_effect, op_effect, op_touches.
    case_bool_decide as E; [apply FreeArenaKey_inj in E; [|done..]|].
    - split; [by intros []|naive_solver].
    - split; [|tauto]. intros H. split; [done|]. by intros ->. }
  assert (counter_value PrefixArenaLog m2 = counter_value PrefixArenaLog m) as Hcv.
  { apply counter_value_same. unfold m2. by rewrite val_at_ops. }
  split; [done|]. split; [|done]. split.
  { apply pool_wf_ops; [done|by repeat constructor| |]; fold m2; rewrite Hcv; destruct Hw as (_ & _ & _ & _ & H1 & H2).
    - intros x Hx [? _]%Hpo; auto.
    - intros x n Hx ?%Ho. eauto. }
  split. { intros x n Hx Hxo%Ho. destruct (He x n Hx Hxo) as [Hnp Hu]. rewrite Hpo by done. split; [tauto|].
           intros n' ?%Ho. auto. }
  cbn [fst snd]. rewrite Hcv. split; [done|]. split; [done|].
  intros x j [[<- <-]|[Hne Hj]]%lookup_insert_Some.
  - split; [done|]. destruct Hw as (_ & _ & _ & _ & H1 & _). split; [auto|].
    rewrite Hpo by done. split; [tauto|]. intros n Hno%Ho. by apply (He id n Hid).
  - destruct (Hfl x j Hj) as (? & ? & ? & ?). rewrite Hpo by done. setoid_rewrite Ho. naive_solver.
Qed.

(** Drawing a new number from the counter. *)
Lemma draw_step i m fl bud b :
  pool_inv (m, (fl, bud)) → bud !! i = Some (S b) →
  let cv := counter_value PrefixArenaLog m in
  let m2 := (mvcc_ops m [put PrefixArenaLog (EncodeUint64 (add64 cv 1))]).1 in
  is_u64 cv ∧ fl !! cv = None ∧ pool_inv (m2, (<[cv := i]> fl, <[i := b]> bud)) ∧
  ∀ n x, owned m2 n x ↔ owned m n x.
Proof.
  intros (Hw & He & H0 & Hb & Hfl) Hbud cv m2. cbn [fst snd] in *. fold cv in H0, Hb, Hfl.
  assert (sum_list (<[i:=b]> bud) + 1 = sum_list bud)%nat as Hsum by by apply sum_list_spend.
  assert (is_u64 cv) as Hcu by (unfold is_u64; lia).
  assert (fl !! cv = None) as Hn.
  { destruct (fl !! cv) as [j|] eqn:E; [|done]. apply Hfl in E as (_ & ? & _). lia. }
  assert (∀ n x, owned m2 n x ↔ owned m n x) as Ho by (intros n x; unfold owned, m2; by rewrite val_at_ops).
  assert (∀ x, pooled m2 x ↔ pooled m x) as Hpo by (intros x; unfold pooled, m2; by rewrite val_at_ops).
  assert (counter_value PrefixArenaLog m2 = cv + 1) as Hcv.
  { unfold counter_value at 1. unfold m2, put. rewrite stored_put by done.
    rewrite add64_small by lia. apply DecodeUint64_EncodeUint64. unfold is_u64; lia. }
  assert (∀ x n, is_u64 x → owned m n x → x < cv) as Hlo by (intros; eapply Hw; eauto).
  assert (∀ x, is_u64 x → pooled m x → x < cv) as Hlp by (intros; by apply Hw).
  split; [done|]. split; [done|]. split; [|done]. split.
  { apply pool_wf_ops; [done|by repeat constructor| |]; fold m2; rewrite Hcv.
    - intros x Hx ?%Hpo. specialize (Hlp x Hx). naive_solver lia.
    - intros x n Hx ?%Ho. specialize (Hlo x n Hx). naive_solver lia. }
  split. { intros x n Hx Hxo%Ho. destruct (He x n Hx Hxo) as [Hnp Hu]. rewrite Hpo. split; [tauto|].
           intros n' ?%Ho. auto. }
  cbn [fst snd]. rewrite Hcv. split; [lia|]. split; [lia|].
  intros x j [[<- <-]|[Hne Hj]]%lookup_insert_Some; rewrite Hpo; setoid_rewrite Ho.
  - split; [done|]. split; [lia|]. split; [intros ?%Hlp; [lia|done]|]. intros n ?%Hlo; [lia|done].
  - destruct (Hfl x j Hj) as (? & ? & ? & ?). split; [done|]. split; [lia|done].
Qed.

(** Recording ownership of a number in hand. *)
Lemma record_step i m fl bud node id :
  pool_inv (m, (fl, bud)) → fl !! id = Some i →
  let m2 := (mvcc_ops m [put (ArenaOwnerKey node id) (EncodeUint64 id)]).1 in
  pool_inv (m2, (delete id fl, bud)) ∧ owned m2 node id ∧ ∀ n x, owned m n x → owned m2 n x.
Proof.
  intros (Hw & He & H0 & Hb & Hfl) Hi m2. cbn [fst snd] in *.
  destruct (Hfl id i Hi) as (Hid & Hlt & Hnp & Hno).
  assert (∀ n x, is_u64 x → owned m2 n x ↔ owned m n x ∨ (n = node ∧ x = id)) as Ho.
  { intros n x Hx. unfold owned, m2. rewrite val_at_ops. unfold ops_effect, op_effect, op_touches, put.
    case_bool_decide as E; [apply ArenaOwnerKey_inj in E; [|done..]; split; [by right|by eexists]|].
    split; [by left|]. intros [?|[-> ->]]; done. }
  assert (∀ x, pooled m2 x ↔ pooled m x) as Hpo by (intros x; unfold pooled, m2; by rewrite val_at_ops).
  assert (counter_value PrefixArenaLog m2 = counter_value PrefixArenaLog m) as Hcv.
  { apply counter_value_same. unfold m2. by rewrite val_at_ops. }
  assert (∀ n x, owned m n x → owned m2 n x) as Hmono.
  { intros n x Hx. unfold owned, m2. rewrite val_at_ops. unfold ops_effect, op_effect.
    case_if; [by eexists|done]. }
  split; [|split; [by apply Ho; [|right]|done]]. split.
  { apply pool_wf_ops; [done| | |]; fold m2; rewrite ?Hcv.
    - constructor; [|constructor]. split; [|done]. intros _. by exists node, id.
    - intros x Hx ?%Hpo. by apply Hw.
    - intros x n Hx [?|[-> ->]]%Ho; [by eapply Hw|done|done]. }
  split. { intros x n Hx Hxo. rewrite Hpo. apply Ho in Hxo as [Hxo|[-> ->]]; [| |done].
    - destruct (He x n Hx Hxo) as [Hxp Hu]. split; [done|]. intros n' [?|[-> ->]]%Ho; [by auto| |done].
      by destruct (Hno n).
    - split; [done|]. intros n' [?|[-> _]]%Ho; [by destruct (Hno n')|done|done]. }
  cbn [fst snd]. rewrite Hcv. split; [done|]. split; [done|].
  intros x j [Hne Hj]%lookup_delete_Some. destruct (Hfl x j Hj) as (? & ? & ? & Hxo).
  rewrite Hpo. repeat (split; [done|]). intros n [?|[_ ->]]%Ho; [by apply (Hxo n)|done|done].
Qed.

(** Moving an owned arena to the pool. *)
Lemma release_step m fl bud node id :
  pool_inv (m, (fl, bud)) → is_u64 id → owned m node id →
  let m2 := (mvcc_ops m [OpDelete (ArenaOwnerKey node id) false; put (FreeArenaKey id) (lit "free")]).1 in
  pool_inv (m2, (fl, bud)).
Proof.
  intros (Hw & He & H0 & Hb & Hfl) Hid Hown m2. cbn [fst snd] in *.
  assert (∀ n x, is_u64 x → owned m2 n x ↔ owned m n x ∧ ¬ (n = node ∧ x = id)) as Ho.
  { intros n x Hx. unfold owned, m2. rewrite val_at_ops. unfold ops_effect, op_effect, op_touches, put.
    rewrite bool_decide_eq_false_2 by apply owner_ne_free.
    case_bool_decide as E; [apply ArenaOwnerKey_inj in E; [|done..]; split; [by intros []|tauto]|].
    split; [|tauto]. intros Hs. split; [done|]. by intros [-> ->]. }
  assert (∀ x, is_u64 x → pooled m2 x ↔ pooled m x ∨ x = id) as Hpo.
  { intros x Hx. unfold pooled, m2. rewrite val_at_ops. unfold ops_effect, op_effect, op_touches, put.
    case_bool_decide as E; [apply FreeArenaKey_inj in E; [|done..]; split; [by right|by eexists]|].
    rewrite bool_decide_eq_false_2 by done. split; [by left|]. intros [?| ->]; done. }
  assert (counter_value PrefixArenaLog m2 = counter_value PrefixArenaLog m) as Hcv.
  { apply counter_value_same. unfold m2. by rewrite val_at_ops. }
  assert (id < counter_value PrefixArenaLog m) as Hlt by (destruct Hw as (_ & _ & _ & _ & _ & Hl); eauto).
  destruct (He id node Hid Hown) as [Hnp Huniq]. split.
  { apply pool_wf_ops; [done| | |]; fold m2; rewrite ?Hcv.
    - constructor; [done|]. constructor; [|constructor]. split; [done|]. split; [|done]. intros _. by exists id.
    - intros x Hx [?| ->]%Hpo; [by apply Hw|done|done].
    - intros x n Hx [? _]%Ho; [by eapply Hw|done]. }
  split. { intros x n Hx [Hxo Hne]%Ho; [|done]. destruct (He x n Hx Hxo) as [Hxp Hu]. split.
    - intros [?| ->]%Hpo; [done| |done]. apply Hne. split; [|done]. by apply Huniq.
    - intros n' [? _]%Ho; auto. }
  cbn [fst snd]. rewrite Hcv. split; [done|]. split; [done|].
  intros x j Hj. destruct (Hfl x j Hj) as (? & ? & ? & Hxo). split; [done|]. split; [done|].
  rewrite Hpo by done. split; [intros [?| ->]; [done|by apply (Hxo node)]|]. intros n [? _]%Ho; [by apply (Hxo n)|done].
Qed.

(** An expired lease may take records away, never add any. *)
Lemma pool_expire l m γ :
  pool_inv (m, γ) → pool_inv (mvcc_expire l m, γ) ∧ ∀ n x, is_u64 x → owned m n x → owned (mvcc_expire l m) n x.
Proof.
  intros ((Hwf & Hc & Ha & Hf & H1 & H2) & He & H0 & Hb & Hfl).
  assert (∀ k v le, val_at k (mvcc_expire l m) = Some (v, le) → val_at k m = Some (v, le)) as Hsub.
  { intros k v le (e & [Hk _]%mvcc_expire_lookup & Hv)%val_at_Some. apply val_at_Some. eauto. }
  assert (∀ k v, val_at k m = Some (v, 0) → val_at k (mvcc_expire l m) = Some (v, 0)) as Hkeep.
  { intros k v (e & Hk & Hv & Hle)%val_at_Some. apply val_at_Some. exists e. split; [|done].
    by apply mvcc_expire_unleased. }
  assert (∀ n x, owned (mvcc_expire l m) n x → owned m n x) as Ho by (intros n x [[v le] H%Hsub]; by eexists).
  assert (∀ x, pooled (mvcc_expire l m) x → pooled m x) as Hpo by (intros x [[v le] H%Hsub]; by eexists).
  assert (counter_value PrefixArenaLog (mvcc_expire l m) = counter_value PrefixArenaLog m) as Hcv.
  { apply counter_value_same. destruct (val_at PrefixArenaLog m) as [[v le]|] eqn:E.
    - rewrite (Hc _ _ E) in E |- *. by apply Hkeep.
    - destruct (val_at PrefixArenaLog (mvcc_expire l m)) as [[v le]|] eqn:E'; [|done]. apply Hsub in E'. congruence. }
  split.
  - split; [|split; [|cbn [fst snd]; rewrite Hcv; split; [done|split; [done|]]]].
    + split; [by apply mvcc_expire_wf|]. cbn [fst]. rewrite Hcv. split; [intros v le ?%Hsub; eauto|].
      split; [intros k v le ?%Hsub; eauto|]. split; [intros k [[v le] ?%Hsub]; eauto|]. split; eauto.
    + intros x n Hx Hxo%Ho. destruct (He x n Hx Hxo) as [Hxp Hu]. split; [by intros ?%Hpo|]. intros n' ?%Ho. auto.
    + intros x j Hj. destruct (Hfl x j Hj) as (? & ? & ? & Hxo). split; [done|]. split; [done|].
      split; [by intros ?%Hpo|]. intros n ?%Ho. by apply (Hxo n).
  - intros n x Hx [[v le] H]. destruct (Ha _ _ _ H ltac:(apply has_prefix_app)) as (n' & id' & _ & _ & _ & ->).
    exists (v, 0). auto.
Qed.

(** ** The arenas a node lists keep their numbers *)

Lemma ID_mark bs ar : ID (foldl markAllocated ar bs) = ID ar.
Proof. revert ar. induction bs as [|b bs IH]; intros ar; [done|]. simpl. by rewrite IH. Qed.

Lemma ID_markLiveExtents exts ar : ID (markLiveExtents ar exts) = ID ar.
Proof.
  unfold markLiveExtents. revert ar. induction exts as [|e exts IH]; intros ar; [done|]. simpl. rewrite IH.
  unfold mark_extent. case_if; [|done]. apply ID_mark.
Qed.

Lemma ID_findRun ar max : ID (findRun ar max).1 = ID ar.
Proof.
  unfold findRun. destruct (findRunIn ar (hint ar) _ max) as [s l]. case_if; [done|].
  destruct (findRunIn ar 0 _ max) as [s' l']. by case_if.
Qed.

Lemma ID_take_from fuel ar need : ID (take_from fuel ar need).1.1 = ID ar.
Proof.
  revert ar need. induction fuel as [|f IH]; intros ar need; [done|]. cbn [take_from].
  case_if; [|done]. pose proof (ID_findRun ar need) as Hf. destruct (findRun ar need) as [ar1 [s l]].
  case_if; [done|]. specialize (IH (foldl markAllocated ar1 (seqZ s l)) (need - l)).
  destruct (take_from f _ _) as [[ar' runs] got]. cbn [fst] in *. by rewrite IH, ID_mark.
Qed.

Lemma ID_alloc_loop ars need : map ID (alloc_loop ars need).1.1 = map ID ars.
Proof.
  revert need. induction ars as [|ar ars IH]; intros need; [done|]. cbn [alloc_loop].
  pose proof (ID_take_from arena_fuel ar need) as Ht. destruct (take_from arena_fuel ar need) as [[ar' runs] got].
  cbn [fst] in Ht. case_if; [simpl; by rewrite Ht|]. specialize (IH (need - got)).
  destruct (alloc_loop ars _) as [[ars' runs'] got']. simpl in *. by rewrite Ht, IH.
Qed.

Lemma ID_Free a off size : map ID (arenas (Free a off size)) = map ID (arenas a).
Proof.
  unfold Free. assert (map ID (free_loop (arenas a) off size).1 = map ID (arenas a)) as H.
  { induction (arenas a) as [|ar ars IH]; [done|]. cbn [free_loop]. case_if.
    - unfold free_in_arena.
      assert (∀ bs st, ID (foldl free_block st bs).1 = ID st.1) as Hb.
      { induction bs as [|b bs IHb]; intros st; [done|]. simpl. rewrite IHb. unfold free_block. by case_if. }
      match goal with |- context [foldl free_block ?st ?bs] => specialize (Hb bs st); destruct (foldl free_block st bs) as [ar' df] end.
      cbn [fst] in Hb. case_if; simpl; by rewrite Hb.
    - destruct (free_loop ars off size). simpl in *. by rewrite IH. }
  destruct (free_loop (arenas a) off size). done.
Qed.

Lemma ID_Allocate a size : map ID (arenas (Allocate a size).1) = map ID (arenas a).
Proof.
  unfold Allocate. case_if; [done|]. pose proof (ID_alloc_loop (arenas a) (add64 size (BlockSize - 1) / BlockSize)) as H.
  destruct (alloc_loop _ _) as [[ars runs] got]. cbn [fst] in H. case_if; [done|]. cbn [fst].
  rewrite <- H. change ars with (arenas (set_arenas ars a)) at 2. generalize (set_arenas ars a) as a1.
  induction runs as [|r runs IH]; intros a1; [done|]. simpl. by rewrite IH, ID_Free.
Qed.

Lemma issues_AllExtents (P : req → Prop) s : P (QRange (RPrefix PrefixExtent) false) → issues P (AllExtents s).
Proof. intros. apply issues_ebind; [by apply issues_GetPrefix|done]. Qed.

(** ** Rely and guarantee of node [i]

    [keep] says that nobody releases arenas in the execution considered: owner
    records then only accumulate. *)

Section nodes.
Context (keep : bool).

Definition grows (m m' : mvcc) : Prop := keep = true → ∀ n x, is_u64 x → owned m n x → owned m' n x.

Definition pool_rel (i : nat) (σ σ' : mvcc * ghost) : Prop :=
  (pool_inv σ → pool_inv σ') ∧ (pool_inv σ → grows σ.1 σ'.1) ∧
  (∀ x, σ.2.1 !! x = Some i → σ'.2.1 !! x = Some i) ∧ σ'.2.2 !! i = σ.2.2 !! i.
Definition pool_guar (i : nat) (σ σ' : mvcc * ghost) : Prop :=
  (pool_inv σ → pool_inv σ') ∧ (pool_inv σ → grows σ.1 σ'.1) ∧
  (∀ x j, j ≠ i → σ.2.1 !! x = Some j → σ'.2.1 !! x = Some j) ∧ ∀ j, j ≠ i → σ'.2.2 !! j = σ.2.2 !! j.

#[export] Instance pool_rel_preorder i : PreOrder (pool_rel i).
Proof.
  split; [intros σ; unfold pool_rel, grows; auto|]. intros σ1 σ2 σ3 (H1 & H2 & H3 & H4) (K1 & K2 & K3 & K4).
  split; [auto|]. split; [|split; [auto|congruence]].
  intros Hi Hk n x Hx Ho. apply K2; auto. by apply H2.
Qed.

Lemma pool_guar_refl i σ : pool_guar i σ σ.
Proof. unfold pool_guar, grows; auto. Qed.

Lemma pool_guar_rel i j σ σ' : i ≠ j → pool_guar i σ σ' → pool_rel j σ σ'.
Proof. intros Hij (H1 & H2 & H3 & H4). split; [done|]. split; [done|]. split; [|by apply H4]. intros x. by apply H3. Qed.

Lemma pool_rel_expire i l m γ : pool_rel i (m, γ) (mvcc_expire l m, γ).
Proof.
  split; [intros H; by apply pool_expire|]. split; [|done].
  intros H _ n x Hx Ho. by apply (pool_expire l m γ H).
Qed.

Context (i : nat).
Abbreviation wpp p Q σ := (wp etcd_ok (pool_rel i) (pool_guar i) p Q σ).

Lemma wp_claim_loop kvs (Q : result (option Z) → _ → Prop) σ :
  pool_inv σ → (∀ k e, (k, e) ∈ kvs → ∃ id, is_u64 id ∧ k = FreeArenaKey id) →
  (∀ r σ1, pool_inv σ1 → σ1.2.2 !! i = σ.2.2 !! i →
     (∀ id, r = Ok (Some id) → σ1.2.1 !! id = Some i ∧ is_u64 id) → Q r σ1) →
  wpp (claim_loop kvs) Q σ.
Proof.
  revert σ. induction kvs as [|[k e] kvs IH]; intros σ Hi Hk HQ; cbn [claim_loop].
  { intros σ1 H1. apply HQ; [by apply H1|apply H1|done]. }
  destruct (Hk k e ltac:(left)) as (id & Hid & ->). rewrite FreeArenaKey_parse by done.
  wpb. wpr wp_txnRaw.
  - apply pool_guar_refl.
  - intros σ1 H1 σ2 H2. assert (pool_rel i σ σ2) as H by by trans σ1.
    apply HQ; [by apply H|apply H|done].
  - intros σ1 H1. apply IH; [by apply H1|intros k' e' ?; apply (Hk k' e'); by right|].
    intros r σ2 ? Hb ?. apply HQ; [done|rewrite Hb; apply H1|done].
  - intros [m1 [fl bud]] H1 Hf. assert (pool_inv (m1, (fl, bud))) as Hi1 by by apply H1.
    simpl in Hf. rewrite andb_true_r in Hf. apply eval_key_exists in Hf; [|apply Hi1].
    apply val_at_is_Some in Hf. destruct (claim_step i m1 fl bud id Hi1 Hid Hf) as (Hn & Hi2 & Ho).
    exists (<[id := i]> fl, bud). split.
    + split; [done|]. split; [intros _ _ n x _; by rewrite Ho|]. split; [|done].
      intros x j Hj Hx. cbn [fst snd] in *. rewrite lookup_insert_ne by congruence. done.
    + intros σ3 H3.
      assert (σ3.2.2 !! i = σ.2.2 !! i) as Hb by (destruct H3 as (_ & _ & _ & ->); apply H1).
      assert (σ3.2.1 !! id = Some i) as Hfl by (apply H3; apply lookup_insert_eq).
      assert (∀ σ4, pool_rel i σ3 σ4 → pool_inv σ4 ∧ σ4.2.2 !! i = σ.2.2 !! i ∧ σ4.2.1 !! id = Some i) as Hend.
      { intros σ4 (K1 & _ & K3 & ->). split; [by apply K1, H3|]. split; [done|by apply K3]. }
      split; intros σ4 (? & ? & ?)%Hend; apply HQ; try done. by intros id' [= <-].
Qed.

Lemma wp_allocateArenaID s b (Q : result (Z * bool) → _ → Prop) σ :
  pool_inv σ → σ.2.2 !! i = Some (S b) →
  (∀ r σ1, pool_inv σ1 → (∃ b', (b <= b')%nat ∧ σ1.2.2 !! i = Some b') →
     (∀ id re, r = Ok (id, re) → σ1.2.1 !! id = Some i ∧ is_u64 id) → Q r σ1) →
  wpp (allocateArenaID s) Q σ.
Proof.
  intros Hi Hb HQ. unfold allocateArenaID, ClaimFreeArena.
  assert (∀ σ1, pool_inv σ1 → σ1.2.2 !! i = Some (S b) →
    wpp (id ⇐? NextCounter s PrefixArenaLog 0; Ret (Ok (id, false))) Q σ1) as Hnext.
  { intros σ1 Hi1 Hb1. wpb. unfold NextCounter, ReserveCounter. cbn [Z.eqb].
    wpr wp_reserve_loop; [apply pool_guar_refl|intros σ2 H2; by apply H2| |].
    - intros e σ2 H2 σ3 H3. assert (pool_rel i σ1 σ3) as H by by trans σ2.
      apply HQ; [by apply H|exists (S b); split; [lia|]; by destruct H as (_ & _ & _ & ->)|done].
    - intros [m2 [fl bud]] H2. cbv zeta. cbn [fst]. assert (pool_inv (m2, (fl, bud))) as Hi2 by by apply H2.
      replace (if counter_value PrefixArenaLog m2 <? 0 then 0 else counter_value PrefixArenaLog m2)
        with (counter_value PrefixArenaLog m2).
      2:{ destruct (Z.ltb_spec (counter_value PrefixArenaLog m2) 0); [|done].
        destruct Hi2 as (_ & _ & ? & _). cbn in *. lia. }
      assert (bud !! i = Some (S b)) as Hbud by (destruct H2 as (_ & _ & _ & E); cbn in E; by rewrite E).
      destruct (draw_step i m2 fl bud b Hi2 Hbud) as (Hu & Hn & Hi3 & Ho).
      eexists. split.
      + split; [intros _; exact Hi3|]. split; [intros _ _ n x _; by rewrite Ho|]. split.
        * intros x j Hj Hx. cbn [fst snd] in *. rewrite lookup_insert_ne by congruence. done.
        * intros j Hj. cbn [fst snd]. by rewrite list_lookup_insert_ne.
      + assert (<[i:=b]> bud !! i = Some b) as Hbb by (apply list_lookup_insert_eq; by eapply lookup_lt_Some).
        intros σ4 H4. assert (∀ σ5, pool_rel i σ4 σ5 → pool_inv σ5 ∧ σ5.2.2 !! i = Some b ∧
          σ5.2.1 !! counter_value PrefixArenaLog m2 = Some i) as Hend.
        { intros σ5 (K1 & _ & K3 & ->). destruct H4 as (L1 & _ & L3 & ->).
          split; [by apply K1, L1|]. split; [done|]. apply K3, L3, lookup_insert_eq. }
        split; intros σ5 (? & ? & ?)%Hend; apply HQ; try done; try by eauto. by intros id re [= <- <-]. }
  wpb. wpb. wpr wp_GetPrefix; [apply pool_guar_refl| |].
  - intros σ1 H1 σ2 H2. assert (pool_rel i σ σ2) as H by by trans σ1.
    apply Hnext; [by apply H|]. by destruct H as (_ & _ & _ & ->).
  - intros σ1 σ2 H1 H2. assert (pool_rel i σ σ2) as H by by trans σ1.
    apply wp_claim_loop; [by apply H| |].
    + intros k e [Hk Hp]%elem_of_range_prefix. assert (pool_inv σ1) as ((_ & _ & _ & Hf & _) & _) by by apply H1.
      apply Hf; [|done]. apply val_at_is_Some. by eexists.
    + intros r σ3 Hi3 Hb3 Hr. assert (σ3.2.2 !! i = Some (S b)) as Hb3'.
      { rewrite Hb3. by destruct H as (_ & _ & _ & ->). }
      destruct r as [[id|]|e]; [|by apply Hnext..].
      intros σ4 H4. destruct (Hr id eq_refl) as [Hfl Hu]. apply HQ; [by apply H4| |].
      * exists (S b). split; [lia|]. by destruct H4 as (_ & _ & _ & ->).
      * intros id' re [= <- <-]. split; [by apply H4|done].
Qed.

(** Node [i] may still draw [b] numbers, and the pool is in order. *)
Definition ready (b : nat) (σ : mvcc * ghost) : Prop :=
  pool_inv σ ∧ ∃ b', (b <= b')%nat ∧ σ.2.2 !! i = Some b'.

Lemma ready_rel b σ σ' : pool_rel i σ σ' → ready b σ → ready b σ'.
Proof. intros (H1 & _ & _ & H4) (Hi & b' & Hle & Hb). split; [auto|]. exists b'. by rewrite H4. Qed.

Lemma wp_recordOwnership s id b (Q : result unit → _ → Prop) σ :
  ready b σ → σ.2.1 !! id = Some i → is_u64 id →
  (∀ r σ1, ready b σ1 → (r = Ok tt → keep = true → owned σ1.1 (nodeID s) id) → Q r σ1) →
  wpp (recordOwnership s id) Q σ.
Proof.
  intros Hr Hfl Hid HQ. wpb. wpr wp_Txn; [apply pool_guar_refl| | |].
  - intros e σ1 H1 σ2 H2. apply HQ; [|done]. eapply ready_rel; [exact H2|]. by eapply ready_rel.
  - intros σ1 H1 σ2 H2. apply HQ; [|done]. eapply ready_rel; [exact H2|]. by eapply ready_rel.
  - intros [m1 [fl bud]] H1 Hf. assert (ready b (m1, (fl, bud))) as Hr1 by by eapply ready_rel.
    assert (fl !! id = Some i) as Hfl1 by by apply H1.
    destruct (record_step i m1 fl bud (nodeID s) id (proj1 Hr1) Hfl1) as (Hi2 & Ho & Hmono).
    exists (delete id fl, bud). split.
    + split; [done|]. split; [intros _ _ n x _; apply Hmono|]. split; [|done].
      intros x j Hj Hx. cbn [fst snd] in *. rewrite lookup_delete_ne by congruence. done.
    + intros σ3 H3. assert (ready b σ3) as Hr3.
      { eapply ready_rel; [exact H3|]. split; [done|]. apply Hr1. }
      split; intros σ4 H4; apply HQ; try done; try by eapply ready_rel. intros _ Hk.
      apply H4; [by apply Hr3|done|done|]. by apply H3.
Qed.

Definition ids_ok (a : Allocator) : Prop := Forall is_u64 (map ID (arenas a)).

Lemma ids_ok_snoc a ar : ids_ok a → is_u64 (ID ar) → ids_ok (set_arenas (arenas a ++ [ar]) a).
Proof. intros Ha Hr. unfold ids_ok. cbn [arenas set_arenas]. rewrite map_app. apply Forall_app. by split; [|constructor]. Qed.

Lemma wp_AcquireArena s a b (Q : Allocator * result Arena → _ → Prop) σ :
  ready (S b) σ → ids_ok a →
  (∀ a' r σ1, ready b σ1 → ids_ok a' →
     (∀ ar, r = Ok ar → is_u64 (ID ar) ∧ (keep = true → owned σ1.1 (nodeID s) (ID ar))) → Q (a', r) σ1) →
  wpp (AcquireArena s a) Q σ.
Proof.
  intros Hr Ha HQ.
  assert (∀ σ1, ready (S b) σ1 → ready b σ1) as Hw.
  { intros σ1 (H1 & b' & H2 & H3). split; [done|]. exists b'. split; [lia|done]. }
  assert (∀ a' e σ1, ready b σ1 → ids_ok a' → wpp (Ret (a', Err e)) Q σ1) as Herr.
  { intros a' e σ1 H1 Ha' σ2 H2. apply HQ; [by eapply ready_rel|done|done]. }
  unfold AcquireArena. case_if; [by apply Herr; [apply Hw|]|].
  wpb. destruct Hr as (Hi & b' & Hb' & Hbud). destruct b' as [|b']; [lia|].
  eapply (wp_allocateArenaID s b'); [done|done|].
  intros r σ1 Hi1 (b1 & Hb1 & Hbud1) Hr1. assert (ready b σ1) as Hrd by (split; [done|]; exists b1; split; [lia|done]).
  destruct r as [[id re]|e]; [|by apply Herr]. destruct (Hr1 id re eq_refl) as [Hfl Hid].
  case_if; [by apply Herr|]. wpb. apply (wp_recordOwnership s id b); [done|done|done|].
  intros [[]|e] σ2 Hr2 Ho; [|by apply Herr].
  assert (∀ ar σ3, pool_rel i σ2 σ3 → ID ar = id →
    wpp (Ret (set_arenas (arenas a ++ [ar]) a, Ok ar)) Q σ3) as Hok.
  { intros ar σ3 H3 Hid' σ4 H4. assert (pool_rel i σ2 σ4) as H24 by by trans σ3.
    apply HQ; [by eapply ready_rel|by apply ids_ok_snoc; [|rewrite Hid']|].
    intros ar' [= <-]. rewrite Hid'. split; [done|]. intros Hk. apply H24; [apply Hr2|done|done|auto]. }
  destruct re; [|by apply Hok]. wpb. wpr wp_reading; [apply pool_guar_refl|by apply issues_AllExtents|].
  intros [exts|e] σ3 H3; [apply Hok; [done|]; apply ID_markLiveExtents|]. apply Herr; [|done]. by eapply ready_rel.
Qed.

Lemma wp_ReleaseArenaID n id b (Q : result bool → _ → Prop) σ :
  keep = false → ready b σ → is_u64 id → (∀ r σ1, ready b σ1 → Q r σ1) → wpp (ReleaseArenaID n id) Q σ.
Proof.
  intros Hk Hr Hid HQ. wpr wp_txnRaw; [apply pool_guar_refl| | |].
  - intros σ1 H1. apply HQ. by eapply ready_rel.
  - intros σ1 H1. apply HQ. by eapply ready_rel.
  - intros [m1 [fl bud]] H1 Hf. assert (ready b (m1, (fl, bud))) as Hr1 by by eapply ready_rel.
    simpl in Hf. rewrite andb_true_r in Hf. apply eval_key_exists in Hf; [|apply Hr1].
    apply val_at_is_Some in Hf. pose proof (release_step m1 fl bud n id (proj1 Hr1) Hid Hf) as Hi2.
    exists (fl, bud). split; [split; [done|]; split; [unfold grows; congruence|done]|].
    intros σ3 H3. assert (ready b σ3) by (eapply ready_rel; [exact H3|]; split; [done|apply Hr1]). auto.
Qed.

Lemma wp_ReleaseArena s n b (Q : list Z * option err → _ → Prop) σ :
  keep = false → ready b σ → (∀ r σ1, ready b σ1 → Q r σ1) → wpp (ReleaseArena s n) Q σ.
Proof.
  intros Hk Hr HQ. wpb. wpr wp_GetPrefix; [apply pool_guar_refl| |].
  { intros σ1 H1 σ2 H2. apply HQ. do 2 (eapply ready_rel; [eassumption|]). done. }
  intros σ1 σ2 H1 H2. assert (ready b σ2) as Hr2 by (do 2 (eapply ready_rel; [eassumption|]); done).
  clear -Hk Hr2 HQ. generalize (range_kvs (RPrefix (ArenaNodePrefix n)) σ1.1), (@nil Z). intros kvs.
  revert σ2 Hr2. induction kvs as [|[k e] kvs IH]; intros σ2 Hr2 rel; cbn [release_all].
  { intros σ3 H3. apply HQ. by eapply ready_rel. }
  destruct (ParseArenaKey k) as [[n' id]|] eqn:Ek; [|by apply IH].
  wpb. eapply wp_ReleaseArenaID; [done|exact Hr2|by eapply ParseArenaKey_u64|].
  intros [[]|er] σ3 Hr3; [by apply IH|by apply IH|]. intros σ4 H4. apply HQ. by eapply ready_rel.
Qed.

Lemma wp_release_empty s empty a rel b (Q : Allocator * (list Z * option err) → _ → Prop) σ :
  keep = false → ready b σ → ids_ok a → Forall is_u64 (map ID empty) →
  (∀ a' r σ1, ready b σ1 → ids_ok a' → Q (a', r) σ1) → wpp (release_empty s a empty rel) Q σ.
Proof.
  intros Hk Hr Ha He HQ. revert a rel σ Hr Ha. induction empty as [|ar empty IH]; intros a rel σ Hr Ha; cbn [release_empty].
  { intros σ1 H1. apply HQ; [by eapply ready_rel|done]. }
  inversion He as [|? ? Hid He']; subst. wpb. eapply wp_ReleaseArenaID; [done|exact Hr|done|].
  intros [[]|e] σ1 Hr1; [by apply IH|apply IH; [done|done|by apply ids_ok_snoc]|].
  intros σ2 H2. apply HQ; [by eapply ready_rel|by apply ids_ok_snoc].
Qed.

Lemma wp_ReleaseEmptyArenas s a b (Q : Allocator * (list Z * option err) → _ → Prop) σ :
  keep = false → ready b σ → ids_ok a →
  (∀ a' r σ1, ready b σ1 → ids_ok a' → Q (a', r) σ1) → wpp (ReleaseEmptyArenas s a) Q σ.
Proof.
  intros Hk Hr Ha HQ.
  assert (∀ f, Forall is_u64 (map ID (List.filter f (arenas a)))) as Hf.
  { intros f. unfold ids_ok in Ha. revert Ha. induction (arenas a) as [|x l IH]; intros Ha; [constructor|].
    inversion Ha; subst. simpl. case_if; [constructor; [done|by apply IH]|by apply IH]. }
  apply (wp_release_empty s _ _ _ b); try done; apply Hf.
Qed.

Lemma wp_Reconstruct s a b (Q : Allocator * result unit → _ → Prop) σ :
  ready b σ → ids_ok a → (∀ a' r σ1, ready b σ1 → ids_ok a' → Q (a', r) σ1) → wpp (Reconstruct s a) Q σ.
Proof.
  intros Hr Ha HQ. unfold Reconstruct, existingArenaIDs. wpb. wpb. wpr wp_GetPrefix; [apply pool_guar_refl| |].
  { intros σ1 H1 σ2 H2 σ3 H3. apply HQ; [|done]. do 3 (eapply ready_rel; [eassumption|]). done. }
  intros σ1 σ2 H1 H2. assert (ready b σ2) as Hr2 by (do 2 (eapply ready_rel; [eassumption|]); done).
  intros σ3 H3. set (ids := omap _ _).
  assert (Forall is_u64 ids) as Hids.
  { apply Forall_forall. intros x. unfold ids. intros ([k e] & Hin & Hx)%list_elem_of_omap.
    apply elem_of_range_prefix in Hin as [Hk Hp]. assert (pool_inv σ1) as ((_ & _ & Hcan & _) & _) by apply H1, Hr.
    destruct (Hcan k (kv_val e) (kv_lease e)) as (n & id & Hid & _ & Hv & _).
    { apply val_at_Some. eauto. }
    { apply has_prefix_true in Hp as [t ->]. unfold ArenaNodePrefix. rewrite <- app_assoc. apply has_prefix_app. }
    cbn [snd] in Hx. rewrite Hv in Hx. case_bool_decide; [|done]. injection Hx as <-.
    by rewrite DecodeUint64_EncodeUint64. }
  assert (∀ g : Arena → Arena, (∀ ar, ID (g ar) = ID ar) → ids_ok (set_arenas (map g (map new_arena ids)) a)) as Hg.
  { intros g Hg. unfold ids_ok. cbn [arenas set_arenas]. rewrite !map_map.
    replace (map (λ x, ID (g (new_arena x))) ids) with ids; [done|].
    clear -Hg. induction ids as [|x l IH]; [done|]. simpl. rewrite Hg. by f_equal. }
  wpb. wpr wp_reading; [apply pool_guar_refl|by apply issues_AllExtents|].
  intros [exts|e] σ4 H4 σ5 H5; apply HQ; try (do 3 (eapply ready_rel; [eassumption|]); done).
  - apply Hg. intros. apply ID_markLiveExtents.
  - specialize (Hg (λ x, x) ltac:(done)). by rewrite map_id in Hg.
Qed.

Lemma wp_pool_script s cmds a σ :
  keep = false → ready (acquires cmds) σ → ids_ok a →
  wpp (pool_script s a cmds) (λ _ σ1, pool_inv σ1) σ.
Proof.
  intros Hk. revert a σ. induction cmds as [|c cs IH]; intros a σ Hr Ha; cbn [pool_script].
  { intros σ1 H1. apply H1, Hr. }
  destruct c as [| | |n| |sz|off sz].
  - wpb. apply (wp_AcquireArena s a (acquires cs)); [done|done|]. intros a' r σ1 Hr1 Ha1 _. by apply IH.
  - wpb. apply (wp_Reconstruct s a (acquires cs)); [done|done|]. intros a' r σ1 Hr1 Ha1. by apply IH.
  - wpb. apply (wp_ReleaseEmptyArenas s a (acquires cs)); [done|done|done|]. intros a' r σ1 Hr1 Ha1. by apply IH.
  - wpb. apply (wp_ReleaseArena s n (acquires cs)); [done|done|]. intros r σ1 Hr1. by apply IH.
  - wpb. wpr wp_reading; [apply pool_guar_refl|apply issues_ebind; [by apply issues_read|done]|].
    intros r σ1 H1. apply IH; [by eapply ready_rel|done].
  - apply IH; [done|]. unfold ids_ok. by rewrite ID_Allocate.
  - apply IH; [done|]. unfold ids_ok. by rewrite ID_Free.
Qed.
End nodes.

(** ** The pool under any interleaving *)

(** C12. Exclusive ownership.  Nodes run arbitrary sequences of pool operations
    (acquire, rebuild after a restart, return emptied arenas, release another
    node's arenas, allocate and free), interleaved request by request, with
    replies lost and leases expiring: in every reachable state no arena has two
    owners, and none is owned while it is in the free pool. *)
Theorem arena_records_exclusive `{E : Etcd} (nodes : list (Store * Allocator * list pool_cmd)) srv c'
  (Hids : Forall (λ x, ids_ok x.1.2) nodes)
  (Hwf : pool_wf (eview srv)) (Hinit : arenas_exclusive (eview srv))
  (Hctr : 0 <= counter_value PrefixArenaLog (eview srv))
  (Hmax : counter_value PrefixArenaLog (eview srv) +
          Z.of_nat (sum_list (map (λ x, acquires x.2) nodes)) < 2 ^ 64)
  (Hrun : rtc cstep (srv, map (λ x, pool_script x.1.1 x.1.2 x.2) nodes) c') :
  arenas_exclusive (eview c'.1).
Proof.
  assert (pool_inv (eview srv, (∅, map (λ x, acquires x.2) nodes))) as Hinv.
  { split; [done|]. split; [done|]. split; [done|]. split; [done|]. intros id i Hid. done. }
  destruct (cluster_rely_guarantee_inv (pool_rel false) (pool_guar false) (λ _ _ σ, pool_inv σ)
    (λ i j σ σ', pool_guar_rel false i j σ σ') (pool_rel_expire false) pool_inv
    (srv, map (λ x, pool_script x.1.1 x.1.2 x.2) nodes) c' (∅, map (λ x, acquires x.2) nodes))
    as (g & _ & Hend); try done.
  - intros i σ σ' HG. apply HG.
  - intros l m g H. by apply pool_expire.
  - intros i p Hp. simpl in Hp. rewrite list_lookup_fmap in Hp.
    destruct (nodes !! i) as [[[s a] cmds]|] eqn:Ei; [|done]. injection Hp as <-.
    apply wp_pool_script; [done| |by apply (Forall_lookup_1 _ _ _ _ Hids Ei)].
    split; [done|]. exists (acquires cmds). split; [done|]. cbn [fst snd]. by rewrite list_lookup_fmap, Ei.
  - apply Hend.
Qed.

(** Two nodes: "a" acquires twice and returns its (empty) arenas, "b" acquires
    meanwhile and then releases everything "a" holds. *)
Definition pool_nodes : list (Store * Allocator * list pool_cmd) :=
  [(mkStore (lit "a") false None, NewAllocator, [PAcquire; PReleaseEmpty; PAcquire]);
   (mkStore (lit "b") false None, NewAllocator, [PAcquire; PReleaseNode (lit "a"); PAcquire])].
Definition pool_race : ref_srv * list (prog Allocator) :=
  foldl (@cexec ref_etcd _)
    (RefSrv empty_store 0, map (λ x, pool_script x.1.1 x.1.2 x.2) pool_nodes)
    [Step 0; Step 1; Step 0; Step 1; Step 1; Step 0; Step 1; Step 0; Step 1; Step 0; Step 1; Step 1; Step 0; Step 0].

Lemma empty_pool_wf : pool_wf empty_store.
Proof.
  assert (∀ k, val_at k empty_store = None) as Hn by (intros; apply val_at_None; apply lookup_empty).
  split; [exact empty_store_wf|]. unfold owned, pooled. repeat setoid_rewrite Hn.
  split; [done|]. split; [done|]. split; [by intros k []|]. split; [by intros id _ []|by intros id n _ []].
Qed.

Lemma arena_records_exclusive_witness : arenas_exclusive (@eview ref_etcd pool_race.1).
Proof.
  apply (@arena_records_exclusive ref_etcd pool_nodes (RefSrv empty_store 0) pool_race).
  - repeat constructor.
  - exact empty_pool_wf.
  - intros id n _ [x Hx]. vm_compute in Hx. discriminate Hx.
  - vm_compute. discriminate.
  - vm_compute. reflexivity.
  - apply cexec_steps.
Defined.

(** Concurrent acquisitions hand out different arenas: when nodes with
    different identities each acquire an arena, in any interleaving and with
    replies lost, two that succeed hold different arenas. *)
Theorem acquired_arenas_distinct `{E : Etcd} (nodes : list (Store * Allocator)) srv c' i j si ai sj aj
  ai' ari aj' arj
  (Hids : Forall (λ x, ids_ok x.2) nodes)
  (Hwf : pool_wf (eview srv)) (Hinit : arenas_exclusive (eview srv))
  (Hctr : 0 <= counter_value PrefixArenaLog (eview srv))
  (Hmax : counter_value PrefixArenaLog (eview srv) + Z.of_nat (length nodes) < 2 ^ 64)
  (Hrun : rtc cstep (srv, map (λ x, AcquireArena x.1 x.2) nodes) c')
  (Hni : nodes !! i = Some (si, ai)) (Hnj : nodes !! j = Some (sj, aj)) (Hne : nodeID si ≠ nodeID sj)
  (Hi : c'.2 !! i = Some (Ret (ai', Ok ari))) (Hj : c'.2 !! j = Some (Ret (aj', Ok arj))) :
  ID ari ≠ ID arj.
Proof.
  assert (sum_list (replicate (length nodes) 1%nat) = length nodes) as Hsum.
  { clear. induction nodes; simpl; [done|]. by rewrite IHnodes. }
  assert (pool_inv (eview srv, (∅, replicate (length nodes) 1%nat))) as Hinv.
  { split; [done|]. split; [done|]. split; [done|]. cbn [fst snd]. rewrite Hsum. split; [done|].
    intros id k Hid. done. }
  destruct (cluster_rely_guarantee (pool_rel true) (pool_guar true)
    (λ i (r : Allocator * result Arena) σ, pool_inv σ ∧ ∀ x ar, nodes !! i = Some x → r.2 = Ok ar →
       is_u64 (ID ar) ∧ owned σ.1 (nodeID x.1) (ID ar))
    (λ i j σ σ', pool_guar_rel true i j σ σ') (pool_rel_expire true)
    (srv, map (λ x, AcquireArena x.1 x.2) nodes) c' (∅, replicate (length nodes) 1%nat)) as [g Hok]; [|exact Hrun|].
  - intros k p Hp. simpl in Hp. rewrite list_lookup_fmap in Hp.
    destruct (nodes !! k) as [[s a]|] eqn:Ek; [|done]. injection Hp as <-.
    apply (wp_AcquireArena true k s a 0).
    + split; [done|]. exists 1%nat. split; [done|]. cbn [fst snd]. apply lookup_replicate_2. by eapply lookup_lt_Some.
    + by apply (Forall_lookup_1 _ _ _ _ Hids Ek).
    + intros a' r σ1 Hr _ Hres. split; [apply Hr|]. intros x ar [= <-] Hr'.
      destruct (Hres ar Hr') as [? Ho]. split; [done|]. by apply Ho.
  - destruct (cluster_done _ _ _ _ _ _ _ Hok Hi) as [(_ & Hex & _) H1].
    destruct (cluster_done _ _ _ _ _ _ _ Hok Hj) as [_ H2].
    destruct (H1 _ ari Hni eq_refl) as [Hu Ho1]. destruct (H2 _ arj Hnj eq_refl) as [_ Ho2].
    intros Heq. rewrite <- Heq in Ho2. apply Hne. symmetry. by apply (Hex (ID ari) (nodeID si) Hu Ho1).
Qed.

Definition acquire_race : ref_srv * list (prog (Allocator * result Arena)) :=
  foldl (@cexec ref_etcd _)
    (RefSrv empty_store 0, map (λ x, AcquireArena x.1 x.2)
       [(mkStore (lit "a") false None, NewAllocator); (mkStore (lit "b") false None, NewAllocator)])
    [Step 0; Step 1; Step 0; Step 1; Step 0; Step 1; Step 1; Step 1; Step 0; Step 1; Step 1; Step 1].

Definition arena_of (p : option (prog (Allocator * result Arena))) : Z :=
  match p with Some (Ret (_, Ok ar)) => ID ar | _ => -1 end.

Lemma acquired_arenas_distinct_witness :
  arena_of (acquire_race.2 !! 0%nat) ≠ arena_of (acquire_race.2 !! 1%nat).
Proof.
  destruct (acquire_race.2 !! 0%nat) as [[[a0 [r0|]]|]|] eqn:E0; [|exfalso; revert E0; vm_compute; discriminate..].
  destruct (acquire_race.2 !! 1%nat) as [[[a1 [r1|]]|]|] eqn:E1; [|exfalso; revert E1; vm_compute; discriminate..].
  cbn [arena_of].
  apply (@acquired_arenas_distinct ref_etcd
    [(mkStore (lit "a") false None, NewAllocator); (mkStore (lit "b") false None, NewAllocator)]
    (RefSrv empty_store 0) acquire_race 0 1 (mkStore (lit "a") false None) NewAllocator
    (mkStore (lit "b") false None) NewAllocator a0 r0 a1 r1).
  - repeat constructor.
  - exact empty_pool_wf.
  - intros id n _ [x Hx]. vm_compute in Hx. discriminate Hx.
  - vm_compute. discriminate.
  - vm_compute. reflexivity.
  - apply cexec_steps.
  - reflexivity.
  - reflexivity.
  - discriminate.
  - exact E0.
  - exact E1.
Defined.

(** What [ReleaseEmptyArenas] does when the reply to a release is lost:
    the release has taken effect, but the node is told it failed and reattaches
    the arena, so it keeps allocating from an arena that the next acquirer is
    given too.  (The records stay exclusive; the node's own list is what is
    stale.) *)
Theorem lost_release_reply_shares_arena :
  let a := mkStore (lit "a") false None in
  let b := mkStore (lit "b") false None in
  let '(s1, (al, _)) := @run lossy_etcd _ (AcquireArena a NewAllocator) (LossySrv (RefSrv empty_store 0) false) in
  let '(s2, (al', (_, e))) := @run lossy_etcd _ (ReleaseEmptyArenas a al) (LossySrv (ls_inner s1) true) in
  let '(s3, (bl, _)) := @run lossy_etcd _ (AcquireArena b NewAllocator) s2 in
  e = Some EEtcd ∧ map ID (arenas al') = [0] ∧ map ID (arenas bl) = [0] ∧
  ¬ owned (rs_store (ls_inner s3)) (lit "a") 0.
Proof. vm_compute. repeat split. by intros [x Hx]. Qed.
