(* ===== verification/InodeTimes.v ===== *)
(** * Timestamp write-behind

    Models pkg/metadata/inodetimes.go: the queue of timestamp updates that
    directory operations and setattr leave behind, and their publication.  A
    Go [time.Time] is its nanoseconds since the epoch; the zero time of an
    update's [bump], which precedes every clock reading, is [None], and the
    [set] bits are folded into the assigned fields as [Some]. *)

From S2P Require Import Prelude Etcd EtcdFacts Schema Store StoreLogic.

Record timeUpdate := mkTimeUpdate { bump : option Z; atime : option Z; mtime : option Z; ctime : option Z }.
#[global] Instance timeUpdate_eq_dec : EqDecision timeUpdate.
Proof. solve_decision. Defined.

(** The zero value of the struct. *)
Definition no_update : timeUpdate := mkTimeUpdate None None None None.

(** [a.Before(b)] where [None] is the zero time. *)
Definition before (a b : option Z) : bool :=
  match a, b with
  | _, None => false
  | None, Some _ => true
  | Some x, Some y => x <? y
  end.

Definition newest {A} (next old : option A) : option A := match next with Some x => Some x | None => old end.

Definition mergeAssignment (u next : timeUpdate) : timeUpdate :=
  mkTimeUpdate None (newest (atime next) (atime u)) (newest (mtime next) (mtime u)) (newest (ctime next) (ctime u)).

Definition set_Atime (t : Z) (r : InodeRecord) : InodeRecord :=
  mkInode (Ino r) (Size r) (Blocks r) (Mode r) (Nlink r) (UID r) (GID r) (Rdev r) (Blksize r)
    (Generation r) t (Mtime r) (Ctime r).

(** The record with the update applied, and whether anything moved. *)
Definition apply (u : timeUpdate) (rec : InodeRecord) : InodeRecord * bool :=
  let '(rec, changed) :=
    match atime u with
    | Some t => if negb (Atime rec =? t) then (set_Atime t rec, true) else (rec, false)
    | None => (rec, false)
    end in
  let '(rec, changed) :=
    match mtime u with
    | Some t => if negb (Mtime rec =? t) then (set_Mtime t rec, true) else (rec, changed)
    | None => (rec, changed)
    end in
  let '(rec, changed) :=
    match ctime u with
    | Some t => if Ctime rec <? t then (set_Ctime t rec, true) else (rec, changed)
    | None => (rec, changed)
    end in
  match bump u with
  | Some t => if Mtime rec <? t then (set_Ctime t (set_Mtime t rec), true) else (rec, changed)
  | None => (rec, changed)
  end.

(** [s.dirTouches()]: [None] when updates are written through. *)
Abbreviation Touch := (option (gmap Z timeUpdate)).

Definition queue (dirty : gmap Z timeUpdate) (ino at_ : Z) : gmap Z timeUpdate :=
  let queued := default no_update (dirty !! ino) in
  let queued := if before (bump queued) (Some at_)
                then mkTimeUpdate (Some at_) (atime queued) (mtime queued) (ctime queued) else queued in
  <[ino := queued]> dirty.

Definition requeue (dirty : gmap Z timeUpdate) (ino : Z) (u : timeUpdate) : gmap Z timeUpdate :=
  match dirty !! ino with
  | None => <[ino := u]> dirty
  | Some newer =>
    let u := mergeAssignment u newer in
    let u := if before (bump u) (bump newer)
             then mkTimeUpdate (bump newer) (atime u) (mtime u) (ctime u) else u in
    <[ino := u]> dirty
  end.

(** The arguments are already reduced to the fields the setattr names. *)
Definition QueueInodeTimes (t : Touch) (ino : Z) (a m c : option Z) : Touch * bool :=
  match t with
  | None => (None, false)
  | Some dirty =>
    match a, m, c with
    | None, None, None => (Some dirty, true)
    | _, _, _ =>
      let queued := default no_update (dirty !! ino) in
      (Some (<[ino := mergeAssignment queued (mkTimeUpdate None a m c)]> dirty), true)
    end
  end.

Definition PendingInodeTimes (t : Touch) (rec : InodeRecord) : InodeRecord * bool :=
  match t with
  | None => (rec, false)
  | Some dirty =>
    match dirty !! Ino rec with
    | None => (rec, false)
    | Some queued => apply queued rec
    end
  end.

Definition TakeInodeTimes (t : Touch) (ino : Z) : Touch * option (Z * timeUpdate) :=
  match t with
  | None => (None, None)
  | Some dirty =>
    match dirty !! ino with
    | None => (Some dirty, None)
    | Some u => (Some (delete ino dirty), Some (ino, u))
    end
  end.

Definition RequeueInodeTimes (t : Touch) (p : Z * timeUpdate) : Touch :=
  (λ dirty, requeue dirty p.1 p.2) <$> t.

(** ** Publication *)

Definition commitInodeTimes (s : Store) (ino : Z) (u : timeUpdate) : prog (result unit) :=
  retryCAS
    (x ⇐? GetInodeRev s ino;
     match x.1 with
     | None => Ret (Ok (Some tt))
     | Some rec =>
       let '(rec', moved) := apply u rec in
       if (moved : bool) then
         ok ⇐? Txn s [InodeUnchanged ino x.2] [put (InodeKey ino) (EncodeInode rec')] [];
         Ret (Ok (if (ok : bool) then Some tt else None))
       else Ret (Ok (Some tt))
     end).

(** The comparisons and writes of a batch, and the inodes that failed to read. *)
Fixpoint batch_build (s : Store) (due : list (Z * timeUpdate))
  : prog (list cmp * list op * list (Z * timeUpdate)) :=
  match due with
  | [] => Ret ([], [], [])
  | (ino, u) :: due' =>
    x ⇐ GetInodeRev s ino;
    rest ⇐ batch_build s due';
    let '(cmps, ops, failed) := rest in
    Ret match x with
        | Err _ => (cmps, ops, (ino, u) :: failed)
        | Ok (None, _) => (cmps, ops, failed)
        | Ok (Some rec, rev) =>
          let '(rec', moved) := apply u rec in
          if (moved : bool)
          then (InodeUnchanged ino rev :: cmps, put (InodeKey ino) (EncodeInode rec') :: ops, failed)
          else (cmps, ops, failed)
        end
  end.

Fixpoint settle_each (s : Store) (due failed : list (Z * timeUpdate)) : prog (list (Z * timeUpdate)) :=
  match due with
  | [] => Ret failed
  | (ino, u) :: due' =>
    if bool_decide (ino ∈ map fst failed) then settle_each s due' failed
    else
      e ⇐ commitInodeTimes s ino u;
      settle_each s due' match e with Ok _ => failed | Err _ => failed ++ [(ino, u)] end
  end.

(** The updates it could not publish. *)
Definition commitInodeTimesBatch (s : Store) (due : list (Z * timeUpdate)) : prog (list (Z * timeUpdate)) :=
  match due with
  | [] => Ret []
  | _ =>
    b ⇐ batch_build s due;
    let '(cmps, ops, failed) := b in
    match ops with
    | [] => Ret failed
    | _ =>
      ok ⇐ Txn s cmps ops [];
      match ok with
      | Ok true => Ret failed
      | _ => settle_each s due failed
      end
    end
  end.

Definition timeBatchInodes : nat := 60.

(** Pieces of [size]; the iteration order of a Go map is not specified, so the
    due updates come as a list in any order. *)
Fixpoint chunk_updates (fuel size : nat) (due : list (Z * timeUpdate)) : list (list (Z * timeUpdate)) :=
  match fuel, due with
  | O, _ | _, [] => []
  | S f, _ => take size due :: chunk_updates f size (drop size due)
  end.
Definition chunkUpdates (due : list (Z * timeUpdate)) (size : nat) : list (list (Z * timeUpdate)) :=
  chunk_updates (length due) size due.

Fixpoint flush_chunks (s : Store) (dirty : gmap Z timeUpdate) (chunks : list (list (Z * timeUpdate)))
  : prog (gmap Z timeUpdate) :=
  match chunks with
  | [] => Ret dirty
  | c :: cs =>
    failed ⇐ commitInodeTimesBatch s c;
    flush_chunks s (foldl (λ d x, requeue d x.1 x.2) dirty failed) cs
  end.

Definition flush (s : Store) (shuffle : list (Z * timeUpdate) → list (Z * timeUpdate))
  (dirty : gmap Z timeUpdate) (only : Z) : prog (gmap Z timeUpdate) :=
  let due := filter (λ x, only = 0 ∨ x.1 = only) dirty in
  flush_chunks s (dirty ∖ due) (chunkUpdates (shuffle (map_to_list due)) timeBatchInodes).

Definition FlushInodeTimes (s : Store) (shuffle : list (Z * timeUpdate) → list (Z * timeUpdate))
  (t : Touch) (ino : Z) : prog Touch :=
  match t with
  | None => Ret None
  | Some dirty => d ⇐ flush s shuffle dirty ino; Ret (Some d)
  end.

(** [touchDir] of dirent.go: queued, or committed at once. *)
Definition touchDir (s : Store) (t : Touch) (ino : Z) : prog Touch :=
  now ⇐ call QNow;
  match t with
  | Some dirty => Ret (Some (queue dirty ino now))
  | None => _ ⇐ commitInodeTimes s ino (mkTimeUpdate (Some now) None None None); Ret None
  end.

(** An update touches nothing but the times. *)
Lemma apply_fields u r :
  Ino (apply u r).1 = Ino r ∧ Mode (apply u r).1 = Mode r ∧ Nlink (apply u r).1 = Nlink r.
Proof.
  destruct u as [b a m cc]. unfold apply. cbn [bump atime mtime ctime].
  destruct a, m, cc, b; repeat case_if; done.
Qed.
