(* ===== verification/Dirents.v ===== *)
(** * The namespace: directory entries and the operations on names

    Models pkg/metadata/dirent.go.  Every namespace mutation is one guarded
    transaction; the ones that read what they write retry on contention.  The
    directory timestamps owed by an operation go to the queue of InodeTimes,
    which each operation takes and returns. *)

From S2P Require Import Prelude Etcd EtcdFacts Schema Store StoreLogic InodeTimes.

Definition LookupDirent (s : Store) (parent : Z) (name : bytes) : prog (result Z) :=
  v ⇐? Get s (DirentKey parent name);
  Ret (Ok match v with None => 0 | Some v => DecodeUint64 v end).

Definition CreateDirent (s : Store) (parent : Z) (name : bytes) (ino : Z) : prog (result unit) :=
  ok ⇐? Txn s [key_absent (DirentKey parent name)] [PutDirent parent name ino] [];
  Ret (if (ok : bool) then Ok tt else Err ErrExists).

Definition RemoveDirent (s : Store) (parent : Z) (name : bytes) : prog (result unit) :=
  ok ⇐? Txn s [key_present (DirentKey parent name)] [DeleteDirent parent name] [];
  Ret (if (ok : bool) then Ok tt else Err EOther).

Record DirentEntry := mkDirentEntry { d_name : bytes; d_ino : Z }.

Definition extractNameFromKey (key : bytes) (parent : Z) : bytes :=
  let prefix := DirentPrefix parent in
  if bool_decide (length prefix < length key)%nat then drop (length prefix) key else key.

Definition dirent_entry (parent : Z) (x : bytes * kv) : DirentEntry :=
  mkDirentEntry (extractNameFromKey x.1 parent) (DecodeUint64 (kv_val x.2)).

Definition ListDirents (s : Store) (parent : Z) : prog (result (list DirentEntry)) :=
  kvs ⇐? GetPrefix s (DirentPrefix parent); Ret (Ok (map (dirent_entry parent) kvs)).

Definition ListDirentsAfter (s : Store) (parent : Z) (after : bytes) (limit : Z)
  : prog (result (list DirentEntry)) :=
  let prefix := DirentPrefix parent in
  let start := match after with [] => prefix | _ => DirentKey parent after ++ [0] end in
  x ⇐? read s (RAfter start prefix limit) false; Ret (Ok (map (dirent_entry parent) x.1)).

(** ** Link counts of directories *)

Record nlinkAdjust := mkAdjust { a_cmps : list cmp; a_ops : list op }.
Definition no_adjust : nlinkAdjust := mkAdjust [] [].

(** [delta] as the source passes it: positive or negative, never 0. *)
Definition adjustDirNlink (s : Store) (ino delta : Z) : prog (result nlinkAdjust) :=
  x ⇐? GetInodeRev s ino;
  match x.1 with
  | None => Ret (Ok no_adjust)
  | Some rec =>
    let write (n : Z) :=
      now ⇐ call QNow;
      let rec := set_Ctime now (set_Mtime now (set_Nlink n rec)) in
      Ret (Ok (mkAdjust [InodeUnchanged ino x.2] [put (InodeKey ino) (EncodeInode rec)])) in
    if 0 <? delta then write (wrap32 (Nlink rec + delta))
    else if (delta <? 0) && (- delta <=? Nlink rec) then write (Nlink rec + delta)
    else Ret (Ok no_adjust)
  end.

(** ** Creating *)

Record CreateExtra := mkExtra { Cmps : list cmp; Ops : list op }.
Definition no_extra : CreateExtra := mkExtra [] [].

Definition is_dir (rec : InodeRecord) : bool := ftype (Mode rec) =? ModeDir.

(** One attempt of [atomicCreate]. *)
Definition create_attempt (s : Store) (parent : Z) (name : bytes) (rec : InodeRecord) (extra : CreateExtra)
  : prog (result (option unit)) :=
  let cmps := [key_absent (DirentKey parent name); key_absent (InodeKey (Ino rec))] ++ Cmps extra in
  let ops := [PutDirent parent name (Ino rec); PutInode rec] ++ Ops extra in
  bump ⇐? (if is_dir rec then adjustDirNlink s parent 1 else Ret (Ok no_adjust));
  ok ⇐? Txn s (cmps ++ a_cmps bump) (ops ++ a_ops bump) [];
  if (ok : bool) then Ret (Ok (Some tt))
  else
    existing ⇐ LookupDirent s parent name;
    Ret match existing with
        | Ok i => if negb (i =? 0) then Err ErrExists
                  else if negb (is_dir rec) then Err ErrExists else Ok None
        | Err _ => if negb (is_dir rec) then Err ErrExists else Ok None
        end.

Definition atomicCreate (s : Store) (t : Touch) (parent : Z) (name : bytes) (rec : InodeRecord)
  (extra : CreateExtra) : prog (Touch * result unit) :=
  r ⇐ retryCAS (create_attempt s parent name rec extra);
  match r with
  | Err e => Ret (t, Err e)
  | Ok _ =>
    if negb (is_dir rec) then t' ⇐ touchDir s t parent; Ret (t', Ok tt) else Ret (t, Ok tt)
  end.

(** The record is returned with the error, as in the source. *)
Definition create_with (s : Store) (t : Touch) (parent : Z) (name : bytes) (extra : CreateExtra)
  (mk : Z → InodeRecord) : prog (Touch * (InodeRecord * result unit)) :=
  now ⇐ call QNow;
  x ⇐ atomicCreate s t parent name (mk now) extra;
  Ret (x.1, (mk now, x.2)).

Definition AtomicCreateFile (s : Store) (t : Touch) (parent : Z) (name : bytes) (ino mode uid gid : Z)
  (extra : CreateExtra) : prog (Touch * (InodeRecord * result unit)) :=
  create_with s t parent name extra (λ now, NewInodeRecord now ino mode uid gid).

Definition AtomicCreateDir (s : Store) (t : Touch) (parent : Z) (name : bytes) (ino mode uid gid : Z)
  : prog (Touch * (InodeRecord * result unit)) :=
  create_with s t parent name no_extra
    (λ now, set_Size 4096 (NewInodeRecord now ino (Z.lor mode ModeDir) uid gid)).

Definition AtomicCreateSymlink (s : Store) (t : Touch) (parent : Z) (name : bytes) (ino : Z) (target : bytes)
  (uid gid : Z) : prog (Touch * (InodeRecord * result unit)) :=
  create_with s t parent name (mkExtra [] [put (InodeSymlinkKey ino) target])
    (λ now, set_Size (Z.of_nat (length target)) (NewInodeRecord now ino (Z.lor ModeSymlink 511) uid gid)).

Definition AtomicCreateNode (s : Store) (t : Touch) (parent : Z) (name : bytes) (ino mode rdev uid gid : Z)
  : prog (Touch * (InodeRecord * result unit)) :=
  create_with s t parent name no_extra (λ now, set_Rdev rdev (NewInodeRecord now ino mode uid gid)).

(** ** Linking *)

Definition link_attempt (s : Store) (ino parent : Z) (name : bytes) : prog (result (option InodeRecord)) :=
  x ⇐? GetInodeRev s ino;
  match x.1 with
  | None => Ret (Err ErrNotFound)
  | Some rec =>
    if is_dir rec then Ret (Err ErrPerm)
    else
      now ⇐ call QNow;
      let rec := set_Ctime now (set_Nlink (wrap32 (Nlink rec + 1)) rec) in
      ok ⇐? Txn s [key_absent (DirentKey parent name); InodeUnchanged ino x.2]
                  [PutDirent parent name ino; put (InodeKey ino) (EncodeInode rec)] [];
      if (ok : bool) then Ret (Ok (Some rec))
      else
        existing ⇐ LookupDirent s parent name;
        Ret match existing with
            | Ok i => if negb (i =? 0) then Err ErrExists else Ok None
            | Err _ => Ok None
            end
  end.

Definition AtomicLink (s : Store) (t : Touch) (ino parent : Z) (name : bytes)
  : prog (Touch * result InodeRecord) :=
  r ⇐ retryCAS (link_attempt s ino parent name);
  match r with
  | Err e => Ret (t, Err e)
  | Ok linked => t' ⇐ touchDir s t parent; Ret (t', Ok linked)
  end.

(** ** Unlinking *)

(** [time.Now] is read only where a surviving link is rewritten. *)
Definition unlinkInodeOps (rec : InodeRecord) : prog (list op) :=
  let drop := [OpDelete (InodeKey (Ino rec)) false; OpDelete (XattrPrefix (Ino rec)) true] in
  if is_dir rec then Ret drop
  else if 1 <? Nlink rec then
    now ⇐ call QNow;
    let reduced := set_Ctime now (set_Nlink (Nlink rec - 1) rec) in
    Ret [put (InodeKey (Ino rec)) (EncodeInode reduced)]
  else if ftype (Mode rec) =? ModeSymlink
       then Ret (drop ++ [OpDelete (InodeSymlinkKey (Ino rec)) false])
       else Ret drop.

Definition first_kv (kvs : list (bytes * kv)) : option kv :=
  match kvs with [] => None | (_, e) :: _ => Some e end.

(** The writes an unlink makes beside removing the name, and the inode number
    it reports as removed. *)
Definition unlink_tail (s : Store) (ino : Z) (rec : InodeRecord) (heldOpen : option (Z → bool))
  : prog (list op * Z) :=
  if (Nlink rec <=? 1) && negb (is_dir rec) && match heldOpen with Some h => h ino | None => false end then
    now ⇐ call QNow;
    let orphaned := set_Ctime now (set_Nlink 0 rec) in
    Ret ([put (InodeKey ino) (EncodeInode orphaned); put (OrphanKey (nodeID s) ino) []], 0)
  else
    tail ⇐ unlinkInodeOps rec;
    Ret (tail, if Nlink rec <=? 1 then ino else 0).

Definition unlink_attempt (s : Store) (t : Touch) (parent : Z) (name : bytes) (heldOpen : option (Z → bool))
  : prog (result (option (Touch * Z))) :=
  let direntKey := DirentKey parent name in
  d ⇐? GetRevision s direntKey;
  match first_kv d.1 with
  | None => Ret (Err ErrNotFound)
  | Some e =>
    let ino := DecodeUint64 (kv_val e) in
    x ⇐? GetInodeRev s ino;
    match x.1 with
    | None => Ret (Err ErrNotFound)
    | Some rec =>
      tl ⇐ unlink_tail s ino rec heldOpen;
      ok ⇐? Txn s [mod_is direntKey (kv_mod e); InodeUnchanged ino x.2]
                  (DeleteDirent parent name :: tl.1) [];
      if (ok : bool) then t' ⇐ touchDir s t parent; Ret (Ok (Some (t', tl.2))) else Ret (Ok None)
    end
  end.

Definition AtomicUnlinkKeepingOpen (s : Store) (t : Touch) (parent : Z) (name : bytes)
  (heldOpen : option (Z → bool)) : prog (Touch * result Z) :=
  r ⇐ retryCAS (unlink_attempt s t parent name heldOpen);
  Ret match r with Ok (t', removed) => (t', Ok removed) | Err e => (t, Err e) end.

Definition AtomicUnlink (s : Store) (t : Touch) (parent : Z) (name : bytes) : prog (Touch * result unit) :=
  x ⇐ AtomicUnlinkKeepingOpen s t parent name None;
  Ret (x.1, match x.2 with Ok _ => Ok tt | Err e => Err e end).

(** ** Removing a directory *)

Definition DirEmpty (ino : Z) : cmp := prefix_absent (DirentPrefix ino).

Definition rmdir_attempt (s : Store) (parent : Z) (name : bytes) : prog (result (option unit)) :=
  let direntKey := DirentKey parent name in
  d ⇐? GetRevision s direntKey;
  match first_kv d.1 with
  | None => Ret (Err ErrNotFound)
  | Some e =>
    let ino := DecodeUint64 (kv_val e) in
    x ⇐? GetInodeRev s ino;
    match x.1 with
    | None => Ret (Err ErrNotFound)
    | Some rec =>
      if negb (is_dir rec) then Ret (Err ErrNotDir)
      else
        drop ⇐? adjustDirNlink s parent (-1);
        ok ⇐? Txn s ([mod_is direntKey (kv_mod e); InodeUnchanged ino x.2; DirEmpty ino] ++ a_cmps drop)
                    ([DeleteDirent parent name; OpDelete (InodeKey ino) false] ++ a_ops drop) [];
        if (ok : bool) then Ret (Ok (Some tt))
        else
          entries ⇐ ListDirents s ino;
          Ret match entries with Ok (_ :: _) => Err ErrNotEmpty | _ => Ok None end
    end
  end.

Definition AtomicRmdir (s : Store) (parent : Z) (name : bytes) : prog (result unit) :=
  retryCAS (rmdir_attempt s parent name).

(** ** Renaming *)

Definition RenameNoReplace : Z := 1.
Definition RenameExchange : Z := 2.

Definition commitRename (s : Store) (cmps : list cmp) (ops : list op) : prog (result unit) :=
  ok ⇐? Txn s cmps ops []; Ret (if (ok : bool) then Ok tt else Err ErrConflict).

(** The reverse index of the dirents: the last parent listed for an inode wins. *)
Definition parent_index (kvs : list (bytes * kv)) : gmap Z Z :=
  foldl (λ m x, match ParseDirentKey x.1 with
                | Some (p, _) => <[DecodeUint64 (kv_val x.2) := p]> m
                | None => m
                end) ∅ kvs.

(** The walk up; [None] is the error of a chain longer than the index. *)
Fixpoint walk_up (parent : gmap Z Z) (fuel : nat) (ino ancestor : Z) : option bool :=
  match fuel with
  | O => None
  | S f =>
    match parent !! ino with
    | None => Some false
    | Some next => if next =? ancestor then Some true else walk_up parent f next ancestor
    end
  end.

Definition isDescendant (s : Store) (ino ancestor : Z) : prog (result bool) :=
  if ino =? ancestor then Ret (Ok true)
  else
    kvs ⇐? GetPrefix s PrefixDirent;
    let parent := parent_index kvs in
    Ret match walk_up parent (S (size parent)) ino ancestor with Some b => Ok b | None => Err EOther end.

(** The link-count moves of a rename.  A Go map holds them; its two entries are
    visited here in the order old parent, new parent (the order does not matter
    to the transaction: the entries write different keys). *)
Definition rename_deltas (oldParent newParent : Z) (srcIsDir victimIsDir : bool) : list (Z * Z) :=
  let moved := srcIsDir && negb (oldParent =? newParent) in
  let dNew := (if moved then 1 else 0) - (if victimIsDir then 1 else 0) in
  (if moved then [(oldParent, -1)] else []) ++ [(newParent, dNew)].

Fixpoint adjust_all (s : Store) (ds : list (Z * Z)) (cmps : list cmp) (ops : list op)
  : prog (result (list cmp * list op)) :=
  match ds with
  | [] => Ret (Ok (cmps, ops))
  | (ino, delta) :: ds' =>
    if delta =? 0 then adjust_all s ds' cmps ops
    else adj ⇐? adjustDirNlink s ino delta;
         adjust_all s ds' (cmps ++ a_cmps adj) (ops ++ a_ops adj)
  end.

Definition applyRenameNlink (s : Store) (oldParent newParent : Z) (srcIsDir victimIsDir : bool)
  (cmps : list cmp) (ops : list op) : prog (result (list cmp * list op)) :=
  adjust_all s (rename_deltas oldParent newParent srcIsDir victimIsDir) cmps ops.

Definition touchRenameDirs (s : Store) (t : Touch) (oldParent newParent : Z) : prog Touch :=
  t ⇐ touchDir s t oldParent;
  if negb (newParent =? oldParent) then touchDir s t newParent else Ret t.

(** Commit the rename, its link-count moves folded in. *)
Definition finish_rename (s : Store) (oldParent newParent : Z) (srcIsDir victimIsDir : bool)
  (cmps : list cmp) (ops : list op) : prog (result unit) :=
  co ⇐? applyRenameNlink s oldParent newParent srcIsDir victimIsDir cmps ops;
  commitRename s co.1 co.2.

(** What replacing [victim] adds to the rename, or why it is refused. *)
Definition replace_victim (s : Store) (srcIsDir : bool) (victimIno : Z)
  : prog (result (list cmp * list op * bool)) :=
  x ⇐? GetInodeRev s victimIno;
  match x.1 with
  | None => Ret (Ok ([], [], false))
  | Some victim =>
    let victimIsDir := is_dir victim in
    if srcIsDir && negb victimIsDir then Ret (Err ErrNotDir)
    else if negb srcIsDir && victimIsDir then Ret (Err ErrIsDir)
    else
      empty ⇐? (if victimIsDir then
                  entries ⇐? ListDirents s victimIno;
                  Ret match entries with [] => Ok [DirEmpty victimIno] | _ => Err ErrNotEmpty end
                else Ret (Ok []));
      ops ⇐ unlinkInodeOps victim;
      Ret (Ok (empty ++ [InodeUnchanged victimIno x.2], ops, victimIsDir))
  end.

(** The body of [AtomicRename] up to its commit. *)
Definition rename_commit (s : Store) (oldParent : Z) (oldName : bytes) (newParent : Z) (newName : bytes)
  (ino flags : Z) : prog (result unit) :=
  if negb (Z.land flags RenameExchange =? 0) then Ret (Err ErrInvalid)
  else
    src ⇐? GetInode s ino;
    let srcIsDir := match src with Some r => is_dir r | None => false end in
    ok ⇐? (if srcIsDir then
             under ⇐? isDescendant s newParent ino;
             Ret (if (newParent =? ino) || under then Err ErrInvalid else Ok tt)
           else Ret (Ok tt));
    let cmps := [key_present (DirentKey oldParent oldName)] in
    let ops := [DeleteDirent oldParent oldName; PutDirent newParent newName ino] in
    let targetKey := DirentKey newParent newName in
    target ⇐? GetRevision s targetKey;
    match first_kv target.1 with
    | None => finish_rename s oldParent newParent srcIsDir false (cmps ++ [key_absent targetKey]) ops
    | Some e =>
      if negb (Z.land flags RenameNoReplace =? 0) then Ret (Err ErrExists)
      else
        v ⇐? replace_victim s srcIsDir (DecodeUint64 (kv_val e));
        let '(vcmps, vops, victimIsDir) := v in
        finish_rename s oldParent newParent srcIsDir victimIsDir
          (cmps ++ [mod_is targetKey (kv_mod e)] ++ vcmps) (ops ++ vops)
    end.

Definition AtomicRename (s : Store) (t : Touch) (oldParent : Z) (oldName : bytes) (newParent : Z)
  (newName : bytes) (ino flags : Z) : prog (Touch * result unit) :=
  r ⇐ rename_commit s oldParent oldName newParent newName ino flags;
  match r with
  | Err e => Ret (t, Err e)
  | Ok _ => t' ⇐ touchRenameDirs s t oldParent newParent; Ret (t', Ok tt)
  end.

(** ** Orphans *)

Definition DeleteOrphan (s : Store) (ino : Z) : prog (result unit) :=
  rec ⇐? GetInode s ino;
  tail ⇐ match rec with
         | Some r => if Nlink r =? 0 then unlinkInodeOps r else Ret []
         | None => Ret []
         end;
  _ ⇐? Txn s [] (OpDelete (OrphanKey (nodeID s) ino) false :: tail) []; Ret (Ok tt).

Definition trim_prefix (p s : bytes) : bytes := match cut_prefix p s with Some t => t | None => s end.

Definition ListOrphans (s : Store) (node : bytes) : prog (result (list Z)) :=
  kvs ⇐? GetPrefix s (OrphanPrefix node);
  Ret (Ok (omap (λ x, ParseUint (trim_prefix (OrphanPrefix node) x.1)) kvs)).
