(* ===== verification/Fencing.v ===== *)
(** * A fenced node cannot write

    Every mutation a node makes through its guarded store (pkg/metadata/client.go
    and everything built on it: names, inodes, timestamps, extents, counters,
    locks) carries the node's generation as a comparison.  Once the stored
    generation has moved on, any sequence of these operations, whatever etcd
    answers, leaves every key as it was. *)

From S2P Require Import Prelude Etcd EtcdFacts Schema Store StoreLogic StoreProps Locks Extents InodeTimes Dirents.

(** The guarded operations of a node. *)
Inductive node_op :=
| NPut (k v : bytes) (lease : Z)
| NDelete (k : bytes)
| NDeletePrefix (p : bytes)
| NCreateInode (ino mode uid gid : Z)
| NReserve (key : bytes) (floor count : Z)
| NAppendExtent (ino logicalOff diskOff len gen : Z)
| NCreateDirent (parent : Z) (name : bytes) (ino : Z)
| NRemoveDirent (parent : Z) (name : bytes)
| NCreateFile (parent : Z) (name : bytes) (ino mode uid gid : Z) (extra : CreateExtra)
| NCreateDir (parent : Z) (name : bytes) (ino mode uid gid : Z)
| NSymlink (parent : Z) (name : bytes) (ino : Z) (target : bytes) (uid gid : Z)
| NMknod (parent : Z) (name : bytes) (ino mode rdev uid gid : Z)
| NLink (ino parent : Z) (name : bytes)
| NUnlink (parent : Z) (name : bytes) (heldOpen : option (Z → bool))
| NRmdir (parent : Z) (name : bytes)
| NRename (oldParent : Z) (oldName : bytes) (newParent : Z) (newName : bytes) (ino flags : Z)
| NDeleteOrphan (ino : Z)
| NFlushTimes (shuffle : list (Z * timeUpdate) → list (Z * timeUpdate)) (ino : Z)
| NAcquireLock (ls : LockState) (ino : Z) (mode : bytes) (ttl : Z)
| NReleaseLock (ino : Z) (mode holder : bytes)
| NReleaseLocks (batch : list LockRelease).

Definition node_run (s : Store) (t : Touch) (o : node_op) : prog Touch :=
  match o with
  | NPut k v l => _ ⇐ Put s k v l; Ret t
  | NDelete k => _ ⇐ Delete s k; Ret t
  | NDeletePrefix p => _ ⇐ DeletePrefix s p; Ret t
  | NCreateInode i m u g => _ ⇐ CreateInode s i m u g; Ret t
  | NReserve k f c => _ ⇐ ReserveCounter s k f c; Ret t
  | NAppendExtent i lo d l g => _ ⇐ AppendExtent s i lo d l g; Ret t
  | NCreateDirent p n i => _ ⇐ CreateDirent s p n i; Ret t
  | NRemoveDirent p n => _ ⇐ RemoveDirent s p n; Ret t
  | NCreateFile p n i m u g x => r ⇐ AtomicCreateFile s t p n i m u g x; Ret r.1
  | NCreateDir p n i m u g => r ⇐ AtomicCreateDir s t p n i m u g; Ret r.1
  | NSymlink p n i tg u g => r ⇐ AtomicCreateSymlink s t p n i tg u g; Ret r.1
  | NMknod p n i m d u g => r ⇐ AtomicCreateNode s t p n i m d u g; Ret r.1
  | NLink i p n => r ⇐ AtomicLink s t i p n; Ret r.1
  | NUnlink p n h => r ⇐ AtomicUnlinkKeepingOpen s t p n h; Ret r.1
  | NRmdir p n => _ ⇐ AtomicRmdir s p n; Ret t
  | NRename p n p' n' i f => r ⇐ AtomicRename s t p n p' n' i f; Ret r.1
  | NDeleteOrphan i => _ ⇐ DeleteOrphan s i; Ret t
  | NFlushTimes sh i => FlushInodeTimes s sh t i
  | NAcquireLock ls i m ttl => _ ⇐ AcquireLock s ls i m ttl; Ret t
  | NReleaseLock i m h => _ ⇐ ReleaseLock s i m h; Ret t
  | NReleaseLocks b => _ ⇐ ReleaseLocks s b; Ret t
  end.

Fixpoint node_script (s : Store) (t : Touch) (os : list node_op) : prog Touch :=
  match os with
  | [] => Ret t
  | o :: os' => t' ⇐ node_run s t o; node_script s t' os'
  end.

Section guarded.
Context (s : Store) (g : Z) (Hg : guard s = Some (Some g)).
Abbreviation ok p := (issues (guarded_req (nodeID s) g) p).

Lemma guarded_commitInodeTimes ino u : ok (commitInodeTimes s ino u).
Proof. apply issues_retryCAS; [done|]. issues_auto. Qed.

Lemma guarded_touchDir t ino : ok (touchDir s t ino).
Proof.
  apply issues_bind; [by split|]. intros now. destruct t; [done|].
  apply issues_bind; [apply guarded_commitInodeTimes|done].
Qed.

Lemma guarded_LookupDirent p n : ok (LookupDirent s p n).
Proof. unfold LookupDirent. issues_auto. Qed.

Lemma guarded_adjustDirNlink i d : ok (adjustDirNlink s i d).
Proof. unfold adjustDirNlink. issues_auto. Qed.
End guarded.
#[export] Hint Resolve guarded_commitInodeTimes guarded_touchDir guarded_LookupDirent guarded_adjustDirNlink : issues.

Section operations.
Context (s : Store) (g : Z) (Hg : guard s = Some (Some g)).
Abbreviation ok p := (issues (guarded_req (nodeID s) g) p).

Lemma guarded_ListDirents p : ok (ListDirents s p).
Proof. unfold ListDirents. issues_auto. Qed.

Lemma guarded_unlinkInodeOps rec : ok (unlinkInodeOps rec).
Proof. unfold unlinkInodeOps. issues_auto. Qed.

Lemma guarded_create t p n x mk : ok (create_with s t p n x mk).
Proof.
  apply issues_bind; [by split|]. intros now. apply issues_bind; [|done].
  unfold atomicCreate. apply issues_bind; [apply issues_retryCAS; [done|]|].
  - unfold create_attempt. issues_auto.
  - issues_auto.
Qed.

Lemma guarded_link t i p n : ok (AtomicLink s t i p n).
Proof.
  unfold AtomicLink. apply issues_bind; [apply issues_retryCAS; [done|]|issues_auto].
  unfold link_attempt. issues_auto.
Qed.

Lemma guarded_unlink t p n h : ok (AtomicUnlinkKeepingOpen s t p n h).
Proof.
  unfold AtomicUnlinkKeepingOpen. apply issues_bind; [apply issues_retryCAS; [done|]|issues_auto].
  unfold unlink_attempt, unlink_tail, GetRevision. pose proof guarded_unlinkInodeOps. issues_auto.
Qed.

Lemma guarded_rmdir p n : ok (AtomicRmdir s p n).
Proof.
  apply issues_retryCAS; [done|]. unfold rmdir_attempt, GetRevision. pose proof guarded_ListDirents. issues_auto.
Qed.

Lemma guarded_finish_rename p p' b c cs os : ok (finish_rename s p p' b c cs os).
Proof.
  apply issues_ebind; [|intros; unfold commitRename; issues_auto]. unfold applyRenameNlink.
  generalize (rename_deltas p p' b c). intros ds. revert cs os.
  induction ds as [|[i d] ds IH]; intros cs os; [done|]. cbn [adjust_all]. case_if; [done|].
  apply issues_ebind; [by eauto with issues|done].
Qed.

Lemma guarded_rename t p n p' n' i f : ok (AtomicRename s t p n p' n' i f).
Proof.
  unfold AtomicRename. apply issues_bind.
  - unfold rename_commit, isDescendant, GetRevision, replace_victim.
    pose proof guarded_finish_rename. pose proof guarded_ListDirents. pose proof guarded_unlinkInodeOps. issues_auto.
  - unfold touchRenameDirs. issues_auto.
Qed.

Lemma guarded_DeleteOrphan i : ok (DeleteOrphan s i).
Proof. unfold DeleteOrphan. pose proof guarded_unlinkInodeOps. issues_auto. Qed.

Lemma guarded_flush sh t i : ok (FlushInodeTimes s sh t i).
Proof.
  unfold FlushInodeTimes. destruct t as [dirty|]; [|done]. apply issues_bind; [|done]. unfold flush.
  generalize (dirty ∖ filter (λ x, i = 0 ∨ x.1 = i) dirty), (chunkUpdates (sh (map_to_list (filter (λ x, i = 0 ∨ x.1 = i) dirty))) timeBatchInodes).
  intros d cs. revert d. induction cs as [|c cs IH]; intros d; [done|]. cbn [flush_chunks].
  apply issues_bind; [|done]. unfold commitInodeTimesBatch. destruct c as [|x c]; [done|].
  apply issues_bind.
  - generalize (x :: c). intros l. induction l as [|[j u] l IHl]; [done|]. cbn [batch_build]. issues_auto.
  - intros [[cmps ops] failed]. destruct ops as [|o ops]; [done|].
    apply issues_bind; [by eauto with issues|]. intros r.
    assert (∀ l fl, ok (settle_each s l fl)) as Hs.
    { induction l as [|[j u] l IHl]; intros fl; [done|]. cbn [settle_each]. case_if; [done|]. issues_auto. }
    issues_auto.
Qed.

Lemma guarded_AcquireLock ls i m ttl : ok (AcquireLock s ls i m ttl).
Proof.
  unfold AcquireLock. case_if; [done|]. apply issues_bind; [by apply issues_lockSession|].
  intros [ls' [l|e]]; [|done]. apply issues_bind; [by eauto with issues|]. by intros [[]|].
Qed.

Lemma guarded_ReleaseLocks b : ok (ReleaseLocks s b).
Proof. unfold ReleaseLocks. issues_auto. Qed.

Lemma node_run_guarded t o : ok (node_run s t o).
Proof.
  destruct o; cbn [node_run]; try (apply issues_bind; [|done]);
    eauto using guarded_create, guarded_link, guarded_unlink, guarded_rmdir, guarded_rename,
      guarded_DeleteOrphan, guarded_flush, guarded_AcquireLock, guarded_ReleaseLocks with issues.
  all: unfold Delete, DeleteCounting, DeletePrefix, CreateInode, ReserveCounter, AppendExtent,
    NextExtentChunk, CreateDirent, RemoveDirent, ReleaseLock, DeleteCounting; issues_auto.
Qed.

Lemma node_script_guarded t os : ok (node_script s t os).
Proof. revert t. induction os; intros t; [done|]. apply issues_bind; [apply node_run_guarded|done]. Qed.
End operations.

(** A fenced node is inert: when the stored generation is no longer the one
    the node's guard carries, any sequence of its guarded operations leaves
    every key and the revision as they were, whatever fails or is lost on the
    way. *)
Theorem fenced_node_inert `{E : Etcd} s g t os srv
  (Hguard : guard s = Some (Some g)) (Hstale : guard_stale (nodeID s) g (eview srv)) :
  let srv' := (run (node_script s t os) srv).1 in
  mkvs (eview srv') = mkvs (eview srv) ∧ mrev (eview srv') = mrev (eview srv).
Proof. apply (stale_run _ (nodeID s) g); [by apply node_script_guarded|done]. Qed.

Definition fenced_demo : list node_op :=
  [NCreateFile 1 (lit "f") 7 (ModeFile + 420) 0 0 no_extra; NLink 7 1 (lit "g"); NRename 1 (lit "f") 1 (lit "h") 7 0;
   NUnlink 1 (lit "h") None; NAcquireLock (mkLockState None 0) 7 LockShared second].

Lemma fenced_node_inert_witness :
  mkvs (@eview ref_etcd (@run ref_etcd _ (node_script demo_store None fenced_demo) (demo_srv 1)).1) =
  mkvs (@eview ref_etcd (demo_srv 1)).
Proof.
  apply (@fenced_node_inert ref_etcd demo_store 0 None fenced_demo (demo_srv 1)); [reflexivity|].
  intros e He. cbn in He. apply lookup_singleton_Some in He as [_ <-]. vm_compute. discriminate.
Defined.
