(* ===== verification/LinkCounts.v ===== *)
(** * Link counts under concurrency

    The link count of a file is the number of names it has, in every state that
    any interleaving of creates, links, unlinks, rmdirs and timestamp updates
    can reach.  A directory has at most one name and no name refers to an inode
    that is gone.  Renames are excluded: Dirents' [AtomicRename] does not pin
    the source name to the inode it moves (see RenameProps). *)

From S2P Require Import Prelude Etcd EtcdFacts Schema Store StoreLogic Locks Extents InodeTimes Dirents Fencing.

(** ** Names *)

(** The dirent keys that refer to an inode. *)
Definition names (m : mvcc) (ino : Z) : gset bytes :=
  dom (filter (λ x : bytes * kv, has_prefix PrefixDirent x.1 = true ∧ kv_val x.2 = EncodeUint64 ino) (mkvs m)).

Lemma elem_of_names m ino k :
  k ∈ names m ino ↔ has_prefix PrefixDirent k = true ∧ ∃ l, val_at k m = Some (EncodeUint64 ino, l).
Proof.
  unfold names. rewrite elem_of_dom. setoid_rewrite val_at_Some. split.
  - intros [e [Hk [Hp Hv]]%map_lookup_filter_Some]. split; [done|]. by exists (kv_lease e), e.
  - intros (Hp & l & e & Hk & Hv & _). exists e. by apply map_lookup_filter_Some.
Qed.

(** What the operations of a transaction do to the names of an inode. *)
Lemma names_ops m os ino k :
  k ∈ names (mvcc_ops m os).1 ino ↔
  match ops_effect os k with
  | None => k ∈ names m ino
  | Some None => False
  | Some (Some (v, l)) => has_prefix PrefixDirent k = true ∧ v = EncodeUint64 ino
  end.
Proof.
  rewrite elem_of_names, val_at_ops. destruct (ops_effect os k) as [[[v l]|]|].
  - naive_solver.
  - naive_solver.
  - by rewrite elem_of_names.
Qed.

Definition touches_dirents (os : list op) (dk : bytes) (dx : option (option (bytes * Z))) : Prop :=
  ∀ k, has_prefix PrefixDirent k = true → ops_effect os k = if bool_decide (k = dk) then dx else None.

Lemma names_prefix m ino k : k ∈ names m ino → has_prefix PrefixDirent k = true.
Proof. by intros [? _]%elem_of_names. Qed.

Lemma names_keep m os dk ino : touches_dirents os dk None → names (mvcc_ops m os).1 ino = names m ino.
Proof.
  intros Ht. apply set_eq. intros k. rewrite names_ops. destruct (has_prefix PrefixDirent k) eqn:Hp.
  - rewrite (Ht k Hp). by case_bool_decide.
  - split; [|intros ?%names_prefix; congruence].
    destruct (ops_effect os k) as [[[v l]|]|]; [by intros [? _]|done|]. intros ?%names_prefix. congruence.
Qed.

Lemma names_add m os p n i l ino :
  touches_dirents os (DirentKey p n) (Some (Some (EncodeUint64 i, l))) → is_u64 i → is_u64 ino →
  val_at (DirentKey p n) m = None →
  names (mvcc_ops m os).1 ino = if bool_decide (ino = i) then names m ino ∪ {[DirentKey p n]} else names m ino.
Proof.
  intros Ht Hi Hino Hn.
  assert (DirentKey p n ∉ names m ino) as Hnot by (intros [_ [l' ?]]%elem_of_names; congruence).
  apply set_eq. intros k. rewrite names_ops. destruct (has_prefix PrefixDirent k) eqn:Hp.
  - rewrite (Ht k Hp). destruct (bool_decide_reflect (k = DirentKey p n)) as [->|Hne].
    + case_bool_decide as E; [subst; set_solver|].
      split; [|done]. intros [_ ?%EncodeUint64_inj]; [|done..]. congruence.
    + case_bool_decide; set_solver.
  - assert (k ∉ names m ino) by (intros ?%names_prefix; congruence).
    assert (k ≠ DirentKey p n) by (intros ->; unfold DirentKey in Hp; by rewrite has_prefix_app in Hp).
    split; [|case_bool_decide; set_solver]. destruct (ops_effect os k) as [[[v l']|]|]; [by intros [? _]|done|done].
Qed.

Lemma names_del m os dk i l ino :
  touches_dirents os dk (Some None) → is_u64 i → is_u64 ino → val_at dk m = Some (EncodeUint64 i, l) →
  names (mvcc_ops m os).1 ino = if bool_decide (ino = i) then names m ino ∖ {[dk]} else names m ino.
Proof.
  intros Ht Hi Hino Hv. apply set_eq. intros k. rewrite names_ops. destruct (has_prefix PrefixDirent k) eqn:Hp.
  - rewrite (Ht k Hp). destruct (bool_decide_reflect (k = dk)) as [->|Hne].
    + split; [done|]. case_bool_decide; [set_solver|]. intros [_ [l' E]]%elem_of_names.
      rewrite Hv in E. assert (EncodeUint64 i = EncodeUint64 ino) as ?%EncodeUint64_inj by congruence; [congruence|done..].
    + case_bool_decide; set_solver.
  - assert (k ∉ names m ino) by (intros ?%names_prefix; congruence).
    split; [|case_bool_decide; set_solver]. destruct (ops_effect os k) as [[[v l']|]|]; [by intros [? _]|done|done].
Qed.

(** ** The invariant *)

Section invariant.
(** Which inode numbers are directories: fixed when the number is handed out. *)
Context (D : Z → bool).

Definition rec_ok (i : Z) (r : InodeRecord) : Prop :=
  Ino r = i ∧ is_u32 (Mode r) ∧ is_u32 (Nlink r) ∧ is_dir r = D i.

Lemma rec_ok_same i r r' : rec_ok i r → Ino r' = Ino r → Mode r' = Mode r → is_u32 (Nlink r') → rec_ok i r'.
Proof. intros (K1 & K2 & K3 & K4) E1 E2 Hn. unfold rec_ok, is_dir in *. by rewrite E1, E2. Qed.

(** Names as they should be for an inode with this record. *)
Definition count_ok (ns : gset bytes) (r : option InodeRecord) : Prop :=
  match r with
  | None => ns = ∅
  | Some r => if is_dir r then (size ns <= 1)%nat else Z.of_nat (size ns) = Nlink r
  end.

Definition inode_at (i : Z) (m : mvcc) (r : option InodeRecord) : Prop :=
  match r with
  | None => val_at (InodeKey i) m = None
  | Some r => val_at (InodeKey i) m = Some (EncodeInode r, 0) ∧ rec_ok i r
  end.

Definition links_ok (m : mvcc) : Prop := ∀ i, is_u64 i → ∃ r, inode_at i m r ∧ count_ok (names m i) r.

Definition dirents_ok (m : mvcc) : Prop :=
  ∀ k v l, val_at k m = Some (v, l) → has_prefix PrefixDirent k = true → ∃ i, is_u64 i ∧ v = EncodeUint64 i ∧ l = 0.

(** Beside the store: how many more operations each node may make, which
    bounds the link counts. *)
Definition ns_inv (σ : mvcc * list nat) : Prop :=
  mvcc_wf σ.1 ∧ dirents_ok σ.1 ∧ links_ok σ.1 ∧
  ∀ i, is_u64 i → Z.of_nat (size (names σ.1 i) + sum_list σ.2) < 2 ^ 32.

(** One transaction: the names and the records of every inode fit again. *)
Lemma ns_commit m bud bud' os dk dx :
  ns_inv (m, bud) → touches_dirents os dk dx →
  (∀ v l, dx = Some (Some (v, l)) → ∃ i, is_u64 i ∧ v = EncodeUint64 i ∧ l = 0) →
  (∀ i, is_u64 i → ∃ r, inode_at i (mvcc_ops m os).1 r ∧ count_ok (names (mvcc_ops m os).1 i) r) →
  (∀ i, is_u64 i → (size (names (mvcc_ops m os).1 i) + sum_list bud' <= size (names m i) + sum_list bud)%nat) →
  ns_inv ((mvcc_ops m os).1, bud').
Proof.
  intros (Hw & Hd & Hl & Hb) Ht Hdx Hn Hsz. split; [by apply mvcc_ops_wf|]. split; [|split; [done|]].
  - intros k v l Hv Hp. cbn [fst] in Hv. rewrite val_at_ops, (Ht k Hp) in Hv.
    case_bool_decide; [|by eapply Hd]. destruct dx as [x|]; [|by eapply Hd]. eapply Hdx. by rewrite Hv.
  - intros i Hi. specialize (Hb i Hi). specialize (Hsz i Hi). cbn [fst snd] in *. lia.
Qed.

Lemma inode_at_ops i m os r :
  inode_at i m r → ops_effect os (InodeKey i) = None → inode_at i (mvcc_ops m os).1 r.
Proof. intros Hr He. unfold inode_at in *. rewrite val_at_ops, He. done. Qed.

Lemma inode_at_put i m os r :
  ops_effect os (InodeKey i) = Some (Some (EncodeInode r, 0)) → rec_ok i r → inode_at i (mvcc_ops m os).1 (Some r).
Proof. intros He Hr. unfold inode_at. rewrite val_at_ops, He. done. Qed.

Lemma inode_at_del i m os : ops_effect os (InodeKey i) = Some None → inode_at i (mvcc_ops m os).1 None.
Proof. intros He. unfold inode_at. by rewrite val_at_ops, He. Qed.

(** The stored record a decoded one came from. *)
Lemma decoded m i e :
  links_ok m → is_u64 i → mkvs m !! InodeKey i = Some e →
  ∃ r rec, DecodeInode (kv_val e) = Some rec ∧ kv_val e = EncodeInode r ∧ rec_ok i r ∧ rec_ok i rec ∧
    Nlink rec = Nlink r ∧ Mode rec = Mode r ∧ inode_at i m (Some r) ∧ count_ok (names m i) (Some rec).
Proof.
  intros Hl Hi He. destruct (Hl i Hi) as ([r|] & Hr & Hc).
  2:{ unfold inode_at in Hr. rewrite val_at_None in Hr. congruence. }
  pose proof Hr as [(e' & He' & Hv & _)%val_at_Some Hok]. simplify_eq.
  destruct (DecodeInode_fields r) as (rec & Hrec & H1 & H2 & H3). exists r, rec.
  destruct Hok as (K1 & K2 & K3 & K4).
  rewrite wrap64_small in H1 by by rewrite K1. unfold wrap32 in H2, H3.
  rewrite Z.mod_small in H2, H3 by done.
  assert (is_dir rec = is_dir r) as Hdir by (unfold is_dir; by rewrite H2).
  rewrite Hv. split; [done|]. split; [done|].
  split; [done|]. split; [repeat split; rewrite ?H1, ?H2, ?H3; congruence || apply K2 || apply K3|].
  repeat (split; [done|]). unfold count_ok in *. by rewrite Hdir, H3.
Qed.
End invariant.

(** ** Operations that leave names and records alone *)

Definition ns_key (k : bytes) : Prop := has_prefix PrefixDirent k = true ∨ has_prefix PrefixInode k = true.
Definition harmless_op (o : op) : Prop := ∀ k, ns_key k → op_touches o k = false.
Definition harmless (q : req) : Prop :=
  match q with
  | QTxn _ ts es => Forall harmless_op ts ∧ es = []
  | QPut k v l => harmless_op (OpPut k v l)
  | QDelete k p => harmless_op (OpDelete k p)
  | _ => True
  end.

Lemma InodeKey_ns_key i : ns_key (InodeKey i).
Proof. right. apply has_prefix_app. Qed.

Lemma harmless_effect os k : Forall harmless_op os → ns_key k → ops_effect os k = None.
Proof. intros H Hk. apply ops_effect_untouched. eapply Forall_impl; [exact H|]. intros o Ho. by apply Ho. Qed.

Lemma harmless_ops D m bud os : ns_inv D (m, bud) → Forall harmless_op os → ns_inv D ((mvcc_ops m os).1, bud).
Proof.
  intros Hi Hos. assert (touches_dirents os [] None) as Ht.
  { intros k Hk. rewrite (harmless_effect os k Hos (or_introl Hk)). by case_bool_decide. }
  pose proof Hi as (_ & _ & Hl & _). apply (ns_commit D m bud bud os [] None); [done|done|done| |].
  - intros i Hii. destruct (Hl i Hii) as (r & Hr & Hc). exists r. rewrite (names_keep _ _ _ _ Ht).
    split; [|done]. apply inode_at_ops; [done|]. apply harmless_effect; [done|apply InodeKey_ns_key].
  - intros i _. by rewrite (names_keep _ _ _ _ Ht).
Qed.

Lemma ns_expire D l m bud : ns_inv D (m, bud) → ns_inv D (mvcc_expire l m, bud).
Proof.
  intros (Hw & Hd & Hl & Hb). cbn [fst snd] in *.
  assert (∀ k v le, val_at k (mvcc_expire l m) = Some (v, le) → val_at k m = Some (v, le)) as Hsub.
  { intros k v le (e & [Hk _]%mvcc_expire_lookup & Hv)%val_at_Some. apply val_at_Some. eauto. }
  assert (∀ k v, val_at k m = Some (v, 0) → val_at k (mvcc_expire l m) = Some (v, 0)) as Hkeep.
  { intros k v (e & Hk & Hv & Hle)%val_at_Some. apply val_at_Some. exists e. split; [|done].
    by apply mvcc_expire_unleased. }
  assert (∀ i, names (mvcc_expire l m) i = names m i) as Hnm.
  { intros i. apply set_eq. intros k. rewrite !elem_of_names. split; intros (Hp & le & Hv); (split; [done|]).
    - exists le. by apply Hsub.
    - destruct (Hd _ _ _ Hv Hp) as (j & _ & _ & ->). exists 0. by apply Hkeep. }
  split; [by apply mvcc_expire_wf|]. split; [intros k v le ?%Hsub; eauto|]. split.
  - intros i Hi. destruct (Hl i Hi) as ([r|] & Hr & Hc); [exists (Some r)|exists None]; cbn [fst]; rewrite Hnm; (split; [|done]).
    + destruct Hr as [Hv Hok]. split; [by apply Hkeep|done].
    + unfold inode_at in *. destruct (val_at (InodeKey i) (mvcc_expire l m)) as [[v le]|] eqn:E; [|done].
      apply Hsub in E. congruence.
  - intros i. cbn [fst snd]. rewrite Hnm. apply Hb.
Qed.

(** ** Rely and guarantee of node [c] *)

Section nodes.
Context (D : Z → bool).

Definition ns_rel (c : nat) (σ σ' : mvcc * list nat) : Prop :=
  (ns_inv D σ → ns_inv D σ') ∧ evolves σ.1 σ'.1 ∧ σ'.2 !! c = σ.2 !! c.
Definition ns_guar (c : nat) (σ σ' : mvcc * list nat) : Prop :=
  (ns_inv D σ → ns_inv D σ') ∧ evolves σ.1 σ'.1 ∧ ∀ j, j ≠ c → σ'.2 !! j = σ.2 !! j.

#[export] Instance ns_rel_preorder c : PreOrder (ns_rel c).
Proof.
  split; [intros σ; split; [done|]; split; [reflexivity|done]|].
  intros σ1 σ2 σ3 (H1 & H2 & H3) (K1 & K2 & K3). split; [auto|]. split; [by trans σ2.1|congruence].
Qed.

Lemma ns_guar_refl c σ : ns_guar c σ σ.
Proof. split; [done|]. split; [reflexivity|done]. Qed.

Lemma ns_guar_rel i j σ σ' : i ≠ j → ns_guar i σ σ' → ns_rel j σ σ'.
Proof. intros Hij (H1 & H2 & H3). split; [done|]. split; [done|]. by apply H3. Qed.

Lemma ns_rel_expire c l m γ : ns_rel c (m, γ) (mvcc_expire l m, γ).
Proof. split; [apply ns_expire|]. split; [apply mvcc_expire_evolves|done]. Qed.

Context (c : nat).
Abbreviation wpn p Q σ := (wp etcd_ok (ns_rel c) (ns_guar c) p Q σ).

Definition credit (b : nat) (σ : mvcc * list nat) : Prop :=
  ns_inv D σ ∧ ∃ b', (b <= b')%nat ∧ σ.2 !! c = Some b'.

Lemma credit_rel b σ σ' : ns_rel c σ σ' → credit b σ → credit b σ'.
Proof. intros (H1 & _ & H3) (Hi & b' & Hle & Hb). split; [auto|]. exists b'. by rewrite H3. Qed.

Lemma credit_le b b' σ : (b <= b')%nat → credit b' σ → credit b σ.
Proof. intros Hle (Hi & x & Hx & Hb). split; [done|]. exists x. split; [lia|done]. Qed.

Lemma credit_now b σ m bud : credit b σ → ns_rel c σ (m, bud) → ∃ x, (b <= x)%nat ∧ bud !! c = Some x.
Proof. intros (_ & x & Hx & Hb) (_ & _ & E). exists x. split; [done|]. cbn [snd] in E. by rewrite E. Qed.

(** A record read earlier and found at the same revision is still there. *)
Lemma still_there σ1 σ2 k e :
  ns_inv D σ1 → ns_rel c σ1 σ2 → mkvs σ1.1 !! k = Some e →
  eval_cmp (mkvs σ2.1) (mod_is k (kv_mod e)) = true → mkvs σ2.1 !! k = Some e.
Proof.
  intros (Hw & _) (_ & Hev & _) He Hc. destruct (proj2 Hw _ _ He).
  apply eval_mod_is in Hc as (e' & He' & Hm); [|lia]. rewrite He'. f_equal. by eapply evolves_pinned.
Qed.

(** A guarded transaction: the invariant is kept by its commit, which may
    spend credit. *)
Lemma wp_ns_txn s ifs ts b b' (Q : result bool → _ → Prop) σ :
  credit b σ → (b' <= b)%nat →
  (∀ m bud, ns_rel c σ (m, bud) → ns_inv D (m, bud) → forallb (eval_cmp (mkvs m)) ifs = true →
     ∃ bud', ns_inv D ((mvcc_ops m ts).1, bud') ∧ (∀ j, j ≠ c → bud' !! j = bud !! j) ∧
             ∃ x, (b' <= x)%nat ∧ bud' !! c = Some x) →
  (∀ r σ', credit b' σ' → (r = Ok false → credit b σ') → Q r σ') →
  wpn (Txn s ifs ts []) Q σ.
Proof.
  intros Hc Hle Hcom HQ. wpr wp_Txn; [apply ns_guar_refl| | |].
  - intros e σ1 H1. apply HQ; [eapply credit_rel; [exact H1|]; by eapply credit_le|done].
  - intros σ1 H1. assert (credit b σ1) by by eapply credit_rel. apply HQ; [by eapply credit_le|done].
  - intros [m bud] H1 Hf. assert (credit b (m, bud)) as [Hi _] by by eapply credit_rel.
    destruct (Hcom m bud H1 Hi Hf) as (bud' & Hi' & Hj & x & Hx & Hb). exists bud'. split.
    + split; [done|]. split; [apply mvcc_ops_evolves|done].
    + intros σ3 H3. assert (credit b' σ3) by (eapply credit_rel; [exact H3|]; split; [done|by exists x]).
      split; by apply HQ.
Qed.

(** Programs that leave names and records alone. *)
Lemma wp_harmless {A} (p : prog A) b (Q : A → _ → Prop) σ :
  issues harmless p → credit b σ → (∀ a σ', credit b σ' → Q a σ') → wpn p Q σ.
Proof.
  intros Hp. revert σ. induction p as [a|q k IH]; intros σ Hc HQ; [intros σ1 H1; apply HQ; by eapply credit_rel|].
  destruct Hp as [Hq Hk]. intros [m bud] m2 r H1 Hok. exists bud.
  assert (credit b (m, bud)) as [Hi Hb] by by eapply credit_rel.
  assert (ns_inv D (m2, bud)) as Hi2.
  { apply etcd_ok_store in Hok. destruct q as [| |ifs ts es|k' v l|k' pf| |t|l|l| | |]; lazy beta iota in Hok; subst; try done.
    - destruct Hq as [Hts ->], Hok as [->| ->]; [done|].
      destruct (forallb (eval_cmp (mkvs m)) ifs) eqn:Hf.
      + rewrite mvcc_txn_committed by done. by apply harmless_ops.
      + by rewrite mvcc_txn_rejected.
    - destruct Hok as [->| ->]; [done|]. apply harmless_ops; [done|by constructor].
    - destruct Hok as [->| ->]; [done|]. apply harmless_ops; [done|by constructor].
    - destruct Hok as (Hkv & Hrv & _). destruct Hi as (Hw & Hd & Hl & Hbb).
      assert (∀ k0, val_at k0 m2 = val_at k0 m) as Hva by (intros; unfold val_at; by rewrite Hkv).
      assert (∀ i, names m2 i = names m i) as Hnm by (intros; unfold names; by rewrite Hkv).
      split; [split; cbn [fst]; rewrite ?Hkv, ?Hrv; apply Hw|]. cbn [fst snd] in *.
      split; [intros k0 v0 l0; cbn [fst]; rewrite Hva; apply Hd|].
      split; [|intros i; cbn [fst snd]; rewrite Hnm; apply Hbb].
      intros i Hii. destruct (Hl i Hii) as (r0 & Hr & Hcc). exists r0. rewrite Hnm. split; [|done].
      unfold inode_at. by rewrite Hva.
    - destruct Hok as [->| ->]; [done|]. by apply ns_expire. }
  split; [split; [done|]; split; [by eapply etcd_ok_evolves|done]|].
  apply IH; [apply Hk|by split|done].
Qed.

(** ** Rewriting records in place *)

Definition rewrites (m : mvcc) (o : op) : Prop :=
  ∃ i r' r, is_u64 i ∧ o = put (InodeKey i) (EncodeInode r') ∧ rec_ok D i r' ∧
    inode_at D i m (Some r) ∧ Nlink r' = Nlink r ∧ Mode r' = Mode r.

Lemma put_inode_effect i v k :
  op_effect (put (InodeKey i) v) k = if bool_decide (k = InodeKey i) then Some (Some (v, 0)) else None.
Proof. done. Qed.

Lemma InodeKey_not_dirent i : has_prefix PrefixDirent (InodeKey i) = false.
Proof. done. Qed.

Lemma inode_at_inj i m r r' : inode_at D i m (Some r) → inode_at D i m r' → ∃ r2, r' = Some r2 ∧ EncodeInode r2 = EncodeInode r.
Proof. intros [H1 _] H2. destruct r' as [r2|]; [|by unfold inode_at in H2; congruence]. exists r2. destruct H2 as [H2 _]. split; [done|congruence]. Qed.

Lemma encoded_same r r' : EncodeInode r = EncodeInode r' → ∀ i, rec_ok D i r → rec_ok D i r' → Nlink r = Nlink r' ∧ Mode r = Mode r'.
Proof.
  intros E i (_ & Hm & Hn & _) (_ & Hm' & Hn' & _).
  destruct (DecodeInode_fields r) as (x & Hx & _ & H2 & H3), (DecodeInode_fields r') as (y & Hy & _ & K2 & K3).
  rewrite E, Hy in Hx. injection Hx as ->. unfold wrap32 in *. rewrite Z.mod_small in H2, H3, K2, K3 by done.
  split; congruence.
Qed.

Lemma rewrite_step m bud os :
  ns_inv D (m, bud) → Forall (rewrites m) os → ns_inv D ((mvcc_ops m os).1, bud).
Proof.
  intros Hi Hos. rewrite Forall_forall in Hos.
  assert (touches_dirents os [] None) as Ht.
  { intros k Hk. replace (if bool_decide (k = []) then None else None) with (@None (option (bytes * Z))) by by case_bool_decide.
    destruct (ops_effect os k) as [x|] eqn:E; [|done].
    apply ops_effect_source in E as (o & Hin & Ho). apply Hos in Hin as (i & r' & r & _ & -> & _).
    rewrite put_inode_effect in Ho. case_bool_decide; [|done]. subst. by rewrite InodeKey_not_dirent in Hk. }
  pose proof Hi as (_ & _ & Hl & _).
  apply (ns_commit D m bud bud os [] None); [done|done|done| |intros i _; by rewrite (names_keep _ _ _ _ Ht)].
  intros i Hii. rewrite (names_keep _ _ _ _ Ht). destruct (Hl i Hii) as (r0 & Hr0 & Hc0).
  destruct (ops_effect os (InodeKey i)) as [x|] eqn:E; [|exists r0; split; [by apply inode_at_ops|done]].
  pose proof E as E'. apply ops_effect_source in E' as (o & Hin & Ho).
  apply Hos in Hin as (j & r' & r & Hj & -> & Hok & Hat & Hn & Hm). rewrite put_inode_effect in Ho.
  case_bool_decide as Ek; [|done]. apply InodeKey_inj in Ek; [|apply Hii|apply Hj]. subst j. injection Ho as <-.
  exists (Some r'). split; [by apply inode_at_put|].
  destruct (inode_at_inj i m r r0 Hat Hr0) as (r2 & -> & Ee). destruct Hr0 as [_ Hok2], Hat as [_ Hokr].
  destruct (encoded_same _ _ Ee i Hok2 Hokr) as [En Em].
  unfold count_ok in *. unfold is_dir in *. rewrite Hm, Hn, <- En, <- Em. done.
Qed.

(** What a read-modify-write of one inode's times commits. *)
Lemma rewrites_pinned σ1 σ2 i u e rec :
  ns_inv D σ1 → ns_rel c σ1 σ2 → is_u64 i → mkvs σ1.1 !! InodeKey i = Some e →
  DecodeInode (kv_val e) = Some rec →
  eval_cmp (mkvs σ2.1) (InodeUnchanged i (kv_mod e)) = true →
  rewrites σ2.1 (put (InodeKey i) (EncodeInode (apply u rec).1)).
Proof.
  intros Hi1 HR Hi He Hd Hc. pose proof (still_there _ _ _ _ Hi1 HR He Hc) as He2.
  assert (ns_inv D σ2) as (_ & _ & Hl & _) by by apply HR.
  destruct (decoded D σ2.1 i e Hl Hi He2) as (r & rec' & Hd' & _ & Hok & Hok' & Hn & Hm & Hat & _).
  rewrite Hd in Hd'. injection Hd' as <-. destruct (apply_fields u rec) as (F1 & F2 & F3).
  exists i, (apply u rec).1, r. split; [done|]. split; [done|]. split; [|split; [done|split; congruence]].
  destruct Hok' as (K1 & K2 & K3 & K4). unfold rec_ok, is_dir in *. rewrite F1, F2, F3. done.
Qed.

(** Retrying an attempt that needs credit [b0] each time and leaves [b]. *)
Lemma wp_ns_retry {A} (attempt : prog (result (option A))) b0 b (good : A → Prop) (Q : result A → _ → Prop) σ :
  (b <= b0)%nat → credit b0 σ →
  (∀ σ1, credit b0 σ1 → wpn attempt (λ r σ2, match r with
     | Ok None => credit b0 σ2 | Ok (Some a) => credit b σ2 ∧ good a | Err _ => credit b σ2 end) σ1) →
  (∀ r σ1, credit b σ1 → (∀ a, r = Ok a → good a) → Q r σ1) → wpn (retryCAS attempt) Q σ.
Proof.
  intros Hle Hc Ha HQ.
  eapply (wp_mono _ _ _ _ (λ r σ1, credit b σ1 ∧ ∀ a, r = Ok a → good a)); [intros r σ1 []; by apply HQ|].
  apply (wp_retry (ns_rel c) (ns_guar c) (ns_guar_refl c) _ (credit b0)); [| | | |done].
  - intros σ1 σ2 H. by apply credit_rel.
  - intros r σ1 σ2 H [? ?]. split; [by eapply credit_rel|done].
  - intros e σ1 H1. split; [by eapply credit_le|done].
  - intros σ1 H1. eapply wp_mono; [|by apply Ha].
    intros [[a|]|e] σ2 H2; [|done|by split]. destruct H2. split; [done|]. by intros ? [= <-].
Qed.

Lemma wp_commitInodeTimes s i u b (Q : result unit → _ → Prop) σ :
  is_u64 i → credit b σ → (∀ r σ', credit b σ' → Q r σ') → wpn (commitInodeTimes s i u) Q σ.
Proof.
  intros Hi Hc HQ. eapply (wp_ns_retry _ b b (λ _, True)); [done|done| |intros r σ1 H1 _; by apply HQ].
  clear σ Hc. intros σ Hc. eapply (wp_mono _ _ _ _ (λ _ σ1, credit b σ1)); [by intros [[]|]|].
  wpb. wpr wp_GetInodeRev; [apply ns_guar_refl| | |].
  - intros σ1 H1 σ2 H2. eapply credit_rel; [exact H2|]. by eapply credit_rel.
  - intros σ1 σ2 H1 H2 _ σ3 H3. do 3 (eapply credit_rel; [eassumption|]). done.
  - intros σ1 σ2 e H1 H2 He. cbn [fst snd].
    assert (credit b σ1) as Hc1 by by eapply credit_rel. assert (credit b σ2) as Hc2 by by eapply credit_rel.
    destruct (DecodeInode (kv_val e)) as [rec|] eqn:Ed; [|intros σ3 H3; by eapply credit_rel].
    destruct (apply u rec) as [rec' moved] eqn:Ea. destruct moved; [|intros σ3 H3; by eapply credit_rel].
    wpb. apply (wp_ns_txn _ _ _ b b); [done|done| |].
    + intros m bud H3 Hi3 Hf. exists bud. split; [|split; [done|]].
      * apply rewrite_step; [done|]. constructor; [|constructor].
        replace rec' with (apply u rec).1 by by rewrite Ea.
        eapply (rewrites_pinned σ1 (m, bud)); [apply Hc1|by trans σ2|done|done|done|].
        simpl in Hf. by rewrite andb_true_r in Hf.
      * by apply (credit_now b σ2 m).
    + intros [[]|e'] σ3 Hc3 _; intros σ4 H4; by eapply credit_rel.
Qed.

Definition touch_ok (t : Touch) : Prop := ∀ d i u, t = Some d → d !! i = Some u → is_u64 i.

Lemma touch_ok_queue d i at_ : is_u64 i → touch_ok (Some d) → touch_ok (Some (queue d i at_)).
Proof.
  intros Hi Ht d' j u [= <-]. unfold queue. intros [[-> _]|[_ Hj]]%lookup_insert_Some; [done|by eapply Ht].
Qed.

Lemma wp_touchDir s t i b (Q : Touch → _ → Prop) σ :
  is_u64 i → touch_ok t → credit b σ → (∀ t' σ', touch_ok t' → credit b σ' → Q t' σ') →
  wpn (touchDir s t i) Q σ.
Proof.
  intros Hi Ht Hc HQ. wpb. wpr wp_now; [apply ns_guar_refl|]. intros now σ1 H1.
  assert (credit b σ1) by by eapply credit_rel. destruct t as [d|].
  - intros σ2 H2. apply HQ; [by apply touch_ok_queue|by eapply credit_rel].
  - wpb. apply (wp_commitInodeTimes _ _ _ b); [done|done|]. intros r σ2 Hc2 σ3 H3.
    apply HQ; [by intros ? ? ? [=]|by eapply credit_rel].
Qed.

(** ** Directory link counts folded into a transaction *)

Definition adj_ops (p : Z) (os : list op) : Prop :=
  os = [] ∨ (D p = true ∧ ∃ r', os = [put (InodeKey p) (EncodeInode r')] ∧ rec_ok D p r').

Lemma wp_adjustDirNlink s p d b (Q : result nlinkAdjust → _ → Prop) σ :
  is_u64 p → D p = true → credit b σ →
  (∀ r σ', ns_rel c σ σ' → (∀ a, r = Ok a → adj_ops p (a_ops a)) → Q r σ') →
  wpn (adjustDirNlink s p d) Q σ.
Proof.
  intros Hp HD Hc HQ. wpb. wpr wp_GetInodeRev; [apply ns_guar_refl| | |].
  - intros σ1 H1 σ2 H2. apply HQ; [by trans σ1|done].
  - intros σ1 σ2 H1 H2 _ σ3 H3. apply HQ; [do 2 (etrans; [eassumption|]); done|].
    intros a [= <-]. by left.
  - intros σ1 σ2 e H1 H2 He. cbn [fst snd]. assert (credit b σ1) as Hc1 by by eapply credit_rel.
    assert (credit b σ2) as Hc2 by by eapply credit_rel.
    destruct Hc1 as [(_ & _ & Hl & _) _]. destruct (decoded D σ1.1 p e Hl Hp He) as (r & rec & -> & _ & _ & Hok & _).
    assert (∀ n, is_u32 n → wpn (now ⇐ call QNow; Ret (Ok (mkAdjust [InodeUnchanged p (kv_mod e)]
      [put (InodeKey p) (EncodeInode (set_Ctime now (set_Mtime now (set_Nlink n rec))))]))) Q σ2) as Hw.
    { intros n Hn. wpb. wpr wp_now; [apply ns_guar_refl|]. intros now σ3 H3 σ4 H4. apply HQ.
      - do 3 (etrans; [eassumption|]). done.
      - intros a [= <-]. right. split; [done|]. eexists. split; [done|].
        by eapply rec_ok_same. }
    destruct (Z.ltb_spec 0 d); [apply Hw, Z.mod_pos_bound; lia|].
    destruct ((d <? 0) && (- d <=? Nlink rec)) eqn:Ed.
    + zbool. apply Hw. destruct Hok as (_ & _ & Hn & _). unfold is_u32 in *. lia.
    + intros σ3 H3. apply HQ; [do 2 (etrans; [eassumption|]); done|]. intros a [= <-]. by left.
Qed.

Lemma adj_effect_dirent p os k : adj_ops p os → has_prefix PrefixDirent k = true → ops_effect os k = None.
Proof.
  intros [->|(_ & r' & -> & _)] Hk; [done|]. cbn [ops_effect]. rewrite put_inode_effect.
  case_bool_decide; [subst; by rewrite InodeKey_not_dirent in Hk|done].
Qed.

Lemma adj_effect_inode p os j : is_u64 p → is_u64 j → adj_ops p os →
  ops_effect os (InodeKey j) = None ∨
  (j = p ∧ D p = true ∧ ∃ r', ops_effect os (InodeKey j) = Some (Some (EncodeInode r', 0)) ∧ rec_ok D p r').
Proof.
  intros Hp Hj [->|(HD & r' & -> & Hr)]; [by left|]. cbn [ops_effect]. rewrite put_inode_effect.
  case_bool_decide as E; [right|by left]. apply InodeKey_inj in E; [|apply Hj|apply Hp]. split; [done|].
  split; [done|]. by exists r'.
Qed.

(** A directory never has more than one name. *)
Lemma dir_names m p : links_ok D m → is_u64 p → D p = true → (size (names m p) <= 1)%nat.
Proof.
  intros Hl Hp HD. destruct (Hl p Hp) as ([r|] & Hr & Hc); simpl in Hc.
  - destruct Hr as [_ (_ & _ & _ & Hdir)]. by rewrite Hdir, HD in Hc.
  - rewrite Hc, size_empty. lia.
Qed.

(** ** Creating a name and its inode *)

Lemma create_effect p n i rec ex adj k :
  Forall harmless_op ex → ns_key k →
  ops_effect (([PutDirent p n i; put (InodeKey i) (EncodeInode rec)] ++ ex) ++ adj) k =
  match ops_effect adj k with
  | Some x => Some x
  | None => if bool_decide (k = InodeKey i) then Some (Some (EncodeInode rec, 0))
            else if bool_decide (k = DirentKey p n) then Some (Some (EncodeUint64 i, 0)) else None
  end.
Proof.
  intros Hex Hk. rewrite !ops_effect_app, (harmless_effect ex k Hex Hk). destruct (ops_effect adj k); [done|].
  cbn [ops_effect]. rewrite put_inode_effect. case_bool_decide; [done|].
  unfold PutDirent, op_effect, op_touches, put. by case_bool_decide.
Qed.

Lemma create_step m bud x p n i rec ex adj :
  ns_inv D (m, bud) → bud !! c = Some (S x) → is_u64 p → is_u64 i → rec_ok D i rec →
  (is_dir rec = false → Nlink rec = 1) → Forall harmless_op ex → adj_ops p adj →
  val_at (DirentKey p n) m = None → val_at (InodeKey i) m = None →
  ns_inv D ((mvcc_ops m (([PutDirent p n i; put (InodeKey i) (EncodeInode rec)] ++ ex) ++ adj)).1, <[c := x]> bud).
Proof.
  intros Hinv Hx Hp Hi Hrec Hn1 Hex Hadj Hdn Hin. pose proof Hinv as (_ & _ & Hl & _). cbn [fst] in Hl.
  set (os := ([PutDirent p n i; _] ++ ex) ++ adj).
  assert (touches_dirents os (DirentKey p n) (Some (Some (EncodeUint64 i, 0)))) as Ht.
  { intros k Hk. unfold os. rewrite create_effect by (done || by left). rewrite (adj_effect_dirent p) by done.
    rewrite (bool_decide_eq_false_2 (k = InodeKey i)); [by case_bool_decide|]. intros ->. by rewrite InodeKey_not_dirent in Hk. }
  assert (names m i = ∅) as Hni.
  { destruct (Hl i Hi) as ([r|] & Hr & Hc); [|done]. destruct Hr as [Hr _]. congruence. }
  assert (∀ j, is_u64 j → names (mvcc_ops m os).1 j = if bool_decide (j = i) then {[DirentKey p n]} else names m j) as Hnm.
  { intros j Hj. rewrite (names_add m os p n i 0 j) by done. case_bool_decide; [subst; rewrite Hni; set_solver|done]. }
  apply (ns_commit D m bud _ os (DirentKey p n) (Some (Some (EncodeUint64 i, 0)))); [done|done| | |].
  { intros v l [= <- <-]. by exists i. }
  - intros j Hj. rewrite Hnm by done.
    assert (ops_effect os (InodeKey j) = _) as He by (unfold os; by apply create_effect; [|apply InodeKey_ns_key]).
    rewrite (bool_decide_eq_false_2 (InodeKey j = DirentKey p n)) in He by done.
    destruct (adj_effect_inode p adj j Hp Hj Hadj) as [Ha|(-> & HD & r' & Ha & Hr')]; rewrite Ha in He.
    + destruct (bool_decide_reflect (InodeKey j = InodeKey i)) as [E|E].
      * apply InodeKey_inj in E; [|apply Hj|apply Hi]. subst j. exists (Some rec). split; [by apply inode_at_put|].
        rewrite bool_decide_eq_true_2 by done. unfold count_ok. rewrite size_singleton. case_if; [done|]. rewrite Hn1; done.
      * rewrite (bool_decide_eq_false_2 (j = i)) by (intros ->; done). destruct (Hl j Hj) as (r & Hr & Hc). exists r.
        split; [by apply inode_at_ops|done].
    + exists (Some r'). split; [by apply inode_at_put|]. unfold count_ok. destruct Hr' as (_ & _ & _ & ->). rewrite HD.
      case_bool_decide; [by rewrite size_singleton|by apply dir_names].
  - assert (sum_list (<[c:=x]> bud) + 1 = sum_list bud)%nat as Hs by by apply sum_list_spend.
    intros j Hj. rewrite Hnm by done. case_bool_decide; [subst; rewrite Hni, size_singleton, size_empty; lia|lia].
Qed.

Lemma wp_create_attempt s p n rec ex b σ :
  is_u64 p → is_u64 (Ino rec) → rec_ok D (Ino rec) rec → (is_dir rec = false → Nlink rec = 1) →
  (is_dir rec = true → D p = true) → Forall harmless_op (Ops ex) → credit (S b) σ →
  wpn (create_attempt s p n rec ex)
    (λ r σ', match r with Ok None => credit (S b) σ' | _ => credit b σ' end) σ.
Proof.
  intros Hp Hi Hrec Hn1 HD Hex Hc. unfold create_attempt. wpb.
  assert (∀ σ1, credit (S b) σ1 → credit b σ1) as Hle by (intros; eapply credit_le; [|done]; lia).
  assert (∀ a σ1, credit (S b) σ1 → adj_ops p (a_ops a) → wpn (
    ok ⇐? Txn s (([key_absent (DirentKey p n); key_absent (InodeKey (Ino rec))] ++ Cmps ex) ++ a_cmps a)
                (([PutDirent p n (Ino rec); PutInode rec] ++ Ops ex) ++ a_ops a) [];
    if (ok : bool) then Ret (Ok (Some tt))
    else existing ⇐ LookupDirent s p n;
      Ret match existing with
      | Ok i => if negb (i =? 0) then Err ErrExists else if negb (is_dir rec) then Err ErrExists else Ok None
      | Err _ => if negb (is_dir rec) then Err ErrExists else Ok None
      end)
    (λ r σ', match r with Ok None => credit (S b) σ' | _ => credit b σ' end) σ1) as Hgo.
  { intros a σ1 Hc1 Ha. wpb. apply (wp_ns_txn _ _ _ (S b) b); [done|lia| |].
    - intros m bud HR Hi' Hf. destruct (credit_now _ _ _ _ Hc1 HR) as (x & Hx & Hb).
      destruct x as [|x]; [lia|]. exists (<[c:=x]> bud). split; [|split].
      + rewrite !forallb_app in Hf. cbn [forallb] in Hf. zbool.
        apply create_step; try done; apply val_at_None; apply eval_key_absent; try done; apply Hi'.
      + intros j Hj. by rewrite list_lookup_insert_ne.
      + exists x. split; [lia|]. apply list_lookup_insert_eq. by eapply lookup_lt_Some.
    - intros [[]|e] σ2 Hc2 Hc2'; [intros σ3 H3; by eapply credit_rel| |intros σ3 H3; by eapply credit_rel].
      specialize (Hc2' eq_refl). wpb. apply (wp_harmless _ (S b)); [|done|].
      + unfold LookupDirent. apply issues_ebind; [by apply issues_Get|done].
      + intros r σ3 Hc3 σ4 H4. assert (credit (S b) σ4) by by eapply credit_rel.
        destruct r; repeat case_if; auto. }
  destruct (is_dir rec) eqn:Ed.
  - apply (wp_adjustDirNlink _ _ _ (S b)); [done|auto|done|]. intros [a|e] σ1 H1 Ha; [apply Hgo; [by eapply credit_rel|auto]|].
    intros σ2 H2. apply Hle. do 2 (eapply credit_rel; [eassumption|]). done.
  - intros σ1 H1. apply Hgo; [by eapply credit_rel|by left].
Qed.

Lemma wp_create_with s t p n ex mk b (Q : Touch * (InodeRecord * result unit) → _ → Prop) σ :
  is_u64 p → touch_ok t → Forall harmless_op (Ops ex) →
  (∀ now, is_u64 (Ino (mk now)) ∧ rec_ok D (Ino (mk now)) (mk now) ∧
     (is_dir (mk now) = false → Nlink (mk now) = 1) ∧ (is_dir (mk now) = true → D p = true)) →
  credit (S b) σ → (∀ t' r σ', touch_ok t' → credit b σ' → Q (t', r) σ') →
  wpn (create_with s t p n ex mk) Q σ.
Proof.
  intros Hp Ht Hex Hmk Hc HQ. wpb. wpr wp_now; [apply ns_guar_refl|]. intros now σ1 H1.
  assert (credit (S b) σ1) as Hc1 by by eapply credit_rel. destruct (Hmk now) as (K1 & K2 & K3 & K4).
  wpb. unfold atomicCreate. wpb.
  apply (wp_ns_retry _ (S b) b (λ _, True)); [lia|done| |].
  { intros σ2 Hc2. eapply wp_mono; [|by apply (wp_create_attempt s p n (mk now) ex b)]. by intros [[]|]. }
  intros [[]|e] σ3 Hc3 _.
  - case_if; [|intros σ4 H4 σ5 H5; apply HQ; [done|]; do 2 (eapply credit_rel; [eassumption|]); done].
    wpb. apply (wp_touchDir _ _ _ b); [done|done|done|]. intros t' σ4 Ht' Hc4 σ5 H5 σ6 H6.
    apply HQ; [done|]. do 2 (eapply credit_rel; [eassumption|]). done.
  - intros σ4 H4 σ5 H5. apply HQ; [done|]. do 2 (eapply credit_rel; [eassumption|]). done.
Qed.

(** ** Adding a name *)

Lemma link_step m bud x p n i rec rec' :
  ns_inv D (m, bud) → bud !! c = Some (S x) → is_u64 i → rec_ok D i rec' →
  count_ok (names m i) (Some rec) → is_dir rec = false → is_dir rec' = false → Nlink rec' = wrap32 (Nlink rec + 1) →
  val_at (DirentKey p n) m = None →
  ns_inv D ((mvcc_ops m [PutDirent p n i; put (InodeKey i) (EncodeInode rec')]).1, <[c := x]> bud).
Proof.
  intros Hinv Hx Hi Hrec' Hcnt Hd Hd' Hn Hdn. pose proof Hinv as (_ & _ & Hl & Hb). cbn [fst snd] in Hl, Hb.
  pose proof (sum_list_spend _ _ _ Hx) as Hs. set (os := [PutDirent p n i; _]).
  assert (∀ k, ns_key k → ops_effect os k = if bool_decide (k = InodeKey i) then Some (Some (EncodeInode rec', 0))
            else if bool_decide (k = DirentKey p n) then Some (Some (EncodeUint64 i, 0)) else None) as He.
  { intros k Hk. pose proof (create_effect p n i rec' [] [] k ltac:(constructor) Hk) as E. done. }
  assert (touches_dirents os (DirentKey p n) (Some (Some (EncodeUint64 i, 0)))) as Ht.
  { intros k Hk. rewrite He by by left.
    rewrite (bool_decide_eq_false_2 (k = InodeKey i)); [done|]. intros ->. by rewrite InodeKey_not_dirent in Hk. }
  assert (∀ j, is_u64 j → names (mvcc_ops m os).1 j = if bool_decide (j = i) then names m j ∪ {[DirentKey p n]} else names m j) as Hnm.
  { intros j Hj. by rewrite (names_add m os p n i 0 j). }
  assert (size (names m i ∪ {[DirentKey p n]}) = size (names m i) + 1)%nat as Hsz.
  { rewrite size_union, size_singleton; [done|]. apply disjoint_singleton_r. intros [_ [l ?]]%elem_of_names. congruence. }
  apply (ns_commit D m bud _ os (DirentKey p n) (Some (Some (EncodeUint64 i, 0)))); [done|done| | |].
  { intros v l [= <- <-]. by exists i. }
  - intros j Hj. rewrite Hnm by done. specialize (He (InodeKey j) (InodeKey_ns_key j)).
    rewrite (bool_decide_eq_false_2 (InodeKey j = DirentKey p n)) in He by done.
    destruct (bool_decide_reflect (InodeKey j = InodeKey i)) as [E|E].
    + apply InodeKey_inj in E; [|apply Hj|apply Hi]. subst j. exists (Some rec'). split; [by apply inode_at_put|].
      rewrite bool_decide_eq_true_2 by done. unfold count_ok in *. rewrite Hd in Hcnt. rewrite Hd', Hsz, Hn.
      specialize (Hb i Hi). unfold wrap32. rewrite Z.mod_small; lia.
    + rewrite (bool_decide_eq_false_2 (j = i)) by (intros ->; done). destruct (Hl j Hj) as (r & Hr & Hc0). exists r.
      split; [by apply inode_at_ops|done].
  - intros j Hj. rewrite Hnm by done. case_bool_decide; [subst; rewrite Hsz; lia|lia].
Qed.

Lemma wp_link_attempt s i p n b σ :
  is_u64 i → credit (S b) σ →
  wpn (link_attempt s i p n) (λ r σ', match r with Ok None => credit (S b) σ' | _ => credit b σ' end) σ.
Proof.
  intros Hi Hc. assert (∀ σ1, credit (S b) σ1 → credit b σ1) as Hle by (intros; eapply credit_le; [|done]; lia).
  wpb. wpr wp_GetInodeRev; [apply ns_guar_refl| | |].
  - intros σ1 H1 σ2 H2. apply Hle. do 2 (eapply credit_rel; [eassumption|]). done.
  - intros σ1 σ2 H1 H2 _ σ3 H3. apply Hle. do 3 (eapply credit_rel; [eassumption|]). done.
  - intros σ1 σ2 e H1 H2 He. cbn [fst snd].
    assert (credit (S b) σ1) as Hc1 by by eapply credit_rel. assert (credit (S b) σ2) as Hc2 by by eapply credit_rel.
    pose proof Hc1 as [(_ & _ & Hl & _) _]. destruct (decoded D σ1.1 i e Hl Hi He) as (r & rec & Hd & _ & _ & Hok & _).
    rewrite Hd. destruct (is_dir rec) eqn:Edir; [intros σ3 H3; apply Hle; by eapply credit_rel|].
    wpb. wpr wp_now; [apply ns_guar_refl|]. intros now σ3 H3. assert (credit (S b) σ3) as Hc3 by by eapply credit_rel.
    wpb. apply (wp_ns_txn _ _ _ (S b) b); [done|lia| |].
    + intros m bud HR Hi' Hf. destruct (credit_now _ _ _ _ Hc3 HR) as (x & Hx & Hb).
      destruct x as [|x]; [lia|]. exists (<[c:=x]> bud). split; [|split].
      * cbn [forallb] in Hf. zbool. assert (ns_rel c σ1 (m, bud)) as HR1 by (do 2 (etrans; [eassumption|]); done).
        pose proof (still_there σ1 (m, bud) _ _ (proj1 Hc1) HR1 He ltac:(eassumption)) as He'.
        pose proof Hi' as (_ & _ & Hl' & _).
        destruct (decoded D m i e Hl' Hi He') as (r2 & rec2 & Hd2 & _ & _ & _ & _ & _ & _ & Hcnt).
        rewrite Hd in Hd2. injection Hd2 as <-.
        apply (link_step m bud x p n i rec); try done.
        -- eapply rec_ok_same; [exact Hok|done|done|]. apply Z.mod_pos_bound. lia.
        -- apply val_at_None. apply eval_key_absent; [apply Hi'|done].
      * intros j Hj. by rewrite list_lookup_insert_ne.
      * exists x. split; [lia|]. apply list_lookup_insert_eq. by eapply lookup_lt_Some.
    + intros [[]|e'] σ4 Hc4 Hc4'; [intros σ5 H5; by eapply credit_rel| |intros σ5 H5; by eapply credit_rel].
      specialize (Hc4' eq_refl). wpb. apply (wp_harmless _ (S b)); [|done|].
      * unfold LookupDirent. apply issues_ebind; [by apply issues_Get|done].
      * intros rr σ5 Hc5 σ6 H6. assert (credit (S b) σ6) by by eapply credit_rel. destruct rr; repeat case_if; auto.
Qed.

(** ** Removing a name *)

Lemma remove_step m bud os dk i l :
  ns_inv D (m, bud) → touches_dirents os dk (Some None) → is_u64 i → val_at dk m = Some (EncodeUint64 i, l) →
  (∀ j, is_u64 j → j ≠ i → ops_effect os (InodeKey j) = None ∨
     (D j = true ∧ ∃ r', ops_effect os (InodeKey j) = Some (Some (EncodeInode r', 0)) ∧ rec_ok D j r')) →
  (∃ r, inode_at D i (mvcc_ops m os).1 r ∧ count_ok (names m i ∖ {[dk]}) r) →
  ns_inv D ((mvcc_ops m os).1, bud).
Proof.
  intros Hinv Ht Hi Hv Hoth Hown. pose proof Hinv as (_ & _ & Hl & Hb). cbn [fst snd] in Hl, Hb.
  assert (∀ j, is_u64 j → names (mvcc_ops m os).1 j = if bool_decide (j = i) then names m j ∖ {[dk]} else names m j) as Hnm.
  { intros j Hj. by rewrite (names_del m os dk i l j). }
  apply (ns_commit D m bud bud os dk (Some None)); [done|done|done| |].
  - intros j Hj. rewrite Hnm by done. case_bool_decide as E; [by subst|].
    destruct (Hoth j Hj E) as [He|(HD & r' & He & Hr')].
    + destruct (Hl j Hj) as (r & Hr & Hc0). exists r. split; [by apply inode_at_ops|done].
    + exists (Some r'). split; [by apply inode_at_put|]. unfold count_ok. destruct Hr' as (_ & _ & _ & ->). rewrite HD.
      by apply dir_names.
  - intros j Hj. rewrite Hnm by done. case_bool_decide; [|lia].
    pose proof (subseteq_size (names m j ∖ {[dk]}) (names m j) ltac:(set_solver)). lia.
Qed.

Definition tail_ok (i : Z) (rec : InodeRecord) (tl : list op) : Prop :=
  (∀ k, has_prefix PrefixDirent k = true → ops_effect tl k = None) ∧
  (∀ j, is_u64 j → j ≠ i → ops_effect tl (InodeKey j) = None) ∧
  ((ops_effect tl (InodeKey i) = Some None ∧ (is_dir rec = true ∨ Nlink rec <= 1)) ∨
   ∃ r', ops_effect tl (InodeKey i) = Some (Some (EncodeInode r', 0)) ∧ rec_ok D i r' ∧ is_dir rec = false ∧
         Nlink r' = Z.max 0 (Nlink rec - 1)).

(** Operations on neither names nor records, before or after the one on [i]. *)
Lemma tail_ok_effect i rec tl x :
  is_u64 i → (∀ k, ns_key k → ops_effect tl k = if bool_decide (k = InodeKey i) then Some x else None) →
  ((x = None ∧ (is_dir rec = true ∨ Nlink rec <= 1)) ∨
   ∃ r', x = Some (EncodeInode r', 0) ∧ rec_ok D i r' ∧ is_dir rec = false ∧ Nlink r' = Z.max 0 (Nlink rec - 1)) →
  tail_ok i rec tl.
Proof.
  intros Hi He Hx. split; [|split].
  - intros k Hk. rewrite He by by left. rewrite bool_decide_eq_false_2; [done|]. intros ->. by rewrite InodeKey_not_dirent in Hk.
  - intros j Hj Hne. rewrite He by apply InodeKey_ns_key. rewrite bool_decide_eq_false_2; [done|].
    intros E. apply InodeKey_inj in E; [done|apply Hj|apply Hi].
  - rewrite He, bool_decide_eq_true_2 by (done || apply InodeKey_ns_key). destruct Hx as [[-> ?]|(r' & -> & ?)]; [by left|].
    right. by exists r'.
Qed.

Lemma drop_effect i tl k :
  Forall harmless_op tl → ns_key k →
  ops_effect (OpDelete (InodeKey i) false :: tl) k = if bool_decide (k = InodeKey i) then Some None else None.
Proof.
  intros Ht Hk. cbn [ops_effect]. rewrite (harmless_effect tl k Ht Hk). unfold op_effect, op_touches. by case_bool_decide.
Qed.

Lemma xattrs_harmless i : harmless_op (OpDelete (XattrPrefix i) true).
Proof. intros k [[t ->]%has_prefix_true|[t ->]%has_prefix_true]; reflexivity. Qed.
Lemma symlink_harmless i : harmless_op (OpDelete (InodeSymlinkKey i) false).
Proof. intros k [[t ->]%has_prefix_true|[t ->]%has_prefix_true]; by apply bool_decide_eq_false_2. Qed.
Lemma orphan_harmless nd i v : harmless_op (put (OrphanKey nd i) v).
Proof. intros k [[t ->]%has_prefix_true|[t ->]%has_prefix_true]; by apply bool_decide_eq_false_2. Qed.

Lemma wp_unlinkInodeOps i rec (Q : list op → _ → Prop) σ :
  is_u64 i → rec_ok D i rec → (∀ tl σ', tail_ok i rec tl → ns_rel c σ σ' → Q tl σ') →
  wpn (unlinkInodeOps rec) Q σ.
Proof.
  intros Hi Hok HQ. pose proof Hok as (K1 & _ & K3 & _). unfold unlinkInodeOps. rewrite K1.
  assert (∀ tl, Forall harmless_op tl → (is_dir rec = true ∨ Nlink rec <= 1) →
    tail_ok i rec (OpDelete (InodeKey i) false :: tl)) as Hdrop.
  { intros tl Htl Hr. apply (tail_ok_effect _ _ _ None); [done|intros; by apply drop_effect|by left]. }
  destruct (is_dir rec) eqn:Ed.
  { intros σ1 H1. apply HQ; [apply Hdrop; [|by left]|done]. constructor; [apply xattrs_harmless|constructor]. }
  destruct (Z.ltb_spec 1 (Nlink rec)).
  - wpb. wpr wp_now; [apply ns_guar_refl|]. intros now σ1 H1 σ2 H2.
    apply HQ; [|by trans σ1].
    set (r' := set_Ctime now _). apply (tail_ok_effect _ _ _ (Some (EncodeInode r', 0))); [done|done|].
    right. exists r'. split; [done|]. split; [|split; [done|cbn; lia]].
    eapply rec_ok_same; [exact Hok|done|done|]. cbn. unfold is_u32 in *. lia.
  - assert (Nlink rec <= 1) by lia.
    case_if; intros σ1 H1; (apply HQ; [|done]).
    + apply Hdrop; [|by right]. repeat constructor; [apply xattrs_harmless|apply symlink_harmless].
    + apply Hdrop; [|by right]. repeat constructor. apply xattrs_harmless.
Qed.

Lemma wp_unlink_tail s i rec h (Q : list op * Z → _ → Prop) σ :
  is_u64 i → rec_ok D i rec → (∀ tl z σ', tail_ok i rec tl → ns_rel c σ σ' → Q (tl, z) σ') →
  wpn (unlink_tail s i rec h) Q σ.
Proof.
  intros Hi Hok HQ. unfold unlink_tail. destruct ((Nlink rec <=? 1) && negb (is_dir rec) && _) eqn:E.
  - zbool. wpb. wpr wp_now; [apply ns_guar_refl|]. intros now σ1 HR1 σ2 HR2.
    apply HQ; [|by trans σ1].
    set (r' := set_Ctime now _).
    apply (tail_ok_effect _ _ _ (Some (EncodeInode r', 0))); [done| |].
    + intros k Hk. change [put (InodeKey i) (EncodeInode r'); put (OrphanKey (nodeID s) i) []]
        with ([put (InodeKey i) (EncodeInode r')] ++ [put (OrphanKey (nodeID s) i) []]).
      rewrite ops_effect_app, (harmless_effect [put (OrphanKey (nodeID s) i) []]); [done| |done].
      constructor; [apply orphan_harmless|constructor].
    + right. exists r'. split; [done|]. split; [|split; [done|]].
      * by eapply rec_ok_same; [exact Hok|done|done|].
      * destruct Hok as (_ & _ & K3 & _). cbn. unfold is_u32 in K3. lia.
  - wpb. apply (wp_unlinkInodeOps i rec); [done|done|]. intros tl σ1 Ht H1 σ2 H2.
    apply HQ; [done|by trans σ1].
Qed.

(** The names left when one of them is removed fit the new record. *)
Lemma tail_count m os dk i rec tl :
  is_u64 i → rec_ok D i rec → tail_ok i rec tl → ops_effect os (InodeKey i) = ops_effect tl (InodeKey i) →
  count_ok (names m i) (Some rec) → dk ∈ names m i →
  ∃ r, inode_at D i (mvcc_ops m os).1 r ∧ count_ok (names m i ∖ {[dk]}) r.
Proof.
  intros Hi Hok (_ & _ & Ht) He Hcnt Hin.
  assert (size (names m i ∖ {[dk]}) + 1 = size (names m i))%nat as Hsz.
  { rewrite <- (size_singleton (C := gset bytes) dk). rewrite <- size_union by set_solver. f_equal.
    apply set_eq. intros k. destruct (decide (k = dk)); set_solver. }
  unfold count_ok in Hcnt. destruct Ht as [[Hx Hr]|(r' & Hx & Hr' & Hd & Hn)].
  - exists None. split; [apply inode_at_del; congruence|]. apply leibniz_equiv, size_empty_inv.
    destruct (is_dir rec); [lia|]. destruct Hr as [|]; [done|lia].
  - exists (Some r'). split; [apply inode_at_put; congruence|]. unfold count_ok. rewrite Hd in Hcnt.
    assert (is_dir r' = false) as ->. { destruct Hr' as (_ & _ & _ & ->), Hok as (_ & _ & _ & <-). done. }
    lia.
Qed.

Lemma unlink_effect p n tl k : ops_effect (DeleteDirent p n :: tl) k =
  match ops_effect tl k with Some x => Some x | None => if bool_decide (k = DirentKey p n) then Some None else None end.
Proof. cbn [ops_effect]. destruct (ops_effect tl k); [done|]. unfold op_effect, op_touches, DeleteDirent. by case_bool_decide. Qed.

Lemma dirent_value m k e : dirents_ok m → has_prefix PrefixDirent k = true → mkvs m !! k = Some e →
  is_u64 (DecodeUint64 (kv_val e)) ∧ val_at k m = Some (EncodeUint64 (DecodeUint64 (kv_val e)), 0).
Proof.
  intros Hd Hp He. destruct (Hd k (kv_val e) (kv_lease e)) as (i & Hi & Hv & Hle); [apply val_at_Some; eauto|done|].
  rewrite Hv, DecodeUint64_EncodeUint64 by done. split; [done|]. apply val_at_Some. eauto.
Qed.

(** The pinned dirent and inode of a removal, as they are at its commit. *)
Lemma removal_pinned σ1 σ2 m bud dk e e2 rec :
  ns_inv D σ1 → ns_inv D σ2 → ns_rel c σ1 (m, bud) → ns_rel c σ2 (m, bud) → has_prefix PrefixDirent dk = true →
  mkvs σ1.1 !! dk = Some e → mkvs σ2.1 !! InodeKey (DecodeUint64 (kv_val e)) = Some e2 →
  DecodeInode (kv_val e2) = Some rec →
  eval_cmp (mkvs m) (mod_is dk (kv_mod e)) = true →
  eval_cmp (mkvs m) (InodeUnchanged (DecodeUint64 (kv_val e)) (kv_mod e2)) = true →
  let i := DecodeUint64 (kv_val e) in
  val_at dk m = Some (EncodeUint64 i, 0) ∧ count_ok (names m i) (Some rec) ∧ dk ∈ names m i.
Proof.
  intros Hi1 Hi2 HR1 HR2 Hp He He2 Hd Hc1 Hc2 i.
  pose proof (still_there σ1 (m, bud) _ _ Hi1 HR1 He Hc1) as Hm. pose proof (still_there σ2 (m, bud) _ _ Hi2 HR2 He2 Hc2) as Hm2.
  assert (ns_inv D (m, bud)) as (_ & Hdir & Hl & _) by by apply HR1. cbn [fst] in *.
  destruct (dirent_value m dk e Hdir Hp Hm) as [Hi Hv].
  destruct (decoded D m i e2 Hl Hi Hm2) as (r & rec' & Hd' & _ & _ & _ & _ & _ & _ & Hcnt).
  rewrite Hd in Hd'. injection Hd' as <-. split; [done|]. split; [done|]. apply elem_of_names. eauto.
Qed.

Lemma unlink_step m bud p n i rec tl :
  ns_inv D (m, bud) → is_u64 i → rec_ok D i rec → tail_ok i rec tl →
  val_at (DirentKey p n) m = Some (EncodeUint64 i, 0) → count_ok (names m i) (Some rec) →
  DirentKey p n ∈ names m i →
  ns_inv D ((mvcc_ops m (DeleteDirent p n :: tl)).1, bud).
Proof.
  intros Hinv Hi Hok Ht Hv Hcnt Hin. pose proof Ht as (T1 & T2 & T3).
  assert (∀ j, ops_effect (DeleteDirent p n :: tl) (InodeKey j) = ops_effect tl (InodeKey j)) as Hk.
  { intros j. rewrite unlink_effect. destruct (ops_effect tl (InodeKey j)); [done|]. by rewrite bool_decide_eq_false_2. }
  apply (remove_step m bud _ (DirentKey p n) i 0); [done| |done|done| |].
  - intros k Hp. by rewrite unlink_effect, T1.
  - intros j Hj Hne. left. rewrite Hk. by apply T2.
  - by eapply tail_count.
Qed.

Lemma wp_unlink_attempt s t p n h b σ :
  is_u64 p → touch_ok t → credit b σ →
  wpn (unlink_attempt s t p n h)
    (λ r σ', credit b σ' ∧ ∀ x, r = Ok (Some x) → touch_ok x.1) σ.
Proof.
  intros Hp Ht Hc. assert (has_prefix PrefixDirent (DirentKey p n) = true) as Hdk by apply has_prefix_app.
  assert (∀ e σ1, credit b σ1 → wpn (Ret (Err e)) (λ (r : result (option (Touch * Z))) σ',
    credit b σ' ∧ ∀ x, r = Ok (Some x) → touch_ok x.1) σ1) as Herr.
  { intros e σ1 H1 σ2 H2. split; [by eapply credit_rel|done]. }
  wpb. wpr wp_GetRevision; [apply ns_guar_refl| |].
  { intros σ1 H1 σ2 H2. split; [do 2 (eapply credit_rel; [eassumption|]); done|done]. }
  intros σ1 σ2 H1 H2. assert (credit b σ1) as Hc1 by by eapply credit_rel.
  assert (credit b σ2) as Hc2 by by eapply credit_rel. cbn [fst range_kvs].
  destruct (mkvs σ1.1 !! DirentKey p n) as [e|] eqn:He; cbn [first_kv]; [|by apply Herr].
  set (i := DecodeUint64 (kv_val e)).
  assert (is_u64 i) as Hi. { destruct Hc1 as [(_ & Hd & _) _]. by apply (dirent_value σ1.1 (DirentKey p n) e). }
  wpb. wpr wp_GetInodeRev; [apply ns_guar_refl| | |].
  { intros σ3 H3. apply Herr. by eapply credit_rel. }
  { intros σ3 σ4 H3 H4 _. apply Herr. do 2 (eapply credit_rel; [eassumption|]). done. }
  intros σ3 σ4 e2 H3 H4 He2. cbn [fst snd].
  assert (credit b σ3) as Hc3 by by eapply credit_rel. assert (credit b σ4) as Hc4 by by eapply credit_rel.
  pose proof Hc3 as [(_ & _ & Hl3 & _) _].
  destruct (decoded D σ3.1 i e2 Hl3 Hi He2) as (r & rec & Hd & _ & _ & Hok & _). rewrite Hd.
  wpb. apply (wp_unlink_tail s i rec h); [done|done|]. intros tl z σ5 Htl H5. cbn [fst snd].
  assert (credit b σ5) as Hc5 by by eapply credit_rel.
  wpb. apply (wp_ns_txn _ _ _ b b); [done|done| |].
  - intros m bud HR Hi' Hf. exists bud. split; [|split; [done|by apply (credit_now b σ5 m)]].
    cbn [forallb] in Hf. zbool.
    destruct (removal_pinned σ1 σ3 m bud (DirentKey p n) e e2 rec) as (P1 & P2 & P3); try done.
    { apply Hc1. } { apply Hc3. } { do 4 (etrans; [eassumption|]). done. } { do 2 (etrans; [eassumption|]). done. }
    by apply (unlink_step m bud p n i rec).
  - intros [[]|e'] σ6 Hc6 _; [|intros σ7 H7; split; [by eapply credit_rel|done]..].
    wpb. apply (wp_touchDir _ _ _ b); [done|done|done|]. intros t' σ7 Ht' Hc7 σ8 H8.
    split; [by eapply credit_rel|]. by intros x [= <-].
Qed.

Lemma rmdir_step m bud p n i rec adj :
  ns_inv D (m, bud) → is_u64 p → is_u64 i → adj_ops p adj → is_dir rec = true →
  val_at (DirentKey p n) m = Some (EncodeUint64 i, 0) → count_ok (names m i) (Some rec) →
  DirentKey p n ∈ names m i →
  ns_inv D ((mvcc_ops m ([DeleteDirent p n; OpDelete (InodeKey i) false] ++ adj)).1, bud).
Proof.
  intros Hinv Hp Hi Hadj Hdir Hv Hcnt Hin. unfold count_ok in Hcnt. rewrite Hdir in Hcnt.
  pose proof (subseteq_size (names m i ∖ {[DirentKey p n]}) (names m i) ltac:(set_solver)) as Hsub.
  assert (∀ k, ops_effect ([DeleteDirent p n; OpDelete (InodeKey i) false] ++ adj) k =
    match ops_effect adj k with Some x => Some x | None =>
      if bool_decide (k = InodeKey i) then Some None else if bool_decide (k = DirentKey p n) then Some None else None end) as He.
  { intros k. rewrite ops_effect_app. destruct (ops_effect adj k); [done|]. cbn [ops_effect].
    unfold op_effect, op_touches, DeleteDirent. by repeat case_bool_decide. }
  apply (remove_step m bud _ (DirentKey p n) i 0); [done| |done|done| |].
  - intros k Hk. rewrite He, (adj_effect_dirent p) by done.
    rewrite (bool_decide_eq_false_2 (k = InodeKey i)); [done|]. intros ->. by rewrite InodeKey_not_dirent in Hk.
  - intros j Hj Hne. rewrite He. rewrite (bool_decide_eq_false_2 (InodeKey j = DirentKey p n)) by done.
    destruct (adj_effect_inode p adj j Hp Hj Hadj) as [->|(-> & HD & r' & -> & Hr')]; [left|right; eauto].
    rewrite bool_decide_eq_false_2; [done|]. intros E. apply InodeKey_inj in E; [done|apply Hj|apply Hi].
  - specialize (He (InodeKey i)). rewrite (bool_decide_eq_true_2 (InodeKey i = InodeKey i)) in He by done.
    destruct (adj_effect_inode p adj i Hp Hi Hadj) as [Ha|(-> & HD & r' & Ha & Hr')]; rewrite Ha in He.
    + exists None. split; [by apply inode_at_del|]. apply leibniz_equiv, size_empty_inv.
      assert (size (names m i ∖ {[DirentKey p n]}) + 1 <= size (names m i))%nat; [|lia].
      rewrite <- (size_singleton (C := gset bytes) (DirentKey p n)). rewrite <- size_union by set_solver.
      apply subseteq_size. set_solver.
    + exists (Some r'). split; [by apply inode_at_put|]. unfold count_ok. destruct Hr' as (_ & _ & _ & ->). rewrite HD. lia.
Qed.

Lemma wp_rmdir_attempt s p n b σ :
  is_u64 p → D p = true → credit b σ → wpn (rmdir_attempt s p n) (λ r σ', credit b σ') σ.
Proof.
  intros Hp HD Hc. assert (has_prefix PrefixDirent (DirentKey p n) = true) as Hdk by apply has_prefix_app.
  assert (∀ (r : result (option unit)) σ1, credit b σ1 → wpn (Ret r) (λ _ σ', credit b σ') σ1) as Hret.
  { intros r σ1 H1 σ2 H2. by eapply credit_rel. }
  wpb. wpr wp_GetRevision; [apply ns_guar_refl| |].
  { intros σ1 H1 σ2 H2. do 2 (eapply credit_rel; [eassumption|]). done. }
  intros σ1 σ2 H1 H2. assert (credit b σ1) as Hc1 by by eapply credit_rel.
  assert (credit b σ2) as Hc2 by by eapply credit_rel. cbn [fst range_kvs].
  destruct (mkvs σ1.1 !! DirentKey p n) as [e|] eqn:He; cbn [first_kv]; [|by apply Hret].
  set (i := DecodeUint64 (kv_val e)).
  assert (is_u64 i) as Hi. { destruct Hc1 as [(_ & Hd & _) _]. by apply (dirent_value σ1.1 (DirentKey p n) e). }
  wpb. wpr wp_GetInodeRev; [apply ns_guar_refl| | |].
  { intros σ3 H3. apply Hret. by eapply credit_rel. }
  { intros σ3 σ4 H3 H4 _. apply Hret. do 2 (eapply credit_rel; [eassumption|]). done. }
  intros σ3 σ4 e2 H3 H4 He2. cbn [fst snd].
  assert (credit b σ3) as Hc3 by by eapply credit_rel. assert (credit b σ4) as Hc4 by by eapply credit_rel.
  pose proof Hc3 as [(_ & _ & Hl3 & _) _].
  destruct (decoded D σ3.1 i e2 Hl3 Hi He2) as (r & rec & Hd & _ & _ & Hok & _). rewrite Hd.
  destruct (is_dir rec) eqn:Edir; cbn [negb]; [|by apply Hret].
  wpb. apply (wp_adjustDirNlink s p (-1) b); [done|done|done|]. intros [adj|e'] σ5 H5 Hadj; [|apply Hret; by eapply credit_rel].
  assert (credit b σ5) as Hc5 by by eapply credit_rel.
  wpb. apply (wp_ns_txn _ _ _ b b); [done|done| |].
  - intros m bud HR Hi' Hf. exists bud. split; [|split; [done|by apply (credit_now b σ5 m)]].
    rewrite forallb_app in Hf. cbn [forallb] in Hf. zbool.
    destruct (removal_pinned σ1 σ3 m bud (DirentKey p n) e e2 rec) as (P1 & P2 & P3); try done.
    { apply Hc1. } { apply Hc3. } { do 4 (etrans; [eassumption|]). done. } { do 2 (etrans; [eassumption|]). done. }
    apply (rmdir_step m bud p n i rec); auto.
  - intros [[]|e'] σ6 Hc6 _; [by apply Hret| |by apply Hret].
    wpb. apply (wp_harmless _ b); [|done|].
    + unfold ListDirents. apply issues_ebind; [by apply issues_GetPrefix|done].
    + intros rr σ7 Hc7. by apply Hret.
Qed.

(** ** Publishing queued timestamps *)

(** What a batch may write, whenever its comparisons hold. *)
Definition batch_ok (cmps : list cmp) (ops : list op) (σ : mvcc * list nat) : Prop :=
  ∀ m bud, ns_rel c σ (m, bud) → ns_inv D (m, bud) → forallb (eval_cmp (mkvs m)) cmps = true → Forall (rewrites m) ops.

Lemma wp_batch_build s due b σ :
  Forall (λ x, is_u64 x.1) due → credit b σ →
  wpn (batch_build s due) (λ r σ', ns_rel c σ σ' ∧ batch_ok r.1.1 r.1.2 σ' ∧ r.2 ⊆ due) σ.
Proof.
  revert σ. induction due as [|[i u] due IH]; intros σ Hu Hc; cbn [batch_build].
  { intros σ1 H1. split; [done|]. split; [by intros m bud _ _ _|done]. }
  inversion Hu as [|? ? Hi Hu']; subst. cbn [fst] in Hi.
  assert (∀ (x : result (option InodeRecord * Z)) σ1, credit b σ1 →
    (∀ rec rev, x = Ok (Some rec, rev) → ∀ σ2, ns_rel c σ1 σ2 → eval_cmp (mkvs σ2.1) (InodeUnchanged i rev) = true →
       rewrites σ2.1 (put (InodeKey i) (EncodeInode (apply u rec).1))) →
    wpn (rest ⇐ batch_build s due;
      let '(cmps, ops, failed) := rest in
      Ret match x with
      | Err _ => (cmps, ops, (i, u) :: failed)
      | Ok (None, _) => (cmps, ops, failed)
      | Ok (Some rec, rev) =>
        let '(rec', moved) := apply u rec in
        if (moved : bool) then (InodeUnchanged i rev :: cmps, put (InodeKey i) (EncodeInode rec') :: ops, failed)
        else (cmps, ops, failed)
      end) (λ r σ', ns_rel c σ1 σ' ∧ batch_ok r.1.1 r.1.2 σ' ∧ r.2 ⊆ (i, u) :: due) σ1) as Hgo.
  { intros x σ1 Hc1 Hx. wpb.
    eapply wp_mono; [|by apply IH]. intros [[cmps ops] failed] σ2 (H12 & Hb2 & Hf2) σ3 H3. cbn [fst snd] in *.
    assert (batch_ok cmps ops σ3) as Hb3 by (intros m bud HR; apply Hb2; by trans σ3).
    assert (ns_rel c σ1 σ3) by by trans σ2.
    destruct x as [[[rec|] rev]|er]; [|split; [done|split; [done|set_solver]]..].
    destruct (apply u rec) as [rec' []] eqn:Ea; [|split; [done|split; [done|set_solver]]].
    split; [done|]. split; [|set_solver]. cbn [fst snd]. intros m bud HR Hi' Hf. cbn [forallb] in Hf. zbool.
    constructor; [|by apply (Hb3 m bud)]. replace rec' with (apply u rec).1 by by rewrite Ea.
    apply (Hx rec rev eq_refl (m, bud)); [|done]. by trans σ3. }
  assert (∀ (p0 : prog (list cmp * list op * list (Z * timeUpdate))) σ1, ns_rel c σ σ1 →
    wpn p0 (λ r σ', ns_rel c σ1 σ' ∧ batch_ok r.1.1 r.1.2 σ' ∧ r.2 ⊆ (i, u) :: due) σ1 →
    wpn p0 (λ r σ', ns_rel c σ σ' ∧ batch_ok r.1.1 r.1.2 σ' ∧ r.2 ⊆ (i, u) :: due) σ1) as Hext.
  { intros p0 σ1 H1 Hw. eapply wp_mono; [|exact Hw]. intros r σ' (? & ?). split; [by trans σ1|done]. }
  wpb. wpr wp_GetInodeRev; [apply ns_guar_refl| | |].
  - intros σ1 H1. apply Hext; [done|]. apply (Hgo (Err EEtcd)); [by eapply credit_rel|done].
  - intros σ1 σ2 H1 H2 _. apply Hext; [by trans σ1|].
    apply (Hgo (Ok (None, 0))); [do 2 (eapply credit_rel; [eassumption|]); done|done].
  - intros σ1 σ2 e H1 H2 He. apply Hext; [by trans σ1|].
    apply (Hgo (Ok (DecodeInode (kv_val e), kv_mod e))); [do 2 (eapply credit_rel; [eassumption|]); done|].
    intros rec rev [= Hd <-] σ3 H3 Hev. assert (credit b σ1) as [Hi1 _] by by eapply credit_rel.
    eapply (rewrites_pinned σ1 σ3); try done. by trans σ2.
Qed.

Lemma wp_settle_each s due failed b σ (P : Z * timeUpdate → Prop) :
  Forall (λ x, is_u64 x.1) due → Forall P due → Forall P failed → credit b σ →
  wpn (settle_each s due failed) (λ r σ', credit b σ' ∧ Forall P r) σ.
Proof.
  revert failed σ. induction due as [|[i u] due IH]; intros failed σ Hu Hd Hf Hc; cbn [settle_each].
  { intros σ1 H1. split; [by eapply credit_rel|done]. }
  inversion Hu as [|? ? Hi Hu']; inversion Hd as [|? ? Hp Hd']; subst. case_if; [by apply IH|].
  wpb. apply (wp_commitInodeTimes s i u b); [done|done|]. intros [[]|e] σ1 Hc1; apply IH; try done.
  apply Forall_app. by split; [|constructor].
Qed.

Lemma wp_commit_batch s due b σ :
  Forall (λ x, is_u64 x.1) due → credit b σ →
  wpn (commitInodeTimesBatch s due) (λ r σ', credit b σ' ∧ Forall (λ x, is_u64 x.1) r) σ.
Proof.
  intros Hu Hc. unfold commitInodeTimesBatch. destruct due as [|x due]; [intros σ1 H1; split; [by eapply credit_rel|done]|].
  wpb. eapply wp_mono; [|by apply (wp_batch_build s (x :: due) b)].
  intros [[cmps ops] failed] σ1 (H1 & Hb & Hf). cbn [fst snd] in *.
  assert (credit b σ1) as Hc1 by by eapply credit_rel.
  assert (Forall (λ y, is_u64 y.1) failed) as Hfu.
  { rewrite Forall_forall in Hu |- *. intros y Hy. apply Hu. by apply Hf. }
  destruct ops as [|o ops]; [intros σ2 H2; split; [by eapply credit_rel|done]|].
  wpb. apply (wp_ns_txn _ _ _ b b); [done|done| |].
  - intros m bud HR Hi Hev. exists bud. split; [|split; [done|by apply (credit_now b σ1 m)]].
    apply rewrite_step; [done|]. by apply (Hb m bud).
  - intros [[]|e] σ2 Hc2 _; [intros σ3 H3; split; [by eapply credit_rel|done]| |]; by apply wp_settle_each.
Qed.

Lemma touch_ok_requeue d i u : is_u64 i → touch_ok (Some d) → touch_ok (Some (requeue d i u)).
Proof.
  intros Hi Ht d' j v [= <-]. unfold requeue. destruct (d !! i);
    intros [[-> _]|[_ Hj]]%lookup_insert_Some; try done; by eapply Ht.
Qed.

Lemma chunk_updates_in f k due x ch : ch ∈ chunk_updates f k due → x ∈ ch → x ∈ due.
Proof.
  revert due. induction f as [|f IH]; intros due; [by destruct due; inversion 1|].
  destruct due as [|y due]; [inversion 1|]. cbn [chunk_updates]. intros [->|Hin]%elem_of_cons Hx.
  - rewrite <- (take_drop k (y :: due)). apply elem_of_app. by left.
  - rewrite <- (take_drop k (y :: due)). apply elem_of_app. right. by apply IH.
Qed.

Lemma wp_flush s sh t o b σ :
  (∀ l x, x ∈ sh l → x ∈ l) → touch_ok t → credit b σ →
  wpn (FlushInodeTimes s sh t o) (λ t' σ', touch_ok t' ∧ credit b σ') σ.
Proof.
  intros Hsh Ht Hc. unfold FlushInodeTimes. destruct t as [dirty|]; [|intros σ1 H1; split; [done|by eapply credit_rel]].
  wpb. unfold flush. set (due := filter _ dirty). set (chunks := chunkUpdates _ _).
  assert (Forall (Forall (λ x, is_u64 x.1)) chunks) as Hch.
  { apply Forall_forall. intros ch Hch. apply Forall_forall. intros [i u] Hx.
    assert ((i, u) ∈ map_to_list due) as Hin by (by eapply Hsh, chunk_updates_in).
    apply elem_of_map_to_list, map_lookup_filter_Some in Hin as [Hin _]. by eapply Ht. }
  assert (touch_ok (Some (dirty ∖ due))) as Htd.
  { intros d i u [= <-] [Hd _]%lookup_difference_Some. by eapply Ht. }
  revert Htd Hch. generalize (dirty ∖ due), chunks. clear -Hc. intros d cs. revert d σ Hc.
  induction cs as [|ch cs IH]; intros d σ Hc Htd Hch; cbn [flush_chunks].
  { intros σ1 H1 σ2 H2. split; [done|]. do 2 (eapply credit_rel; [eassumption|]). done. }
  inversion Hch as [|? ? H1 H2]; subst. wpb. eapply wp_mono; [|by apply (wp_commit_batch s ch b)].
  intros failed σ1 [Hc1 Hf]. apply IH; [done| |done].
  clear -Hf Htd. revert d Htd. induction failed as [|[i u] failed IHf]; intros d Htd; [done|]. simpl.
  inversion Hf; subst. apply IHf; [done|]. by apply touch_ok_requeue.
Qed.

(** ** Any sequence of operations *)

(** The arguments an operation is called with: 64-bit inode numbers, modes
    whose type matches the number's kind, directories as parents. *)
Definition new_ok (p i m : Z) : Prop :=
  is_u64 p ∧ is_u64 i ∧ is_u32 m ∧ (ftype m =? ModeDir) = D i ∧ (D i = true → D p = true).

Definition op_ok (o : node_op) : Prop :=
  match o with
  | NCreateFile p _ i m _ _ x => new_ok p i m ∧ Forall harmless_op (Ops x)
  | NMknod p _ i m _ _ _ => new_ok p i m
  | NCreateDir p _ i m _ _ => new_ok p i (Z.lor m ModeDir)
  | NSymlink p _ i _ _ _ => new_ok p i (Z.lor ModeSymlink 511)
  | NLink i p _ => is_u64 i ∧ is_u64 p
  | NUnlink p _ _ => is_u64 p
  | NRmdir p _ => is_u64 p ∧ D p = true
  | NFlushTimes sh _ => ∀ l x, x ∈ sh l → x ∈ l
  | NReserve k _ _ => ¬ ns_key k
  | NAppendExtent _ _ _ _ _ | NAcquireLock _ _ _ _ | NReleaseLock _ _ _ | NReleaseLocks _ => True
  | _ => False
  end.

Lemma new_record p i m now u g :
  new_ok p i m →
  let r := NewInodeRecord now i m u g in
  is_u64 (Ino r) ∧ rec_ok D (Ino r) r ∧ (is_dir r = false → Nlink r = 1) ∧ (is_dir r = true → D p = true).
Proof.
  intros (H1 & H2 & H3 & H4 & H5) r. unfold rec_ok, is_dir. cbn [r NewInodeRecord Ino Mode Nlink].
  unfold InitialNlink. rewrite H4. split; [done|]. split; [|split; [by intros ->|done]].
  split; [done|]. split; [done|]. split; [|done]. case_if; unfold is_u32; lia.
Qed.

Lemma other_key_harmless k v l : ¬ ns_key k → harmless_op (OpPut k v l).
Proof. intros Hk k' Hk'. apply bool_decide_eq_false_2. by intros ->. Qed.

Lemma lock_key_harmless i m h (o : op) : (o = OpDelete (LockKey i m h) false ∨ ∃ v l, o = OpPut (LockKey i m h) v l) → harmless_op o.
Proof. intros Ho k [[t ->]%has_prefix_true|[t ->]%has_prefix_true]; destruct Ho as [->|(v & l & ->)]; by apply bool_decide_eq_false_2. Qed.

Lemma issues_harmless_Txn s ifs ts : Forall harmless_op ts → issues harmless (Txn s ifs ts []).
Proof. intros H. by apply issues_Txn. Qed.

Lemma side_ops_harmless s t o :
  match o with NReserve k _ _ => ¬ ns_key k
  | NAppendExtent _ _ _ _ _ | NAcquireLock _ _ _ _ | NReleaseLock _ _ _ | NReleaseLocks _ => True
  | _ => False end →
  issues harmless (node_run s t o).
Proof.
  destruct o; try done; intros Ho; (apply issues_bind; [|done]).
  - unfold ReserveCounter. case_if; [done|]. generalize casAttempts as f. generalize 0%nat as a. intros a f. revert a. induction f as [|f IH]; intros a; [done|].
    cbn [reserve_loop]. apply issues_ebind; [by apply issues_Get|]. intros v.
    apply issues_ebind; [apply issues_harmless_Txn; constructor; [by apply other_key_harmless|constructor]|].
    intros []; [done|]. split; [done|]. intros []; [done|apply IH].
  - unfold AppendExtent. apply issues_ebind; [apply issues_ebind; [by apply issues_GetPrefix|done]|]. intros ch.
    apply issues_ebind; [|done]. unfold Put, guardedWrite, putRaw.
    assert (∀ v, harmless_op (OpPut (ExtentKey ino ch) v 0)) as Hh.
    { intros v k [[t' ->]%has_prefix_true|[t' ->]%has_prefix_true]; by apply bool_decide_eq_false_2. }
    destruct (guard s) as [[g|]|]; [|done|].
    + apply issues_ebind; [|done]. split; [|done]. split; [|done]. by constructor.
    + split; [apply Hh|done].
  - unfold AcquireLock. case_if; [done|]. apply issues_bind; [by apply issues_lockSession|].
    intros [ls' [l|e]]; [|done]. apply issues_bind; [|by intros [[]|]]. apply issues_harmless_Txn.
    constructor; [|constructor]. eapply lock_key_harmless. right. unfold lock_op. eauto.
  - unfold ReleaseLock. apply issues_ebind; [|done]. unfold DeleteCounting, delete_with.
    assert (harmless_op (OpDelete (LockKey ino mode holder) false)) by (eapply lock_key_harmless; eauto).
    destruct (guard s) as [[g|]|]; [|done|by split].
    apply issues_ebind; [|done]. split; [|done]. split; [|done]. by constructor.
  - unfold ReleaseLocks. destruct batch as [|r batch]; [done|]. apply issues_ebind; [|intros a; by case_if].
    assert (Forall harmless_op (map (λ r, OpDelete (release_key r) false) (r :: batch))) as Hf.
    { apply Forall_forall. intros o (x & -> & _)%list_elem_of_fmap. eapply lock_key_harmless. left. reflexivity. }
    by apply issues_TxnResponse.
Qed.

(** ** Whole operations: one unit of credit each *)

Section operations.
Context (s : Store) (t : Touch) (b : nat) (Ht : touch_ok t).

Lemma wp_AtomicLink i p n (Q : Touch * result InodeRecord → _ → Prop) σ :
  is_u64 i → is_u64 p → credit (S b) σ → (∀ x σ', touch_ok x.1 → credit b σ' → Q x σ') → wpn (AtomicLink s t i p n) Q σ.
Proof.
  intros Hi Hp Hc HQ. unfold AtomicLink. wpb. apply (wp_ns_retry _ (S b) b (λ _, True)); [lia|done| |].
  { intros σ1 H1. eapply wp_mono; [|by apply (wp_link_attempt s i p n b)]. by intros [[]|]. }
  intros [rec|e] σ1 H1 _; [|intros σ2 H2; apply HQ; [done|by eapply credit_rel]].
  wpb. apply (wp_touchDir _ _ _ b); [done|done|done|]. intros t' σ2 Ht' H2 σ3 H3. apply HQ; [done|by eapply credit_rel].
Qed.

Lemma wp_AtomicUnlinkKeepingOpen p n h (Q : Touch * result Z → _ → Prop) σ :
  is_u64 p → credit b σ → (∀ x σ', touch_ok x.1 → credit b σ' → Q x σ') → wpn (AtomicUnlinkKeepingOpen s t p n h) Q σ.
Proof.
  intros Hp Hc HQ. unfold AtomicUnlinkKeepingOpen. wpb.
  apply (wp_ns_retry _ b b (λ x, touch_ok x.1)); [done|done| |].
  { intros σ1 H1. eapply wp_mono; [|by apply (wp_unlink_attempt s t p n h b)].
    intros [[x|]|e] σ2 [H2 Hx]; [|done|done]. split; [done|]. by apply Hx. }
  intros [[t' z]|e] σ1 H1 Hx σ2 H2; (apply HQ; [|by eapply credit_rel]); [by apply (Hx (t', z))|done].
Qed.

Lemma wp_AtomicRmdir p n (Q : result unit → _ → Prop) σ :
  is_u64 p → D p = true → credit b σ → (∀ r σ', credit b σ' → Q r σ') → wpn (AtomicRmdir s p n) Q σ.
Proof.
  intros Hp HD Hc HQ. apply (wp_ns_retry _ b b (λ _, True)); [done|done| |intros r σ1 H1 _; by apply HQ].
  intros σ1 H1. eapply wp_mono; [|by apply (wp_rmdir_attempt s p n b)]. by intros [[]|].
Qed.

(** The four creations differ in the record they make and in what they write
    beside it. *)
Lemma wp_create p n i m u g x mk (Q : Touch → _ → Prop) σ :
  new_ok p i m → Forall harmless_op (Ops x) →
  (∀ now, Ino (mk now) = Ino (NewInodeRecord now i m u g) ∧ Mode (mk now) = Mode (NewInodeRecord now i m u g) ∧
          Nlink (mk now) = Nlink (NewInodeRecord now i m u g)) →
  credit (S b) σ → (∀ t' σ', touch_ok t' → credit b σ' → wpn (Ret t') Q σ') →
  wpn (r ⇐ create_with s t p n x mk; Ret r.1) Q σ.
Proof.
  intros Hn Hx Hmk Hc HQ. wpb. apply (wp_create_with s t p n x mk b); [apply Hn|done|done| |done|].
  - intros now. destruct (new_record p i m now u g Hn) as (R1 & R2 & R3 & R4). destruct (Hmk now) as (E1 & E2 & E3).
    unfold rec_ok, is_dir in *. rewrite E1, E2, E3. done.
  - intros t' r σ1 Ht1 Hc1. by apply HQ.
Qed.
End operations.

Lemma wp_node_run s t o b (Q : Touch → _ → Prop) σ :
  op_ok o → touch_ok t → credit (S b) σ → (∀ t' σ', touch_ok t' → credit b σ' → Q t' σ') → wpn (node_run s t o) Q σ.
Proof.
  intros Ho Ht Hc HQ. assert (credit b σ) as Hc' by (eapply credit_le; [|done]; lia).
  assert (∀ t' σ1, touch_ok t' → credit b σ1 → wpn (Ret t') Q σ1) as Hret.
  { intros t' σ1 Ht1 H1 σ2 H2. apply HQ; [done|by eapply credit_rel]. }
  assert (∀ A (P : prog A), issues harmless (_ ⇐ P; Ret t) → wpn (_ ⇐ P; Ret t) Q σ) as Hside.
  { intros A P HP. wpb. apply (wp_harmless P b); [by eapply issues_bind_inv|auto|]. intros _ σ1 Hc1. by apply Hret. }
  pose proof (side_ops_harmless s t o) as Hh.
  destruct o; try done; cbn [node_run op_ok] in *; try (apply Hside, Hh; done).
  - destruct Ho. by eapply (wp_create _ _ b Ht _ _ _ _ uid gid).
  - by eapply (wp_create _ _ b Ht _ _ _ _ uid gid).
  - eapply (wp_create _ _ b Ht _ _ _ _ uid gid); [exact Ho| |done|done|done]. constructor; [|constructor].
    intros k [[t' ->]%has_prefix_true|[t' ->]%has_prefix_true]; by apply bool_decide_eq_false_2.
  - by eapply (wp_create _ _ b Ht _ _ _ _ uid gid).
  - destruct Ho as [Hi Hp]. wpb. apply (wp_AtomicLink _ _ b); [done..|]. intros [t' r] σ1 ? ?. by apply Hret.
  - wpb. apply (wp_AtomicUnlinkKeepingOpen _ _ b); [done..|]. intros [t' r] σ1 ? ?. by apply Hret.
  - destruct Ho as [Hp HD]. wpb. apply (wp_AtomicRmdir _ b); [done..|]. intros r σ1 ?. by apply Hret.
  - eapply wp_mono; [|by apply (wp_flush s shuffle t ino b)]. intros t' σ1 [? ?]. by apply HQ.
Qed.

Lemma wp_node_script s os t σ :
  Forall op_ok os → touch_ok t → credit (length os) σ → wpn (node_script s t os) (λ _ σ', ns_inv D σ') σ.
Proof.
  intros Ho. revert t σ. induction Ho as [|o os Ho _ IH]; intros t σ Ht Hc; cbn [node_script].
  { intros σ1 H1. apply H1, Hc. }
  wpb. apply (wp_node_run s t o (length os)); [done|done|done|]. intros t' σ1 Ht1 Hc1. by apply IH.
Qed.
End nodes.

(** C8. Link counts.  Nodes run arbitrary sequences of creates, links, unlinks
    (also of files held open), rmdirs, timestamp flushes, extent appends and
    lock operations, interleaved request by request, with lost replies and
    expiring leases: in every reachable state a file's link count is the number
    of its names, a directory has at most one name, and no name refers to an
    inode that is gone. *)
Theorem link_counts_exact `{E : Etcd} (D : Z → bool) (nodes : list (Store * Touch * list node_op)) srv c'
  (Hops : Forall (λ x, Forall (op_ok D) x.2 ∧ touch_ok x.1.2) nodes)
  (Hwf : mvcc_wf (eview srv)) (Hdir : dirents_ok (eview srv)) (Hinit : links_ok D (eview srv))
  (Hmax : ∀ i, is_u64 i →
     Z.of_nat (size (names (eview srv) i) + sum_list (map (λ x, length x.2) nodes)) < 2 ^ 32)
  (Hrun : rtc cstep (srv, map (λ x, node_script x.1.1 x.1.2 x.2) nodes) c') :
  links_ok D (eview c'.1).
Proof.
  assert (ns_inv D (eview srv, map (λ x, length x.2) nodes)) as Hinv by by split.
  destruct (cluster_rely_guarantee_inv (ns_rel D) (ns_guar D) (λ _ _ σ, ns_inv D σ)
    (λ i j σ σ', ns_guar_rel D i j σ σ') (ns_rel_expire D) (ns_inv D)
    (srv, map (λ x, node_script x.1.1 x.1.2 x.2) nodes) c' (map (λ x, length x.2) nodes))
    as (g & _ & Hend); try done.
  - intros i σ σ' HG. apply HG.
  - intros l m g H. by apply ns_expire.
  - intros i p Hp. simpl in Hp. rewrite list_lookup_fmap in Hp.
    destruct (nodes !! i) as [[[s t] os]|] eqn:Ei; [|done]. injection Hp as <-.
    destruct (Forall_lookup_1 _ _ _ _ Hops Ei) as [Hos Ht]. apply wp_node_script; [done|done|].
    split; [done|]. exists (length os). split; [done|]. cbn [fst snd]. by rewrite list_lookup_fmap, Ei.
  - apply Hend.
Qed.

(** Node "a" creates f, links it as g and unlinks f while "b" unlinks g. *)
Definition link_nodes : list (Store * Touch * list node_op) :=
  [(mkStore (lit "a") false None, Some ∅,
    [NCreateFile 1 (lit "f") 7 (ModeFile + 420) 0 0 no_extra; NLink 7 1 (lit "g"); NUnlink 1 (lit "f") None]);
   (mkStore (lit "b") false None, None, [NUnlink 1 (lit "g") None; NUnlink 1 (lit "g") None])].
Definition link_race : ref_srv * list (prog Touch) :=
  foldl (@cexec ref_etcd _)
    (RefSrv empty_store 0, map (λ x, node_script x.1.1 x.1.2 x.2) link_nodes)
    [Step 1; Step 0; Step 0; Step 0; Step 0; Step 0; Step 0; Step 0; Step 0; Step 1; Step 0; Step 1; Step 0; Step 1;
     Step 0; Step 1; Step 0; Step 1; Step 0; Step 0].

Lemma link_counts_exact_witness : links_ok (λ i, i =? 1) (@eview ref_etcd link_race.1).
Proof.
  assert (∀ k, val_at k empty_store = None) as Hn by (intros; apply val_at_None; apply lookup_empty).
  assert (∀ i, names empty_store i = ∅) as Hnm.
  { intros i. apply set_eq. intros k. rewrite elem_of_names, Hn. set_solver. }
  apply (@link_counts_exact ref_etcd (λ i, i =? 1) link_nodes (RefSrv empty_store 0) link_race).
  - unfold link_nodes. constructor; [split|constructor; [split|constructor]].
    + constructor; [|constructor; [|constructor; [|constructor]]]; cbn [op_ok].
      * split; [|constructor]. unfold new_ok, is_u64, is_u32. repeat split; try lia; try done; vm_compute; discriminate.
      * unfold is_u64; lia.
      * unfold is_u64; lia.
    + intros d i u [= <-] Hd. done.
    + constructor; [|constructor; [|constructor]]; cbn; unfold is_u64; lia.
    + intros d i u [=].
  - exact empty_store_wf.
  - intros k v l Hv. cbn in Hv. rewrite Hn in Hv. discriminate.
  - intros i _. exists None. split; [apply Hn|]. apply Hnm.
  - intros i _. change (@eview ref_etcd (RefSrv empty_store 0)) with empty_store. rewrite Hnm. vm_compute. reflexivity.
  - apply cexec_steps.
Defined.
