(* ===== verification/NamespaceProps.v ===== *)
(** * What the namespace operations do

    Functional behaviour of create, unlink and rmdir on a server that answers,
    with the timestamp queue on (so the operation's own transaction is the only
    write), and a concrete file tree for the witnesses. *)

From S2P Require Import Prelude Etcd EtcdFacts Schema Store StoreLogic StoreProps InodeTimes Dirents.

(** Compute the effect of a list of operations on a key. *)
Ltac effects := cbn [ops_effect app]; unfold op_effect, op_touches, PutDirent, DeleteDirent, PutInode, put.

Lemma dirent_ne_inode p n i : DirentKey p n ≠ InodeKey i.
Proof. done. Qed.

(** A pin on the revision just read holds. *)
Lemma eval_pinned m k e : mkvs m !! k = Some e → eval_cmp (mkvs m) (mod_is k (kv_mod e)) = true.
Proof. intros He. unfold eval_cmp. cbn [mod_is c_prefix c_key]. rewrite He. apply Z.eqb_refl. Qed.

Definition is_del (o : op) : bool := match o with OpDelete _ _ => true | _ => false end.
Definition is_put (o : op) : bool := match o with OpPut _ _ _ => true | _ => false end.

(** Deletions beside writes of other, distinct keys. *)
Lemma ops_distinct_dels ds ps :
  Forall (λ o, is_del o = true) ds → Forall (λ o, is_put o = true) ps → NoDup (concat (map op_puts ps)) →
  (∀ k d, k ∈ concat (map op_puts ps) → d ∈ ds → op_covers d k = false) → ops_distinct (ds ++ ps) = true.
Proof.
  intros Hd Hp Hnd Hcov.
  assert (concat (map op_puts (ds ++ ps)) = concat (map op_puts ps)) as Hc.
  { rewrite map_app, concat_app. assert (concat (map op_puts ds) = []) as ->; [|done].
    clear -Hd. induction Hd as [|[] ds ? _ IH]; done. }
  apply ops_distinct_intro; rewrite Hc; [done|]. intros k o Hk [Ho|Ho]%elem_of_app; [by apply Hcov|].
  rewrite Forall_forall in Hp. specialize (Hp o Ho). by destruct o.
Qed.

(** ** Creating a file *)

(** Creating a file on a server that answers: if the name is free and the
    inode number unused, exactly the name and the record appear; otherwise the
    caller is told [ErrExists] and nothing changes. *)
Theorem create_file_exact `{E : Etcd, !ReliableEtcd E} s d p n i mode uid gid srv
  (Hwf : mvcc_wf (eview srv)) (Hguard : guard_current s (eview srv))
  (Hfile : (ftype mode =? ModeDir) = false) :
  let '(srv', (_, (rec, r))) := run (AtomicCreateFile s (Some d) p n i mode uid gid no_extra) srv in
  let free := val_at (DirentKey p n) (eview srv) = None ∧ val_at (InodeKey i) (eview srv) = None in
  (free → r = Ok tt ∧ ∀ k, val_at k (eview srv') =
     if bool_decide (k = InodeKey i) then Some (EncodeInode rec, 0)
     else if bool_decide (k = DirentKey p n) then Some (EncodeUint64 i, 0) else val_at k (eview srv)) ∧
  (¬ free → r = Err ErrExists ∧ mkvs (eview srv') = mkvs (eview srv)).
Proof.
  set (m := eview srv) in *.
  set (free := val_at (DirentKey p n) m = None ∧ val_at (InodeKey i) m = None).
  pose proof (wp_run_reliable (AtomicCreateFile s (Some d) p n i mode uid gid no_extra) (λ x m',
    (free → x.2.2 = Ok tt ∧ ∀ k, val_at k m' =
       if bool_decide (k = InodeKey i) then Some (EncodeInode x.2.1, 0)
       else if bool_decide (k = DirentKey p n) then Some (EncodeUint64 i, 0) else val_at k m) ∧
    (¬ free → x.2.2 = Err ErrExists ∧ mkvs m' = mkvs m)) srv) as Hrun.
  destruct (run (AtomicCreateFile s (Some d) p n i mode uid gid no_extra) srv) as [srv' [t' [rec r]]].
  apply Hrun; clear Hrun. fold m. unfold AtomicCreateFile, create_with.
  apply wpx_bind, wpx_now. intros now. cbn [fst]. set (rc := NewInodeRecord now i mode uid gid).
  apply wpx_bind. unfold atomicCreate. apply wpx_bind, wpx_retry. unfold create_attempt.
  assert (is_dir rc = false) as Hd by done. rewrite Hd. cbn [negb].
  apply wpx_ebind, wpx_ret. cbn [fst no_adjust a_cmps a_ops no_extra Cmps Ops app].
  assert (forallb (eval_cmp (mkvs m)) [key_absent (DirentKey p n); key_absent (InodeKey (Ino rc))] = true ↔ free) as Hf.
  { cbn [forallb]. rewrite andb_true_r, andb_true_iff, !eval_key_absent by done. unfold free. by rewrite !val_at_None. }
  apply wpx_ebind, wpx_Txn; [done| | |].
  - apply txn_valid_small; [|simpl; lia|simpl; lia|by repeat constructor]. apply ops_distinct_intro.
    + cbn. apply NoDup_cons. split; [by intros ?%list_elem_of_singleton|apply NoDup_singleton].
    + intros k o _ Ho. apply elem_of_cons in Ho as [->|Ho]; [done|]. by apply list_elem_of_singleton in Ho as ->.
  - intros Hc%Hf. apply wpx_ret. cbn [fst]. apply wpx_bind. unfold touchDir. apply wpx_bind, wpx_now. intros t.
    apply wpx_ret, wpx_ret, wpx_ret. cbn [fst snd]. split; [|tauto]. intros _. split; [done|].
    intros k. rewrite val_at_ops. effects. cbn [Ino rc NewInodeRecord]. by repeat case_bool_decide.
  - intros Hc. apply wpx_bind, wpx_ebind, wpx_Get, wpx_ret. cbn [fst]. apply wpx_ret.
    assert (¬ free) as Hnf by (rewrite <- Hf; by rewrite Hc).
    assert (∀ v : Z, (if negb (v =? 0) then Err ErrExists else Err ErrExists : result (option unit)) = Err ErrExists) as ->.
    { intros v. by case_if. }
    apply wpx_ret, wpx_ret. cbn [fst snd]. split; [tauto|done].
Qed.

(** ** Unlinking *)

(** The record left by an unlink of a file that keeps other names. *)
Definition reduced_rec (now : Z) (rec : InodeRecord) : InodeRecord := set_Ctime now (set_Nlink (Nlink rec - 1) rec).

(** The keys that go with an inode when its last name does. *)
Definition inode_owned (rec : InodeRecord) (k : bytes) : bool :=
  bool_decide (k = InodeKey (Ino rec)) || has_prefix (XattrPrefix (Ino rec)) k ||
  (negb (is_dir rec) && (ftype (Mode rec) =? ModeSymlink) && bool_decide (k = InodeSymlinkKey (Ino rec))).

Lemma wpx_unlinkInodeOps rec (Q : list op → mvcc * unit → Prop) m :
  (is_dir rec = false → 1 < Nlink rec → ∀ now, Q [put (InodeKey (Ino rec)) (EncodeInode (reduced_rec now rec))] (m, tt)) →
  (is_dir rec = true ∨ Nlink rec <= 1 → ∀ os, Forall (λ o, op_puts o = []) os → (length os <= 3)%nat →
     (∀ k, ops_effect os k = if inode_owned rec k then Some None else None) → Q os (m, tt)) →
  wpx (unlinkInodeOps rec) Q m.
Proof.
  intros Hlow Hdrop. unfold unlinkInodeOps, inode_owned in *. destruct (is_dir rec) eqn:Ed.
  { apply wpx_ret, Hdrop; [by left|by repeat constructor|simpl; lia|].
    intros k. effects. by destruct (bool_decide (k = InodeKey (Ino rec))), (has_prefix (XattrPrefix (Ino rec)) k). }
  destruct (Z.ltb_spec 1 (Nlink rec)).
  { apply wpx_bind, wpx_now. intros now. apply wpx_ret. by apply Hlow. }
  destruct (ftype (Mode rec) =? ModeSymlink) eqn:Es; apply wpx_ret, Hdrop;
    try (right; lia); try (by repeat constructor); try (simpl; lia); intros k; effects; cbn [negb andb].
  all: destruct (bool_decide (k = InodeKey (Ino rec))), (has_prefix (XattrPrefix (Ino rec)) k); try done.
  all: by destruct (bool_decide (k = InodeSymlinkKey (Ino rec))).
Qed.

(** The store after the name [p]/[n] of the inode with record [rec] is gone. *)
Definition unlinked (p : Z) (n : bytes) (rec : InodeRecord) (m m' : mvcc) : Prop :=
  if is_dir rec || (Nlink rec <=? 1)
  then ∀ k, val_at k m' = if bool_decide (k = DirentKey p n) || inode_owned rec k then None else val_at k m
  else ∃ now, ∀ k, val_at k m' =
    if bool_decide (k = DirentKey p n) then None
    else if bool_decide (k = InodeKey (Ino rec)) then Some (EncodeInode (reduced_rec now rec), 0)
    else val_at k m.

(** Unlinking a name on a server that answers.  The name goes.  A file
    with other names keeps everything and its link count drops by one; the last
    name of a file, or the name of a directory, takes the record, every
    extended attribute and a symlink's target with it, and nothing else. *)
Theorem unlink_exact `{E : Etcd, !ReliableEtcd E} s d p n e e2 rec srv
  (Hguard : guard_current s (eview srv))
  (Hname : mkvs (eview srv) !! DirentKey p n = Some e)
  (Hinode : mkvs (eview srv) !! InodeKey (Ino rec) = Some e2)
  (Hval : DecodeUint64 (kv_val e) = Ino rec) (Hrec : DecodeInode (kv_val e2) = Some rec) :
  let '(srv', (_, r)) := run (AtomicUnlink s (Some d) p n) srv in
  r = Ok tt ∧ unlinked p n rec (eview srv) (eview srv').
Proof.
  set (m := eview srv) in *.
  pose proof (wp_run_reliable (AtomicUnlink s (Some d) p n) (λ x m', x.2 = Ok tt ∧ unlinked p n rec m m') srv) as Hrun.
  destruct (run (AtomicUnlink s (Some d) p n) srv) as [srv' [t' r]].
  apply Hrun; clear Hrun. fold m. unfold AtomicUnlink, AtomicUnlinkKeepingOpen.
  apply wpx_bind, wpx_bind, wpx_retry. unfold unlink_attempt.
  apply wpx_ebind, wpx_read. cbn [fst range_kvs]. rewrite Hname. cbn [first_kv]. rewrite Hval.
  apply wpx_ebind, wpx_GetInodeRev. rewrite Hinode. cbn [fst snd]. rewrite Hrec.
  assert (forallb (eval_cmp (mkvs m)) [mod_is (DirentKey p n) (kv_mod e); InodeUnchanged (Ino rec) (kv_mod e2)] = true) as Hc.
  { cbn [forallb]. unfold InodeUnchanged. by rewrite !eval_pinned. }
  apply wpx_bind. unfold unlink_tail. rewrite andb_false_r. apply wpx_bind. apply wpx_unlinkInodeOps.
  - intros Hd Hn now. apply wpx_ret. cbn [fst snd]. apply wpx_ebind, wpx_Txn; [done| | |by rewrite Hc].
    + apply txn_valid_small; [|simpl; lia|simpl; lia|by repeat constructor]. apply ops_distinct_intro; [apply NoDup_singleton|].
      intros k o ->%list_elem_of_singleton [->|Ho]%elem_of_cons; [by apply bool_decide_eq_false_2|].
      by apply list_elem_of_singleton in Ho as ->.
    + intros _. cbn [fst]. apply wpx_bind, wpx_bind, wpx_now. intros t. do 4 apply wpx_ret. cbn [fst snd]. split; [done|].
      unfold unlinked. rewrite Hd, (proj2 (Z.leb_gt (Nlink rec) 1)) by lia. cbn [orb]. exists now. intros k.
      rewrite val_at_ops. effects. destruct (bool_decide_reflect (k = InodeKey (Ino rec))) as [->|].
      * by rewrite bool_decide_eq_false_2.
      * by case_bool_decide.
  - intros Hr os Hnp Hlen He. apply wpx_ret. cbn [fst snd]. apply wpx_ebind, wpx_Txn; [done| | |by rewrite Hc].
    + assert (concat (map op_puts (DeleteDirent p n :: os)) = []) as Hnil.
      { cbn. clear -Hnp. induction Hnp as [|o os Ho _ IH]; [done|]. cbn. by rewrite Ho. }
      apply txn_valid_small; [|simpl; lia|simpl; lia|].
      * apply ops_distinct_intro; rewrite Hnil; [constructor|]. intros k o Hk. by inversion Hk.
      * constructor; [done|]. eapply Forall_impl; [exact Hnp|]. by intros [].
    + intros _. cbn [fst]. apply wpx_bind, wpx_bind, wpx_now. intros t. do 4 apply wpx_ret. cbn [fst snd]. split; [done|].
      unfold unlinked. assert (is_dir rec || (Nlink rec <=? 1) = true) as ->.
      { destruct Hr as [->|?]; [done|]. rewrite (proj2 (Z.leb_le (Nlink rec) 1)) by lia. apply orb_true_r. }
      intros k. rewrite val_at_ops. effects. rewrite He. destruct (inode_owned rec k); [by rewrite orb_true_r|].
      rewrite orb_false_r. by case_bool_decide.
Qed.

(** ** Removing a directory *)

(** The record [adjustDirNlink] writes back, if it writes one. *)
Definition adjusted_rec (now delta : Z) (rec : InodeRecord) : option InodeRecord :=
  let stamp n := set_Ctime now (set_Mtime now (set_Nlink n rec)) in
  if 0 <? delta then Some (stamp (wrap32 (Nlink rec + delta)))
  else if (delta <? 0) && (- delta <=? Nlink rec) then Some (stamp (Nlink rec + delta)) else None.

(** The revision and new record of a directory whose link count moves. *)
Definition adjustment (m : mvcc) (ino now delta : Z) : option (Z * InodeRecord) :=
  e ← mkvs m !! InodeKey ino;
  rec ← DecodeInode (kv_val e);
  rec' ← adjusted_rec now delta rec;
  Some (kv_mod e, rec').

Definition adjust_of (ino : Z) (a : option (Z * InodeRecord)) : nlinkAdjust :=
  match a with
  | Some (rev, rec) => mkAdjust [InodeUnchanged ino rev] [put (InodeKey ino) (EncodeInode rec)]
  | None => no_adjust
  end.

Lemma wpx_adjustDirNlink s ino delta (Q : result nlinkAdjust → mvcc * unit → Prop) m :
  (∀ now, Q (Ok (adjust_of ino (adjustment m ino now delta))) (m, tt)) → wpx (adjustDirNlink s ino delta) Q m.
Proof.
  intros HQ. unfold adjustDirNlink, adjustment in *. apply wpx_ebind, wpx_GetInodeRev.
  destruct (mkvs m !! InodeKey ino) as [e|]; cbn [mbind option_bind fst snd] in *; [|by apply wpx_ret, (HQ 0)].
  destruct (DecodeInode (kv_val e)) as [rec|]; cbn [mbind option_bind] in *; [|by apply wpx_ret, (HQ 0)].
  unfold adjusted_rec in HQ.
  destruct (0 <? delta); [|destruct ((delta <? 0) && _)]; cbn [mbind option_bind adjust_of] in *;
    try (apply wpx_bind, wpx_now; intros now); by apply wpx_ret, (HQ 0) || apply wpx_ret, (HQ now).
Qed.

Lemma adjustment_holds m ino now delta :
  forallb (eval_cmp (mkvs m)) (a_cmps (adjust_of ino (adjustment m ino now delta))) = true.
Proof.
  unfold adjustment. destruct (mkvs m !! InodeKey ino) as [e|] eqn:He; [|done]. cbn [mbind option_bind].
  destruct (DecodeInode (kv_val e)) as [rec|]; [|done]. cbn [mbind option_bind].
  destruct (adjusted_rec now delta rec); [|done]. cbn [mbind option_bind adjust_of a_cmps forallb]. unfold InodeUnchanged.
  by rewrite eval_pinned.
Qed.

Lemma adjust_of_lengths ino a : (length (a_cmps (adjust_of ino a)) <= 1)%nat ∧ (length (a_ops (adjust_of ino a)) <= 1)%nat.
Proof. destruct a as [[]|]; simpl; lia. Qed.

Lemma adjust_of_effect ino a k :
  ops_effect (a_ops (adjust_of ino a)) k =
  match a with
  | Some (_, rec) => if bool_decide (k = InodeKey ino) then Some (Some (EncodeInode rec, 0)) else None
  | None => None
  end.
Proof. by destruct a as [[]|]. Qed.

(** What a key holds once the directory [p]'s count has moved. *)
Definition adjusted_at (m : mvcc) (p now delta : Z) (k : bytes) (old : option (bytes * Z)) : option (bytes * Z) :=
  match adjustment m p now delta with
  | Some (_, rec) => if bool_decide (k = InodeKey p) then Some (EncodeInode rec, 0) else old
  | None => old
  end.

(** The store after the directory [ino] named [p]/[n] is removed. *)
Definition dir_removed (p : Z) (n : bytes) (ino : Z) (m m' : mvcc) : Prop :=
  ∃ now, ∀ k, val_at k m' =
    if bool_decide (k = DirentKey p n) || bool_decide (k = InodeKey ino) then None
    else adjusted_at m p now (-1) k (val_at k m).

Definition dir_empty (ino : Z) (m : mvcc) : Prop := ∀ k e, mkvs m !! k = Some e → has_prefix (DirentPrefix ino) k = false.

(** Removing a directory on a server that answers.  An empty directory
    loses its name and its record and its parent's link count drops by one, in
    one transaction that writes no other key; one with entries is refused with
    [ErrNotEmpty] and nothing changes. *)
Theorem rmdir_exact `{E : Etcd, !ReliableEtcd E} s p n e e2 rec srv
  (Hwf : mvcc_wf (eview srv)) (Hguard : guard_current s (eview srv))
  (Hname : mkvs (eview srv) !! DirentKey p n = Some e)
  (Hinode : mkvs (eview srv) !! InodeKey (Ino rec) = Some e2)
  (Hval : DecodeUint64 (kv_val e) = Ino rec) (Hrec : DecodeInode (kv_val e2) = Some rec)
  (Hdir : is_dir rec = true) (Hp : InodeKey p ≠ InodeKey (Ino rec)) :
  let '(srv', r) := run (AtomicRmdir s p n) srv in
  (dir_empty (Ino rec) (eview srv) → r = Ok tt ∧ dir_removed p n (Ino rec) (eview srv) (eview srv')) ∧
  (¬ dir_empty (Ino rec) (eview srv) → r = Err ErrNotEmpty ∧ mkvs (eview srv') = mkvs (eview srv)).
Proof.
  set (m := eview srv) in *.
  pose proof (wp_run_reliable (AtomicRmdir s p n) (λ r m',
    (dir_empty (Ino rec) m → r = Ok tt ∧ dir_removed p n (Ino rec) m m') ∧
    (¬ dir_empty (Ino rec) m → r = Err ErrNotEmpty ∧ mkvs m' = mkvs m)) srv) as Hrun.
  destruct (run (AtomicRmdir s p n) srv) as [srv' r]. apply Hrun; clear Hrun. fold m.
  unfold AtomicRmdir. apply wpx_retry. unfold rmdir_attempt.
  apply wpx_ebind, wpx_read. cbn [fst range_kvs]. rewrite Hname. cbn [first_kv]. rewrite Hval.
  apply wpx_ebind, wpx_GetInodeRev. rewrite Hinode. cbn [fst snd]. rewrite Hrec, Hdir. cbn [negb].
  apply wpx_ebind, wpx_adjustDirNlink. intros now. set (a := adjustment m p now (-1)).
  assert (forallb (eval_cmp (mkvs m)) ([mod_is (DirentKey p n) (kv_mod e); InodeUnchanged (Ino rec) (kv_mod e2);
            DirEmpty (Ino rec)] ++ a_cmps (adjust_of p a)) = true ↔ dir_empty (Ino rec) m) as Hc.
  { rewrite forallb_app. unfold a. rewrite adjustment_holds, andb_true_r. cbn [forallb]. unfold InodeUnchanged.
    rewrite !eval_pinned, andb_true_r by done. cbn [andb]. by apply eval_prefix_absent. }
  destruct (adjust_of_lengths p a). apply wpx_ebind, wpx_Txn; [done| | |].
  - apply txn_valid_small; [|rewrite length_app; simpl; lia|rewrite length_app; simpl; lia|].
    + apply ops_distinct_dels.
      * by repeat constructor.
      * destruct a as [[]|]; by repeat constructor.
      * destruct a as [[]|]; [apply NoDup_singleton|constructor].
      * destruct a as [[]|]; [|intros k d Hk; by inversion Hk]. intros k d ->%list_elem_of_singleton Hd.
        repeat (apply elem_of_cons in Hd as [->|Hd]); try by inversion Hd. all: by apply bool_decide_eq_false_2.
    + destruct a as [[rev rec']|]; by repeat constructor.
  - intros He%Hc. apply wpx_ret. cbn [fst]. split; [|tauto]. intros _. split; [done|]. exists now. intros k. unfold adjusted_at. fold a.
    rewrite val_at_ops, ops_effect_app, adjust_of_effect. effects.
    destruct a as [[rev rec']|]; [destruct (bool_decide_reflect (k = InodeKey p)) as [->|]|].
    + by rewrite !bool_decide_eq_false_2.
    + by repeat case_bool_decide.
    + by repeat case_bool_decide.
  - intros Hne. assert (¬ dir_empty (Ino rec) m) as Hn by (intros Hy%Hc; discriminate (eq_trans (eq_sym Hne) Hy)).
    apply wpx_bind, wpx_ebind, wpx_GetPrefix, wpx_ret. cbn [fst]. apply wpx_ret.
    destruct (range_kvs (RPrefix (DirentPrefix (Ino rec))) m) as [|x l] eqn:El; cbn [map]; [|by split].
    exfalso. apply Hn. exact (proj1 (range_all_nil (RPrefix _) _) El).
Qed.

(** ** The operations on a concrete store *)

(** [mvcc_wf] of a concrete store, by computation. *)
Definition wf_check (m : mvcc) : bool :=
  (0 <? mrev m) && forallb (λ x, (0 <? kv_create x.2) && (kv_create x.2 <=? kv_mod x.2) && (kv_mod x.2 <=? mrev m))
                     (map_to_list (mkvs m)).

Lemma wf_check_ok m : wf_check m = true → mvcc_wf m.
Proof.
  unfold wf_check. rewrite andb_true_iff, forallb_forall. intros [Hr Hall]. split; [apply Z.ltb_lt in Hr; lia|].
  intros k e He%elem_of_map_to_list%list_elem_of_In. specialize (Hall _ He). cbn in Hall.
  rewrite !andb_true_iff, Z.ltb_lt, !Z.leb_le in Hall. lia.
Qed.

(** A daemon at generation 0 makes the root directory and, in it, a file and a
    directory. *)
Definition run_ref {A} (p : prog A) (srv : ref_srv) : ref_srv := (@run ref_etcd A p srv).1.
Definition root_rec : InodeRecord := set_Nlink 2 (NewInodeRecord 100 1 16877 0 0).
Definition ns_root : ref_srv :=
  RefSrv (mvcc_ops (rs_store (demo_srv 0)) [put (InodeKey 1) (EncodeInode root_rec)]).1 100.
Definition ns_file : ref_srv :=
  run_ref (AtomicCreateFile demo_store (Some ∅) 1 (lit "a") 10 33188 0 0 no_extra) ns_root.
Definition ns_dir : ref_srv := run_ref (AtomicCreateDir demo_store (Some ∅) 1 (lit "d") 11 493 0 0) ns_file.

(** Read what a concrete store holds for the kinds of key an operation uses. *)
Definition kv_of (srv : ref_srv) (k : bytes) : kv := default (KV [] 0 0 0) (mkvs (rs_store srv) !! k).
Definition rec_of (srv : ref_srv) (i : Z) : InodeRecord := default root_rec (DecodeInode (kv_val (kv_of srv (InodeKey i)))).

Ltac concrete := repeat match goal with
  | |- mvcc_wf _ => apply wf_check_ok; vm_compute; reflexivity
  | |- guard_current _ _ => split; [unfold is_u64; lia|eexists; split; vm_compute; reflexivity]
  | |- _ = _ => vm_compute; reflexivity
  | |- _ ≠ _ => vm_compute; discriminate
  end.

Lemma create_file_exact_witness :
  (@run ref_etcd _ (AtomicCreateFile demo_store (Some ∅) 1 (lit "a") 10 33188 0 0 no_extra) ns_root).2.2.2 = Ok tt.
Proof.
  pose proof (@create_file_exact ref_etcd _ demo_store ∅ 1 (lit "a") 10 33188 0 0 ns_root) as H.
  destruct (@run ref_etcd _ _ _) as [srv' [t' [rec r]]]. apply H; concrete. split; concrete.
Defined.

Lemma unlink_exact_witness :
  unlinked 1 (lit "a") (rec_of ns_dir 10) (rs_store ns_dir) (rs_store (run_ref (AtomicUnlink demo_store (Some ∅) 1 (lit "a")) ns_dir)).
Proof.
  pose proof (@unlink_exact ref_etcd _ demo_store ∅ 1 (lit "a") (kv_of ns_dir (DirentKey 1 (lit "a")))
                (kv_of ns_dir (InodeKey 10)) (rec_of ns_dir 10) ns_dir) as H.
  unfold run_ref. destruct (@run ref_etcd _ _ _) as [srv' [t' r]]. apply H; concrete.
Defined.

Lemma rmdir_exact_witness : (@run ref_etcd _ (AtomicRmdir demo_store 1 (lit "d")) ns_dir).2 = Ok tt.
Proof.
  pose proof (@rmdir_exact ref_etcd _ demo_store 1 (lit "d") (kv_of ns_dir (DirentKey 1 (lit "d")))
                (kv_of ns_dir (InodeKey 11)) (rec_of ns_dir 11) ns_dir) as H.
  destruct (@run ref_etcd _ _ _) as [srv' r]. apply H; concrete.
  refine (proj1 (range_all_nil (RPrefix _) (mkvs (rs_store ns_dir))) _). vm_compute. reflexivity.
Defined.
