(* ===== verification/RenameProps.v ===== *)
(** * What renaming does

    The walk that keeps a directory from being moved under itself decides
    reachability; a rename that would make a cycle is refused; a rename onto a
    free name moves the name and the parents' link counts and nothing else; and
    the source name's missing pin loses a file that takes it in between. *)

From S2P Require Import Prelude Etcd EtcdFacts Schema Store StoreLogic StoreProps InodeTimes Dirents NamespaceProps.

(** ** The walk up the tree *)

(** [up parent i j]: the index names [j] as the parent of [i]. *)
Definition up (parent : gmap Z Z) (i j : Z) : Prop := parent !! i = Some j.

Lemma up_tc_inv parent i j : tc (up parent) i j → ∃ k, up parent i k ∧ (k = j ∨ tc (up parent) k j).
Proof. destruct 1; eauto. Qed.

Lemma walk_up_true parent f i a : walk_up parent f i a = Some true → tc (up parent) i a.
Proof.
  revert i. induction f as [|f IH]; simpl; intros i; [done|].
  destruct (parent !! i) as [next|] eqn:E; [|done]. destruct (Z.eqb_spec next a) as [->|].
  - intros _. by apply tc_once.
  - intros H%IH. by eapply tc_l.
Qed.

Lemma walk_up_false parent f i a : walk_up parent f i a = Some false → ¬ tc (up parent) i a.
Proof.
  revert i. induction f as [|f IH]; simpl; intros i; [done|]. intros H Ht.
  apply up_tc_inv in Ht as (k & Hk & Ht). unfold up in Hk. rewrite Hk in H.
  destruct (Z.eqb_spec k a); [done|]. destruct Ht as [|Ht]; [done|]. by apply (IH k).
Qed.

Section orbit.
Context (parent : gmap Z Z) (i : Z).

(** The [n]th ancestor. *)
Definition anc (n : nat) : option Z := Nat.iter n (λ o, o ≫= λ x, parent !! x) (Some i).

Lemma anc_shift d u v : anc u = anc v → anc (d + u) = anc (d + v).
Proof. intros E. induction d as [|d IH]; [done|]. simpl. by rewrite IH. Qed.

Lemma tc_anc a : tc (up parent) i a → ∃ n, (0 < n)%nat ∧ anc n = Some a.
Proof.
  intros H. pattern a. refine (tc_ind_r (R := up parent) _ i _ _ a H).
  - intros y Hy. exists 1%nat. split; [lia|done].
  - intros y z _ Hz (n & _ & Hn). exists (S n). split; [lia|]. simpl. by rewrite Hn.
Qed.

Lemma anc_tc u d x y : anc u = Some x → anc (S d + u) = Some y → tc (up parent) x y.
Proof.
  intros Hu. revert y. induction d as [|d IH]; intros y Hy; simpl in *.
  - rewrite Hu in Hy. by apply tc_once.
  - destruct (anc (d + u) ≫= _) as [z|] eqn:Ez; [|done]. simpl in Hy. by eapply tc_r; [apply IH|].
Qed.

(** A walk that runs out of fuel has passed only ancestors other than [a]. *)
Lemma walk_up_none f a u x :
  anc u = Some x → walk_up parent f x a = None →
  ∀ n, (u < n <= f + u)%nat → ∃ y, anc n = Some y ∧ y ≠ a.
Proof.
  revert u x. induction f as [|f IH]; intros u x Hu Hw n Hn; [lia|]. simpl in Hw.
  destruct (parent !! x) as [next|] eqn:En; [|done]. destruct (Z.eqb_spec next a) as [|Hne]; [done|].
  assert (anc (S u) = Some next) as Hs by (simpl; by rewrite Hu).
  destruct (decide (n = S u)) as [->|]; [by exists next|]. apply (IH (S u) next); [done|done|lia].
Qed.

Section out_of_fuel.
Context (a : Z) (Hnone : walk_up parent (S (size parent)) i a = None).

Lemma anc_defined n : (n <= S (size parent))%nat → is_Some (anc n).
Proof.
  intros Hn. destruct n as [|n]; [by exists i|].
  destruct (walk_up_none _ a 0 i eq_refl Hnone (S n)) as (y & Hy & _); [lia|]. by exists y.
Qed.

(** Two of the first ancestors coincide. *)
Lemma anc_repeats : ¬ ∀ u v, (u < v <= size parent)%nat → anc u ≠ anc v.
Proof.
  intros Hinj. set (l := (λ n, default 0 (anc n)) <$> seq 0 (S (size parent))).
  assert (NoDup l) as Hnd.
  { apply NoDup_fmap_2_strong; [|apply NoDup_seq]. intros u v Hu Hv E. apply elem_of_seq in Hu, Hv.
  destruct (anc_defined u) as [x Hx]; [lia|]. destruct (anc_defined v) as [y Hy]; [lia|].
  rewrite Hx, Hy in E. simpl in E. subst y.
  destruct (lt_eq_lt_dec u v) as [[?|?]|?]; [|done|].
  - destruct (Hinj u v); [lia|congruence].
  - destruct (Hinj v u); [lia|congruence]. }
  assert (length l <= length (elements (dom parent)))%nat as Hle.
  { apply submseteq_length, NoDup_submseteq; [done|]. intros y (u & -> & Hu)%list_elem_of_fmap.
  apply elem_of_seq in Hu. apply elem_of_elements, elem_of_dom. destruct (anc_defined u) as [x Hx]; [lia|].
  destruct (anc_defined (S u)) as [z Hz]; [lia|]. exists z. simpl in Hz. by rewrite Hx in Hz |- *. }
  unfold l in Hle. rewrite length_fmap, length_seq in Hle. change (length (elements (dom parent))) with (size (dom parent)) in Hle.
  rewrite size_dom in Hle. lia.
Qed.

Lemma anc_periodic u v n :
  (u < v)%nat → anc u = anc v → (0 < n)%nat → ∃ n', (0 < n' <= v)%nat ∧ anc n' = anc n.
Proof.
  intros Huv E. induction (lt_wf n) as [n _ IH]. intros Hn. destruct (decide (n <= v)%nat); [by exists n|].
  destruct (IH (n - (v - u))%nat) as (n' & ? & Hn'); [lia|lia|]. exists n'. split; [done|]. rewrite Hn'.
  pose proof (anc_shift (n - v) u v E) as Hs. by replace (n - v + u)%nat with (n - (v - u))%nat in Hs by lia;
  replace (n - v + v)%nat with n in Hs by lia.
Qed.

Lemma out_of_fuel_unreachable : ¬ tc (up parent) i a.
Proof.
  intros (n & Hn & Ha)%tc_anc. apply anc_repeats. intros u v Huv E.
  destruct (anc_periodic u v n) as (n' & Hn' & Ea); [lia|done|done|].
  destruct (walk_up_none _ a 0 i eq_refl Hnone n') as (y & Hy & Hne); [lia|]. congruence.
Qed.

Lemma out_of_fuel_cyclic : ¬ ∀ j, ¬ tc (up parent) j j.
Proof.
  intros Hac. apply anc_repeats. intros u v Huv E. destruct (anc_defined u) as [x Hx]; [lia|].
  apply (Hac x), (anc_tc u (v - u - 1) x x Hx). replace (S (v - u - 1) + u)%nat with v by lia. congruence.
Qed.
End out_of_fuel.
End orbit.

Lemma walk_up_iff parent ino a : walk_up parent (S (size parent)) ino a = Some true ↔ tc (up parent) ino a.
Proof.
  split; [apply walk_up_true|]. intros Ht. destruct (walk_up _ _ _ _) as [[]|] eqn:E; [done| |].
  - by apply walk_up_false in E.
  - by apply out_of_fuel_unreachable in E.
Qed.

(** C36. The walk a directory rename makes before it commits, with the fuel the
    code gives it (one more step than the index has entries): it answers yes
    exactly when [ancestor] is reachable upwards, and gives up only on an index
    that holds a cycle. *)
Theorem walk_up_decides parent ino ancestor :
  let r := walk_up parent (S (size parent)) ino ancestor in
  (r = Some true ↔ tc (up parent) ino ancestor) ∧ ((∀ j, ¬ tc (up parent) j j) → r ≠ None).
Proof.
  split; [apply walk_up_iff|]. intros Hac Hn. by apply (out_of_fuel_cyclic parent ino ancestor Hn).
Qed.

(** ** Refusing to make a cycle *)

(** The parent index of the names in the store. *)
Definition parents (m : mvcc) : gmap Z Z := parent_index (range_kvs (RPrefix PrefixDirent) m).

Definition acyclic (m : mvcc) : Prop := ∀ j, ¬ tc (up (parents m)) j j.

(** [i] is [a] or lies below it. *)
Definition below (m : mvcc) (i a : Z) : Prop := i = a ∨ tc (up (parents m)) i a.

Lemma wpx_isDescendant_below s i a (Q : result bool → mvcc * unit → Prop) m :
  below m i a → Q (Ok true) (m, tt) → wpx (isDescendant s i a) Q m.
Proof.
  intros Hb HQ. unfold isDescendant. destruct (Z.eqb_spec i a) as [->|Hne]; [by apply wpx_ret|].
  destruct Hb as [|Hb]; [done|]. apply wpx_ebind, wpx_GetPrefix, wpx_ret. cbn [fst]. fold (parents m).
  by rewrite (proj2 (walk_up_iff (parents m) i a) Hb).
Qed.

Lemma wpx_isDescendant_apart s i a (Q : result bool → mvcc * unit → Prop) m :
  acyclic m → ¬ below m i a → Q (Ok false) (m, tt) → wpx (isDescendant s i a) Q m.
Proof.
  intros Hac Hb HQ. unfold isDescendant. destruct (Z.eqb_spec i a) as [->|Hne]; [destruct Hb; by left|].
  apply wpx_ebind, wpx_GetPrefix, wpx_ret. cbn [fst]. fold (parents m).
  destruct (walk_up (parents m) _ i a) as [[]|] eqn:Ew; [|done|].
  - destruct Hb. right. by apply walk_up_iff.
  - by destruct (out_of_fuel_cyclic _ _ _ Ew).
Qed.

(** The record stored for an inode, as [GetInode] reads it. *)
Definition inode_rec (m : mvcc) (i : Z) : option InodeRecord := stored (InodeKey i) m ≫= DecodeInode.

Lemma wpx_GetInode s i (Q : _ → mvcc * unit → Prop) m : Q (Ok (inode_rec m i)) (m, tt) → wpx (GetInode s i) Q m.
Proof. intros HQ. apply wpx_ebind, wpx_Get, wpx_ret. cbn [fst]. unfold inode_rec in HQ. by destruct (stored _ m). Qed.

(** A directory is never moved to a place below itself: the rename is
    refused with [ErrInvalid] and the store is left as it was. *)
Theorem rename_below_itself_refused `{E : Etcd, !ReliableEtcd E} s t op on np nn i rec flags srv
  (Hrec : inode_rec (eview srv) i = Some rec) (Hdir : is_dir rec = true) (Hbelow : below (eview srv) np i) :
  let '(srv', x) := run (AtomicRename s t op on np nn i flags) srv in
  x = (t, Err ErrInvalid) ∧ eview srv' = eview srv.
Proof.
  pose proof (wp_run_reliable (AtomicRename s t op on np nn i flags) (λ x m', x = (t, Err ErrInvalid) ∧ m' = eview srv) srv) as Hrun.
  destruct (run (AtomicRename s t op on np nn i flags) srv) as [srv' x]. apply Hrun; clear Hrun.
  unfold AtomicRename, rename_commit. apply wpx_bind. destruct (negb (Z.land flags RenameExchange =? 0)).
  { apply wpx_ret. by apply wpx_ret. }
  apply wpx_ebind, wpx_GetInode. rewrite Hrec, Hdir.
  apply wpx_ebind, wpx_ebind, wpx_isDescendant_below; [done|]. apply wpx_ret. rewrite orb_true_r. by apply wpx_ret.
Qed.

(** ** Renaming onto a free name *)

Definition src_is_dir (m : mvcc) (i : Z) : bool := match inode_rec m i with Some r => is_dir r | None => false end.

(** The store after [op]/[on] has become [np]/[nn]: a directory that changes
    parents moves one link count from the old to the new. *)
Definition renamed (op : Z) (on : bytes) (np : Z) (nn : bytes) (i : Z) (m m' : mvcc) : Prop :=
  ∃ t1 t2, ∀ k, val_at k m' =
    if bool_decide (k = DirentKey op on) then None
    else if bool_decide (k = DirentKey np nn) then Some (EncodeUint64 i, 0)
    else if src_is_dir m i && negb (op =? np)
         then adjusted_at m op t1 (-1) k (adjusted_at m np t2 1 k (val_at k m))
         else val_at k m.

(** The records an adjustment writes. *)
Definition written (p : Z) (a : option (Z * InodeRecord)) : list (Z * InodeRecord) :=
  match a with Some (_, rec) => [(p, rec)] | None => [] end.
Definition inode_puts (rs : list (Z * InodeRecord)) : list op := map (λ x, put (InodeKey x.1) (EncodeInode x.2)) rs.

Lemma adjust_of_written p a : a_ops (adjust_of p a) = inode_puts (written p a).
Proof. by destruct a as [[]|]. Qed.

Lemma inode_puts_keys rs : concat (map op_puts (inode_puts rs)) = map (λ x, InodeKey x.1) rs.
Proof. induction rs as [|x rs IH]; [done|]. cbn. f_equal. exact IH. Qed.

Lemma dirent_not_in_inodes p n (rs : list (Z * InodeRecord)) : DirentKey p n ∉ map (λ x, InodeKey x.1) rs.
Proof. by intros (x & E & _)%list_elem_of_fmap. Qed.

Section commit.
Context (s : Store) (m : mvcc) (Hwf : mvcc_wf m) (Hguard : guard_current s m).
Context (op : Z) (on : bytes) (np : Z) (nn : bytes) (i : Z).
Context (Hold : is_Some (mkvs m !! DirentKey op on)) (Hnew : mkvs m !! DirentKey np nn = None).

Lemma names_differ : DirentKey op on ≠ DirentKey np nn.
Proof. intros E. rewrite E, Hnew in Hold. by destruct Hold. Qed.

(** The transaction of a rename, with any adjustments folded in. *)
Lemma wpx_commitRename acmps rs (Q : result unit → mvcc * unit → Prop) :
  forallb (eval_cmp (mkvs m)) acmps = true → (length acmps <= 2)%nat → (length rs <= 2)%nat →
  NoDup (map (λ x, InodeKey x.1) rs) →
  Q (Ok tt) ((mvcc_ops m ([DeleteDirent op on; PutDirent np nn i] ++ inode_puts rs)).1, tt) →
  wpx (commitRename s (([key_present (DirentKey op on)] ++ [key_absent (DirentKey np nn)]) ++ acmps)
         ([DeleteDirent op on; PutDirent np nn i] ++ inode_puts rs)) Q m.
Proof.
  intros Hc Hl1 Hl2 Hnd HQ. unfold commitRename. apply wpx_ebind, wpx_Txn; [done| | |].
  - apply txn_valid_small.
    + apply (ops_distinct_dels [_] (PutDirent np nn i :: inode_puts rs)); [by repeat constructor| | |].
      * constructor; [done|]. apply Forall_map, Forall_true. done.
      * cbn [map concat op_puts PutDirent put app]. rewrite inode_puts_keys. apply NoDup_cons.
        split; [apply dirent_not_in_inodes|done].
      * cbn [map concat op_puts PutDirent put app]. rewrite inode_puts_keys.
        intros k d Hk ->%list_elem_of_singleton. apply bool_decide_eq_false_2.
        apply elem_of_cons in Hk as [->|Hk]; [intros E; by apply names_differ|]. intros ->. by apply dirent_not_in_inodes in Hk.
    + rewrite !length_app. simpl. lia.
    + rewrite length_app. unfold inode_puts. rewrite length_map. simpl. lia.
    + repeat (constructor; [done|]). apply Forall_map, Forall_true. done.
  - intros _. by apply wpx_ret.
  - rewrite !forallb_app, Hc. cbn [forallb fst].
    rewrite (proj2 (eval_key_present m Hwf _) Hold), (proj2 (eval_key_absent m Hwf _) Hnew). done.
Qed.

Lemma wpx_finish_rename srcdir (Q : result unit → mvcc * unit → Prop) :
  0 <= op → 0 <= np →
  (∀ rs, (∃ t1 t2, rs = if srcdir && negb (op =? np)
            then written op (adjustment m op t1 (-1)) ++ written np (adjustment m np t2 1) else []) →
     Q (Ok tt) ((mvcc_ops m ([DeleteDirent op on; PutDirent np nn i] ++ inode_puts rs)).1, tt)) →
  wpx (finish_rename s op np srcdir false ([key_present (DirentKey op on)] ++ [key_absent (DirentKey np nn)])
         [DeleteDirent op on; PutDirent np nn i]) Q m.
Proof.
  intros H0 H1 HQ. unfold finish_rename, applyRenameNlink, rename_deltas. apply wpx_ebind.
  remember ([key_present (DirentKey op on)] ++ [key_absent (DirentKey np nn)]) as cs eqn:Hcs.
  remember [DeleteDirent op on; PutDirent np nn i] as os eqn:Hos.
  destruct (srcdir && negb (op =? np)) eqn:Em; cbn [app adjust_all]; cbn [Z.eqb Z.sub Z.add Z.opp].
  - apply wpx_ebind, wpx_adjustDirNlink. intros t1. apply wpx_ebind, wpx_adjustDirNlink. intros t2. cbn [fst].
    apply wpx_ret. cbn [fst snd]. rewrite <- !app_assoc, !adjust_of_written. unfold inode_puts. rewrite <- map_app.
    fold (inode_puts (written op (adjustment m op t1 (-1)) ++ written np (adjustment m np t2 1))).
    subst cs os. change (1 - 0) with 1.
    pose proof (adjust_of_lengths op (adjustment m op t1 (-1))). pose proof (adjust_of_lengths np (adjustment m np t2 1)).
    apply wpx_commitRename.
    + by rewrite forallb_app, !adjustment_holds.
    + rewrite length_app. lia.
    + rewrite length_app. destruct (adjustment m op t1 (-1)) as [[]|], (adjustment m np t2 1) as [[]|]; simpl; lia.
    + apply andb_true_iff in Em as [_ Hne%negb_true_iff%Z.eqb_neq].
      destruct (adjustment m op t1 (-1)) as [[]|], (adjustment m np t2 1) as [[]|]; cbn [written map app fst];
        try apply NoDup_singleton; try constructor; [|apply NoDup_singleton].
      intros E%list_elem_of_singleton. apply InodeKey_inj in E; lia.
    + apply HQ. by exists t1, t2.
  - apply wpx_ret. cbn [fst snd]. rewrite <- (app_nil_r os), <- (app_nil_r cs). subst cs os.
    apply (wpx_commitRename [] []); [done|simpl; lia|simpl; lia|constructor|]. apply HQ. by exists 0, 0.
Qed.
End commit.

(** Queueing a timestamp writes nothing. *)
Lemma wpx_touchDir s ds p (Q : _ → mvcc * unit → Prop) m :
  (∀ ds', Q (Some ds') (m, tt)) → wpx (touchDir s (Some ds) p) Q m.
Proof. intros HQ. apply wpx_bind, wpx_now. intros t. apply wpx_ret, HQ. Qed.

(** The check passes for a directory that is not moved below itself. *)
Lemma wpx_cycle_check s (srcdir : bool) np i (Q : result unit → mvcc * unit → Prop) m :
  (srcdir = true → acyclic m ∧ ¬ below m np i) → Q (Ok tt) (m, tt) →
  wpx (if srcdir then under ⇐? isDescendant s np i; Ret (if (np =? i) || under then Err ErrInvalid else Ok tt)
       else Ret (Ok tt)) Q m.
Proof.
  intros Hc HQ. destruct srcdir; [|by apply wpx_ret]. destruct (Hc eq_refl) as [Hac Hb].
  apply wpx_ebind, wpx_isDescendant_apart; [done|done|]. apply wpx_ret. rewrite orb_false_r.
  destruct (Z.eqb_spec np i) as [->|]; [destruct Hb; by left|done].
Qed.

Lemma inode_puts_dirent rs p n : ops_effect (inode_puts rs) (DirentKey p n) = None.
Proof. apply ops_effect_untouched, Forall_map, Forall_true. intros x. by apply bool_decide_eq_false_2. Qed.

Lemma adjusted_effect m op np t1 t2 k :
  InodeKey op ≠ InodeKey np →
  match ops_effect (inode_puts (written op (adjustment m op t1 (-1)) ++ written np (adjustment m np t2 1))) k with
  | Some x => x
  | None => val_at k m
  end = adjusted_at m op t1 (-1) k (adjusted_at m np t2 1 k (val_at k m)).
Proof.
  intros Hne. unfold adjusted_at. destruct (adjustment m op t1 (-1)) as [[]|], (adjustment m np t2 1) as [[]|];
    cbn [written inode_puts map app ops_effect fst snd]; unfold op_effect, op_touches, put; try done;
    repeat case_bool_decide; try done. congruence.
Qed.

(** Renaming onto a free name on a server that answers: the old name goes,
    the new name leads to the same inode, a directory that changes parents
    takes one link from the old parent to the new, and no other key moves. *)
Theorem rename_to_free_exact `{E : Etcd, !ReliableEtcd E} s d op on np nn i flags srv
  (Hwf : mvcc_wf (eview srv)) (Hguard : guard_current s (eview srv)) (Hop : 0 <= op) (Hnp : 0 <= np)
  (Hflags : Z.land flags RenameExchange = 0)
  (Hold : is_Some (mkvs (eview srv) !! DirentKey op on)) (Hnew : mkvs (eview srv) !! DirentKey np nn = None)
  (Hcycle : src_is_dir (eview srv) i = true → acyclic (eview srv) ∧ ¬ below (eview srv) np i) :
  let '(srv', (_, r)) := run (AtomicRename s (Some d) op on np nn i flags) srv in
  r = Ok tt ∧ renamed op on np nn i (eview srv) (eview srv').
Proof.
  set (m := eview srv) in *.
  pose proof (wp_run_reliable (AtomicRename s (Some d) op on np nn i flags)
                (λ x m', x.2 = Ok tt ∧ renamed op on np nn i m m') srv) as Hrun.
  destruct (run (AtomicRename s (Some d) op on np nn i flags) srv) as [srv' [t' r]].
  apply Hrun; clear Hrun. fold m. unfold AtomicRename, rename_commit. rewrite Hflags. cbn [Z.eqb negb].
  apply wpx_bind, wpx_ebind, wpx_GetInode. fold (src_is_dir m i). apply wpx_ebind, wpx_cycle_check; [done|].
  apply wpx_ebind, wpx_read. cbn [fst range_kvs]. rewrite Hnew. cbn [first_kv].
  apply wpx_finish_rename; try done. intros rs (t1 & t2 & Hrs). unfold touchRenameDirs.
  apply wpx_bind, wpx_bind, wpx_touchDir. intros d'. cbn [fst].
  assert (∀ Q : _ → mvcc * unit → Prop, ∀ m', (∀ ds', Q (Some ds') (m', tt)) →
    wpx (if negb (np =? op) then touchDir s (Some d') np else Ret (Some d')) Q m') as Htd2.
  { intros Q m' HQ. case_if; [by apply wpx_touchDir|by apply wpx_ret]. }
  apply Htd2. intros d2. apply wpx_ret. cbn [fst snd]. split; [done|]. exists t1, t2. intros k.
  pose proof (names_differ m op on np nn Hold Hnew) as Hne. rewrite val_at_ops, ops_effect_app.
  destruct (bool_decide_reflect (k = DirentKey op on)) as [->|H1].
  { rewrite inode_puts_dirent. effects. by rewrite (bool_decide_eq_false_2 _ Hne), bool_decide_eq_true_2. }
  destruct (bool_decide_reflect (k = DirentKey np nn)) as [->|H2].
  { rewrite inode_puts_dirent. effects. by rewrite bool_decide_eq_true_2. }
  assert (ops_effect [DeleteDirent op on; PutDirent np nn i] k = None) as ->.
  { effects. by rewrite !bool_decide_eq_false_2. }
  subst rs. destruct (src_is_dir m i && negb (op =? np)) eqn:Em; [|done].
  rewrite <- adjusted_effect; [by destruct (ops_effect _ k)|].
  apply andb_true_iff in Em as [_ Hn%negb_true_iff%Z.eqb_neq]. by intros Heq%InodeKey_inj.
Qed.

(** ** Renames on a concrete store *)

(** An index whose parents have smaller numbers holds no cycle. *)
Lemma descending_acyclic m : forallb (λ x, x.2 <? x.1) (map_to_list (parents m)) = true → acyclic m.
Proof.
  rewrite forallb_forall. intros H j Hj.
  assert (∀ x y, tc (up (parents m)) x y → y < x) as Hlt; [|specialize (Hlt j j Hj); lia].
  assert (∀ x y, up (parents m) x y → y < x) as Hup.
  { intros x y Hxy%elem_of_map_to_list%list_elem_of_In. specialize (H _ Hxy). by apply Z.ltb_lt in H. }
  induction 1 as [x y Hxy|x y z Hxy _ IH]; apply Hup in Hxy; lia.
Qed.

(** A second directory inside "d". *)
Definition ns_nested : ref_srv := run_ref (AtomicCreateDir demo_store (Some ∅) 11 (lit "e") 12 493 0 0) ns_dir.

Lemma rename_below_itself_refused_witness :
  (@run ref_etcd _ (AtomicRename demo_store (Some ∅) 1 (lit "d") 12 (lit "f") 11 0) ns_nested).2 = (Some ∅, Err ErrInvalid).
Proof.
  pose proof (@rename_below_itself_refused ref_etcd _ demo_store (Some ∅) 1 (lit "d") 12 (lit "f") 11
                (rec_of ns_nested 11) 0 ns_nested) as H.
  destruct (@run ref_etcd _ _ _) as [srv' x]. apply H; concrete.
  right. apply walk_up_iff. vm_compute. reflexivity.
Defined.

Lemma rename_to_free_exact_witness :
  renamed 11 (lit "e") 1 (lit "g") 12 (rs_store ns_nested)
    (rs_store (run_ref (AtomicRename demo_store (Some ∅) 11 (lit "e") 1 (lit "g") 12 0) ns_nested)).
Proof.
  pose proof (@rename_to_free_exact ref_etcd _ demo_store ∅ 11 (lit "e") 1 (lit "g") 12 0 ns_nested) as H.
  unfold run_ref. destruct (@run ref_etcd _ _ _) as [srv' [t' r]]. apply H; try lia; concrete.
  - eexists. vm_compute. reflexivity.
  - intros _. split.
    + apply descending_acyclic. vm_compute. reflexivity.
    + intros [?|Hb%walk_up_iff]; [done|]. vm_compute in Hb. discriminate.
Defined.

(** ** The source name is not pinned *)

(** One node renames "a" (inode 10) to "b"; meanwhile another unlinks "a" and
    creates a new "a" (inode 20). *)
Definition rename_race : ref_srv * list (prog (list bool)) :=
  let done {A} (r : result A) := match r with Ok _ => true | Err _ => false end in
  let other := mkStore (lit "n2") false None in
  foldl (@cexec ref_etcd _)
    (ns_file,
     [(x ⇐ AtomicRename demo_store (Some ∅) 1 (lit "a") 1 (lit "b") 10 0; Ret [done x.2]);
      (x ⇐ AtomicUnlink other (Some ∅) 1 (lit "a");
       y ⇐ AtomicCreateFile other (Some ∅) 1 (lit "a") 20 33188 0 0 no_extra; Ret [done x.2; done y.2.2])])
    ([Step 0; Step 0] ++ repeat (Step 1) 10 ++ repeat (Step 0) 10).

(** A rename checks that its source name exists but not that it still
    leads to the inode it moves.  On this schedule all three calls report
    success; the file created under the old name in between has lost its only
    name, and the new name leads to an inode that no longer exists. *)
Theorem rename_race_loses_file :
  rename_race.2 = [Ret [true]; Ret [true; true]] ∧
  let m := rs_store rename_race.1 in
  val_at (DirentKey 1 (lit "a")) m = None ∧
  val_at (DirentKey 1 (lit "b")) m = Some (EncodeUint64 10, 0) ∧
  val_at (InodeKey 10) m = None ∧
  Nlink <$> inode_rec m 20 = Some 1 ∧
  forallb (λ x, negb (DecodeUint64 (kv_val x.2) =? 20)) (range_kvs (RPrefix PrefixDirent) m) = true.
Proof. vm_compute. repeat split. Qed.
