(* ===== verification/TimesProps.v ===== *)
(** * What publishing queued timestamps does

    A flush on a server that answers leaves every queued inode with its update
    applied to the record the store holds, in transactions of at most
    [timeBatchInodes] records, and touches nothing else; a queue loses a
    directory's pending change when only its access time is assigned. *)

From S2P Require Import Prelude Etcd EtcdFacts Schema Store StoreLogic StoreProps InodeTimes NamespaceProps.

(** ** The specification: one update applied to one stored record *)

Definition published (m : mvcc) (ino : Z) (u : timeUpdate) : option (bytes * Z) :=
  match val_at (InodeKey ino) m with
  | Some (v, l) =>
    match DecodeInode v with
    | Some rec => if (apply u rec).2 then Some (EncodeInode (apply u rec).1, 0) else Some (v, l)
    | None => Some (v, l)
    end
  | None => None
  end.

Definition due_keys (due : list (Z * timeUpdate)) : list bytes := map (λ x, InodeKey x.1) due.

(** Every update in [due] is applied; no other key moves. *)
Definition settled (due : list (Z * timeUpdate)) (m m' : mvcc) : Prop :=
  (∀ ino u, (ino, u) ∈ due → val_at (InodeKey ino) m' = published m ino u) ∧
  (∀ k, k ∉ due_keys due → val_at k m' = val_at k m).

Lemma in_due_keys ino u due : (ino, u) ∈ due → InodeKey ino ∈ due_keys due.
Proof. intros H. apply list_elem_of_fmap. by exists (ino, u). Qed.

Lemma published_same m m1 ino u : val_at (InodeKey ino) m1 = val_at (InodeKey ino) m → published m1 ino u = published m ino u.
Proof. intros E. unfold published. by rewrite E. Qed.

Lemma settled_nil m : settled [] m m.
Proof. split; [by intros ? ? ?%elem_of_nil|done]. Qed.

Lemma settled_app d1 d2 m m1 m2 :
  NoDup (due_keys (d1 ++ d2)) → settled d1 m m1 → settled d2 m1 m2 → settled (d1 ++ d2) m m2.
Proof.
  unfold due_keys. rewrite map_app, NoDup_app. fold (due_keys d1) (due_keys d2).
  intros (_ & Hdis & _) [H1 K1] [H2 K2]. split.
  - intros ino u [Hin|Hin]%elem_of_app.
    + rewrite K2; [by apply H1|]. by eapply Hdis, in_due_keys.
    + rewrite (H2 ino u Hin). apply published_same, K1. intros Hk. by apply (Hdis _ Hk), (in_due_keys ino u).
  - intros k Hk. unfold due_keys in Hk. rewrite map_app, not_elem_of_app in Hk. destruct Hk. rewrite K2, K1; done.
Qed.

(** ** One batch *)

(** The pins and writes of a batch, from the store it reads. *)
Definition batch_item (m : mvcc) (x : Z * timeUpdate) : option (cmp * op) :=
  e ← mkvs m !! InodeKey x.1;
  rec ← DecodeInode (kv_val e);
  if (apply x.2 rec).2
  then Some (InodeUnchanged x.1 (kv_mod e), put (InodeKey x.1) (EncodeInode (apply x.2 rec).1)) else None.

Definition batch_items (m : mvcc) (due : list (Z * timeUpdate)) : list (cmp * op) := omap (batch_item m) due.

Lemma batch_items_cons m x due :
  batch_items m (x :: due) = match batch_item m x with Some y => y :: batch_items m due | None => batch_items m due end.
Proof. done. Qed.

Section batch.
Context (s : Store) (m : mvcc).

Lemma wpx_batch_build due (Q : _ → mvcc * unit → Prop) :
  Q (map fst (batch_items m due), map snd (batch_items m due), []) (m, tt) → wpx (batch_build s due) Q m.
Proof.
  revert Q. induction due as [|[ino u] due IH]; intros Q HQ; [by apply wpx_ret|]. cbn [batch_build].
  apply wpx_bind, wpx_GetInodeRev. cbn [fst]. apply wpx_bind, IH, wpx_ret. cbn [fst].
  rewrite batch_items_cons in HQ. unfold batch_item in HQ. cbn [fst snd] in HQ.
  destruct (mkvs m !! InodeKey ino) as [e|]; cbn [mbind option_bind] in HQ; [|done].
  destruct (DecodeInode (kv_val e)) as [rec|]; cbn [mbind option_bind] in HQ; [|done].
  destruct (apply u rec) as [rec' []]; done.
Qed.

Lemma batch_item_put x c o : batch_item m x = Some (c, o) → ∃ v, o = put (InodeKey x.1) v.
Proof.
  unfold batch_item. destruct (mkvs m !! InodeKey x.1) as [e|]; [|done]. cbn [mbind option_bind].
  destruct (DecodeInode (kv_val e)) as [rec|]; [|done]. cbn [mbind option_bind]. case_if; [|done]. naive_solver.
Qed.

Lemma batch_cmps_hold due : forallb (eval_cmp (mkvs m)) (map fst (batch_items m due)) = true.
Proof.
  apply forallb_forall. intros c ([c' o] & <- & Hin)%in_map_iff. cbn [fst].
  apply list_elem_of_In, list_elem_of_omap in Hin as (x & _ & Hx). revert Hx. unfold batch_item.
  destruct (mkvs m !! InodeKey x.1) as [e|] eqn:He; [|done]. cbn [mbind option_bind].
  destruct (DecodeInode (kv_val e)) as [rec|]; [|done]. cbn [mbind option_bind]. case_if; [|done].
  intros [= <- <-]. by apply eval_pinned.
Qed.

Lemma batch_puts_sub due : concat (map op_puts (map snd (batch_items m due))) `sublist_of` due_keys due.
Proof.
  induction due as [|x due IH]; [done|]. rewrite batch_items_cons.
  destruct (batch_item m x) as [[c o]|] eqn:Hx; [|by apply sublist_cons].
  apply batch_item_put in Hx as [v ->]. cbn. by apply sublist_skip.
Qed.

Lemma length_batch_items due : (length (batch_items m due) <= length due)%nat.
Proof. induction due as [|x due IH]; [done|]. rewrite batch_items_cons. destruct (batch_item m x); simpl; lia. Qed.

Lemma batch_effect_other due k : k ∉ due_keys due → ops_effect (map snd (batch_items m due)) k = None.
Proof.
  intros Hk. apply ops_effect_untouched, Forall_forall. intros o ([c o'] & -> & Hin)%list_elem_of_fmap.
  apply list_elem_of_omap in Hin as (x & Hx & Hb). apply batch_item_put in Hb as [v ->].
  apply bool_decide_eq_false_2. intros ->. apply Hk. by destruct x; eapply in_due_keys.
Qed.

Lemma batch_item_effect ino u :
  match batch_item m (ino, u) with
  | Some (_, o) => op_effect o (InodeKey ino) = Some (published m ino u)
  | None => published m ino u = val_at (InodeKey ino) m
  end.
Proof.
  unfold batch_item, published, val_at. cbn [fst snd]. destruct (mkvs m !! InodeKey ino) as [e|]; [|done].
  cbn [mbind option_bind fmap option_fmap option_map]. destruct (DecodeInode (kv_val e)) as [rec|]; [|done].
  cbn [mbind option_bind]. destruct (apply u rec) as [rec' []]; [|done]. cbn [snd fst].
  unfold op_effect, op_touches, put. by rewrite bool_decide_eq_true_2.
Qed.

Lemma batch_settles due :
  NoDup (due_keys due) → settled due m (mvcc_ops m (map snd (batch_items m due))).1.
Proof.
  intros Hnd. split; [|intros k Hk; by rewrite val_at_ops, batch_effect_other].
  intros ino u Hin. rewrite val_at_ops. revert Hnd Hin. induction due as [|[j w] due IH]; intros Hnd Hin.
  { by apply elem_of_nil in Hin. }
  apply NoDup_cons in Hnd as [Hj Hnd]. rewrite batch_items_cons. apply elem_of_cons in Hin as [[= -> ->]|Hin].
  - pose proof (batch_item_effect j w) as He. pose proof (batch_effect_other due _ Hj) as Ho. cbn [fst] in Ho.
    destruct (batch_item m (j, w)) as [[c o]|]; cbn [map snd ops_effect]; rewrite Ho; [by rewrite He|done].
  - destruct (batch_item m (j, w)) as [[c o]|] eqn:Hb; [|by apply IH].
    apply batch_item_put in Hb as [v ->]. cbn [map snd ops_effect]. rewrite <- (IH Hnd Hin).
    destruct (ops_effect _ (InodeKey ino)) as [x|] eqn:Ex; [done|].
    unfold op_effect, op_touches, put. rewrite bool_decide_eq_false_2; [done|]. cbn [fst]. intros E. apply Hj.
    cbn [fst]. rewrite <- E. by eapply in_due_keys.
Qed.

(** On a server that answers a batch commits at the first try. *)
Lemma wpx_commitInodeTimesBatch due (Q : _ → mvcc * unit → Prop) :
  guard_current s m → (length due <= timeBatchInodes)%nat → NoDup (due_keys due) →
  (∀ m', settled due m m' → Q [] (m', tt)) → wpx (commitInodeTimesBatch s due) Q m.
Proof.
  intros Hg Hlen Hnd HQ. pose proof (batch_settles due Hnd) as Hset. unfold commitInodeTimesBatch.
  destruct due as [|x due]; [by apply wpx_ret, HQ, settled_nil|].
  apply wpx_bind, wpx_batch_build. set (items := batch_items m (x :: due)) in *.
  pose proof (length_batch_items (x :: due)) as Hli. fold items in Hli. unfold timeBatchInodes in Hlen.
  destruct (map snd items) as [|o os] eqn:Eo; [by apply wpx_ret, HQ|]. rewrite <- Eo in Hset |- *.
  apply wpx_bind, wpx_Txn; [done| |by intros _; apply wpx_ret, HQ|].
  - apply txn_valid_small; [|rewrite length_map; lia|rewrite length_map; lia|].
    + apply (ops_distinct_dels []); [constructor| | |by intros k d _ ?%elem_of_nil].
      * apply Forall_map, Forall_forall. intros [c' o'] Hin. apply list_elem_of_omap in Hin as (y & _ & Hb).
        by apply batch_item_put in Hb as [v ->].
      * by eapply sublist_NoDup, batch_puts_sub.
    + apply Forall_map, Forall_forall. intros [c' o'] Hin. apply list_elem_of_omap in Hin as (y & _ & Hb).
      by apply batch_item_put in Hb as [v ->].
  - cbn [fst]. unfold items. by rewrite batch_cmps_hold.
Qed.
End batch.

(** ** The whole queue *)

Lemma chunk_updates_concat fuel size due :
  (0 < size)%nat → (length due <= fuel)%nat → concat (chunk_updates fuel size due) = due.
Proof.
  intros Hs. revert due. induction fuel as [|f IH]; intros [|x due] Hl; simpl in *; try done; [lia|].
  destruct size as [|size]; [lia|]. simpl. f_equal. rewrite IH; [apply take_drop|]. rewrite length_drop. lia.
Qed.

Lemma chunk_updates_small fuel size due : Forall (λ c, (length c <= size)%nat) (chunk_updates fuel size due).
Proof.
  revert due. induction fuel as [|f IH]; intros [|x due]; cbn [chunk_updates]; constructor; auto.
  rewrite length_take. lia.
Qed.

Lemma guard_current_same s m m' :
  val_at (GenKey (nodeID s)) m' = val_at (GenKey (nodeID s)) m → guard_current s m → guard_current s m'.
Proof.
  unfold guard_current, val_at. destruct (guard s) as [[g|]|]; [|done|done]. intros E (Hu & e & He & Hv). split; [done|].
  rewrite He in E. destruct (mkvs m' !! GenKey (nodeID s)) as [e'|]; [|done]. exists e'. split; [done|].
  injection E as E _. congruence.
Qed.

Lemma wpx_flush_chunks s dirty chunks (Q : _ → mvcc * unit → Prop) m :
  guard_current s m → Forall (λ c, (length c <= timeBatchInodes)%nat) chunks → NoDup (due_keys (concat chunks)) →
  (∀ m', settled (concat chunks) m m' → Q dirty (m', tt)) → wpx (flush_chunks s dirty chunks) Q m.
Proof.
  revert m Q. induction chunks as [|c cs IH]; intros m Q Hg Hl Hnd HQ; [by apply wpx_ret, HQ, settled_nil|].
  inversion Hl as [|? ? Hc Hcs]; subst. cbn [flush_chunks concat] in *.
  assert (NoDup (due_keys c) ∧ NoDup (due_keys (concat cs))) as [Hnc Hncs].
  { unfold due_keys in Hnd. rewrite map_app, NoDup_app in Hnd. tauto. }
  apply wpx_bind, wpx_commitInodeTimesBatch; [done|done|done|]. intros m1 H1. cbn [fst foldl].
  apply IH; [|done|done|intros m2 H2; apply HQ; by eapply settled_app].
  eapply guard_current_same; [|exact Hg]. apply H1. by intros (y & E & _)%list_elem_of_fmap.
Qed.

Lemma difference_filter (P : Z * timeUpdate → Prop) `{!∀ x, Decision (P x)} (d : gmap Z timeUpdate) :
  d ∖ filter P d = filter (λ x, ¬ P x) d.
Proof.
  apply map_eq. intros i. apply option_eq. intros u.
  rewrite lookup_difference_Some, map_lookup_filter_None, map_lookup_filter_Some. naive_solver.
Qed.

Definition is_due (only : Z) (ino : Z) : Prop := only = 0 ∨ ino = only.


(** ** A pending change dropped by an access-time assignment *)

(** A directory last changed at 100 gains an entry at 200; a setattr at 300
    then assigns only its access time, as [deferSetattrTimes] does. *)
Definition bump_dir : InodeRecord := set_Nlink 2 (NewInodeRecord 100 5 16877 0 0).
Definition bump_queued : Touch := Some (queue ∅ 5 200).
Definition bump_assigned : Touch := (QueueInodeTimes bump_queued 5 (Some 250) None (Some 300)).1.

(** The queue answers a stat with the new modification time while the
    change is pending; after the access-time assignment both the stat and the
    flushed record go back to the old one: the assignment dropped the pending
    change although it says nothing about the modification time. *)
Theorem atime_assignment_drops_bump :
  Mtime (PendingInodeTimes bump_queued bump_dir).1 = 200 ∧
  Mtime (PendingInodeTimes bump_assigned bump_dir).1 = 100 ∧
  (let srv := RefSrv (MVCC 2 {[ InodeKey 5 := KV (EncodeInode bump_dir) 2 2 0 ]} ∅) 300 in
   let srv' := run_ref (FlushInodeTimes (mkStore demo_node false None) (λ l, l) bump_assigned 0) srv in
   Mtime (rec_of srv' 5) = 100 ∧ Atime (rec_of srv' 5) = 250).
Proof. vm_compute. repeat split. Qed.

(** ** A concrete flush *)

Definition flush_dirty : gmap Z timeUpdate := <[1 := mkTimeUpdate (Some 500) None None None]> (queue ∅ 10 600).
