(* ===== verification/FenceRecords.v ===== *)
(** * The fencing control-plane records

    Models pkg/metadata/fence.go and the lease calls of client.go: the durable
    record that a node is owed a fence, the lease-bound claim that keeps two
    controllers from fencing it at once, the mark of a completed fence and the
    marker of an intentional departure.  All of them are written raw, without
    the generation guard. *)

From S2P Require Import Prelude Etcd EtcdFacts Schema Store StoreLogic.

Definition nanos_per_second : Z := 1000000000.

(** [int64(ttl.Seconds())]. *)
Definition ttl_seconds (ttl : Z) : Z := Z.quot ttl nanos_per_second.

Definition GrantLease (ttl : Z) : prog (result Z) :=
  x ⇐ call (QNewSession (ttl_seconds ttl));
  Ret match x with Some l => Ok l | None => Err EEtcd end.

Definition RevokeLease (lease : Z) : prog (result unit) :=
  x ⇐ call (QSessionClose lease);
  Ret match x with Some _ => Ok tt | None => Err EEtcd end.

(** [s.client.Delete(ctx, key)]. *)
Definition deleteRaw (key : bytes) : prog (result unit) :=
  x ⇐ call (QDelete key false);
  Ret match x with Some _ => Ok tt | None => Err EEtcd end.

(** ** Intents *)

Definition RecordFenceIntent (node instanceID : bytes) : prog (result unit) :=
  _ ⇐? putRaw (FencePendingKey node) instanceID 0; Ret (Ok tt).

Definition ClearFenceIntent (node : bytes) : prog (result unit) := deleteRaw (FencePendingKey node).

(** The create revision of the intent; [None] when there is none. *)
Definition FenceIntentRevision (node : bytes) : prog (result (option Z)) :=
  x ⇐ call (QRange (RKey (FencePendingKey node)) false);
  Ret match x with
      | None => Err EEtcd
      | Some ([], _) => Ok None
      | Some ((_, e) :: _, _) => Ok (Some (kv_create e))
      end.

(** What follows the prefix in each key, with the value. *)
Definition suffixes (prefix : bytes) (kvs : list (bytes * kv)) : list (bytes * bytes) :=
  map (λ x, (drop (length prefix) x.1, kv_val x.2)) kvs.

Definition ListFenceIntents (s : Store) : prog (result (gmap bytes bytes)) :=
  kvs ⇐? GetPrefix s PrefixFencePending;
  Ret (Ok (list_to_map (rev (suffixes PrefixFencePending kvs)))).

(** ** Completion marks and the known nodes *)

Definition MarkFenceComplete (node : bytes) (gen : Z) : prog (result unit) :=
  _ ⇐? putRaw (FenceDoneKey node) (fmt_uint gen) 0; Ret (Ok tt).

Definition ClearFenceMark (node : bytes) : prog (result unit) := deleteRaw (FenceDoneKey node).

Definition ListFencedNodes (s : Store) : prog (result (gset bytes)) :=
  kvs ⇐? GetPrefix s PrefixFenceDone;
  Ret (Ok (list_to_set (map fst (suffixes PrefixFenceDone kvs)))).

Definition ListKnownNodes (s : Store) : prog (result (list bytes)) :=
  kvs ⇐? GetPrefix s PrefixGen; Ret (Ok (map fst (suffixes PrefixGen kvs))).

(** ** Claims *)

(** The lease backing the claim, or [None] when another controller holds it. *)
Definition ClaimFence (s : Store) (node : bytes) (ttl : Z) : prog (result (option Z)) :=
  lease ⇐? GrantLease ttl;
  let key := FenceClaimKey node in
  won ⇐ txnRaw [key_absent key] [OpPut key (nodeID s) lease] [];
  match won with
  | Ok true => Ret (Ok (Some lease))
  | Ok false => _ ⇐ RevokeLease lease; Ret (Ok None)
  | Err e => _ ⇐ RevokeLease lease; Ret (Err e)
  end.

Definition ReleaseFenceClaim (lease : Z) : prog (result unit) := RevokeLease lease.

(** ** Departures *)

(** [time.RFC3339] of a UTC time: the civil date of a day number, with the
    year in four digits. *)
Definition civil_from_days (days : Z) : Z * Z * Z :=
  let z := days + 719468 in
  let era := z / 146097 in
  let doe := z - era * 146097 in
  let yoe := (doe - doe / 1460 + doe / 36524 - doe / 146096) / 365 in
  let doy := doe - (365 * yoe + yoe / 4 - yoe / 100) in
  let mp := (5 * doy + 2) / 153 in
  let d := doy - (153 * mp + 2) / 5 + 1 in
  let m := if mp <? 10 then mp + 3 else mp - 9 in
  (yoe + era * 400 + (if m <=? 2 then 1 else 0), m, d).

Definition pad (width : nat) (n : Z) : bytes :=
  let s := fmt_uint n in repeat 48 (width - length s) ++ s.

Definition rfc3339 (t : Z) : bytes :=
  let secs := Unix t in
  let '(y, m, d) := civil_from_days (secs / 86400) in
  let tod := secs mod 86400 in
  pad 4 y ++ lit "-" ++ pad 2 m ++ lit "-" ++ pad 2 d ++ lit "T" ++
  pad 2 (tod / 3600) ++ lit ":" ++ pad 2 (tod / 60 mod 60) ++ lit ":" ++ pad 2 (tod mod 60) ++ lit "Z".

(** The marker and the removal from membership, in one transaction. *)
Definition MarkDeparted (node : bytes) : prog (result bool) :=
  now ⇐ call QNow;
  let key := MembershipKey node in
  txnRaw [key_exists key] [put (DepartedKey node) (rfc3339 now); OpDelete key false] [].

Definition HasDeparted (s : Store) (node : bytes) : prog (result bool) :=
  v ⇐? Get s (DepartedKey node); Ret (Ok match v with Some _ => true | None => false end).

Definition ClearDeparted (node : bytes) : prog (result unit) := deleteRaw (DepartedKey node).

Definition OwnsArenas (s : Store) (node : bytes) : prog (result bool) :=
  kvs ⇐? GetPrefix s (ArenaNodePrefix node); Ret (Ok match kvs with [] => false | _ => true end).

Example rfc3339_epoch : rfc3339 (1786060861 * nanos_per_second + 5) = lit "2026-08-07T00:01:01Z".
Proof. vm_compute. reflexivity. Qed.
