(* ===== verification/Membership.v ===== *)
(** * Cluster membership

    Models pkg/metadata/membership.go: registering a node under a lease (which
    also drops what its previous departure left behind), leaving on purpose,
    and the liveness test; and the self-fencing watchdog of
    pkg/fencing/watchdog.go that reads it.

    It ends with the part of [run] in cmd/etcfuse-meta/main.go that brings a node
    into the cluster.

    [marshal] is the JSON encoding of the membership record: a parameter, since
    nothing but the instance ID is ever read back from it. *)

From S2P Require Import Prelude Etcd EtcdFacts Schema Store StoreLogic Extents Allocator ArenaPool InodeTimes Dirents FenceRecords.

Record MembershipRecord := mkMembershipRecord {
  NodeID : bytes; Cluster : bytes; JoinedAt : Z; InstanceID : bytes
}.

(** [lastAlive] is [None] for the zero time. *)
Record Membership := mkMembership {
  m_nodeID : bytes; m_cluster : bytes; leaseTTL : Z; m_instanceID : bytes;
  leaseID : Z; alive : bool; lastAlive : option Z
}.

Definition NewMembership (nodeID cluster : bytes) (ttl : Z) : Membership :=
  mkMembership nodeID cluster ttl [] 0 false None.

Definition SetInstanceID (m : Membership) (id : bytes) : Membership :=
  mkMembership (m_nodeID m) (m_cluster m) (leaseTTL m) id (leaseID m) (alive m) (lastAlive m).

Definition set_alive (m : Membership) (lease : Z) (v : bool) (last : option Z) : Membership :=
  mkMembership (m_nodeID m) (m_cluster m) (leaseTTL m) (m_instanceID m) lease v last.

Definition updateAlive (m : Membership) : prog Membership :=
  now ⇐ call QNow; Ret (set_alive m (leaseID m) true (Some now)).

Definition setAlive (m : Membership) (v : bool) : Membership := set_alive m (leaseID m) v (lastAlive m).

Definition revokeLease (m : Membership) : prog Membership :=
  if negb (leaseID m =? 0) then _ ⇐ RevokeLease (leaseID m); Ret (set_alive m 0 false (lastAlive m))
  else Ret (set_alive m (leaseID m) false (lastAlive m)).

Section registration.
Context (marshal : MembershipRecord → option bytes).

(** Registration, and the removal of the intent, the completion mark and the
    departure marker of an earlier departure; the removals are best effort. *)
Definition grantAndRegister (m : Membership) : prog (Membership * result Z) :=
  lease ⇐ GrantLease (leaseTTL m);
  match lease with
  | Err e => Ret (m, Err e)
  | Ok lease =>
    now ⇐ call QNow;
    match marshal (mkMembershipRecord (m_nodeID m) (m_cluster m) now (m_instanceID m)) with
    | None => _ ⇐ RevokeLease lease; Ret (m, Err EOther)
    | Some value =>
      put_ ⇐ putRaw (MembershipKey (m_nodeID m)) value lease;
      match put_ with
      | Err e => _ ⇐ RevokeLease lease; Ret (m, Err e)
      | Ok _ =>
        _ ⇐ deleteRaw (FencePendingKey (m_nodeID m));
        _ ⇐ deleteRaw (FenceDoneKey (m_nodeID m));
        _ ⇐ deleteRaw (DepartedKey (m_nodeID m));
        now ⇐ call QNow;
        Ret (set_alive m lease true (Some now), Ok lease)
      end
    end
  end.

(** What the heartbeat loop is told: a renewal, the closing of the keepalive
    stream, or the end of its context; [ka] says whether a new keepalive
    stream could be opened. *)
Inductive beat := Renewed | StreamClosed (ka : bool) | Stopped.

(** Registration at the start of [Run]: whether the loop is entered. *)
Definition run_start (m : Membership) (ka : bool) : prog (Membership * bool) :=
  x ⇐ grantAndRegister m;
  match x with
  | (m, Err _) => Ret (m, false)
  | (m, Ok _) => if ka then m ⇐ updateAlive m; Ret (m, true) else Ret (m, false)
  end.

(** One turn of the loop of [Run]: whether it goes on. *)
Definition run_beat (m : Membership) (b : beat) : prog (Membership * bool) :=
  match b with
  | Stopped => m ⇐ revokeLease m; Ret (m, false)
  | Renewed => m ⇐ updateAlive m; Ret (m, true)
  | StreamClosed ka =>
    x ⇐ grantAndRegister m;
    match x with
    | (m, Err _) => Ret (setAlive m false, false)
    | (m, Ok _) => if ka then Ret (m, true) else Ret (setAlive m false, false)
    end
  end.

Fixpoint run_beats (m : Membership) (bs : list beat) : prog (Membership * bool) :=
  match bs with
  | [] => Ret (m, true)
  | b :: bs' => x ⇐ run_beat m b; if x.2 : bool then run_beats x.1 bs' else Ret x
  end.
End registration.

(** Give everything back, announce it if that worked, drop the lease. *)
Definition Leave (m : Membership) (s : Store) : prog (Membership * (list Z * option err)) :=
  released ⇐ ReleaseArena s (m_nodeID m);
  _ ⇐ match released.2 with
      | None => _ ⇐ MarkDeparted (m_nodeID m); Ret tt
      | Some _ => Ret tt
      end;
  m ⇐ revokeLease m;
  Ret (m, released).

(** ** Liveness *)

Definition alive_at (m : Membership) (now : Z) : bool :=
  alive m && match lastAlive m with Some t => now - t <=? leaseTTL m | None => false end.

Definition IsAlive (m : Membership) : prog bool :=
  match alive m, lastAlive m with
  | true, Some _ => now ⇐ call QNow; Ret (alive_at m now)
  | _, _ => Ret false
  end.

(** ** The watchdog *)

Definition SelfFenceWindow (ttl : Z) : Z := 2 * ttl.

(** One tick of [Watchdog.Run], which reads the clock in [IsAlive] and again
    to see how long the lease has been dead: whether it triggers. *)
Definition watchdog_fires (m : Membership) (ttl now1 now2 : Z) : bool :=
  if alive_at m now1 then false
  else match lastAlive m with
       | None => true
       | Some t => SelfFenceWindow ttl <? now2 - t
       end.

Definition watchdog_tick (m : Membership) (ttl : Z) : prog bool :=
  ok ⇐ IsAlive m;
  if (ok : bool) then Ret false
  else match lastAlive m with
       | None => Ret true
       | Some t => now ⇐ call QNow; Ret (SelfFenceWindow ttl <? now - t)
       end.

(** ** Starting a daemon

    With the methods of internal/ipc/service.go it calls: capture the fencing
    generation and install the guard, reclaim the orphans of a previous run,
    rebuild the arena free lists, and only then register the membership. *)

Definition InitGeneration (s : Store) : prog (result Z) := EnsureGenerationKey s (nodeID s).

(** The guard of the generation the node started with. *)
Definition InstallStoreGuard (s : Store) (startGen : Z) : Store := mkStore (nodeID s) (localClient s) (Some (Some startGen)).

Fixpoint delete_orphans (s : Store) (inos : list Z) : prog unit :=
  match inos with
  | [] => Ret tt
  | ino :: inos' => _ ⇐ DeleteOrphan s ino; delete_orphans s inos'
  end.

Definition ReclaimOrphans (s : Store) : prog unit :=
  inos ⇐ ListOrphans s (nodeID s);
  match inos with Err _ => Ret tt | Ok inos => delete_orphans s inos end.

(** [dev]: a block device is configured; [ka]: the keepalive stream opens. *)
Definition daemon_start (marshal : MembershipRecord → option bytes) (s : Store) (a : Allocator) (m : Membership)
  (dev ka : bool) : prog (result (Store * Allocator * Membership)) :=
  gen ⇐? InitGeneration s;
  let s := InstallStoreGuard s gen in
  _ ⇐ ReclaimOrphans s;
  x ⇐ (if dev then x ⇐ Reconstruct s a; Ret x.1 else Ret a);
  y ⇐ run_start marshal m ka;
  Ret (Ok (s, x, y.1)).
