(* ===== verification/Controller.v ===== *)
(** * The fencing controller

    Models pkg/fencing/controller.go: what a controller does when a membership
    key disappears and in its periodic sweep.  Cutting a node off from the
    shared device is an external service (an NVMe preempt or a volume detach);
    it is the request [QFence], whose answer says whether the cut is confirmed.
    The watch that starts fences is in FenceWatch.
    The log lines that tell the outcomes apart are the values of [outcome]. *)

From S2P Require Import Prelude Etcd EtcdFacts Schema Store StoreLogic Extents Allocator ArenaPool FenceRecords.

Record Controller := mkController { c_store : Store; c_nodeID : bytes; c_fencer : bool; claimTTL : Z }.

Definition defaultClaimTTL : Z := 120 * nanos_per_second.

(** How a fence attempt ended. *)
Inductive outcome :=
| FClaimError | FClaimedElsewhere | FNothingOwed | FCannotRead | FNodeReturned | FNotSevered
| FNotBumped | FFenced (gen : Z).

(** Is this still the incarnation the fence started against?  Without an intent
    the weaker question is asked: is the node live now. *)
Definition sameIncarnation (s : Store) (node : bytes) (intentRev : option Z) : prog bool :=
  match intentRev with
  | None =>
    v ⇐ Get s (MembershipKey node);
    Ret match v with Err _ => true | Ok (Some _) => false | Ok None => true end
  | Some started =>
    r ⇐ FenceIntentRevision node;
    Ret match r with Ok (Some rev) => rev =? started | _ => false end
  end.

(** Is the fence a sweep decided on still owed, now that the claim is held? *)
Definition still_owed (c : Controller) (node : bytes) (fromSweep : bool) : prog (result bool) :=
  if fromSweep then
    pending ⇐? ListFenceIntents (c_store c);
    Ret (Ok (bool_decide (is_Some (pending !! node))))
  else Ret (Ok true).

(** Bump the generation, reclaim the arenas if the device enforces the fence,
    and record that it is complete. *)
Definition finish_fence (c : Controller) (node : bytes) (intentRev : option Z) : prog outcome :=
  gen ⇐ GetGeneration (c_store c) node;
  match gen with
  | Err _ => Ret FCannotRead
  | Ok currentGen =>
    bumped ⇐ BumpGeneration (c_store c) node currentGen;
    match bumped with
    | Err _ => Ret FNotBumped
    | Ok newGen =>
      _ ⇐ (if c_fencer c then
             same ⇐ sameIncarnation (c_store c) node intentRev;
             if (same : bool) then _ ⇐ ReleaseArena (c_store c) node; Ret tt else Ret tt
           else Ret tt);
      _ ⇐ MarkFenceComplete node newGen;
      _ ⇐ ClearFenceIntent node;
      Ret (FFenced newGen)
    end
  end.

(** [fenceNode] once its claim is won. *)
Definition fence_claimed (c : Controller) (node instanceID : bytes) (fromSweep : bool) : prog outcome :=
  owed ⇐ still_owed c node fromSweep;
  match owed with
  | Err _ => Ret FCannotRead
  | Ok false => Ret FNothingOwed
  | Ok true =>
    intent ⇐ FenceIntentRevision node;
    match intent with
    | Err _ => Ret FCannotRead
    | Ok intentRev =>
      same ⇐ sameIncarnation (c_store c) node intentRev;
      if negb same then Ret FNodeReturned
      else
        severed ⇐ (if c_fencer c then call (QFence node instanceID) else Ret true);
        if negb severed then Ret FNotSevered
        else
          same ⇐ sameIncarnation (c_store c) node intentRev;
          if negb same then Ret FNodeReturned else finish_fence c node intentRev
    end
  end.

Definition fenceNode (c : Controller) (node instanceID : bytes) (fromSweep : bool) : prog outcome :=
  claim ⇐ ClaimFence (c_store c) node (claimTTL c);
  match claim with
  | Err _ => Ret FClaimError
  | Ok None => Ret FClaimedElsewhere
  | Ok (Some lease) =>
    r ⇐ fence_claimed c node instanceID fromSweep;
    _ ⇐ ReleaseFenceClaim lease;
    Ret r
  end.

(** ** When to fence *)

Definition departedCleanly (c : Controller) (node : bytes) : prog bool :=
  departed ⇐ HasDeparted (c_store c) node;
  match departed with
  | Ok true =>
    owns ⇐ OwnsArenas (c_store c) node;
    Ret match owns with Ok owns => negb owns | Err _ => false end
  | _ => Ret false
  end.

Definition extractNodeID (key : bytes) : bytes :=
  if bool_decide (length PrefixMembership < length key)%nat then drop (length PrefixMembership) key else key.

(** One candidate of the sweep. *)
Definition reconcile_node (c : Controller) (intents : gmap bytes bytes) (fenced : gset bytes) (node : bytes)
  : prog (option outcome) :=
  if bool_decide (node = c_nodeID c) then Ret None
  else
    let owed := bool_decide (is_Some (intents !! node)) in
    v ⇐ Get (c_store c) (MembershipKey node);
    match v with
    | Err _ => Ret None
    | Ok (Some _) =>
      _ ⇐ (if owed then ClearFenceIntent node else Ret (Ok tt));
      _ ⇐ (if bool_decide (node ∈ fenced) then ClearFenceMark node else Ret (Ok tt));
      Ret None
    | Ok None =>
      if bool_decide (node ∈ fenced) && negb owed then Ret None
      else
        clean ⇐ (if negb owed then departedCleanly c node else Ret false);
        if (clean : bool) then Ret None
        else
          recorded ⇐ (if negb owed then RecordFenceIntent node [] else Ret (Ok tt));
          match recorded with
          | Err _ => Ret None
          | Ok _ => r ⇐ fenceNode c node (default [] (intents !! node)) true; Ret (Some r)
          end
    end.

Fixpoint reconcile_nodes (c : Controller) (intents : gmap bytes bytes) (fenced : gset bytes) (nodes : list bytes)
  : prog (list (bytes * outcome)) :=
  match nodes with
  | [] => Ret []
  | node :: nodes' =>
    r ⇐ reconcile_node c intents fenced node;
    rest ⇐ reconcile_nodes c intents fenced nodes';
    Ret (match r with Some o => (node, o) :: rest | None => rest end)
  end.

(** The sweep: every known node and every recorded intent is considered, in the
    unspecified order of a Go map ([shuffle]). *)
Definition reconcile (c : Controller) (shuffle : list bytes → list bytes) : prog (list (bytes * outcome)) :=
  intents ⇐ ListFenceIntents (c_store c);
  match intents with
  | Err _ => Ret []
  | Ok intents =>
    known ⇐ ListKnownNodes (c_store c);
    match known with
    | Err _ => Ret []
    | Ok known =>
      fenced ⇐ ListFencedNodes (c_store c);
      match fenced with
      | Err _ => Ret []
      | Ok fenced =>
        reconcile_nodes c intents fenced (shuffle (elements (list_to_set known ∪ dom intents : gset bytes)))
      end
    end
  end.

(** ** Questions about a node *)

Definition IsNodeFenced (c : Controller) (node : bytes) : prog (result bool) := IsFenceActive (c_store c) node.

Definition GenerationGuard (c : Controller) (node : bytes) : prog (result cmp) :=
  gen ⇐? GetGeneration (c_store c) node; Ret (Ok (WithGenerationGuard node gen)).
