(* ===== verification/ControllerProps.v ===== *)
(** * What the fencing controller guarantees

    - Whatever the replies, a fence bumps the generation only after the device
      cut is confirmed, reclaims arenas only after that and after the bump is
      confirmed, and records its completion only then.
    - A re-check fails if the node returned at any moment since the fence
      started, however the intent was re-recorded afterwards.
    - A daemon reads its generation and its arenas before it registers, so a
      fence that runs in between leaves it alive and unable to write. *)

From S2P Require Import Prelude Etcd EtcdFacts Schema Store StoreLogic StoreProps Extents Allocator ArenaPool ArenaProps FenceRecords Membership Controller.

(** ** The order of a fence *)

(** What a fence of [node] has had confirmed so far. *)
Record phase := Phase { severed : bool; bumped : bool }.

Definition writes_gen (node : bytes) (q : req) : bool :=
  match q with
  | QTxn _ ts _ => existsb (λ o, op_touches o (GenKey node)) ts
  | QPut k _ _ => bool_decide (k = GenKey node)
  | QDelete k p => op_touches (OpDelete k p) (GenKey node)
  | _ => false
  end.

Definition frees_arena (q : req) : bool :=
  match q with
  | QTxn _ ts _ => existsb (λ o, match o with OpPut k _ _ => has_prefix PrefixFreeArena k | _ => false end) ts
  | QPut k _ _ => has_prefix PrefixFreeArena k
  | _ => false
  end.

Definition settles_fence (node : bytes) (q : req) : bool :=
  match q with
  | QTxn _ ts _ => existsb (λ o, op_touches o (FenceDoneKey node) || op_touches o (FencePendingKey node)) ts
  | QPut k _ _ => bool_decide (k = FenceDoneKey node) || bool_decide (k = FencePendingKey node)
  | QDelete k p => op_touches (OpDelete k p) (FenceDoneKey node) || op_touches (OpDelete k p) (FencePendingKey node)
  | _ => false
  end.

Definition fence_allows (fencer : bool) (node : bytes) (st : phase) (q : req) : Prop :=
  (writes_gen node q = true → fencer = true → severed st = true) ∧
  (frees_arena q = true → fencer = true ∧ severed st = true ∧ bumped st = true) ∧
  (settles_fence node q = true → bumped st = true).

Definition fence_confirms (node : bytes) (st : phase) (q : req) : resp q → phase :=
  match q return resp q → phase with
  | QFence n _ => λ r, Phase (severed st || (r && bool_decide (n = node))) (bumped st)
  | QTxn ifs ts es => λ r,
    Phase (severed st)
      (bumped st || (writes_gen node (QTxn ifs ts es) && match r with Some t => succeeded t | None => false end))
  | _ => λ _, st
  end.

Section order.
Context (f : bool) (st_ : Store) (node : bytes).
Abbreviation obey := (obeys (fence_allows f node) (fence_confirms node)).

(** Requests that change neither what is confirmed nor anything it guards. *)
Definition idle (q : req) : Prop :=
  writes_gen node q = false ∧ frees_arena q = false ∧ settles_fence node q = false ∧
  match q with QFence _ _ => False | _ => True end.

Lemma idle_read_only q : read_only q → match q with QFence _ _ => False | _ => True end → idle q.
Proof. by destruct q. Qed.

Lemma obey_idle {A} (p : prog A) st (Q : phase → A → Prop) : issues idle p → (∀ a, Q st a) → obey st p Q.
Proof.
  intros Hp HQ. eapply obeys_idle; [|exact Hp|exact HQ]. intros q (H1 & H2 & H3 & H4).
  split; [unfold fence_allows; rewrite H1, H2, H3; done|].
  destruct q; try done. intros r. cbn [fence_confirms]. rewrite H1. cbn. rewrite orb_false_r. by destruct st.
Qed.

Ltac idle_call := split; [by repeat split|try by intros []].

Lemma idle_sameIncarnation rev : issues idle (sameIncarnation st_ node rev).
Proof.
  unfold sameIncarnation. destruct rev as [rev|].
  - apply issues_bind; [|by intros [[]|]]. split; [by apply idle_read_only|]. by intros [[[|[]]]|].
  - apply issues_bind; [by apply issues_Get, idle_read_only|]. by intros [[]|].
Qed.

Lemma idle_claim ttl : issues idle (ClaimFence st_ node ttl).
Proof.
  unfold ClaimFence. apply issues_ebind; [idle_call|]. intros lease.
  apply issues_bind; [apply issues_txnRaw; by repeat split|]. intros [[]|]; [done|idle_call|idle_call].
Qed.

(** Bumping is one guarded write of the generation; its success is known. *)
Lemma obey_bump g st (Q : phase → result Z → Prop) :
  (f = true → severed st = true) →
  (∀ b e, Q (Phase (severed st) b) (Err e)) → (∀ v, Q (Phase (severed st) true) (Ok v)) →
  obey st (BumpGeneration st_ node g) Q.
Proof.
  intros Hs He Hv. unfold BumpGeneration, ebind, txnRaw, txnRawResponse.
  assert (∀ ifs v, writes_gen node (QTxn ifs [put (GenKey node) v] []) = true) as Hw.
  { intros ifs v. cbn. by rewrite bool_decide_eq_true_2. }
  assert (∀ ifs v b, fence_allows f node (Phase (severed st) b) (QTxn ifs [put (GenKey node) v] [])) as Hok.
  { intros ifs v b. by split; [|split]. }
  assert (∀ b, obey (Phase (severed st) b)
    (_ ⇐ GetGeneration st_ node; Ret (Err EOther : result Z)) Q) as Hlost.
  { intros b. apply obeys_bind, obey_idle; [by apply issues_GetGeneration, idle_read_only|]. intros a. apply He. }
  destruct st as [sv bm]. cbn [severed] in *. cbn [bind call obeys]. split; [apply Hok|].
  intros [t|]; cbn [bind obeys]; [|apply He]. destruct (succeeded t) eqn:Et; cbn [negb andb].
  { cbn [bind obeys negb]. unfold fence_confirms. rewrite Hw, Et, orb_true_r. apply Hv. }
  destruct (g =? 0); cbn [bind obeys]; [|apply Hlost].
  split; [apply Hok|]. intros [t'|]; cbn [bind obeys]; [|apply He].
  destruct (succeeded t') eqn:Et'; cbn [negb bind obeys]; [|apply Hlost].
  unfold fence_confirms. rewrite !Hw, Et', orb_true_r. apply Hv.
Qed.

(** Reclaiming arenas is allowed once cut and bump are confirmed. *)
Lemma obey_release_all kvs acc (Q : phase → list Z * option err → Prop) :
  f = true → (∀ a, Q (Phase true true) a) → obey (Phase true true) (release_all node kvs acc) Q.
Proof.
  intros Hf HQ. revert acc. induction kvs as [|[k e] kvs IH]; intros acc; [apply HQ|]. cbn [release_all].
  destruct (ParseArenaKey k) as [[n id]|]; [|apply IH].
  unfold ReleaseArenaID, txnRaw, ebind, txnRawResponse. cbn [bind call obeys]. split.
  - by split; [|split].
  - assert (∀ r, fence_confirms node (Phase true true) (QTxn [key_exists (ArenaOwnerKey node id)]
      [OpDelete (ArenaOwnerKey node id) false; put (FreeArenaKey id) (lit "free")] []) r = Phase true true) as Hc by done.
    intros r. rewrite Hc. destruct r as [t|]; cbn [bind obeys]; [destruct (succeeded t); apply IH|apply HQ].
Qed.

End order.

Lemma obey_finish f c node rev st (Q : phase → outcome → Prop) :
  c_fencer c = f → (f = true → severed st = true) → (∀ st a, Q st a) →
  obeys (fence_allows f node) (fence_confirms node) st (finish_fence c node rev) Q.
Proof.
  intros Hf Hs HQ. unfold finish_fence. rewrite Hf.
  apply obeys_bind, obey_idle; [by apply issues_GetGeneration, idle_read_only|].
  intros [g|]; [|apply HQ]. apply obeys_bind, obey_bump; [done|intros; apply HQ|]. intros v.
  assert (∀ b, obeys (fence_allows f node) (fence_confirms node) (Phase b true)
    (_ ⇐ MarkFenceComplete node v; _ ⇐ ClearFenceIntent node; Ret (FFenced v)) Q) as Hend.
  { intros b. cbn [MarkFenceComplete putRaw ebind bind call obeys]. split; [by split; [|split]|].
    intros [r|]; cbn [bind obeys]; (split; [by split; [|split]|]); intros [r'|]; cbn [bind obeys]; apply HQ. }
  apply obeys_bind. destruct f; [|apply Hend]. rewrite (Hs eq_refl).
  apply obeys_bind, obey_idle; [apply idle_sameIncarnation|]. intros [|]; [|apply Hend].
  apply obeys_bind. unfold ReleaseArena. apply obeys_bind, obey_idle; [by apply issues_GetPrefix, idle_read_only|].
  intros [kvs|]; [|apply Hend]. apply obey_release_all; [done|]. intros a'. apply Hend.
Qed.

(** C14. The order of a fence, whatever etcd and the device answer and however
    requests fail: with a fencer configured the generation is written only
    after the cut is confirmed; an arena returns to the pool only with a fencer,
    after the cut and after the bump are confirmed; and a fence is marked
    complete and its intent dropped only after the bump is confirmed. *)
Theorem fence_order c node instanceID fromSweep :
  obeys (fence_allows (c_fencer c) node) (fence_confirms node) (Phase false false)
    (fenceNode c node instanceID fromSweep) (λ _ _, True).
Proof.
  unfold fenceNode. remember (c_fencer c) as f eqn:Hf. symmetry in Hf.
  apply obeys_bind, obey_idle; [apply idle_claim|]. intros [[lease|]|]; [|done|done].
  assert (∀ st o, obeys (fence_allows f node) (fence_confirms node) st
    (_ ⇐ ReleaseFenceClaim lease; Ret (o : outcome)) (λ _ _, True)) as Hend.
  { intros st o. cbn [ReleaseFenceClaim RevokeLease bind call obeys]. split; [by split; [|split]|]. by intros [[]|]. }
  apply obeys_bind. unfold fence_claimed, still_owed. rewrite Hf. apply obeys_bind, obey_idle.
  { destruct fromSweep; [|done]. apply issues_ebind; [|done].
    apply issues_ebind; [by apply issues_GetPrefix, idle_read_only|done]. }
  intros [[]|]; [|apply Hend|apply Hend].
  apply obeys_bind, obey_idle; [by split; [apply idle_read_only|intros [[[|[]]]|]]|]. intros [rev|]; [|apply Hend].
  apply obeys_bind, obey_idle; [apply idle_sameIncarnation|]. intros [|]; [|apply Hend]. cbn [negb].
  apply obeys_bind. destruct f.
  - cbn [call obeys]. split; [by split; [|split]|]. intros [|]; cbn [negb]; [|apply Hend].
    apply obeys_bind, obey_idle; [apply idle_sameIncarnation|]. intros [|]; [|apply Hend].
    cbn [negb]. apply obey_finish; [done| |intros; apply Hend]. intros _. cbn. by rewrite bool_decide_eq_true_2.
  - cbn [obeys negb]. apply obeys_bind, obey_idle; [apply idle_sameIncarnation|].
    intros [|]; [|apply Hend]. cbn [negb]. apply obey_finish; [done|done|]. intros. apply Hend.
Qed.

(** ** The incarnation check *)

(** The create revision of a node's intent. *)
Definition intent_rev (m : mvcc) (node : bytes) : option Z := kv_create <$> mkvs m !! FencePendingKey node.

(** What [m'] holds under a create revision that [m] had reached was already
    there, under the same one, in [m]. *)
Definition lineage (old new : gmap bytes kv) (rev : Z) : Prop :=
  ∀ k e', new !! k = Some e' → kv_create e' <= rev → ∃ e, old !! k = Some e ∧ kv_create e = kv_create e'.

Lemma lineage_refl old rev : lineage old old rev.
Proof. intros k e He _. eauto. Qed.

Lemma lineage_ops rev old kvs os :
  lineage old kvs rev → lineage old (apply_ops (rev + 1) kvs os).1 rev.
Proof.
  revert kvs. induction os as [|o os IH]; intros kvs Hl; [done|]. rewrite apply_ops_cons. apply IH. clear IH.
  intros k e' He Hc. destruct o as [k' v l|k' p]; cbn in He.
  - unfold put_kv in He. apply lookup_insert_Some in He as [[<- <-]|[_ He]]; [|by eapply Hl].
    cbn [kv_create] in *. destruct (kvs !! k') as [e|] eqn:Ek; [|lia]. destruct (Hl k' e Ek Hc) as (e0 & ? & ?). eauto.
  - rewrite (del_keys_lookup k' p kvs k) in He. destruct (op_touches (OpDelete k' p) k); [done|]. by eapply Hl.
Qed.

Lemma lineage_expire l m : lineage (mkvs m) (mkvs (mvcc_expire l m)) (mrev m).
Proof. intros k e He _. apply map_lookup_filter_Some in He as [He _]. eauto. Qed.

Lemma etcd_ok_lineage q m m' a : etcd_ok q m m' a → lineage (mkvs m) (mkvs m') (mrev m).
Proof.
  intros H%etcd_ok_store.
  assert (∀ os, lineage (mkvs m) (mkvs (mvcc_ops m os).1) (mrev m)) as Hops.
  { intros os. rewrite mvcc_ops_kvs. apply lineage_ops, lineage_refl. }
  destruct q as [| |ifs ts es|k v l|k p| |t|l|l| | |]; lazy beta iota in H; subst; try apply lineage_refl.
  - destruct H as [->| ->]; [apply lineage_refl|]. unfold mvcc_txn. destruct (txn_branch m ifs ts es) as [ok os].
    specialize (Hops os). by destruct (mvcc_ops m os).
  - destruct H as [->| ->]; [apply lineage_refl|apply Hops].
  - destruct H as [->| ->]; [apply lineage_refl|apply Hops].
  - destruct H as (Hk & _ & _). rewrite Hk. apply lineage_refl.
  - destruct H as [->| ->]; [apply lineage_refl|apply lineage_expire].
Qed.

(** A later state of the store, as far as create revisions tell. *)
Definition keeps (m m' : mvcc) : Prop := mrev m <= mrev m' ∧ lineage (mkvs m) (mkvs m') (mrev m).

#[global] Instance keeps_preorder : PreOrder keeps.
Proof.
  split; [intros m; split; [lia|apply lineage_refl]|]. intros m1 m2 m3 [H1 L1] [H2 L2]. split; [lia|].
  intros k e3 H3 Hc. destruct (L2 k e3 H3) as (e2 & He2 & E2); [lia|].
  destruct (L1 k e2 He2) as (e1 & He1 & E1); [lia|]. exists e1. split; [done|congruence].
Qed.

Lemma cluster_keeps `{E : Etcd} {A} (c c' : esrv * list (prog A)) : rtc cstep c c' → keeps (eview c.1) (eview c'.1).
Proof.
  induction 1 as [|c1 c2 c3 Hs _ IH]; [done|]. etrans; [|exact IH]. destruct Hs as [s ps i q k Hi|s ps l]; cbn [fst].
  - pose proof (etcd_documented q s) as Hd. split; [apply (etcd_ok_evolves _ _ _ _ Hd)|by eapply etcd_ok_lineage].
  - rewrite etcd_expiry. split; [apply mvcc_expire_evolves|apply lineage_expire].
Qed.

Lemma sameIncarnation_sound `{E : Etcd} s node r srv :
  (run (sameIncarnation s node (Some r)) srv).2 = true → intent_rev (eview srv) node = Some r.
Proof.
  unfold sameIncarnation, FenceIntentRevision, intent_rev. cbn [bind call run].
  pose proof (etcd_documented (QRange (RKey (FencePendingKey node)) false) srv) as Hd.
  destruct (eserve (QRange (RKey (FencePendingKey node)) false) srv) as [srv' a]. cbn [fst snd] in Hd.
  apply etcd_ok_read in Hd as [_ [->| ->]]; cbn [run snd]; [done|]. cbn [range_kvs].
  destruct (mkvs (eview srv) !! FencePendingKey node) as [e|]; cbn [run snd]; [|done]. intros E1%Z.eqb_eq. cbn. by rewrite E1.
Qed.

(** The incarnation check catches a return at any moment: if the intent a
    fence started from was absent at some point since (a node drops it when it
    registers), every later re-check answers no, also when an intent for a new
    departure has been recorded meanwhile, and whatever else the cluster did. *)
Theorem recheck_detects_return `{E : Etcd} {A} s node r (c0 c1 c2 : esrv * list (prog A))
  (Hwf : mvcc_wf (eview c0.1)) (Hstart : intent_rev (eview c0.1) node = Some r)
  (H01 : rtc cstep c0 c1) (Hreturned : intent_rev (eview c1.1) node = None) (H12 : rtc cstep c1 c2) :
  (run (sameIncarnation s node (Some r)) c2.1).2 = false.
Proof.
  destruct (run (sameIncarnation s node (Some r)) c2.1).2 eqn:Er; [exfalso|done].
  apply sameIncarnation_sound in Er. apply cluster_keeps in H01 as [Hr _]. apply cluster_keeps in H12 as [_ Hl].
  unfold intent_rev in *. apply fmap_Some in Hstart as (e0 & He0 & ->). apply fmap_Some in Er as (e2 & He2 & Ec).
  destruct (proj2 Hwf _ _ He0). destruct (Hl _ _ He2) as (e1 & He1 & _); [lia|]. by rewrite He1 in Hreturned.
Qed.

(** ** Concrete clusters *)

(** "n2" is a controller; "n1" expired holding arena 0 and is owed a fence. *)
Definition peer : Store := mkStore (lit "n2") false (Some (Some 0)).
Definition peer_controller : Controller := mkController peer (nodeID peer) true defaultClaimTTL.
Definition n1 : bytes := lit "n1".
Definition n1_store : Store := mkStore n1 false None.
Definition demo_marshal (r : MembershipRecord) : option bytes := Some (lit "{}").
Definition owed_srv : ref_srv :=
  RefSrv (mvcc_ops (MVCC 1 ∅ ∅) [put (GenKey n1) (fmt_uint 0); put (ArenaOwnerKey n1 0) (EncodeUint64 0);
            put PrefixArenaLog (EncodeUint64 1); put (FencePendingKey n1) (lit "i-1")]).1 0.

Definition dropped : ref_srv * list (prog (result unit)) := foldl (@cexec ref_etcd _)
  (owed_srv, [ClearFenceIntent n1; RecordFenceIntent n1 (lit "i-1")]) [Step 0].
Definition rerecorded : ref_srv * list (prog (result unit)) := foldl (@cexec ref_etcd _) dropped [Step 1].

Lemma recheck_detects_return_witness :
  (@run ref_etcd _ (sameIncarnation peer n1 (Some 2)) rerecorded.1).2 = false ∧
  intent_rev (rs_store rerecorded.1) n1 = Some 4.
Proof.
  split; [|vm_compute; reflexivity].
  apply (@recheck_detects_return ref_etcd (result unit) peer n1 2
           (owed_srv, [ClearFenceIntent n1; RecordFenceIntent n1 (lit "i-1")]) dropped rerecorded).
  - apply (mvcc_ops_wf (MVCC 1 ∅ ∅)). exact empty_store_wf.
  - vm_compute. reflexivity.
  - apply cexec_steps.
  - vm_compute. reflexivity.
  - apply cexec_steps.
Defined.

(** "n1" restarts while the fence runs: it captures its generation and adopts
    its arena, then the whole fence runs, then it registers. *)
Definition restart_race : ref_srv * list (prog (outcome + (option Z * list Z * bool))) :=
  foldl (@cexec ref_etcd _)
    (owed_srv,
     [(o ⇐ fenceNode peer_controller n1 (lit "i-1") true; Ret (inl o));
      (x ⇐ daemon_start demo_marshal n1_store NewAllocator (NewMembership n1 (lit "c") (10 * nanos_per_second)) true true;
       Ret (inr match x with
                | Ok (s, a, m) => (match guard s with Some g => g | None => None end, map ID (arenas a), alive m)
                | Err _ => (None, [], false)
                end))])
    (repeat (Step 1) 5 ++ repeat (Step 0) 30 ++ repeat (Step 1) 20).

(** A daemon captures its generation and its arenas before it registers,
    and only registering drops the intent a fence re-checks.  A fence that runs
    in between completes: the node is then a live member whose guard is one
    generation behind, so that none of its transactions can ever commit, and
    its allocator holds an arena that is in the free pool. *)
Theorem fence_wedges_restarting_node :
  restart_race.2 = [Ret (inl (FFenced 1)); Ret (inr (Some 0, [0], true))] ∧
  let m := rs_store restart_race.1 in
  is_Some (val_at (MembershipKey n1) m) ∧ val_at (GenKey n1) m = Some (fmt_uint 1, 0) ∧
  pooled m 0 ∧ val_at (ArenaOwnerKey n1 0) m = None ∧
  (@run ref_etcd _ (Txn (InstallStoreGuard n1_store 0) [] [put (lit "k") (lit "v")] []) restart_race.1).2 = Err ErrFenced.
Proof.
  vm_compute. split; [reflexivity|]. split; [by eexists|]. split; [reflexivity|]. split; [by eexists|]. by split.
Qed.
