(* ===== verification/MembershipProps.v ===== *)
(** * What membership guarantees

    A node that leaves on purpose gives back every arena it holds and is left
    alone by every controller; a node that registers drops what its previous
    departure left behind; the self-fencing watchdog fires in a known window. *)

From S2P Require Import Prelude Etcd EtcdFacts Schema Store StoreLogic StoreProps Extents Allocator ArenaPool ArenaProps InodeTimes Dirents NamespaceProps FenceRecords Membership Controller.

(** ** Unguarded transactions on a server that answers *)

Lemma wpx_txnRaw ifs ts (Q : result bool → mvcc * unit → Prop) m :
  txn_valid m ifs ts [] = true →
  (forallb (eval_cmp (mkvs m)) ifs = true → Q (Ok true) ((mvcc_ops m ts).1, tt)) →
  (forallb (eval_cmp (mkvs m)) ifs = false → Q (Ok false) (m, tt)) →
  wpx (txnRaw ifs ts []) Q m.
Proof.
  intros Hv Ht Hf. apply wpx_ebind. intros σ1 m2 a <- Ha. simpl in Ha. rewrite Hv in Ha. destruct Ha as [-> ->].
  exists tt. split; [done|]. intros σ3 <-. apply wpx_ret. rewrite mvcc_txn_succeeded. cbn [fst].
  destruct (forallb (eval_cmp (mkvs m)) ifs) eqn:E.
  - rewrite mvcc_txn_committed by done. by apply Ht.
  - rewrite mvcc_txn_rejected by done. by apply Hf.
Qed.

Lemma wpx_revoke l (Q : result unit → mvcc * unit → Prop) m : Q (Ok tt) (mvcc_expire l m, tt) → wpx (RevokeLease l) Q m.
Proof. intros HQ. apply wpx_bind. intros σ1 m2 a <- [-> ->]. exists tt. split; [done|]. intros σ3 <-. by apply wpx_ret. Qed.

Lemma raw_valid m ifs ts :
  ops_distinct ts = true → (length ifs <= 127)%nat → (length ts <= 127)%nat →
  Forall (λ o, op_lease_live m o = true) ts → txn_valid m ifs ts [] = true.
Proof. apply (txn_valid_small (mkStore [] false None)). Qed.

(** ** Releasing every arena *)

(** The arena records of [node], as the code writes them. *)
Definition arenas_canonical (node : bytes) (m : mvcc) : Prop :=
  ∀ k, is_Some (val_at k m) → has_prefix (ArenaNodePrefix node) k = true → ∃ id, is_u64 id ∧ k = ArenaOwnerKey node id.

(** Only arena records of [node] and pool entries move: the records of [ids] are
    gone, an arena that loses its record is in the pool, and no record appears. *)
Definition arenas_returned (node : bytes) (ids : list Z) (m m' : mvcc) : Prop :=
  mvcc_wf m' ∧
  (∀ id, id ∈ ids → val_at (ArenaOwnerKey node id) m' = None) ∧
  (∀ id, is_u64 id → owned m node id → owned m' node id ∨ pooled m' id) ∧
  (∀ id, pooled m id → pooled m' id) ∧
  (∀ k, has_prefix PrefixArena k = true → val_at k m = None → val_at k m' = None) ∧
  (∀ k, (∀ id, is_u64 id → k ≠ ArenaOwnerKey node id) → has_prefix PrefixFreeArena k = false → val_at k m' = val_at k m) ∧
  (∀ k x, val_at k m' = Some x → x.2 = 0 ∨ val_at k m = Some x).

Lemma owner_is_arena node id : has_prefix PrefixArena (ArenaOwnerKey node id) = true.
Proof. apply has_prefix_app. Qed.

(** A key of another family keeps its value. *)
Lemma arenas_returned_other node ids m m' k :
  arenas_returned node ids m m' → has_prefix PrefixArena k = false → has_prefix PrefixFreeArena k = false →
  val_at k m' = val_at k m.
Proof. intros (_ & _ & _ & _ & _ & K & _) Ha. apply K. intros id _ ->. by rewrite owner_is_arena in Ha. Qed.

Lemma arenas_returned_nil node m : mvcc_wf m → arenas_returned node [] m m.
Proof. intros Hw. split; [done|]. split; [by intros id ?%elem_of_nil|]. split; [by left|]. repeat split; auto. Qed.

Lemma arenas_returned_app node ids1 ids2 m m1 m2 :
  arenas_returned node ids1 m m1 → arenas_returned node ids2 m1 m2 → arenas_returned node (ids1 ++ ids2) m m2.
Proof.
  intros (W1 & G1 & O1 & P1 & A1 & K1 & L1) (W2 & G2 & O2 & P2 & A2 & K2 & L2). split; [done|].
  split; [|split; [|split; [|split; [|split]]]].
  - intros id [Hi|Hi]%elem_of_app; [|by apply G2]. apply A2; [apply owner_is_arena|by apply G1].
  - intros id Hu [Ho|Hp]%O1; [by apply O2|right; by apply P2|done].
  - intros id Hp. by apply P2, P1.
  - intros k Hk Hn. by apply A2, A1.
  - intros k Hk Hf. by rewrite K2, K1.
  - intros k x [|H]%L2; [by left|]. by apply L1.
Qed.

(** Moving one record to the pool. *)
Lemma release_one node id m :
  is_u64 id → mvcc_wf m →
  arenas_returned node [id] m (mvcc_ops m [OpDelete (ArenaOwnerKey node id) false; put (FreeArenaKey id) (lit "free")]).1.
Proof.
  intros Hid Hw. pose proof (owner_ne_free node id id) as Hne.
  assert (∀ k, val_at k (mvcc_ops m [OpDelete (ArenaOwnerKey node id) false; put (FreeArenaKey id) (lit "free")]).1 =
    if bool_decide (k = FreeArenaKey id) then Some (lit "free", 0)
    else if bool_decide (k = ArenaOwnerKey node id) then None else val_at k m) as He.
  { intros k. rewrite val_at_ops. effects. by repeat case_bool_decide. }
  split; [by apply mvcc_ops_wf|]. unfold owned, pooled. split; [|split; [|split; [|split; [|split]]]].
  - intros j ->%list_elem_of_singleton. by rewrite He, bool_decide_eq_false_2, bool_decide_eq_true_2.
  - intros j Hj Ho. rewrite !He. destruct (decide (j = id)) as [->|Hji]; [right; by rewrite bool_decide_eq_true_2; eauto|].
    left. rewrite bool_decide_eq_false_2 by apply owner_ne_free.
    rewrite bool_decide_eq_false_2; [done|]. by intros [_ E]%ArenaOwnerKey_inj.
  - intros j Hp. rewrite He. case_bool_decide; [by eexists|].
    rewrite bool_decide_eq_false_2; [done|]. intros E. by eapply (owner_ne_free node id j).
  - intros k Hk Hn. rewrite He. case_bool_decide as E; [subst k; discriminate Hk|]. by case_bool_decide.
  - intros k Hk Hf. rewrite He, !bool_decide_eq_false_2; [done| |]; intros ->.
    + by eapply Hk.
    + unfold FreeArenaKey in Hf. by rewrite has_prefix_app in Hf.
  - intros k x. rewrite He. repeat case_bool_decide; [|done|]; intros Hx; [left|by right]. by injection Hx as <-.
Qed.

(** The loop of [ReleaseArena] on a server that answers. *)
Lemma wpx_release_all node kvs acc (Q : list Z * option err → mvcc * unit → Prop) m :
  node ≠ [] → mvcc_wf m → Forall (λ x, ∃ id, is_u64 id ∧ x.1 = ArenaOwnerKey node id) kvs →
  (∀ rel ids m', map fst kvs = map (ArenaOwnerKey node) ids → arenas_returned node ids m m' → Q (rel, None) (m', tt)) →
  wpx (release_all node kvs acc) Q m.
Proof.
  intros Hn. revert m acc Q. induction kvs as [|[k e] kvs IH]; intros m acc Q Hw Hks HQ.
  { apply wpx_ret, (HQ _ []); [done|]. by apply arenas_returned_nil. }
  apply Forall_cons in Hks as [(id & Hid & Hk) Hks]. cbn [fst] in Hk. subst k. cbn [release_all].
  rewrite ArenaKey_parse, bool_decide_eq_false_2 by done. apply wpx_bind. unfold ReleaseArenaID.
  assert (∀ rel m1, arenas_returned node [id] m m1 → wpx (release_all node kvs rel) Q m1) as Hgo.
  { intros rel m1 H1. apply IH; [apply H1|done|]. intros rel' ids m' E H'. apply (HQ _ (id :: ids)); [cbn; by rewrite E|].
    by apply (arenas_returned_app _ [id] ids m m1). }
  apply wpx_txnRaw.
  - apply raw_valid; [|simpl; lia|simpl; lia|by repeat constructor].
    apply (ops_distinct_dels [_] [_]); [by repeat constructor|by repeat constructor|apply NoDup_singleton|].
    intros k d ->%list_elem_of_singleton ->%list_elem_of_singleton. by apply bool_decide_eq_false_2.
  - intros _. by apply Hgo, release_one.
  - cbn [forallb]. rewrite andb_true_r. intros Hf. apply Hgo.
    assert (val_at (ArenaOwnerKey node id) m = None) as Hnone.
    { apply val_at_None. destruct (mkvs m !! ArenaOwnerKey node id) as [e'|] eqn:Ek; [|done].
      rewrite (proj2 (eval_key_exists m Hw _)) in Hf by eauto. done. }
    split; [done|]. split; [by intros j ->%list_elem_of_singleton|]. split; [by left|]. repeat split; auto.
Qed.

Lemma arena_prefix_sub node k : has_prefix (ArenaNodePrefix node) k = true → has_prefix PrefixArena k = true.
Proof. rewrite !has_prefix_true. intros [t ->]. exists (node ++ [slash] ++ t). unfold ArenaNodePrefix. by rewrite <- !app_assoc. Qed.

Lemma owner_has_node_prefix node id : has_prefix (ArenaNodePrefix node) (ArenaOwnerKey node id) = true.
Proof. apply has_prefix_true. exists (fmt_uint id). unfold ArenaNodePrefix, ArenaOwnerKey. by rewrite <- !app_assoc. Qed.

(** Nothing of [node] is left, and the pool has what it held. *)
Definition arenas_gone (node : bytes) (m m' : mvcc) : Prop :=
  (∀ k, has_prefix (ArenaNodePrefix node) k = true → val_at k m' = None) ∧
  (∀ id, is_u64 id → owned m node id → pooled m' id).

Lemma arenas_returned_gone node ids m m' :
  arenas_canonical node m → map fst (range_kvs (RPrefix (ArenaNodePrefix node)) m) = map (ArenaOwnerKey node) ids →
  arenas_returned node ids m m' → arenas_gone node m m'.
Proof.
  intros Hcanon Hids (_ & G & O & _ & A & _).
  assert (∀ k, has_prefix (ArenaNodePrefix node) k = true → val_at k m' = None) as Hgone.
  { intros k Hk. destruct (val_at k m) as [x|] eqn:Ek; [|by eapply A; [eapply arena_prefix_sub|]].
    destruct (Hcanon k) as (id & Hid & ->); [by eexists|done|].
    assert (ArenaOwnerKey node id ∈ map (ArenaOwnerKey node) ids) as (id' & E & Hid')%list_elem_of_fmap.
    { rewrite <- Hids. destruct x as [v l']. apply val_at_Some in Ek as (e & He' & _).
      apply list_elem_of_fmap. exists (ArenaOwnerKey node id, e). split; [done|]. by apply elem_of_range_prefix. }
    rewrite E. by apply G. }
  split; [done|]. intros id Hid [Ho|]%O; [|done|done]. unfold owned in Ho. rewrite Hgone in Ho; [by destruct Ho|].
  apply owner_has_node_prefix.
Qed.

(** [ReleaseArena] on a server that answers. *)
Lemma wpx_ReleaseArena s node (Q : list Z * option err → mvcc * unit → Prop) m :
  node ≠ [] → mvcc_wf m → arenas_canonical node m →
  (∀ rel ids m', arenas_returned node ids m m' → arenas_gone node m m' → Q (rel, None) (m', tt)) →
  wpx (ReleaseArena s node) Q m.
Proof.
  intros Hn Hw Hcanon HQ. apply wpx_bind, wpx_GetPrefix. cbn [fst]. apply wpx_release_all; [done|done| |].
  { apply Forall_forall. intros [k e0] [Hk Hp]%elem_of_range_prefix. apply Hcanon; [apply val_at_is_Some; by eexists|done]. }
  intros rel ids m' Hids Hret. eapply HQ; [done|]. by eapply arenas_returned_gone.
Qed.

(** ** Leaving *)

(** A lease under which nothing is stored changes nothing when it ends. *)
Lemma val_at_expire l m k : (∀ x, val_at k m = Some x → x.2 ≠ l ∨ l = 0) → val_at k (mvcc_expire l m) = val_at k m.
Proof.
  intros H. destruct (val_at k m) as [[v l']|] eqn:E.
  - apply val_at_Some in E as (e & He & <- & <-). apply val_at_Some. exists e. rewrite mvcc_expire_lookup. naive_solver.
  - apply val_at_None. apply val_at_None in E. destruct (mkvs (mvcc_expire l m) !! k) as [e|] eqn:Ee; [|done].
    apply mvcc_expire_lookup in Ee as [Ee _]. congruence.
Qed.

Lemma rfc3339_nonempty t : rfc3339 t ≠ [].
Proof. unfold rfc3339. destruct (civil_from_days _) as [[y mo] d]. intros [_ E]%app_eq_nil. discriminate E. Qed.

(** What leaving leaves behind. *)
Definition left_cluster (node : bytes) (m m' : mvcc) : Prop :=
  (∃ t, val_at (DepartedKey node) m' = Some (rfc3339 t, 0)) ∧ val_at (MembershipKey node) m' = None ∧
  arenas_gone node m m'.

Section leave.
Context (node : bytes) (l : Z) (m : mvcc).
Context (Hmember : is_Some (val_at (MembershipKey node) m)).
Context (Hlease : ∀ k x, val_at k m = Some x → x.2 = l → l ≠ 0 → k = MembershipKey node).

(** Once every record is back, the departure is announced. *)
Lemma wpx_announce ids m1 (Q : result bool → mvcc * unit → Prop) :
  arenas_returned node ids m m1 → arenas_gone node m m1 →
  (∀ m2, left_cluster node m m2 → (∀ k x, val_at k m2 = Some x → x.2 ≠ l ∨ l = 0) → Q (Ok true) (m2, tt)) →
  wpx (MarkDeparted node) Q m1.
Proof.
  intros Hret [Hgone Hpool] HQ. pose proof Hret as (W1 & _ & _ & _ & _ & _ & L1). unfold MarkDeparted. apply wpx_bind, wpx_now. intros t. cbn [fst].
  apply wpx_txnRaw.
  - apply raw_valid; [|simpl; lia|simpl; lia|by repeat constructor]. apply ops_distinct_intro; [apply NoDup_singleton|].
    intros k o ->%list_elem_of_singleton [->|Ho]%elem_of_cons; [done|]. apply list_elem_of_singleton in Ho as ->.
    by apply bool_decide_eq_false_2.
  - intros _. set (m2 := (mvcc_ops m1 _).1).
    assert (∀ k, val_at k m2 = if bool_decide (k = MembershipKey node) then None
              else if bool_decide (k = DepartedKey node) then Some (rfc3339 t, 0) else val_at k m1) as He.
    { intros k. unfold m2. rewrite val_at_ops. effects. by repeat case_bool_decide. }
    apply HQ; [|].
    + split; [exists t; by rewrite He, bool_decide_eq_false_2, bool_decide_eq_true_2|]. split; [by rewrite He, bool_decide_eq_true_2|]. split.
      * intros k Hk. rewrite He, (Hgone k Hk). case_bool_decide; [done|]. rewrite bool_decide_eq_false_2; [done|].
        intros ->. by apply arena_prefix_sub in Hk.
      * intros id Hid Ho. unfold pooled. rewrite He, !bool_decide_eq_false_2 by done. by apply Hpool.
    + intros k x. rewrite He. case_bool_decide as Em; [done|]. case_bool_decide; [intros [= <-]; cbn; lia|].
      intros [H0|Hx]%L1; [lia|]. destruct (decide (l = 0)); [by right|left]. intros Hl. by apply Em, (Hlease k x).
  - cbn [forallb fst]. rewrite andb_true_r. rewrite (proj2 (eval_key_exists m1 W1 _)); [done|].
    apply val_at_is_Some. by rewrite (arenas_returned_other _ _ _ _ _ Hret).
Qed.
End leave.

(** A node that leaves on purpose on a server that answers, while it is
    still a member, returns every arena it holds to the pool, and every
    controller that sees it gone then leaves it alone. *)
Theorem leave_is_not_fenced `{E : Etcd, !ReliableEtcd E} s c mem srv
  (Hnode : m_nodeID mem ≠ []) (Hwf : mvcc_wf (eview srv))
  (Hmember : is_Some (val_at (MembershipKey (m_nodeID mem)) (eview srv)))
  (Hcanon : arenas_canonical (m_nodeID mem) (eview srv))
  (Hlease : ∀ k x, val_at k (eview srv) = Some x → x.2 = leaseID mem → leaseID mem ≠ 0 → k = MembershipKey (m_nodeID mem)) :
  let '(srv', (mem', (_, e))) := run (Leave mem s) srv in
  e = None ∧ alive mem' = false ∧
  (∀ id, is_u64 id → owned (eview srv) (m_nodeID mem) id → pooled (eview srv') id) ∧
  (run (departedCleanly c (m_nodeID mem)) srv').2 = true.
Proof.
  set (node := m_nodeID mem) in *. set (m := eview srv) in *.
  pose proof (wp_run_reliable (Leave mem s) (λ x m', x.2.2 = None ∧ alive x.1 = false ∧ left_cluster node m m') srv) as Hrun.
  destruct (run (Leave mem s) srv) as [srv' [mem' [rel e]]]. cbn [fst snd] in Hrun. destruct Hrun as (He & Ha & Hleft).
  - fold m. unfold Leave. fold node. apply wpx_bind, wpx_ReleaseArena; [done|done|done|].
    intros rel' ids m1 Hret Hgone. cbn [fst snd]. apply wpx_bind, wpx_bind.
    eapply (wpx_announce node (leaseID mem) m); try done. intros m2 Hl Hx. apply wpx_ret. cbn [fst].
    apply wpx_bind. unfold revokeLease. destruct (negb (leaseID mem =? 0)).
    + apply wpx_bind, wpx_revoke, wpx_ret, wpx_ret. cbn [fst snd]. split; [done|]. split; [done|].
      unfold left_cluster, arenas_gone, owned, pooled in *. repeat setoid_rewrite (λ k, val_at_expire (leaseID mem) m2 k (Hx k)). done.
    + apply wpx_ret, wpx_ret. done.
  - cbn [fst snd] in *. split; [done|]. split; [done|]. destruct Hleft as ((t & Hd) & _ & Hno & Hp). split; [done|].
    pose proof (wp_run_reliable (departedCleanly c node) (λ b _, b = true) srv') as Hrun. apply Hrun; clear Hrun.
    unfold departedCleanly, HasDeparted, OwnsArenas. apply wpx_bind, wpx_ebind, wpx_Get, wpx_ret. cbn [fst].
    rewrite stored_val_at, Hd. destruct (rfc3339 t) eqn:Et; [by apply rfc3339_nonempty in Et|].
    apply wpx_bind, wpx_ebind, wpx_GetPrefix, wpx_ret. cbn [fst]. apply wpx_ret.
    destruct (range_kvs (RPrefix (ArenaNodePrefix node)) (eview srv')) as [|[k e0] kvs] eqn:Er; [done|]. exfalso.
    assert ((k, e0) ∈ range_kvs (RPrefix (ArenaNodePrefix node)) (eview srv')) as [Hk Hpre]%elem_of_range_prefix by (rewrite Er; left).
    apply Hno, val_at_None in Hpre. congruence.
Qed.

(** ** Registering *)

Lemma wpx_deleteRaw k (Q : result unit → mvcc * unit → Prop) m :
  Q (Ok tt) ((mvcc_ops m [OpDelete k false]).1, tt) → wpx (deleteRaw k) Q m.
Proof. intros HQ. apply wpx_bind. intros σ1 m2 a <- [-> ->]. exists tt. split; [done|]. intros σ3 <-. by apply wpx_ret. Qed.

Lemma wpx_putRaw k v l (Q : result Z → mvcc * unit → Prop) m :
  op_lease_live m (OpPut k v l) = true → (∀ rev, Q (Ok rev) ((mvcc_ops m [OpPut k v l]).1, tt)) → wpx (putRaw k v l) Q m.
Proof.
  intros Hl HQ. apply wpx_bind. intros σ1 m2 a <- Ha. simpl in Ha. simpl in Hl. rewrite Hl in Ha. destruct Ha as [-> ->].
  exists tt. split; [done|]. intros σ3 <-. apply wpx_ret, HQ.
Qed.

Lemma wpx_grant ttl (Q : result Z → mvcc * unit → Prop) m :
  (∀ l, 0 < l → l ∉ mleases m → (∀ k x, val_at k m = Some x → x.2 ≠ l) →
     Q (Ok l) (MVCC (mrev m) (mkvs m) (mleases m ∪ {[l]}), tt)) → wpx (GrantLease ttl) Q m.
Proof.
  intros HQ. apply wpx_bind. intros σ1 m2 a <- (l & Hp & Hn & Hk & -> & ->). exists tt. split; [done|].
  intros σ3 <-. apply wpx_ret, HQ; [done|done|]. intros k [v l'] (e & He & _ & <-)%val_at_Some. by apply (Hk k).
Qed.

(** Registering on a server that answers publishes the node's membership
    under a fresh lease and drops the intent, the completion mark and the
    departure marker of an earlier departure; no other key moves. *)
Theorem register_clears_departure `{E : Etcd, !ReliableEtcd E} marshal mem srv
  (Hmarshal : ∀ r, is_Some (marshal r)) :
  let node := m_nodeID mem in
  let '(srv', (mem', r)) := run (grantAndRegister marshal mem) srv in
  ∃ lease v, r = Ok lease ∧ lease ∉ mleases (eview srv) ∧ lease ∈ mleases (eview srv') ∧
    alive mem' = true ∧ leaseID mem' = lease ∧
    ∀ k, val_at k (eview srv') =
      if bool_decide (k = MembershipKey node) then Some (v, lease)
      else if bool_decide (k = FencePendingKey node) || bool_decide (k = FenceDoneKey node) || bool_decide (k = DepartedKey node)
      then None else val_at k (eview srv).
Proof.
  intros node. set (m := eview srv).
  pose proof (wp_run_reliable (grantAndRegister marshal mem) (λ x m', ∃ lease v, x.2 = Ok lease ∧ lease ∉ mleases m ∧
    lease ∈ mleases m' ∧ alive x.1 = true ∧ leaseID x.1 = lease ∧ ∀ k, val_at k m' =
      if bool_decide (k = MembershipKey node) then Some (v, lease)
      else if bool_decide (k = FencePendingKey node) || bool_decide (k = FenceDoneKey node) || bool_decide (k = DepartedKey node)
      then None else val_at k m) srv) as Hrun.
  destruct (run (grantAndRegister marshal mem) srv) as [srv' [mem' r]]. apply Hrun; clear Hrun. fold m.
  unfold grantAndRegister. fold node. apply wpx_bind, wpx_grant. intros l Hl Hfresh _. cbn [fst].
  apply wpx_bind, wpx_now. intros now. destruct (Hmarshal (mkMembershipRecord node (m_cluster mem) now (m_instanceID mem))) as [v ->].
  cbn [fst]. apply wpx_bind, wpx_putRaw.
  { simpl. rewrite bool_decide_eq_true_2; [by destruct (l =? 0)|]. set_solver. }
  intros rev. cbn [fst]. do 3 (apply wpx_bind, wpx_deleteRaw; cbn [fst]). apply wpx_bind, wpx_now. intros t. apply wpx_ret.
  cbn [fst snd]. exists l, v. split; [done|]. split; [done|]. split; [rewrite !mvcc_ops_leases; set_solver|]. split; [done|].
  split; [done|]. intros k. rewrite !val_at_ops. effects. repeat case_bool_decide; try done; subst; discriminate.
Qed.

(** ** The watchdog's window *)

(** A tick decides by [watchdog_fires], with the clock readings it got. *)
Lemma watchdog_tick_fires `{E : Etcd} mem ttl srv :
  ∃ now1 now2, (run (watchdog_tick mem ttl) srv).2 = watchdog_fires mem ttl now1 now2.
Proof.
  unfold watchdog_tick, watchdog_fires, IsAlive, alive_at, call. destruct (alive mem), (lastAlive mem) as [t|]; cbn.
  - destruct (eserve QNow _) as [srv1 now1]. exists now1. cbn. destruct (now1 - t <=? leaseTTL mem); [by exists 0|].
    cbn. destruct (eserve QNow _) as [srv2 now2]. by exists now2.
  - by exists 0, 0.
  - destruct (eserve QNow _) as [srv1 now1]. by exists 0, now1.
  - by exists 0, 0.
Qed.

(** A node whose last renewal was at [t] and is never renewed again, with
    a watchdog that ticks every [ttl] and first ticks within one of [t],
    fences itself at some tick no later than [3 * ttl] after [t], and at no tick
    before [2 * ttl] after it. *)
Theorem watchdog_window mem t first
  (Httl : 0 < leaseTTL mem) (Hlast : lastAlive mem = Some t) (Hfirst : t <= first <= t + leaseTTL mem) :
  let tick i := first + Z.of_nat i * leaseTTL mem in
  let fires i := watchdog_fires mem (leaseTTL mem) (tick i) (tick i) in
  (∀ i, fires i = true → t + 2 * leaseTTL mem < tick i) ∧
  (∃ i, fires i = true ∧ tick i <= t + 3 * leaseTTL mem).
Proof.
  intros tick fires. unfold fires, watchdog_fires, alive_at, SelfFenceWindow. rewrite Hlast. split.
  - intros i. case_if; [done|]. intros ?%Z.ltb_lt. lia.
  - assert (∀ i, t + 2 * leaseTTL mem < tick i →
      (if alive mem && (tick i - t <=? leaseTTL mem) then false else 2 * leaseTTL mem <? tick i - t) = true) as Hf.
    { intros i Hi. rewrite (proj2 (Z.leb_gt _ _)) by lia. rewrite andb_false_r. apply Z.ltb_lt. lia. }
    unfold tick in *. destruct (decide (first = t)) as [->|Hne].
    + exists 3%nat. split; [apply Hf|]; lia.
    + exists 2%nat. split; [apply Hf|]; lia.
Qed.

(** ** Concrete nodes *)

Definition member : Membership := mkMembership demo_node (lit "c") (10 * nanos_per_second) [] 7 true (Some 0).
Definition member_srv : ref_srv :=
  RefSrv (MVCC 5 {[ MembershipKey demo_node := KV (lit "{}") 2 5 7; ArenaOwnerKey demo_node 3 := KV (EncodeUint64 3) 3 3 0;
                    PrefixArenaLog := KV (EncodeUint64 4) 3 3 0 ]} {[7]}) 100.

Lemma member_keys k e : mkvs (rs_store member_srv) !! k = Some e →
  (k = MembershipKey demo_node ∧ e = KV (lit "{}") 2 5 7) ∨
  (k = ArenaOwnerKey demo_node 3 ∧ e = KV (EncodeUint64 3) 3 3 0) ∨ (k = PrefixArenaLog ∧ e = KV (EncodeUint64 4) 3 3 0).
Proof. intros He. cbn [member_srv rs_store mkvs] in He. rewrite !lookup_insert_Some, lookup_singleton_Some in He. naive_solver. Qed.

Lemma leave_is_not_fenced_witness :
  let '(srv', (mem', (_, e))) := @run ref_etcd _ (Leave member demo_store) member_srv in
  e = None ∧ alive mem' = false ∧
  (∀ id, is_u64 id → owned (rs_store member_srv) demo_node id → pooled (@eview ref_etcd srv') id) ∧
  (@run ref_etcd _ (departedCleanly (mkController demo_store (nodeID demo_store) true 0) demo_node) srv').2 = true.
Proof.
  apply (@leave_is_not_fenced ref_etcd _ demo_store (mkController demo_store (nodeID demo_store) true 0) member member_srv).
  - discriminate.
  - apply wf_check_ok. vm_compute. reflexivity.
  - eexists. vm_compute. reflexivity.
  - intros k [x Hx] Hp. destruct x as [v l]. apply val_at_Some in Hx as (e & He & _).
    apply member_keys in He as [[-> _]|[[-> _]|[-> _]]]; [discriminate Hp| |discriminate Hp].
    exists 3. split; [unfold is_u64; lia|reflexivity].
  - intros k [v l] Hx Hl _. apply val_at_Some in Hx as (e & He & _ & Hle). cbn in Hl.
    apply member_keys in He as [[-> _]|[[_ ->]|[_ ->]]]; [reflexivity| |]; cbn in Hle; congruence.
Defined.

Lemma register_clears_departure_witness :
  alive (@run ref_etcd _ (grantAndRegister (λ _, Some (lit "{}")) member) member_srv).2.1 = true.
Proof.
  pose proof (@register_clears_departure ref_etcd _ (λ _, Some (lit "{}")) member member_srv) as H.
  destruct (@run ref_etcd _ _ _) as [srv' [mem' r]].
  destruct H as (lease & v & _ & _ & _ & Ha & _); [intros rec; eexists; reflexivity|exact Ha].
Defined.

Lemma watchdog_window_witness : ∃ i,
  watchdog_fires member (leaseTTL member) (nanos_per_second + Z.of_nat i * leaseTTL member)
    (nanos_per_second + Z.of_nat i * leaseTTL member) = true.
Proof.
  destruct (watchdog_window member 0 nanos_per_second) as [_ (i & Hi & _)].
  - reflexivity.
  - reflexivity.
  - unfold nanos_per_second. cbn. unfold nanos_per_second. lia.
  - exists i. exact Hi.
Defined.
