(* ===== verification/FenceProps.v ===== *)
(** * A fence and a sweep run to their end

    On a server that answers, a fence of a node that is owed one ends with the
    device cut refused and nothing changed, or with the node fenced: its
    generation bumped once, its arenas back in the pool, the fence marked
    complete and neither intent nor claim left.  The periodic sweep therefore
    settles every node it considers, whatever order it takes them in and
    whatever the others' fences do. *)

From S2P Require Import Prelude Etcd EtcdFacts Schema Store StoreLogic StoreProps Extents Allocator ArenaPool ArenaProps InodeTimes Dirents NamespaceProps FenceRecords Membership Controller ControllerProps MembershipProps.

(** ** What a fence reads *)

(** The generation [GetGeneration] reports: a node that never started has
    none stored and counts as 0. *)
Definition has_generation (m : mvcc) (node : bytes) (g : Z) : Prop :=
  is_u64 g ∧ ((val_at (GenKey node) m = None ∧ g = 0) ∨ ∃ l, val_at (GenKey node) m = Some (fmt_uint g, l)).

Lemma has_generation_same m m' node g :
  val_at (GenKey node) m' = val_at (GenKey node) m → has_generation m node g → has_generation m' node g.
Proof. unfold has_generation. by intros ->. Qed.

Lemma wpx_GetGeneration_of s node g m (Q : result Z → mvcc * unit → Prop) :
  has_generation m node g → Q (Ok g) (m, tt) → wpx (GetGeneration s node) Q m.
Proof.
  intros [Hu [[Hn ->]|[l Hs]]] HQ.
  - apply wpx_ebind, wpx_Get, wpx_ret. by rewrite stored_val_at, Hn.
  - apply (wpx_GetGeneration _ _ _ g); [done| |done]. apply val_at_Some in Hs as (e & He & Hv & _). eauto.
Qed.

Lemma wpx_BumpGeneration s node g m (Q : result Z → mvcc * unit → Prop) :
  mvcc_wf m → has_generation m node g →
  Q (Ok (add64 g 1)) ((mvcc_ops m [put (GenKey node) (fmt_uint (add64 g 1))]).1, tt) →
  wpx (BumpGeneration s node g) Q m.
Proof.
  intros Hw [Hu Hg] HQ.
  assert (∀ ifs, (length ifs <= 127)%nat → txn_valid m ifs [put (GenKey node) (fmt_uint (add64 g 1))] [] = true) as Hv.
  { intros ifs Hl. apply raw_valid; [done|done|simpl; lia|by repeat constructor]. }
  assert (∀ k, forallb (eval_cmp (mkvs m)) [k] = eval_cmp (mkvs m) k) as Hone by (intros; apply andb_true_r).
  unfold BumpGeneration. apply wpx_ebind, wpx_txnRaw; [apply Hv; simpl; lia| |]; rewrite Hone; intros Hc; cbn [fst].
  { by apply wpx_ebind, wpx_ret, wpx_ret. }
  destruct Hg as [[Hn ->]|[l Hs]].
  - apply wpx_ebind, wpx_txnRaw; [apply Hv; simpl; lia|by intros _; apply wpx_ret|].
    rewrite Hone. rewrite (proj2 (eval_key_absent m Hw _)) by (by apply val_at_None). done.
  - apply val_at_Some in Hs as (e & He & Hval & _). by rewrite (proj2 (eval_value_is m _ _)) in Hc by eauto.
Qed.

(** Whether the incarnation a fence started against is still the one gone. *)
Definition same_now (m : mvcc) (node : bytes) (rev : option Z) : Prop :=
  match rev with
  | Some r => intent_rev m node = Some r
  | None => val_at (MembershipKey node) m = None
  end.

Lemma wpx_intent node m (Q : result (option Z) → mvcc * unit → Prop) :
  Q (Ok (intent_rev m node)) (m, tt) → wpx (FenceIntentRevision node) Q m.
Proof.
  intros HQ. apply wpx_bind. intros σ1 m2 a <- [-> ->]. exists tt. split; [done|]. intros σ3 <-. apply wpx_ret.
  unfold intent_rev in HQ. cbn [range_kvs fst]. by destruct (mkvs m !! FencePendingKey node).
Qed.

Lemma wpx_sameIncarnation s node rev m (Q : bool → mvcc * unit → Prop) :
  same_now m node rev → Q true (m, tt) → wpx (sameIncarnation s node rev) Q m.
Proof.
  intros Hs HQ. destruct rev as [r|]; cbn [same_now] in Hs; unfold sameIncarnation.
  - apply wpx_bind, wpx_intent. rewrite Hs. apply wpx_ret. by rewrite Z.eqb_refl.
  - apply wpx_bind, wpx_Get, wpx_ret. by rewrite stored_val_at, Hs.
Qed.

(** A listing by what follows a prefix. *)
Lemma elem_of_suffixes p m n v : (n, v) ∈ suffixes p (range_kvs (RPrefix p) m) ↔ fst <$> val_at (p ++ n) m = Some v.
Proof.
  unfold suffixes. rewrite list_elem_of_fmap. split.
  - intros ([k e] & [= -> ->] & [Hk Hp]%elem_of_range_prefix). apply has_prefix_true in Hp as [t ->].
    cbn [fst]. rewrite drop_app_length. unfold val_at. by rewrite Hk.
  - intros ([v' l] & (e & He & <- & _)%val_at_Some & ->)%fmap_Some. exists (p ++ n, e). cbn. rewrite drop_app_length.
    split; [done|]. apply elem_of_range_prefix. split; [done|]. apply has_prefix_app.
Qed.

Lemma suffixes_map_lookup p m n :
  (list_to_map (rev (suffixes p (range_kvs (RPrefix p) m))) : gmap bytes bytes) !! n = fst <$> val_at (p ++ n) m.
Proof.
  assert (∀ x (l : list (bytes * bytes)), x ∈ rev l ↔ x ∈ l) as Hrev by (intros; rewrite !list_elem_of_In; symmetry; apply in_rev).
  destruct (list_to_map _ !! n) as [v|] eqn:E.
  - apply elem_of_list_to_map_2 in E. by apply Hrev, elem_of_suffixes in E.
  - destruct (fst <$> val_at (p ++ n) m) as [v|] eqn:Ev; [|done]. exfalso. apply not_elem_of_list_to_map_2 in E.
    apply E, list_elem_of_fmap. exists (n, v). split; [done|]. by apply Hrev, elem_of_suffixes.
Qed.

Lemma elem_of_suffix_names p m n : n ∈ map fst (suffixes p (range_kvs (RPrefix p) m)) ↔ is_Some (val_at (p ++ n) m).
Proof.
  rewrite list_elem_of_fmap. split.
  - intros ([n' v] & E & Hin%elem_of_suffixes). cbn in E. subst n'. apply fmap_Some in Hin as (x & Hx & _). rewrite Hx. by eexists.
  - intros [[v l] Hx]. exists (n, v). split; [done|]. apply elem_of_suffixes. by rewrite Hx.
Qed.

Lemma wpx_ListFenceIntents (s : Store) (m : mvcc) (Q : result (gmap bytes bytes) → mvcc * unit → Prop) :
  (∀ intents : gmap bytes bytes, (∀ n, intents !! n = fst <$> val_at (FencePendingKey n) m) → Q (Ok intents) (m, tt)) →
  wpx (ListFenceIntents s) Q m.
Proof. intros HQ. apply wpx_ebind, wpx_GetPrefix, wpx_ret, HQ. intros n. apply suffixes_map_lookup. Qed.

(** ** What a fence writes *)

Definition fence_key (node k : bytes) : Prop :=
  k = GenKey node ∨ k = FenceDoneKey node ∨ k = FencePendingKey node ∨ k = FenceClaimKey node.

(** What a fence of [node] leaves alone: every key but its own records, its
    arenas and the pool; the pool only grows and no arena record appears. *)
Record fence_frame (node : bytes) (m m' : mvcc) : Prop := FenceFrame {
  ff_wf : mvcc_wf m';
  ff_keys k : ¬ fence_key node k → (∀ id, is_u64 id → k ≠ ArenaOwnerKey node id) →
    has_prefix PrefixFreeArena k = false → val_at k m' = val_at k m;
  ff_arenas k : has_prefix PrefixArena k = true → val_at k m = None → val_at k m' = None;
  ff_pool id : pooled m id → pooled m' id
}.

Lemma fence_frame_refl node m : mvcc_wf m → fence_frame node m m.
Proof. by split. Qed.

Lemma fence_frame_trans node m1 m2 m3 : fence_frame node m1 m2 → fence_frame node m2 m3 → fence_frame node m1 m3.
Proof. intros [W1 K1 A1 P1] [W2 K2 A2 P2]. split; [done| | |]; eauto. intros k Hf Ha Hp. by rewrite K2, K1. Qed.

(** A step that changes the fence records of [node] at most. *)
Lemma fence_frame_records node m m' :
  mvcc_wf m' → (∀ k, ¬ fence_key node k → val_at k m' = val_at k m) → fence_frame node m m'.
Proof.
  intros Hw Hk. split; [done|auto| |].
  - intros k Ha Hn. rewrite Hk; [done|]. by intros [->|[->|[->| ->]]].
  - intros id. unfold pooled. rewrite Hk; [done|]. by intros [?|[?|[?|?]]].
Qed.

Lemma fence_frame_returned node ids m m' : arenas_returned node ids m m' → fence_frame node m m'.
Proof. intros (W & _ & _ & P & A & K & _). by split; auto. Qed.

(** Arena records are keys of no other kind. *)
Lemma arena_not_fence_key node k : has_prefix PrefixArena k = true ∨ has_prefix PrefixFreeArena k = true → ¬ fence_key node k.
Proof. intros H [->|[->|[->| ->]]]; destruct H as [H|H]; discriminate H. Qed.

(** A node fenced from generation [g]. *)
Record fenced_to (fencer : bool) (node : bytes) (g : Z) (m m' : mvcc) : Prop := FencedTo {
  ft_gen : val_at (GenKey node) m' = Some (fmt_uint (add64 g 1), 0);
  ft_done : val_at (FenceDoneKey node) m' = Some (fmt_uint (add64 g 1), 0);
  ft_intent : val_at (FencePendingKey node) m' = None;
  ft_arenas : if fencer then arenas_gone node m m'
              else ∀ id, is_u64 id → val_at (ArenaOwnerKey node id) m' = val_at (ArenaOwnerKey node id) m
}.

(** What reclaiming does, with and without a fencer. *)
Definition reclaimed (fencer : bool) (node : bytes) (m m' : mvcc) : Prop :=
  if fencer then ∃ ids, arenas_returned node ids m m' ∧ arenas_gone node m m' else mvcc_wf m ∧ m' = m.

Lemma reclaimed_frame f node m m' : reclaimed f node m m' → fence_frame node m m'.
Proof.
  destruct f; cbn; [|intros [? ->]; by apply fence_frame_refl]. intros (ids & H & _). by eapply fence_frame_returned.
Qed.

Lemma reclaimed_leases f node m m' k x : reclaimed f node m m' → val_at k m' = Some x → x.2 = 0 ∨ val_at k m = Some x.
Proof. destruct f; cbn; [|intros [_ ->]; auto]. intros (ids & (_ & _ & _ & _ & _ & _ & L) & _). apply L. Qed.

Lemma arenas_gone_same node m m1 m2 m3 :
  (∀ k, has_prefix PrefixArena k = true ∨ has_prefix PrefixFreeArena k = true → val_at k m1 = val_at k m) →
  (∀ k, has_prefix PrefixArena k = true ∨ has_prefix PrefixFreeArena k = true → val_at k m3 = val_at k m2) →
  arenas_gone node m1 m2 → arenas_gone node m m3.
Proof.
  intros H1 H3 [G P]. split.
  - intros k Hk. rewrite H3; [auto|]. left. by eapply arena_prefix_sub.
  - intros id Hid Ho. unfold pooled, owned in *. rewrite H3 by (right; apply has_prefix_app). apply P; [done|].
    rewrite H1; [done|]. left. apply owner_is_arena.
Qed.

(** ** One fence *)

Lemma intent_rev_put m node k v l :
  k ≠ FencePendingKey node → intent_rev (mvcc_ops m [OpPut k v l]).1 node = intent_rev m node.
Proof.
  intros Hk. unfold intent_rev. rewrite mvcc_ops_kvs. cbn [apply_ops apply_op fst snd]. unfold put_kv. by rewrite lookup_insert_ne.
Qed.

Lemma same_now_put m node rev k v l :
  k ≠ FencePendingKey node → k ≠ MembershipKey node → same_now m node rev → same_now (mvcc_ops m [OpPut k v l]).1 node rev.
Proof.
  intros Hp Hm. destruct rev as [r|]; cbn [same_now]; [by rewrite intent_rev_put|]. intros Hn. rewrite val_at_ops. effects.
  by rewrite bool_decide_eq_false_2.
Qed.

Lemma canonical_mono node m m' :
  (∀ k, has_prefix PrefixArena k = true → val_at k m = None → val_at k m' = None) →
  arenas_canonical node m → arenas_canonical node m'.
Proof.
  intros H Hc k [x Hx] Hp. apply Hc; [|done]. destruct (val_at k m) eqn:E; [by eexists|].
  rewrite H in Hx; [done|by eapply arena_prefix_sub|done].
Qed.

(** The end of a fence. *)
Lemma fence_records f node g m1 m2 m3 :
  let gen := fmt_uint (add64 g 1) in
  mvcc_wf m1 → m2 = (mvcc_ops m1 [put (GenKey node) gen]).1 → reclaimed f node m2 m3 →
  let m4 := (mvcc_ops (mvcc_ops m3 [OpPut (FenceDoneKey node) gen 0]).1 [OpDelete (FencePendingKey node) false]).1 in
  fenced_to f node g m1 m4 ∧ fence_frame node m1 m4 ∧ (∀ k x, val_at k m4 = Some x → x.2 = 0 ∨ val_at k m1 = Some x) ∧
  val_at (FenceClaimKey node) m4 = val_at (FenceClaimKey node) m1.
Proof.
  intros gen W1 E2 Hr m4. pose proof (reclaimed_frame _ _ _ _ Hr) as Hf.
  assert (∀ k, val_at k m2 = if bool_decide (k = GenKey node) then Some (gen, 0) else val_at k m1) as H2.
  { intros k. subst m2. rewrite val_at_ops. effects. by case_bool_decide. }
  assert (∀ k, val_at k m4 = if bool_decide (k = FencePendingKey node) then None
    else if bool_decide (k = FenceDoneKey node) then Some (gen, 0) else val_at k m3) as H4.
  { intros k. unfold m4. rewrite !val_at_ops. effects. by repeat case_bool_decide. }
  assert (mvcc_wf m2 ∧ mvcc_wf m4) as [W2 W4].
  { split; [subst m2; by apply mvcc_ops_wf|]. by apply mvcc_ops_wf, mvcc_ops_wf, Hf. }
  assert (∀ k, ¬ fence_key node k → val_at k m2 = val_at k m1 ∧ val_at k m4 = val_at k m3) as Hother.
  { unfold fence_key. intros k Hk. rewrite H2, H4, !bool_decide_eq_false_2; naive_solver. }
  assert (∀ k, (∃ t, k = PrefixGen ++ t ∨ k = PrefixFenceClaim ++ t) → val_at k m3 = val_at k m2) as H3.
  { intros k Hk. destruct f; [|by destruct Hr as [_ ->]]. destruct Hr as (ids & Hret & _).
    by apply (arenas_returned_other _ _ _ _ _ Hret); destruct Hk as [t [->| ->]]. }
  split; [|split; [|split]].
  - split.
    + rewrite H4, !bool_decide_eq_false_2, H3 by eauto. by rewrite H2, bool_decide_eq_true_2.
    + by rewrite H4, bool_decide_eq_false_2, bool_decide_eq_true_2.
    + by rewrite H4, bool_decide_eq_true_2.
    + assert (∀ k, has_prefix PrefixArena k = true ∨ has_prefix PrefixFreeArena k = true →
        val_at k m2 = val_at k m1 ∧ val_at k m4 = val_at k m3) as Ha by (intros k Hk; by apply Hother, arena_not_fence_key).
      destruct f; cbn in Hr.
      * destruct Hr as (ids & _ & Hg). by apply (arenas_gone_same _ _ m2 m3); [intros k Hk; apply Ha..|].
      * destruct Hr as [_ ->]. intros id _. destruct (Ha (ArenaOwnerKey node id)) as [<- ->]; [left; apply owner_is_arena|done].
  - apply (fence_frame_trans _ _ m2); [apply fence_frame_records; [done|intros k Hk; by apply Hother]|].
    apply (fence_frame_trans _ _ m3); [done|]. apply fence_frame_records; [done|]. intros k Hk. by apply Hother.
  - intros k x. rewrite H4. case_bool_decide; [done|]. case_bool_decide; [intros [= <-]; by left|].
    intros [|Hx]%(reclaimed_leases _ _ _ _ _ _ Hr); [by left|]. revert Hx. rewrite H2.
    case_bool_decide; [intros [= <-]; by left|by right].
  - rewrite H4, !bool_decide_eq_false_2, H3 by eauto. by rewrite H2, bool_decide_eq_false_2.
Qed.

Lemma wpx_finish_fence c node rev g m (Q : outcome → mvcc * unit → Prop) :
  node ≠ [] → mvcc_wf m → same_now m node rev → has_generation m node g → arenas_canonical node m →
  (∀ m', fenced_to (c_fencer c) node g m m' → fence_frame node m m' →
     (∀ k x, val_at k m' = Some x → x.2 = 0 ∨ val_at k m = Some x) →
     val_at (FenceClaimKey node) m' = val_at (FenceClaimKey node) m → Q (FFenced (add64 g 1)) (m', tt)) →
  wpx (finish_fence c node rev) Q m.
Proof.
  intros Hn Hw Hs Hg Hc HQ. unfold finish_fence. apply wpx_bind, (wpx_GetGeneration_of _ _ g); [done|].
  apply wpx_bind, wpx_BumpGeneration; [done|done|]. cbn [fst]. set (m2 := (mvcc_ops m _).1).
  assert (∀ m3, reclaimed (c_fencer c) node m2 m3 → wpx (_ ⇐ MarkFenceComplete node (add64 g 1); _ ⇐ ClearFenceIntent node;
            Ret (FFenced (add64 g 1))) Q m3) as Hend.
  { intros m3 Hr. unfold MarkFenceComplete. apply wpx_bind, wpx_ebind, wpx_putRaw; [done|]. intros r. cbn [fst].
    apply wpx_ret, wpx_bind, wpx_deleteRaw, wpx_ret. cbn [fst].
    destruct (fence_records (c_fencer c) node g m m2 m3) as (H1 & H2 & H3 & H4); [done..|]. by apply HQ. }
  assert (mvcc_wf m2) as W2 by (by apply mvcc_ops_wf).
  apply wpx_bind. destruct (c_fencer c); [|by apply wpx_ret, Hend].
  apply wpx_bind, wpx_sameIncarnation; [by apply same_now_put|]. cbn [fst].
  apply wpx_bind, wpx_ReleaseArena; [done|done| |].
  { eapply canonical_mono; [|exact Hc]. intros k Hk Hnone. unfold m2. rewrite val_at_ops. effects.
    rewrite bool_decide_eq_false_2; [done|]. intros ->. discriminate Hk. }
  intros rel ids m3 Hret Hgone. apply wpx_ret, Hend. by exists ids.
Qed.

(** The claim [l] of [node] is held and nothing else has moved. *)
Record claim_held (node : bytes) (l : Z) (m m1 : mvcc) : Prop := ClaimHeld {
  ch_wf : mvcc_wf m1;
  ch_claim : ∃ v, val_at (FenceClaimKey node) m1 = Some (v, l);
  ch_keys k : k ≠ FenceClaimKey node → mkvs m1 !! k = mkvs m !! k
}.

Lemma claim_held_val node l m m1 k : claim_held node l m m1 → k ≠ FenceClaimKey node → val_at k m1 = val_at k m.
Proof. intros H Hk. unfold val_at. by rewrite (ch_keys _ _ _ _ H). Qed.

Lemma wpx_ClaimFence s node ttl m (Q : result (option Z) → mvcc * unit → Prop) :
  mvcc_wf m → val_at (FenceClaimKey node) m = None →
  (∀ l m1, 0 < l → (∀ k x, val_at k m = Some x → x.2 ≠ l) → claim_held node l m m1 → Q (Ok (Some l)) (m1, tt)) →
  wpx (ClaimFence s node ttl) Q m.
Proof.
  intros Hw Hn HQ. unfold ClaimFence. apply wpx_ebind, wpx_grant. intros l Hl _ Hfresh. cbn [fst].
  apply wpx_bind, wpx_txnRaw.
  - apply raw_valid; [done|simpl; lia|simpl; lia|]. constructor; [|done]. cbn. rewrite bool_decide_eq_true_2; [by rewrite orb_true_r|set_solver].
  - intros _. apply wpx_ret. cbn [fst]. apply HQ; [done|done|]. split; [by apply mvcc_ops_wf|exists (nodeID s)|].
    + rewrite val_at_ops. effects. by rewrite bool_decide_eq_true_2.
    + intros k Hk. rewrite mvcc_ops_kvs. cbn [apply_ops apply_op fst snd]. unfold put_kv. by rewrite lookup_insert_ne.
  - cbn [forallb mkvs]. rewrite (proj2 (eval_key_absent m Hw _)); [done|]. by apply val_at_None.
Qed.

(** Releasing the claim: its lease holds nothing else. *)
Lemma claim_released node l m m1 m2 :
  0 < l → (∀ k x, val_at k m = Some x → x.2 ≠ l) → claim_held node l m m1 →
  (∀ k x, val_at k m2 = Some x → x.2 = 0 ∨ val_at k m1 = Some x) →
  val_at (FenceClaimKey node) m2 = val_at (FenceClaimKey node) m1 →
  ∀ k, val_at k (mvcc_expire l m2) = if bool_decide (k = FenceClaimKey node) then None else val_at k m2.
Proof.
  intros Hl Hfresh Hheld Hleases Hclaim k. case_bool_decide as Hk.
  - subst k. destruct (ch_claim _ _ _ _ Hheld) as [v Hv]. rewrite Hv in Hclaim.
    destruct (val_at (FenceClaimKey node) (mvcc_expire l m2)) as [[v' l']|] eqn:E; [exfalso|done].
    apply val_at_Some in E as (e & [He Hne]%mvcc_expire_lookup & _). apply val_at_Some in Hclaim as (e' & He' & _ & Hle).
    assert (e = e') as -> by congruence. destruct Hne; [congruence|lia].
  - apply val_at_expire. intros x [Hx|Hx]%Hleases; [lia|]. left. apply (Hfresh k).
    by rewrite <- (claim_held_val _ _ _ _ _ Hheld).
Qed.

(** A fence is owed: an intent is recorded, or the node is gone and the caller
    saw it go. *)
Definition fence_owed (fromSweep : bool) (node : bytes) (m : mvcc) : Prop :=
  is_Some (val_at (FencePendingKey node) m) ∨ (fromSweep = false ∧ val_at (MembershipKey node) m = None).

(** What a fence finds of its node: no claim, a readable generation and arena
    records as the code writes them. *)
Record fenceable (node : bytes) (g : Z) (m : mvcc) : Prop := Fenceable {
  fe_name : node ≠ [];
  fe_claim : val_at (FenceClaimKey node) m = None;
  fe_gen : has_generation m node g;
  fe_arenas : arenas_canonical node m
}.

(** How a fence on a server that answers ends. *)
Definition fence_ends (fencer : bool) (node : bytes) (g : Z) (m : mvcc) (o : outcome) (m' : mvcc) : Prop :=
  fence_frame node m m' ∧ val_at (FenceClaimKey node) m' = None ∧
  ((o = FNotSevered ∧ fencer = true ∧ ∀ k, val_at k m' = val_at k m) ∨
   (o = FFenced (add64 g 1) ∧ fenced_to fencer node g m m')).

Lemma wpx_cut node inst m (Q : bool → mvcc * unit → Prop) : (∀ b, Q b (m, tt)) → wpx (call (QFence node inst)) Q m.
Proof. intros HQ σ1 m2 b <- ->. exists tt. split; [done|]. by intros σ3 <-. Qed.

Lemma wpx_still_owed c node fromSweep m (Q : result bool → mvcc * unit → Prop) :
  fence_owed fromSweep node m → Q (Ok true) (m, tt) → wpx (still_owed c node fromSweep) Q m.
Proof.
  intros Howed HQ. unfold still_owed. destruct fromSweep; [|by apply wpx_ret].
  destruct Howed as [Hi|[? _]]; [|done]. apply wpx_ebind, wpx_ListFenceIntents. intros intents Hin. apply wpx_ret.
  rewrite bool_decide_eq_true_2; [done|]. rewrite Hin. by apply fmap_is_Some.
Qed.

Lemma same_now_owed f node m : fence_owed f node m → same_now m node (intent_rev m node).
Proof.
  intros Howed. unfold same_now. destruct (intent_rev m node) as [r|] eqn:E; [done|]. destruct Howed as [Hi|[_ ?]]; [|done].
  apply val_at_is_Some in Hi as [e He]. unfold intent_rev in E. by rewrite He in E.
Qed.

Lemma wpx_fence_claimed c node inst fromSweep g m (Q : outcome → mvcc * unit → Prop) :
  node ≠ [] → mvcc_wf m → fence_owed fromSweep node m → has_generation m node g → arenas_canonical node m →
  (c_fencer c = true → Q FNotSevered (m, tt)) →
  (∀ m', fenced_to (c_fencer c) node g m m' → fence_frame node m m' →
     (∀ k x, val_at k m' = Some x → x.2 = 0 ∨ val_at k m = Some x) →
     val_at (FenceClaimKey node) m' = val_at (FenceClaimKey node) m → Q (FFenced (add64 g 1)) (m', tt)) →
  wpx (fence_claimed c node inst fromSweep) Q m.
Proof.
  intros Hn Hw Howed Hg Hc HQn HQ. pose proof (same_now_owed _ _ _ Howed) as Hs. unfold fence_claimed.
  apply wpx_bind, wpx_still_owed; [done|]. apply wpx_bind, wpx_intent. cbn [fst].
  apply wpx_bind, wpx_sameIncarnation; [done|]. cbn [negb].
  assert (wpx (same ⇐ sameIncarnation (c_store c) node (intent_rev m node);
    if negb same then Ret FNodeReturned else finish_fence c node (intent_rev m node)) Q m) as Hgo.
  { apply wpx_bind, wpx_sameIncarnation; [done|]. cbn [negb]. by apply (wpx_finish_fence _ _ _ g). }
  apply wpx_bind. destruct (c_fencer c) eqn:Hf; [|by apply wpx_ret].
  apply wpx_cut. intros [|]; [exact Hgo|]. by apply wpx_ret, HQn.
Qed.

(** The fence as a whole. *)
Lemma wpx_fenceNode c node inst fromSweep g m (Q : outcome → mvcc * unit → Prop) :
  mvcc_wf m → fence_owed fromSweep node m → fenceable node g m →
  (∀ o m', fence_ends (c_fencer c) node g m o m' → Q o (m', tt)) →
  wpx (fenceNode c node inst fromSweep) Q m.
Proof.
  intros Hw Howed [Hn Hcl Hg Hc] HQ. unfold fenceNode. apply wpx_bind, wpx_ClaimFence; [done|done|].
  intros l m1 Hl Hfresh Hheld. cbn [fst]. pose proof (λ k, claim_held_val _ _ _ _ k Hheld) as Hv.
  assert (fence_frame node m m1) as Hf1.
  { apply fence_frame_records; [apply Hheld|]. intros k Hk. apply Hv. intros ->. apply Hk. by do 3 right. }
  apply wpx_bind, (wpx_fence_claimed _ _ _ _ g); [done|apply Hheld| | | | |].
  - unfold fence_owed. by rewrite !Hv.
  - by eapply has_generation_same; [apply Hv|].
  - eapply canonical_mono; [apply Hf1|done].
  - intros Hf. cbn [fst]. apply wpx_bind, wpx_revoke, wpx_ret, HQ. cbn [fst].
    assert (∀ k, val_at k (mvcc_expire l m1) = val_at k m) as Hsame.
    { intros k. rewrite (claim_released node l m m1 m1) by auto. case_bool_decide as Hk; [by subst k|by apply Hv]. }
    split; [|by rewrite Hsame; eauto].
    apply fence_frame_records; [apply mvcc_expire_wf, Hheld|by intros k _].
  - intros m2 Hto Hf2 Hleases Hclaim. cbn [fst]. apply wpx_bind, wpx_revoke, wpx_ret, HQ. cbn [fst].
    pose proof (claim_released node l m m1 m2 Hl Hfresh Hheld Hleases Hclaim) as Hrel.
    assert (∀ k, k ≠ FenceClaimKey node → val_at k (mvcc_expire l m2) = val_at k m2) as Hsame.
    { intros k Hk. by rewrite Hrel, bool_decide_eq_false_2. }
    split; [|split; [by rewrite Hrel, bool_decide_eq_true_2|right; split; [done|]]].
    + do 2 (eapply fence_frame_trans; [eassumption|]). apply fence_frame_records; [apply mvcc_expire_wf, Hf2|].
      intros k Hk. apply Hsame. intros ->. apply Hk. by do 3 right.
    + destruct Hto as [H1 H2 H3 H4].
      assert (∀ k, has_prefix PrefixArena k = true ∨ has_prefix PrefixFreeArena k = true →
        val_at k m1 = val_at k m ∧ val_at k (mvcc_expire l m2) = val_at k m2) as Ha.
      { intros k Hk. split; [apply Hv|apply Hsame]; intros ->; by destruct Hk. }
      split; rewrite ?Hsame by done; [done..|]. destruct (c_fencer c).
      * by apply (arenas_gone_same _ _ m1 m2); [intros k Hk; apply Ha..|].
      * intros id Hid. destruct (Ha (ArenaOwnerKey node id)) as [<- ->]; [left; apply owner_is_arena|]. by apply H4.
Qed.

(** ** The sweep *)

(** The records of a node. *)
Definition node_key (n k : bytes) : Prop :=
  fence_key n k ∨ k = MembershipKey n ∨ k = DepartedKey n ∨ ∃ id, is_u64 id ∧ k = ArenaOwnerKey n id.

(** Nothing of [n] has moved. *)
Record unmoved (n : bytes) (m m' : mvcc) : Prop := Unmoved {
  un_keys k : node_key n k → val_at k m' = val_at k m;
  un_arenas k : has_prefix PrefixArena k = true → val_at k m = None → val_at k m' = None;
  un_pool id : pooled m id → pooled m' id
}.

#[global] Instance unmoved_preorder n : PreOrder (unmoved n).
Proof.
  split; [by split|]. intros m1 m2 m3 [K1 A1 P1] [K2 A2 P2]. split; [|eauto..]. intros k Hk. by rewrite K2, K1.
Qed.

(** The fence of one node moves nothing of another. *)
Lemma frame_unmoved n n' m m' : n' ≠ n → fence_frame n' m m' → unmoved n m m'.
Proof.
  intros Hne [_ K A P]. split; [|done..]. intros k Hk. apply K.
  - unfold fence_key. destruct Hk as [Hk|[->|[->|(id & _ & ->)]]].
    + destruct Hk as [->|[->|[->| ->]]]; intros [E|[E|[E|E]]]; try discriminate E; apply app_inv_head in E; congruence.
    + by intros [E|[E|[E|E]]].
    + by intros [E|[E|[E|E]]].
    + by intros [E|[E|[E|E]]].
  - intros id Hid ->. destruct Hk as [Hk|[E|[E|(id' & Hid' & E)]]]; [|discriminate E|discriminate E|].
    + by destruct Hk as [E|[E|[E|E]]].
    + apply ArenaOwnerKey_inj in E as [E _]; congruence.
  - by destruct Hk as [[->|[->|[->| ->]]]|[->|[->|(id & _ & ->)]]].
Qed.

Lemma unmoved_fenceable n g m m' : unmoved n m m' → fenceable n g m → fenceable n g m'.
Proof.
  intros [K A P] [Hn Hc Hg Ha]. split; [done| | |by eapply canonical_mono].
  - rewrite K; [done|]. left. by do 3 right.
  - eapply has_generation_same; [|done]. apply K. by do 2 left.
Qed.

(** What a sweep has to do about a node. *)
Inductive verdict := VLive | VSettled | VFence.

Definition holds_arenas (m : mvcc) (n : bytes) : bool :=
  match range_kvs (RPrefix (ArenaNodePrefix n)) m with [] => false | _ => true end.

Definition sweep_verdict (m : mvcc) (n : bytes) : verdict :=
  match stored (MembershipKey n) m with
  | Some _ => VLive
  | None =>
    if bool_decide (is_Some (val_at (FencePendingKey n) m)) then VFence
    else if bool_decide (is_Some (val_at (FenceDoneKey n) m)) then VSettled
    else if bool_decide (is_Some (stored (DepartedKey n) m)) && negb (holds_arenas m n) then VSettled
    else VFence
  end.

(** Membership, generation and arenas are as before. *)
Definition still_held (n : bytes) (m m' : mvcc) : Prop :=
  val_at (MembershipKey n) m' = val_at (MembershipKey n) m ∧ val_at (GenKey n) m' = val_at (GenKey n) m ∧
  ∀ id, is_u64 id → val_at (ArenaOwnerKey n id) m' = val_at (ArenaOwnerKey n id) m.

(** How the sweep leaves a node it considered, by that verdict: a live node has
    neither intent nor mark; nothing of a settled one moves; one to be fenced is
    fenced, or still has its intent for the next sweep when the device
    refused the cut. *)
Definition node_swept (fencer : bool) (n : bytes) (g : Z) (m m' : mvcc) (o : option outcome) : Prop :=
  match sweep_verdict m n with
  | VLive => o = None ∧ val_at (FencePendingKey n) m' = None ∧ val_at (FenceDoneKey n) m' = None ∧ still_held n m m'
  | VSettled => o = None ∧ unmoved n m m'
  | VFence =>
    (o = Some FNotSevered ∧ fencer = true ∧ is_Some (val_at (FencePendingKey n) m') ∧ still_held n m m') ∨
    (o = Some (FFenced (add64 g 1)) ∧ fenced_to fencer n g m m')
  end.

Lemma node_key_gen n : node_key n (GenKey n).
Proof. by do 2 left. Qed.
Lemma node_key_done n : node_key n (FenceDoneKey n).
Proof. left. by right; left. Qed.
Lemma node_key_pending n : node_key n (FencePendingKey n).
Proof. left. by do 2 right; left. Qed.
Lemma node_key_claim n : node_key n (FenceClaimKey n).
Proof. left. by do 3 right. Qed.
Lemma node_key_member n : node_key n (MembershipKey n).
Proof. by right; left. Qed.
Lemma node_key_departed n : node_key n (DepartedKey n).
Proof. by do 2 right; left. Qed.
Lemma node_key_arena n id : is_u64 id → node_key n (ArenaOwnerKey n id).
Proof. intros. do 3 right. eauto. Qed.

Create HintDb sweep.
#[local] Hint Resolve node_key_gen node_key_done node_key_pending node_key_claim node_key_member node_key_departed node_key_arena : sweep.

Lemma still_held_unmoved n m m1 m2 : still_held n m m1 → unmoved n m1 m2 → still_held n m m2.
Proof. intros (M & G & A) [K _ _]. split; [|split; [|intros id Hid]]; rewrite K; auto with sweep. Qed.

Lemma fenced_to_unmoved f n g m0 m m1 m2 :
  unmoved n m0 m → fenced_to f n g m m1 → unmoved n m1 m2 → fenced_to f n g m0 m2.
Proof.
  intros U0 [G D I A] U2. split; [by rewrite (un_keys _ _ _ U2) by auto with sweep..|]. destruct f.
  - destruct A as [Hg Hp]. split.
    + intros k Hk. eapply (un_arenas _ _ _ U2); [by eapply arena_prefix_sub|auto].
    + intros id Hid Ho. apply (un_pool _ _ _ U2), Hp; [done|]. unfold owned. by rewrite (un_keys _ _ _ U0) by auto with sweep.
  - intros id Hid. rewrite (un_keys _ _ _ U2), A, (un_keys _ _ _ U0); auto with sweep.
Qed.

(** What later fences of other nodes do changes nothing. *)
Lemma node_swept_unmoved f n g m m1 m2 o : node_swept f n g m m1 o → unmoved n m1 m2 → node_swept f n g m m2 o.
Proof.
  unfold node_swept. intros Hs U. pose proof (un_keys _ _ _ U) as K. destruct (sweep_verdict m n).
  - destruct Hs as (-> & Hp & Hd & Hh). rewrite !K by auto with sweep. by eauto using still_held_unmoved.
  - destruct Hs as [-> Hk]. split; [done|]. by etrans.
  - destruct Hs as [(-> & Hf & Hp & Hh)|[-> Ht]]; [left|right].
    + rewrite K by auto with sweep. eauto using still_held_unmoved.
    + split; [done|]. by eapply fenced_to_unmoved; [reflexivity| |].
Qed.

Lemma holds_arenas_iff m n : holds_arenas m n = true ↔ ∃ k, is_Some (val_at k m) ∧ has_prefix (ArenaNodePrefix n) k = true.
Proof.
  unfold holds_arenas. setoid_rewrite <- val_at_is_Some. split.
  - destruct (range_kvs _ m) as [|[k e] l] eqn:E; [done|]. intros _.
    assert ((k, e) ∈ range_kvs (RPrefix (ArenaNodePrefix n)) m) as [Hk Hp]%elem_of_range_prefix by (rewrite E; left). eauto.
  - intros (k & [e He] & Hp). assert ((k, e) ∈ range_kvs (RPrefix (ArenaNodePrefix n)) m) as Hin by (by apply elem_of_range_prefix).
    by destruct (range_kvs _ m); [apply elem_of_nil in Hin|].
Qed.

(** Whether a node holds arenas is not for other nodes' fences to change. *)
Lemma holds_arenas_unmoved n m m' : arenas_canonical n m → unmoved n m m' → holds_arenas m' n = holds_arenas m n.
Proof.
  intros Hc [K A _]. apply eq_bool_prop_intro. rewrite !Is_true_true, !holds_arenas_iff.
  split; intros (k & [x Hx] & Hp); exists k; (split; [|done]).
  - destruct (val_at k m) eqn:E; [by eexists|]. rewrite A in Hx; [done|by eapply arena_prefix_sub|done].
  - destruct (Hc k) as (id & Hid & ->); [by eexists|done|]. rewrite K, Hx by auto with sweep. by eexists.
Qed.

Lemma sweep_verdict_unmoved n m m' : arenas_canonical n m → unmoved n m m' → sweep_verdict m' n = sweep_verdict m n.
Proof.
  intros Hc U. unfold sweep_verdict. rewrite !stored_val_at, (holds_arenas_unmoved n m m') by done.
  rewrite !(un_keys _ _ _ U) by auto with sweep. done.
Qed.

Section sweep.
Context (c : Controller) (gens : bytes → Z) (m0 : mvcc) (intents : gmap bytes bytes) (fenced : gset bytes).
Context (Hintents : ∀ n, intents !! n = fst <$> val_at (FencePendingKey n) m0).
Context (Hfenced : ∀ n, n ∈ fenced ↔ is_Some (val_at (FenceDoneKey n) m0)).

Lemma wpx_departedCleanly n m (Q : bool → mvcc * unit → Prop) :
  Q (bool_decide (is_Some (stored (DepartedKey n) m)) && negb (holds_arenas m n)) (m, tt) → wpx (departedCleanly c n) Q m.
Proof.
  intros HQ. unfold departedCleanly, HasDeparted, OwnsArenas. apply wpx_bind, wpx_ebind, wpx_Get, wpx_ret. cbn [fst].
  destruct (stored (DepartedKey n) m) as [v|]; [|by apply wpx_ret].
  apply wpx_bind, wpx_ebind, wpx_GetPrefix, wpx_ret. cbn [fst]. apply wpx_ret. unfold holds_arenas in HQ.
  by destruct (range_kvs _ m).
Qed.

(** The fence a sweep decides on, its intent recorded first if there is none. *)
Lemma wpx_sweep_fence n inst m m1 (Q : option outcome → mvcc * unit → Prop) :
  unmoved n m0 m → mvcc_wf m1 → fence_frame n m m1 → fenceable n (gens n) m1 →
  is_Some (val_at (FencePendingKey n) m1) → (∀ k, k ≠ FencePendingKey n → val_at k m1 = val_at k m) →
  sweep_verdict m0 n = VFence →
  (∀ o m', node_swept (c_fencer c) n (gens n) m0 m' o → fence_frame n m m' → Q o (m', tt)) →
  wpx (r ⇐ fenceNode c n inst true; Ret (Some r)) Q m1.
Proof.
  intros U Hw Hf1 Hfe Hp Hsame Hv HQ. apply wpx_bind, (wpx_fenceNode _ _ _ _ (gens n)); [done|by left|done|].
  intros o m' (Hf & Hcl & Hcase). apply wpx_ret, HQ; [|by eapply fence_frame_trans]. unfold node_swept. rewrite Hv.
  destruct Hcase as [(-> & Hfe' & Hk)|[-> Hto]]; [left|right].
  - split; [done|]. split; [done|]. split; [by rewrite Hk|]. unfold still_held.
    setoid_rewrite Hk. split; [|split; [|intros id Hid]]; rewrite Hsame by done; apply (un_keys _ _ _ U); auto with sweep.
  - split; [done|]. destruct Hto as [H1 H2 H3 H4]. split; [done..|]. destruct (c_fencer c).
    + destruct H4 as [Hg Hpool]. split; [done|]. intros id Hid Ho. apply Hpool; [done|]. unfold owned in *.
      by rewrite Hsame, (un_keys _ _ _ U) by auto with sweep.
    + intros id Hid. rewrite H4, Hsame, (un_keys _ _ _ U); auto with sweep.
Qed.

(** Dropping a record that may be there. *)
Lemma wpx_clear k b m (Q : result unit → mvcc * unit → Prop) :
  mvcc_wf m → b = bool_decide (is_Some (val_at k m)) →
  (∀ r m', mvcc_wf m' → (∀ k', val_at k' m' = if bool_decide (k' = k) then None else val_at k' m) → Q r (m', tt)) →
  wpx (if b then deleteRaw k else Ret (Ok tt)) Q m.
Proof.
  intros Hw -> HQ. case_bool_decide as Hk.
  - apply wpx_deleteRaw, HQ; [by apply mvcc_ops_wf|]. intros k'. rewrite val_at_ops. effects. by case_bool_decide.
  - apply wpx_ret, HQ; [done|]. intros k'. case_bool_decide; [|done]. subst. by apply eq_None_not_Some.
Qed.

(** A node that is back is owed no fence, and its next departure is a new one. *)
Lemma wpx_sweep_live n m (Q : option outcome → mvcc * unit → Prop) :
  mvcc_wf m → unmoved n m0 m → sweep_verdict m0 n = VLive →
  (∀ o m', node_swept (c_fencer c) n (gens n) m0 m' o → fence_frame n m m' → Q o (m', tt)) →
  wpx (_ ⇐ (if bool_decide (is_Some (val_at (FencePendingKey n) m)) then ClearFenceIntent n else Ret (Ok tt));
       _ ⇐ (if bool_decide (is_Some (val_at (FenceDoneKey n) m)) then ClearFenceMark n else Ret (Ok tt)); Ret None) Q m.
Proof.
  intros Hw [K _ _] Hv HQ. apply wpx_bind, wpx_clear; [done|done|]. intros r m1 W1 H1. cbn [fst].
  apply wpx_bind, wpx_clear; [done|by rewrite H1, (bool_decide_eq_false_2 (FenceDoneKey n = FencePendingKey n))|]. intros r' m2 W2 H2. cbn [fst].
  apply wpx_ret, HQ.
  - unfold node_swept. rewrite Hv. split; [done|]. unfold still_held. split; [|split; [|split; [|split; [|intros id Hid]]]]; rewrite H2, ?H1.
    + rewrite (bool_decide_eq_true_2 (FencePendingKey n = FencePendingKey n)) by done. by case_bool_decide.
    + by rewrite bool_decide_eq_true_2.
    + rewrite !bool_decide_eq_false_2 by done. auto with sweep.
    + rewrite !bool_decide_eq_false_2 by done. auto with sweep.
    + rewrite !bool_decide_eq_false_2 by done. auto with sweep.
  - apply fence_frame_records; [done|]. unfold fence_key. intros k Hk. rewrite H2, H1, !bool_decide_eq_false_2; naive_solver.
Qed.

Lemma wpx_reconcile_node n m (Q : option outcome → mvcc * unit → Prop) :
  n ≠ c_nodeID c → mvcc_wf m → unmoved n m0 m → fenceable n (gens n) m0 →
  (∀ o m', node_swept (c_fencer c) n (gens n) m0 m' o → fence_frame n m m' → Q o (m', tt)) →
  wpx (reconcile_node c intents fenced n) Q m.
Proof.
  intros Hself Hw U Hfe HQ. pose proof (un_keys _ _ _ U) as K. pose proof (unmoved_fenceable _ _ _ _ U Hfe) as Hfe1.
  pose proof (sweep_verdict_unmoved _ _ _ (fe_arenas _ _ _ Hfe) U) as Ev.
  unfold reconcile_node. rewrite bool_decide_eq_false_2 by done. rewrite Hintents.
  assert (bool_decide (n ∈ fenced) = bool_decide (is_Some (val_at (FenceDoneKey n) m))) as ->.
  { apply bool_decide_ext. rewrite K by auto with sweep. apply Hfenced. }
  assert (bool_decide (is_Some (fst <$> val_at (FencePendingKey n) m0)) = bool_decide (is_Some (val_at (FencePendingKey n) m))) as ->.
  { apply bool_decide_ext. rewrite fmap_is_Some, K; auto with sweep. }
  apply wpx_bind, wpx_Get. cbn [fst]. symmetry in Ev. unfold sweep_verdict at 2 in Ev. destruct (stored (MembershipKey n) m) as [v|].
  { by apply wpx_sweep_live. }
  assert (sweep_verdict m0 n = VSettled → Q None (m, tt)) as Hsettled.
  { intros E. apply HQ; [|by apply fence_frame_refl]. unfold node_swept. by rewrite E. }
  destruct (bool_decide (is_Some (val_at (FencePendingKey n) m))) eqn:Eowed; cbn [negb].
  - rewrite andb_false_r. apply wpx_bind, wpx_ret. cbn [fst]. apply wpx_bind, wpx_ret. cbn [fst].
    apply bool_decide_eq_true in Eowed. by apply (wpx_sweep_fence n _ m); [..|by apply fence_frame_refl| | | | |].
  - rewrite andb_true_r. destruct (bool_decide (is_Some (val_at (FenceDoneKey n) m))); [by apply wpx_ret, Hsettled|].
    apply wpx_bind, wpx_departedCleanly. cbn [fst].
    destruct (bool_decide (is_Some (stored (DepartedKey n) m)) && negb (holds_arenas m n)); [by apply wpx_ret, Hsettled|].
    apply wpx_bind, wpx_ebind, wpx_putRaw; [done|]. intros rev. cbn [fst]. apply wpx_ret. cbn [fst]. set (m1 := (mvcc_ops m _).1).
    assert (mvcc_wf m1) as W1 by (by apply mvcc_ops_wf).
    assert (∀ k, val_at k m1 = if bool_decide (k = FencePendingKey n) then Some ([], 0) else val_at k m) as H1.
    { clear Eowed. intros k. unfold m1. rewrite val_at_ops. effects. by case_bool_decide. }
    assert (∀ k, k ≠ FencePendingKey n → val_at k m1 = val_at k m) as Hsame by (intros k Hk; by rewrite H1, bool_decide_eq_false_2).
    assert (fence_frame n m m1) as Hf.
    { apply fence_frame_records; [done|]. intros k Hk. apply Hsame. intros ->. apply Hk. by do 2 right; left. }
    apply (wpx_sweep_fence n _ m); [done|done|done| |by rewrite H1, bool_decide_eq_true_2; eauto|done|done|done].
    destruct Hfe1 as [Hn Hc Hg Ha]. split; [done|by rewrite Hsame| |eapply canonical_mono; [apply Hf|done]].
    eapply has_generation_same; [by apply Hsame|done].
Qed.

(** How a sweep leaves the nodes it was given. *)
Definition all_swept (nodes : list bytes) (m' : mvcc) (outs : list (bytes * outcome)) : Prop :=
  ∀ n, n ∈ nodes → n ≠ c_nodeID c →
    ∃ o, node_swept (c_fencer c) n (gens n) m0 m' o ∧ ∀ o', (n, o') ∈ outs ↔ o = Some o'.

Definition others_unmoved (nodes : list bytes) (m m' : mvcc) (outs : list (bytes * outcome)) : Prop :=
  ∀ n, n ∉ nodes ∨ n = c_nodeID c → unmoved n m m' ∧ ∀ o, (n, o) ∉ outs.

Lemma wpx_reconcile_nodes nodes m (Q : list (bytes * outcome) → mvcc * unit → Prop) :
  NoDup nodes → mvcc_wf m → (∀ n, n ∈ nodes → unmoved n m0 m) → (∀ n, n ∈ nodes → n ≠ c_nodeID c → fenceable n (gens n) m0) →
  (∀ outs m', mvcc_wf m' → all_swept nodes m' outs → others_unmoved nodes m m' outs → Q outs (m', tt)) →
  wpx (reconcile_nodes c intents fenced nodes) Q m.
Proof.
  revert m Q. induction nodes as [|n nodes IH]; intros m Q Hnd Hw Hu Hfe HQ.
  { apply wpx_ret, HQ; [done|by intros n ?%elem_of_nil|]. intros n _. split; [done|]. by intros o ?%elem_of_nil. }
  apply NoDup_cons in Hnd as [Hn Hnd]. cbn [reconcile_nodes]. apply wpx_bind.
  destruct (decide (n = c_nodeID c)) as [->|Hself].
  { unfold reconcile_node. rewrite bool_decide_eq_true_2 by done. apply wpx_ret. cbn [fst]. apply wpx_bind.
    apply IH; [done|done|set_solver|set_solver|]. intros outs m' W' Hs Ho. apply wpx_ret, HQ; [done| |].
    - intros n' [->|Hn']%elem_of_cons Hne; [done|]. by apply Hs.
    - intros n' Hn'. apply Ho. set_solver. }
  apply wpx_reconcile_node; [done|done|apply Hu; set_solver|apply Hfe; set_solver|]. intros o m1 Hsw Hf. cbn [fst].
  apply wpx_bind. apply IH; [done|apply Hf| |set_solver|].
  { intros n' Hn'. etrans; [apply Hu; set_solver|]. by apply (frame_unmoved n' n); [intros ->|]. }
  intros outs m' W' Hs Ho. destruct (Ho n) as [Hun Hno]; [by left|].
  assert (∀ n' o', (n', o') ∈ match o with Some o => (n, o) :: outs | None => outs end ↔
            (n' = n ∧ o = Some o') ∨ (n', o') ∈ outs) as Hin.
  { intros n' o'. destruct o as [o|]; [rewrite elem_of_cons|]; naive_solver. }
  apply wpx_ret, HQ; [done| |].
  - intros n' [->|Hn']%elem_of_cons Hne.
    + exists o. split; [by eapply node_swept_unmoved|]. intros o'. rewrite Hin. specialize (Hno o'). naive_solver.
    + destruct (Hs n' Hn' Hne) as (o1 & H1 & H2). exists o1. split; [done|]. intros o'. rewrite Hin, <- H2. naive_solver.
  - intros n' Hn'. assert (n' ≠ n ∧ (n' ∉ nodes ∨ n' = c_nodeID c)) as [Hne Hn1] by set_solver.
    destruct (Ho n' Hn1) as [H1 H2]. split; [etrans; [by eapply frame_unmoved|done]|]. intros o'. rewrite Hin. naive_solver.
Qed.
End sweep.

(** A node that a sweep has dealt with is not one to fence. *)
Lemma swept_is_settled f n g m m' o :
  arenas_canonical n m → node_swept f n g m m' o → o ≠ Some FNotSevered → sweep_verdict m' n ≠ VFence.
Proof.
  unfold node_swept. intros Hc Hs Ho. destruct (sweep_verdict m n) eqn:Ev.
  - destruct Hs as (_ & _ & _ & Hm & _). unfold sweep_verdict in *. rewrite stored_val_at in *. rewrite Hm.
    by destruct (val_at (MembershipKey n) m) as [[[] ?]|]; repeat case_match.
  - destruct Hs as [_ U]. by rewrite (sweep_verdict_unmoved n m m'), Ev.
  - destruct Hs as [(-> & _)|[-> [_ Hd Hp _]]]; [done|]. unfold sweep_verdict. rewrite Hd, Hp. by destruct (stored _ m').
Qed.

(** The nodes a sweep considers. *)
Definition candidate (m : mvcc) (n : bytes) : Prop :=
  is_Some (val_at (GenKey n) m) ∨ is_Some (val_at (FencePendingKey n) m).


(** ** A concrete sweep *)

Lemma owed_val k : val_at k (rs_store owed_srv) =
  if bool_decide (k = FencePendingKey n1) then Some (lit "i-1", 0) else
  if bool_decide (k = PrefixArenaLog) then Some (EncodeUint64 1, 0) else
  if bool_decide (k = ArenaOwnerKey n1 0) then Some (EncodeUint64 0, 0) else
  if bool_decide (k = GenKey n1) then Some (fmt_uint 0, 0) else None.
Proof.
  unfold owed_srv. cbn [rs_store]. rewrite val_at_ops. effects. repeat (case_bool_decide; [by subst|]). done.
Qed.

Lemma owed_fenceable : fenceable n1 0 (rs_store owed_srv).
Proof.
  split; [done|by rewrite owed_val| |].
  - split; [unfold is_u64; lia|]. right. exists 0. by rewrite owed_val.
  - intros k [x Hx] Hp. rewrite owed_val in Hx. repeat case_bool_decide; try done; subst; try discriminate Hp.
    exists 0. split; [unfold is_u64; lia|done].
Qed.

