(* ===== verification/Xattrs.v ===== *)
(** * Extended attributes

    Models pkg/metadata/xattr.go: one key per attribute, checked and written in
    one guarded transaction.

    Theorems: what setting an attribute does on every branch, flags and errors
    included; and reading back what was set, which fails for an empty value. *)

From S2P Require Import Prelude Etcd EtcdFacts Schema Store StoreLogic StoreProps InodeTimes Dirents NamespaceProps.

Definition MaxXattrNameLen : nat := 255.
Definition MaxXattrValueLen : Z := 65536.
Definition XattrCreate : Z := 1.
Definition XattrReplace : Z := 2.

Definition validXattrName (name : bytes) : bool :=
  if bool_decide (name = []) || bool_decide (MaxXattrNameLen < length name)%nat then false
  else negb (existsb (λ c, (c =? slash) || (c =? 0)) name).

Definition GetXattr (s : Store) (ino : Z) (name : bytes) : prog (result bytes) :=
  if negb (validXattrName name) then Ret (Err ErrInvalid)
  else
    v ⇐? Get s (XattrKey ino name);
    Ret match v with None => Err ErrNoData | Some v => Ok v end.

(** The comparisons the flags ask for, beside the inode's existence. *)
Definition xattr_cmps (ino : Z) (name : bytes) (flags : Z) : list cmp :=
  let key := XattrKey ino name in
  let exists_ := key_present (InodeKey ino) in
  if negb (Z.land flags XattrCreate =? 0) then [exists_; key_absent key]
  else if negb (Z.land flags XattrReplace =? 0) then [exists_; key_present key]
  else [exists_].

Definition SetXattr (s : Store) (ino : Z) (name value : bytes) (flags : Z) : prog (result unit) :=
  if negb (validXattrName name) then Ret (Err ErrInvalid)
  else if MaxXattrValueLen <? Z.of_nat (length value) then Ret (Err ErrTooBig)
  else
    ok ⇐? Txn s (xattr_cmps ino name flags) [put (XattrKey ino name) value] [];
    if (ok : bool) then Ret (Ok tt)
    else
      inode ⇐? Get s (InodeKey ino);
      Ret match inode with
          | None => Err ErrNotFound
          | Some _ => if negb (Z.land flags XattrCreate =? 0) then Err ErrExists else Err ErrNoData
          end.

Definition RemoveXattr (s : Store) (ino : Z) (name : bytes) : prog (result unit) :=
  if negb (validXattrName name) then Ret (Err ErrInvalid)
  else
    let key := XattrKey ino name in
    ok ⇐? Txn s [key_present key] [OpDelete key false] [];
    Ret (if (ok : bool) then Ok tt else Err ErrNoData).

(** [sort.Strings]: byte-wise. *)
Definition name_le (a b : bytes) : Prop := bytes_leb a b = true.
#[global] Instance name_le_dec : RelDecision name_le.
Proof. intros a b. unfold name_le. apply _. Defined.

Definition ListXattrs (s : Store) (ino : Z) : prog (result (list bytes)) :=
  kvs ⇐? GetPrefix s (XattrPrefix ino);
  Ret (Ok (merge_sort name_le (omap (λ x, snd <$> ParseXattrKey x.1) kvs))).

(** ** Setting *)

(** What a setxattr is owed, given what the store holds. *)
Definition set_verdict (m : mvcc) (ino : Z) (name value : bytes) (flags : Z) : result unit :=
  let present := bool_decide (is_Some (val_at (XattrKey ino name) m)) in
  if negb (validXattrName name) then Err ErrInvalid
  else if MaxXattrValueLen <? Z.of_nat (length value) then Err ErrTooBig
  else if bool_decide (val_at (InodeKey ino) m = None) then Err ErrNotFound
  else if negb (Z.land flags XattrCreate =? 0) then (if present then Err ErrExists else Ok tt)
  else if negb (Z.land flags XattrReplace =? 0) then (if present then Ok tt else Err ErrNoData)
  else Ok tt.

Lemma eval_xattr_cmps m ino name value flags :
  mvcc_wf m → validXattrName name = true → (MaxXattrValueLen <? Z.of_nat (length value)) = false →
  forallb (eval_cmp (mkvs m)) (xattr_cmps ino name flags) = true ↔ set_verdict m ino name value flags = Ok tt.
Proof.
  intros Hw Hn Hv. unfold set_verdict, xattr_cmps. rewrite Hn, Hv. cbn [negb].
  assert (∀ k, eval_cmp (mkvs m) (key_present k) = bool_decide (is_Some (val_at k m))) as Hp.
  { intros k. apply eq_bool_prop_intro. rewrite !Is_true_true, bool_decide_eq_true, <- val_at_is_Some. by apply eval_key_present. }
  assert (∀ k, eval_cmp (mkvs m) (key_absent k) = negb (bool_decide (is_Some (val_at k m)))) as Ha.
  { intros k. apply eq_bool_prop_intro. rewrite !Is_true_true, negb_true_iff, bool_decide_eq_false, <- val_at_is_Some.
    rewrite eval_key_absent by done. apply eq_None_not_Some. }
  assert (∀ k, bool_decide (is_Some (val_at k m)) = negb (bool_decide (val_at k m = None))) as Hneg.
  { intros k. destruct (val_at k m); [by rewrite bool_decide_eq_true_2, bool_decide_eq_false_2|].
    by rewrite bool_decide_eq_false_2, bool_decide_eq_true_2; [|done|intros []]. }
  destruct (negb (Z.land flags XattrCreate =? 0)); [|destruct (negb (Z.land flags XattrReplace =? 0))];
    cbn [forallb]; rewrite ?Hp, ?Ha, (Hneg (InodeKey ino)), ?andb_true_r;
    destruct (bool_decide (val_at (InodeKey ino) m = None)); cbn [negb andb]; try done;
    by destruct (bool_decide (is_Some (val_at (XattrKey ino name) m))).
Qed.

Definition is_ok {A} (r : result A) : bool := match r with Ok _ => true | Err _ => false end.

(** What a setxattr leaves behind, with the answer it gives. *)
Definition xattr_set (m : mvcc) (ino : Z) (name value : bytes) (flags : Z) (r : result unit) (m' : mvcc) : Prop :=
  r = set_verdict m ino name value flags ∧
  ∀ k, val_at k m' =
    if is_ok r && bool_decide (k = XattrKey ino name) then Some (value, 0) else val_at k m.

Section setting.
Context (s : Store) (m : mvcc) (ino : Z) (name value : bytes) (flags : Z).
Context (Hwf : mvcc_wf m) (Hguard : guard_current s m).
Context (Hrec : ∀ v l, val_at (InodeKey ino) m = Some (v, l) → v ≠ []).

Lemma wpx_SetXattr :
  wpx (SetXattr s ino name value flags) (λ r σ, xattr_set m ino name value flags r σ.1) m.
Proof.
  unfold SetXattr, xattr_set.
  destruct (validXattrName name) eqn:Hn; cbn [negb]; [|apply wpx_ret; unfold set_verdict; by rewrite Hn].
  destruct (MaxXattrValueLen <? Z.of_nat (length value)) eqn:Hv; [apply wpx_ret; unfold set_verdict; by rewrite Hn, Hv|].
  pose proof (eval_xattr_cmps m ino name value flags Hwf Hn Hv) as Hc. apply wpx_ebind, wpx_Txn; [done| | |].
  - apply txn_valid_small; [|unfold xattr_cmps; repeat case_match; simpl; lia|simpl; lia|by repeat constructor].
    apply ops_distinct_intro; [apply NoDup_singleton|]. intros k o _ ->%list_elem_of_singleton. done.
  - intros Hok%Hc. apply wpx_ret. cbn [fst]. split; [done|]. intros k. rewrite val_at_ops. effects.
    by case_bool_decide.
  - intros Hno. assert (set_verdict m ino name value flags ≠ Ok tt) as Hne by (intros Hx%Hc; discriminate (eq_trans (eq_sym Hno) Hx)).
    apply wpx_ebind, wpx_Get, wpx_ret. cbn [fst]. rewrite stored_val_at.
    unfold set_verdict in *. rewrite Hn, Hv in Hne |- *. cbn [negb] in *.
    destruct (val_at (InodeKey ino) m) as [[v l]|] eqn:Ei.
    + destruct v as [|b v]; [by destruct (Hrec [] l)|]. rewrite (bool_decide_eq_false_2 (_ = None)) in Hne |- * by done.
      destruct (negb (Z.land flags XattrCreate =? 0)); [|destruct (negb (Z.land flags XattrReplace =? 0))];
        destruct (bool_decide (is_Some (val_at (XattrKey ino name) m))); done.
    + by rewrite bool_decide_eq_true_2.
Qed.
End setting.

(** Setting an attribute on a server that answers gives the verdict that
    the name, the size, the inode and the flags call for, and writes the
    attribute and nothing else exactly when that verdict is success. *)
Theorem set_xattr_exact `{E : Etcd, !ReliableEtcd E} s ino name value flags srv
  (Hwf : mvcc_wf (eview srv)) (Hguard : guard_current s (eview srv))
  (Hrec : ∀ v l, val_at (InodeKey ino) (eview srv) = Some (v, l) → v ≠ []) :
  let '(srv', r) := run (SetXattr s ino name value flags) srv in
  r = set_verdict (eview srv) ino name value flags ∧
  ∀ k, val_at k (eview srv') =
    if is_ok r && bool_decide (k = XattrKey ino name) then Some (value, 0) else val_at k (eview srv).
Proof.
  pose proof (wp_run_reliable (SetXattr s ino name value flags)
    (xattr_set (eview srv) ino name value flags) srv) as Hrun.
  destruct (run (SetXattr s ino name value flags) srv) as [srv' r]. by apply Hrun, wpx_SetXattr.
Qed.

(** An attribute that was set reads back as the value it was set to,
    except an empty one, which reads back as no attribute at all: etcd returns
    an empty value as a nil slice and the read takes nil for absence. *)
Theorem xattr_reads_back `{E : Etcd, !ReliableEtcd E} s ino name value flags srv
  (Hwf : mvcc_wf (eview srv)) (Hguard : guard_current s (eview srv))
  (Hrec : ∀ v l, val_at (InodeKey ino) (eview srv) = Some (v, l) → v ≠ []) :
  let '(srv1, r) := run (SetXattr s ino name value flags) srv in
  r = Ok tt →
  (run (GetXattr s ino name) srv1).2 = if bool_decide (value = []) then Err ErrNoData else Ok value.
Proof.
  pose proof (wp_run_reliable (SetXattr s ino name value flags)
    (xattr_set (eview srv) ino name value flags) srv) as Hrun.
  destruct (run (SetXattr s ino name value flags) srv) as [srv1 r]. intros ->.
  destruct (Hrun (wpx_SetXattr _ _ _ _ _ _ Hwf Hguard Hrec)) as [Hok Hat]. clear Hrun.
  pose proof (wp_run_reliable (GetXattr s ino name)
    (λ r _, r = if bool_decide (value = []) then Err ErrNoData else Ok value) srv1) as Hget.
  destruct (run (GetXattr s ino name) srv1) as [srv2 r]. apply Hget. unfold GetXattr.
  destruct (validXattrName name) eqn:Hn; [|unfold set_verdict in Hok; by rewrite Hn in Hok].
  apply wpx_ebind, wpx_Get, wpx_ret. rewrite stored_val_at, Hat. cbn [is_ok andb].
  rewrite bool_decide_eq_true_2 by done. by destruct value.
Qed.

(** ** On a concrete store *)

Lemma set_xattr_exact_witness :
  (@run ref_etcd _ (SetXattr demo_store 10 (lit "user.a") [7] 1) ns_file).2 = Ok tt.
Proof.
  pose proof (@set_xattr_exact ref_etcd _ demo_store 10 (lit "user.a") [7] 1 ns_file) as H.
  destruct (@run ref_etcd _ _ _) as [srv' r]. destruct H as [-> _]; concrete.
  intros v l Hv. vm_compute in Hv. injection Hv as <- <-. discriminate.
Defined.

Lemma xattr_reads_back_witness :
  let srv := run_ref (SetXattr demo_store 10 (lit "user.a") [] 0) ns_file in
  (@run ref_etcd _ (GetXattr demo_store 10 (lit "user.a")) srv).2 = Err ErrNoData.
Proof.
  pose proof (@xattr_reads_back ref_etcd _ demo_store 10 (lit "user.a") [] 0 ns_file) as H.
  unfold run_ref. destruct (@run ref_etcd _ (SetXattr _ _ _ _ _) _) as [srv' r] eqn:E.
  cbn [fst]. rewrite H; concrete.
  { intros v l Hv. vm_compute in Hv. injection Hv as <- <-. discriminate. }
  replace r with (srv', r).2 by done. rewrite <- E. concrete.
Defined.
