(* ===== verification/NodeReqs.v ===== *)
(** * What a daemon puts on the wire

    [node_req n og] says which requests a daemon of node [n] may make: a
    transaction carries the guard of the generation [og] (if one is given) and
    writes a lock key only where it requires the lock to be free; unguarded are
    only the claim of a pooled arena (ClaimFreeArena of pkg/metadata/arena.go)
    and the node's own want keys (pkg/metadata/lock.go).

    Every operation of the store that a daemon uses keeps to it.  The service and
    its handlers are followed in DaemonReqs. *)

From S2P Require Import Prelude Etcd EtcdFacts Schema Store StoreLogic Locks Extents Allocator ArenaPool InodeTimes Dirents Fencing Xattrs Sends.

(** A result whose value, if there is one, satisfies [Q]. *)
Definition okp {A} (Q : A → Prop) (r : result A) : Prop := match r with Ok a => Q a | Err _ => True end.

(** Operations that write no lock key. *)
Definition plain (os : list op) : Prop := Forall (λ o, op_locks o = []) os.

Lemma plain_nil : plain [].
Proof. constructor. Qed.
Lemma plain_cons o os : op_locks o = [] → plain os → plain (o :: os).
Proof. by constructor. Qed.
Lemma plain_app os os' : plain os → plain os' → plain (os ++ os').
Proof. intros. by apply Forall_app. Qed.

Create HintDb node.
#[export] Hint Resolve plain_nil plain_cons plain_app : node.
#[export] Hint Extern 2 (op_locks _ = []) => reflexivity : node.
#[export] Hint Extern 1 (_ = Some _) => reflexivity : node.

Section node_req.
Context (n : bytes) (og : option Z).

Definition guards (ifs : list cmp) : Prop := ∀ g, og = Some g → WithGenerationGuard n g ∈ ifs.

(** The claim of a pooled arena. *)
Definition claims (ts : list op) : Prop := ∃ k, has_prefix PrefixFreeArena k = true ∧ ts = [OpDelete k false].

Definition node_req (q : req) : Prop :=
  match q with
  | QTxn ifs ts es => lock_disciplined (QTxn ifs ts es) ∧ (guards ifs ∨ claims ts)
  | QPut k _ _ => ∃ ino, k = LockWantKey ino n
  | QDelete k p => (∃ ino, k = LockWantKey ino n) ∧ p = false
  | QSessionClose _ => False
  | _ => True
  end.

(** A store of the node, with the generation given. *)
Definition node_store (st : Store) : Prop :=
  nodeID st = n ∧ ∃ o, guard st = Some o ∧ ∀ g, og = Some g → o = Some g.

(** [ts] writes lock keys under [ifs] only as the lock protocol does. *)
Definition lockable (ifs : list cmp) (ts : list op) : Prop := ∀ pre, lock_disciplined (QTxn (pre ++ ifs) ts []).

Lemma plain_locks ts : plain ts → concat (map op_locks ts) = [].
Proof. induction 1 as [|o ts Ho _ IH]; [done|]. simpl. by rewrite Ho, IH. Qed.

Lemma plain_lockable ifs ts : plain ts → lockable ifs ts.
Proof. intros Hp pre. by apply no_put_disciplined, plain_locks. Qed.

(** One lock taken beside plain operations. *)
Lemma lock_lockable st ino mode h l ifs pre post :
  valid_mode mode = true → plain pre → plain post → lock_cmp ino mode ∈ ifs → lockable ifs (pre ++ lock_op st ino mode h l :: post).
Proof.
  intros Hm H1 H2 Hin cs. split; [done|].
  assert (concat (map op_locks (pre ++ lock_op st ino mode h l :: post)) = [LockKey ino mode h]) as ->.
  { rewrite map_app, concat_app, (plain_locks _ H1). cbn [map concat app]. rewrite (plain_locks _ H2), app_nil_r. unfold op_locks, lock_op. cbn [op_puts].
    by rewrite filter_cons_True by apply LockKey_is_lock_key. }
  split; [done|]. intros k ->%list_elem_of_singleton. exists ino, mode, h. repeat split; [done|]. apply elem_of_app. by right.
Qed.

Notation sends := (sends node_req).

Lemma sends_call q : node_req q → sends (call q) (λ _, True).
Proof. by split. Qed.

Lemma sends_read st r ser : sends (read st r ser) (okp (λ x, ∀ e, e ∈ x.1 → in_range r e.1 = true)).
Proof.
  assert (∀ a : resp (QRange r ser), plausible (QRange r ser) a → ∀ x, a = Some x → ∀ e, e ∈ x.1 → in_range r e.1 = true) as Hp.
  { intros a Ha [kvs rev] ->. by apply (Ha kvs rev). }
  unfold read. destruct (localClient st); (split; [done|]); intros [x|] Hx; simpl; try done; try exact (Hp _ Hx x eq_refl).
  split; [done|]. intros [y|] Hy; [exact (Hp _ Hy y eq_refl)|done].
Qed.

Lemma sends_GetPrefix st p : sends (GetPrefix st p) (okp (λ kvs, ∀ e, e ∈ kvs → has_prefix p e.1 = true)).
Proof. eapply sends_ethen; [apply sends_read|done..]. Qed.

Lemma sends_readTxn st rs ser : sends (readTxn st rs ser)
  (okp (λ ls, ∀ i r l x, rs !! i = Some r → ls !! i = Some l → x ∈ l → in_range r x.1 = true)).
Proof.
  unfold readTxn. destruct (localClient st); (split; [done|]); intros [x|] Hx; simpl in *; try done; try exact (Hx x eq_refl).
  split; [done|]. intros [y|] Hy; [exact (Hy y eq_refl)|done].
Qed.

Lemma sends_Get st k : sends (Get st k) (λ _, True).
Proof. by eapply sends_ethen; [apply sends_read|..]. Qed.
Lemma sends_GetRevision st k : sends (GetRevision st k) (λ _, True).
Proof. eapply sends_true, sends_read. Qed.
Lemma sends_GetGeneration st m : sends (GetGeneration st m) (λ _, True).
Proof. by eapply sends_ethen; [apply sends_Get|..]. Qed.
Lemma sends_GetInode st ino : sends (GetInode st ino) (λ _, True).
Proof. by eapply sends_ethen; [apply sends_Get|..]. Qed.
Lemma sends_GetInodeRev st ino : sends (GetInodeRev st ino) (λ _, True).
Proof. by eapply sends_ethen; [apply sends_GetRevision|..]. Qed.
Lemma sends_guardFailed st : sends (guardFailed st) (λ _, True).
Proof. unfold guardFailed. destruct (guard st) as [[g|]|]; try done. by eapply sends_ethen; [apply sends_GetGeneration|..]. Qed.
Lemma sends_LookupDirent st p d : sends (LookupDirent st p d) (λ _, True).
Proof. by eapply sends_ethen; [apply sends_Get|..]. Qed.
Lemma sends_ListDirents st p : sends (ListDirents st p) (λ _, True).
Proof. by eapply sends_ethen; [apply sends_GetPrefix|..]. Qed.
Lemma sends_LockHeldBy st ino m h : sends (LockHeldBy st ino m h) (λ _, True).
Proof. by eapply sends_ethen; [apply sends_Get|..]. Qed.

Section guarded.
Context (st : Store) (Hst : node_store st).

Lemma sends_TxnResponse ifs ts : lockable ifs ts → sends (TxnResponse st ifs ts []) (λ _, True).
Proof.
  intros Hl. destruct Hst as (Hn & o & Hg & Ho). unfold TxnResponse. rewrite Hg. destruct o as [g|]; [|done].
  eapply (sends_ethen _ _ _ (λ _, True)).
  - unfold txnRawResponse. eapply sends_then; [apply sends_call|done]. split; [apply (Hl [_])|]. left.
    intros g' Hg'. injection (Ho g' Hg') as ->. rewrite Hn. left.
  - intros r _. case_if; [|done]. eapply sends_then; [apply sends_guardFailed|]. by intros [[]|].
  - done.
Qed.

Lemma sends_TxnRev ifs ts : lockable ifs ts → sends (TxnRev st ifs ts []) (λ _, True).
Proof. intros. eapply sends_ethen; [by apply sends_TxnResponse|done..]. Qed.
Lemma sends_Txn ifs ts : lockable ifs ts → sends (Txn st ifs ts []) (λ _, True).
Proof. intros. eapply sends_ethen; [by apply sends_TxnRev|done..]. Qed.

Lemma sends_guardedOp g o : guard st = Some (Some g) → op_locks o = [] → sends (guardedOp st g o) (λ _, True).
Proof.
  intros Hg Hp. destruct Hst as (Hn & o' & Hg' & Ho). rewrite Hg in Hg'. injection Hg' as <-. eapply sends_then; [apply sends_call|done].
  split; [apply no_put_disciplined; simpl; by rewrite Hp|]. left. intros g2 Hg2. injection (Ho g2 Hg2) as ->. rewrite Hn. left.
Qed.

Lemma sends_Put k v l : is_lock_key k = false → sends (Put st k v l) (λ _, True).
Proof.
  intros Hk. destruct Hst as (_ & o & Hg & _). unfold Put, guardedWrite. rewrite Hg. destruct o as [g|]; [|done].
  eapply sends_ethen; [apply sends_guardedOp; [done|]|done..]. unfold op_locks. cbn [op_puts].
  by rewrite filter_cons_False by by rewrite Hk.
Qed.

Lemma sends_delete_with k p : sends (delete_with st k p) (λ _, True).
Proof.
  destruct Hst as (_ & o & Hg & _). unfold delete_with. rewrite Hg. destruct o as [g|]; [|done].
  eapply sends_ethen; [by apply sends_guardedOp|done..].
Qed.
End guarded.
End node_req.

#[export] Hint Resolve plain_lockable sends_read sends_GetPrefix sends_readTxn sends_Get sends_GetRevision sends_GetGeneration
  sends_GetInode sends_GetInodeRev sends_guardFailed sends_LookupDirent sends_ListDirents sends_LockHeldBy
  sends_TxnResponse sends_TxnRev sends_Txn sends_Put sends_delete_with : node.
#[export] Hint Extern 1 (sends _ (call _) _) => apply sends_call; exact I : node.

(** Walk a program: binds by what is known of their first part, then cases. *)
Ltac node_step :=
  match goal with
  | |- ∀ _, _ => intros
  | |- sends _ (Ret _) _ => cbn [sends]
  | |- sends _ (ebind _ _) _ =>
    first [ eapply sends_ethen; [solve [eauto with node]|intros ? ?; cbn [okp] in *|try done]
          | eapply (sends_ethen _ _ _ (λ _, True)); [|intros ? _|try done] ]
  | |- sends _ (bind _ _) _ =>
    first [ eapply sends_then; [solve [eauto with node]|intros ? ?; cbn [okp] in *]
          | eapply (sends_then _ _ _ (λ _, True)); [|intros ? _] ]
  | |- sends _ (if ?b then _ else _) _ => destruct b
  | |- sends _ (match ?x with _ => _ end) _ => destruct x
  | |- okp _ (Ok _) => progress cbn [okp fst snd a_ops no_adjust]
  | |- okp _ (match ?x with _ => _ end) => destruct x
  end.
Ltac node_auto := repeat (first [ done | solve [eauto 7 with node] | node_step ]).

(** ** The operations of the store *)

Section operations.
Context (n : bytes) (og : option Z) (st : Store) (Hst : node_store n og st).
Notation sends := (sends (node_req n og)).
Notation ok p := (sends p (λ _, True)).

Lemma sends_retryCAS {A} (attempt : prog (result (option A))) : ok attempt → ok (retryCAS attempt).
Proof.
  intros Ha. unfold retryCAS. generalize casAttempts as fuel, O as i. induction fuel as [|fuel IH]; intros i; [done|].
  cbn [retry_loop]. eapply sends_ethen; [exact Ha| |done]. intros [a|] _; [done|]. eapply sends_then; [by apply sends_call|]. intros [] _; [done|apply IH].
Qed.

Lemma sends_reserve k floor count : is_lock_key k = false → ok (ReserveCounter st k floor count).
Proof.
  intros Hk. unfold ReserveCounter. case_if; [done|]. generalize casAttempts as fuel, O as i.
  induction fuel as [|fuel IH]; intros i; [done|]. cbn [reserve_loop].
  assert (∀ v, plain [put k v]) as Hp.
  { intros v. apply plain_cons; [|constructor]. unfold op_locks, put. cbn [op_puts]. by rewrite filter_cons_False by by rewrite Hk. }
  node_auto. Qed.

Lemma sends_commitInodeTimes ino u : ok (commitInodeTimes st ino u).
Proof. apply sends_retryCAS. node_auto. Qed.

Lemma sends_touchDir t ino : ok (touchDir st t ino).
Proof. pose proof sends_commitInodeTimes. unfold touchDir. node_auto. Qed.

Lemma sends_adjust ino d : sends (adjustDirNlink st ino d) (okp (λ a, plain (a_ops a))).
Proof. unfold adjustDirNlink. node_auto.
Qed.

Lemma sends_unlinkOps rec : sends (unlinkInodeOps rec) plain.
Proof. unfold unlinkInodeOps. node_auto. Qed.

Lemma sends_unlink_tail ino rec h : sends (unlink_tail st ino rec h) (λ x, plain x.1).
Proof. pose proof sends_unlinkOps. unfold unlink_tail. node_auto. Qed.

(** What a create is given to add: plain operations, or the new file's lock. *)
Definition extra_ok (x : CreateExtra) : Prop :=
  plain (Ops x) ∨ ∃ ino m h l, valid_mode m = true ∧ Cmps x = [lock_cmp ino m] ∧ Ops x = [lock_op st ino m h l].

Lemma extra_lockable x c c' os os' : extra_ok x → plain os → plain os' →
  lockable ((c ++ Cmps x) ++ c') ((os ++ Ops x) ++ os').
Proof.
  intros [Hp|(ino & m & h & l & Hm & -> & ->)] H1 H2; [by eauto with node|].
  rewrite <- (app_assoc os). apply (lock_lockable st); [done..|]. set_solver.
Qed.

Lemma sends_create t p d x mk : extra_ok x → ok (create_with st t p d x mk).
Proof.
  intros Hx. pose proof sends_touchDir. pose proof sends_adjust.
  assert (∀ rec, ok (create_attempt st p d rec x)) as Ha.
  { intros rec. unfold create_attempt.
    eapply (sends_ethen _ _ _ (okp (λ a, plain (a_ops a)))); [case_if; [apply sends_adjust|constructor]| |done].
    intros a Ho. eapply sends_ethen; [apply sends_Txn; [done|]| |done].
    - apply extra_lockable; [done| |done]. unfold PutInode. eauto 6 with node.
    - node_auto. }
  unfold create_with, atomicCreate. eapply sends_then; [by apply sends_call|]. intros now _. eapply (sends_then _ _ _ (λ _, True)); [|done].
  eapply sends_then; [apply sends_retryCAS, Ha|]. node_auto.
Qed.

Lemma sends_link t i p d : ok (AtomicLink st t i p d).
Proof.
  pose proof sends_touchDir. unfold AtomicLink. eapply sends_then; [apply sends_retryCAS; unfold link_attempt; node_auto|node_auto].
Qed.

Lemma sends_rmdir p d : ok (AtomicRmdir st p d).
Proof. pose proof sends_adjust. apply sends_retryCAS. unfold rmdir_attempt. node_auto. Qed.

Lemma sends_adjust_all ds cs os : plain os → sends (adjust_all st ds cs os) (okp (λ x, plain x.2)).
Proof.
  revert cs os. induction ds as [|[i d] ds IH]; intros cs os Ho; [done|]. cbn [adjust_all]. case_if; [by apply IH|].
  eapply sends_ethen; [apply sends_adjust| |done]. intros a Ha. apply IH. by apply plain_app.
Qed.

Lemma sends_finish_rename p p' b c cs os : plain os → ok (finish_rename st p p' b c cs os).
Proof.
  intros Ho. unfold finish_rename, applyRenameNlink. eapply sends_ethen; [by apply sends_adjust_all| |done].
  intros x Hx. unfold commitRename. node_auto.
Qed.

Lemma sends_victim b i : sends (replace_victim st b i) (okp (λ x, plain x.1.2)).
Proof. pose proof sends_unlinkOps. unfold replace_victim. node_auto. Qed.

Lemma sends_rename t p d p' d' i f : ok (AtomicRename st t p d p' d' i f).
Proof.
  pose proof sends_touchDir. unfold AtomicRename. eapply (sends_then _ _ _ (λ _, True)); [|unfold touchRenameDirs; node_auto].
  pose proof sends_victim. pose proof sends_finish_rename. unfold rename_commit, isDescendant. node_auto.
Qed.

Lemma sends_DeleteOrphan i : ok (DeleteOrphan st i).
Proof.
  unfold DeleteOrphan. eapply sends_ethen; [apply sends_GetInode| |done]. intros rec _.
  eapply (sends_then _ _ _ plain); [|intros; node_auto]. destruct rec as [r|]; [|constructor]. case_if; [apply sends_unlinkOps|constructor].
Qed.

Lemma sends_settle due failed : ok (settle_each st due failed).
Proof.
  pose proof sends_commitInodeTimes. revert failed. induction due as [|[j u] due IH]; intros failed; [done|].
  cbn [settle_each]. node_auto.
Qed.

Lemma sends_batch_build due : sends (batch_build st due) (λ x, plain x.1.2).
Proof.
  induction due as [|[j u] due IH]; [constructor|]. cbn [batch_build]. eapply sends_then; [apply sends_GetInodeRev|]. intros x _.
  eapply sends_then; [exact IH|]. intros [[cs os] failed] Ho. cbn [sends]. destruct x as [[[rec|] rev]|e]; [|done..].
  destruct (apply u rec) as [rec' []]; [|done]. cbn [fst snd] in *. eauto with node.
Qed.

Lemma sends_flush_times sh t i : ok (FlushInodeTimes st sh t i).
Proof.
  pose proof sends_settle. pose proof sends_batch_build. unfold FlushInodeTimes. destruct t as [dirty|]; [|done].
  eapply (sends_then _ _ _ (λ _, True)); [|done]. unfold flush.
  generalize (dirty ∖ filter (λ x, i = 0 ∨ x.1 = i) dirty), (chunkUpdates (sh (map_to_list (filter (λ x, i = 0 ∨ x.1 = i) dirty))) timeBatchInodes).
  intros d cs. revert d. induction cs as [|c cs IH]; intros d; [done|]. cbn [flush_chunks].
  eapply (sends_then _ _ _ (λ _, True)); [|intros; apply IH]. unfold commitInodeTimesBatch. destruct c as [|x c]; [done|].
  eapply sends_then; [apply sends_batch_build|]. intros [[cs' os] failed] Ho. destruct os as [|o os]; [done|]. node_auto.
Qed.

Lemma sends_SetXattr ino name v flags : ok (SetXattr st ino name v flags).
Proof. unfold SetXattr. node_auto. Qed.
Lemma sends_RemoveXattr ino name : ok (RemoveXattr st ino name).
Proof. unfold RemoveXattr. node_auto. Qed.

Lemma sends_session ls ttl : ok (lockSession ls ttl).
Proof. apply sends_issues. by apply issues_lockSession. Qed.

Lemma sends_AcquireLock ls ino m ttl : ok (AcquireLock st ls ino m ttl).
Proof.
  pose proof sends_session. unfold AcquireLock. destruct (valid_mode m) eqn:Hm; [|done]. cbn [negb].
  eapply sends_then; [apply sends_session|]. intros [ls' [l|e]] _; [|done]. eapply sends_then; [apply sends_Txn; [done|]|].
  - apply (lock_lockable st _ _ _ _ _ [] []); [done|constructor|constructor|left].
  - by intros [[]|] _.
Qed.

Lemma sends_PrepareLock ls ino m ttl : sends (PrepareLock st ls ino m ttl)
  (λ x, okp (λ y, extra_ok (mkExtra [y.1.2] [y.2])) x.2).
Proof.
  unfold PrepareLock. destruct (valid_mode m) eqn:Hm; [|done]. cbn [negb].
  eapply sends_then; [apply sends_session|]. intros [ls' [l|e]] _; [|done]. right. simpl. eauto 10.
Qed.

Lemma sends_want ls ino : ok (AnnounceLockWant st ls ino) ∧ ok (ClearLockWant st ino).
Proof.
  destruct Hst as (Hn & _). split.
  - eapply sends_then; [apply sends_session|]. intros [ls' [l|e]] _; [|done].
    eapply (sends_then _ _ _ (λ _, True)); [|done]. eapply sends_then; [apply sends_call; exists ino; by rewrite Hn|done].
  - eapply sends_then; [apply sends_call; split; [exists ino; by rewrite Hn|done]|done].
Qed.

Lemma sends_ReleaseLocks batch : ok (ReleaseLocks st batch).
Proof.
  unfold ReleaseLocks. destruct batch as [|r batch]; [done|]. eapply sends_ethen; [apply sends_TxnResponse; [done|]| |done].
  - apply plain_lockable. apply Forall_map. by apply Forall_forall.
  - intros a _. by case_if.
Qed.

Lemma sends_ReleaseLock ino m h : ok (ReleaseLock st ino m h).
Proof. unfold ReleaseLock, DeleteCounting. node_auto. Qed.

(** Arenas: the claim is the one transaction without the guard. *)
Lemma sends_claim_loop kvs : (∀ e, e ∈ kvs → has_prefix PrefixFreeArena e.1 = true) → ok (claim_loop kvs).
Proof.
  induction kvs as [|[k e] kvs IH]; intros Hk; [done|]. cbn [claim_loop].
  assert (ok (claim_loop kvs)) as Hr by (apply IH; intros; apply Hk; by right).
  destruct (ParseUint _); [|done]. eapply (sends_ethen _ _ _ (λ _, True)); [| |done].
  - eapply (sends_ethen _ _ _ (λ _, True)); [|done..]. eapply sends_then; [apply sends_call|done].
    split; [by apply no_put_disciplined|]. right. exists k. split; [|done]. apply (Hk (k, e)). left.
  - intros [] _; [done|exact Hr].
Qed.

Lemma sends_AcquireArena a : ok (AcquireArena st a).
Proof.
  assert (ok (allocateArenaID st)) as Hid.
  { unfold allocateArenaID. eapply (sends_then _ _ _ (λ _, True)).
    - unfold ClaimFreeArena. eapply sends_ethen; [apply sends_GetPrefix| |done]. intros kvs Hk. by apply sends_claim_loop.
    - pose proof sends_reserve. unfold NextCounter. intros [[id|]|e] _; [done|..];
        (eapply sends_ethen; [by apply sends_reserve|done..]). }
  unfold AcquireArena, recordOwnership, AllExtents. node_auto.
Qed.

Lemma sends_CountOwned : ok (CountOwnedArenas st).
Proof. unfold CountOwnedArenas. node_auto. Qed.
Lemma sends_ListAfter p name limit : ok (ListDirentsAfter st p name limit).
Proof. unfold ListDirentsAfter. node_auto. Qed.
Lemma sends_GetXattr ino name : ok (GetXattr st ino name).
Proof. unfold GetXattr. node_auto. Qed.
Lemma sends_ListXattrs ino : ok (ListXattrs st ino).
Proof. unfold ListXattrs. node_auto. Qed.

(** Extents come with the keys they were read under. *)
Definition extents_ok (l : list Extent) : Prop := ∀ e, e ∈ l → is_lock_key (Key e) = false.

Lemma decoded_under k v e : DecodeExtent k v = Some e → Key e = k.
Proof. unfold DecodeExtent. intros. repeat case_match; by simplify_eq. Qed.

Lemma extent_prefix_plain ino k : has_prefix (ExtentPrefix ino) k = true → is_lock_key k = false.
Proof. by intros [t ->]%has_prefix_true. Qed.

Lemma decoded_ok kvs ino : (∀ x, x ∈ kvs → has_prefix (ExtentPrefix ino) x.1 = true) → extents_ok (DecodeExtents kvs).
Proof.
  intros Hk e He. unfold DecodeExtents, SortExtents in He. rewrite merge_sort_Permutation in He. apply list_elem_of_omap in He as (x & Hx & Hd).
  apply fmap_Some in Hd as (e0 & Hd & ->). simpl. rewrite (decoded_under _ _ _ Hd). by apply (extent_prefix_plain ino), Hk.
Qed.

Lemma sends_GetExtents ino ser : sends (GetExtents st ino ser) (okp extents_ok).
Proof. eapply sends_ethen; [apply sends_read| |done]. intros x Hx. by apply (decoded_ok _ ino). Qed.

Lemma sends_GetInodeAndExtents ino : sends (GetInodeAndExtents st ino) (okp (λ x, match x with Some y => extents_ok y.2 | None => True end)).
Proof.
  eapply sends_ethen; [apply sends_readTxn| |done]. intros x Hx. cbn [sends].
  destruct x as [|[|[k e] l0] [|exts [|]]]; try done. simpl. apply (decoded_ok _ ino). intros y Hy. by apply (Hx 1%nat (RPrefix (ExtentPrefix ino)) exts).
Qed.
End operations.

#[export] Hint Resolve sends_retryCAS sends_reserve sends_commitInodeTimes sends_touchDir sends_adjust sends_unlinkOps
  sends_unlink_tail sends_link sends_rmdir sends_rename sends_DeleteOrphan sends_flush_times sends_AcquireLock
  sends_CountOwned sends_ListAfter sends_GetXattr sends_ListXattrs sends_SetXattr sends_RemoveXattr
  sends_PrepareLock sends_ReleaseLocks sends_ReleaseLock sends_AcquireArena sends_GetExtents sends_GetInodeAndExtents : node.
