(* ===== verification/Service.v ===== *)
(** * The IPC service's state and the plumbing its operations share

    Models the [Service] of internal/ipc/service.go with the lock entries of
    internal/ipc/lockcache.go it keeps, the block device underneath
    (pkg/blockio/device.go, whose system calls are requests), the retry policy
    of internal/ipc/retry.go and the guarded commit.

    An operation is a [svc]: it reads and changes the service's state and makes
    requests.  One daemon's operations run one after the other; the local locks
    of an entry are part of its state, so that an operation which must not
    touch a busy entry can be seen not to. *)

From S2P Require Import Prelude Etcd EtcdFacts Schema Store Locks Extents Allocator ArenaPool.

(** ** State *)

(** [inodeMeta]: an inode's record and extents as of one revision. *)
Record inodeMeta := mkMeta { m_rec : option InodeRecord; m_extents : list Extent }.

(** [reclaimPlan]: the rewrite that gives back what a write buried. *)
Record reclaimPlan := mkPlan { p_cmp : cmp; p_ops : list op; freeOff : Z; freeLen : Z }.

(** [bufferedRun]: a device range whose bytes are still in memory. *)
Record bufferedRun := mkBuffered { b_off : Z; b_buf : bytes }.

(** [pending]: writes acknowledged and not yet published.  [made]: the maps
    have been allocated since the last reset. *)
Record pending := mkPending {
  made : bool; cmps : gmap bytes cmp; ops : gmap bytes op; order : list bytes;
  plans : list reclaimPlan; data : list bufferedRun; runs : list Run;
  pbytes : Z; since : Z; perr : option err
}.
Definition no_pending : pending := mkPending false ∅ ∅ [] [] [] [] 0 0 None.

(** [lockEntry]: [writer] and [readers] are the local read-write lock; an empty
    [holder] is no key; [meta] is the cached snapshot with the holder token it
    was read under. *)
Record lockEntry := mkEntry {
  e_ino : Z; writer : bool; readers : Z;
  mode : bytes; holder : bytes; lease : Z; acquiredAt : Z; holdTime : Z;
  meta : option inodeMeta; metaFor : bytes;
  dataStreakEnd : Z; buffer : option pending; lastUsed : Z
}.
Definition new_entry (ino : Z) : lockEntry := mkEntry ino false 0 [] [] 0 0 0 None [] 0 None 0.

(** [blockio.Device]. *)
Record Device := mkDevice { direct : bool; sectorSize : Z; totalSize : Z }.

(** What is decided once, before the service serves anything. *)
Record Options := mkOptions {
  flushInterval : Z; flushMaxBytes : Z; bufferMaxBytes : Z;
  dataCache : bool; pageCache : bool; readOnly : bool; writeBarriers : bool
}.

Definition defaultFlushInterval : Z := 100 * 1000000.
Definition defaultFlushMaxBytes : Z := 16777216.    (* 16 << 20 *)
Definition defaultBufferMaxBytes : Z := 268435456.  (* 256 << 20 *)

Record Service := mkService {
  opts : Options; node : bytes; local : bool; fenced : bool;
  genInit : bool; startGen : Z;
  lstate : LockState; alloc : Allocator; dev : option Device;
  bufferedOps : Z; bufferedBytes : Z; pagesCached : bool;
  entries : gmap Z lockEntry
}.

(** The service's store carries its generation in the guard, or reports it
    unavailable before the generation is known (InstallStoreGuard). *)
Definition store (s : Service) : Store :=
  mkStore (node s) (local s) (Some (if genInit s then Some (startGen s) else None)).

Definition set_gen (g : Z) (s : Service) : Service :=
  mkService (opts s) (node s) (local s) (fenced s) true g (lstate s) (alloc s) (dev s)
    (bufferedOps s) (bufferedBytes s) (pagesCached s) (entries s).
Definition set_lstate (l : LockState) (s : Service) : Service :=
  mkService (opts s) (node s) (local s) (fenced s) (genInit s) (startGen s) l (alloc s) (dev s)
    (bufferedOps s) (bufferedBytes s) (pagesCached s) (entries s).
Definition set_alloc (a : Allocator) (s : Service) : Service :=
  mkService (opts s) (node s) (local s) (fenced s) (genInit s) (startGen s) (lstate s) a (dev s)
    (bufferedOps s) (bufferedBytes s) (pagesCached s) (entries s).
Definition set_dev (d : option Device) (s : Service) : Service :=
  mkService (opts s) (node s) (local s) (fenced s) (genInit s) (startGen s) (lstate s) (alloc s) d
    (bufferedOps s) (bufferedBytes s) (pagesCached s) (entries s).
Definition set_buffered (ops bytes : Z) (s : Service) : Service :=
  mkService (opts s) (node s) (local s) (fenced s) (genInit s) (startGen s) (lstate s) (alloc s) (dev s)
    ops bytes (pagesCached s) (entries s).
Definition set_pagesCached (b : bool) (s : Service) : Service :=
  mkService (opts s) (node s) (local s) (fenced s) (genInit s) (startGen s) (lstate s) (alloc s) (dev s)
    (bufferedOps s) (bufferedBytes s) b (entries s).
Definition set_entries (m : gmap Z lockEntry) (s : Service) : Service :=
  mkService (opts s) (node s) (local s) (fenced s) (genInit s) (startGen s) (lstate s) (alloc s) (dev s)
    (bufferedOps s) (bufferedBytes s) (pagesCached s) m.

(** ** Operations on the service *)

Definition svc (A : Type) : Type := Service → prog (Service * A).

Definition sret {A} (a : A) : svc A := λ s, Ret (s, a).
Definition sbind {A B} (p : svc A) (f : A → svc B) : svc B := λ s, x ⇐ p s; f x.2 x.1.
Definition lift {A} (p : prog A) : svc A := λ s, x ⇐ p; Ret (s, x).
Definition gets {A} (f : Service → A) : svc A := λ s, Ret (s, f s).
Definition modify (f : Service → Service) : svc unit := λ s, Ret (f s, tt).
Definition with_store {A} (f : Store → prog A) : svc A := λ s, x ⇐ f (store s); Ret (s, x).

Notation "x ⇠ p ; q" := (sbind p (λ x, q))
  (at level 100, p at next level, right associativity) : etcfs_scope.

(** [if err != nil { return err }]. *)
Definition sebind {A B} (p : svc (result A)) (f : A → svc (result B)) : svc (result B) :=
  sbind p (λ r, match r with Ok a => f a | Err e => sret (Err e) end).
Notation "x ⇠? p ; q" := (sebind p (λ x, q))
  (at level 100, p at next level, right associativity) : etcfs_scope.

(** ** Retrying (retry.go) *)

Definition etcdAttempts : nat := 5.
Definition contendedAttempts : nat := 22.

Definition permanent (e : err) : bool :=
  match e with ErrFenced | ErrGuardUnavailable => true | _ => false end.

(** The wait between attempts reports whether the context ended. *)
Fixpoint retry_from {A} (fn : svc (result A)) (last : err) (attempts attempt : nat) : svc (result A) :=
  match attempts with
  | O => sret (Err last)
  | S n =>
    r ⇠ fn;
    match r with
    | Ok a => sret (Ok a)
    | Err e =>
      if permanent e then sret (Err e)
      else
        done ⇠ lift (call (QBackoff attempt));
        if (done : bool) then sret (Err e) else retry_from fn e n (S attempt)
    end
  end.
Definition retry {A} (attempts : nat) (fn : svc (result A)) : svc (result A) := retry_from fn EOther attempts 0.

(** Each attempt has a context of its own; the wait still honours the caller's. *)
Definition retryEtcd {A} (fn : svc (result A)) : svc (result A) := retry etcdAttempts fn.

(** ** The generation and the guarded commit *)

Definition guardGeneration : svc (result Z) := λ s,
  if genInit s then Ret (s, Ok (startGen s))
  else
    r ⇐ EnsureGenerationKey (store s) (node s);
    Ret match r with
        | Err e => (s, Err e)
        | Ok gen => (set_gen gen s, Ok gen)
        end.

Definition writeGeneration : svc Z :=
  r ⇠ guardGeneration; sret match r with Ok gen => gen | Err _ => 0 end.

Record commit := mkCommit { committed : bool; by_fence : bool; crev : Z }.

Definition commitGuarded (cmps : list cmp) (ops : list op) : svc (result commit) :=
  _ ⇠? guardGeneration;
  r ⇠ retryEtcd (with_store (λ st, TxnRev st cmps ops []));
  sret match r with
       | Err ErrFenced => Ok (mkCommit false true 0)
       | Err e => Err e
       | Ok (ok, rev) => Ok (mkCommit ok false rev)
       end.

(** ** The device (blockio) and its buffers *)

Definition os_pagesize : Z := 4096.
Definition round_up (n align : Z) : Z := (n + align - 1) / align * align.

Definition misaligned (d : Device) (off n : Z) : bool :=
  direct d && (negb (off mod sectorSize d =? 0) || negb (n mod sectorSize d =? 0)).

Definition WriteAt (d : Device) (b : bytes) (off : Z) : prog (result unit) :=
  if misaligned d off (Z.of_nat (length b)) then Ret (Err ErrDevice)
  else ok ⇐ call (QIO (DevWrite off b)); Ret (if (ok : bool) then Ok tt else Err ErrDevice).

Definition ReadAt (d : Device) (n off : Z) : prog (result bytes) :=
  if misaligned d off n then Ret (Err ErrDevice)
  else r ⇐ call (QIO (DevRead off n)); Ret match r with Some b => Ok b | None => Err ErrDevice end.

Definition FlushDevice : prog (result unit) :=
  ok ⇐ call (QIO DevFlush); Ret (if (ok : bool) then Ok tt else Err ErrDevice).

(** A smaller answer is ignored. *)
Definition RefreshSize (d : Device) : prog (Device * result Z) :=
  r ⇐ call (QIO DevSize);
  Ret match r with
      | None => (d, Err ErrDevice)
      | Some size => if size <=? totalSize d then (d, Ok (totalSize d))
                     else (mkDevice (direct d) (sectorSize d) size, Ok size)
      end.

(** A buffer is its length and whether its address is known to be aligned;
    mapped and freshly made buffers are zeroed. *)
Definition ioBuffer (s : Service) (n : Z) : prog (Z * bool) :=
  match dev s with
  | Some d =>
    if direct d then
      let alignedLen := round_up n (sectorSize d) in
      ok ⇐ call (QIO (AlignedBuffer alignedLen));
      Ret (if (ok : bool) then (Z.max alignedLen os_pagesize, true) else (n, false))
    else Ret (n, false)
  | None => Ret (n, false)
  end.

Definition directSafe (s : Service) (n : Z) (aligned : bool) : prog bool :=
  match dev s with
  | None => Ret true
  | Some d =>
    if negb (direct d) || (n =? 0) then Ret true
    else if negb (n mod sectorSize d =? 0) then Ret false
    else if aligned then Ret true else call (QIO (AddrAligned n))
  end.

(** One run on the device; the barriers' own failures are only logged. *)
Definition writeRun (s : Service) (b : bytes) (diskOff : Z) : prog (result unit) :=
  match dev s with
  | None => Ret (Err ErrDevice)
  | Some d =>
    _ ⇐? WriteAt d b diskOff;
    if negb (writeBarriers (opts s)) then Ret (Ok tt)
    else
      _ ⇐ FlushDevice;
      _ ⇐ call (QIO (DevSync diskOff (Z.of_nat (length b))));
      x ⇐ ioBuffer s (Z.min (Z.of_nat (length b)) (sectorSize d));
      _ ⇐ ReadAt d x.1 diskOff;
      Ret (Ok tt)
  end.

(** [readInto]: [n] bytes at [diskOff], through a bounce buffer where the
    destination cannot take a direct read. *)
Definition readInto (s : Service) (n diskOff : Z) : prog (result bytes) :=
  match dev s with
  | None => Ret (Err ErrDevice)
  | Some d =>
    safe ⇐ directSafe s n false;
    if (safe : bool) then ReadAt d n diskOff
    else x ⇐ ioBuffer s n; b ⇐? ReadAt d x.1 diskOff; Ret (Ok (take (Z.to_nat n) b))
  end.

(** ** Space *)

Definition freeBlocks (diskOff len : Z) : svc unit := modify (λ s, set_alloc (Free (alloc s) diskOff len) s).

Definition free_runs (rs : list Run) : svc unit :=
  modify (λ s, set_alloc (foldl (λ a r, Free a (r_off r) (r_len r)) (alloc s) rs) s).

Definition refreshDeviceSize : svc bool := λ s,
  match dev s with
  | None => Ret (s, false)
  | Some d =>
    x ⇐ RefreshSize d;
    let s := set_dev (Some x.1) s in
    Ret match x.2 with
        | Err _ => (s, false)
        | Ok size => if size <=? deviceSize (alloc s) then (s, false)
                     else (set_alloc (SetDeviceSize (alloc s) size) s, true)
        end
  end.

Definition acquire_arena : svc (result unit) := λ s,
  x ⇐ AcquireArena (store s) (alloc s);
  Ret (set_alloc x.1 s, match x.2 with Ok _ => Ok tt | Err e => Err e end).

Definition allocate_in (size : Z) : svc (option (list Run)) := λ s,
  let '(a, r) := Allocate (alloc s) size in Ret (set_alloc a s, r).

(** Expands into a fresh arena if the arenas held cannot satisfy the request,
    and asks the device for its size again if that does not fit. *)
Definition allocateBlocks (size : Z) : svc (result (list Run)) :=
  n ⇠ gets (λ s, ArenaCount (alloc s));
  got ⇠ (if 0 <? n then allocate_in size else sret None);
  match got with
  | Some runs => sret (Ok runs)
  | None =>
    r ⇠ acquire_arena;
    r ⇠ match r with
        | Err ErrNoSpace =>
          grown ⇠ refreshDeviceSize;
          if (grown : bool) then acquire_arena else sret (Err ErrNoSpace)
        | r => sret r
        end;
    _ ⇠? sret r;
    got ⇠ allocate_in size;
    sret match got with Some runs => Ok runs | None => Err EOther end
  end.

(** [setBlockDevice]: barriers are forced on without O_DIRECT. *)
Definition barriers_for (d : Device) (asked : bool) : bool := asked || negb (direct d).

Definition pagesCacheable (s : Service) : bool := pageCache (opts s) && pagesCached s.

(** [invalidatePages] (notify.go): a client that is gone took its pages with it. *)
Definition invalidatePages (ino : Z) : svc (result unit) := λ s,
  if negb (pagesCacheable s) then Ret (s, Ok tt)
  else
    r ⇐ call (QIO (InvalPages ino));
    Ret match r with
        | InvalDone => (s, Ok tt)
        | InvalNoClient => (set_pagesCached false s, Ok tt)
        | InvalFailed => (s, Err EOther)
        end.

(** [IsFenced]: the watchdog has fired. *)
Definition IsFenced : svc bool := gets fenced.

(** ** Requests to the device *)

Definition is_io (q : req) : Prop := match q with QIO _ => True | _ => False end.

Lemma io_FlushDevice : issues is_io FlushDevice.
Proof. apply issues_bind; [by split|done]. Qed.
Lemma io_ioBuffer s n : issues is_io (ioBuffer s n).
Proof. unfold ioBuffer. destruct (dev s) as [d|]; [|done]. case_if; [|done]. apply issues_bind; [by split|]. done. Qed.
Lemma io_ReadAt d n off : issues is_io (ReadAt d n off).
Proof. unfold ReadAt. case_if; [done|]. apply issues_bind; [by split|done]. Qed.
