(* ===== verification/DataPath.v ===== *)
(** * The data path: planning writes, replaying them, resolving reads

    Models internal/ipc/writeop.go, the planning half of internal/ipc/datapath.go
    (reclaim plans, transaction replay, read resolution) and the reclaiming
    operations: truncation (datapath.go) and punching holes (sparse.go).  The
    handlers that take the inode's lock around these are in DataHandlers. *)

From S2P Require Import Prelude Etcd EtcdFacts Schema Store Locks Extents Allocator ArenaPool InodeTimes Service.

Definition maxWriteTxnOps : Z := 120.
Definition maxReclaimOps : Z := 2.

(** ** Reclaim plans *)

Definition has_dev (s : Service) : bool := match dev s with Some _ => true | None => false end.

(** The rewrite of [old] into what a write over [start, end) leaves readable,
    and the next unused chunk number. *)
Definition planReclaim (s : Service) (old : Extent) (start end_ next : Z) : option reclaimPlan * Z :=
  if negb (has_dev s) || negb (Owns (alloc s) (DiskOff old)) then (None, next)
  else
    let '(head, tail) := SplitAround old start end_ in
    let c := mod_is (Key old) (ModRevision old) in
    let '(fo, fl) := CoveredBlocks old head tail in
    match head, tail with
    | None, None => (Some (mkPlan c [OpDelete (Key old) false] fo fl), next)
    | Some h, Some t =>
      (Some (mkPlan c [put (Key old) (Encode h); put (ExtentKey (extent_ino old) next) (Encode t)] fo fl),
       add64 next 1)
    | Some h, None => (Some (mkPlan c [put (Key old) (Encode h)] fo fl), next)
    | None, Some t =>
      if LogOff t =? LogOff old then (None, next)
      else (Some (mkPlan c [put (Key old) (Encode t)] fo fl), next)
    end.

Definition freeReclaimed (p : reclaimPlan) : svc unit :=
  if 0 <? freeLen p then freeBlocks (freeOff p) (freeLen p) else sret tt.

Fixpoint free_plans (ps : list reclaimPlan) : svc unit :=
  match ps with
  | [] => sret tt
  | p :: ps' => _ ⇠ freeReclaimed p; free_plans ps'
  end.

(** A plan applied on its own; metadata first, then the free.  The chunk
    counter advances with the plan, applied or not. *)
Definition reclaimCovered (old : Extent) (start end_ next : Z) : svc (Z * result unit) := λ s,
  let '(p, next') := planReclaim s old start end_ next in
  match p with
  | None => Ret (s, (next', Ok tt))
  | Some p =>
    (r ⇠ with_store (λ st, Txn st [p_cmp p] (p_ops p) []);
     match r with
     | Err e => sret (next', Err e)
     | Ok false => sret (next', Err ErrExtentChanged)
     | Ok true => _ ⇠ freeReclaimed p; sret (next', Ok tt)
     end) s
  end.

(** ** Writes in progress *)

Record writeOp := mkWriteOp {
  w_ino : Z; w_offset : Z; w_data : bytes; w_uid : Z; w_gen : Z;
  w_runs : list Run; w_written : bool;
  w_rec : InodeRecord; w_existing : list Extent;
  w_chunk : Z; w_seq : Z;
  w_end : Z; w_plans : list reclaimPlan; w_deferred : list Extent; w_next : Z; w_modeChanged : bool
}.

Definition dataLen (w : writeOp) : Z := Z.of_nat (length (w_data w)).
Definition padded (w : writeOp) : Z := (dataLen w + BlockSize - 1) / BlockSize * BlockSize.

Definition set_runs (rs : list Run) (w : writeOp) : writeOp :=
  mkWriteOp (w_ino w) (w_offset w) (w_data w) (w_uid w) (w_gen w) rs (w_written w) (w_rec w) (w_existing w)
    (w_chunk w) (w_seq w) (w_end w) (w_plans w) (w_deferred w) (w_next w) (w_modeChanged w).
Definition set_written (w : writeOp) : writeOp :=
  mkWriteOp (w_ino w) (w_offset w) (w_data w) (w_uid w) (w_gen w) (w_runs w) true (w_rec w) (w_existing w)
    (w_chunk w) (w_seq w) (w_end w) (w_plans w) (w_deferred w) (w_next w) (w_modeChanged w).
Definition set_view (rec : InodeRecord) (exts : list Extent) (chunk seq : Z) (w : writeOp) : writeOp :=
  mkWriteOp (w_ino w) (w_offset w) (w_data w) (w_uid w) (w_gen w) (w_runs w) (w_written w) rec exts
    chunk seq (w_end w) (w_plans w) (w_deferred w) (w_next w) (w_modeChanged w).
Definition set_proposal (end_ : Z) (ps : list reclaimPlan) (deferred : list Extent) (next : Z) (mc : bool)
  (w : writeOp) : writeOp :=
  mkWriteOp (w_ino w) (w_offset w) (w_data w) (w_uid w) (w_gen w) (w_runs w) (w_written w) (w_rec w)
    (w_existing w) (w_chunk w) (w_seq w) end_ ps deferred next mc.

(** One past the highest chunk and sequence in use. *)
Definition count_from (exts : list Extent) : Z * Z :=
  foldl (λ '(c, q) e, (if c <=? Chunk e then add64 (Chunk e) 1 else c,
                       if q <=? Seq e then add64 (Seq e) 1 else q)) (0, 0) exts.

Definition countFrom (rec : InodeRecord) (exts : list Extent) (w : writeOp) : writeOp :=
  let '(c, q) := count_from exts in set_view rec exts c q w.

Definition newWriteOp (ino offset : Z) (data : bytes) (uid gen : Z) (rec : InodeRecord) (exts : list Extent) : writeOp :=
  countFrom rec exts (mkWriteOp ino offset data uid gen [] false rec exts 0 0 0 [] [] 0 false).

Definition readExtents (w : writeOp) : svc (result writeOp) :=
  exts ⇠? with_store (λ st, GetExtents st (w_ino w) false); sret (Ok (countFrom (w_rec w) exts w)).

(** ** The transaction of a write *)

(** One extent per run, in order; the final run is padded and its extent
    covers only the real bytes.  [end_] is the end of the last extent. *)
Fixpoint propose_runs (w : writeOp) (node : bytes) (rs : list Run) (pos next end_ : Z)
  : list cmp * list op * Z * Z :=
  match rs with
  | [] => ([], [], next, end_)
  | r :: rs' =>
    let extLen := Z.min (r_len r) (sub64 (dataLen w) pos) in
    let ext := mkExtent [] 0 0 (w_seq w) node (add64 (w_offset w) pos) (r_off r) extLen (w_gen w) in
    let key := ExtentKey (w_ino w) next in
    let '(cs, os, next', end') := propose_runs w node rs' (add64 pos (r_len r)) (add64 next 1) (End_ ext) in
    (key_absent key :: cs, put key (Encode ext) :: os, next', end')
  end.

(** The rewrite of every extent the write buries; what would not fit in the
    transaction is deferred. *)
Fixpoint propose_reclaims (s : Service) (offset end_ : Z) (exts : list Extent)
  (cs : list cmp) (os : list op) (ps : list reclaimPlan) (deferred : list Extent) (next : Z)
  : list cmp * list op * list reclaimPlan * list Extent * Z :=
  match exts with
  | [] => (cs, os, ps, deferred, next)
  | old :: exts' =>
    if (end_ <=? LogOff old) || (End_ old <=? offset)
    then propose_reclaims s offset end_ exts' cs os ps deferred next
    else if (maxWriteTxnOps <? Z.of_nat (length os) + maxReclaimOps + 1) || (maxWriteTxnOps <? Z.of_nat (length cs) + 1)
    then propose_reclaims s offset end_ exts' cs os ps (deferred ++ [old]) next
    else
      match planReclaim s old offset end_ next with
      | (None, next') => propose_reclaims s offset end_ exts' cs os ps deferred next'
      | (Some p, next') =>
        propose_reclaims s offset end_ exts' (cs ++ [p_cmp p]) (os ++ p_ops p) (ps ++ [p]) deferred next'
      end
  end.

Definition set_Size_Mode (size mode : Z) (r : InodeRecord) : InodeRecord :=
  mkInode (Ino r) size (Blocks r) mode (Nlink r) (UID r) (GID r) (Rdev r) (Blksize r)
    (Generation r) (Atime r) (Mtime r) (Ctime r).

Definition proposal (s : Service) (w : writeOp) : writeOp * list cmp * list op :=
  let '(cs, os, next, end_) := propose_runs w (node s) (w_runs w) 0 (w_chunk w) (w_offset w) in
  let mode := ClearSetIDOnWrite (Mode (w_rec w)) (w_uid w) in
  let modeChanged := negb (mode =? Mode (w_rec w)) in
  let os := if (Size (w_rec w) <? end_) || modeChanged
            then os ++ [put (InodeKey (w_ino w)) (EncodeInode (set_Size_Mode (Z.max (Size (w_rec w)) end_) mode (w_rec w)))]
            else os in
  let '(cs, os, ps, deferred, next) := propose_reclaims s (w_offset w) end_ (w_existing w) cs os [] [] next in
  (set_proposal end_ ps deferred next modeChanged w, cs, os).

Definition replan (s : Service) (rec : InodeRecord) (exts : list Extent) (w : writeOp)
  : writeOp * list cmp * list op :=
  proposal s (countFrom rec exts w).

(** ** Replaying a transaction into the cached view *)

Record txnReplay := mkReplay { t_rec : InodeRecord; t_puts : list Extent; t_dels : list Z }.

Definition op_key (o : op) : bytes := match o with OpPut k _ _ => k | OpDelete k _ => k end.

(** [None] is an operation the cache cannot account for. *)
Fixpoint replay_ops (ino : Z) (os : list op) (r : txnReplay) : option txnReplay :=
  match os with
  | [] => Some r
  | OpPut k v _ :: os' =>
    if bool_decide (k = InodeKey ino) then
      match DecodeInode v with
      | None => None
      | Some rec => replay_ops ino os' (mkReplay rec (t_puts r) (t_dels r))
      end
    else if negb (has_prefix (ExtentPrefix ino) k) then None
    else
      match DecodeExtent k v with
      | None => None
      | Some e => replay_ops ino os' (mkReplay (t_rec r) (t_puts r ++ [e]) (t_dels r))
      end
  | OpDelete k _ :: os' =>
    if negb (has_prefix (ExtentPrefix ino) k) then None
    else
      match ParseExtentKey k with
      | None => None
      | Some (_, chunk) => replay_ops ino os' (mkReplay (t_rec r) (t_puts r) (t_dels r ++ [chunk]))
      end
  end.

Definition replayTxn (ino : Z) (rec : InodeRecord) (os : list op) : option txnReplay :=
  replay_ops ino os (mkReplay rec [] []).

(** The first extent with this chunk number is taken out, if there is one. *)
Fixpoint remove_chunk (chunk : Z) (exts : list Extent) : list Extent :=
  match exts with
  | [] => []
  | e :: exts' => if Chunk e =? chunk then exts' else e :: remove_chunk chunk exts'
  end.

Definition apply_put (rev : Z) (exts : list Extent) (e : Extent) : list Extent :=
  InsertExtent (remove_chunk (Chunk e) exts) (set_ModRevision rev e).

Definition apply_replay (r : txnReplay) (exts : list Extent) (rev : Z) : inodeMeta :=
  mkMeta (Some (t_rec r)) (foldl (apply_put rev) (foldl (flip remove_chunk) exts (t_dels r)) (t_puts r)).

(** ** Resolving a read *)

(** A piece of a read: [s_n] bytes at [s_pos] of the file are [s_disk] on the
    device. *)
Record segment := mkSegment { s_pos : Z; s_disk : Z; s_n : Z }.

(** The walk of handleRead over the extents in resolution order. *)
Fixpoint read_segments (exts : list Extent) (pos reqEnd : Z) : list segment :=
  match exts with
  | [] => []
  | e :: exts' =>
    if (reqEnd <=? pos) || (reqEnd <=? LogOff e) then []
    else if End_ e <=? pos then read_segments exts' pos reqEnd
    else
      let pos := Z.max pos (LogOff e) in
      let within := sub64 pos (LogOff e) in
      let n := Z.min (sub64 (Length e) within) (sub64 reqEnd pos) in
      mkSegment pos (add64 (DiskOff e) within) n :: read_segments exts' (add64 pos n) reqEnd
  end.

(** [pending.readAt]: a device range that is wholly buffered in one run. *)
Fixpoint buffered_at (rs : list bufferedRun) (n diskOff : Z) : option bytes :=
  match rs with
  | [] => None
  | r :: rs' =>
    if (b_off r <=? diskOff) && (add64 diskOff n <=? add64 (b_off r) (Z.of_nat (length (b_buf r))))
    then Some (take (Z.to_nat n) (drop (Z.to_nat (diskOff - b_off r)) (b_buf r)))
    else buffered_at rs' n diskOff
  end.

Definition readAt (p : option pending) (n diskOff : Z) : option bytes :=
  match p with None => None | Some p => buffered_at (data p) n diskOff end.

Definition bufferedReadAt (s : Service) (e : lockEntry) (n diskOff : Z) : option bytes :=
  if dataCache (opts s) then readAt (buffer e) n diskOff else None.

(** [copy(dst[i:], b)] into a buffer with room for [b]. *)
Definition splice (dst : bytes) (i : Z) (b : bytes) : bytes :=
  take (Z.to_nat i) dst ++ b ++ drop (Z.to_nat i + length b) dst.

(** The reply's buffer filled piece by piece: from this node's own unpublished
    bytes where they are buffered, from the device otherwise. *)
Fixpoint read_fill (s : Service) (e : lockEntry) (offset : Z) (segs : list segment) (buf : bytes)
  : prog (result bytes) :=
  match segs with
  | [] => Ret (Ok buf)
  | g :: segs' =>
    match bufferedReadAt s e (s_n g) (s_disk g) with
    | Some b => read_fill s e offset segs' (splice buf (s_pos g - offset) b)
    | None => b ⇐? readInto s (s_n g) (s_disk g); read_fill s e offset segs' (splice buf (s_pos g - offset) b)
    end
  end.

(** The data of a read, clamped to the file's size; holes are zeroes. *)
Definition read_data (s : Service) (e : lockEntry) (rec : InodeRecord) (exts : list Extent) (offset size : Z)
  : prog (result bytes) :=
  if Size rec <=? offset then Ret (Ok [])
  else
    let remaining := sub64 (Size rec) offset in
    let size := if remaining <? size then wrap32 remaining else size in
    _ ⇐ ioBuffer s size;
    read_fill s e offset (read_segments exts offset (add64 offset size)) (replicate (Z.to_nat size) 0).

(** ** Device writes of a write *)

(** The buffer's runs in order, each at its place of the padded payload. *)
Fixpoint write_runs (s : Service) (b : bytes) (rs : list Run) : prog (result unit) :=
  match rs with
  | [] => Ret (Ok tt)
  | r :: rs' =>
    _ ⇐? writeRun s (take (Z.to_nat (r_len r)) b) (r_off r);
    write_runs s (drop (Z.to_nat (r_len r)) b) rs'
  end.

(** The payload, padded with zeroes to whole blocks. *)
Definition padded_data (w : writeOp) : bytes := w_data w ++ replicate (Z.to_nat (padded w - dataLen w)) 0.

Definition writeThrough (w : writeOp) : svc (result writeOp) := λ s,
  if w_written w then Ret (s, Ok w)
  else
    safe ⇐ (if negb (padded w =? dataLen w) then Ret false else directSafe s (dataLen w) false);
    ready ⇐ (if (safe : bool) then Ret true else x ⇐ ioBuffer s (padded w); directSafe s x.1 x.2);
    if negb (ready : bool) then Ret (s, Err ErrUnaligned)
    else
      r ⇐ write_runs s (padded_data w) (w_runs w);
      Ret (s, match r with Ok _ => Ok (set_written w) | Err e => Err e end).

(** The payload cut into the runs it was given. *)
Fixpoint cut_runs (b : bytes) (rs : list Run) : list bufferedRun :=
  match rs with
  | [] => []
  | r :: rs' => mkBuffered (r_off r) (take (Z.to_nat (r_len r)) b) :: cut_runs (drop (Z.to_nat (r_len r)) b) rs'
  end.

Definition bufferedPayload (w : writeOp) : list bufferedRun := cut_runs (padded_data w) (w_runs w).

Definition freeRuns (w : writeOp) : svc unit := free_runs (w_runs w).

Definition allocate (w : writeOp) : svc (result writeOp) :=
  rs ⇠? allocateBlocks (dataLen w); sret (Ok (set_runs rs w)).

(** What did not fit in the transaction, a round trip each; failures are left
    to the scrubber. *)
Fixpoint reclaim_deferred (old : list Extent) (start end_ next : Z) : svc unit :=
  match old with
  | [] => sret tt
  | e :: old' =>
    r ⇠ reclaimCovered e start end_ next;
    reclaim_deferred old' start end_ r.1
  end.

Definition reclaimDeferred (w : writeOp) : svc unit :=
  reclaim_deferred (w_deferred w) (w_offset w) (w_end w) (w_next w).

(** ** Truncation and punching *)

(** [^uint64(0)]. *)
Definition max_uint64 : Z := 2 ^ 64 - 1.

Definition next_unused (exts : list Extent) : Z :=
  foldl (λ c e, if c <=? Chunk e then add64 (Chunk e) 1 else c) 0 exts.

(** Reclaim [start, end) of every extent that [want]s it. *)
Fixpoint reclaim_each (want : Extent → bool) (exts : list Extent) (start end_ next : Z) : svc (result unit) :=
  match exts with
  | [] => sret (Ok tt)
  | e :: exts' =>
    if want e then
      r ⇠ reclaimCovered e start end_ next;
      match r.2 with Err e => sret (Err e) | Ok _ => reclaim_each want exts' start end_ r.1 end
    else reclaim_each want exts' start end_ next
  end.

Definition truncateOnce (ino newSize : Z) : svc (result unit) :=
  exts ⇠? with_store (λ st, GetExtents st ino false);
  reclaim_each (λ e, newSize <? End_ e) exts newSize max_uint64 (next_unused exts).

Definition truncate (ino newSize : Z) : svc (result unit) := retry etcdAttempts (truncateOnce ino newSize).

Definition set_Size_Times (size now : Z) (r : InodeRecord) : InodeRecord :=
  set_Ctime now (set_Mtime now (set_Size_Mode size (Mode r) r)).

Definition truncateToZero (ino : Z) : svc (result unit) :=
  x ⇠? with_store (λ st, GetInodeRev st ino);
  match x.1 with
  | None => sret (Err ErrNotFound)
  | Some rec =>
    if negb (Z.land (Mode rec) S_IFMT =? ModeFile) || (Size rec =? 0) then sret (Ok tt)
    else
      _ ⇠? truncate ino 0;
      now ⇠ lift (call QNow);
      ok ⇠? with_store (λ st, Txn st [InodeUnchanged ino x.2]
               [put (InodeKey ino) (EncodeInode (set_Size_Times 0 now rec))] []);
      sret (if (ok : bool) then Ok tt else Err ErrConflict)
  end.

Definition punch_once (ino start end_ : Z) : svc (result unit) :=
  exts ⇠? with_store (λ st, GetExtents st ino false);
  reclaim_each (λ e, negb ((End_ e <=? start) || (end_ <=? LogOff e))) exts start end_ (next_unused exts).

Definition punchHole (ino start end_ : Z) : svc (result unit) := retry etcdAttempts (punch_once ino start end_).

Definition growTo (ino newSize : Z) : svc (result unit) :=
  x ⇠? with_store (λ st, GetInodeRev st ino);
  match x.1 with
  | None => sret (Err ErrNotFound)
  | Some rec =>
    if newSize <=? Size rec then sret (Ok tt)
    else
      now ⇠ lift (call QNow);
      ok ⇠? with_store (λ st, Txn st [InodeUnchanged ino x.2]
               [put (InodeKey ino) (EncodeInode (set_Size_Times newSize now rec))] []);
      sret (if (ok : bool) then Ok tt else Err ErrConflict)
  end.
