(* ===== verification/ReadProps.v ===== *)
(** * Reading through the extent map

    What the walk of handleRead returns: on a list in resolution order in which
    no newer extent starts strictly inside an older one, every byte comes from
    a newest extent that covers it, and exactly the holes are left zero.  The
    condition is needed: without it the walk serves the older bytes. *)

From S2P Require Import Prelude Etcd EtcdFacts Schema Store Locks Extents ExtentProps Allocator ArenaPool InodeTimes Service DataPath.

(** ** The abstract file *)

(** [e] is a newest extent of [l] holding byte [x]. *)
Definition newest_at (l : list Extent) (x : Z) (e : Extent) : Prop :=
  e ∈ l ∧ covers e x ∧ ∀ f, f ∈ l → covers f x → Seq f <= Seq e.

(** Byte [x] of the file is byte [d] of the device. *)
Definition resolves (l : list Extent) (x d : Z) : Prop := ∃ e, newest_at l x e ∧ d = ext_disk e x.

(** No newer extent starts strictly inside an older one. *)
Definition layered (l : list Extent) : Prop :=
  ∀ e f, e ∈ l → f ∈ l → LogOff e < LogOff f < LogOff e + Length e → Seq f <= Seq e.

(** Two extents of one write agree on the bytes they have in common. *)
Definition one_writer (l : list Extent) : Prop :=
  ∀ e f x, e ∈ l → f ∈ l → Seq e = Seq f → covers e x → covers f x → ext_disk e x = ext_disk f x.

Lemma resolves_fun l x d1 d2 : one_writer l → resolves l x d1 → resolves l x d2 → d1 = d2.
Proof.
  intros H1 (e1 & (Hi1 & Hc1 & Hn1) & ->) (e2 & (Hi2 & Hc2 & Hn2) & ->).
  apply H1; auto. specialize (Hn1 e2). specialize (Hn2 e1). naive_solver lia.
Qed.

#[global] Instance covers_dec e x : Decision (covers e x).
Proof. unfold covers. apply _. Defined.

Lemma newest_exists l x : (∃ e, e ∈ l ∧ covers e x) → ∃ e, newest_at l x e.
Proof.
  induction l as [|e l IH]; [intros (? & ?%elem_of_nil & _); done|]. intros (f & Hf & Hx).
  destruct (decide (Exists (λ e, covers e x) l)) as [He|He]; rewrite Exists_exists in He.
  - destruct (IH He) as (g & Hg & Hgx & Hn).
    assert (covers e x ∧ Seq g < Seq e ∨ (covers e x → Seq e <= Seq g)) as [[]|] by (unfold covers; lia).
    + exists e. split; [left|]. split; [done|]. intros h [->|Hh]%elem_of_cons Hhx; [lia|]. specialize (Hn h Hh Hhx). lia.
    + exists g. split; [by right|]. split; [done|]. intros h [->|Hh]%elem_of_cons Hhx; auto.
  - exists e. apply elem_of_cons in Hf as [->|Hf]; [|by destruct He; eauto].
    split; [left|]. split; [done|]. intros h [->|Hh]%elem_of_cons Hhx; [lia|by destruct He; eauto].
Qed.

(** ** The walk *)

Definition in_seg (g : segment) (x : Z) : Prop := s_pos g <= x < s_pos g + s_n g.

Lemma ext_le_LogOff e f : ext_le e f → LogOff e <= LogOff f ∧ (LogOff e = LogOff f → Seq f <= Seq e).
Proof. order_solve. Qed.

Section walk.
Set Default Proof Using "Type".
Context (reqEnd : Z) (Hend : reqEnd < 2 ^ 64).

(** What the walk owes for the bytes from [pos] on. *)
Definition walk_ok (l : list Extent) (pos : Z) (segs : list segment) : Prop :=
  Forall (λ g, pos <= s_pos g ∧ 0 <= s_n g ∧ s_pos g + s_n g <= reqEnd) segs ∧
  StronglySorted (λ g h, s_pos g + s_n g <= s_pos h) segs ∧
  ∀ x, pos <= x < reqEnd →
  (∀ g, g ∈ segs → in_seg g x → resolves l x (s_disk g + (x - s_pos g))) ∧
  ((∃ e, e ∈ l ∧ covers e x) → ∃ g, g ∈ segs ∧ in_seg g x).

Lemma seg_walk_skip e l pos segs :
  LogOff e + Length e <= pos → walk_ok l pos segs → walk_ok (e :: l) pos segs.
Proof.
  intros He (Hf & Hs & Hx). split; [done|]. split; [done|]. intros x Hr.
  destruct (Hx x Hr) as [H1 H2]. split.
  - intros g Hg Hgx. destruct (H1 g Hg Hgx) as (f & (Hfl & Hfx & Hn) & ->).
    exists f. split; [|done]. split; [by right|]. split; [done|].
    intros h [->|Hh]%elem_of_cons Hhx; [unfold covers in Hhx; lia|auto].
  - intros (f & [->|Hf']%elem_of_cons & Hfx); [unfold covers in Hfx; lia|eauto].
Qed.

Lemma walk_take e l pos segs :
  ext_wf e → 0 <= pos → pos < reqEnd → LogOff e < reqEnd → pos < LogOff e + Length e →
  (∀ f, f ∈ l → ext_le e f) → layered (e :: l) →
  let p := Z.max pos (LogOff e) in
  let n := Z.min (LogOff e + Length e - p) (reqEnd - p) in
  walk_ok l (p + n) segs →
  walk_ok (e :: l) pos (mkSegment p (DiskOff e + (p - LogOff e)) n :: segs).
Proof.
  intros Hwf H0 Hpos Hlog Hlt Hle Hlay p n (Hf & Hs & Hx).
  assert (pos <= p ∧ LogOff e <= p ∧ 0 <= n ∧ p + n <= reqEnd ∧ p + n <= LogOff e + Length e) as Hb
    by (unfold ext_wf in Hwf; lia).
  split; [|split].
  - constructor; [simpl; lia|]. eapply Forall_impl; [exact Hf|]. simpl. lia.
  - constructor; [done|]. eapply Forall_impl; [exact Hf|]. simpl. lia.
  - intros x Hr. assert (∀ f, f ∈ l → x < p → ¬ covers f x) as Hhole.
    { intros f Hfl Hxp Hc. destruct (ext_le_LogOff e f (Hle f Hfl)) as [? _]. unfold covers in Hc. lia. }
    split.
    + intros g [->|Hg]%elem_of_cons Hgx; simpl in *.
      * unfold in_seg in Hgx; simpl in Hgx. exists e. split; [|unfold ext_disk; lia].
        split; [left|]. split; [unfold covers; lia|].
        intros f [->|Hfl]%elem_of_cons Hfx; [lia|]. destruct (ext_le_LogOff e f (Hle f Hfl)) as [Hlo Hse].
        destruct (decide (LogOff e = LogOff f)); [auto|]. unfold covers in Hfx.
        apply Hlay; [left|by right|lia].
      * assert (p + n <= x) as Hpn by (rewrite Forall_forall in Hf; specialize (Hf g Hg); unfold in_seg in Hgx; lia).
        destruct (Hx x ltac:(lia)) as [H1 _]. destruct (H1 g Hg Hgx) as (f & (Hfl & Hfx & Hn) & Hd).
        exists f. split; [|done]. split; [by right|]. split; [done|].
        intros h [->|Hh]%elem_of_cons Hhx; [unfold covers in Hhx; lia|auto].
    + intros (f & Hfl & Hfx). destruct (decide (x < p + n)) as [Hxn|Hxn].
      * exists (mkSegment p (DiskOff e + (p - LogOff e)) n). split; [left|]. unfold in_seg; simpl.
        split; [|done]. destruct (decide (x < p)) as [Hxp|]; [|lia].
        apply elem_of_cons in Hfl as [->|Hfl]; [unfold covers in Hfx; lia|by destruct (Hhole f Hfl Hxp)].
      * apply elem_of_cons in Hfl as [->|Hfl]; [unfold covers in Hfx; lia|].
        destruct (Hx x ltac:(lia)) as [_ H2]. destruct H2 as (g & Hg & Hgx); [eauto|]. exists g. split; [by right|done].
Qed.

Lemma layered_cons e l : layered (e :: l) → layered l.
Proof. intros H f g Hf Hg. apply H; by right. Qed.

Lemma read_segments_ok l pos :
  Forall ext_wf l → StronglySorted ext_le l → layered l → 0 <= pos →
  walk_ok l pos (read_segments l pos reqEnd).
Proof using Hend.
  intros Hwf Hsort Hlay. revert pos. induction l as [|e l IH]; intros pos Hpos.
  { split; [done|]. split; [constructor|]. intros x _. split; [intros g Hg; inversion Hg|].
    intros (e & He & _). inversion He. }
  inversion Hwf as [|? ? He Hwl]; subst. inversion Hsort as [|? ? Hsl Hle]; subst.
  rewrite Forall_forall in Hle. specialize (IH Hwl Hsl (layered_cons _ _ Hlay)).
  pose proof He as (? & ? & ? & ? & ? & _). unfold BlockSize in *. cbn [read_segments]. rewrite (End_wf e He).
  destruct ((reqEnd <=? pos) || (reqEnd <=? LogOff e)) eqn:E.
  { split; [done|]. split; [constructor|]. intros x Hr. split; [intros g Hg; inversion Hg|].
    intros (f & Hf & Hc). exfalso. unfold covers in Hc. apply orb_true_iff in E as [E|E]; zbool; [lia|].
    apply elem_of_cons in Hf as [->|Hf]; [lia|]. destruct (ext_le_LogOff e f (Hle f Hf)). lia. }
  zbool. destruct (Z.leb_spec (LogOff e + Length e) pos); [by apply seg_walk_skip; auto|].
  rewrite !(sub64_small (Z.max pos _)), (sub64_small (Length e)), (sub64_small reqEnd) by lia.
  replace (Length e - (Z.max pos (LogOff e) - LogOff e)) with (LogOff e + Length e - Z.max pos (LogOff e)) by lia.
  rewrite !add64_small by lia. apply walk_take; try done; try lia. apply IH. lia.
Qed.
End walk.

(** ** The bytes of a read *)

(** The device answers reads from [disk]. *)
Definition disk_serves `{E : Etcd} (disk : Z → Z) : Prop :=
  ∀ off n srv, (eserve (QIO (DevRead off n)) srv).2 = Some (map disk (seqZ off n)).

(** What the file holds at [x]: the device byte its newest extent names, or
    the zero of a hole. *)
Definition file_byte (disk : Z → Z) (l : list Extent) (x v : Z) : Prop :=
  (∃ d, resolves l x d ∧ v = disk d) ∨ ((∀ e, e ∈ l → ¬ covers e x) ∧ v = 0).

Lemma splice_lookup dst i b j :
  0 <= i → (Z.to_nat i + length b <= length dst)%nat →
  length (splice dst i b) = length dst ∧
  splice dst i b !! j = (if decide (Z.to_nat i <= j < Z.to_nat i + length b)%nat
                         then b !! (j - Z.to_nat i)%nat else dst !! j).
Proof.
  intros Hi Hl. unfold splice. split; [rewrite !length_app, length_take, length_drop; lia|].
  case_decide as Hj.
  - rewrite lookup_app_r, lookup_app_l; rewrite length_take, ?Nat.min_l by lia; [done|lia|lia].
  - destruct (decide (j < Z.to_nat i)%nat).
    + rewrite lookup_app_l by (rewrite length_take; lia). by rewrite lookup_take_lt by lia.
    + rewrite !lookup_app_r by (rewrite ?length_take; lia). rewrite length_take, lookup_drop.
      f_equal. lia.
Qed.

Section bytes.
Set Default Proof Using "Type".
Context `{E : Etcd} (disk : Z → Z) (Hdisk : disk_serves disk).
Context (s : Service) (e : lockEntry) (d : Device) (Hdev : dev s = Some d) (Hbuf : direct d = false).
Context (Hnone : ∀ n off, bufferedReadAt s e n off = None).

Lemma run_readInto n off srv :
  ∃ srv', run (readInto s n off) srv = (srv', Ok (map disk (seqZ off n))).
Proof using Hdisk Hdev Hbuf.
  unfold readInto, directSafe, ReadAt, misaligned. rewrite Hdev, Hbuf. simpl.
  specialize (Hdisk off n srv). destruct (eserve _ srv) as [srv' r]. simpl in *. subst. eauto.
Qed.

(** Segments in order, inside the buffer, fill exactly their own bytes. *)
Lemma run_read_fill segs offset reqEnd buf srv :
  length buf = Z.to_nat (reqEnd - offset) →
  Forall (λ g, offset <= s_pos g ∧ 0 <= s_n g ∧ s_pos g + s_n g <= reqEnd) segs →
  StronglySorted (λ g h, s_pos g + s_n g <= s_pos h) segs →
  ∃ srv' out, run (read_fill s e offset segs buf) srv = (srv', Ok out) ∧ length out = length buf ∧
  ∀ x, offset <= x < reqEnd →
    (∀ g, g ∈ segs → in_seg g x → out !! Z.to_nat (x - offset) = Some (disk (s_disk g + (x - s_pos g)))) ∧
    ((∀ g, g ∈ segs → ¬ in_seg g x) → out !! Z.to_nat (x - offset) = buf !! Z.to_nat (x - offset)).
Proof using Hdisk Hdev Hbuf Hnone.
  revert buf srv. induction segs as [|g segs IH]; intros buf srv Hlen Hall Hs.
  { exists srv, buf. split; [done|]. split; [done|]. intros x Hx. split; [intros g Hg; inversion Hg|done]. }
  inversion Hall as [|? ? (Hg1 & Hg2 & Hg3) Hall']; subst. inversion Hs as [|? ? Hs' Hge]; subst.
  cbn [read_fill]. rewrite Hnone. unfold ebind. rewrite run_bind.
  destruct (run_readInto (s_n g) (s_disk g) srv) as [srv1 ->]. set (b := map disk _).
  assert (length b = Z.to_nat (s_n g)) as Hb by (unfold b; rewrite length_map, length_seqZ; done).
  pose proof (λ j, splice_lookup buf (s_pos g - offset) b j ltac:(lia) ltac:(lia)) as Hsp.
  destruct (IH (splice buf (s_pos g - offset) b) srv1) as (srv' & out & Hrun & Hl & Hout); [|done..|].
  { by rewrite (proj1 (Hsp 0%nat)). }
  exists srv', out. split; [done|]. split; [by rewrite Hl, (proj1 (Hsp 0%nat))|].
  intros x Hx. destruct (Hout x Hx) as [H1 H2]. rewrite Forall_forall in Hge.
  assert (in_seg g x → splice buf (s_pos g - offset) b !! Z.to_nat (x - offset) = Some (disk (s_disk g + (x - s_pos g)))) as Hgx.
  { unfold in_seg. intros Hgx. rewrite (proj2 (Hsp _)), decide_True by lia. unfold b.
    rewrite list_lookup_fmap.
    replace (seqZ (s_disk g) (s_n g) !! _) with (Some (s_disk g + (x - s_pos g))); [done|].
    symmetry. apply lookup_seqZ. lia. }
  split.
  - intros h [->|Hh]%elem_of_cons Hhx; [|by apply H1]. rewrite H2; [by apply Hgx|].
    intros h Hh Hh'. specialize (Hge h Hh). unfold in_seg in *. lia.
  - intros Hn. rewrite H2 by (intros h Hh; apply Hn; by right).
    rewrite (proj2 (Hsp _)), decide_False; [done|]. intros Hd. apply (Hn g); [left|].
    unfold in_seg. lia.
Qed.
End bytes.


(** A file of three extents, the newest in the middle of the others' reach. *)
Definition demo_opts : Options := mkOptions 0 defaultFlushMaxBytes defaultBufferMaxBytes false false false true.
Definition demo_svc : Service :=
  mkService demo_opts (lit "n1") false false true 0 (mkLockState None 0) (mkAllocator [new_arena 0] 0 0)
    (Some (mkDevice false 512 (2 ^ 40))) 0 0 false ∅.
Definition demo_rec (size : Z) : InodeRecord := mkInode 7 size 0 (Z.lor ModeFile 420) 1 0 0 0 4096 0 0 0 0.
Definition ext_at (chunk seq log disk len : Z) : Extent :=
  mkExtent (ExtentKey 7 chunk) chunk 1 seq (lit "n1") log disk len 0.
Definition demo_exts : list Extent := [ext_at 0 0 0 8192 4096; ext_at 2 1 4096 40960 100; ext_at 1 0 4096 65536 4096].

Lemma ref_disk_serves : @disk_serves ref_etcd ref_disk.
Proof. by intros off n srv. Qed.

