(* ===== verification/ReplayProps.v ===== *)
(** * The cached extents never drift from the store

    A node that publishes a transaction edits its cached extent list by
    replaying the transaction's operations.  The result is exactly the list a
    fresh read would decode: same extents, same order, same revisions. *)

From S2P Require Import Prelude Etcd EtcdFacts Schema SchemaProps Store Locks Extents ExtentProps Allocator ArenaPool InodeTimes Service DataPath.

(** ** Lists of extents with distinct chunk numbers *)

Lemma remove_chunk_sublist c l : sublist (remove_chunk c l) l.
Proof.
  induction l as [|e l IH]; simpl; [constructor|]. case_if; [by apply sublist_cons|by apply sublist_skip].
Qed.

Lemma remove_chunk_elem c l e :
  NoDup (Chunk <$> l) → e ∈ remove_chunk c l ↔ e ∈ l ∧ Chunk e ≠ c.
Proof.
  induction l as [|f l IH]; simpl; [intros _; by rewrite elem_of_nil; tauto|].
  intros [Hf Hn]%NoDup_cons. destruct (Z.eqb_spec (Chunk f) c) as [<-|Hc]; rewrite elem_of_cons.
  - split; [|by intros [[->|?] ?]]. intros He. split; [by right|]. intros E.
    apply Hf. rewrite <- E. by apply list_elem_of_fmap_2.
  - rewrite elem_of_cons, (IH Hn). naive_solver.
Qed.

(** Ordered, with distinct chunk numbers. *)
Definition tidy (l : list Extent) : Prop := StronglySorted ext_le l ∧ NoDup (Chunk <$> l).

Lemma sublist_sorted {A} (R : relation A) l k : sublist l k → StronglySorted R k → StronglySorted R l.
Proof.
  induction 1 as [|x l k Hl IH|x l k Hl IH]; intros Hs; [done| |inversion Hs; auto].
  inversion Hs as [|? ? Hk Hx]; subst. constructor; [auto|].
  rewrite Forall_forall in Hx |- *. intros y Hy. apply Hx. by eapply elem_of_sublist.
Qed.

Lemma remove_chunk_tidy c l : tidy l → tidy (remove_chunk c l).
Proof.
  intros [Hs Hn]. pose proof (remove_chunk_sublist c l) as Hsub. split; [by eapply sublist_sorted|].
  eapply sublist_NoDup; [exact Hn|]. by apply fmap_sublist.
Qed.

Lemma removes_ok dels l :
  tidy l →
  tidy (foldl (flip remove_chunk) l dels) ∧
  ∀ e, e ∈ foldl (flip remove_chunk) l dels ↔ e ∈ l ∧ Chunk e ∉ dels.
Proof.
  revert l. induction dels as [|c dels IH]; intros l Hl; simpl.
  { split; [done|]. intros e. split; [intros ?; split; [done|apply not_elem_of_nil]|tauto]. }
  destruct (IH (remove_chunk c l) (remove_chunk_tidy c l Hl)) as [Ht He]. split; [done|].
  intros e. unfold flip in *. rewrite He, remove_chunk_elem by apply Hl. rewrite elem_of_cons. tauto.
Qed.

Lemma apply_put_ok rev l p :
  tidy l →
  tidy (apply_put rev l p) ∧
  ∀ e, e ∈ apply_put rev l p ↔ e = set_ModRevision rev p ∨ (e ∈ l ∧ Chunk e ≠ Chunk p).
Proof.
  intros Hl. unfold apply_put. pose proof (remove_chunk_tidy (Chunk p) l Hl) as [Hs Hn].
  pose proof (remove_chunk_elem (Chunk p) l) as He. split; [split|].
  - by apply InsertExtent_sorted.
  - rewrite InsertExtent_perm. simpl. apply NoDup_cons. split; [|done].
    intros (f & Ef & Hf)%list_elem_of_fmap. apply He in Hf as [_ Hf]; [|apply Hl]. by rewrite <- Ef in Hf.
  - intros e. rewrite InsertExtent_perm, elem_of_cons, He by apply Hl. done.
Qed.

Lemma apply_puts_ok rev puts l :
  tidy l → NoDup (Chunk <$> puts) →
  tidy (foldl (apply_put rev) l puts) ∧
  ∀ e, e ∈ foldl (apply_put rev) l puts ↔
    (∃ p, p ∈ puts ∧ e = set_ModRevision rev p) ∨ (e ∈ l ∧ Chunk e ∉ Chunk <$> puts).
Proof.
  revert l. induction puts as [|p puts IH]; intros l Hl Hn; simpl.
  { split; [done|]. intros e. rewrite elem_of_nil. setoid_rewrite elem_of_nil. naive_solver. }
  apply NoDup_cons in Hn as [Hp Hn]. destruct (apply_put_ok rev l p Hl) as [Ht1 He1].
  destruct (IH _ Ht1 Hn) as [Ht He]. split; [done|]. intros e. rewrite He, He1.
  setoid_rewrite elem_of_cons. split.
  - intros [(q & Hq & ->)|[[->|[Hel Hc]] Hcs]]; [left; eauto|left; eauto|right; naive_solver].
  - intros [(q & [->|Hq] & ->)|[Hel Hc]]; [right|left; eauto|right; naive_solver].
    split; [by left|]. by simpl.
Qed.

Lemma apply_replay_ok r l rev :
  tidy l → NoDup (Chunk <$> t_puts r) →
  tidy (m_extents (apply_replay r l rev)) ∧
  ∀ e, e ∈ m_extents (apply_replay r l rev) ↔
    (∃ p, p ∈ t_puts r ∧ e = set_ModRevision rev p) ∨
    (e ∈ l ∧ Chunk e ∉ t_dels r ∧ Chunk e ∉ Chunk <$> t_puts r).
Proof.
  intros Hl Hn. simpl. destruct (removes_ok (t_dels r) l Hl) as [Ht He].
  destruct (apply_puts_ok rev (t_puts r) _ Ht Hn) as [Ht' He']. split; [done|].
  intros e. rewrite He', He. tauto.
Qed.

(** A tidy list is determined by its elements. *)
Lemma tidy_eq l1 l2 : tidy l1 → tidy l2 → (∀ e, e ∈ l1 ↔ e ∈ l2) → l1 = l2.
Proof.
  intros [Hs1 Hn1] [Hs2 Hn2] He.
  assert (l1 ≡ₚ l2) as Hp by (apply NoDup_Permutation; eauto using NoDup_fmap_1).
  eapply (StronglySorted_unique_strong ext_le); [|done|done|done].
  intros x y Hx Hy Hxy Hyx. apply He in Hx.
  assert (Chunk x = Chunk y) as Hc by (revert Hxy Hyx; order_solve).
  apply list_elem_of_lookup in Hx as [i Hi]. apply list_elem_of_lookup in Hy as [j Hj].
  assert (i = j) as ->; [|congruence].
  eapply (NoDup_lookup (Chunk <$> l2)); [done|rewrite list_lookup_fmap, Hi; reflexivity|].
  by rewrite list_lookup_fmap, Hj, Hc.
Qed.

(** ** The extents a fresh read decodes *)

(** What GetExtents of [ino] returns from [m]. *)
Definition extents_of (ino : Z) (m : mvcc) : list Extent := DecodeExtents (range_kvs (RPrefix (ExtentPrefix ino)) m).

(** Every key under the inode's extent prefix is one the daemon writes. *)
Definition canonical (ino : Z) (m : mvcc) : Prop :=
  ∀ k e, mkvs m !! k = Some e → has_prefix (ExtentPrefix ino) k = true → ∃ c, is_u64 c ∧ k = ExtentKey ino c.

Lemma ExtentKey_prefix ino c : ExtentKey ino c = ExtentPrefix ino ++ fmt_uint c.
Proof. unfold ExtentKey, ExtentPrefix. by rewrite <- !app_assoc. Qed.

Lemma ExtentKey_has_prefix ino c : has_prefix (ExtentPrefix ino) (ExtentKey ino c) = true.
Proof. rewrite ExtentKey_prefix. apply has_prefix_app. Qed.

Lemma ExtentKey_inj ino c c' : is_u64 c → is_u64 c' → ExtentKey ino c = ExtentKey ino c' → c = c'.
Proof.
  intros [? _] [? _]. rewrite !ExtentKey_prefix. intros ?%app_inv_head. by apply fmt_uint_inj.
Qed.

Lemma InodeKey_not_extent ino c : InodeKey ino ≠ ExtentKey ino c.
Proof. unfold InodeKey, ExtentKey. intros E. vm_compute in E. discriminate. Qed.

(** A decoded extent carries its key and the chunk number in it. *)
Lemma DecodeExtent_key ino c v d :
  is_u64 ino → is_u64 c → DecodeExtent (ExtentKey ino c) v = Some d → Key d = ExtentKey ino c ∧ Chunk d = c ∧ ModRevision d = 0.
Proof.
  intros Hi Hc. unfold DecodeExtent. rewrite ParseExtentKey_ok by done. intros H.
  repeat (case_match; try done). by injection H as <-.
Qed.

Definition ext_view (ino c : Z) (x : bytes * Z) : option Extent := set_ModRevision x.2 <$> DecodeExtent (ExtentKey ino c) x.1.

Section reread.
Set Default Proof Using "Type".
Context (ino : Z) (Hino : is_u64 ino).

Lemma extents_of_elem m e :
  canonical ino m →
  e ∈ extents_of ino m ↔
  ∃ c x, is_u64 c ∧ (λ r, (kv_val r, kv_mod r)) <$> mkvs m !! ExtentKey ino c = Some x ∧ ext_view ino c x = Some e.
Proof.
  intros Hcan. unfold extents_of, DecodeExtents, SortExtents. rewrite merge_sort_Permutation, list_elem_of_omap.
  split.
  - intros ([k r] & Hin & He). apply elem_of_range_prefix in Hin as [Hk Hp]. simpl in He.
    destruct (Hcan k r Hk Hp) as (c & Hc & ->). exists c, (kv_val r, kv_mod r). by rewrite Hk.
  - intros (c & x & Hc & Hx & He). destruct (mkvs m !! ExtentKey ino c) as [r|] eqn:Er; [|done].
    injection Hx as <-. exists (ExtentKey ino c, r). split; [|done].
    apply elem_of_range_prefix. split; [done|]. apply ExtentKey_has_prefix.
Qed.

Lemma extents_of_tidy m : canonical ino m → tidy (extents_of ino m).
Proof using Hino.
  intros Hcan. unfold extents_of, DecodeExtents. split; [apply StronglySorted_merge_sort; apply _|].
  unfold SortExtents. rewrite merge_sort_Permutation.
  assert (NoDup (range_kvs (RPrefix (ExtentPrefix ino)) m).*1) as Hn.
  { simpl. unfold range_all. rewrite merge_sort_Permutation. eapply sublist_NoDup; [apply (NoDup_fst_map_to_list (mkvs m))|].
    apply fmap_sublist, sublist_filter. }
  assert (∀ k r, (k, r) ∈ range_kvs (RPrefix (ExtentPrefix ino)) m → ∃ c, is_u64 c ∧ k = ExtentKey ino c) as Hk.
  { intros k r [Hk Hp]%elem_of_range_prefix. eauto. }
  revert Hn Hk. generalize (range_kvs (RPrefix (ExtentPrefix ino)) m) as l.
  induction l as [|[k r] l IH]; intros Hn Hk; simpl; [constructor|].
  simpl in Hn. apply NoDup_cons in Hn as [Hnk Hn]. specialize (IH Hn (λ k' r' H, Hk k' r' (list_elem_of_further _ _ _ H))).
  destruct (Hk k r (list_elem_of_here _ _)) as (c & Hc & ->).
  destruct (DecodeExtent (ExtentKey ino c) (kv_val r)) as [d|] eqn:Ed; simpl; [|done].
  apply NoDup_cons. split; [|done]. destruct (DecodeExtent_key ino c _ _ Hino Hc Ed) as (_ & -> & _).
  intros (f & Ef & Hf)%list_elem_of_fmap. apply list_elem_of_omap in Hf as ([k' r'] & Hin & Hf). simpl in Hf.
  destruct (Hk k' r' (list_elem_of_further _ _ _ Hin)) as (c' & Hc' & ->).
  destruct (DecodeExtent (ExtentKey ino c') (kv_val r')) as [d'|] eqn:Ed'; simplify_eq/=.
  destruct (DecodeExtent_key ino c' _ _ Hino Hc' Ed') as (_ & <- & _).
  apply Hnk. by eapply (list_elem_of_fmap_2 fst _ (ExtentKey ino _, r')).
Qed.
End reread.

(** ** Replaying a transaction *)

(** The operations of a write: the inode's record and its extents. *)
Definition write_op (ino : Z) (o : op) : Prop :=
  match o with
  | OpPut k _ _ => k = InodeKey ino ∨ ∃ c, is_u64 c ∧ k = ExtentKey ino c
  | OpDelete k p => p = false ∧ ∃ c, is_u64 c ∧ k = ExtentKey ino c
  end.

Definition put_ext (ino : Z) (o : op) : option Extent :=
  match o with
  | OpPut k v _ => if bool_decide (k = InodeKey ino) then None else DecodeExtent k v
  | OpDelete _ _ => None
  end.
Definition del_chunk (o : op) : option Z :=
  match o with OpDelete k _ => snd <$> ParseExtentKey k | OpPut _ _ _ => None end.

Section replay.
Set Default Proof Using "Type".
Context (ino : Z) (Hino : is_u64 ino).

(** What a replay that succeeds has collected. *)
Lemma replay_ops_spec os r0 r :
  replay_ops ino os r0 = Some r →
  t_puts r = t_puts r0 ++ omap (put_ext ino) os ∧ t_dels r = t_dels r0 ++ omap del_chunk os ∧
  (∀ k v l, OpPut k v l ∈ os → k ≠ InodeKey ino → is_Some (DecodeExtent k v)).
Proof.
  revert r0. induction os as [|o os IH]; intros r0; simpl.
  { intros [= ->]. rewrite !app_nil_r. split; [done|]. split; [done|]. by intros ? ? ? ?%elem_of_nil. }
  destruct o as [k v l|k p]; simpl.
  - case_bool_decide as Hk.
    + destruct (DecodeInode v); [|done]. intros (H1 & H2 & H3)%IH. simpl in *. split; [done|]. split; [done|].
      intros k' v' l' [E|Hin]%elem_of_cons; [by simplify_eq|by eauto].
    + destruct (has_prefix _ k); [|done]. simpl. destruct (DecodeExtent k v) as [d|] eqn:Ed; [|done].
      intros (H1 & H2 & H3)%IH. simpl in *. rewrite H1, <- app_assoc. split; [done|]. split; [done|].
      intros k' v' l' [E|Hin]%elem_of_cons Hne; [simplify_eq; by rewrite Ed|by eauto].
  - destruct (has_prefix _ k); [|done]. simpl. destruct (ParseExtentKey k) as [[? c]|]; [|done].
    intros (H1 & H2 & H3)%IH. simpl in *. rewrite H2, <- app_assoc. split; [done|]. split; [done|].
    intros k' v' l' [E|Hin]%elem_of_cons; [done|by eauto].
Qed.

Context (os : list op) (Hops : Forall (write_op ino) os) (Hdis : ops_distinct os = true).

Lemma puts_NoDup : NoDup (Chunk <$> omap (put_ext ino) os).
Proof using Hino Hops Hdis.
  apply ops_distinct_spec in Hdis as [Hn _]. revert Hn. induction Hops as [|o os' Ho Hos IH]; simpl; [constructor|].
  intros Hn. apply NoDup_app in Hn as (Hn1 & Hd & Hn2). specialize (IH Hos Hn2).
  destruct o as [k v l|k p]; simpl; [|done]. case_bool_decide as Hk; [done|].
  destruct Ho as [?|(c & Hc & ->)]; [done|]. destruct (DecodeExtent (ExtentKey ino c) v) as [d|] eqn:Ed; simpl; [|done].
  apply NoDup_cons. split; [|done]. destruct (DecodeExtent_key ino c v d Hino Hc Ed) as (_ & -> & _).
  intros (f & -> & Hf)%list_elem_of_fmap. apply list_elem_of_omap in Hf as (o & Hin & Hf).
  destruct o as [k' v' l'|]; simpl in Hf; [|done]. case_bool_decide as Hk'; [done|].
  rewrite Forall_forall in Hos. destruct (Hos _ Hin) as [?|(c' & Hc' & ->)]; [done|].
  destruct (DecodeExtent_key ino c' v' f Hino Hc' Hf) as (_ & <- & _).
  apply (Hd (ExtentKey ino (Chunk f))); [simpl; left|]. clear -Hin.
  induction os' as [|o os IH]; [by apply elem_of_nil in Hin|]. simpl. apply elem_of_app.
  apply elem_of_cons in Hin as [<-|Hin]; [left; left|right; auto].
Qed.

(** A replayed put is the operation on its key, and only that. *)
Lemma put_ext_elem c p :
  is_u64 c → p ∈ omap (put_ext ino) os ∧ Chunk p = c ↔
  ∃ v l, OpPut (ExtentKey ino c) v l ∈ os ∧ DecodeExtent (ExtentKey ino c) v = Some p.
Proof using Hino Hops.
  intros Hc. rewrite list_elem_of_omap. split.
  - intros ((o & Hin & Ho) & Hp). destruct o as [k v l|]; simpl in Ho; [|done]. case_bool_decide as Hk; [done|].
    rewrite Forall_forall in Hops. destruct (Hops _ Hin) as [?|(c' & Hc' & ->)]; [done|].
    destruct (DecodeExtent_key ino c' v p Hino Hc' Ho) as (_ & Hp' & _). assert (c' = c) as -> by congruence. eauto.
  - intros (v & l & Hin & Hd). split; [|by apply (DecodeExtent_key ino c v p Hino Hc) in Hd as (_ & ? & _)].
    exists (OpPut (ExtentKey ino c) v l). split; [done|]. cbn [put_ext].
    rewrite bool_decide_eq_false_2; [done|]. intros E. by apply (InodeKey_not_extent ino c).
Qed.

Lemma del_chunk_elem c :
  is_u64 c → c ∈ omap del_chunk os ↔ ∃ p, OpDelete (ExtentKey ino c) p ∈ os.
Proof using Hino Hops.
  intros Hc. rewrite list_elem_of_omap. split.
  - intros (o & Hin & Ho). destruct o as [|k p]; simpl in Ho; [done|].
    rewrite Forall_forall in Hops. destruct (Hops _ Hin) as (-> & c' & Hc' & ->).
    rewrite ParseExtentKey_ok in Ho by done. injection Ho as ->. eauto.
  - intros (p & Hin). exists (OpDelete (ExtentKey ino c) p). split; [done|]. simpl. by rewrite ParseExtentKey_ok.
Qed.

(** What the transaction does to one extent key. *)
Lemma effect_on_key c :
  is_u64 c →
  match ops_effect os (ExtentKey ino c) with
  | Some (Some (v, l)) => OpPut (ExtentKey ino c) v l ∈ os
  | Some None => c ∈ omap del_chunk os ∧ ∀ v l, OpPut (ExtentKey ino c) v l ∉ os
  | None => c ∉ omap del_chunk os ∧ ∀ v l, OpPut (ExtentKey ino c) v l ∉ os
  end.
Proof using Hino Hops Hdis.
  intros Hc. destruct (ops_effect os (ExtentKey ino c)) as [[[v l]|]|] eqn:E.
  - apply ops_effect_source in E as (o & Hin & Ho). unfold op_effect in Ho.
    destruct (op_touches o (ExtentKey ino c)) eqn:Et; [|done]. destruct o as [k v' l'|]; simplify_eq/=.
    by apply bool_decide_eq_true in Et as <-.
  - pose proof E as E0. apply ops_effect_source in E as (o & Hin & Ho). unfold op_effect in Ho.
    destruct (op_touches o (ExtentKey ino c)) eqn:Et; [|done]. destruct o as [|k p]; simplify_eq/=.
    split; [|intros v l Hput; by rewrite (ops_effect_put _ _ _ _ Hdis Hput) in E0].
    apply del_chunk_elem; [done|]. rewrite Forall_forall in Hops. destruct (Hops _ Hin) as (-> & c' & Hc' & ->).
    apply bool_decide_eq_true in Et as ->. eauto.
  - apply ops_effect_touched in E. rewrite Forall_forall in E. split.
    + intros (p & Hin)%del_chunk_elem; [|done]. specialize (E _ Hin).
      rewrite Forall_forall in Hops. destruct (Hops _ Hin) as (-> & _). simpl in E.
      by rewrite bool_decide_eq_true_2 in E.
    + intros v l Hin. specialize (E _ Hin). simpl in E. by rewrite bool_decide_eq_true_2 in E.
Qed.
End replay.

Lemma write_op_canonical ino m os :
  canonical ino m → Forall (write_op ino) os → canonical ino (mvcc_ops m os).1.
Proof.
  intros Hcan Hops k e Hk Hp. rewrite mvcc_ops_kvs in Hk. apply apply_ops_lookup in Hk as [Hk|(_ & Hin & _)]; [eauto|].
  rewrite Forall_forall in Hops. destruct (Hops _ Hin) as [->|?]; [|done].
  exfalso. unfold ExtentPrefix, InodeKey in Hp. vm_compute in Hp. done.
Qed.

(** A transaction with a put moves the store to the next revision. *)
Lemma mvcc_ops_put_rev m os k v l : OpPut k v l ∈ os → mrev (mvcc_ops m os).1 = mrev m + 1.
Proof.
  intros Hin. unfold mvcc_ops. destruct (apply_ops _ _ os) as [kvs rs] eqn:E. simpl.
  assert (existsb op_changed rs = true) as ->; [|done]. revert Hin E. generalize (mkvs m) as m0. revert kvs rs.
  generalize (mrev m + 1) as rev. induction os as [|o os IH]; intros rev kvs rs m0 Hin; [by apply elem_of_nil in Hin|].
  simpl. destruct (apply_op rev m0 o) as [m1 x] eqn:E1. destruct (apply_ops rev m1 os) as [m2 xs] eqn:E2.
  intros [= <- <-]. simpl. apply orb_true_iff. apply elem_of_cons in Hin as [<-|Hin]; [left|right; eauto].
  by simplify_eq/=.
Qed.

(** Without puts the revision does not matter. *)
Lemma apply_replay_rev r l rev rev' :
  (t_puts r ≠ [] → rev = rev') → apply_replay r l rev = apply_replay r l rev'.
Proof. intros H. unfold apply_replay. destruct (t_puts r) as [|p ps]; [done|]. by rewrite H. Qed.

(** C9. Replaying a committed transaction into the cached extents gives exactly
    what a fresh read of the inode would decode from the store the transaction
    left: the same extents in the same order, each with the revision it now
    carries.  It holds for every transaction over the inode's record and
    extents that modifies no key twice, which is what etcd accepts. *)
Theorem replay_equals_reread ino m rec os r
  (Hino : is_u64 ino) (Hcan : canonical ino m) (Hops : Forall (write_op ino) os)
  (Hdis : ops_distinct os = true) (Hreplay : replayTxn ino rec os = Some r) :
  m_extents (apply_replay r (extents_of ino m) (mrev (mvcc_ops m os).1)) = extents_of ino (mvcc_ops m os).1.
Proof.
  apply replay_ops_spec in Hreplay as (Hputs & Hdels & Hdec). simpl in Hputs, Hdels.
  rewrite (apply_replay_rev _ _ _ (mrev m + 1)).
  2:{ rewrite Hputs. intros Hne. destruct (omap (put_ext ino) os) as [|p ps] eqn:Eo; [done|].
      assert (p ∈ omap (put_ext ino) os) as ([k v l|] & Hin & Ho)%list_elem_of_omap by (rewrite Eo; left); [|done].
      by eapply mvcc_ops_put_rev. }
  pose proof (puts_NoDup ino Hino os Hops Hdis) as Hn. rewrite <- Hputs in Hn.
  destruct (apply_replay_ok r (extents_of ino m) (mrev m + 1) (extents_of_tidy ino Hino m Hcan) Hn) as [Ht He].
  pose proof (write_op_canonical ino m os Hcan Hops) as Hcan'.
  apply tidy_eq; [done|by apply extents_of_tidy|]. intros e. rewrite He, (extents_of_elem ino _ e Hcan').
  rewrite mvcc_ops_kvs. setoid_rewrite apply_ops_kv. rewrite Hputs, Hdels. split.
  - intros [(p & Hp & ->)|(Hel & Hnd & Hnp)].
    + apply list_elem_of_omap in Hp as Hp'. destruct Hp' as (o & Hin & Ho).
      destruct o as [k v l|]; simpl in Ho; [|done]. case_bool_decide as Hk; [done|].
      rewrite Forall_forall in Hops. destruct (Hops _ Hin) as [?|(c & Hc & ->)]; [done|].
      exists c, (v, mrev m + 1). rewrite (ops_effect_put _ _ _ _ Hdis Hin). unfold ext_view. simpl. by rewrite Ho.
    + apply (extents_of_elem ino _ e Hcan) in Hel as (c & x & Hc & Hx & Hv). exists c, x. split; [done|].
      split; [|done]. unfold ext_view in Hv. destruct (DecodeExtent _ x.1) as [d|] eqn:Ed; [|done].
      destruct (DecodeExtent_key ino c _ _ Hino Hc Ed) as (_ & Hcd & _). injection Hv as <-. simpl in *. subst c.
      pose proof (effect_on_key ino Hino os Hops Hdis (Chunk d) Hc) as Heff.
      destruct (ops_effect os _) as [[[v l]|]|]; [|by destruct Heff|done].
      destruct (Hdec _ _ _ Heff) as [p Hp]; [intros E; by apply (InodeKey_not_extent ino (Chunk d))|].
      destruct Hnp. apply list_elem_of_fmap. exists p.
      destruct (proj2 (put_ext_elem ino Hino os Hops (Chunk d) p Hc)) as [Hin Hcp]; eauto.
  - intros (c & x & Hc & Hx & Hv). pose proof (effect_on_key ino Hino os Hops Hdis c Hc) as Heff.
    unfold ext_view in Hv. destruct (DecodeExtent _ x.1) as [d|] eqn:Ed; [|done]. injection Hv as <-.
    destruct (ops_effect os _) as [[[v l]|]|]; simplify_eq/=.
    + left. exists d. split; [|done]. apply (put_ext_elem ino Hino os Hops c d Hc). eauto.
    + right. destruct (DecodeExtent_key ino c _ _ Hino Hc Ed) as (_ & Hcd & _).
      split; [apply (extents_of_elem ino _ _ Hcan); exists c, x; unfold ext_view; by rewrite Ed|].
      simpl. rewrite Hcd. split; [apply Heff|]. intros (p & Hp & Hin)%list_elem_of_fmap.
      destruct (proj1 (put_ext_elem ino Hino os Hops c p Hc)) as (v & l & Hput & _); [done|].
      by apply Heff in Hput.
Qed.

Definition replay_store : mvcc :=
  (mvcc_ops empty_store [put (ExtentKey 7 0) (Encode (mkExtent [] 0 0 0 (lit "n1") 0 8192 8192 0));
                         put (ExtentKey 7 1) (Encode (mkExtent [] 0 0 1 (lit "n1") 8192 0 4096 0))]).1.
Definition replay_txn : list op :=
  [put (ExtentKey 7 2) (Encode (mkExtent [] 0 0 2 (lit "n1") 4096 65536 8192 0));
   put (ExtentKey 7 0) (Encode (mkExtent [] 0 0 0 (lit "n1") 0 8192 4096 0)); OpDelete (ExtentKey 7 1) false].

Lemma ExtentKey_write_op ino c v : is_u64 c → write_op ino (put (ExtentKey ino c) v).
Proof. intros Hc. right. eauto. Qed.

Lemma canonical_empty ino : canonical ino empty_store.
Proof. intros k e. simpl. by rewrite lookup_empty. Qed.

Lemma replay_equals_reread_witness :
  ∃ r, replayTxn 7 (mkInode 7 12288 0 33188 1 0 0 0 4096 0 0 0 0) replay_txn = Some r ∧
  m_extents (apply_replay r (extents_of 7 replay_store) (mrev (mvcc_ops replay_store replay_txn).1)) =
    extents_of 7 (mvcc_ops replay_store replay_txn).1.
Proof.
  destruct (replayTxn 7 (mkInode 7 12288 0 33188 1 0 0 0 4096 0 0 0 0) replay_txn) as [r|] eqn:Er; [|by vm_compute in Er].
  exists r. split; [done|]. apply (replay_equals_reread 7 replay_store (mkInode 7 12288 0 33188 1 0 0 0 4096 0 0 0 0) replay_txn r).
  - unfold is_u64; lia.
  - apply write_op_canonical; [apply canonical_empty|].
    repeat first [apply Forall_nil_2 | apply Forall_cons_2]; apply ExtentKey_write_op; unfold is_u64; lia.
  - repeat first [apply Forall_nil_2 | apply Forall_cons_2]; try (apply ExtentKey_write_op; unfold is_u64; lia).
    split; [done|]. exists 1. unfold is_u64. split; [lia|done].
  - by vm_compute.
  - done.
Defined.
