(* ===== verification/WriteProps.v ===== *)
(** * A write through the extent map

    What the transaction of a write does to the file: on the lists the daemon
    builds from block-aligned writes to extents of its own, the bytes of the
    write read back and every other byte is where it was, and the list stays
    one on which reads are right.  The two conditions matter: a write that
    starts inside a block of an older extent, and a write over another node's
    extent, are both shadowed by the older bytes. *)

From S2P Require Import Prelude Etcd EtcdFacts Schema SchemaProps Store Locks Extents ExtentProps Allocator AllocatorProps ArenaPool InodeTimes Service DataPath ReadProps ReplayProps.

Definition is_extent (ino : Z) (e : Extent) : Prop := Key e = ExtentKey ino (Chunk e) ∧ is_u64 (Chunk e) ∧ ext_wf e.

(** Same bytes at the same place, of the same age. *)
Definition geo (e p : Extent) : Prop :=
  LogOff e = LogOff p ∧ DiskOff e = DiskOff p ∧ Length e = Length p ∧ Seq e = Seq p.

Lemma geo_covers e p x : geo e p → covers e x ↔ covers p x.
Proof. intros (H1 & _ & H3 & _). unfold covers. by rewrite H1, H3. Qed.
Lemma geo_disk e p x : geo e p → ext_disk e x = ext_disk p x.
Proof. intros (H1 & H2 & _). unfold ext_disk. by rewrite H1, H2. Qed.

(** ** What the reclaim loop leaves of the old extents *)

Section reclaim.
Set Default Proof Using "Type".
Context (ino start end_ : Z) (Hino : is_u64 ino) (Hse : 0 <= start < end_) (Hend : end_ < 2 ^ 64).

Definition hit (old : Extent) : Prop := LogOff old < end_ ∧ start < LogOff old + Length old.
Definition piece (old q : Extent) : Prop := (SplitAround old start end_).1 = Some q ∨ (SplitAround old start end_).2 = Some q.

Lemma piece_wf old q : ext_wf old → hit old → piece old q → ext_wf q.
Proof using Hse Hend.
  intros Hw [H1 H2] Hq. pose proof (split_skip_bounds old start end_ Hw Hse Hend H1 H2) as Hs.
  unfold piece in Hq. rewrite (split_head old start end_), (split_tail old start end_) in Hq by done.
  unfold ext_wf, is_u64 in *. destruct Hq as [[? ->]|[? ->]]; simpl; lia.
Qed.

Record reclaims (exts : list Extent) (os : list op) (next next' : Z) : Prop := {
  rc_next : next <= next' <= next + Z.of_nat (length exts);
  rc_ops : Forall (write_op ino) os;
  rc_dec : ∀ k v l, OpPut k v l ∈ os → is_Some (DecodeExtent k v) ∧ k ≠ InodeKey ino;
  rc_nodup : NoDup (Chunk <$> omap (put_ext ino) os);
  rc_put : ∀ p, p ∈ omap (put_ext ino) os → is_extent ino p ∧
    ∃ old q, old ∈ exts ∧ hit old ∧ piece old q ∧ geo p q ∧ (Chunk p = Chunk old ∨ next <= Chunk p < next');
  rc_del : ∀ c, c ∈ omap del_chunk os → ∃ old, old ∈ exts ∧ hit old ∧ Chunk old = c;
  rc_keep : ∀ old q, old ∈ exts → hit old → piece old q →
    (∃ p, p ∈ omap (put_ext ino) os ∧ geo p q) ∨
    (geo old q ∧ Chunk old ∉ omap del_chunk os ∧ Chunk old ∉ Chunk <$> omap (put_ext ino) os);
  rc_gone : ∀ old, old ∈ exts → hit old →
    Chunk old ∈ omap del_chunk os ∨ Chunk old ∈ Chunk <$> omap (put_ext ino) os ∨ ∃ q, piece old q ∧ geo old q
}.

Lemma reclaims_nil next : reclaims [] [] next next.
Proof.
  constructor; simpl; try (intros; by match goal with H : _ ∈ [] |- _ => apply elem_of_nil in H end);
    [lia|constructor|constructor].
Qed.

(** An extent of the transaction, decoded again. *)
Lemma put_ext_Encode c e :
  is_u64 c → ext_wf e →
  put_ext ino (put (ExtentKey ino c) (Encode e)) =
  Some (mkExtent (ExtentKey ino c) c 0 (Seq e) (Node e) (LogOff e) (DiskOff e) (Length e) (Gen e)).
Proof using Hino.
  intros Hc He. unfold put, put_ext. rewrite bool_decide_eq_false_2 by (intros E; by apply (InodeKey_not_extent ino c)).
  by apply DecodeExtent_Encode.
Qed.

Lemma put_decodes c e k v l :
  is_u64 c → ext_wf e → OpPut k v l = put (ExtentKey ino c) (Encode e) → is_Some (DecodeExtent k v) ∧ k ≠ InodeKey ino.
Proof using Hino.
  intros Hc He E. unfold put in E. simplify_eq. rewrite DecodeExtent_Encode by done.
  split; [done|]. intros E. by apply (InodeKey_not_extent ino c).
Qed.

(** A rewrite that only puts pieces, each under its chunk number. *)
Definition put_piece (x : Z * Extent) : op := put (ExtentKey ino x.1) (Encode x.2).
Definition as_stored (x : Z * Extent) : Extent :=
  let '(c, e) := x in mkExtent (ExtentKey ino c) c 0 (Seq e) (Node e) (LogOff e) (DiskOff e) (Length e) (Gen e).

Lemma put_pieces_exts qs :
  (∀ c q, (c, q) ∈ qs → is_u64 c ∧ ext_wf q) →
  omap (put_ext ino) (map put_piece qs) = map as_stored qs ∧ omap del_chunk (map put_piece qs) = [].
Proof using Hino.
  induction qs as [|[c q] qs IH]; intros Hqs; [done|].
  destruct (Hqs c q ltac:(left)) as [Hc Hw]. destruct IH as [IH1 IH2]; [intros; apply Hqs; by right|].
  unfold put_piece in *. cbn [map omap list_omap fst snd]. rewrite put_ext_Encode by done.
  split; [by f_equal|]. exact IH2.
Qed.

Lemma map_as_stored_Chunk qs : Chunk <$> map as_stored qs = qs.*1.
Proof. induction qs as [|[c q] qs IH]; [done|]. simpl. by f_equal. Qed.

Lemma reclaims_puts old next next' qs :
  ext_wf old → hit old → next <= next' <= next + 1 → NoDup qs.*1 →
  (∀ c q, (c, q) ∈ qs → is_u64 c ∧ piece old q ∧ (c = Chunk old ∨ next <= c < next')) →
  (∀ q, piece old q → (∃ c, (c, q) ∈ qs) ∨ (geo old q ∧ qs = [])) →
  (Chunk old ∈ qs.*1 ∨ ∃ q, piece old q ∧ geo old q) →
  reclaims [old] (map put_piece qs) next next'.
Proof using Hino Hse Hend.
  intros Hwf Hhit Hnx Hnd Hqs Hall Hgone.
  assert (∀ c q, (c, q) ∈ qs → is_u64 c ∧ ext_wf q) as Hw.
  { intros c q Hq. destruct (Hqs c q Hq) as (? & Hp & _). split; [done|]. by eapply piece_wf. }
  destruct (put_pieces_exts qs Hw) as [Ep Ed]. constructor; rewrite ?Ep, ?Ed, ?map_as_stored_Chunk.
  - simpl. lia.
  - apply Forall_forall. intros o (x & -> & Hx)%list_elem_of_fmap. right. exists x.1.
    split; [|done]. destruct x as [c q]. by apply (Hw c q).
  - intros k v l (x & E & Hx)%list_elem_of_fmap. destruct x as [c q]. destruct (Hw c q Hx).
    by eapply put_decodes.
  - done.
  - intros p ([c q] & -> & Hx)%list_elem_of_fmap. destruct (Hqs c q Hx) as (Hc & Hp & Hcc).
    split; [split; [done|]; split; [done|]; by destruct (Hw c q Hx)|].
    exists old, q. split; [left|]. split; [done|]. split; [done|]. split; [done|exact Hcc].
  - intros c Hc. by apply elem_of_nil in Hc.
  - intros o q ->%list_elem_of_singleton _ Hq. destruct (Hall q Hq) as [[c Hc]|[Hg ->]].
    + left. exists (as_stored (c, q)). split; [by apply list_elem_of_fmap_2|done].
    + right. split; [done|]. split; apply not_elem_of_nil.
  - intros o ->%list_elem_of_singleton _. destruct Hgone; auto.
Qed.

Lemma reclaims_delete old next : is_u64 (Chunk old) → hit old → (∀ q, ¬ piece old q) →
  reclaims [old] [OpDelete (ExtentKey ino (Chunk old)) false] next next.
Proof using Hino.
  intros Hc Hhit Hno. constructor; cbn [omap list_omap put_ext del_chunk]; rewrite ?ParseExtentKey_ok by done; simpl.
  - lia.
  - repeat constructor. eauto.
  - intros k v l [E|E%elem_of_nil]%elem_of_cons; done.
  - constructor.
  - intros p E%elem_of_nil. done.
  - intros c ->%list_elem_of_singleton. exists old. split; [left|done].
  - intros o q ->%list_elem_of_singleton _ Hq. by destruct (Hno q).
  - intros o ->%list_elem_of_singleton _. left. left.
Qed.

(** The rewrite of one extent. *)
Lemma planReclaim_ok s old next :
  has_dev s = true → Owns (alloc s) (DiskOff old) = true → is_extent ino old → hit old →
  Chunk old < next → next + 1 < 2 ^ 64 →
  let '(p, next') := planReclaim s old start end_ next in
  reclaims [old] (match p with Some p => p_ops p | None => [] end) next next'.
Proof using Hino Hse Hend.
  intros Hdev Hown (Hkey & Hch & Hwf) Hhit Hlt Hmax. pose proof Hhit as [H1 H2].
  assert (is_u64 next) as Hnx by (unfold is_u64 in *; lia).
  assert (extent_ino old = ino) as Hio.
  { unfold extent_ino, InoFromExtentKey. by rewrite Hkey, ParseExtentKey_ok. }
  pose proof (λ t, split_tail old start end_ Hwf Hse Hend H1 H2 t) as Ht.
  unfold planReclaim. rewrite Hdev, Hown, Hio, Hkey. cbn [negb orb].
  assert (∀ q, piece old q ↔ (SplitAround old start end_).1 = Some q ∨ (SplitAround old start end_).2 = Some q) as Hpc by done.
  destruct (SplitAround old start end_) as [head tail] eqn:Esp. cbn [fst snd] in Hpc, Ht.
  destruct (CoveredBlocks old head tail) as [fo fl].
  destruct head as [h|], tail as [t|]; cbn [p_ops].
  - rewrite (add64_small next 1) by (unfold is_u64 in *; lia).
    apply (reclaims_puts old next (next + 1) [(Chunk old, h); (next, t)]); try done; [lia|..].
    + simpl. apply NoDup_cons. split; [|apply NoDup_singleton]. rewrite list_elem_of_singleton. lia.
    + intros c q [[= -> ->]|[[= -> ->]|E%elem_of_nil]%elem_of_cons]%elem_of_cons; [..|done]; rewrite Hpc; auto with lia.
    + intros q [[= ->]|[= ->]]%Hpc; left; eexists; [left|right; left].
    + left. left.
  - apply (reclaims_puts old next next [(Chunk old, h)]); try done; [lia|apply NoDup_singleton|..].
    + intros c q [= -> ->]%list_elem_of_singleton. rewrite Hpc. auto.
    + intros q [[= ->]|?]%Hpc; [|done]. left. eexists. left.
    + left. left.
  - destruct (Z.eqb_spec (LogOff t) (LogOff old)) as [El|El].
    + assert (geo old t) as Hg.
      { destruct (proj1 (Ht t) eq_refl) as [_ ->]. simpl in El. unfold geo. simpl. lia. }
      apply (reclaims_puts old next next []); try done; [lia|constructor|..].
      * intros c q E%elem_of_nil. done.
      * intros q [?|[= ->]]%Hpc; [done|]. by right.
      * right. exists t. split; [apply Hpc; by right|done].
    + apply (reclaims_puts old next next [(Chunk old, t)]); try done; [lia|apply NoDup_singleton|..].
      * intros c q [= -> ->]%list_elem_of_singleton. rewrite Hpc. auto.
      * intros q [?|[= ->]]%Hpc; [done|]. left. eexists. left.
      * left. left.
  - apply reclaims_delete; [done|done|]. intros q [?|?]%Hpc; done.
Qed.

Lemma reclaims_skip old exts os next next' :
  ¬ hit old → reclaims exts os next next' → reclaims (old :: exts) os next next'.
Proof.
  intros Hno H. constructor; try apply H.
  - pose proof (rc_next _ _ _ _ H). simpl. lia.
  - intros p Hp. destruct (rc_put _ _ _ _ H p Hp) as [? (o & q & Ho & ?)]. split; [done|].
    exists o, q. split; [by right|done].
  - intros c Hc. destruct (rc_del _ _ _ _ H c Hc) as (o & Ho & ?). exists o. split; [by right|done].
  - intros o q [->|Ho]%elem_of_cons; [done|]. by apply (rc_keep _ _ _ _ H).
  - intros o [->|Ho]%elem_of_cons; [done|]. by apply (rc_gone _ _ _ _ H).
Qed.

(** A chunk number the rewrite of [exts] uses is one of theirs or a fresh one. *)
Lemma reclaims_chunks exts os next next' c :
  reclaims exts os next next' →
  c ∈ omap del_chunk os ∨ c ∈ Chunk <$> omap (put_ext ino) os → (∃ o, o ∈ exts ∧ hit o ∧ Chunk o = c) ∨ next <= c < next'.
Proof.
  intros H [Hc|(p & -> & Hp)%list_elem_of_fmap]; [left; by apply (rc_del _ _ _ _ H)|].
  destruct (rc_put _ _ _ _ H p Hp) as [_ (o & q & Ho & Hh & _ & _ & [E|?])]; [left|by right].
  rewrite E. eauto.
Qed.

Lemma reclaims_cons old exts os1 os2 n1 n2 n3 :
  Chunk old ∉ Chunk <$> exts → (∀ e, e ∈ old :: exts → Chunk e < n1) →
  reclaims [old] os1 n1 n2 → reclaims exts os2 n2 n3 → reclaims (old :: exts) (os1 ++ os2) n1 n3.
Proof.
  intros Hnew Hlt Ha Hb. pose proof (rc_next _ _ _ _ Ha) as Hn1. pose proof (rc_next _ _ _ _ Hb) as Hn2.
  assert (∀ e, e ∈ exts → Chunk e ≠ Chunk old) as Hne.
  { intros e He E. apply Hnew. rewrite <- E. by apply list_elem_of_fmap_2. }
  assert (∀ c, (c ∈ omap del_chunk os1 ∨ c ∈ Chunk <$> omap (put_ext ino) os1) → c = Chunk old ∨ n1 <= c < n2) as H1.
  { intros c Hc. destruct (reclaims_chunks _ _ _ _ c Ha Hc) as [(o & ->%list_elem_of_singleton & _ & <-)|?]; auto. }
  pose proof (λ c, reclaims_chunks _ _ _ _ c Hb) as H2.
  constructor; rewrite ?omap_app, ?fmap_app.
  - simpl in *. lia.
  - apply Forall_app. split; [apply Ha|apply Hb].
  - intros k v l [Ho|Ho]%elem_of_app; [by eapply (rc_dec _ _ _ _ Ha)|by eapply (rc_dec _ _ _ _ Hb)].
  - apply NoDup_app. split; [apply Ha|]. split; [|apply Hb]. intros c Hc1 Hc2.
    destruct (H1 c (or_intror Hc1)) as [->|?], (H2 _ (or_intror Hc2)) as [(o & Ho & _ & Eo)|?].
    + by apply (Hne o).
    + specialize (Hlt old ltac:(left)). lia.
    + specialize (Hlt o ltac:(by right)). lia.
    + lia.
  - intros p [Hp|Hp]%elem_of_app.
    + destruct (rc_put _ _ _ _ Ha p Hp) as [? (o & q & ->%list_elem_of_singleton & ? & ? & ? & Hc)]. split; [done|].
      exists old, q. split; [left|]. repeat (split; [done|]). destruct Hc; [by left|right; lia].
    + destruct (rc_put _ _ _ _ Hb p Hp) as [? (o & q & Ho & ? & ? & ? & Hc)]. split; [done|].
      exists o, q. split; [by right|]. repeat (split; [done|]). destruct Hc; [by left|right; simpl in *; lia].
  - intros c [Hc|Hc]%elem_of_app; [destruct (rc_del _ _ _ _ Ha c Hc) as (o & ->%list_elem_of_singleton & ?)
      |destruct (rc_del _ _ _ _ Hb c Hc) as (o & Ho & ?)]; eexists; (split; [|done]); [left|by right].
  - intros o q [->|Ho]%elem_of_cons Hh Hq.
    + destruct (rc_keep _ _ _ _ Ha old q ltac:(left) Hh Hq) as [(p & Hp & Hg)|(Hg & Hd & Hp)].
      * left. exists p. split; [apply elem_of_app; by left|done].
      * right. split; [done|]. rewrite !not_elem_of_app. split; (split; [done|]); intros Hx;
          (destruct (H2 (Chunk old)) as [(o & Ho & _ & Eo)|?]; [auto|by apply (Hne o)|specialize (Hlt old ltac:(left)); lia]).
    + destruct (rc_keep _ _ _ _ Hb o q Ho Hh Hq) as [(p & Hp & Hg)|(Hg & Hd & Hp)].
      * left. exists p. split; [apply elem_of_app; by right|done].
      * right. split; [done|]. rewrite !not_elem_of_app.
        split; (split; [|done]); intros Hx; (destruct (H1 (Chunk o)) as [E|?]; [auto|by apply (Hne o)|specialize (Hlt o ltac:(by right)); lia]).
  - intros o [->|Ho]%elem_of_cons Hh; rewrite !elem_of_app.
    + destruct (rc_gone _ _ _ _ Ha old ltac:(left) Hh) as [?|[?|?]]; auto.
    + destruct (rc_gone _ _ _ _ Hb o Ho Hh) as [?|[?|?]]; auto.
Qed.

(** Deferred extents are never taken back. *)
Lemma propose_reclaims_deferred s exts cs os ps d next :
  let '(_, _, _, d', _) := propose_reclaims s start end_ exts cs os ps d next in ∃ d0, d' = d ++ d0.
Proof.
  revert cs os ps d next. induction exts as [|old exts IH]; intros cs os ps d next; simpl; [exists []; by rewrite app_nil_r|].
  case_if; [apply IH|]. case_if.
  - specialize (IH cs os ps (d ++ [old]) next).
    destruct (propose_reclaims s start end_ exts cs os ps (d ++ [old]) next) as [[[[? ?] ?] d'] ?].
    destruct IH as [d0 ->]. exists (old :: d0). by rewrite <- app_assoc.
  - destruct (planReclaim s old start end_ next) as [[p|] n']; apply IH.
Qed.

Lemma propose_reclaims_ok s exts cs os ps next cs' os' ps' next' :
  has_dev s = true → Forall (λ e, Owns (alloc s) (DiskOff e) = true) exts → Forall (is_extent ino) exts →
  NoDup (Chunk <$> exts) → (∀ e, e ∈ exts → Chunk e < next) → next + Z.of_nat (length exts) < 2 ^ 64 →
  propose_reclaims s start end_ exts cs os ps [] next = (cs', os', ps', [], next') →
  ∃ os2, os' = os ++ os2 ∧ reclaims exts os2 next next'.
Proof using Hino Hse Hend.
  intros Hdev. revert cs os ps next. induction exts as [|old exts IH]; intros cs os ps next Hown Hext Hnd Hlt Hmax; simpl.
  { intros [= <- <- <- <-]. exists []. split; [by rewrite app_nil_r|apply reclaims_nil]. }
  inversion Hown as [|? ? Ho Hown']; subst. inversion Hext as [|? ? He Hext']; subst.
  simpl in Hnd, Hmax. apply NoDup_cons in Hnd as [Hnew Hnd].
  assert (∀ e, e ∈ exts → Chunk e < next) as Hlt' by (intros; apply Hlt; by right).
  destruct He as (Hkey & Hch & Hwf). rewrite (End_wf old Hwf).
  destruct ((end_ <=? LogOff old) || (LogOff old + Length old <=? start)) eqn:Ehit.
  { intros Hrun. destruct (IH _ _ _ next Hown' Hext' Hnd Hlt' ltac:(lia) Hrun) as (os2 & -> & Hr).
    exists os2. split; [done|]. apply reclaims_skip; [|done]. unfold hit. apply orb_true_iff in Ehit as [?|?]; zbool; lia. }
  zbool. destruct ((maxWriteTxnOps <? _) || _).
  { intros Hrun. pose proof (propose_reclaims_deferred s exts cs os ps [old] next) as Hd.
    rewrite Hrun in Hd. by destruct Hd as [? ?]. }
  pose proof (planReclaim_ok s old next Hdev Ho (conj Hkey (conj Hch Hwf)) ltac:(split; lia) ltac:(apply Hlt; left) ltac:(lia)) as Hone.
  destruct (planReclaim s old start end_ next) as [p n']. pose proof (rc_next _ _ _ _ Hone) as Hn. simpl in Hn.
  assert (∀ e, e ∈ exts → Chunk e < n') as Hlt'' by (intros e He; specialize (Hlt' e He); lia).
  destruct p as [p|]; intros Hrun; destruct (IH _ _ _ n' Hown' Hext' Hnd Hlt'' ltac:(lia) Hrun) as (os2 & -> & Hr).
  - exists (p_ops p ++ os2). split; [by rewrite <- app_assoc|]. by eapply reclaims_cons.
  - exists os2. split; [done|]. change os2 with ([] ++ os2). by eapply reclaims_cons.
Qed.
End reclaim.

(** ** The extents of the write itself *)

(** Where byte [i] of the padded payload goes. *)
Fixpoint run_addr (rs : list Run) (i : Z) : option Z :=
  match rs with
  | [] => None
  | r :: rs' => if i <? r_len r then Some (r_off r + i) else run_addr rs' (i - r_len r)
  end.

Definition block_run (r : Run) : Prop :=
  0 < r_len r ∧ r_len r mod BlockSize = 0 ∧ 0 <= r_off r ∧ r_off r + r_len r + BlockSize < 2 ^ 64.

Lemma block_runs_total rs : Forall block_run rs → 0 <= runs_total rs ∧ (rs ≠ [] → BlockSize <= runs_total rs).
Proof.
  induction 1 as [|r rs (Hp & Hm & _) _ [IH1 IH2]]; simpl; [split; [lia|done]|]. split; [lia|]. intros _.
  unfold BlockSize in *. dlia.
Qed.

Section fresh.
Set Default Proof Using "Type".
Context (w : writeOp) (node : bytes) (Hino : is_u64 (w_ino w)) (Hseq : is_u64 (w_seq w)) (Hgen : is_u64 (w_gen w)).
Context (Hoff : 0 <= w_offset w) (Hfit : w_offset w + padded w + BlockSize < 2 ^ 64).

Record fresh (rs : list Run) (pos next : Z) (os : list op) (next' : Z) : Prop := {
  fr_next : next' = next + Z.of_nat (length rs);
  fr_count : length os = length rs;
  fr_ops : Forall (write_op (w_ino w)) os;
  fr_dec : ∀ k v l, OpPut k v l ∈ os → is_Some (DecodeExtent k v) ∧ k ≠ InodeKey (w_ino w);
  fr_dels : omap del_chunk os = [];
  fr_nodup : NoDup (Chunk <$> omap (put_ext (w_ino w)) os);
  fr_put : ∀ n, n ∈ omap (put_ext (w_ino w)) os → is_extent (w_ino w) n ∧ Seq n = w_seq w ∧ next <= Chunk n < next' ∧
    w_offset w + pos <= LogOff n ∧ LogOff n + Length n <= w_offset w + dataLen w ∧ 0 < Length n ∧
    (LogOff n - (w_offset w + pos)) mod BlockSize = 0 ∧
    ∀ x, covers n x → run_addr rs (x - (w_offset w + pos)) = Some (ext_disk n x);
  fr_all : ∀ x, w_offset w + pos <= x < w_offset w + dataLen w → ∃ n, n ∈ omap (put_ext (w_ino w)) os ∧ covers n x;
  fr_disj : ∀ n m x, n ∈ omap (put_ext (w_ino w)) os → m ∈ omap (put_ext (w_ino w)) os → covers n x → covers m x → n = m
}.

Lemma propose_runs_ok rs pos next end0 :
  Forall block_run rs → 0 <= pos → 0 <= next → next + Z.of_nat (length rs) < 2 ^ 64 →
  pos + runs_total rs = padded w → dataLen w <= pos + runs_total rs → (rs ≠ [] → pos + runs_total rs - BlockSize < dataLen w) →
  let '(cs, os, next', end') := propose_runs w node rs pos next end0 in
  fresh rs pos next os next' ∧ length cs = length rs ∧ end' = (if decide (rs = []) then end0 else w_offset w + dataLen w).
Proof using Hino Hseq Hgen Hoff Hfit.
  intros Hrs. revert pos next end0. induction Hrs as [|r rs Hr Hrs IH]; intros pos next end0 Hpos Hnext Hmax Htot Hlen Hlast.
  { simpl in *. split; [|done]. constructor; simpl; try done;
      try (intros; by match goal with H : _ ∈ [] |- _ => apply elem_of_nil in H end).
    - lia.
    - constructor.
    - intros x Hx. unfold runs_total in *. simpl in *. lia. }
  destruct (block_runs_total rs Hrs) as [Ht0 Ht]. pose proof Hr as (Hp & Hm & Hro & Hrb).
  specialize (Hlast ltac:(done)). cbn [runs_total foldr] in *. fold (runs_total rs) in *.
  assert (0 <= dataLen w) as Hd0 by (unfold dataLen; lia).
  cbn [propose_runs length] in *. fold (runs_total rs) in *.
  assert (pos < dataLen w) as Hpd.
  { assert (BlockSize <= r_len r) by (unfold BlockSize in *; dlia). lia. }
  set (len := Z.min (r_len r) (sub64 (dataLen w) pos)).
  assert (len = if decide (rs = []) then dataLen w - pos else r_len r) as Elen.
  { unfold len. rewrite sub64_small by lia. destruct (decide (rs = [])) as [->|Hne]; [simpl in *; lia|].
    specialize (Ht Hne). lia. }
  assert (0 < len <= r_len r ∧ pos + len <= dataLen w) as Hlb.
  { unfold len. rewrite sub64_small by lia. lia. }
  rewrite (add64_small (w_offset w) pos), (add64_small pos), (add64_small next 1) by lia.
  set (ext := mkExtent [] 0 0 (w_seq w) node (w_offset w + pos) (r_off r) len (w_gen w)).
  assert (ext_wf ext) as Hwf by (unfold ext_wf, is_u64 in *; simpl; lia).
  specialize (IH (pos + r_len r) (next + 1) (End_ ext) ltac:(lia) ltac:(lia) ltac:(lia) ltac:(lia) ltac:(lia)
    ltac:(intros Hne; lia)).
  destruct (propose_runs w node rs (pos + r_len r) (next + 1) (End_ ext)) as [[[cs os] next'] end'].
  destruct IH as (IH & Hcs & Hend). assert (is_u64 next) as Hun by (unfold is_u64; lia).
  assert (omap (put_ext (w_ino w)) (put (ExtentKey (w_ino w) next) (Encode ext) :: os) =
    as_stored (w_ino w) (next, ext) :: omap (put_ext (w_ino w)) os) as Ep.
  { cbn [omap list_omap]. by rewrite put_ext_Encode. }
  split; [|split].
  - constructor; rewrite ?Ep.
    + rewrite (fr_next _ _ _ _ _ IH). simpl. lia.
    + simpl. f_equal. apply IH.
    + constructor; [right; eauto|apply IH].
    + intros k v l [E|Ho]%elem_of_cons; [by eapply put_decodes|by eapply (fr_dec _ _ _ _ _ IH)].
    + simpl. apply IH.
    + simpl. apply NoDup_cons. split; [|apply IH]. intros (n & E & Hn)%list_elem_of_fmap.
      destruct (fr_put _ _ _ _ _ IH n Hn) as (_ & _ & ? & _). lia.
    + intros n [->|Hn]%elem_of_cons.
      * split; [done|]. split; [done|]. simpl. split; [rewrite (fr_next _ _ _ _ _ IH); lia|].
        split; [lia|]. split; [lia|]. split; [lia|]. split; [rewrite Z.sub_diag; done|].
        intros x Hx. unfold covers in Hx. simpl in Hx. unfold ext_disk. simpl.
        rewrite (proj2 (Z.ltb_lt _ _)) by lia. f_equal.
      * destruct (fr_put _ _ _ _ _ IH n Hn) as (H1 & H2 & H3 & H4 & H5 & H6 & H7 & H8).
        split; [done|]. split; [done|]. split; [lia|]. split; [lia|]. split; [done|]. split; [done|].
        split; [unfold BlockSize in *; dlia|]. intros x Hx. specialize (H8 x Hx). unfold covers in Hx. simpl.
        rewrite (proj2 (Z.ltb_ge _ _)) by lia. rewrite <- H8. f_equal. lia.
    + intros x Hx. destruct (decide (x < w_offset w + pos + len)) as [Hlt|Hge].
      * eexists. split; [left|]. unfold covers. simpl. lia.
      * destruct (decide (rs = [])) as [?|Hne]; [lia|]. destruct (fr_all _ _ _ _ _ IH x ltac:(lia)) as (n & Hn & Hc).
        exists n. split; [by right|done].
    + assert (∀ n x, n ∈ omap (put_ext (w_ino w)) os → covers (as_stored (w_ino w) (next, ext)) x → ¬ covers n x) as Hno.
      { intros n x Hn Hx Hx'. destruct (fr_put _ _ _ _ _ IH n Hn) as (_ & _ & _ & ? & _).
        unfold covers in *. simpl in Hx. lia. }
      intros n m x [->|Hn]%elem_of_cons [->|Hm']%elem_of_cons Hcn Hcm; [done|..].
      * by destruct (Hno m x).
      * by destruct (Hno n x).
      * by eapply (fr_disj _ _ _ _ _ IH).
  - simpl. by rewrite Hcs.
  - rewrite Hend, (decide_False (P := r :: rs = [])) by done. case_decide; [|done]. rewrite (End_wf _ Hwf). simpl. lia.
Qed.
End fresh.

(** ** The file after the write *)

(** The extent lists the daemon keeps: in resolution order under the keys of
    their chunk numbers, starting on block boundaries, no newer extent inside
    an older one. *)
Record file_ok (ino : Z) (l : list Extent) : Prop := {
  fo_tidy : tidy l;
  fo_exts : Forall (is_extent ino) l;
  fo_aligned : Forall (λ e, LogOff e mod BlockSize = 0) l;
  fo_layered : layered l;
  fo_one : one_writer l
}.

Section overlay.
Set Default Proof Using "All".
Context (start end_ seq : Z) (l new l' : list Extent).
Context (Hse : 0 <= start < end_) (Hend : end_ < 2 ^ 64) (Hsa : start mod BlockSize = 0).
Context (Hwf : Forall ext_wf l) (Hal : Forall (λ e, LogOff e mod BlockSize = 0) l) (Hold : ∀ e, e ∈ l → Seq e < seq).
Context (Hlay : layered l) (Hone : one_writer l).
Context (Hnew : ∀ n, n ∈ new → Seq n = seq ∧ start <= LogOff n ∧ LogOff n + Length n <= end_ ∧ 0 < Length n ∧
                            LogOff n mod BlockSize = 0).

(** What an extent of the new list comes from. *)
Definition untouched (old q : Extent) : Prop := ¬ hit start end_ old ∧ geo q old.
Definition cut_from (old q : Extent) : Prop := hit start end_ old ∧ ∃ p, piece start end_ old p ∧ geo q p.
Definition survives (old q : Extent) : Prop := untouched old q ∨ cut_from old q.

Context (Hfrom : ∀ e, e ∈ l' → (∃ n, n ∈ new ∧ geo e n) ∨ ∃ old, old ∈ l ∧ survives old e).
Context (Hnews : ∀ n, n ∈ new → ∃ e, e ∈ l' ∧ geo e n).
Context (Hkept : ∀ old, old ∈ l → ¬ hit start end_ old → ∃ e, e ∈ l' ∧ geo e old).
Context (Hcut : ∀ old q, old ∈ l → hit start end_ old → piece start end_ old q → ∃ e, e ∈ l' ∧ geo e q).

(** The start and end of a survivor. *)
Definition head_like (old q : Extent) : Prop :=
  LogOff q = LogOff old ∧ (LogOff q + Length q <= start ∨ end_ <= LogOff q) ∧ LogOff q + Length q <= LogOff old + Length old.
Definition tail_like (old q : Extent) : Prop :=
  LogOff old <= LogOff q ∧ LogOff q + Length q = LogOff old + Length old ∧
  start <= LogOff q <= end_ ∧ end_ < LogOff q + BlockSize.

Lemma wf_in old : old ∈ l → ext_wf old ∧ LogOff old mod BlockSize = 0.
Proof. rewrite Forall_forall in Hwf, Hal. auto. Qed.

Lemma survives_spec old q :
  old ∈ l → survives old q →
  Seq q = Seq old ∧ LogOff q mod BlockSize = 0 ∧ (head_like old q ∨ tail_like old q) ∧
  ∀ x, covers q x → covers old x ∧ ext_disk q x = ext_disk old x.
Proof.
  intros Hin Hs. destruct (wf_in old Hin) as [Hw Ha]. destruct Hs as [[Hno Hg]|[Hh (p & Hp & Hg)]].
  - pose proof Hg as (E1 & E2 & E3 & E4). rewrite E4, E1. split; [done|]. split; [done|]. split.
    + left. unfold head_like, hit in *. rewrite E1, E3. unfold ext_wf in Hw. lia.
    + intros x. rewrite (geo_covers q old x Hg), (geo_disk q old x Hg). done.
  - pose proof Hh as [H1 H2]. pose proof Hg as (E1 & E2 & E3 & E4).
    destruct (split_piece old start end_ Hw Hse Hend H1 H2 p Hp) as (Hs & _ & _ & Hx).
    pose proof (split_skip_bounds old start end_ Hw Hse Hend H1 H2) as Hsk.
    split; [congruence|]. rewrite E1.
    assert (LogOff p mod BlockSize = 0 ∧ (head_like old p ∨ tail_like old p)) as [Hm Hlike].
    { unfold piece in Hp. rewrite (split_head old start end_ Hw Hse Hend H1 H2 p), (split_tail old start end_ Hw Hse Hend H1 H2 p) in Hp.
      unfold head_like, tail_like. destruct Hp as [[Hlt ->]|[Hlt ->]]; simpl.
      - split; [done|]. left. lia.
      - assert ((LogOff old + split_skip old end_) mod BlockSize = 0) as Hm.
        { unfold split_skip. rewrite Z.mod_add; [done|]. by unfold BlockSize. }
        split; [done|]. right. assert (start <= LogOff old + split_skip old end_) by (unfold BlockSize in *; dlia). lia. }
    split; [done|]. split.
    + unfold head_like, tail_like in *. rewrite E1, E3. exact Hlike.
    + intros x. rewrite (geo_covers q p x Hg), (geo_disk q p x Hg). apply Hx.
Qed.

(** Every byte outside the write is still held, at the same place and age. *)
Lemma survivor_of old x :
  old ∈ l → covers old x → (x < start ∨ end_ <= x) →
  ∃ q, q ∈ l' ∧ covers q x ∧ ext_disk q x = ext_disk old x ∧ Seq q = Seq old.
Proof.
  intros Hin Hx Hout. destruct (wf_in old Hin) as [Hw _].
  destruct (decide (LogOff old < end_ ∧ start < LogOff old + Length old)) as [Hh|Hno].
  - pose proof Hh as [H1 H2]. destruct (split_keeps old start end_ Hw Hse Hend H1 H2 x Hx Hout) as (p & Hp & Hc & Hd).
    destruct (Hcut old p Hin Hh Hp) as (q & Hq & Hg). exists q. split; [done|].
    rewrite (geo_covers q p x Hg), (geo_disk q p x Hg). split; [done|]. split; [done|].
    destruct (split_piece old start end_ Hw Hse Hend H1 H2 p Hp) as (Hs & _). destruct Hg as (_ & _ & _ & ->). done.
  - destruct (Hkept old Hin Hno) as (q & Hq & Hg). exists q. split; [done|].
    rewrite (geo_covers q old x Hg), (geo_disk q old x Hg). split; [done|]. split; [done|]. apply Hg.
Qed.

Lemma overlay_seq e : e ∈ l' → Seq e <= seq.
Proof.
  intros [(n & Hn & Hg)|(old & Ho & Hs)]%Hfrom.
  - destruct (Hnew n Hn) as [E _]. destruct Hg as (_ & _ & _ & Hs). lia.
  - destruct (survives_spec old e Ho Hs) as [-> _]. specialize (Hold old Ho). lia.
Qed.

Lemma overlay_layered : layered l'.
Proof.
  intros e f He Hf Hef. destruct (Hfrom e He) as [(n & Hn & Hg)|(oe & Hoe & Hse')].
  { destruct (Hnew n Hn) as [E _]. destruct Hg as (_ & _ & _ & ->). rewrite E. by apply overlay_seq. }
  destruct (survives_spec oe e Hoe Hse') as (Es & Ha & Hlike & _). rewrite Es.
  destruct (Hfrom f Hf) as [(n & Hn & Hg)|(og & Hog & Hsf)].
  - exfalso. destruct (Hnew n Hn) as (_ & Hb1 & Hb2 & Hb3 & Hb4). destruct Hg as (E1 & _ & E3 & _).
    rewrite E1 in Hef. unfold head_like, tail_like, BlockSize in *. destruct Hlike as [?|?]; [lia|dlia].
  - destruct (survives_spec og f Hog Hsf) as (Ef & Hfa & Hlikef & _). rewrite Ef.
    destruct Hlikef as [Hf1|Hf1].
    + apply Hlay; [done..|]. unfold head_like, tail_like in *. destruct Hlike; lia.
    + exfalso. unfold head_like, tail_like, BlockSize in *. destruct Hlike as [?|?]; [lia|dlia].
Qed.

Lemma overlay_aligned : Forall (λ e, LogOff e mod BlockSize = 0) l'.
Proof.
  apply Forall_forall. intros e [(n & Hn & Hg)|(old & Ho & Hs)]%Hfrom.
  - destruct Hg as (-> & _). apply (Hnew n Hn).
  - apply (survives_spec old e Ho Hs).
Qed.

Context (addr : Z → option Z) (Haddr : ∀ n x, n ∈ new → covers n x → addr x = Some (ext_disk n x)).
Context (Hcov : ∀ x, start <= x < end_ → ∃ n, n ∈ new ∧ covers n x).

Lemma overlay_one : one_writer l'.
Proof.
  intros e f x He Hf Hs Hxe Hxf. destruct (Hfrom e He) as [(n & Hn & Hg)|(oe & Hoe & Hse')].
  - destruct (Hfrom f Hf) as [(k & Hk & Hgk)|(og & Hog & Hsf)].
    + rewrite (geo_disk e n x Hg), (geo_disk f k x Hgk).
      pose proof (Haddr n x Hn (proj1 (geo_covers _ _ x Hg) Hxe)). pose proof (Haddr k x Hk (proj1 (geo_covers _ _ x Hgk) Hxf)).
      congruence.
    + exfalso. destruct (Hnew n Hn) as [E _]. destruct Hg as (_ & _ & _ & Hgs).
      destruct (survives_spec og f Hog Hsf) as [Ef _]. specialize (Hold og Hog). lia.
  - destruct (survives_spec oe e Hoe Hse') as (Es & _ & _ & Hc). destruct (Hc x Hxe) as [Hce ->].
    destruct (Hfrom f Hf) as [(k & Hk & Hgk)|(og & Hog & Hsf)].
    + exfalso. destruct (Hnew k Hk) as [E _]. destruct Hgk as (_ & _ & _ & Hgs). specialize (Hold oe Hoe). lia.
    + destruct (survives_spec og f Hog Hsf) as (Ef & _ & _ & Hcf). destruct (Hcf x Hxf) as [Hcof ->].
      apply Hone; auto. congruence.
Qed.

Lemma overlay_resolves x d :
  resolves l' x d ↔ if decide (start <= x < end_) then addr x = Some d else resolves l x d.
Proof.
  case_decide as Hx.
  - destruct (Hcov x Hx) as (n & Hn & Hc). destruct (Hnews n Hn) as (q & Hq & Hg). destruct (Hnew n Hn) as [En _].
    assert (Seq q = seq) as Eq by (destruct Hg as (_ & _ & _ & ->); done).
    rewrite (Haddr n x Hn Hc), <- (geo_disk q n x Hg).
    assert (newest_at l' x q) as Hnq.
    { split; [done|]. split; [by apply (geo_covers q n x Hg)|]. intros f Hf _. rewrite Eq. by apply overlay_seq. }
    split.
    + intros Hr. f_equal. apply (resolves_fun l' x); [apply overlay_one|by exists q|done].
    + intros [= <-]. by exists q.
  - assert (x < start ∨ end_ <= x) as Hout by lia.
    assert (∀ e, e ∈ l' → covers e x → ∃ old, old ∈ l ∧ covers old x ∧ ext_disk e x = ext_disk old x ∧ Seq e = Seq old) as Hback.
    { intros e He Hc. destruct (Hfrom e He) as [(n & Hn & Hg)|(o & Ho & Hs)].
      - apply (geo_covers e n x Hg) in Hc. destruct (Hnew n Hn) as (_ & ? & ? & _). unfold covers in Hc. lia.
      - destruct (survives_spec o e Ho Hs) as (? & _ & _ & Hcc). destruct (Hcc x Hc). eauto 6. }
    split; intros (e & (He & Hc & Hn) & ->).
    + destruct (Hback e He Hc) as (o & Ho & Hoc & Hd & Hs). exists o. split; [|done]. split; [done|]. split; [done|].
      intros f Hf Hfc. destruct (survivor_of f x Hf Hfc Hout) as (q & Hq & Hqc & _ & Hqs). specialize (Hn q Hq Hqc). lia.
    + destruct (survivor_of e x He Hc Hout) as (q & Hq & Hqc & Hqd & Hqs). exists q. split; [|done]. split; [done|].
      split; [done|]. intros f Hf Hfc. destruct (Hback f Hf Hfc) as (o & Ho & Hoc & _ & Hs). specialize (Hn o Ho Hoc). lia.
Qed.
End overlay.

Lemma count_from_spec exts :
  Forall (λ e, 0 <= Chunk e < 2 ^ 64 - 1 ∧ 0 <= Seq e < 2 ^ 64 - 1) exts →
  0 <= (count_from exts).1 ∧ is_u64 (count_from exts).2 ∧
  ∀ e, e ∈ exts → Chunk e < (count_from exts).1 ∧ Seq e < (count_from exts).2.
Proof.
  unfold count_from. intros Hall.
  assert (∀ c q, 0 <= c → is_u64 q →
    let r := foldl (λ '(c, q) e, (if c <=? Chunk e then add64 (Chunk e) 1 else c,
                                  if q <=? Seq e then add64 (Seq e) 1 else q)) (c, q) exts in
    c <= r.1 ∧ q <= r.2 ∧ is_u64 r.2 ∧ ∀ e, e ∈ exts → Chunk e < r.1 ∧ Seq e < r.2) as H.
  { induction Hall as [|e exts [He1 He2] _ IH]; intros c q Hc Hq; simpl.
    { split; [lia|]. split; [lia|]. split; [done|]. intros e He. by apply elem_of_nil in He. }
    rewrite !add64_small by lia. unfold is_u64 in *.
    destruct (IH (if c <=? Chunk e then Chunk e + 1 else c) (if q <=? Seq e then Seq e + 1 else q)) as (H1 & H2 & H3 & H4);
      [case_if; lia|case_if; zbool; lia|].
    cbv zeta in *. destruct (c <=? Chunk e) eqn:E1, (q <=? Seq e) eqn:E2; zbool;
      (split; [lia|]; split; [lia|]; split; [done|]; intros f [->|Hf]%elem_of_cons; [lia|auto]). }
  destruct (H 0 0 ltac:(lia) ltac:(unfold is_u64; lia)) as (H1 & _ & H3 & H4). auto.
Qed.

(** A transaction of puts of extents and one of the inode record replays. *)
Lemma replay_ops_succeeds ino os r0 :
  Forall (write_op ino) os → is_u64 ino →
  (∀ k v l, OpPut k v l ∈ os → (k = InodeKey ino → is_Some (DecodeInode v)) ∧ (k ≠ InodeKey ino → is_Some (DecodeExtent k v))) →
  is_Some (replay_ops ino os r0).
Proof.
  intros Hops Hino. revert r0. induction Hops as [|o os Ho _ IH]; intros r0 Hdec; [done|].
  assert (∀ r, is_Some (replay_ops ino os r)) as IH' by (intros r; apply IH; intros; eapply Hdec; by right).
  destruct o as [k v l|k p]; cbn [replay_ops].
  - specialize (Hdec k v l ltac:(left)). destruct (decide (k = InodeKey ino)) as [Hk|Hk];
      [rewrite bool_decide_eq_true_2 by done|rewrite bool_decide_eq_false_2 by done].
    + destruct (proj1 Hdec Hk) as [rec ->]. apply IH'.
    + destruct (proj2 Hdec Hk) as [d Hd]. destruct Ho as [?|(c & Hc & ->)]; [done|]. rewrite ExtentKey_has_prefix. cbn [negb].
      rewrite Hd. apply IH'.
  - destruct Ho as (-> & c & Hc & ->). rewrite ExtentKey_has_prefix. cbn [negb]. rewrite ParseExtentKey_ok by done. apply IH'.
Qed.

(** ** The transaction of a write, put together *)

Section proposed.
Set Default Proof Using "Type".
Context (s : Service) (w : writeOp).
Context (Hdev : has_dev s = true) (Hino : is_u64 (w_ino w)) (Hgen : is_u64 (w_gen w)).
Context (Hfile : file_ok (w_ino w) (w_existing w)) (Hplan : (w_chunk w, w_seq w) = count_from (w_existing w)).
Context (Hroom : Forall (λ e, Chunk e < 2 ^ 64 - 1 ∧ Seq e < 2 ^ 64 - 1) (w_existing w)).
Context (Hmax : w_chunk w + Z.of_nat (length (w_runs w) + length (w_existing w)) < 2 ^ 64).
Context (Hown : Forall (λ e, Owns (alloc s) (DiskOff e) = true) (w_existing w)).
Context (Hruns : Forall block_run (w_runs w)) (Htot : runs_total (w_runs w) = padded w) (Hdata : w_data w ≠ []).
Context (Hoff : 0 <= w_offset w) (Hal : w_offset w mod BlockSize = 0) (Hfit : w_offset w + padded w + BlockSize < 2 ^ 64).

Lemma dataLen_padded : 0 < dataLen w ∧ dataLen w <= padded w < dataLen w + BlockSize.
Proof using Hdata.
  clear -Hdata. unfold padded, dataLen, BlockSize. destruct (w_data w) as [|b l]; [done|]. simpl length. dlia.
Qed.

Lemma counted :
  0 <= w_chunk w ∧ is_u64 (w_seq w) ∧ ∀ e, e ∈ w_existing w → Chunk e < w_chunk w ∧ Seq e < w_seq w.
Proof using Hfile Hplan Hroom.
  clear -Hfile Hplan Hroom. destruct (count_from_spec (w_existing w)) as (H1 & H2 & H3).
  - rewrite Forall_forall in Hroom |- *. intros e He. destruct (Hroom e He).
    pose proof (fo_exts _ _ Hfile) as Hx. rewrite Forall_forall in Hx. destruct (Hx e He) as (_ & Hc & Hw).
    unfold ext_wf, is_u64 in *. lia.
  - rewrite <- Hplan in *. done.
Qed.

(** New extents, then the record if it changes, then the reclaims. *)
Lemma proposal_shape :
  w_deferred (proposal s w).1.1 = [] →
  ∃ os1 osi os2 next1 next2,
    (proposal s w).2 = os1 ++ osi ++ os2 ∧ fresh w (w_runs w) 0 (w_chunk w) os1 next1 ∧
    (osi = [] ∨ ∃ rec, osi = [put (InodeKey (w_ino w)) (EncodeInode rec)]) ∧
    reclaims (w_ino w) (w_offset w) (w_offset w + dataLen w) (w_existing w) os2 next1 next2.
Proof using All.
  pose proof dataLen_padded as Hdp. pose proof counted as (Hc0 & Hq & Hlt). unfold proposal.
  pose proof (propose_runs_ok w (node s) Hino Hq Hgen Hoff Hfit (w_runs w) 0 (w_chunk w) (w_offset w)
    Hruns ltac:(lia) Hc0 ltac:(lia) ltac:(lia) ltac:(lia) ltac:(lia)) as Hfr.
  destruct (propose_runs w (node s) (w_runs w) 0 (w_chunk w) (w_offset w)) as [[[cs os1] next1] end1].
  destruct Hfr as (Hfr & _ & Hend). pose proof (fr_next _ _ _ _ _ _ Hfr) as Hn1.
  rewrite decide_False in Hend by (intros E; rewrite E in Htot; unfold runs_total in Htot; simpl in Htot; lia). subst end1.
  set (osm := if _ || _ then _ else os1).
  assert (∃ osi, osm = os1 ++ osi ∧ (osi = [] ∨ ∃ rec, osi = [put (InodeKey (w_ino w)) (EncodeInode rec)])) as (osi & Eosm & Hosi).
  { unfold osm. case_if; [eexists; split; [done|eauto]|exists []; split; [by rewrite app_nil_r|by left]]. }
  clearbody osm.
  destruct (propose_reclaims s (w_offset w) (w_offset w + dataLen w) (w_existing w) cs osm [] [] next1) as [[[[cs' os'] ps'] d'] next2] eqn:Epr.
  cbn [fst snd set_proposal w_deferred]. intros ->.
  destruct (propose_reclaims_ok (w_ino w) (w_offset w) (w_offset w + dataLen w) Hino ltac:(lia) ltac:(lia)
    s (w_existing w) cs osm [] next1 cs' os' ps' next2) as (os2 & -> & Hrc); try done.
  - apply Hfile.
  - apply Hfile.
  - intros e He. specialize (Hlt e He). lia.
  - lia.
  - exists os1, osi, os2, next1, next2. rewrite Eosm, <- app_assoc. auto.
Qed.

(** It replays into the extents it puts and the chunks it deletes. *)
Lemma write_replays os1 osi os2 next1 next2 :
  fresh w (w_runs w) 0 (w_chunk w) os1 next1 → (osi = [] ∨ ∃ rec, osi = [put (InodeKey (w_ino w)) (EncodeInode rec)]) →
  reclaims (w_ino w) (w_offset w) (w_offset w + dataLen w) (w_existing w) os2 next1 next2 →
  (∀ e, e ∈ w_existing w → Chunk e < w_chunk w) →
  ∃ r, replayTxn (w_ino w) (w_rec w) (os1 ++ osi ++ os2) = Some r ∧
    t_puts r = omap (put_ext (w_ino w)) os1 ++ omap (put_ext (w_ino w)) os2 ∧ t_dels r = omap del_chunk os2 ∧
    NoDup (Chunk <$> t_puts r).
Proof using Hino.
  clear -Hino. intros Hfr Hosi Hrc Hlt.
  assert (Forall (write_op (w_ino w)) (os1 ++ osi ++ os2)) as Hops.
  { rewrite !Forall_app. split; [apply Hfr|]. split; [|apply Hrc].
    destruct Hosi as [->|[rec ->]]; [constructor|]. repeat constructor. }
  assert (omap (put_ext (w_ino w)) osi = [] ∧ omap del_chunk osi = []) as [Ep Ed].
  { destruct Hosi as [->|[rec ->]]; [done|]. unfold put. cbn [omap list_omap put_ext].
    rewrite bool_decide_eq_true_2 by done. done. }
  destruct (replay_ops_succeeds (w_ino w) _ (mkReplay (w_rec w) [] []) Hops Hino) as [r Hr].
  { intros k v l [Ho|[Ho|Ho]%elem_of_app]%elem_of_app.
    - destruct (fr_dec _ _ _ _ _ _ Hfr k v l Ho). done.
    - destruct Hosi as [->|[rec ->]]; [by apply elem_of_nil in Ho|]. apply list_elem_of_singleton in Ho. unfold put in Ho.
      injection Ho as -> -> ->. split; [|done]. intros _. by destruct (DecodeInode_fields rec) as (r' & -> & _).
    - destruct (rc_dec _ _ _ _ _ _ _ Hrc k v l Ho). done. }
  exists r. destruct (replay_ops_spec (w_ino w) _ _ _ Hr) as (Hp & Hd & _). split; [done|].
  simpl in Hp, Hd. rewrite !omap_app, Ep in Hp. rewrite !omap_app, Ed, (fr_dels _ _ _ _ _ _ Hfr) in Hd. simpl in *.
  split; [done|]. split; [done|]. rewrite Hp, fmap_app. apply NoDup_app. split; [apply Hfr|]. split; [|apply Hrc].
  intros c (n & -> & Hn)%list_elem_of_fmap Hc. destruct (fr_put _ _ _ _ _ _ Hfr n Hn) as (_ & _ & ? & _).
  destruct (reclaims_chunks _ _ _ _ _ _ _ _ Hrc (or_intror Hc)) as [(o & Ho & _ & E)|?]; [specialize (Hlt o Ho)|]; lia.
Qed.

(** The elements of the list it leaves. *)
Lemma write_elements rev os1 os2 next1 next2 r :
  fresh w (w_runs w) 0 (w_chunk w) os1 next1 →
  reclaims (w_ino w) (w_offset w) (w_offset w + dataLen w) (w_existing w) os2 next1 next2 →
  t_puts r = omap (put_ext (w_ino w)) os1 ++ omap (put_ext (w_ino w)) os2 → t_dels r = omap del_chunk os2 →
  file_ok (w_ino w) (w_existing w) → (∀ e, e ∈ w_existing w → Chunk e < w_chunk w) →
  let l' := m_extents (apply_replay r (w_existing w) rev) in
  (∀ e, e ∈ l' ↔ (∃ p, p ∈ t_puts r ∧ e = set_ModRevision rev p) ∨
     (e ∈ w_existing w ∧ Chunk e ∉ t_dels r ∧ Chunk e ∉ Chunk <$> t_puts r)) →
  (∀ e, e ∈ l' → (∃ n, n ∈ omap (put_ext (w_ino w)) os1 ∧ geo e n) ∨
     ∃ old, old ∈ w_existing w ∧ survives (w_offset w) (w_offset w + dataLen w) old e) ∧
  (∀ n, n ∈ omap (put_ext (w_ino w)) os1 → ∃ e, e ∈ l' ∧ geo e n) ∧
  (∀ old, old ∈ w_existing w → ¬ hit (w_offset w) (w_offset w + dataLen w) old → ∃ e, e ∈ l' ∧ geo e old) ∧
  (∀ old q, old ∈ w_existing w → hit (w_offset w) (w_offset w + dataLen w) old →
     piece (w_offset w) (w_offset w + dataLen w) old q → ∃ e, e ∈ l' ∧ geo e q) ∧
  Forall (is_extent (w_ino w)) l'.
Proof using Type.
  clear. intros Hfr Hrc Hputs Hdels Hfile' Hlt l' He. rewrite Hputs, Hdels in He. rewrite fmap_app in He.
  set (start := w_offset w) in *. set (end_ := w_offset w + dataLen w) in *.
  assert (∀ old, old ∈ w_existing w → Chunk old ∉ Chunk <$> omap (put_ext (w_ino w)) os1) as Hno1.
  { intros old Ho (n & E & Hn)%list_elem_of_fmap. destruct (fr_put _ _ _ _ _ _ Hfr n Hn) as (_ & _ & ? & _).
    specialize (Hlt old Ho). lia. }
  pose proof (fr_next _ _ _ _ _ _ Hfr) as Hn1.
  (* an extent with an old one's chunk number is that old one *)
  assert (∀ a b, a ∈ w_existing w → b ∈ w_existing w → Chunk a = Chunk b → a = b) as Hinj.
  { intros a b [i Hi]%list_elem_of_lookup [j Hj]%list_elem_of_lookup E.
    assert (i = j) as ->; [|congruence]. eapply (NoDup_lookup (Chunk <$> w_existing w)); [apply Hfile'|..];
      by rewrite list_lookup_fmap, ?Hi, ?Hj; simpl; rewrite ?E. }
  split; [|split; [|split; [|split]]].
  - intros e [(p & [Hp|Hp]%elem_of_app & ->)|(Ho & Hd & Hp)]%He.
    + left. by exists p.
    + right. destruct (rc_put _ _ _ _ _ _ _ Hrc p Hp) as (_ & old & q & Ho & Hh & Hq & Hg & _). exists old.
      split; [done|]. right. split; [done|]. by exists q.
    + right. exists e. split; [done|]. destruct (decide (LogOff e < end_ ∧ start < LogOff e + Length e)) as [Hh|Hh]; [|by left].
      right. split; [done|]. rewrite not_elem_of_app in Hp.
      destruct (rc_gone _ _ _ _ _ _ _ Hrc e Ho Hh) as [?|[?|?]]; [done|naive_solver|done].
  - intros n Hn. exists (set_ModRevision rev n). split; [|done]. apply He. left. exists n. split; [apply elem_of_app; by left|done].
  - intros old Ho Hno. exists old. split; [|done]. apply He. right. split; [done|]. rewrite not_elem_of_app.
    assert (¬ (Chunk old ∈ omap del_chunk os2 ∨ Chunk old ∈ Chunk <$> omap (put_ext (w_ino w)) os2)) as Hx.
    { intros [(o & Ho' & Hh & E)|?]%(reclaims_chunks _ _ _ _ _ _ _ _ Hrc); [|specialize (Hlt old Ho); lia].
      by rewrite (Hinj o old Ho' Ho E) in Hh. }
    split; [tauto|]. split; [by apply Hno1|tauto].
  - intros old q Ho Hh Hq. destruct (rc_keep _ _ _ _ _ _ _ Hrc old q Ho Hh Hq) as [(p & Hp & Hg)|(Hg & Hd & Hp)].
    + exists (set_ModRevision rev p). split; [|done]. apply He. left. exists p. split; [apply elem_of_app; by right|done].
    + exists old. split; [|done]. apply He. right. split; [done|]. rewrite not_elem_of_app. split; [done|]. split; [by apply Hno1|done].
  - apply Forall_forall. intros e [(p & [Hp|Hp]%elem_of_app & ->)|(Ho & _)]%He.
    + by destruct (fr_put _ _ _ _ _ _ Hfr p Hp).
    + by destruct (rc_put _ _ _ _ _ _ _ Hrc p Hp).
    + pose proof (fo_exts _ _ Hfile') as Hx. rewrite Forall_forall in Hx. auto.
Qed.
End proposed.

Definition demo_write (offset : Z) (data : bytes) (exts : list Extent) (rs : list Run) : writeOp :=
  set_runs rs (newWriteOp 7 offset data 0 0 (demo_rec 16384) exts).

Lemma single_file_ok ino e :
  is_extent ino e → LogOff e mod BlockSize = 0 → file_ok ino [e].
Proof.
  intros He Ha. constructor.
  - split; [repeat constructor|apply NoDup_singleton].
  - by apply Forall_singleton.
  - by apply Forall_singleton.
  - intros a b ->%list_elem_of_singleton ->%list_elem_of_singleton. lia.
  - by intros a b x ->%list_elem_of_singleton ->%list_elem_of_singleton.
Qed.

Lemma ext_at_extent c seq log disk len :
  is_u64 c → is_u64 seq → 0 <= log → 0 <= disk → 0 <= len → log + len < 2 ^ 64 → disk + len + BlockSize < 2 ^ 64 →
  is_extent 7 (ext_at c seq log disk len).
Proof. intros. split; [done|]. split; [done|]. unfold ext_wf, is_u64 in *. simpl. lia. Qed.


(** ** Two writes the older bytes shadow *)

(** The bytes a reader of [start, end) is sent to after the write, with the
    address the write gave its first byte. *)
Definition after_write (s : Service) (w : writeOp) : option (list segment) :=
  r ← replayTxn (w_ino w) (w_rec w) (proposal s w).2;
  Some (read_segments (m_extents (apply_replay r (w_existing w) 9)) (w_offset w) (w_offset w + dataLen w)).

(** The newer write does not always win.  A write of 100 bytes at offset
    100 of an extent of this node, and a whole-block write at offset 4096 over
    another node's extent, both commit, and a read of exactly the bytes written
    is sent to the old extent's bytes. *)
Theorem newer_write_shadowed :
  let old := ext_at 0 0 0 65536 16384 in
  let inside := demo_write 100 (replicate 100 1) [old] [mkRun 131072 4096] in
  let foreign := demo_write 4096 (replicate 4096 1) [ext_at 0 0 0 (ArenaSizeBytes + 65536) 16384] [mkRun 131072 4096] in
  after_write demo_svc inside = Some [mkSegment 100 (ext_disk old 100) 100] ∧
  after_write demo_svc foreign = Some [mkSegment 4096 (ArenaSizeBytes + 65536 + 4096) 4096].
Proof. vm_compute. done. Qed.

(** ** The size of the transaction *)

Lemma propose_reclaims_bound s start end_ exts cs os ps d next :
  let '(cs', os', _, _, _) := propose_reclaims s start end_ exts cs os ps d next in
  Z.of_nat (length os') <= Z.max (Z.of_nat (length os)) (maxWriteTxnOps - 1) ∧
  Z.of_nat (length cs') <= Z.max (Z.of_nat (length cs)) maxWriteTxnOps ∧
  (length os <= length os')%nat ∧ (length cs <= length cs')%nat.
Proof.
  revert cs os ps d next. induction exts as [|old exts IH]; intros cs os ps d next; simpl; [lia|].
  case_if; [apply IH|]. case_if; [apply IH|]. zbool.
  assert (∀ p n', planReclaim s old start end_ next = (Some p, n') → (length (p_ops p) <= 2)%nat) as Hp.
  { intros p n'. unfold planReclaim. repeat (case_match; try done); intros; simplify_eq; simpl; lia. }
  destruct (planReclaim s old start end_ next) as [[p|] n']; [|apply IH]. specialize (Hp p n' eq_refl).
  specialize (IH (cs ++ [p_cmp p]) (os ++ p_ops p) (ps ++ [p]) d n').
  destruct (propose_reclaims _ _ _ _ _ _ _ _ _) as [[[[cs' os'] ?] ?] ?].
  rewrite !length_app in IH. simpl in IH. unfold maxReclaimOps in *. lia.
Qed.

Lemma propose_runs_count w node rs pos next end0 :
  let '(cs, os, _, _) := propose_runs w node rs pos next end0 in length cs = length rs ∧ length os = length rs.
Proof.
  revert pos next end0. induction rs as [|r rs IH]; intros pos next end0; simpl; [done|].
  set (e := mkExtent _ _ _ _ _ _ _ _ _). specialize (IH (add64 pos (r_len r)) (add64 next 1) (End_ e)).
  destruct (propose_runs w node rs _ _ _) as [[[? ?] ?] ?]. simpl. lia.
Qed.

(** What a write's transaction carries.  However many extents it buries, it
    stays within etcd's limit as long as the payload is in at most 118 runs; in
    more than 128 runs, which a fragmented arena can give to a write of 1 MiB,
    no etcd server accepts it whatever the store holds. *)
Theorem write_txn_size s w m :
  let '(_, cs, os) := proposal s w in
  ((length (w_runs w) <= 118)%nat → (length os <= 119)%nat ∧ (S (length cs) <= 121)%nat) ∧
  ((max_txn_ops < length (w_runs w))%nat →
   txn_valid m (WithGenerationGuard (node s) (startGen s) :: cs) os [] = false).
Proof.
  unfold proposal. pose proof (propose_runs_count w (node s) (w_runs w) 0 (w_chunk w) (w_offset w)) as Hc.
  destruct (propose_runs w (node s) (w_runs w) 0 (w_chunk w) (w_offset w)) as [[[cs os] next] end_].
  destruct Hc as [Hc Ho]. set (osm := if _ || _ then _ else os).
  assert (length os <= length osm <= S (length os))%nat as Hm.
  { unfold osm. case_if; rewrite ?length_app; simpl; lia. }
  pose proof (propose_reclaims_bound s (w_offset w) end_ (w_existing w) cs osm [] [] next) as Hb.
  destruct (propose_reclaims _ _ _ _ _ _ _ _ _) as [[[[cs' os'] ?] ?] ?]. unfold maxWriteTxnOps in Hb.
  split; [lia|]. intros Hgt. unfold txn_valid. rewrite (bool_decide_eq_false_2 (length os' <= max_txn_ops)%nat) by lia.
  by rewrite !andb_false_r.
Qed.
