(* ===== verification/Delegate.v ===== *)
(** * Write delegation: buffering a write's metadata and publishing it

    Models internal/ipc/delegate.go: the buffer an inode's writes leave behind
    ([pending]), how a write joins it, how it is put on the device and published
    in one transaction that also asserts this node's lock key, what happens when
    the publication is refused, and the batched publication of several inodes.

    The entry of an inode is looked up by its number; an operation works on the
    entry it has locked, which stays in the map.  Concurrent device writes of a
    flush are issued one after the other here.  Logging and metrics are left
    out; a history recorder is not configured. *)

From S2P Require Import Prelude Etcd EtcdFacts Schema Store Locks Extents Allocator ArenaPool InodeTimes Service DataPath.

(** ** Entries *)

Definition get_entry (ino : Z) : svc lockEntry := gets (λ s, default (new_entry ino) (entries s !! ino)).
Definition alter_entry (ino : Z) (f : lockEntry → lockEntry) : svc unit :=
  modify (λ s, set_entries (alter f ino (entries s)) s).

Definition set_key (m h : bytes) (l at_ : Z) (e : lockEntry) : lockEntry :=
  mkEntry (e_ino e) (writer e) (readers e) m h l at_ (holdTime e) (meta e) (metaFor e) (dataStreakEnd e) (buffer e) (lastUsed e).
(** [e.holder, e.lease = "", 0]; the mode and the time of acquisition stay. *)
Definition forget_key (e : lockEntry) : lockEntry := set_key (mode e) [] 0 (acquiredAt e) e.
Definition set_meta (m : option inodeMeta) (for_ : bytes) (e : lockEntry) : lockEntry :=
  mkEntry (e_ino e) (writer e) (readers e) (mode e) (holder e) (lease e) (acquiredAt e) (holdTime e) m for_
    (dataStreakEnd e) (buffer e) (lastUsed e).
Definition set_buffer (b : option pending) (e : lockEntry) : lockEntry :=
  mkEntry (e_ino e) (writer e) (readers e) (mode e) (holder e) (lease e) (acquiredAt e) (holdTime e) (meta e) (metaFor e)
    (dataStreakEnd e) b (lastUsed e).
Definition set_streak (end_ : Z) (e : lockEntry) : lockEntry :=
  mkEntry (e_ino e) (writer e) (readers e) (mode e) (holder e) (lease e) (acquiredAt e) (holdTime e) (meta e) (metaFor e)
    end_ (buffer e) (lastUsed e).
Definition set_holdTime (t : Z) (e : lockEntry) : lockEntry :=
  mkEntry (e_ino e) (writer e) (readers e) (mode e) (holder e) (lease e) (acquiredAt e) t (meta e) (metaFor e)
    (dataStreakEnd e) (buffer e) (lastUsed e).
Definition set_lastUsed (t : Z) (e : lockEntry) : lockEntry :=
  mkEntry (e_ino e) (writer e) (readers e) (mode e) (holder e) (lease e) (acquiredAt e) (holdTime e) (meta e) (metaFor e)
    (dataStreakEnd e) (buffer e) t.
Definition set_rw (w : bool) (r : Z) (e : lockEntry) : lockEntry :=
  mkEntry (e_ino e) w r (mode e) (holder e) (lease e) (acquiredAt e) (holdTime e) (meta e) (metaFor e)
    (dataStreakEnd e) (buffer e) (lastUsed e).

Definition held (e : lockEntry) : bool := negb (bool_decide (holder e = [])).

(** ** The buffer *)

Definition pending_empty (p : option pending) : bool :=
  match p with None => true | Some p => bool_decide (order p = []) end.

(** Comparisons only for keys the buffer has not written; operations are
    last-write-wins, in the order their keys were first touched. *)
Definition add_cmps (owned : gmap bytes op) (m : gmap bytes cmp) (cs : list cmp) : gmap bytes cmp :=
  foldl (λ m c, match owned !! c_key c with Some _ => m | None => <[c_key c := c]> m end) m cs.

Definition add_ops (st : gmap bytes op * list bytes) (os : list op) : gmap bytes op * list bytes :=
  foldl (λ st o,
    let '(m, ord) := st in
    (<[op_key o := o]> m, match m !! op_key o with Some _ => ord | None => ord ++ [op_key o] end)) st os.

Definition add (p : pending) (now : Z) (cs : list cmp) (os : list op) (pl : list reclaimPlan) (bytes : Z) : pending :=
  let p := if made p then p
           else mkPending true ∅ ∅ (order p) (plans p) (data p) (runs p) (pbytes p) now (perr p) in
  let '(m, ord) := add_ops (ops p, order p) os in
  mkPending true (add_cmps (ops p) (cmps p) cs) m ord (plans p ++ pl) (data p) (runs p)
    (add64 (pbytes p) bytes) (since p) (perr p).

Definition txn (p : pending) : list cmp * list op :=
  (omap (λ k, cmps p !! k) (order p), omap (λ k, ops p !! k) (order p)).

Definition reset (p : pending) : pending := mkPending false ∅ ∅ [] [] [] [] 0 (since p) None.

Definition set_data (d : list bufferedRun) (p : pending) : pending :=
  mkPending (made p) (cmps p) (ops p) (order p) (plans p) d (runs p) (pbytes p) (since p) (perr p).
Definition set_perr (e : err) (p : pending) : pending :=
  mkPending (made p) (cmps p) (ops p) (order p) (plans p) (data p) (runs p) (pbytes p) (since p) (Some e).
Definition add_runs (d : list bufferedRun) (rs : list Run) (p : pending) : pending :=
  mkPending (made p) (cmps p) (ops p) (order p) (plans p) (data p ++ d) (runs p ++ rs) (pbytes p) (since p) (perr p).

Definition deferWrites (s : Service) : bool := 0 <? flushInterval (opts s).

Definition bufferAccounted (nops bytes : Z) : svc unit :=
  modify (λ s, set_buffered (bufferedOps s + nops) (bufferedBytes s + bytes) s).

(** A buffer that can never be published: its blocks go back.  [false] is the
    nil dereference of an entry that has no buffer. *)
Definition discardPending (ino : Z) : svc bool :=
  e ⇠ get_entry ino;
  match buffer e with
  | None => sret false
  | Some p =>
    _ ⇠ alter_entry ino (set_buffer (Some (reset p)));
    _ ⇠ free_plans (plans p);
    _ ⇠ free_runs (runs p);
    _ ⇠ alter_entry ino (set_meta None []);
    _ ⇠ bufferAccounted (- Z.of_nat (length (order p))) (- pbytes p);
    sret true
  end.

(** [keyLostLocked] (lockcache.go): etcd has already deleted the key. *)
Definition keyLostLocked (ino : Z) : svc unit :=
  _ ⇠ invalidatePages ino;
  _ ⇠ alter_entry ino (λ e, set_meta None [] (forget_key e));
  e ⇠ get_entry ino;
  if pending_empty (buffer e) then sret tt else _ ⇠ discardPending ino; sret tt.

(** ** Putting the bytes on the device *)

Definition b_len (r : bufferedRun) : Z := Z.of_nat (length (b_buf r)).

Definition off_le (a b : bufferedRun) : Prop := b_off a <= b_off b.
#[global] Instance off_le_dec : RelDecision off_le.
Proof. intros a b. unfold off_le. apply _. Defined.

(** Runs that continue each other become one write. *)
Fixpoint coalesce_from (cur : bufferedRun) (rs : list bufferedRun) : list bufferedRun :=
  match rs with
  | [] => [cur]
  | r :: rs' =>
    if b_off r =? add64 (b_off cur) (b_len cur)
    then coalesce_from (mkBuffered (b_off cur) (b_buf cur ++ b_buf r)) rs'
    else cur :: coalesce_from r rs'
  end.
Definition coalesce (rs : list bufferedRun) : list bufferedRun :=
  match rs with [] => [] | r :: rs' => coalesce_from r rs' end.

(** The groups' buffers, then their writes: every group is written, and the
    first error is reported. *)
Fixpoint group_buffers (s : Service) (gs : list bufferedRun) : prog unit :=
  match gs with
  | [] => Ret tt
  | g :: gs' => _ ⇐ ioBuffer s (b_len g); group_buffers s gs'
  end.

Fixpoint write_groups (s : Service) (gs : list bufferedRun) : prog (option err) :=
  match gs with
  | [] => Ret None
  | g :: gs' =>
    r ⇐ writeRun s (b_buf g) (b_off g);
    e ⇐ write_groups s gs';
    Ret match r with Err e => Some e | Ok _ => e end
  end.

Definition flushData (ino : Z) : svc (result unit) :=
  e ⇠ get_entry ino;
  match buffer e with
  | None => sret (Ok tt)
  | Some p =>
    match data p with
    | [] => sret (Ok tt)
    | _ =>
      let sorted := merge_sort off_le (data p) in
      _ ⇠ alter_entry ino (set_buffer (Some (set_data sorted p)));
      r ⇠ (λ s, _ ⇐ group_buffers s (coalesce sorted); x ⇐ write_groups s (coalesce sorted); Ret (s, x));
      match r with
      | Some e => sret (Err e)
      | None => _ ⇠ alter_entry ino (set_buffer (Some (set_data [] p))); sret (Ok tt)
      end
    end
  end.

(** ** Publishing one inode's buffer *)

(** [Ok None]: nothing left to publish. *)
Definition proposeFlushLocked (ino : Z) : svc (result (option (list cmp * list op))) :=
  e ⇠ get_entry ino;
  if negb (held e) then _ ⇠ discardPending ino; sret (Ok None)
  else
    r ⇠ flushData ino;
    match r with
    | Err er => _ ⇠ alter_entry ino (λ e, set_buffer (set_perr er <$> buffer e) e); sret (Err er)
    | Ok _ =>
      e ⇠ get_entry ino;
      sret match buffer e with
           | None => Ok None
           | Some p => let '(cs, os) := txn p in
                       Ok (Some (cs ++ [key_exists (LockKey ino (mode e) (holder e))], os))
           end
    end.

(** The revision each put key of a transaction now carries. *)
Definition put_revs (os : list op) (rev : Z) : gmap bytes Z :=
  foldl (λ m o, match o with OpPut k _ _ => <[k := rev]> m | OpDelete _ _ => m end) ∅ os.

Definition update_rev (revs : gmap bytes Z) (e : Extent) : Extent :=
  match revs !! Key e with Some rev => set_ModRevision rev e | None => e end.

Definition flushCommitted (ino : Z) (revs : gmap bytes Z) : svc unit :=
  e ⇠ get_entry ino;
  match buffer e with
  | None => sret tt
  | Some p =>
    _ ⇠ alter_entry ino (set_buffer (Some (reset p)));
    _ ⇠ free_plans (plans p);
    _ ⇠ bufferAccounted (- Z.of_nat (length (order p))) (- pbytes p);
    alter_entry ino (λ e, match meta e with
                          | None => e
                          | Some m => set_meta (Some (mkMeta (m_rec m) (map (update_rev revs) (m_extents m)))) (metaFor e) e
                          end)
  end.

(** Is what this flush proposed already what the store holds? *)
Fixpoint landed (prefix : bytes) (values : gmap bytes bytes) (os : gmap bytes op) (ks : list bytes) (checked : nat) : bool :=
  match ks with
  | [] => negb (checked =? 0)%nat
  | k :: ks' =>
    if negb (has_prefix prefix k) then landed prefix values os ks' checked
    else
      match os !! k, values !! k with
      | Some (OpDelete _ _), Some _ => false
      | Some (OpPut _ _ _), None => false
      | Some (OpPut _ v _), Some w =>
        if bool_decide (w = v) then landed prefix values os ks' (S checked) else false
      | _, _ => landed prefix values os ks' (S checked)
      end
  end.

Definition flushAlreadyLanded (ino : Z) : svc (option (gmap bytes Z)) :=
  r ⇠ with_store (λ st, GetInodeAndExtents st ino);
  e ⇠ get_entry ino;
  sret match r, buffer e with
       | Ok x, Some p =>
         let published := match x with Some (_, l) => l | None => [] end in
         let revs := list_to_map (map (λ e, (Key e, ModRevision e)) (reverse published)) in
         let values := list_to_map (map (λ e, (Key e, Encode e)) (reverse published)) in
         if landed (ExtentPrefix ino) values (ops p) (order p) 0 then Some revs else None
       | _, _ => None
       end.

(** A publication that was rejected: one that landed before its reply was
    lost, a lock key that is gone, or a change made without the lock. *)
Definition flush_rejected (ino : Z) : svc (result unit) :=
  l ⇠ flushAlreadyLanded ino;
  match l with
  | Some revs => _ ⇠ flushCommitted ino revs; sret (Ok tt)
  | None =>
    e ⇠ get_entry ino;
    h ⇠ with_store (λ st, LockHeldBy st ino (mode e) (holder e));
    match h with
    | Ok false => _ ⇠ keyLostLocked ino; sret (Err ErrConflict)
    | _ => _ ⇠ alter_entry ino (λ e, set_buffer (set_perr ErrConflict <$> buffer e) e); sret (Err ErrConflict)
    end
  end.

Definition flushLocked (ino : Z) : svc (result unit) :=
  e ⇠ get_entry ino;
  if pending_empty (buffer e) then sret (Ok tt)
  else
    x ⇠? proposeFlushLocked ino;
    match x with
    | None => sret (Ok tt)
    | Some (cs, os) =>
      r ⇠ commitGuarded cs os;
      match r with
      | Err er => _ ⇠ alter_entry ino (λ e, set_buffer (set_perr er <$> buffer e) e); sret (Err er)
      | Ok c =>
        if by_fence c then _ ⇠ discardPending ino; sret (Err ErrFenced)
        else if negb (committed c) then flush_rejected ino
        else _ ⇠ flushCommitted ino (put_revs os (crev c)); sret (Ok tt)
      end
    end.

Definition flushEntry (ino : Z) : svc (result unit) := flushLocked ino.

(** ** Joining the buffer *)

(** TryLock and Unlock of the entry's write lock. *)
Definition tryLockExclusive (ino : Z) : svc bool := λ s,
  match entries s !! ino with
  | Some e => if writer e || (0 <? readers e) then Ret (s, false)
              else Ret (set_entries (<[ino := set_rw true (readers e) e]> (entries s)) s, true)
  | None => Ret (s, false)
  end.
Definition unlockExclusive (ino : Z) : svc unit := alter_entry ino (λ e, set_rw false (readers e) e).

(** The inodes with an entry; Go's map order is unspecified. *)
Definition all (s : Service) : list Z := (map_to_list (entries s)).*1.

Fixpoint drain_loop (inos : list Z) : svc unit :=
  match inos with
  | [] => sret tt
  | ino :: inos' =>
    s ⇠ gets id;
    if bufferedBytes s <=? bufferMaxBytes (opts s) then sret tt
    else
      ok ⇠ tryLockExclusive ino;
      _ ⇠ (if (ok : bool) then _ ⇠ flushEntry ino; unlockExclusive ino else sret tt);
      drain_loop inos'
  end.

Definition drainBuffers (skip : Z) : svc unit :=
  inos ⇠ gets all; drain_loop (filter (λ i, i ≠ skip) inos).

Definition bufferWrite (ino : Z) (replay : txnReplay) (cs : list cmp) (os : list op) (pl : list reclaimPlan) (bytes : Z)
  (d : list bufferedRun) (rs : list Run) : svc (result unit) :=
  _ ⇠ alter_entry ino (λ e, match buffer e with None => set_buffer (Some no_pending) e | Some _ => e end);
  e ⇠ get_entry ino;
  o ⇠ gets opts;
  let p := default no_pending (buffer e) in
  if negb (pending_empty (buffer e)) &&
     ((maxWriteTxnOps <? Z.of_nat (length (order p)) + Z.of_nat (length os)) || (flushMaxBytes o <? add64 (pbytes p) bytes))
  then _ ⇠? flushLocked ino; sret (Err ErrBufferPublished)
  else
    total ⇠ gets bufferedBytes;
    _ ⇠ (if bufferMaxBytes o <? total + bytes then drainBuffers ino else sret tt);
    now ⇠ (if made p then sret 0 else lift (call QNow));
    let p' := add p now cs os pl bytes in
    _ ⇠ bufferAccounted (Z.of_nat (length (order p')) - Z.of_nat (length (order p))) bytes;
    _ ⇠ alter_entry ino (λ e,
          let e := set_buffer (Some (add_runs d rs p')) e in
          match meta e with
          | Some m => if held e then set_meta (Some (apply_replay replay (m_extents m) 0)) (holder e) e else e
          | None => e
          end);
    sret (Ok tt).

(** ** Publishing several inodes' buffers at once *)

Record flushBatch := mkBatch { f_inos : list Z; f_cmps : list cmp; f_ops : list op }.
Definition no_batch : flushBatch := mkBatch [] [] [].

Definition fits (b : flushBatch) (cs : list cmp) (os : list op) : bool :=
  bool_decide (f_inos b = []) ||
  ((Z.of_nat (length (f_ops b)) + Z.of_nat (length os) <=? maxWriteTxnOps) &&
   (Z.of_nat (length (f_cmps b)) + Z.of_nat (length cs) <=? maxWriteTxnOps)).

Fixpoint for_each {A} (f : A → svc unit) (l : list A) : svc unit :=
  match l with [] => sret tt | x :: l' => _ ⇠ f x; for_each f l' end.

Definition commitFlushBatch (b : flushBatch) : svc unit :=
  if bool_decide (f_inos b = []) then sret tt
  else
    r ⇠ commitGuarded (f_cmps b) (f_ops b);
    match r with
    | Err er => for_each (λ ino, alter_entry ino (λ e, set_buffer (set_perr er <$> buffer e) e)) (f_inos b)
    | Ok c =>
      if by_fence c then for_each (λ ino, _ ⇠ discardPending ino; sret tt) (f_inos b)
      else if negb (committed c) then for_each (λ ino, _ ⇠ flushLocked ino; sret tt) (f_inos b)
      else for_each (λ ino, flushCommitted ino (put_revs (f_ops b) (crev c))) (f_inos b)
    end.

Fixpoint flush_loop (inos : list Z) (b : flushBatch) : svc unit :=
  match inos with
  | [] => commitFlushBatch b
  | ino :: inos' =>
    e ⇠ get_entry ino;
    if pending_empty (buffer e) then flush_loop inos' b
    else
      r ⇠ proposeFlushLocked ino;
      match r with
      | Ok (Some (cs, os)) =>
        if fits b cs os then flush_loop inos' (mkBatch (f_inos b ++ [ino]) (f_cmps b ++ cs) (f_ops b ++ os))
        else _ ⇠ commitFlushBatch b; flush_loop inos' (mkBatch [ino] cs os)
      | _ => flush_loop inos' b
      end
  end.

Definition flushEntries (inos : list Z) : svc unit := flush_loop inos no_batch.

Definition flushBatchInodes : nat := 64.

Definition flushHeld (inos : list Z) : svc unit :=
  if bool_decide (inos = []) then sret tt
  else _ ⇠ flushEntries inos; for_each unlockExclusive inos.

(** [lockExclusive] waits for the lock; no operation is in flight here. *)
Definition lockExclusive (ino : Z) : svc unit := alter_entry ino (λ e, set_rw true (readers e) e).

(** Chunks of [flushBatchInodes], so that no lock is held across many commits. *)
Fixpoint flush_all (inos : list Z) (acc : list Z) : svc unit :=
  match inos with
  | [] => flushHeld acc
  | ino :: inos' =>
    _ ⇠ lockExclusive ino;
    let acc := acc ++ [ino] in
    if bool_decide (length acc = flushBatchInodes) then _ ⇠ flushHeld acc; flush_all inos' []
    else flush_all inos' acc
  end.
Definition FlushAll : svc unit := inos ⇠ gets all; flush_all inos [].

(** Entries with an operation in flight are skipped. *)
Fixpoint flush_due (deadline : Z) (inos : list Z) (due : list Z) : svc unit :=
  match inos with
  | [] => flushHeld due
  | ino :: inos' =>
    e ⇠ get_entry ino;
    match buffer e with
    | Some p =>
      if negb (bool_decide (order p = [])) && (since p <? deadline) then
        ok ⇠ tryLockExclusive ino;
        if (ok : bool) then
          let due := due ++ [ino] in
          if bool_decide (length due = flushBatchInodes) then _ ⇠ flushHeld due; flush_due deadline inos' []
          else flush_due deadline inos' due
        else flush_due deadline inos' due
      else flush_due deadline inos' due
    | None => flush_due deadline inos' due
    end
  end.
Definition flushExpired : svc unit :=
  now ⇠ lift (call QNow);
  s ⇠ gets id;
  flush_due (now - flushInterval (opts s)) (all s) [].
