(* ===== verification/SvcLogic.v ===== *)
(** * Disciplines over the service's operations

    A discipline says which requests may be sent in which phase, and how a reply
    changes the phase ([Etcd.obeys]).  [triple] is the Hoare triple of an
    operation of the service under a discipline; it holds whatever etcd, the
    device and the kernel answer.

    [FlushRules] lists what a discipline owes for the steps of a flush.  The ways
    a buffer is published (one inode, a batch, every inode, the expired ones)
    and the loss of a key follow once and for all; FlushOrder and YieldOrder
    instantiate it. *)

From S2P Require Import Prelude Etcd EtcdFacts Schema Store Locks Extents Allocator ArenaPool InodeTimes Service DataPath Delegate.

Section triples.
Context {S : Type} (ok : S → req → Prop) (upd : S → ∀ q, resp q → S).
Implicit Types (P : Service → S → Prop).

(** From a state [P] accepts, [c] makes only allowed requests and ends as [Q]
    says. *)
Definition triple {A} P (c : svc A) (Q : A → Service → S → Prop) : Prop :=
  ∀ s st, P s st → obeys ok upd st (c s) (λ st' x, Q x.2 x.1 st').

Lemma triple_ret {A} (a : A) (Q : A → Service → S → Prop) : triple (Q a) (sret a) Q.
Proof. by intros s st. Qed.

Lemma triple_bind {A B} (c : svc A) (f : A → svc B) P Q R :
  triple P c Q → (∀ a, triple (Q a) (f a) R) → triple P (sbind c f) R.
Proof.
  intros Hc Hf s st HP. apply obeys_bind. eapply obeys_mono; [|by apply Hc]. intros st' x HQ. by apply Hf.
Qed.

Lemma triple_mono {A} (c : svc A) P P' (Q Q' : A → Service → S → Prop) :
  (∀ s st, P' s st → P s st) → (∀ a s st, Q a s st → Q' a s st) → triple P c Q → triple P' c Q'.
Proof. intros H1 H2 H s st HP. eapply obeys_mono; [|by apply H, H1]. intros st' x. apply H2. Qed.

Lemma triple_pre {A} (c : svc A) P P' Q : (∀ s st, P' s st → P s st) → triple P c Q → triple P' c Q.
Proof. intros H. by apply triple_mono. Qed.

Lemma triple_and {A} (c : svc A) P P' Q : triple P c Q → triple (λ s st, P s st ∧ P' s st) c Q.
Proof. apply triple_pre. by intros s st [? _]. Qed.

Lemma triple_modify (f : Service → Service) P Q : (∀ s st, P s st → Q tt (f s) st) → triple P (modify f) Q.
Proof. intros H s st HP. by apply H. Qed.

Lemma triple_gets {A} (f : Service → A) P : triple P (gets f) (λ a s st, P s st ∧ a = f s).
Proof. by intros s st. Qed.

(** Requests without consequence in a phase. *)
Definition quiet (st : S) (q : req) : Prop := ok st q ∧ ∀ r, upd st q r = st.

Lemma obeys_quiet {A} (p : prog A) st (Q : S → A → Prop) : issues (quiet st) p → (∀ a, Q st a) → obeys ok upd st p Q.
Proof. intros Hp HQ. eapply obeys_idle; [|exact Hp|done]. by intros q [? ?]. Qed.

Lemma triple_store {A} (f : Store → prog A) P :
  (∀ s st, P s st → issues (quiet st) (f (store s))) → triple P (with_store f) (λ _, P).
Proof. intros H s st HP. apply obeys_bind, obeys_quiet; [by apply H|]. done. Qed.

Lemma triple_retry {A} (fn : svc (result A)) P n :
  (∀ st i, quiet st (QBackoff i)) → triple P fn (λ _, P) → triple P (retry n fn) (λ _, P).
Proof.
  intros Hq Hfn. unfold retry. generalize EOther as last, O as i. induction n as [|n IH]; intros last i; [by intros s st|].
  simpl. eapply triple_bind; [exact Hfn|]. intros [a|e]; [by intros s st|]. case_if; [by intros s st|].
  intros s st HP. destruct (Hq st i) as [Hok Hup]. split; [done|]. intros r. rewrite Hup. destruct r; [done|]. by apply IH.
Qed.

(** A sequence that keeps a property throughout. *)
Definition keeps P {A} (c : svc A) : Prop := triple P c (λ _, P).

Lemma keeps_ret P {A} (a : A) : keeps P (sret a).
Proof. by intros s st. Qed.

Lemma triple_then {A B} P (c : svc A) (f : A → svc B) Q : keeps P c → (∀ a, triple P (f a) Q) → triple P (sbind c f) Q.
Proof. intros Hc Hf. by eapply triple_bind. Qed.

Lemma keeps_get P {A} (f : Service → A) : keeps P (gets f).
Proof. by intros s st. Qed.

Lemma keeps_if P {A} (b : bool) (c c' : svc A) : keeps P c → keeps P c' → keeps P (if b then c else c').
Proof. by destruct b. Qed.

Lemma keeps_for_each P {A} (f : A → svc unit) l : (∀ x, keeps P (f x)) → keeps P (for_each f l).
Proof. intros Hf. induction l as [|x l IH]; simpl; [apply keeps_ret|]. by apply triple_then. Qed.

(** What a reply never undoes holds until the end. *)
Lemma obeys_stable {A} (M : S → Prop) (p : prog A) st (Q : S → A → Prop) :
  (∀ st q r, M st → M (upd st q r)) → M st → obeys ok upd st p Q → obeys ok upd st p (λ st' a, Q st' a ∧ M st').
Proof.
  intros HM. revert st. induction p as [a|q k IH]; intros st Hs; simpl; [done|]. intros [Hq Hk]. split; [done|]. intros r.
  apply IH; [by apply HM|done].
Qed.

Lemma triple_stable {A} (M : S → Prop) (c : svc A) P Q : (∀ st q r, M st → M (upd st q r)) →
  triple P c Q → triple (λ s st, P s st ∧ M st) c (λ a s st, Q a s st ∧ M st).
Proof. intros HM Hc s st [HP Hs]. by apply obeys_stable; [done|done|apply Hc]. Qed.
End triples.

(** ** What a discipline owes for a flush *)

(** The keys of the extents an entry has cached. *)
Definition meta_keys (e : lockEntry) : list bytes := match meta e with Some m => map Key (m_extents m) | None => [] end.

(** The fields a discipline may look at are kept, but for extents that leave the
    cache. *)
Definition same_core (e e' : lockEntry) : Prop :=
  buffer e' = buffer e ∧ holder e' = holder e ∧ mode e' = mode e ∧ meta_keys e' ⊆ meta_keys e.

(** The metadata of an entry after its publication. *)
Definition with_revs (revs : gmap bytes Z) (e : lockEntry) : lockEntry :=
  match meta e with
  | None => e
  | Some m => set_meta (Some (mkMeta (m_rec m) (map (update_rev revs) (m_extents m)))) (metaFor e) e
  end.

Lemma same_core_dropped e : same_core e (set_meta None [] e).
Proof. repeat split. unfold meta_keys. simpl. set_solver. Qed.

Lemma same_core_revs revs e : same_core e (with_revs revs e).
Proof.
  unfold with_revs, same_core, meta_keys. destruct (meta e) as [m|] eqn:Em; [|by rewrite Em]. repeat split. simpl.
  replace (map Key (map (update_rev revs) (m_extents m))) with (map Key (m_extents m)); [done|].
  rewrite map_map. apply map_ext. intros x. unfold update_rev. by destruct (revs !! Key x).
Qed.

Section flush.
Context {S : Type} (ok : S → req → Prop) (upd : S → ∀ q, resp q → S).
Context (I : Service → S → Prop) (safe : S → list cmp → list op → Prop).

Notation keeps := (keeps ok upd I).
Notation triple := (triple ok upd).

Record FlushRules : Prop := {
  fr_now : ∀ st, quiet ok upd st QNow;
  fr_safe_later : ∀ st q r cs os, safe st cs os → safe (upd st q r) cs os;
  fr_safe_nil : ∀ st, safe st [] [];
  fr_safe_app : ∀ st cs os cs' os', safe st cs os → safe st cs' os' → safe st (cs ++ cs') (os ++ os');
  fr_alter : ∀ ino f, (∀ e, same_core e (f e)) → keeps (alter_entry ino f);
  fr_perr : ∀ ino er, keeps (alter_entry ino (λ e, set_buffer (set_perr er <$> buffer e) e));
  fr_forget : ∀ ino, keeps (alter_entry ino (λ e, set_meta None [] (forget_key e)));
  fr_discard : ∀ ino, keeps (discardPending ino);
  fr_committed : ∀ ino revs, keeps (flushCommitted ino revs);
  fr_inval : ∀ ino, keeps (invalidatePages ino);
  fr_look : ∀ ino, keeps (with_store (λ st, GetInodeAndExtents st ino));
  fr_held : ∀ ino m h, keeps (with_store (λ st, LockHeldBy st ino m h));
  fr_propose : ∀ ino, triple I (proposeFlushLocked ino)
    (λ r s st, I s st ∧ ∀ cs os, r = Ok (Some (cs, os)) → safe st cs os);
  fr_commit : ∀ cs os, triple (λ s st, I s st ∧ safe st cs os) (commitGuarded cs os) (λ _, I);
}.

Context (HR : FlushRules).

Lemma keeps_keyLost ino : keeps (keyLostLocked ino).
Proof.
  apply triple_then; [by apply fr_inval|]. intros _. apply triple_then; [by apply fr_forget|]. intros _.
  apply triple_then; [apply keeps_get|]. intros e. apply keeps_if; [apply keeps_ret|].
  apply triple_then; [by apply fr_discard|]. intros ?. apply keeps_ret.
Qed.

Lemma keeps_rejected ino : keeps (flush_rejected ino).
Proof.
  unfold flush_rejected. apply triple_then.
  { unfold flushAlreadyLanded. apply triple_then; [by apply fr_look|]. intros r.
    apply triple_then; [apply keeps_get|]. intros e. apply keeps_ret. }
  intros [revs|]; [apply triple_then; [by apply fr_committed|intros; apply keeps_ret]|].
  apply triple_then; [apply keeps_get|]. intros e. apply triple_then; [by apply fr_held|].
  intros [[]|er]; (apply triple_then; [first [apply keeps_keyLost|by apply fr_perr]|intros; apply keeps_ret]).
Qed.

Lemma keeps_flushLocked ino : keeps (flushLocked ino).
Proof.
  unfold flushLocked. apply triple_then; [apply keeps_get|]. intros e. apply keeps_if; [apply keeps_ret|].
  eapply triple_bind; [by apply fr_propose|]. intros [[[cs os]|]|er]; [|by intros s st [? _]..].
  eapply triple_pre; [|eapply triple_bind; [apply (fr_commit HR cs os)|]].
  - intros s st [Ho Hs]. split; [done|]. by apply Hs.
  - intros [c|er].
    + destruct (by_fence c); [apply triple_then; [by apply fr_discard|intros; apply keeps_ret]|].
      destruct (negb (committed c)); [apply keeps_rejected|].
      apply triple_then; [by apply fr_committed|intros; apply keeps_ret].
    + apply triple_then; [by apply fr_perr|intros; apply keeps_ret].
Qed.

Lemma triple_commitFlushBatch b :
  triple (λ s st, I s st ∧ safe st (f_cmps b) (f_ops b)) (commitFlushBatch b) (λ _, I).
Proof.
  unfold commitFlushBatch. case_if; [by intros s st [? _]|].
  eapply triple_bind; [by apply fr_commit|]. intros [c|er].
  - destruct (by_fence c).
    { apply keeps_for_each. intros ino. apply triple_then; [by apply fr_discard|intros; apply keeps_ret]. }
    destruct (negb (committed c)); apply keeps_for_each; intros ino; [|by apply fr_committed].
    apply triple_then; [apply keeps_flushLocked|intros; apply keeps_ret].
  - apply keeps_for_each. intros ino. by apply fr_perr.
Qed.

(** What may be published stays so, whatever is done in between. *)
Lemma triple_frame {A} (c : svc A) cs os P Q :
  triple P c Q → triple (λ s st, P s st ∧ safe st cs os) c (λ a s st, Q a s st ∧ safe st cs os).
Proof. apply (triple_stable ok upd (λ st, safe st cs os)). intros. by apply fr_safe_later. Qed.

Lemma triple_flush_loop inos b :
  triple (λ s st, I s st ∧ safe st (f_cmps b) (f_ops b)) (flush_loop inos b) (λ _, I).
Proof.
  revert b. induction inos as [|ino inos IH]; intros b; simpl; [apply triple_commitFlushBatch|].
  eapply triple_bind; [apply triple_frame, keeps_get|]. intros e. simpl. case_if; [apply IH|].
  eapply triple_bind; [by apply triple_frame, fr_propose|]. intros [[[cs os]|]|er]; simpl.
  - case_if.
    + eapply triple_pre; [|apply IH]. simpl. intros s st [[Ho Hp] Hs]. split; [done|]. apply fr_safe_app; [done|done|by apply Hp].
    + eapply triple_pre; [|eapply triple_bind; [apply (triple_frame _ cs os), triple_commitFlushBatch|intros u; simpl; apply (IH (mkBatch _ _ _))]].
      intros s st [[Ho Hp] Hs]. split; [done|]. by apply Hp.
  - eapply triple_pre; [|apply IH]. by intros s st [[? _] ?].
  - eapply triple_pre; [|apply IH]. by intros s st [[? _] ?].
Qed.

Lemma keeps_rw ino (f : lockEntry → bool * Z) : keeps (alter_entry ino (λ e, set_rw (f e).1 (f e).2 e)).
Proof. by apply fr_alter. Qed.

Lemma keeps_lockExclusive ino : keeps (lockExclusive ino).
Proof. apply (keeps_rw ino (λ e, (true, readers e))). Qed.
Lemma keeps_unlockExclusive ino : keeps (unlockExclusive ino).
Proof. apply (keeps_rw ino (λ e, (false, readers e))). Qed.

Lemma keeps_flushHeld inos : keeps (flushHeld inos).
Proof.
  unfold flushHeld, flushEntries. apply keeps_if; [apply keeps_ret|]. apply triple_then.
  - eapply triple_pre; [|apply triple_flush_loop]. intros s st Ho. split; [done|]. by apply fr_safe_nil.
  - intros _. apply keeps_for_each. apply keeps_unlockExclusive.
Qed.

Lemma keeps_FlushAll : keeps FlushAll.
Proof.
  apply triple_then; [apply keeps_get|]. intros inos. generalize (@nil Z) as acc.
  induction inos as [|ino inos IH]; intros acc; simpl; [apply keeps_flushHeld|].
  apply triple_then; [apply keeps_lockExclusive|]. intros _. apply keeps_if; [|apply IH].
  apply triple_then; [apply keeps_flushHeld|]. intros _. apply IH.
Qed.

Lemma keeps_tryLock ino : keeps (tryLockExclusive ino).
Proof.
  intros s st Ho. unfold tryLockExclusive. destruct (entries s !! ino) as [e|] eqn:He; [|done]. case_if; [done|].
  replace (<[ino:=_]> (entries s)) with (alter (λ e, set_rw true (readers e) e) ino (entries s)).
  - apply (keeps_lockExclusive ino s st Ho).
  - apply map_eq. intros i. destruct (decide (i = ino)) as [->|Hne].
    + by rewrite lookup_alter_eq, He, lookup_insert_eq.
    + by rewrite lookup_alter_ne, lookup_insert_ne.
Qed.

Lemma keeps_now : keeps (lift (call QNow)).
Proof. intros s st Ho. apply obeys_bind. destruct (fr_now HR st) as [Hok Hup]. split; [done|]. intros r. by rewrite Hup. Qed.

Lemma keeps_flushExpired : keeps flushExpired.
Proof.
  apply triple_then; [apply keeps_now|]. intros now. apply triple_then; [apply keeps_get|]. intros s0.
  generalize (all s0) as inos, (@nil Z) as due, (now - flushInterval (opts s0)) as dl. intros inos due dl. revert due.
  induction inos as [|ino inos IH]; intros due; simpl; [apply keeps_flushHeld|].
  apply triple_then; [apply keeps_get|]. intros e. destruct (buffer e) as [p|]; [|apply IH]. apply keeps_if; [|apply IH].
  apply triple_then; [apply keeps_tryLock|]. intros []; [|apply IH]. apply keeps_if; [|apply IH].
  apply triple_then; [apply keeps_flushHeld|]. intros _. apply IH.
Qed.
End flush.

(** ** Disciplines that look at each entry by itself *)

(** The operations an entry has buffered. *)
Definition entry_ops (e : lockEntry) : gmap bytes op := match buffer e with Some p => ops p | None => ∅ end.

Lemma free_plans_run ps s : ∃ a, free_plans ps s = Ret (set_alloc a s, tt).
Proof.
  revert s. induction ps as [|p ps IH]; intros s; simpl; [exists (alloc s); by destruct s|].
  unfold sbind, freeReclaimed. case_if; simpl; [|apply IH].
  destruct (IH (set_alloc (Free (alloc s) (freeOff p) (freeLen p)) s)) as [a Ea]. rewrite Ea. by exists a.
Qed.

Lemma txn_op_owned p o : o ∈ (txn p).2 → ∃ k, ops p !! k = Some o.
Proof. simpl. rewrite list_elem_of_omap. intros (k & _ & ?). eauto. Qed.

(** [TxnRev] puts the transaction on the wire, with the guard's comparison. *)
Lemma issues_TxnRev (P : req → Prop) s ifs ts es :
  (∀ pre, P (QTxn (pre ++ ifs) ts es)) → (∀ n, P (QRange (RKey (GenKey n)) false)) → issues P (TxnRev s ifs ts es).
Proof.
  intros H1 H2. apply issues_ebind; [|done]. unfold TxnResponse. destruct (guard s) as [[g|]|] eqn:Eg; [|done|].
  - apply issues_ebind; [split; [apply (H1 [_])|by intros []]|]. intros r. case_if; [|done].
    apply issues_bind; [by apply issues_guardFailed|]. by intros [[]|].
  - split; [apply (H1 [])|by intros []].
Qed.

Definition not_inval (q : req) : Prop := match q with QIO (InvalPages _) => False | _ => True end.

Section entrywise.
Context {S : Type} (ok : S → req → Prop) (upd : S → ∀ q, resp q → S).
(** [J ino os h m]: what is owed of an entry of [ino] with operations [os] under
    the key of mode [m] and holder [h]; [G]: what is owed of the page cache. *)
Context (J : Z → gmap bytes op → bytes → bytes → Prop) (G : Service → S → Prop) (neutral : req → Prop).

Record EntryRules : Prop := {
  er_quiet : ∀ st q, neutral q → quiet ok upd st q;
  er_reads : ∀ q, read_only q → not_inval q → neutral q;
  er_io : ∀ q, is_io q → not_inval q → neutral q;
  er_now : neutral QNow;
  er_backoff : ∀ i, neutral (QBackoff i);
  er_gen : ∀ n, neutral (QTxn [key_absent (GenKey n)] [put (GenKey n) (fmt_uint 0)] []);
  er_nil : ∀ pre, neutral (QTxn pre [] []);
  er_app : ∀ cs os cs' os', (∀ pre, neutral (QTxn (pre ++ cs) os [])) → (∀ pre, neutral (QTxn (pre ++ cs') os' [])) →
    ∀ pre, neutral (QTxn (pre ++ cs ++ cs') (os ++ os') []);
  er_reset : ∀ ino os h m, J ino os h m → J ino ∅ h m;
  er_forget : ∀ ino os h m, J ino os h m → J ino os [] m;
  er_propose : ∀ ino p h m, J ino (ops p) h m → h ≠ [] → ∀ pre,
    neutral (QTxn (pre ++ (txn p).1 ++ [key_exists (LockKey ino m h)]) (txn p).2 []);
  er_pages : ∀ s s' st, opts s' = opts s → pagesCached s' = pagesCached s → G s st → G s' st;
  er_inval : ∀ ino s st, pagesCacheable s = true → G s st →
    ok st (QIO (InvalPages ino)) ∧ ∀ r, G match r with InvalNoClient => set_pagesCached false s | _ => s end (upd st (QIO (InvalPages ino)) r);
}.

Definition entrywise (s : Service) (st : S) : Prop :=
  (∀ ino e, entries s !! ino = Some e → J ino (entry_ops e) (holder e) (mode e)) ∧ G s st.

Context (HE : EntryRules).

Lemma entrywise_alter s st ino f :
  (∀ e, entries s !! ino = Some e → J ino (entry_ops e) (holder e) (mode e) → J ino (entry_ops (f e)) (holder (f e)) (mode (f e))) →
  entrywise s st → entrywise (set_entries (alter f ino (entries s)) s) st.
Proof.
  intros Hf [H1 H2]. split; [|by apply (er_pages HE s)]. intros i e He. simpl in He.
  destruct (decide (i = ino)) as [->|Hne]; [|rewrite lookup_alter_ne in He by done; by apply H1].
  rewrite lookup_alter_eq in He. destruct (entries s !! ino) as [e0|] eqn:E0; [|done]. injection He as <-. by apply Hf; [|apply H1].
Qed.

Lemma entrywise_same s s' st : entries s' = entries s → opts s' = opts s → pagesCached s' = pagesCached s →
  entrywise s st → entrywise s' st.
Proof. intros E1 E2 E3 [H1 H2]. split; [by rewrite E1|by apply (er_pages HE s)]. Qed.

Notation keeps := (keeps ok upd entrywise).

Lemma keeps_issues {A} (f : Store → prog A) : (∀ s, issues neutral (f s)) → keeps (with_store f).
Proof. intros Hf. apply triple_store. intros s st _. eapply issues_mono; [|apply Hf]. intros q. by apply er_quiet. Qed.

Lemma entrywise_resets (g : lockEntry → lockEntry) ino p a s st : (∀ e, same_core e (g e)) → entrywise s st →
  entrywise (set_entries (alter g ino (entries (set_alloc a (set_entries (alter (set_buffer (Some (reset p))) ino (entries s)) s))))
    (set_alloc a (set_entries (alter (set_buffer (Some (reset p))) ino (entries s)) s))) st.
Proof.
  intros Hg Hs. apply entrywise_alter.
  - intros e _. unfold entry_ops. destruct (Hg e) as (-> & -> & -> & _). done.
  - eapply entrywise_same; [| | |apply (entrywise_alter s st ino (set_buffer (Some (reset p)))); [|exact Hs]]; [done..|].
    intros e _. by apply er_reset.
Qed.

Lemma keeps_discard ino : keeps (discardPending ino).
Proof.
  intros s st Ho. unfold discardPending, sbind. cbn [get_entry gets bind fst snd].
  destruct (buffer (default (new_entry ino) (entries s !! ino))) as [p|]; [|done].
  cbn [alter_entry modify bind fst snd]. destruct (free_plans_run (plans p)
    (set_entries (alter (set_buffer (Some (reset p))) ino (entries s)) s)) as [a ->].
  refine (entrywise_same _ _ _ _ _ _ (entrywise_resets (set_meta None []) ino p a s st same_core_dropped Ho)); done.
Qed.

Lemma keeps_flushCommitted ino revs : keeps (flushCommitted ino revs).
Proof.
  intros s st Ho. unfold flushCommitted, sbind. cbn [get_entry gets bind fst snd].
  destruct (buffer (default (new_entry ino) (entries s !! ino))) as [p|]; [|done].
  cbn [alter_entry modify bind fst snd]. destruct (free_plans_run (plans p)
    (set_entries (alter (set_buffer (Some (reset p))) ino (entries s)) s)) as [a ->].
  refine (entrywise_same _ _ _ _ _ _ (entrywise_resets (with_revs revs) ino p a s st (same_core_revs revs) Ho)); done.
Qed.

Lemma obeys_neutral {A} (p : prog A) st (Q : S → A → Prop) : issues neutral p → (∀ a, Q st a) → obeys ok upd st p Q.
Proof. intros Hp. apply obeys_quiet. eapply issues_mono; [|exact Hp]. intros q. by apply er_quiet. Qed.

Lemma io_writeRun s b off : issues (λ q, is_io q ∧ not_inval q) (writeRun s b off).
Proof.
  unfold writeRun. destruct (dev s) as [d|]; [|done]. apply issues_ebind; [unfold WriteAt; case_if; [done|by split]|].
  intros _. case_if; [done|]. apply issues_bind; [by split|]. intros r. apply issues_bind; [by split|]. intros r'. apply issues_bind.
  - unfold ioBuffer. destruct (dev s) as [d'|]; [|done]. case_if; [|done]. split; [done|]. by intros [].
  - intros x. apply issues_bind; [|done]. unfold ReadAt. case_if; [done|]. split; [done|]. by intros [].
Qed.

Lemma io_group_buffers' s gs : issues (λ q, is_io q ∧ not_inval q) (group_buffers s gs).
Proof.
  induction gs as [|g gs IH]; simpl; [done|]. apply issues_bind; [|done].
  unfold ioBuffer. destruct (dev s) as [d'|]; [|done]. case_if; [|done]. split; [done|]. by intros [].
Qed.

Lemma io_write_groups s gs : issues (λ q, is_io q ∧ not_inval q) (write_groups s gs).
Proof.
  induction gs as [|g gs IH]; simpl; [done|]. apply issues_bind; [apply io_writeRun|]. intros r. by apply issues_bind.
Qed.

Lemma io_neutral {A} (p : prog A) : issues (λ q, is_io q ∧ not_inval q) p → issues neutral p.
Proof. apply issues_mono. intros q [? ?]. by apply er_io. Qed.

Lemma obeys_flushData ino s st : entrywise s st → obeys ok upd st (flushData ino s)
  (λ st' x, entrywise x.1 st' ∧ holder <$> entries x.1 !! ino = holder <$> entries s !! ino).
Proof.
  intros Ho. unfold flushData, sbind, get_entry, gets. cbn [bind fst snd].
  destruct (buffer (default (new_entry ino) (entries s !! ino))) as [p|] eqn:Hb; [|done].
  destruct (data p) as [|r rs] eqn:Ed; [done|]. set (sorted := merge_sort off_le (r :: rs)).
  assert (∀ d, entrywise (set_entries (alter (set_buffer (Some (set_data d p))) ino (entries s)) s) st) as Hset.
  { intros d. apply entrywise_alter; [|done]. intros e He. rewrite He in Hb. simpl in Hb. unfold entry_ops. by rewrite Hb. }
  cbn [alter_entry modify bind fst snd].
  apply obeys_bind, obeys_bind, obeys_neutral; [by apply io_neutral, io_group_buffers'|]. intros _.
  apply obeys_bind, obeys_neutral; [by apply io_neutral, io_write_groups|].
  intros [er|]; cbn [bind alter_entry modify sret obeys fst snd]; (split; [|simpl; rewrite ?lookup_alter_eq; by destruct (entries s !! ino)]);
    [apply Hset|].
  apply (entrywise_alter (set_entries (alter (set_buffer (Some (set_data sorted p))) ino (entries s)) s)); [|apply Hset].
  intros e He. simpl in He. rewrite lookup_alter_eq in He. destruct (entries s !! ino) as [e0|]; [|done]. by injection He as <-.
Qed.

Lemma entry_propose ino : triple ok upd entrywise (proposeFlushLocked ino)
  (λ r s st, entrywise s st ∧ ∀ cs os, r = Ok (Some (cs, os)) → ∀ pre, neutral (QTxn (pre ++ cs) os [])).
Proof.
  intros s st Ho. unfold proposeFlushLocked, sbind at 1, get_entry, gets. cbn [bind fst snd].
  destruct (held (default (new_entry ino) (entries s !! ino))) eqn:Eh; cbn [negb].
  2:{ unfold sbind. apply obeys_bind. eapply obeys_mono; [|apply (keeps_discard ino s st Ho)]. done. }
  unfold sbind. apply obeys_bind. eapply obeys_mono; [|apply (obeys_flushData ino s st Ho)].
  intros st1 [s1 r] [Ho1 Hh]. cbn [fst snd] in *. destruct r as [[]|er].
  - unfold get_entry, gets. cbn [bind fst snd sret obeys]. split; [done|]. intros cs os.
    destruct (entries s1 !! ino) as [e|] eqn:He; simpl; [|done]. destruct (buffer e) as [p|] eqn:Hb; [|done].
    intros [= <- <-] pre. apply (er_propose HE).
    + pose proof (proj1 Ho1 ino e He) as HJ. unfold entry_ops in HJ. by rewrite Hb in HJ.
    + simpl in Hh. destruct (entries s !! ino) as [e0|]; [|done]. simpl in *. injection Hh as ->.
      intros Hn. unfold held in Eh. by rewrite Hn in Eh.
  - cbn [bind alter_entry modify sret obeys fst snd]. split; [|done]. apply entrywise_alter; [|done].
    intros e _. unfold entry_ops. simpl. by destruct (buffer e).
Qed.

Lemma entry_commit cs os : triple ok upd (λ s st, entrywise s st ∧ ∀ pre, neutral (QTxn (pre ++ cs) os []))
  (commitGuarded cs os) (λ _, entrywise).
Proof.
  intros s st [Ho Hs]. assert (keeps (commitGuarded cs os)) as Hk; [|by apply Hk]. clear s st Ho.
  unfold commitGuarded, sebind. apply triple_then.
  - intros s st Ho. unfold guardGeneration. destruct (genInit s); [done|]. apply obeys_bind, obeys_neutral.
    + apply issues_ebind; [by apply issues_txnRaw, er_gen|]. intros []; [done|]. by apply issues_GetGeneration, er_reads.
    + intros [g|e]; [|done]. by apply (entrywise_same s).
  - intros [g|e]; [|apply keeps_ret]. apply triple_then; [|intros; apply keeps_ret]. apply triple_retry.
    { intros st i. by apply er_quiet, er_backoff. }
    apply keeps_issues. intros s. apply issues_TxnRev; [done|]. intros n. by apply er_reads.
Qed.

Lemma entry_rules : FlushRules ok upd entrywise (λ _ cs os, ∀ pre, neutral (QTxn (pre ++ cs) os [])).
Proof.
  split.
  - intros st. apply er_quiet, er_now; done.
  - done.
  - intros st pre. by apply er_nil.
  - intros st cs os cs' os'. by apply er_app.
  - intros ino f Hf s st. apply entrywise_alter. intros e _. unfold entry_ops. by destruct (Hf e) as (-> & -> & -> & _).
  - intros ino er s st. apply entrywise_alter. intros e _. unfold entry_ops. simpl. by destruct (buffer e).
  - intros ino s st. apply entrywise_alter. intros e _. by apply er_forget.
  - apply keeps_discard.
  - apply keeps_flushCommitted.
  - intros ino s st Ho. unfold invalidatePages. destruct (pagesCacheable s) eqn:Ep; [|done]. cbn [negb]. destruct Ho as [H1 H2].
    destruct (er_inval HE ino s st Ep H2) as [Hok HG]. split; [done|]. intros r. specialize (HG r).
    destruct r; (split; [exact H1|exact HG]).
  - intros ino. apply keeps_issues. intros s. apply issues_ebind; [|done]. apply issues_readTxn. by apply er_reads.
  - intros ino m h. apply keeps_issues. intros s. apply issues_ebind; [|done]. apply issues_Get. by apply er_reads.
  - apply entry_propose.
  - apply entry_commit.
Qed.
End entrywise.
