(* ===== verification/LockCache.v ===== *)
(** * Cached inode locks

    Models internal/ipc/lockcache.go, lockmap.go and the locking half of
    internal/ipc/retry.go: a node keeps the etcd key of an inode's lock past the
    operation that took it and caches the inode's metadata under it; the key is
    given up on a peer's request, on eviction and at shutdown, after whatever is
    buffered has been published and the kernel's pages are gone.

    A wait (the hold before a recall is honoured) changes nothing and is left
    out; work the code starts off the request (withdrawing a want key, deleting
    a failed create's key) runs where it is started. *)

From S2P Require Import Prelude Etcd EtcdFacts Schema Store Locks Extents Allocator ArenaPool InodeTimes Service DataPath Delegate.

Definition lockCacheMax : nat := 4096.
Definition lockEvictBatch : nat := 64.
Definition entryRetries : nat := 6.
Definition millisecond : Z := 1000000.
Definition minHoldTime : Z := 10 * millisecond.
Definition maxHoldTime : Z := 100 * millisecond.
Definition inodeLockTTL : Z := 2 * second.

(** ** Questions about an entry *)

Definition lookup_entry (s : Service) (ino : Z) : option lockEntry := entries s !! ino.

Definition hasPending (s : Service) (ino : Z) : bool :=
  match entries s !! ino with None => false | Some e => negb (pending_empty (buffer e)) end.

Definition holdsLockKey (s : Service) (ino : Z) : bool :=
  match entries s !! ino with None => false | Some e => held e end.

(** [Holds]: the scrubber's question, whether an entry exists at all. *)
Definition Holds (s : Service) (ino : Z) : bool :=
  match entries s !! ino with None => false | Some _ => true end.

(** The snapshot read under the key that is held now. *)
Definition cachedMeta (e : lockEntry) : option inodeMeta :=
  if negb (held e) || negb (bool_decide (metaFor e = holder e)) then None else meta e.

Definition pendingSize (s : Service) (ino : Z) : option Z :=
  match entries s !! ino with
  | None => None
  | Some e =>
    if pending_empty (buffer e) then None
    else match cachedMeta e with
         | Some m => Size <$> m_rec m
         | None => None
         end
  end.

Definition setMeta (m : inodeMeta) (e : lockEntry) : lockEntry :=
  if held e then set_meta (Some m) (holder e) e else e.
Definition dropMeta (e : lockEntry) : lockEntry := set_meta None [] e.

Definition covers_mode (have want : bytes) : bool :=
  bool_decide (have = LockExclusive) || bool_decide (have = want).

(** Does this write continue the range the buffer has been accumulating? *)
Definition streakContinues (ino : Z) (rs : list Run) : svc bool :=
  match rs, last rs with
  | r :: _, Some l =>
    e ⇠ get_entry ino;
    _ ⇠ alter_entry ino (set_streak (add64 (r_off l) (r_len l)));
    sret (r_off r =? dataStreakEnd e)
  | _, _ => sret false
  end.

(** ** Giving keys up *)

(** Everything cached under the key goes; [None] when there was no key. *)
Definition forgetKeyLocked (ino : Z) : svc (option LockRelease) :=
  e ⇠ get_entry ino;
  _ ⇠ alter_entry ino (λ e, set_meta None [] (forget_key e));
  _ ⇠ (if pending_empty (buffer e) then sret true else discardPending ino);
  sret (if held e then Some (mkRelease ino (mode e) (holder e)) else None).

(** A failure is logged: the keys stand until the session ends. *)
Definition deleteKeys (owed : list LockRelease) : svc unit :=
  _ ⇠ retryEtcd (with_store (λ st, ReleaseLocks st owed)); sret tt.

Definition releaseKeyLocked (ino : Z) : svc (result unit) :=
  _ ⇠? invalidatePages ino;
  o ⇠ forgetKeyLocked ino;
  match o with
  | None => sret (Ok tt)
  | Some r => _ ⇠ deleteKeys [r]; sret (Ok tt)
  end.

(** What an entry owes before its key may be yielded: its buffer published and
    the kernel's pages gone. *)
Definition prepareDropLocked (ino : Z) : svc bool :=
  e ⇠ get_entry ino;
  ok ⇠ (if pending_empty (buffer e) then sret true
        else
          r ⇠ flushLocked ino;
          e ⇠ get_entry ino;
          sret match r with Err _ => pending_empty (buffer e) | Ok _ => true end);
  if negb (ok : bool) then sret false
  else r ⇠ invalidatePages ino; sret match r with Ok _ => true | Err _ => false end.

Fixpoint prepare_all (inos : list Z) : svc (list Z) :=
  match inos with
  | [] => sret []
  | ino :: inos' =>
    ok ⇠ prepareDropLocked ino;
    rest ⇠ prepare_all inos';
    sret (if (ok : bool) then ino :: rest else rest)
  end.

Fixpoint forget_all (inos : list Z) : svc (list LockRelease) :=
  match inos with
  | [] => sret []
  | ino :: inos' =>
    o ⇠ forgetKeyLocked ino;
    rest ⇠ forget_all inos';
    sret match o with Some r => r :: rest | None => rest end
  end.

(** The inodes whose keys are gone, deleted in one transaction. *)
Definition dropCachedLocks (inos : list Z) : svc (list Z) :=
  ready ⇠ prepare_all inos;
  owed ⇠ forget_all ready;
  _ ⇠ (if bool_decide (owed = []) then sret tt else deleteKeys owed);
  sret ready.

Definition dropCachedLock (ino : Z) : svc (result unit) :=
  r ⇠ dropCachedLocks [ino]; sret (if bool_decide (r = []) then Err ErrNotYielded else Ok tt).

Definition yieldCachedLock (ino : Z) : svc (result unit) := λ s,
  match entries s !! ino with
  | None => Ret (s, Ok tt)
  | Some _ => (_ ⇠ lockExclusive ino; r ⇠ dropCachedLock ino; _ ⇠ unlockExclusive ino; sret r) s
  end.

(** [lockMap.forget]. *)
Definition forget_entry (ino : Z) : svc unit := modify (λ s, set_entries (delete ino (entries s)) s).

Definition yieldQuietCachedLock (ino : Z) : svc (result unit) := λ s,
  match entries s !! ino with
  | None => Ret (s, Ok tt)
  | Some e =>
    if negb (pending_empty (buffer e)) then Ret (s, Ok tt)
    else
      (_ ⇠ lockExclusive ino;
       r ⇠ dropCachedLock ino;
       _ ⇠ unlockExclusive ino;
       match r with Err er => sret (Err er) | Ok _ => _ ⇠ forget_entry ino; sret (Ok tt) end) s
  end.

(** How long the lock has been held, and how long it must be: the hold doubles
    when a request arrives inside it and halves when it arrives after it. *)
Definition handover (now : Z) (e : lockEntry) : Z * Z :=
  let held := now - acquiredAt e in
  let hold := Z.max (holdTime e) minHoldTime in
  (held, if held <? hold then Z.min (hold * 2) maxHoldTime else Z.max (hold / 2) minHoldTime).

Definition handoverHold (ino : Z) : svc (Z * Z) :=
  now ⇠ lift (call QNow);
  e ⇠ get_entry ino;
  let h := handover now e in
  _ ⇠ alter_entry ino (set_holdTime h.2);
  sret h.

Definition recallLock (ino : Z) : svc (result unit) := λ s,
  match entries s !! ino with
  | None => Ret (s, Ok tt)
  | Some _ => (_ ⇠ handoverHold ino; yieldCachedLock ino) s
  end.

(** [lockWanted]: which inode a want event recalls, if any; [recalls] are the
    inodes with a recall in flight. *)
Definition lockWanted (s : Service) (recalls : gset Z) (is_put : bool) (key : bytes) : option Z :=
  if negb is_put then None
  else match ParseLockWantKey key with
       | None => None
       | Some (ino, n) =>
         if bool_decide (n = node s) then None
         else if bool_decide (ino ∈ recalls) then None else Some ino
       end.

Fixpoint drop_lease (l : Z) (inos : list Z) : svc unit :=
  match inos with
  | [] => sret tt
  | ino :: inos' =>
    e ⇠ get_entry ino;
    _ ⇠ (if held e && (lease e =? l) then keyLostLocked ino else sret tt);
    drop_lease l inos'
  end.
Definition dropCachesForLease (l : Z) : svc unit := inos ⇠ gets all; drop_lease l inos.

(** [lockMap.drain] empties the set before the entries are dropped; they are
    kept in the model while they are worked on.  [false]: discardPending
    dereferenced a nil buffer. *)
Fixpoint release_entries (inos : list Z) : svc bool :=
  match inos with
  | [] => sret true
  | ino :: inos' =>
    _ ⇠ lockExclusive ino;
    r ⇠ dropCachedLock ino;
    ok ⇠ match r with
         | Ok _ => sret true
         | Err _ => d ⇠ discardPending ino; _ ⇠ (if (d : bool) then releaseKeyLocked ino else sret (Ok tt)); sret d
         end;
    if negb (ok : bool) then sret false
    else _ ⇠ unlockExclusive ino; _ ⇠ forget_entry ino; release_entries inos'
  end.
Definition ReleaseCachedLocks : svc bool := inos ⇠ gets all; release_entries inos.

(** ** The set of entries *)

Definition used_le (a b : Z * lockEntry) : Prop := lastUsed a.2 <= lastUsed b.2.
#[global] Instance used_le_dec : RelDecision used_le.
Proof. intros a b. unfold used_le. apply _. Defined.

(** Least recently used first; entries with an operation in flight are skipped. *)
Fixpoint claim_loop_locks (cands : list Z) (n : nat) : svc (list Z) :=
  match cands, n with
  | [], _ | _, O => sret []
  | ino :: cands', S n' =>
    ok ⇠ tryLockExclusive ino;
    if (ok : bool) then rest ⇠ claim_loop_locks cands' n'; sret (ino :: rest)
    else claim_loop_locks cands' n
  end.
Definition claimVictimsLocked (n : nat) : svc (list Z) :=
  cands ⇠ gets (λ s, (merge_sort used_le (map_to_list (entries s))).*1);
  claim_loop_locks cands n.

Definition evictLocked : svc unit :=
  s ⇠ gets id;
  if bool_decide (size (entries s) < lockCacheMax)%nat then sret tt
  else
    victims ⇠ claimVictimsLocked lockEvictBatch;
    if bool_decide (victims = []) then sret tt
    else
      released ⇠ dropCachedLocks victims;
      _ ⇠ for_each unlockExclusive victims;
      for_each forget_entry released.

Definition entryFor (ino : Z) : svc unit :=
  s ⇠ gets id;
  _ ⇠ match entries s !! ino with
      | Some _ => sret tt
      | None =>
        _ ⇠ evictLocked;
        modify (λ s, match entries s !! ino with
                     | Some _ => s
                     | None => set_entries (<[ino := new_entry ino]> (entries s)) s
                     end)
      end;
  now ⇠ lift (call QNow);
  alter_entry ino (set_lastUsed now).

(** ** Taking a lock *)

(** The local lock, tried on the backoff of every contended operation. *)
Definition try_local (ino : Z) (m : bytes) : svc (result unit) := λ s,
  match entries s !! ino with
  | None => Ret (s, Err ErrConflict)
  | Some e =>
    if bool_decide (m = LockExclusive) then
      (ok ⇠ tryLockExclusive ino; sret (if (ok : bool) then Ok tt else Err ErrConflict)) s
    else if writer e then Ret (s, Err ErrConflict)
    else Ret (set_entries (<[ino := set_rw false (readers e + 1) e]> (entries s)) s, Ok tt)
  end.
Definition lockLocal (ino : Z) (m : bytes) : svc (result unit) := retry contendedAttempts (try_local ino m).

Definition unlockLocal (ino : Z) (m : bytes) : svc unit :=
  if bool_decide (m = LockExclusive) then unlockExclusive ino
  else alter_entry ino (λ e, set_rw (writer e) (readers e - 1) e).

(** Does etcd hold a key under one of the tokens this call has tried? *)
Fixpoint adoptOwnLock (ino : Z) (m : bytes) (attempted : list bytes) : svc (option bytes) :=
  match attempted with
  | [] => sret None
  | h :: attempted' =>
    r ⇠ with_store (λ st, LockHeldBy st ino m h);
    match r with
    | Err _ => sret None
    | Ok true => sret (Some h)
    | Ok false => adoptOwnLock ino m attempted'
    end
  end.

Definition acquire_lock (ino : Z) (m : bytes) : svc (bytes * option err) := λ s,
  x ⇐ AcquireLock (store s) (lstate s) ino m inodeLockTTL; Ret (set_lstate x.1 s, x.2).
Definition announce_want (ino : Z) : svc unit := λ s,
  x ⇐ AnnounceLockWant (store s) (lstate s) ino; Ret (set_lstate x.1 s, tt).

(** The attempts of acquireLockKey: the tokens tried so far, and whether a want
    key has been written. *)
Fixpoint acquire_loop (ino : Z) (m : bytes) (fuel attempt : nat) (attempted : list bytes) (announced : bool) (last : err)
  : svc (result bytes * bool) :=
  match fuel with
  | O => sret (Err last, announced)
  | S fuel' =>
    a ⇠ adoptOwnLock ino m attempted;
    match a with
    | Some h => sret (Ok h, announced)
    | None =>
      x ⇠ acquire_lock ino m;
      let attempted := if bool_decide (x.1 = []) then attempted else attempted ++ [x.1] in
      match x.2 with
      | None => sret (Ok x.1, announced)
      | Some e =>
        announced ⇠ match e with
                    | ErrConflict => _ ⇠ announce_want ino; sret true
                    | _ => sret announced
                    end;
        if permanent e then sret (Err e, announced)
        else
          done ⇠ lift (call (QBackoff attempt));
          if (done : bool) then sret (Err e, announced)
          else acquire_loop ino m fuel' (S attempt) attempted announced e
      end
    end
  end.

Definition acquireLockKey (ino : Z) (m : bytes) : svc (result bytes) :=
  r ⇠ acquire_loop ino m contendedAttempts 0 [] false EOther;
  _ ⇠ (if (r.2 : bool) then with_store (λ st, ClearLockWant st ino) else sret (Ok tt));
  sret r.1.

Definition session_lease : svc (option Z) := λ s, x ⇐ LockSessionLease (lstate s); Ret (s, x).

(** A cached key is only as good as the lease it was written under. *)
Definition check_session (ino : Z) : svc unit :=
  e ⇠ get_entry ino;
  if held e then
    l ⇠ session_lease;
    if bool_decide (l = Some (lease e)) then sret tt else keyLostLocked ino
  else sret tt.

Definition ensureLockKey (ino : Z) (m : bytes) : svc (result unit) :=
  _ ⇠ check_session ino;
  e ⇠ get_entry ino;
  if held e && covers_mode (mode e) m then sret (Ok tt)
  else
    _ ⇠? (if held e then releaseKeyLocked ino else sret (Ok tt));
    h ⇠? acquireLockKey ino m;
    now ⇠ lift (call QNow);
    _ ⇠ alter_entry ino (set_key m h (default 0 (LockHolderLease h)) now);
    sret (Ok tt).

Fixpoint lock_loop (ino : Z) (m : bytes) (fuel : nat) : svc (result unit) :=
  match fuel with
  | O => sret (Err ErrConflict)
  | S fuel' =>
    _ ⇠ entryFor ino;
    _ ⇠? lockLocal ino m;
    s ⇠ gets id;
    if negb (Holds s ino) then lock_loop ino m fuel'
    else
      r ⇠ ensureLockKey ino m;
      match r with
      | Err e => _ ⇠ unlockLocal ino m; sret (Err e)
      | Ok _ => sret (Ok tt)
      end
  end.
Definition lockInode (ino : Z) (m : bytes) : svc (result unit) := lock_loop ino m entryRetries.

(** ** Working under a lock *)

(** The record and the extents, from the cache when this node has held the key
    since they were read.  The read is serializable. *)
Definition held_meta (ino : Z) : svc (result inodeMeta) :=
  e ⇠ get_entry ino;
  match cachedMeta e with
  | Some m => sret (Ok m)
  | None =>
    if negb (pending_empty (buffer e)) then sret (Err EOther)
    else
      x ⇠? retryEtcd (with_store (λ st, GetInodeAndExtents st ino));
      let m := match x with Some (rec, l) => mkMeta rec l | None => mkMeta None [] end in
      _ ⇠ alter_entry ino (setMeta m);
      sret (Ok m)
  end.

(** [Release]: an exclusive hold that did not publish what it changed drops the
    cached snapshot. *)
Definition release (ino : Z) (m : bytes) (metaPublished : bool) : svc unit :=
  _ ⇠ (if bool_decide (m = LockExclusive) && negb metaPublished then alter_entry ino dropMeta else sret tt);
  unlockLocal ino m.

Definition flushInode (ino : Z) : svc (result unit) := λ s,
  if negb (deferWrites s) || negb (hasPending s ino) then Ret (s, Ok tt)
  else
    (_ ⇠? lockInode ino LockExclusive;
     r ⇠ flushEntry ino;
     _ ⇠ release ino LockExclusive true;
     sret r) s.

(** ** The lock of a file taken by the transaction that creates it *)

Definition seedCreatedLock (ino : Z) (h : bytes) (rec : InodeRecord) (now : Z) : svc bool :=
  match LockHolderLease h with
  | None => sret false
  | Some l =>
    _ ⇠ entryFor ino;
    e ⇠ get_entry ino;
    if held e then sret false
    else
      _ ⇠ alter_entry ino (λ e, set_meta (Some (mkMeta (Some rec) [])) h (set_key LockExclusive h l now e));
      sret true
  end.

Definition discardCreatedLock (ino : Z) (h : bytes) : svc unit :=
  _ ⇠ retryEtcd (with_store (λ st, ReleaseLock st ino LockExclusive h)); sret tt.
