(* ===== verification/BufferProps.v ===== *)
(** * What a buffer of writes stands for

    The buffer of Delegate against the writes it absorbed: publishing it once
    does what committing the writes one after the other would have done, and
    the extents cached while it is pending are the ones a reader will decode
    once it is published. *)

From S2P Require Import Prelude Etcd EtcdFacts Schema Store Locks Extents ExtentProps SchemaProps Allocator ArenaPool InodeTimes Service DataPath ReplayProps Delegate.

(** ** Operations on one key *)

Definition single (o : op) : Prop := match o with OpDelete _ p => p = false | OpPut _ _ _ => True end.

Lemma op_touches_single o k : single o → op_touches o k = bool_decide (k = op_key o).
Proof. destruct o as [k' v l|k' p]; simpl; [done|]. by intros ->. Qed.

Lemma op_effect_single o k : single o → is_Some (op_effect o k) ↔ op_key o = k.
Proof.
  intros Ho. unfold op_effect. rewrite op_touches_single by done. case_bool_decide as Hk.
  - by split; [intros _|eauto].
  - split; [by intros [? ?]|congruence].
Qed.

Lemma write_op_single ino os : Forall (write_op ino) os → Forall single os.
Proof. intros H. eapply Forall_impl; [exact H|]. intros [k v l|k p]; simpl; [done|]. by intros [-> _]. Qed.

(** ** The buffer *)

(** The buffer's bookkeeping: every key it writes is listed once, under its own
    name, and its maps are empty until the first write after a reset. *)
Record buffer_wf (p : pending) : Prop := {
  bw_nodup : NoDup (order p);
  bw_order : ∀ k, k ∈ order p ↔ is_Some (ops p !! k);
  bw_ops : ∀ k o, ops p !! k = Some o → op_key o = k ∧ single o;
  bw_fresh : made p = false → ops p = ∅ ∧ cmps p = ∅;
}.

Lemma no_pending_wf : buffer_wf no_pending.
Proof.
  split; simpl; [constructor| |by intros ? ?; rewrite lookup_empty|done].
  intros k. rewrite elem_of_nil, lookup_empty. split; [done|by intros [? ?]].
Qed.

Lemma reset_wf p : buffer_wf (reset p).
Proof. destruct no_pending_wf as [? ? ? ?]. by split. Qed.

(** The transaction's operation on a key is the buffer's. *)
Lemma txn_effect p k :
  buffer_wf p → ops_effect (txn p).2 k = match ops p !! k with Some o => op_effect o k | None => None end.
Proof.
  intros [Hn Ho Hops _]. simpl.
  assert (∀ ks, NoDup ks → (∀ k, k ∈ ks → is_Some (ops p !! k)) →
    (k ∈ ks → ops_effect (omap (λ k, ops p !! k) ks) k = match ops p !! k with Some o => op_effect o k | None => None end) ∧
    (k ∉ ks → ops_effect (omap (λ k, ops p !! k) ks) k = None)) as Hgen.
  { induction ks as [|k1 ks IH]; intros Hnd Hin; csimpl; [by split; [intros ?%elem_of_nil|]|].
    apply NoDup_cons in Hnd as [Hk1 Hnd]. destruct (Hin k1 (list_elem_of_here _ _)) as [o1 E1]. rewrite E1. csimpl.
    destruct IH as [IH1 IH2]; [done|intros; apply Hin; by right|]. destruct (Hops _ _ E1) as [Hk Hs].
    pose proof (op_effect_single o1 k Hs) as He. destruct (decide (k = k1)) as [->|Hne].
    - rewrite IH2, E1 by done. split; [done|]. intros []. left.
    - destruct (op_effect o1 k) as [x|]; [destruct Hne; rewrite <- Hk; symmetry; apply He; eauto|].
      rewrite !elem_of_cons. split; [intros [->|?]; [done|rewrite IH1 by done]|intros ?; rewrite IH2 by tauto; done].
      by destruct (ops p !! k) as [o|]; [destruct (op_effect o k)|]. }
  destruct (Hgen (order p) Hn) as [H1 H2]; [intros; by apply Ho|]. destruct (decide (k ∈ order p)) as [|Hk]; [by apply H1|].
  rewrite H2 by done. destruct (ops p !! k) eqn:E; [|done]. destruct Hk. apply Ho. eauto.
Qed.

Lemma txn_ops_elem p o : buffer_wf p → o ∈ (txn p).2 ↔ ops p !! op_key o = Some o.
Proof.
  intros [_ Ho Hops _]. simpl. rewrite list_elem_of_omap. split.
  - intros (k & _ & E). by destruct (Hops _ _ E) as [-> _].
  - intros E. exists (op_key o). split; [apply Ho; eauto|done].
Qed.

Lemma length_omap_le {A B} (f : A → option B) l : (length (omap f l) <= length l)%nat.
Proof. induction l as [|x l IH]; csimpl; [done|]. destruct (f x); csimpl; lia. Qed.

Lemma txn_length p : (length (txn p).1 <= length (order p))%nat ∧ (length (txn p).2 <= length (order p))%nat.
Proof. simpl. split; apply length_omap_le. Qed.

(** ** Absorbing a write *)

Definition map_effect (m : gmap bytes op) (k : bytes) : option (option (bytes * Z)) :=
  match m !! k with Some o => op_effect o k | None => None end.

Lemma add_ops_effect os m ord k :
  Forall single os →
  map_effect (add_ops (m, ord) os).1 k = match ops_effect os k with Some x => Some x | None => map_effect m k end.
Proof.
  intros Hs. unfold add_ops. revert m ord. induction Hs as [|o os Ho _ IH]; intros m ord; simpl; [done|].
  rewrite IH. destruct (ops_effect os k); [done|]. pose proof (op_effect_single o k Ho) as He. unfold map_effect.
  destruct (decide (op_key o = k)) as [Hk|Hk].
  - rewrite Hk, lookup_insert_eq. by destruct (proj2 He Hk) as [x ->].
  - rewrite lookup_insert_ne by done. destruct (op_effect o k) eqn:E; [|done]. destruct Hk. apply He. eauto.
Qed.

Lemma add_ops_keyed os m ord :
  Forall single os → (∀ k o, m !! k = Some o → op_key o = k ∧ single o) →
  ∀ k o, (add_ops (m, ord) os).1 !! k = Some o → op_key o = k ∧ single o.
Proof.
  intros Hs. unfold add_ops. revert m ord. induction Hs as [|o os Ho _ IH]; intros m ord Hm; simpl; [done|]. apply IH.
  intros k o' [[<- <-]|[_ ?]]%lookup_insert_Some; eauto.
Qed.

Lemma add_ops_order os m ord :
  NoDup ord → (∀ k, k ∈ ord ↔ is_Some (m !! k)) →
  NoDup (add_ops (m, ord) os).2 ∧ ∀ k, k ∈ (add_ops (m, ord) os).2 ↔ is_Some ((add_ops (m, ord) os).1 !! k).
Proof.
  unfold add_ops. revert m ord. induction os as [|o os IH]; intros m ord Hn Ho; simpl; [done|]. apply IH.
  - destruct (m !! op_key o) eqn:E; [done|]. apply NoDup_app. split; [done|]. split; [|apply NoDup_singleton].
    intros k Hk%Ho ->%list_elem_of_singleton. rewrite E in Hk. by destruct Hk.
  - intros k. destruct (decide (op_key o = k)) as [<-|Hne].
    + rewrite lookup_insert_eq. destruct (m !! op_key o) eqn:E.
      * rewrite Ho, E. split; eauto.
      * rewrite elem_of_app, list_elem_of_singleton. naive_solver.
    + rewrite lookup_insert_ne by done. rewrite <- Ho. destruct (m !! op_key o); [done|].
      rewrite elem_of_app, list_elem_of_singleton. naive_solver.
Qed.

Lemma add_wf p now cs os pl n : buffer_wf p → Forall single os → buffer_wf (add p now cs os pl n).
Proof.
  intros [Hn Ho Hops Hf] Hs. unfold add.
  set (p0 := if made p then p else _).
  assert (ops p0 = ops p ∧ order p0 = order p) as [E1 E2].
  { unfold p0. destruct (made p) eqn:Em; [done|]. by destruct (Hf eq_refl) as [-> _]. }
  rewrite E1, E2. destruct (add_ops_order os (ops p) (order p) Hn Ho) as [Hn' Ho'].
  pose proof (add_ops_keyed os (ops p) (order p) Hs Hops) as Hk.
  destruct (add_ops (ops p, order p) os) as [m ord]. by split.
Qed.

Lemma add_effect p now cs os pl n k :
  buffer_wf p → Forall single os →
  ops_effect (txn (add p now cs os pl n)).2 k =
  match ops_effect os k with Some x => Some x | None => ops_effect (txn p).2 k end.
Proof.
  intros Hp Hs. rewrite !txn_effect by (try done; by apply add_wf).
  fold (map_effect (ops p) k). fold (map_effect (ops (add p now cs os pl n)) k).
  rewrite <- (add_ops_effect os (ops p) (order p) k Hs). f_equal. unfold add.
  destruct (made p) eqn:Em; simpl; [by destruct (add_ops _ os)|].
  destruct Hp as [_ Ho _ Hf]. destruct (Hf Em) as [-> _]. by destruct (add_ops _ os).
Qed.

Lemma txn_keys p : buffer_wf p → op_key <$> (txn p).2 = order p.
Proof.
  intros [_ Ho Hops _]. simpl. assert (∀ k, k ∈ order p → is_Some (ops p !! k)) as Hin by (intros; by apply Ho).
  clear Ho. induction (order p) as [|k ks IH]; simpl; [done|]. destruct (Hin k (list_elem_of_here _ _)) as [o E]. rewrite E. simpl.
  destruct (Hops _ _ E) as [-> _]. f_equal. apply IH. intros k' ?. apply Hin. by right.
Qed.

Lemma distinct_keys os : NoDup (op_key <$> os) → Forall single os → ops_distinct os = true.
Proof.
  intros Hn Hs. apply ops_distinct_intro.
  - clear Hs. induction os as [|o os IH]; simpl in *; [constructor|]. apply NoDup_cons in Hn as [Hk Hn].
    assert (∀ k, k ∈ concat (map op_puts os) → k ∈ op_key <$> os) as Hin.
    { clear. intros k'. induction os as [|[k v l|k p] os IH]; simpl; [done|..].
      - rewrite !elem_of_cons. naive_solver.
      - rewrite elem_of_cons. naive_solver. }
    destruct o as [k v l|k p]; simpl in *; [|by apply IH]. apply NoDup_cons. auto.
  - intros k o Hk Ho. assert (∃ v l, OpPut k v l ∈ os) as (v & l & Hput).
    { clear -Hk. induction os as [|[k' v l|k' p] os IH]; simpl in Hk; [by apply elem_of_nil in Hk|..].
      - apply elem_of_cons in Hk as [->|Hk]; [exists v, l; left|]. destruct IH as (v' & l' & ?); [done|]. exists v', l'. by right.
      - destruct IH as (v' & l' & ?); [done|]. exists v', l'. by right. }
    destruct o as [|k' p]; [done|]. rewrite Forall_forall in Hs. pose proof (Hs _ Ho) as Hp. simpl in Hp. subst p. simpl.
    apply bool_decide_eq_false. intros ->. apply list_elem_of_lookup in Hput as [i Hi]. apply list_elem_of_lookup in Ho as [j Hj].
    assert (i = j); [|by simplify_eq]. eapply (NoDup_lookup (op_key <$> os)); [done|by rewrite list_lookup_fmap, Hi|].
    by rewrite list_lookup_fmap, Hj.
Qed.

(** etcd accepts the transaction: no key is modified twice. *)
Lemma txn_distinct p : buffer_wf p → ops_distinct (txn p).2 = true.
Proof.
  intros Hp. apply distinct_keys; [rewrite txn_keys by done; apply Hp|]. apply Forall_forall. intros o Ho.
  apply txn_ops_elem in Ho; [|done]. by eapply Hp.
Qed.

(** ** Comparisons *)

Lemma add_cmps_owned owned cs m k : is_Some (owned !! k) → add_cmps owned m cs !! k = m !! k.
Proof.
  intros [o Ho]. unfold add_cmps. revert m. induction cs as [|c cs IH]; intros m; simpl; [done|]. rewrite IH.
  destruct (owned !! c_key c) eqn:E; [done|]. rewrite lookup_insert_ne; [done|]. congruence.
Qed.

Lemma add_cmps_lookup owned cs m k c :
  add_cmps owned m cs !! k = Some c → m !! k = Some c ∨ (c ∈ cs ∧ c_key c = k ∧ owned !! k = None).
Proof.
  unfold add_cmps. revert m. induction cs as [|c' cs IH]; intros m; simpl; [auto|]. intros [H|(H1 & H2 & H3)]%IH.
  - destruct (owned !! c_key c') eqn:E; [auto|]. apply lookup_insert_Some in H as [[<- <-]|[_ ?]]; [|auto].
    right. split; [left|done].
  - right. split; [by right|done].
Qed.

Lemma add_cmps_other owned cs m k : k ∉ c_key <$> cs → add_cmps owned m cs !! k = m !! k.
Proof.
  unfold add_cmps. revert m. induction cs as [|c cs IH]; intros m; csimpl; [done|]. intros [? ?]%not_elem_of_cons.
  rewrite IH by done. destruct (owned !! c_key c); [done|]. by rewrite lookup_insert_ne.
Qed.

Lemma add_cmps_new owned cs m c :
  NoDup (c_key <$> cs) → c ∈ cs → owned !! c_key c = None → add_cmps owned m cs !! c_key c = Some c.
Proof.
  revert m. induction cs as [|c' cs IH]; intros m Hn Hin Ho; [by apply elem_of_nil in Hin|].
  csimpl in *. apply NoDup_cons in Hn as [Hk Hn]. apply elem_of_cons in Hin as [<-|Hin]; [|by apply IH].
  change (add_cmps owned m (c :: cs)) with
    (add_cmps owned (match owned !! c_key c with Some _ => m | None => <[c_key c := c]> m end) cs).
  by rewrite add_cmps_other, Ho, lookup_insert_eq by done.
Qed.

(** ** A buffer and the writes it absorbed *)

(** A write as the buffer takes it: its comparisons and its operations. *)
Definition bwrite : Type := list cmp * list op.

Definition touches (k : bytes) (w : bwrite) : Prop := k ∈ op_key <$> w.2.

(** [absorbed p ws]: the buffer [p] was made empty and has taken the writes
    [ws], in this order, since. *)
Inductive absorbed : pending → list bwrite → Prop :=
| absorbed_new p : made p = false → order p = [] → ops p = ∅ → cmps p = ∅ → absorbed p []
| absorbed_add p ws now cs os pl n :
    absorbed p ws → Forall single os → absorbed (add p now cs os pl n) (ws ++ [(cs, os)])
| absorbed_data p p' ws :
    absorbed p ws → made p' = made p → order p' = order p → ops p' = ops p → cmps p' = cmps p → absorbed p' ws.

Lemma absorbed_wf p ws : absorbed p ws → buffer_wf p.
Proof.
  induction 1 as [p Hm Ho Hp Hc|p ws now cs os pl n _ IH Hs|p p' ws _ IH E1 E2 E3 E4].
  - split; [rewrite Ho; constructor| |rewrite Hp; by intros ? ?; rewrite lookup_empty|done].
    intros k. rewrite Ho, Hp, elem_of_nil, lookup_empty. split; [done|by intros [? ?]].
  - by apply add_wf.
  - destruct IH as [? ? ? ?]. split; rewrite ?E1, ?E2, ?E3, ?E4; done.
Qed.

(** The comparisons a buffer keeps: those of the first write to touch a key. *)
Record first_cmps (p : pending) (ws : list bwrite) : Prop := {
  fc_ops : ∀ k, is_Some (ops p !! k) ↔ Exists (touches k) ws;
  fc_from : ∀ k c, cmps p !! k = Some c →
    c_key c = k ∧ ∃ pre w post, ws = pre ++ w :: post ∧ c ∈ w.1 ∧ Forall (λ w', ¬ touches k w') pre;
  fc_kept : ∀ pre w post c, ws = pre ++ w :: post → c ∈ w.1 → NoDup (c_key <$> w.1) → touches (c_key c) w →
    Forall (λ w', ¬ touches (c_key c) w') pre → cmps p !! c_key c = Some c;
}.

Lemma add_ops_dom os m ord k : is_Some ((add_ops (m, ord) os).1 !! k) ↔ is_Some (m !! k) ∨ k ∈ op_key <$> os.
Proof.
  unfold add_ops. revert m ord. induction os as [|o os IH]; intros m ord; simpl; [rewrite elem_of_nil; tauto|].
  rewrite IH, elem_of_cons. destruct (decide (op_key o = k)) as [<-|Hne]; [rewrite lookup_insert_eq; naive_solver|].
  rewrite lookup_insert_ne by done. naive_solver.
Qed.

Lemma snoc_inv {A} (pre post ws : list A) w w' :
  ws ++ [w'] = pre ++ w :: post → (post = [] ∧ w = w' ∧ pre = ws) ∨ ∃ post', post = post' ++ [w'] ∧ ws = pre ++ w :: post'.
Proof.
  destruct post as [|x post] using rev_ind; intros E.
  - left. apply app_inj_tail in E as [-> ->]. done.
  - right. exists post. rewrite app_comm_cons, app_assoc in E. apply app_inj_tail in E as [-> ->]. done.
Qed.

Lemma absorbed_cmps p ws : absorbed p ws → first_cmps p ws.
Proof.
  induction 1 as [p Hm Ho Hp Hc|p ws now cs os pl n Ha [IH1 IH2 IH3] Hs|p p' ws _ [IH1 IH2 IH3] E1 E2 E3 E4].
  - split; rewrite ?Hp, ?Hc.
    + intros k. rewrite lookup_empty, Exists_nil. split; [by intros [? ?]|done].
    + intros k c. by rewrite lookup_empty.
    + by intros [] w post c ?.
  - pose proof (absorbed_wf p ws Ha) as Hw.
    assert (∃ ord, ops (add p now cs os pl n) = (add_ops (ops p, ord) os).1 ∧
                   cmps (add p now cs os pl n) = add_cmps (ops p) (cmps p) cs) as (ord & Eo & Ec).
    { exists (order p). unfold add. destruct (made p) eqn:Em; simpl; [by destruct (add_ops _ os)|].
      destruct (bw_fresh p Hw Em) as [-> ->]. by destruct (add_ops _ os). }
    split; rewrite ?Eo, ?Ec.
    + intros k. rewrite add_ops_dom, IH1, Exists_app, Exists_cons, Exists_nil. unfold touches. simpl. tauto.
    + intros k c [H|(Hin & Hk & Hn)]%add_cmps_lookup.
      * destruct (IH2 k c H) as (Hk & pre & w & post & -> & Hin & Hpre). split; [done|].
        exists pre, w, (post ++ [(cs, os)]). by rewrite <- app_assoc, app_comm_cons.
      * split; [done|]. exists ws, (cs, os), []. split; [done|]. split; [done|].
        apply Forall_Exists_neg. rewrite <- IH1, Hn. by intros [? ?].
    + intros pre w post c [(-> & -> & ->)|(post' & -> & ->)]%snoc_inv Hin Hn Ht Hpre.
      * simpl in *. apply add_cmps_new; [done|done|]. apply Forall_Exists_neg in Hpre. rewrite <- IH1 in Hpre.
        destruct (ops p !! c_key c) eqn:E; [|done]. destruct Hpre. eauto.
      * rewrite add_cmps_owned; [by eapply IH3|]. apply IH1, Exists_app. right. by left.
  - split; rewrite ?E1, ?E2, ?E3, ?E4; done.
Qed.

Lemma txn_cmps_elem p c :
  (∀ k c, cmps p !! k = Some c → c_key c = k) → c ∈ (txn p).1 ↔ c_key c ∈ order p ∧ cmps p !! c_key c = Some c.
Proof.
  intros Hk. simpl. rewrite list_elem_of_omap. split.
  - intros (k & Hin & E). by rewrite (Hk _ _ E).
  - intros [? ?]. eauto.
Qed.

(** ** Publishing once is committing in order *)

Definition commit_each (m : mvcc) (ws : list bwrite) : mvcc := foldl (λ m w, (mvcc_ops m w.2).1) m ws.

Lemma absorbed_effect p ws m k :
  absorbed p ws → val_at k (mvcc_ops m (txn p).2).1 = val_at k (commit_each m ws).
Proof.
  induction 1 as [p Hm Ho Hp Hc|p ws now cs os pl n Ha IH Hs|p p' ws _ IH E1 E2 E3 E4].
  - simpl. rewrite Ho. done.
  - unfold commit_each in *. rewrite foldl_app. cbn [foldl]. rewrite !val_at_ops in *.
    rewrite add_effect by eauto using absorbed_wf. rewrite <- IH. cbn [snd]. by destruct (ops_effect os k).
  - rewrite <- IH. unfold txn. by rewrite E2, E3.
Qed.


Definition twice_written : list bwrite :=
  [([key_absent (ExtentKey 7 0)], [put (ExtentKey 7 0) [1]; put (InodeKey 7) [4]]);
   ([key_absent (ExtentKey 7 1); mod_is (ExtentKey 7 0) 0], [put (ExtentKey 7 1) [2]; OpDelete (ExtentKey 7 0) false])].
Definition twice_buffer : pending :=
  foldl (λ p w, add p 5 w.1 w.2 [] 1) no_pending twice_written.


(** ** The cached extents while a buffer is pending *)

(** Extents the buffer has written carry no revision yet. *)
Definition blur (p : pending) (e : Extent) : Extent :=
  match ops p !! Key e with Some _ => set_ModRevision 0 e | None => e end.

(** What the node shows of an inode whose buffer is [p]: the extents a reader
    would decode if the buffer were published now. *)
Definition pending_view (ino : Z) (m : mvcc) (p : pending) : list Extent :=
  map (blur p) (extents_of ino (mvcc_ops m (txn p).2).1).

(** The operations of a buffer are writes to one inode. *)
Definition buffer_of (ino : Z) (p : pending) : Prop := buffer_wf p ∧ ∀ k o, ops p !! k = Some o → write_op ino o.

Section view.
Set Default Proof Using "Type".
Context (ino : Z) (Hino : is_u64 ino).

Lemma buffer_of_ops p : buffer_of ino p → Forall (write_op ino) (txn p).2.
Proof. intros [Hw Ho]. apply Forall_forall. intros o Hin. apply txn_ops_elem in Hin; eauto. Qed.

Lemma ext_view_key c x e : is_u64 c → ext_view ino c x = Some e → Key e = ExtentKey ino c ∧ Chunk e = c ∧ ModRevision e = x.2.
Proof using Hino.
  intros Hc. unfold ext_view. destruct (DecodeExtent _ x.1) as [d|] eqn:E; [|done]. intros [= <-].
  by destruct (DecodeExtent_key ino c _ _ Hino Hc E) as (? & ? & _).
Qed.

Lemma ext_view_rev c v r r' e : ext_view ino c (v, r) = Some e → ext_view ino c (v, r') = Some (set_ModRevision r' e).
Proof. unfold ext_view. simpl. destruct (DecodeExtent _ v) as [d|]; [|done]. by intros [= <-]. Qed.

(** The elements of a view, chunk by chunk: what the buffer put there, or what
    the store holds where the buffer is silent. *)
Definition view_elem (m : mvcc) (eff : option (option (bytes * Z))) (rev c : Z) (e : Extent) : Prop :=
  match eff with
  | Some (Some (v, _)) => ext_view ino c (v, rev) = Some e
  | Some None => False
  | None => ∃ x, (λ r, (kv_val r, kv_mod r)) <$> mkvs m !! ExtentKey ino c = Some x ∧ ext_view ino c x = Some e
  end.

Lemma extents_after_elem m os e :
  canonical ino m → Forall (write_op ino) os →
  e ∈ extents_of ino (mvcc_ops m os).1 ↔
  ∃ c, is_u64 c ∧ view_elem m (ops_effect os (ExtentKey ino c)) (mrev m + 1) c e.
Proof using Hino.
  intros Hcan Hops. rewrite extents_of_elem by by apply write_op_canonical.
  rewrite mvcc_ops_kvs. setoid_rewrite apply_ops_kv. unfold view_elem. split.
  - intros (c & x & Hc & Hx & He). exists c. split; [done|]. destruct (ops_effect _ _) as [[[v l]|]|]; simplify_eq/=; eauto.
  - intros (c & Hc & H). destruct (ops_effect _ _) as [[[v l]|]|] eqn:E; [|done|].
    + exists c, (v, mrev m + 1). rewrite E. eauto.
    + destruct H as (x & Hx & He). exists c, x. rewrite E. eauto.
Qed.

Lemma buffer_owned p c :
  buffer_of ino p → is_Some (ops p !! ExtentKey ino c) ↔ is_Some (ops_effect (txn p).2 (ExtentKey ino c)).
Proof.
  intros [Hw _]. rewrite txn_effect by done. destruct (ops p !! ExtentKey ino c) as [o|] eqn:E; [|done].
  destruct (bw_ops p Hw _ _ E) as [Hk Hs]. split; intros _; [by apply op_effect_single|eauto].
Qed.

Lemma pending_view_elem m p e :
  canonical ino m → buffer_of ino p →
  e ∈ pending_view ino m p ↔ ∃ c, is_u64 c ∧ view_elem m (ops_effect (txn p).2 (ExtentKey ino c)) 0 c e.
Proof using Hino.
  intros Hcan Hb. unfold pending_view. rewrite list_elem_of_fmap. pose proof (buffer_owned p) as Ho. split.
  - intros (e0 & -> & He0). apply extents_after_elem in He0 as (c & Hc & H); [|done|by apply buffer_of_ops].
    exists c. split; [done|]. specialize (Ho c Hb). unfold view_elem in *.
    destruct (ops_effect _ _) as [[[v l]|]|]; [|done|]; unfold blur.
    + destruct (ext_view_key c _ _ Hc H) as (-> & _ & _). destruct (ops p !! ExtentKey ino c); [|by destruct Ho as [_ [? ?]]].
      by eapply ext_view_rev.
    + destruct H as (x & Hx & H). destruct (ext_view_key c _ _ Hc H) as (-> & _ & _).
      destruct (ops p !! ExtentKey ino c); [by destruct Ho as [[? ?] _]|]. eauto.
  - intros (c & Hc & H). specialize (Ho c Hb).
    destruct (ops_effect (txn p).2 (ExtentKey ino c)) as [[[v l]|]|] eqn:Eff; unfold view_elem in H; [|done|].
    + exists (set_ModRevision (mrev m + 1) e). pose proof (ext_view_rev c v 0 (mrev m + 1) e H) as H'.
      destruct (ext_view_key c _ _ Hc H) as (Hk & Hch & Hr). split.
      * unfold blur. simpl. rewrite Hk. destruct (ops p !! ExtentKey ino c); [|by destruct Ho as [_ [? ?]]].
        simpl in Hr. destruct e. simpl in *. by subst.
      * apply extents_after_elem; [done|by apply buffer_of_ops|]. exists c. split; [done|]. by rewrite Eff.
    + destruct H as (x & Hx & H). destruct (ext_view_key c _ _ Hc H) as (Hk & Hch & Hr). exists e. split.
      * unfold blur. rewrite Hk. destruct (ops p !! ExtentKey ino c); [by destruct Ho as [[? ?] _]|done].
      * apply extents_after_elem; [done|by apply buffer_of_ops|]. exists c. split; [done|]. rewrite Eff. simpl. eauto.
Qed.

Lemma map_tidy f l : (∀ e, Chunk (f e) = Chunk e ∧ LogOff (f e) = LogOff e ∧ Seq (f e) = Seq e) → tidy l → tidy (map f l).
Proof.
  intros Hf [Hs Hn]. split.
  - induction Hs as [|e l Hs IH Hle]; simpl; constructor; [apply IH; by apply NoDup_cons in Hn as [_ ?]|].
    apply Forall_map, Forall_forall. intros e' He'. rewrite Forall_forall in Hle. specialize (Hle e' He').
    revert Hle. unfold ext_le, extentOrder. simpl. destruct (Hf e) as (-> & -> & ->), (Hf e') as (-> & -> & ->). done.
  - replace (Chunk <$> map f l) with (Chunk <$> l); [done|]. clear -Hf. induction l as [|e l IH]; csimpl; [done|].
    destruct (Hf e) as (-> & _). by rewrite IH.
Qed.

Lemma pending_view_tidy m p : canonical ino m → buffer_of ino p → tidy (pending_view ino m p).
Proof using Hino.
  intros Hcan Hb. apply map_tidy; [by intros e; unfold blur; destruct (ops p !! Key e)|].
  apply extents_of_tidy; [done|]. apply write_op_canonical; [done|by apply buffer_of_ops].
Qed.

(** Replaying a write into a list of extents, chunk by chunk. *)
Lemma replay_elem rec os r l rev e :
  Forall (write_op ino) os → ops_distinct os = true → replayTxn ino rec os = Some r →
  tidy l → Forall (λ e, is_u64 (Chunk e)) l →
  e ∈ m_extents (apply_replay r l rev) ↔
  ∃ c, is_u64 c ∧ match ops_effect os (ExtentKey ino c) with
                  | Some (Some (v, _)) => ext_view ino c (v, rev) = Some e
                  | Some None => False
                  | None => e ∈ l ∧ Chunk e = c
                  end.
Proof using Hino.
  intros Hops Hdis Hr Hl Hu. apply replay_ops_spec in Hr as (Hputs & Hdels & Hdec). simpl in Hputs, Hdels.
  pose proof (puts_NoDup ino Hino os Hops Hdis) as Hn. rewrite <- Hputs in Hn.
  destruct (apply_replay_ok r l rev Hl Hn) as [_ He]. rewrite He, Hputs, Hdels. split.
  - intros [(p & Hp & ->)|(Hel & Hnd & Hnp)].
    + assert (is_u64 (Chunk p)) as Hc.
      { apply list_elem_of_omap in Hp as ([k v lz|] & Hin & Ho); simpl in Ho; [|done]. case_bool_decide; [done|].
        rewrite Forall_forall in Hops. destruct (Hops _ Hin) as [?|(c & Hc & ->)]; [done|].
        by destruct (DecodeExtent_key ino c _ _ Hino Hc Ho) as (_ & -> & _). }
      destruct (proj1 (put_ext_elem ino Hino os Hops (Chunk p) p Hc)) as (v & lz & Hin & Hd); [done|].
      exists (Chunk p). split; [done|]. rewrite (ops_effect_put _ _ _ _ Hdis Hin). unfold ext_view. simpl. by rewrite Hd.
    + rewrite Forall_forall in Hu. pose proof (Hu _ Hel) as Hc. exists (Chunk e). split; [done|].
      pose proof (effect_on_key ino Hino os Hops Hdis (Chunk e) Hc) as Heff.
      destruct (ops_effect os _) as [[[v lz]|]|]; [|by destruct Heff|done].
      destruct (Hdec _ _ _ Heff) as [p Hp]; [intros E; by apply (InodeKey_not_extent ino (Chunk e))|].
      destruct Hnp. apply list_elem_of_fmap. exists p.
      destruct (proj2 (put_ext_elem ino Hino os Hops (Chunk e) p Hc)) as [Hin Hcp]; eauto.
  - intros (c & Hc & H). pose proof (effect_on_key ino Hino os Hops Hdis c Hc) as Heff.
    destruct (ops_effect os _) as [[[v lz]|]|]; [|done|].
    + left. unfold ext_view in H. simpl in H. destruct (DecodeExtent _ v) as [d|] eqn:Ed; [|done]. injection H as <-.
      exists d. split; [|done]. apply (put_ext_elem ino Hino os Hops c d Hc). eauto.
    + right. destruct H as [Hel Hch]. subst c. split; [done|]. split; [apply Heff|].
      intros (p & Hp & Hin)%list_elem_of_fmap. symmetry in Hp.
      destruct (proj1 (put_ext_elem ino Hino os Hops (Chunk e) p Hc)) as (v & lz & Hput & _); [done|].
      by apply Heff in Hput.
Qed.

Lemma pending_view_u64 m p : canonical ino m → buffer_of ino p → Forall (λ e, is_u64 (Chunk e)) (pending_view ino m p).
Proof using Hino.
  intros Hcan Hb. apply Forall_forall. intros e (c & Hc & H)%pending_view_elem; [|done|done].
  unfold view_elem in H. destruct (ops_effect _ _) as [[[v l]|]|]; [|done|].
  - by destruct (ext_view_key c _ _ Hc H) as (_ & -> & _).
  - destruct H as (x & _ & H). by destruct (ext_view_key c _ _ Hc H) as (_ & -> & _).
Qed.

Lemma add_buffer_of p now cs os pl n : buffer_of ino p → Forall (write_op ino) os → buffer_of ino (add p now cs os pl n).
Proof.
  intros [Hw Ho] Hops. pose proof (write_op_single ino os Hops) as Hs. split; [by apply add_wf|].
  intros k o E. assert (∃ ord, ops (add p now cs os pl n) = (add_ops (ops p, ord) os).1) as (ord & Eo).
  { exists (order p). unfold add. destruct (made p) eqn:Em; simpl; [by destruct (add_ops _ os)|].
    destruct (bw_fresh p Hw Em) as [-> _]. by destruct (add_ops _ os). }
  rewrite Eo in E. clear Eo Hs. revert E. unfold add_ops. clear Hw. revert Ho. generalize (ops p) as m. revert ord.
  induction Hops as [|o' os Ho' _ IH]; intros ord m Hm; simpl; [eauto|]. apply IH.
  intros k' o2 [[<- <-]|[_ ?]]%lookup_insert_Some; eauto.
Qed.

(** The cached extents follow the buffer. *)
Lemma view_add m p rec os r now cs pl n :
  canonical ino m → buffer_of ino p →
  Forall (write_op ino) os → ops_distinct os = true → replayTxn ino rec os = Some r →
  m_extents (apply_replay r (pending_view ino m p) 0) = pending_view ino m (add p now cs os pl n).
Proof using Hino.
  intros Hcan Hb Hops Hdis Hr. pose proof (pending_view_tidy m p Hcan Hb) as Ht.
  pose proof (pending_view_u64 m p Hcan Hb) as Hu. pose proof (add_buffer_of p now cs os pl n Hb Hops) as Hb'.
  apply tidy_eq; [|by apply pending_view_tidy|].
  { apply apply_replay_ok; [done|]. apply replay_ops_spec in Hr as (-> & _ & _). by apply puts_NoDup. }
  intros e. etrans; [exact (replay_elem rec os r _ 0 e Hops Hdis Hr Ht Hu)|].
  etrans; [|symmetry; exact (pending_view_elem m _ e Hcan Hb')].
  destruct Hb as [Hw Hwo]. pose proof (write_op_single ino os Hops) as Hs.
  apply exist_proper. intros c. rewrite add_effect by done.
  destruct (ops_effect os (ExtentKey ino c)) as [[[v l]|]|]; [done|done|].
  rewrite (pending_view_elem m p) by done. split.
  - intros (Hc & (c' & Hc' & H) & Hch). split; [done|]. assert (c' = c) as ->; [|done].
    unfold view_elem in H. destruct (ops_effect _ _) as [[[v l]|]|]; [|done|destruct H as (x & _ & H)];
      destruct (ext_view_key c' _ _ Hc' H) as (_ & ? & _); congruence.
  - intros (Hc & H). split; [done|]. split; [eauto|].
    unfold view_elem in H. destruct (ops_effect _ _) as [[[v l]|]|]; [|done|destruct H as (x & _ & H)];
      by destruct (ext_view_key c _ _ Hc H) as (_ & ? & _).
Qed.

Lemma put_revs_from os rev m k x :
  foldl (λ m o, match o with OpPut k _ _ => <[k := rev]> m | OpDelete _ _ => m end) m os !! k = Some x →
  (x = rev ∧ ∃ v l, OpPut k v l ∈ os) ∨ (m : gmap bytes Z) !! k = Some x.
Proof.
  revert m. induction os as [|o os IH]; intros m; simpl; [auto|].
  intros [(-> & v & l & Hin)|H]%IH; [left; split; [done|]; exists v, l; by right|].
  destruct o as [k' v' l'|k' p']; [|auto]. apply lookup_insert_Some in H as [[-> <-]|[_ ?]]; [|auto].
  left. split; [done|]. exists v', l'. left.
Qed.

Lemma put_revs_to os rev m k :
  (∃ v l, OpPut k v l ∈ os) ∨ (m : gmap bytes Z) !! k = Some rev →
  foldl (λ m o, match o with OpPut k _ _ => <[k := rev]> m | OpDelete _ _ => m end) m os !! k = Some rev.
Proof.
  revert m. induction os as [|o os IH]; intros m; simpl; [by intros [(? & ? & ?%elem_of_nil)|?]|].
  intros H. apply IH. destruct H as [(v & l & [<-|Hin]%elem_of_cons)|H].
  - right. by rewrite lookup_insert_eq.
  - left. eauto.
  - right. destruct o as [k' v' l'|k' p']; [|done]. destruct (decide (k' = k)) as [->|]; [by rewrite lookup_insert_eq|].
    by rewrite lookup_insert_ne.
Qed.

Lemma put_revs_spec os rev k x : put_revs os rev !! k = Some x ↔ x = rev ∧ ∃ v l, OpPut k v l ∈ os.
Proof.
  split; [intros [?|H]%put_revs_from; [done|by rewrite lookup_empty in H]|].
  intros [-> ?]. apply put_revs_to. by left.
Qed.

(** A published buffer leaves the cache at what the store now holds. *)
Lemma view_published m p :
  canonical ino m → buffer_of ino p →
  map (update_rev (put_revs (txn p).2 (mrev (mvcc_ops m (txn p).2).1))) (pending_view ino m p) =
  extents_of ino (mvcc_ops m (txn p).2).1.
Proof using Hino.
  intros Hcan Hb. unfold pending_view. rewrite map_map. rewrite <- (map_id (extents_of _ _)) at 2.
  apply map_ext_in. intros e He%list_elem_of_In.
  apply extents_after_elem in He as (c & Hc & H); [|done|by apply buffer_of_ops].
  pose proof (buffer_owned p c Hb) as Ho. pose proof (txn_distinct p (proj1 Hb)) as Hdis.
  pose proof (effect_on_key ino Hino _ (buffer_of_ops p Hb) Hdis c Hc) as Heff. unfold view_elem in H.
  destruct (ops_effect (txn p).2 (ExtentKey ino c)) as [[[v l]|]|]; [|done|].
  - destruct (ext_view_key c _ _ Hc H) as (Hk & _ & Hr). unfold blur, update_rev. rewrite Hk.
    destruct (ops p !! ExtentKey ino c); [|by destruct Ho as [_ [? ?]]]. simpl. rewrite Hk.
    rewrite (proj2 (put_revs_spec (txn p).2 (mrev (mvcc_ops m (txn p).2).1) _ _)) by eauto.
    rewrite (mvcc_ops_put_rev m _ _ _ _ Heff). simpl in Hr. destruct e. simpl in *. by subst.
  - destruct H as (x & _ & H). destruct (ext_view_key c _ _ Hc H) as (Hk & _ & _). unfold blur, update_rev. rewrite Hk.
    destruct (ops p !! ExtentKey ino c); [by destruct Ho as [[? ?] _]|]. rewrite Hk.
    destruct (put_revs _ _ !! ExtentKey ino c) eqn:E; [|done]. apply put_revs_spec in E as (_ & v & l & Hin).
    by apply Heff in Hin.
Qed.
End view.
