(* ===== verification/FlushOrder.v ===== *)
(** * Bytes before metadata

    Whatever etcd, the device and the kernel answer, and whichever way a flush
    fails and is retried, no transaction that publishes an extent of an inode is
    sent before the device has accepted every byte the inode's buffer held. *)

From S2P Require Import Prelude Etcd EtcdFacts Schema Store Locks Extents Allocator ArenaPool InodeTimes Service DataPath Delegate SvcLogic SchemaProps.

(** ** What the device has accepted *)

(** The run's bytes were all part of accepted writes. *)
Definition on_device (st : list bufferedRun) (r : bufferedRun) : Prop :=
  ∀ i v, b_buf r !! i = Some v →
    ∃ w j, w ∈ st ∧ b_off w + Z.of_nat j = b_off r + Z.of_nat i ∧ b_buf w !! j = Some v.

Definition accepted (st : list bufferedRun) (q : req) : resp q → list bufferedRun :=
  match q return resp q → list bufferedRun with
  | QIO (DevWrite off b) => λ ok, if ok then mkBuffered off b :: st else st
  | _ => λ _, st
  end.

Lemma on_device_mono st st' r : st ⊆ st' → on_device st r → on_device st' r.
Proof. intros Hs H i v Hi. destruct (H i v Hi) as (w & j & ? & ? & ?). exists w, j. auto. Qed.

Definition no_wrap (r : bufferedRun) : Prop := 0 <= b_off r ∧ b_off r + b_len r < 2 ^ 64.

Lemma coalesce_from_covers cur rs r :
  no_wrap cur → Forall no_wrap rs → r ∈ cur :: rs → on_device (coalesce_from cur rs) r.
Proof.
  intros Hc Hrs. revert cur r Hc. induction Hrs as [|r1 rs H1 _ IH]; intros cur r Hc Hin; simpl.
  { apply elem_of_cons in Hin as [->|Hin]; [|by apply elem_of_nil in Hin]. intros i v Hi. exists cur, i. split; [left|done]. }
  destruct (b_off r1 =? add64 (b_off cur) (b_len cur)) eqn:H; zbool.
  - set (g := mkBuffered (b_off cur) (b_buf cur ++ b_buf r1)).
    rewrite add64_small in H by (unfold no_wrap, b_len in *; lia).
    assert (no_wrap g) as Hg.
    { unfold g, no_wrap, b_len in *. simpl. rewrite length_app, Nat2Z.inj_add. lia. }
    assert (r = cur ∨ r = r1 ∨ r ∈ rs) as [->|[->|Hr]] by (rewrite !elem_of_cons in Hin; tauto).
    + intros i v Hi. destruct (IH g g Hg (list_elem_of_here _ _) i v) as (w & j & ? & ? & ?); [|by exists w, j].
      unfold g. simpl. by apply lookup_app_l_Some.
    + intros i v Hi. destruct (IH g g Hg (list_elem_of_here _ _) (length (b_buf cur) + i)%nat v) as (w & j & ? & E & ?).
      { unfold g. simpl. rewrite lookup_app_r by lia. by replace (_ - _)%nat with i by lia. }
      exists w, j. split; [done|]. split; [|done]. rewrite E. unfold g. simpl. unfold b_len in H. lia.
    + apply (IH g); [done|]. apply elem_of_cons. by right.
  - assert (r = cur ∨ r ∈ r1 :: rs) as [->|Hr] by (rewrite !elem_of_cons in *; tauto).
    + intros i v Hi. exists cur, i. split; [left|done].
    + apply (on_device_mono (coalesce_from r1 rs)); [intros w ?; by right|by apply IH].
Qed.

Lemma coalesce_covers rs r : Forall no_wrap rs → r ∈ rs → on_device (coalesce rs) r.
Proof. intros [|r1 rs' H1 Hrs]; [by intros ?%elem_of_nil|]. by apply coalesce_from_covers. Qed.

(** ** The discipline *)

Section order.
(** [data0 ino]: what the buffer of [ino] held when the flush began. *)
Context (data0 : Z → list bufferedRun).

(** Publishing any of these operations is safe once the buffers they came from
    are on the device. *)
Definition safe_ops (st : list bufferedRun) (os : list op) : Prop :=
  ∀ ino k v l, is_u64 ino → OpPut k v l ∈ os → has_prefix (ExtentPrefix ino) k = true → Forall (on_device st) (data0 ino).

Definition allowed (st : list bufferedRun) (q : req) : Prop :=
  match q with
  | QTxn _ thens elses => safe_ops st thens ∧ safe_ops st elses
  | QPut k _ _ => ∀ ino, has_prefix (ExtentPrefix ino) k = false
  | _ => True
  end.

(** A buffer that still has operations to publish holds its own inode's, and
    what it held at the start is still in it or on the device. *)
Definition ordered (s : Service) (st : list bufferedRun) : Prop :=
  ∀ ino e p, entries s !! ino = Some e → buffer e = Some p →
    Forall no_wrap (data p) ∧
    ∀ k o, ops p !! k = Some o →
      (∀ ino', is_u64 ino' → has_prefix (ExtentPrefix ino') (op_key o) = true → ino' = ino) ∧
      Forall (λ r, r ∈ data p ∨ on_device st r) (data0 ino).

Local Notation triple := (SvcLogic.triple allowed accepted).
Local Notation keeps := (SvcLogic.keeps allowed accepted).
Local Notation quiet := (SvcLogic.quiet allowed accepted).

Lemma quiet_read st q : read_only q → match q with QIO (DevWrite _ _) => False | _ => True end → quiet st q.
Proof. by destruct q as [| | | | | | | | | | |[]]. Qed.

(** ** The guarded commit *)

Lemma gen_not_extent ino n : has_prefix (ExtentPrefix ino) (GenKey n) = false.
Proof. by vm_compute. Qed.

Lemma quiet_txn st ifs ts : safe_ops st ts → quiet st (QTxn ifs ts []).
Proof. intros H. split; [|done]. split; [done|]. by intros ? ? ? ? ? ?%elem_of_nil. Qed.

(** An operation's effect on the service that the discipline does not see. *)
Definition same_buffers (s s' : Service) : Prop := ∀ ino, (buffer <$> entries s' !! ino) = (buffer <$> entries s !! ino).

Lemma ordered_same s s' st : same_buffers s s' → ordered s st → ordered s' st.
Proof.
  intros Hs Ho ino e p He Hb. specialize (Hs ino). rewrite He in Hs. simpl in Hs.
  destruct (entries s !! ino) as [e0|] eqn:E0; [|done]. injection Hs as E. by apply (Ho ino e0 p); [|rewrite <- E].
Qed.

Lemma ordered_mono s st st' : st ⊆ st' → ordered s st → ordered s st'.
Proof.
  intros Hs Ho ino e p He Hb. destruct (Ho ino e p He Hb) as [H1 H2]. split; [done|]. intros k o Hk.
  destruct (H2 k o Hk) as [H3 H4]. split; [done|]. eapply Forall_impl; [exact H4|].
  intros r [?|?]; [by left|right]. by eapply on_device_mono.
Qed.

Lemma triple_commitGuarded cs os :
  triple (λ s st, ordered s st ∧ safe_ops st os) (commitGuarded cs os) (λ _ s st, ordered s st ∧ safe_ops st os).
Proof.
  unfold commitGuarded, sebind. eapply triple_bind.
  { instantiate (1 := λ _ s st, ordered s st ∧ safe_ops st os).
    intros s st [Ho Hs]. unfold guardGeneration. destruct (genInit s); [done|]. apply obeys_bind, obeys_quiet; [|by intros []].
    apply issues_ebind; [apply issues_txnRaw, quiet_txn|].
    - intros ino k v l _ [E|?%elem_of_nil]%elem_of_cons Hp; [|done]. injection E as -> -> ->. by rewrite gen_not_extent in Hp.
    - intros []; [done|]. by apply issues_GetGeneration, quiet_read. }
  intros [gen|e]; [|by intros s st]. eapply triple_bind.
  { apply triple_retry; [done|]. apply triple_store. intros s st [_ Hs]. apply issues_TxnRev; intros; [by apply quiet_txn|by apply quiet_read]. }
  by intros [[]|[]] s st.
Qed.

(** ** Steps that only change the service *)

Lemma ordered_alter s st ino f :
  (∀ e, entries s !! ino = Some e → buffer (f e) = buffer e) → ordered s st →
  ordered (set_entries (alter f ino (entries s)) s) st.
Proof.
  intros Hf. apply ordered_same. intros i. simpl. destruct (decide (i = ino)) as [->|Hne].
  - rewrite lookup_alter_eq. destruct (entries s !! ino) eqn:E; simpl; [|done]. by rewrite Hf.
  - by rewrite lookup_alter_ne.
Qed.

(** A buffer with nothing left to publish is in order. *)
Lemma ordered_set s st ino p :
  Forall no_wrap (data p) →
  (∀ k o, ops p !! k = Some o → (∀ ino', is_u64 ino' → has_prefix (ExtentPrefix ino') (op_key o) = true → ino' = ino) ∧
     Forall (λ r, r ∈ data p ∨ on_device st r) (data0 ino)) →
  ordered s st → ordered (set_entries (alter (set_buffer (Some p)) ino (entries s)) s) st.
Proof.
  intros Hw Hp Ho i e p' He Hb. simpl in He. destruct (decide (i = ino)) as [->|Hne].
  - rewrite lookup_alter_eq in He. destruct (entries s !! ino); [|done]. injection He as <-. injection Hb as <-. done.
  - rewrite lookup_alter_ne in He by done. by eapply Ho.
Qed.

Lemma ordered_reset s st ino p : ordered s st → ordered (set_entries (alter (set_buffer (Some (reset p))) ino (entries s)) s) st.
Proof. apply ordered_set; [constructor|]. intros k o. simpl. by rewrite lookup_empty. Qed.

Lemma ordered_entries s s' st : entries s' = entries s → ordered s st → ordered s' st.
Proof. intros E. unfold ordered. by rewrite E. Qed.

Lemma triple_discardPending ino : triple ordered (discardPending ino) (λ _, ordered).
Proof.
  intros s st Ho. unfold discardPending, sbind. cbn [get_entry gets bind fst snd].
  destruct (buffer (default (new_entry ino) (entries s !! ino))) as [p|]; [|done].
  cbn [alter_entry modify bind fst snd]. destruct (free_plans_run (plans p)
    (set_entries (alter (set_buffer (Some (reset p))) ino (entries s)) s)) as [a ->].
  eapply ordered_entries; [reflexivity|]. by apply (ordered_alter _ _ ino (set_meta None [])), (ordered_reset _ _ ino p Ho).
Qed.

Lemma triple_flushCommitted ino revs : triple ordered (flushCommitted ino revs) (λ _, ordered).
Proof.
  intros s st Ho. unfold flushCommitted, sbind. cbn [get_entry gets bind fst snd].
  destruct (buffer (default (new_entry ino) (entries s !! ino))) as [p|]; [|done].
  cbn [alter_entry modify bind fst snd]. destruct (free_plans_run (plans p)
    (set_entries (alter (set_buffer (Some (reset p))) ino (entries s)) s)) as [a ->].
  eapply ordered_entries; [reflexivity|]. eapply (ordered_alter _ _ ino); [|exact (ordered_reset _ _ ino p Ho)].
  intros e _. by destruct (meta e).
Qed.

Lemma triple_perr ino er : triple ordered (alter_entry ino (λ e, set_buffer (set_perr er <$> buffer e) e)) (λ _, ordered).
Proof.
  intros s st Ho i e p He Hb. simpl in He. destruct (decide (i = ino)) as [->|Hne].
  - rewrite lookup_alter_eq in He. destruct (entries s !! ino) as [e0|] eqn:E0; [|done]. injection He as <-.
    simpl in Hb. destruct (buffer e0) as [p0|] eqn:Eb; [|done]. injection Hb as <-. by apply (Ho ino e0 p0).
  - rewrite lookup_alter_ne in He by done. by eapply Ho.
Qed.

(** ** The device writes *)

Lemma accepted_grows st q r : st ⊆ accepted st q r.
Proof. destruct q as [| | | | | | | | | | |[]]; simpl; try reflexivity. destruct r; [intros w ?; by right|reflexivity]. Qed.

Lemma obeys_io {A} (p : prog A) st : issues is_io p →
  obeys allowed accepted st p (λ st' _, st ⊆ st').
Proof.
  revert st. induction p as [a|q k IH]; intros st Hp; [by simpl|]. destruct Hp as [Hq Hk].
  split; [by destruct q|]. intros r. eapply obeys_mono; [|by apply IH]. intros st' x Hs.
  etrans; [apply (accepted_grows st q r)|done].
Qed.

Lemma obeys_writeRun s b off st :
  obeys allowed accepted st (writeRun s b off) (λ st' r, st ⊆ st' ∧ (r = Ok tt → mkBuffered off b ∈ st')).
Proof.
  unfold writeRun. destruct (dev s) as [d|]; [|done]. apply obeys_bind. unfold WriteAt. case_if; [done|].
  apply obeys_bind. split; [done|]. intros [|]; [|by split]. simpl.
  assert (st ⊆ mkBuffered off b :: st) as Hsub by (intros w ?; by right).
  destruct (negb (writeBarriers (opts s))); [split; [done|intros _; left]|].
  eapply obeys_mono; [|apply obeys_io].
  - intros st' r Hs. simpl in Hs. split; [by etrans|]. intros _. apply Hs. left.
  - split; [done|]. intros _. split; [done|]. intros _. apply issues_bind; [apply io_ioBuffer|]. intros x.
    apply issues_bind; [apply io_ReadAt|done].
Qed.

Lemma io_group_buffers s gs : issues is_io (group_buffers s gs).
Proof. induction gs as [|g gs IH]; simpl; [done|]. apply issues_bind; [apply io_ioBuffer|done]. Qed.

Lemma obeys_write_groups s gs st :
  obeys allowed accepted st (write_groups s gs) (λ st' e, st ⊆ st' ∧ (e = None → ∀ g, g ∈ gs → g ∈ st')).
Proof.
  revert st. induction gs as [|g gs IH]; intros st; simpl; [split; [done|by intros _ ? ?%elem_of_nil]|].
  apply obeys_bind. eapply obeys_mono; [|apply obeys_writeRun]. intros st1 r [Hs1 Hr].
  apply obeys_bind. eapply obeys_mono; [|apply IH]. intros st2 e [Hs2 He].
  split; [by etrans|]. destruct r as [[]|]; [|done]. intros -> g' [->|?]%elem_of_cons; [|by apply He].
  apply Hs2. destruct g. by apply Hr.
Qed.

Lemma triple_flushData ino :
  triple ordered (flushData ino) (λ r s st, ordered s st ∧
    (r = Ok tt → ∀ e p k o, entries s !! ino = Some e → buffer e = Some p → ops p !! k = Some o →
       Forall (on_device st) (data0 ino))).
Proof.
  intros s st Ho. unfold flushData, sbind, get_entry, gets. cbn [bind fst snd].
  destruct (entries s !! ino) as [e|] eqn:He; simpl; [|split; [done|]; intros _ e' p' k o He'; simpl in He'; congruence].
  destruct (buffer e) as [p|] eqn:Hb; [|split; [done|]; intros _ e' p' k o He' Hb'; simpl in He'; congruence].
  destruct (Ho ino e p He Hb) as [Hw Hp]. destruct (data p) as [|r rs] eqn:Ed.
  { split; [done|]. intros _ e' p' k o He' Hb' Hk. simpl in He'. rewrite He in He'. injection He' as <-. rewrite Hb in Hb'. injection Hb' as <-.
    destruct (Hp k o Hk) as [_ H]. eapply Forall_impl; [exact H|]. intros r [?%elem_of_nil|?]; done. }
  set (sorted := merge_sort off_le (r :: rs)). assert (sorted ≡ₚ r :: rs) as Hperm by apply merge_sort_Permutation.
  assert (Forall no_wrap sorted) as Hw' by by rewrite Hperm.
  apply obeys_bind, obeys_bind.
  eapply obeys_mono; [|apply obeys_io, io_group_buffers]. intros st1 [] Hs1. simpl in Hs1.
  apply obeys_bind. eapply obeys_mono; [|apply obeys_write_groups]. intros st2 er [Hs2 Hg]. cbn [obeys fst snd].
  assert (st ⊆ st2) as Hs by by etrans.
  assert (ordered (set_entries (alter (set_buffer (Some (set_data sorted p))) ino (entries s)) s) st2) as Ho1.
  { apply ordered_set; [done| |by eapply ordered_mono]. intros k o Hk. destruct (Hp k o Hk) as [H1 H2]. split; [done|].
    eapply Forall_impl; [exact H2|]. intros r' [Hr|?]; [left|right; by eapply on_device_mono].
    simpl. by rewrite Hperm. }
  destruct er as [er|]; [by split|].
  assert (∀ k o, ops p !! k = Some o → Forall (on_device st2) (data0 ino)) as Hdev.
  { intros k o Hk. destruct (Hp k o Hk) as [_ H2]. eapply Forall_impl; [exact H2|].
    intros r' [Hr|?]; [|by eapply on_device_mono]. eapply on_device_mono; [|apply (coalesce_covers sorted); [done|by rewrite Hperm]].
    intros g. by apply Hg. }
  cbn [obeys bind fst snd alter_entry modify sret]. split.
  - apply ordered_set; [constructor| |done]. intros k o Hk. destruct (Hp k o Hk) as [H1 _]. split; [done|].
    eapply Forall_impl; [by eapply Hdev|]. auto.
  - intros _ e' p' k o He' Hb' Hk. simpl in He'. rewrite !lookup_alter_eq, He in He'. simpl in He'. simplify_eq/=. by eapply Hdev.
Qed.

(** ** Proposing and publishing *)

Definition proposed (r : result (option (list cmp * list op))) (st : list bufferedRun) : Prop :=
  ∀ cs os, r = Ok (Some (cs, os)) → safe_ops st os.

Lemma triple_propose ino : triple ordered (proposeFlushLocked ino) (λ r s st, ordered s st ∧ proposed r st).
Proof.
  unfold proposeFlushLocked. apply triple_then; [apply keeps_get|]. intros e0. case_if.
  { apply triple_then; [apply triple_discardPending|]. by intros b s st. }
  eapply triple_bind; [apply triple_flushData|]. intros [[]|er].
  - intros s st [Ho Hdev]. unfold sbind, get_entry, gets. cbn [bind fst snd sret obeys].
    destruct (entries s !! ino) as [e|] eqn:He; simpl; [|by split].
    destruct (buffer e) as [p|] eqn:Hb; [|by split]. split; [done|]. intros cs os [= <- <-] ino' k v l Hi Hin Hp.
    destruct (txn_op_owned p _ Hin) as [k' Hk']. destruct (Ho ino e p He Hb) as [_ H]. destruct (H _ _ Hk') as [H1 _].
    rewrite (H1 ino' Hi Hp). by eapply Hdev.
  - apply triple_and, triple_then; [apply triple_perr|]. by intros u s st.
Qed.

Lemma quiet_reads st s ino : issues (quiet st) (GetInodeAndExtents s ino).
Proof. apply issues_ebind; [by apply issues_readTxn, quiet_read|]. done. Qed.

Lemma safe_ops_app st os1 os2 : safe_ops st os1 → safe_ops st os2 → safe_ops st (os1 ++ os2).
Proof. intros H1 H2 ino k v l Hi [Hin|Hin]%elem_of_app Hp; [by eapply H1|by eapply H2]. Qed.

Lemma safe_ops_mono st st' os : st ⊆ st' → safe_ops st os → safe_ops st' os.
Proof. intros Hs H ino k v l Hi Hin Hp. eapply Forall_impl; [by eapply H|]. intros r. by apply on_device_mono. Qed.

Lemma order_rules : FlushRules allowed accepted ordered (λ st _ os, safe_ops st os).
Proof.
  split.
  - done.
  - intros st q r _ os. apply safe_ops_mono, accepted_grows.
  - by intros st ? ? ? ? ? ?%elem_of_nil.
  - intros st _ os _ os'. apply safe_ops_app.
  - intros ino f Hf s st. apply ordered_alter. intros e _. apply Hf.
  - apply triple_perr.
  - intros ino s st. by apply ordered_alter.
  - apply triple_discardPending.
  - apply triple_flushCommitted.
  - intros ino s st Ho. unfold invalidatePages. case_if; [done|]. split; [done|]. by intros [].
  - intros ino. apply triple_store. intros. apply quiet_reads.
  - intros ino m h. apply triple_store. intros s st _. apply issues_ebind; [by apply issues_Get, quiet_read|done].
  - apply triple_propose.
  - intros cs os. eapply triple_mono; [| |apply (triple_commitGuarded cs os)]; [done|]. by intros a s st [? _].
Qed.
End order.

(** What the buffers of a service hold. *)
Definition buffered_data (s : Service) (ino : Z) : list bufferedRun :=
  match entries s !! ino with
  | Some e => match buffer e with Some p => data p | None => [] end
  | None => []
  end.

(** The buffers of a service file their own inode's operations. *)
Definition buffers_own (s : Service) : Prop :=
  ∀ ino e p, entries s !! ino = Some e → buffer e = Some p →
    Forall no_wrap (data p) ∧
    ∀ k o, ops p !! k = Some o → ∀ ino', is_u64 ino' → has_prefix (ExtentPrefix ino') (op_key o) = true → ino' = ino.


Definition ordered_buffer : pending :=
  add_runs [mkBuffered 8192 [3; 3; 3; 3]; mkBuffered 8196 [4; 4]] [mkRun 8192 8192]
    (add no_pending 5 [key_absent (ExtentKey 7 1)] [put (ExtentKey 7 1) (Encode (mkExtent [] 1 0 0 (lit "n1") 0 8192 8192 0))] [] 8192).
Definition ordered_svc : Service :=
  mkService (mkOptions 1 1 1 true false false true) (lit "n1") false false true 0 (mkLockState None 0) NewAllocator
    (Some (mkDevice false 512 (2 ^ 40))) 1 8192 false
    {[ 7 := set_buffer (Some ordered_buffer) (set_key LockExclusive (lit "h") 1 0 (new_entry 7)) ]}.

