(* ===== verification/YieldOrder.v ===== *)
(** * Cached locks and the cluster's locks

    What the lock cache promises to the other nodes, whatever etcd, the device
    and the kernel answer.  A buffer is published only by a transaction that
    requires the inode's exclusive key, so that on a store whose lock records are
    exclusive nobody else holds the inode when it commits.  And a lock key is
    given up (on a recall, an eviction, an upgrade, at shutdown) only after the
    kernel has no pages of the inode any more. *)

From S2P Require Import Prelude Etcd EtcdFacts Schema Store Locks Extents Allocator ArenaPool InodeTimes Service DataPath Delegate SvcLogic LockCache SchemaProps FlushOrder.

(** ** Publishing under the lock *)

Section publish.
(** The token each inode's key carries. *)
Context (token : Z → bytes).

Definition needs_lock (ifs : list cmp) (os : list op) : Prop :=
  ∀ ino k o, is_u64 ino → has_prefix (ExtentPrefix ino) k = true → o ∈ os → op_touches o k = true →
    key_exists (LockKey ino LockExclusive (token ino)) ∈ ifs.

Definition under_lock (q : req) : Prop :=
  match q with
  | QTxn ifs ts es => es = [] ∧ needs_lock ifs ts
  | QPut k _ _ => ∀ ino, is_u64 ino → has_prefix (ExtentPrefix ino) k = false
  | QDelete k p => ∀ ino k', is_u64 ino → has_prefix (ExtentPrefix ino) k' = true → op_touches (OpDelete k p) k' = false
  | _ => True
  end.

(** Operations on extents of [ino] only. *)
Definition own_op (ino : Z) (o : op) : Prop :=
  ∀ ino' k, is_u64 ino' → has_prefix (ExtentPrefix ino') k = true → op_touches o k = true → ino' = ino.

Definition locked_buffer (ino : Z) (os : gmap bytes op) (h m : bytes) : Prop :=
  (∀ k o, os !! k = Some o → own_op ino o) ∧ (os ≠ ∅ → h ≠ [] → h = token ino ∧ m = LockExclusive).

Lemma needs_lock_nil ifs : needs_lock ifs [].
Proof. by intros ino k o _ _ ?%elem_of_nil. Qed.

Lemma needs_lock_more ifs ifs' os : ifs ⊆ ifs' → needs_lock ifs os → needs_lock ifs' os.
Proof. intros Hs H ino k o Hi Hk Ho Ht. apply Hs. by eapply H. Qed.

Lemma needs_lock_app ifs os os' : needs_lock ifs os → needs_lock ifs os' → needs_lock ifs (os ++ os').
Proof. intros H1 H2 ino k o Hi Hk [Ho|Ho]%elem_of_app Ht; [by eapply H1|by eapply H2]. Qed.

Lemma gen_put_needs_nothing ifs n : needs_lock ifs [put (GenKey n) (fmt_uint 0)].
Proof.
  intros ino k o _ Hk ->%list_elem_of_singleton Ht. apply bool_decide_eq_true in Ht as ->. vm_compute in Hk. discriminate Hk.
Qed.

Lemma publish_rules : EntryRules (λ _ : unit, under_lock) (λ _ _ _, tt) locked_buffer (λ _ _, True) under_lock.
Proof.
  split; try done.
  - intros [] q Hq. by split.
  - by intros [] ? ?.
  - by intros [] ? ?.
  - intros n. split; [done|apply gen_put_needs_nothing].
  - intros pre. split; [done|apply needs_lock_nil].
  - intros cs os cs' os' H1 H2 pre. split; [done|]. destruct (H1 pre) as [_ Ha], (H2 pre) as [_ Hb].
    apply needs_lock_app; (eapply needs_lock_more; [|eassumption]); set_solver.
  - intros ino os h m [H1 _]. split; [done|]. by intros _ [].
  - intros ino p h m [H1 H2] Hh pre. split; [done|]. intros ino' k o Hi Hk Ho Ht.
    apply txn_op_owned in Ho as [k' Ho]. rewrite (H1 _ _ Ho ino' k Hi Hk Ht).
    destruct H2 as [-> ->]; [by intros E; rewrite E, lookup_empty in Ho|done|]. set_solver.
Qed.

Lemma obeys_issues {A} (P : req → Prop) (p : prog A) (Q : unit → A → Prop) :
  obeys (λ _ : unit, P) (λ _ _ _, tt) tt p Q → issues P p.
Proof. induction p as [a|q k IH]; simpl; [done|]. intros [? ?]. split; auto. Qed.
End publish.

(** The tokens of the keys a service has cached. *)
Definition holder_of (s : Service) (ino : Z) : bytes := match entries s !! ino with Some e => holder e | None => [] end.

(** What a service's buffers are like: each has operations on its own inode's
    extents only, made under an exclusive key. *)
Definition buffers_locked (s : Service) : Prop :=
  ∀ ino e, entries s !! ino = Some e →
    (∀ k o, entry_ops e !! k = Some o → own_op ino o) ∧ (entry_ops e ≠ ∅ → mode e = LockExclusive).

(** On a store whose lock records are exclusive, a transaction that changes an
    extent of [ino] and commits finds [h ino]'s key to be the only lock of [ino]. *)
Definition commits_alone (h : Z → bytes) (q : req) : Prop :=
  match q with
  | QTxn ifs ts es =>
    es = [] ∧ ∀ m ino k o, mvcc_wf m → lock_exclusion m → is_u64 ino → has_prefix (ExtentPrefix ino) k = true →
      forallb (eval_cmp (mkvs m)) ifs = true → o ∈ ts → op_touches o k = true →
      is_Some (mkvs m !! LockKey ino LockExclusive (h ino)) ∧
      ∀ k' e', mkvs m !! k' = Some e' → has_prefix (LockPrefix ino) k' = true → k' = LockKey ino LockExclusive (h ino)
  | QPut k _ _ => ∀ ino, is_u64 ino → has_prefix (ExtentPrefix ino) k = false
  | QDelete k p => ∀ ino k', is_u64 ino → has_prefix (ExtentPrefix ino) k' = true → op_touches (OpDelete k p) k' = false
  | _ => True
  end.

Lemma under_lock_alone h q : under_lock h q → commits_alone h q.
Proof.
  destruct q as [| |ifs ts es| | | | | | | | |]; try done. intros [-> Ht]. split; [done|]. intros m ino k o Hw Hx Hi Hk Hf Ho Hto.
  pose proof (Ht ino k o Hi Hk Ho Hto) as Hin. rewrite forallb_forall in Hf.
  apply list_elem_of_In, Hf, eval_key_exists in Hin; [|done]. split; [done|]. destruct Hin as [e He'].
  intros k' e' Hk' Hp. by apply (Hx ino (h ino) k' e e' (proj1 Hi)).
Qed.

(** C6. Publishing under the lock.  Whatever etcd, the device and the kernel
    answer, the three ways a buffer is published send no transaction that
    changes an extent of an inode unless it requires the exclusive key this
    node's cache has for the inode: on a store whose lock records are exclusive,
    when such a transaction commits no other node holds the inode in any mode. *)
Theorem publications_hold_lock s (Hs : buffers_locked s) :
  let alone {A} (c : svc A) := issues (commits_alone (holder_of s)) (c s) in
  (∀ ino, alone (flushEntry ino)) ∧ alone FlushAll ∧ alone flushExpired.
Proof.
  assert (entrywise (locked_buffer (holder_of s)) (λ _ (_ : unit), True) s tt) as Ho.
  { split; [|done]. intros ino e He. destruct (Hs ino e He) as [H1 H2]. split; [done|]. intros Hn _. split; [|by apply H2].
    unfold holder_of. by rewrite He. }
  pose proof (entry_rules _ _ _ _ _ (publish_rules (holder_of s))) as HR.
  assert (∀ A (c : svc A), keeps (λ _ : unit, under_lock (holder_of s)) (λ _ _ _, tt)
    (entrywise (locked_buffer (holder_of s)) (λ _ (_ : unit), True)) c → issues (commits_alone (holder_of s)) (c s)) as Hd.
  { intros A c Hc. eapply issues_mono; [apply under_lock_alone|]. by eapply obeys_issues, Hc. }
  split; [intros ino; by eapply Hd, keeps_flushLocked|]. split; eapply Hd; [by eapply keeps_FlushAll|by eapply keeps_flushExpired].
Qed.

(** ** Pages before keys *)

(** The inodes whose pages the kernel said it dropped, and whether there is no
    kernel cache at all. *)
Definition phase : Type := gset Z * bool.

Definition invalidated (st : phase) (q : req) : resp q → phase :=
  match q return resp q → phase with
  | QIO (InvalPages ino) => λ r, match r with InvalDone => ({[ino]} ∪ st.1, st.2) | InvalNoClient => (st.1, true) | InvalFailed => st end
  | _ => λ _, st
  end.

Definition cleared (st : phase) (ino : Z) : Prop := ino ∈ st.1 ∨ st.2 = true.

Lemma cleared_later ino st q r : cleared st ino → cleared (invalidated st q r) ino.
Proof. unfold cleared. destruct q as [| | | | | | | | | | |[]]; try done. destruct r; simpl; [set_solver|by right|done]. Qed.

Definition deletes (o : op) (k : bytes) : Prop := match o with OpPut _ _ _ => False | OpDelete _ _ => op_touches o k = true end.

(** A lock key is deleted only after its inode's pages are gone. *)
Definition may_yield (st : phase) (os : list op) : Prop :=
  ∀ ino k o, is_u64 ino → has_prefix (LockPrefix ino) k = true → o ∈ os → deletes o k → cleared st ino.

Definition yields (st : phase) (q : req) : Prop :=
  match q with
  | QTxn _ ts es => may_yield st ts ∧ may_yield st es
  | QDelete k p => may_yield st [OpDelete k p]
  | _ => True
  end.

(** Operations that delete no lock key. *)
Definition keeps_locks (o : op) : Prop := ∀ ino k, is_u64 ino → has_prefix (LockPrefix ino) k = true → ¬ deletes o k.

Definition lock_neutral (q : req) : Prop :=
  match q with
  | QTxn _ ts es => Forall keeps_locks ts ∧ Forall keeps_locks es
  | QDelete k p => keeps_locks (OpDelete k p)
  | QIO (InvalPages _) => False
  | _ => True
  end.

Lemma may_yield_neutral st os : Forall keeps_locks os → may_yield st os.
Proof. intros H ino k o Hi Hk Ho Hd. rewrite Forall_forall in H. by destruct (H o Ho ino k Hi Hk). Qed.

Lemma neutral_quiet st q : lock_neutral q → quiet yields invalidated st q.
Proof.
  destruct q as [| |ifs ts es| |k p| | | | | | |i]; try done.
  - intros [H1 H2]. split; [split; by apply may_yield_neutral|done].
  - intros H. split; [apply may_yield_neutral; by constructor|done].
  - by destruct i.
Qed.

Definition yield_buffer (ino : Z) (os : gmap bytes op) (h m : bytes) : Prop := is_u64 ino ∧ ∀ k o, os !! k = Some o → keeps_locks o.
Definition pages_known (s : Service) (st : phase) : Prop := pagesCacheable s = false → st.2 = true.

Lemma put_keeps_locks k v l : keeps_locks (OpPut k v l).
Proof. by intros ino k' _ _ []. Qed.

Lemma yield_rules : EntryRules yields invalidated yield_buffer pages_known lock_neutral.
Proof.
  split; try done.
  - apply neutral_quiet.
  - by intros [| | | | | | | | | | |[]].
  - by intros [| | | | | | | | | | |[]].
  - intros n. split; [|done]. repeat constructor. apply put_keeps_locks.
  - intros cs os cs' os' H1 H2 pre. split; [|done]. apply Forall_app. split; [apply (H1 [])|apply (H2 [])].
  - intros ino os h m [Hi _]. split; [done|]. by intros k o ?%lookup_empty_Some.
  - intros ino p h m [_ H] _ pre. split; [|done]. apply Forall_forall. intros o [k Hk]%txn_op_owned. by eapply H.
  - intros s s' st Ho Hp. unfold pages_known, pagesCacheable. by rewrite Ho, Hp.
  - intros ino s st Hc Hg. split; [done|]. intros r Hp. destruct r; simpl in *; [by rewrite Hc in Hp|done|by rewrite Hc in Hp].
Qed.

Notation ykeeps := (keeps yields invalidated (entrywise yield_buffer pages_known)).
Notation ytriple := (triple yields invalidated).
Notation ywise := (entrywise yield_buffer pages_known).
Notation yrules := (entry_rules _ _ _ _ _ yield_rules).

Lemma ykeeps_alter ino f : (∀ e, buffer (f e) = buffer e) → ykeeps (alter_entry ino f).
Proof.
  intros Hf s st. apply (entrywise_alter _ _ _ _ _ yield_rules). intros e _ [H1 H2]. split; [done|].
  unfold entry_ops. by rewrite Hf.
Qed.

(** An invalidation that succeeds clears the inode. *)
Lemma ytriple_inval ino : ytriple ywise (invalidatePages ino) (λ r s st, ywise s st ∧ (r = Ok tt → cleared st ino)).
Proof.
  intros s st [H1 H2]. unfold invalidatePages. destruct (pagesCacheable s) eqn:Ep; cbn [negb].
  - split; [done|]. intros r. destruct (er_inval _ _ _ _ _ yield_rules ino s st Ep H2) as [_ Hg]. specialize (Hg r).
    destruct r; simpl; (split; [split; [exact H1|exact Hg]|]); intros E; try done; unfold cleared; simpl; [set_solver|by right].
  - split; [done|]. intros _. right. by apply H2.
Qed.

(** What an entry owes before its key may go. *)
Lemma ytriple_prepare ino : ytriple ywise (prepareDropLocked ino) (λ r s st, ywise s st ∧ (r = true → cleared st ino)).
Proof.
  unfold prepareDropLocked. apply triple_then; [apply keeps_get|]. intros e. apply triple_then.
  { apply keeps_if; [apply keeps_ret|]. apply triple_then; [apply (keeps_flushLocked _ _ _ _ yrules)|]. intros r.
    apply triple_then; [apply keeps_get|]. intros e'. apply keeps_ret. }
  intros []; cbn [negb]; [|by intros s st]. eapply triple_bind; [apply ytriple_inval|]. intros [[]|er] s st [Ho Hc]; (split; [done|]); [auto|done].
Qed.

Lemma ytriple_prepare_all inos :
  ytriple ywise (prepare_all inos) (λ ready s st, ywise s st ∧ ∀ ino, ino ∈ ready → cleared st ino ∧ ino ∈ inos).
Proof.
  induction inos as [|ino inos IH]; simpl.
  - intros s st Ho. split; [done|]. by intros ? ?%elem_of_nil.
  - eapply triple_bind; [apply ytriple_prepare|]. intros [].
    + eapply triple_pre; [|eapply triple_bind; [apply (triple_stable _ _ (λ st, cleared st ino)); [intros; by apply cleared_later|exact IH]|]].
      * intros s st [Ho Hc]. by split; [|apply Hc].
      * intros rest s st [[Ho Hr] Hc]. split; [done|]. intros i [->|Hi]%elem_of_cons; [split; [done|left]|]. destruct (Hr i Hi). split; [done|by right].
    + eapply triple_pre; [|eapply triple_bind; [exact IH|]]; [by intros s st [? _]|]. intros rest s st [Ho H]. split; [done|].
      intros i Hi. destruct (H i Hi). split; [done|by right].
Qed.

Lemma ykeeps_forget ino : ykeeps (alter_entry ino (λ e, set_meta None [] (forget_key e))).
Proof. by apply ykeeps_alter. Qed.

(** The key an entry gives up is its inode's. *)
Lemma ytriple_forgetKey ino : ytriple ywise (forgetKeyLocked ino) (λ o s st, ywise s st ∧ ∀ r, o = Some r → rel_ino r = ino).
Proof.
  unfold forgetKeyLocked. apply triple_then; [apply keeps_get|]. intros e. apply triple_then; [apply ykeeps_forget|]. intros _.
  apply triple_then; [apply keeps_if; [apply keeps_ret|apply (keeps_discard _ _ _ _ _ yield_rules)]|].
  intros _ s st Ho. split; [done|]. intros r. case_if; [|done]. by intros [= <-].
Qed.

Lemma ytriple_forget_all inos :
  ytriple ywise (forget_all inos) (λ owed s st, ywise s st ∧ ∀ r, r ∈ owed → rel_ino r ∈ inos).
Proof.
  induction inos as [|ino inos IH]; simpl.
  - intros s st Ho. split; [done|]. by intros ? ?%elem_of_nil.
  - intros s st Ho. unfold sbind at 1. apply obeys_bind. eapply obeys_mono; [|apply (ytriple_forgetKey ino s st Ho)].
    intros st1 [s1 o] [Ho1 Hr]. unfold sbind. apply obeys_bind. eapply obeys_mono; [|apply (IH s1 st1 Ho1)].
    intros st2 [s2 rest] [Ho2 Hrest]. cbn [fst snd sret obeys] in *. split; [done|]. intros r Hin.
    destruct o as [r0|]; [apply elem_of_cons in Hin as [->|Hin]; [rewrite (Hr r0 eq_refl); left|]|]; right; by apply Hrest.
Qed.

(** Keys of inodes without pages may be deleted. *)
Lemma ykeeps_deleteKeys owed : (∀ r, r ∈ owed → is_u64 (rel_ino r)) →
  ytriple (λ s st, ywise s st ∧ ∀ r, r ∈ owed → cleared st (rel_ino r)) (deleteKeys owed) (λ _, ywise).
Proof.
  intros Hu. unfold deleteKeys. eapply (triple_bind _ _ _ _ _ (λ _ s st, ywise s st ∧ ∀ r, r ∈ owed → cleared st (rel_ino r))); [|by intros r s st [? _]].
  apply (triple_retry _ _ _ (λ s st, ywise s st ∧ ∀ r, r ∈ owed → cleared st (rel_ino r))); [intros st i; by apply neutral_quiet|].
  apply triple_store. intros s st [_ Hc]. unfold ReleaseLocks. destruct owed as [|r0 owed0] eqn:Eo; [done|]. rewrite <- Eo in *.
  apply issues_ebind; [|intros a; by case_if].
  assert (∀ ifs, quiet yields invalidated st (QTxn ifs (map (λ r, OpDelete (release_key r) false) owed) [])) as Hq.
  { intros ifs. split; [|done]. split; [|by intros ? ? ? _ _ ?%elem_of_nil]. intros ino k o Hi Hk Ho Hd.
    apply list_elem_of_fmap in Ho as (r & -> & Hr). cbn [deletes op_touches] in Hd. apply bool_decide_eq_true in Hd as ->.
    unfold release_key in Hk. apply LockPrefix_isolated in Hk as ->; [by apply Hc|apply Hi|apply (Hu r Hr)]. }
  apply issues_TxnResponse; [|auto..]. intros. by apply neutral_quiet.
Qed.

(** A phase only grows. *)
Lemma ytriple_cleared {A} (M : Z → Prop) (c : svc A) P Q : ytriple P c Q →
  ytriple (λ s st, P s st ∧ ∀ ino, M ino → cleared st ino) c (λ a s st, Q a s st ∧ ∀ ino, M ino → cleared st ino).
Proof. apply (triple_stable _ _ (λ st, ∀ ino, M ino → cleared st ino)). intros st q r H ino Hm. by apply cleared_later, H. Qed.

Lemma ykeeps_dropCachedLocks inos : Forall is_u64 inos → ykeeps (dropCachedLocks inos).
Proof.
  intros Hu. unfold dropCachedLocks. eapply triple_bind; [apply ytriple_prepare_all|]. intros ready.
  intros s st [Ho Hr]. assert (∀ ino, ino ∈ ready → is_u64 ino) as Hru.
  { intros ino Hi. rewrite Forall_forall in Hu. by apply Hu, Hr. }
  revert s st Ho Hr. assert (ytriple (λ s st, ywise s st ∧ ∀ ino, ino ∈ ready → cleared st ino)
    (owed ⇠ forget_all ready; _ ⇠ (if bool_decide (owed = []) then sret tt else deleteKeys owed); sret ready) (λ _, ywise)) as H.
  { eapply triple_bind; [apply (ytriple_cleared (λ i, i ∈ ready)), ytriple_forget_all|]. intros owed s st [[Ho Hin] Hc].
    unfold sbind. apply obeys_bind. eapply obeys_mono with (Q := λ st' x, ywise x.1 st'); [by intros st' [s' []]|].
    case_bool_decide; [done|]. apply ykeeps_deleteKeys; [intros r Hi; by apply Hru, Hin|]. split; [done|]. intros r Hi. by apply Hc, Hin. }
  intros s st Ho Hr. apply H. split; [done|]. intros ino Hi. by apply Hr.
Qed.

(** ** Every operation of the lock cache *)

Lemma ykeeps_at {A} (c : svc A) s st : ykeeps c → ywise s st → obeys yields invalidated st (c s) (λ st' x, ywise x.1 st').
Proof. intros Hc. apply Hc. Qed.

Lemma ykeeps_dropCachedLock ino : is_u64 ino → ykeeps (dropCachedLock ino).
Proof. intros Hu. apply triple_then; [by apply ykeeps_dropCachedLocks; constructor|]. intros r. apply keeps_ret. Qed.

Lemma ykeeps_lock ino : ykeeps (lockExclusive ino).
Proof. by apply ykeeps_alter. Qed.
Lemma ykeeps_unlock ino : ykeeps (unlockExclusive ino).
Proof. by apply ykeeps_alter. Qed.

(** Requests about the session and the locks, with the state they change. *)
Lemma ykeeps_lstate {A B} (f : Service → prog (LockState * A)) (g : A → B) :
  (∀ s, issues lock_neutral (f s)) → ykeeps (λ s, x ⇐ f s; Ret (set_lstate x.1 s, g x.2)).
Proof.
  intros Hf s st Ho. apply obeys_bind, (obeys_neutral _ _ _ _ _ yield_rules); [apply Hf|]. intros [ls a].
  by apply (entrywise_same _ _ _ _ _ yield_rules s).
Qed.

Lemma ykeeps_issues {A} (f : Store → prog A) : (∀ s, issues lock_neutral (f s)) → ykeeps (with_store f).
Proof. apply (keeps_issues _ _ _ _ _ yield_rules). Qed.

Lemma ykeeps_yield ino : is_u64 ino → ykeeps (yieldCachedLock ino).
Proof.
  intros Hu s st Ho. unfold yieldCachedLock. destruct (entries s !! ino); [|done]. apply ykeeps_at; [|done].
  apply triple_then; [apply ykeeps_lock|]. intros _. apply triple_then; [by apply ykeeps_dropCachedLock|]. intros r.
  apply triple_then; [apply ykeeps_unlock|]. intros _. apply keeps_ret.
Qed.

Lemma ykeeps_forget_entry ino : ykeeps (forget_entry ino).
Proof.
  intros s st [H1 H2]. split; [|by apply (er_pages _ _ _ _ _ yield_rules s)]. simpl. intros i e He.
  apply lookup_delete_Some in He as [_ He]. by apply H1.
Qed.

Lemma ykeeps_yieldQuiet ino : is_u64 ino → ykeeps (yieldQuietCachedLock ino).
Proof.
  intros Hu s st Ho. unfold yieldQuietCachedLock. destruct (entries s !! ino) as [e|]; [|done]. case_if; [done|]. apply ykeeps_at; [|done].
  apply triple_then; [apply ykeeps_lock|]. intros _. apply triple_then; [by apply ykeeps_dropCachedLock|]. intros r.
  apply triple_then; [apply ykeeps_unlock|]. intros _. destruct r; [|apply keeps_ret].
  apply triple_then; [apply ykeeps_forget_entry|]. intros _. apply keeps_ret.
Qed.

Lemma ykeeps_now : ykeeps (lift (call QNow)).
Proof. apply (keeps_now _ _ _ _ yrules). Qed.

Lemma ykeeps_recall ino : is_u64 ino → ykeeps (recallLock ino).
Proof.
  intros Hu s st Ho. unfold recallLock. destruct (entries s !! ino); [|done]. apply ykeeps_at; [|done]. apply triple_then.
  - unfold handoverHold. apply triple_then; [apply ykeeps_now|]. intros now. apply triple_then; [apply keeps_get|]. intros e.
    apply triple_then; [by apply ykeeps_alter|]. intros _. apply keeps_ret.
  - intros _. by apply ykeeps_yield.
Qed.

Lemma ykeeps_releaseKey ino : is_u64 ino → ykeeps (releaseKeyLocked ino).
Proof.
  intros Hu. unfold releaseKeyLocked, sebind. eapply triple_bind; [apply ytriple_inval|]. intros [[]|er]; [|by intros s st [? _]].
  eapply triple_pre; [|eapply triple_bind; [apply (ytriple_cleared (λ i, i = ino)), (ytriple_forgetKey ino)|]].
  - intros s st [Ho Hc]. split; [done|]. intros i ->. by apply Hc.
  - intros [r|]; [|by intros s st [[? _] _]]. intros s st [[Ho Hr] Hc]. specialize (Hr r eq_refl). unfold sbind. apply obeys_bind.
    eapply obeys_mono with (Q := λ st' x, ywise x.1 st'); [by intros st' [s' []]|].
    apply ykeeps_deleteKeys; [by intros r' ->%list_elem_of_singleton; rewrite Hr|]. split; [done|].
    intros r' ->%list_elem_of_singleton. by apply Hc.
Qed.

(** The inodes of a service's entries are 64-bit numbers. *)
Lemma ywise_all s st : ywise s st → Forall is_u64 (all s).
Proof.
  intros [H _]. apply Forall_forall. intros ino Hi. unfold all in Hi. apply list_elem_of_fmap in Hi as ([i e] & -> & Hi).
  apply elem_of_map_to_list in Hi. by destruct (H i e Hi).
Qed.

Lemma ykeeps_release_entries inos : Forall is_u64 inos → ykeeps (release_entries inos).
Proof.
  induction 1 as [|ino inos Hu _ IH]; simpl; [apply keeps_ret|].
  apply triple_then; [apply ykeeps_lock|]. intros _. apply triple_then; [by apply ykeeps_dropCachedLock|]. intros r.
  apply triple_then.
  { destruct r; [apply keeps_ret|]. apply triple_then; [apply (keeps_discard _ _ _ _ _ yield_rules)|]. intros d.
    apply triple_then; [apply keeps_if; [by apply ykeeps_releaseKey|apply keeps_ret]|]. intros _. apply keeps_ret. }
  intros ok. apply keeps_if; [apply keeps_ret|]. apply triple_then; [apply ykeeps_unlock|]. intros _.
  apply triple_then; [apply ykeeps_forget_entry|]. intros _. apply IH.
Qed.

Lemma ykeeps_ReleaseCachedLocks : ykeeps ReleaseCachedLocks.
Proof. intros s st Ho. apply (ykeeps_release_entries (all s)); [by eapply ywise_all|done]. Qed.

Lemma ykeeps_tryLock ino : ykeeps (tryLockExclusive ino).
Proof. apply (keeps_tryLock _ _ _ _ yrules). Qed.

Lemma ytriple_claim cands n : Forall is_u64 cands →
  ytriple ywise (claim_loop_locks cands n) (λ v s st, ywise s st ∧ Forall is_u64 v).
Proof.
  intros Hc. revert n. induction Hc as [|ino cands Hu _ IH]; intros n; [by destruct n; intros s st|].
  destruct n as [|n]; [by intros s st|]. simpl. apply triple_then; [apply ykeeps_tryLock|]. intros []; [|apply IH].
  eapply triple_bind; [apply IH|]. intros rest s st [Ho Hr]. split; [done|]. by constructor.
Qed.

Lemma ykeeps_evict : ykeeps evictLocked.
Proof.
  intros s st Ho. unfold evictLocked, sbind at 1, gets. cbn [bind fst snd]. case_bool_decide; [done|].
  unfold claimVictimsLocked. unfold sbind at 2, gets. unfold sbind at 1. cbn [bind fst snd].
  apply obeys_bind. eapply obeys_mono; [|apply ytriple_claim; [|exact Ho]].
  - intros st1 [s1 victims] [Ho1 Hv]. cbn [fst snd] in *. case_bool_decide; [done|].
    apply ykeeps_at; [|done]. apply triple_then; [by apply ykeeps_dropCachedLocks|]. intros released.
    apply triple_then; [apply keeps_for_each; apply ykeeps_unlock|]. intros _. apply keeps_for_each, ykeeps_forget_entry.
  - apply Forall_forall. intros ino Hi. apply list_elem_of_fmap in Hi as ([i e] & -> & Hi).
    rewrite merge_sort_Permutation in Hi. apply elem_of_map_to_list in Hi. by destruct (proj1 Ho i e Hi).
Qed.

Lemma ykeeps_entryFor ino : is_u64 ino → ykeeps (entryFor ino).
Proof.
  intros Hu. unfold entryFor. apply triple_then; [apply keeps_get|]. intros s0. apply triple_then.
  - destruct (entries s0 !! ino); [apply keeps_ret|]. apply triple_then; [apply ykeeps_evict|]. intros _ s st [H1 H2].
    simpl. destruct (entries s !! ino) eqn:He; [done|]. split; [|by apply (er_pages _ _ _ _ _ yield_rules s)].
    simpl. intros i e [[<- <-]|[_ Hi]]%lookup_insert_Some; [|by apply H1].
    split; [done|]. intros k o Hk. cbn in Hk. by rewrite lookup_empty in Hk.
  - intros _. apply triple_then; [apply ykeeps_now|]. intros now. by apply ykeeps_alter.
Qed.

Lemma ykeeps_retry {A} (fn : svc (result A)) n : ykeeps fn → ykeeps (retry n fn).
Proof. apply triple_retry. intros st i. by apply neutral_quiet. Qed.

Lemma ykeeps_lockLocal ino m : ykeeps (lockLocal ino m).
Proof.
  apply ykeeps_retry. intros s st Ho. unfold try_local. destruct (entries s !! ino) as [e|] eqn:He; [|done]. case_if.
  - apply ykeeps_at; [|done]. apply triple_then; [apply ykeeps_tryLock|]. intros []; apply keeps_ret.
  - case_if; [done|]. destruct Ho as [H1 H2]. split; [|by apply (er_pages _ _ _ _ _ yield_rules s)].
    simpl. intros i e' [[<- <-]|[_ Hi]]%lookup_insert_Some; [|by apply H1]. apply (H1 ino e He).
Qed.

Lemma ykeeps_unlockLocal ino m : ykeeps (unlockLocal ino m).
Proof. apply keeps_if; by apply ykeeps_alter. Qed.

Lemma neutral_session ls ttl : issues lock_neutral (lockSession ls ttl).
Proof. by apply issues_lockSession. Qed.

Lemma ykeeps_acquire ino m : ykeeps (acquire_lock ino m).
Proof.
  apply (ykeeps_lstate (λ s, AcquireLock (store s) (lstate s) ino m inodeLockTTL) id). intros s. unfold AcquireLock.
  case_if; [done|]. apply issues_bind; [apply neutral_session|]. intros [ls [l|e]]; [|done]. apply issues_bind; [|by intros [[]|]].
  apply issues_Txn; [done|..]; intros; (split; [|done]); repeat constructor; apply put_keeps_locks.
Qed.

Lemma ykeeps_announce ino : ykeeps (announce_want ino).
Proof.
  apply (ykeeps_lstate (λ s, AnnounceLockWant (store s) (lstate s) ino) (λ _, tt)). intros s. unfold AnnounceLockWant.
  apply issues_bind; [apply neutral_session|]. intros [ls [l|e]]; [|done]. apply issues_bind; [by split; [|intros []]|done].
Qed.

Lemma ykeeps_heldBy ino m h : ykeeps (with_store (λ st, LockHeldBy st ino m h)).
Proof. apply (fr_held _ _ _ _ yrules). Qed.

Lemma ykeeps_adopt ino m attempted : ykeeps (adoptOwnLock ino m attempted).
Proof.
  induction attempted as [|h attempted IH]; simpl; [apply keeps_ret|].
  apply triple_then; [apply ykeeps_heldBy|]. by intros [[]|]; [apply keeps_ret|apply IH|apply keeps_ret].
Qed.

Lemma ykeeps_acquire_loop ino m fuel i attempted announced last :
  ykeeps (acquire_loop ino m fuel i attempted announced last).
Proof.
  revert i attempted announced last. induction fuel as [|fuel IH]; intros i attempted announced last; simpl; [apply keeps_ret|].
  apply triple_then; [apply ykeeps_adopt|]. intros [h|]; [apply keeps_ret|].
  apply triple_then; [apply ykeeps_acquire|]. intros [h [e|]]; [|apply keeps_ret]. cbn [fst snd].
  apply triple_then.
  { destruct e; try apply keeps_ret. apply triple_then; [apply ykeeps_announce|]. intros _. apply keeps_ret. }
  intros an. apply keeps_if; [apply keeps_ret|]. apply triple_then.
  - intros s st Ho. apply obeys_bind. split; [done|]. by intros r.
  - intros []; [apply keeps_ret|apply IH].
Qed.

Lemma want_keeps_locks ino n : keeps_locks (OpDelete (LockWantKey ino n) false).
Proof.
  intros ino' k _ Hk Hd. apply bool_decide_eq_true in Hd as ->.
  apply has_prefix_true in Hk as [t Ht]. vm_compute in Ht. discriminate Ht.
Qed.

Lemma ykeeps_acquireKey ino m : ykeeps (acquireLockKey ino m).
Proof.
  unfold acquireLockKey. apply triple_then; [apply ykeeps_acquire_loop|]. intros r. apply triple_then.
  - apply keeps_if; [|apply keeps_ret]. apply ykeeps_issues. intros s. split; [apply want_keeps_locks|by intros []].
  - intros _. apply keeps_ret.
Qed.

Lemma ykeeps_ensure ino m : is_u64 ino → ykeeps (ensureLockKey ino m).
Proof.
  intros Hu. unfold ensureLockKey. apply triple_then.
  { unfold check_session. apply triple_then; [apply keeps_get|]. intros e. apply keeps_if; [|apply keeps_ret].
    apply triple_then.
    - intros s st Ho. unfold session_lease. apply obeys_bind, (obeys_neutral _ _ _ _ _ yield_rules); [|done].
      unfold LockSessionLease. destruct (session (lstate s)); [|done]. by split.
    - intros l. apply keeps_if; [apply keeps_ret|apply (keeps_keyLost _ _ _ _ yrules)]. }
  intros _. apply triple_then; [apply keeps_get|]. intros e. apply keeps_if; [apply keeps_ret|].
  unfold sebind. apply triple_then; [apply keeps_if; [by apply ykeeps_releaseKey|apply keeps_ret]|].
  intros [[]|er]; [|apply keeps_ret]. apply triple_then; [apply ykeeps_acquireKey|]. intros [h|er]; [|apply keeps_ret].
  apply triple_then; [apply ykeeps_now|]. intros now. apply triple_then; [by apply ykeeps_alter|]. intros _. apply keeps_ret.
Qed.

Lemma ykeeps_lockInode ino m : is_u64 ino → ykeeps (lockInode ino m).
Proof.
  intros Hu. unfold lockInode. generalize entryRetries as fuel. intros fuel. induction fuel as [|fuel IH]; simpl; [apply keeps_ret|].
  apply triple_then; [by apply ykeeps_entryFor|]. intros _. unfold sebind. apply triple_then; [apply ykeeps_lockLocal|].
  intros [[]|e]; [|apply keeps_ret]. apply triple_then; [apply keeps_get|]. intros s0. apply keeps_if; [apply IH|].
  apply triple_then; [by apply ykeeps_ensure|]. intros [[]|e]; [apply keeps_ret|].
  apply triple_then; [apply ykeeps_unlockLocal|]. intros _. apply keeps_ret.
Qed.

Lemma ykeeps_dropLease l inos : ykeeps (drop_lease l inos).
Proof.
  induction inos as [|ino inos IH]; simpl; [apply keeps_ret|]. apply triple_then; [apply keeps_get|]. intros e.
  apply triple_then; [apply keeps_if; [apply (keeps_keyLost _ _ _ _ yrules)|apply keeps_ret]|]. intros _. apply IH.
Qed.

Lemma ykeeps_flushInode ino : is_u64 ino → ykeeps (flushInode ino).
Proof.
  intros Hu s st Ho. unfold flushInode. case_if; [done|]. apply ykeeps_at; [|done]. unfold sebind.
  apply triple_then; [by apply ykeeps_lockInode|]. intros [[]|e]; [|apply keeps_ret].
  apply triple_then; [apply (keeps_flushLocked _ _ _ _ yrules)|]. intros r. apply triple_then; [|intros; apply keeps_ret].
  unfold release. apply triple_then; [apply keeps_if; [by apply ykeeps_alter|apply keeps_ret]|]. intros _. apply ykeeps_unlockLocal.
Qed.

(** What a cache is like: entries of 64-bit inode numbers, whose buffers delete
    no lock key. *)
Definition cache_sane (s : Service) : Prop :=
  ∀ ino e, entries s !! ino = Some e → is_u64 ino ∧ ∀ k o, entry_ops e !! k = Some o → keeps_locks o.


(** ** A service with one buffered write *)

Lemma ordered_entry ino e : entries ordered_svc !! ino = Some e →
  ino = 7 ∧ mode e = LockExclusive ∧ entry_ops e = {[ ExtentKey 7 1 := put (ExtentKey 7 1) (Encode (mkExtent [] 1 0 0 (lit "n1") 0 8192 8192 0)) ]}.
Proof. intros He. unfold ordered_svc in He. simpl in He. apply lookup_singleton_Some in He as [<- <-]. by repeat split. Qed.

Lemma publications_hold_lock_witness : issues (commits_alone (holder_of ordered_svc)) (FlushAll ordered_svc).
Proof.
  refine (proj1 (proj2 (publications_hold_lock ordered_svc _))). intros ino e (-> & Hm & ->)%ordered_entry. split; [|done].
  intros k o [<- <-]%lookup_singleton_Some ino' k' Hi Hp Ht. apply bool_decide_eq_true in Ht as ->.
  unfold ExtentPrefix, ExtentKey in Hp. rewrite num_prefix_eqb in Hp by (done || by unfold is_u64; lia). by apply Z.eqb_eq in Hp.
Defined.

(** The same with pages in the kernel. *)
Definition paged_svc : Service :=
  mkService (mkOptions 1 1 1 true true false true) (lit "n1") false false true 0 (mkLockState None 0) NewAllocator
    (Some (mkDevice false 512 (2 ^ 40))) 1 8192 true (entries ordered_svc).

