(* ===== verification/FlushProps.v ===== *)
(** * Publishing a buffer

    A flush on a server and a device that answer publishes the buffer and
    leaves the cached extents at what the store then holds.  (FlushOrder has the
    order of bytes and records, LostReplies what a discarded buffer gives back.) *)

From S2P Require Import Prelude Etcd EtcdFacts Schema Store StoreLogic Locks Extents ExtentProps SchemaProps Allocator AllocatorProps ArenaPool InodeTimes Service DataPath ReadProps ReplayProps Delegate BufferProps FlushOrder.

(** ** A server that answers over a device that accepts writes *)

Definition device_writes (q : req) : resp q → Prop :=
  match q return resp q → Prop with
  | QIO (DevWrite _ _) => λ ok, ok = true
  | _ => λ _, True
  end.

Class WorkingDevice (E : Etcd) : Prop := device_accepts : ∀ q s, device_writes q (eserve q s).2.

#[global] Instance ref_device : WorkingDevice ref_etcd.
Proof. intros [| | | | | | | | | | |[]] s; done. Qed.

Definition exact_dev (q : req) (m m' : mvcc) (r : resp q) : Prop := etcd_exact q m m' r ∧ device_writes q r.

Abbreviation wpd p Q m := (wp exact_dev eq (λ _ _, True) p Q (m, tt)).

Lemma wp_answers {Γ A} (X X' : ∀ q : req, mvcc → mvcc → resp q → Prop) R G (p : prog A) Q (σ : mvcc * Γ) :
  (∀ q m m' r, X' q m m' r → X q m m' r) → wp X R G p Q σ → wp X' R G p Q σ.
Proof.
  intros HX. revert σ. induction p as [a|q k IH]; intros σ H; [exact H|].
  intros σ1 m2 r HR Hx. destruct (H σ1 m2 r HR (HX _ _ _ _ Hx)) as (g2 & ? & ?). eauto.
Qed.

Lemma wpd_of_wpx {A} (p : prog A) Q m : wpx p Q m → wpd p Q m.
Proof. apply wp_answers. by intros q m0 m' r [? _]. Qed.

Lemma wpd_run `{E : Etcd, !ReliableEtcd E, !WorkingDevice E} {A} (p : prog A) (Q : A → mvcc → Prop) s :
  wpd p (λ a σ, Q a σ.1) (eview s) → Q (run p s).2 (eview (run p s).1).
Proof.
  revert s. induction p as [a|q k IH]; simpl; intros s Hp; [by apply (Hp (eview s, tt))|].
  destruct (eserve q s) as [s' r] eqn:Es. apply IH.
  pose proof (etcd_answers q s) as Hd. pose proof (device_accepts q s) as Hw. rewrite Es in Hd, Hw.
  by destruct (Hp (eview s, tt) _ _ eq_refl (conj Hd Hw)) as ([] & _ & ?).
Qed.

Section answering.
Implicit Types (m : mvcc).

Lemma wpd_ret {A} (a : A) (Q : A → mvcc * unit → Prop) m : Q a (m, tt) → wpd (Ret a) Q m.
Proof. by intros ? σ1 <-. Qed.

Lemma wpd_bind {A B} (p : prog A) (f : A → prog B) Q m :
  wpd p (λ a σ, wpd (f a) Q σ.1) m → wpd (bind p f) Q m.
Proof. intros H. wpb. eapply wp_mono; [|exact H]. by intros a [m' []]. Qed.

Lemma wpd_ebind {A B} (p : prog (result A)) (f : A → prog (result B)) Q m :
  wpd p (λ r σ, match r with Ok a => wpd (f a) Q σ.1 | Err e => Q (Err e) σ end) m → wpd (ebind p f) Q m.
Proof. intros H. apply wpd_bind. eapply wp_mono; [|exact H]. by intros [a|e] [m' []]; [|apply wpd_ret]. Qed.

(** Device requests leave the store alone. *)
Lemma wpd_io i (Q : io_resp i → mvcc * unit → Prop) m :
  (∀ r, device_writes (QIO i) r → Q r (m, tt)) → wpd (call (QIO i)) Q m.
Proof. intros HQ σ1 m2 r <- [Hx Hd]. assert (m2 = m) as -> by by destruct i. exists tt. split; [done|]. intros σ3 <-. auto. Qed.

Lemma wpd_quiet {A} (p : prog A) (Q : A → mvcc * unit → Prop) m :
  issues is_io p → (∀ a, Q a (m, tt)) → wpd p Q m.
Proof.
  intros Hp HQ. induction p as [a|q k IH]; [by apply wpd_ret|]. destruct Hp as [Hq Hk]. destruct q; try done.
  intros σ1 m2 r <- [Hx Hd]. assert (m2 = m) as -> by by destruct i. exists tt. split; [done|]. by apply IH.
Qed.

(** ** Putting the bytes on the device *)

(** A run the device takes as it is. *)
Definition run_aligned (d : Device) (r : bufferedRun) : Prop :=
  direct d = true → b_off r mod sectorSize d = 0 ∧ b_len r mod sectorSize d = 0.

Lemma run_aligned_ok d r : run_aligned d r → misaligned d (b_off r) (b_len r) = false.
Proof. unfold run_aligned, misaligned. destruct (direct d); [|done]. intros [-> ->]; done. Qed.

Lemma coalesce_from_aligned d cur rs : 0 < sectorSize d →
  run_aligned d cur → Forall (run_aligned d) rs → Forall (run_aligned d) (coalesce_from cur rs).
Proof.
  intros Hs Hc Hrs. revert cur Hc. induction Hrs as [|r rs Hr _ IH]; intros cur Hc; simpl; [by apply Forall_singleton|].
  case_if; [|by constructor; [|apply IH]]. apply IH. intros Hd. destruct (Hc Hd) as [H1 H2], (Hr Hd) as [H3 H4].
  unfold b_len in *. simpl. rewrite length_app, Nat2Z.inj_add. split; [done|].
  rewrite Z.add_mod, H2, H4 by lia. by rewrite Z.mod_0_l by lia.
Qed.

Lemma coalesce_aligned d rs : 0 < sectorSize d → Forall (run_aligned d) rs → Forall (run_aligned d) (coalesce rs).
Proof. intros Hs [|r rs' Hr Hrs]; [constructor|]. by apply coalesce_from_aligned. Qed.

Lemma wpd_writeRun s d b off (Q : result unit → mvcc * unit → Prop) m :
  dev s = Some d → misaligned d off (Z.of_nat (length b)) = false → Q (Ok tt) (m, tt) → wpd (writeRun s b off) Q m.
Proof.
  intros Hd Hm HQ. unfold writeRun. rewrite Hd. apply wpd_ebind. unfold WriteAt. rewrite Hm.
  apply wpd_bind, wpd_io. intros r Hr. simpl in Hr. subst r. apply wpd_ret. cbn [fst].
  case_if; [by apply wpd_ret|].
  apply wpd_bind, wpd_quiet; [apply io_FlushDevice|]. intros _.
  apply wpd_bind, wpd_io. intros _ _. apply wpd_bind, wpd_quiet; [apply io_ioBuffer|]. intros x.
  apply wpd_bind, wpd_quiet; [apply io_ReadAt|]. intros _. by apply wpd_ret.
Qed.

Lemma wpd_write_groups s d gs (Q : option err → mvcc * unit → Prop) m :
  dev s = Some d → Forall (run_aligned d) gs → Q None (m, tt) → wpd (write_groups s gs) Q m.
Proof.
  intros Hd Hgs. revert Q. induction Hgs as [|g gs Hg _ IH]; intros Q HQ; simpl; [by apply wpd_ret|].
  apply wpd_bind. eapply wpd_writeRun; [done|by apply run_aligned_ok|].
  apply wpd_bind, IH. by apply wpd_ret.
Qed.

(** ** The state of one entry *)

Lemma get_entry_is s ino e : entries s !! ino = Some e → get_entry ino s = Ret (s, e).
Proof. unfold get_entry, gets. by intros ->. Qed.

Lemma alter_entry_is s ino f : alter_entry ino f s = Ret (set_entries (alter f ino (entries s)) s, tt).
Proof. done. Qed.

(** What an operation on one inode's buffer leaves alone. *)
Definition same_node (s s' : Service) : Prop :=
  opts s' = opts s ∧ node s' = node s ∧ local s' = local s ∧ genInit s' = genInit s ∧ startGen s' = startGen s ∧ dev s' = dev s ∧
  alloc s' = alloc s.

Lemma wpd_flushData s d ino e p (Q : Service * result unit → mvcc * unit → Prop) m :
  dev s = Some d → 0 < sectorSize d → entries s !! ino = Some e → buffer e = Some p → Forall (run_aligned d) (data p) →
  (∀ s', same_node s s' → entries s' !! ino = Some (set_buffer (Some (set_data [] p)) e) → Q (s', Ok tt) (m, tt)) →
  wpd (flushData ino s) Q m.
Proof.
  intros Hd Hsec He Hb Hal HQ. unfold flushData, sbind. rewrite (get_entry_is _ _ _ He). cbn [bind fst snd].
  rewrite Hb. destruct (data p) as [|r rs] eqn:Edata.
  { apply wpd_ret, HQ; [done|]. rewrite He. by destruct e, p; simplify_eq/=. }
  set (sorted := merge_sort off_le (r :: rs)).
  assert (Forall (run_aligned d) (coalesce sorted)) as Hco.
  { apply coalesce_aligned; [done|]. unfold sorted. by rewrite merge_sort_Permutation. }
  rewrite alter_entry_is. cbn [bind fst snd]. apply wpd_bind, wpd_bind, wpd_quiet; [apply io_group_buffers|]. intros _.
  apply wpd_bind. eapply wpd_write_groups; [exact Hd|done|]. apply wpd_ret. cbn [fst snd].
  rewrite alter_entry_is. cbn [bind]. apply wpd_ret, HQ; [done|].
  simpl. by rewrite lookup_alter_eq, lookup_alter_eq, He.
Qed.

Lemma wpd_propose s d ino e p (Q : Service * result (option (list cmp * list op)) → mvcc * unit → Prop) m :
  dev s = Some d → 0 < sectorSize d → entries s !! ino = Some e → buffer e = Some p → Forall (run_aligned d) (data p) →
  holder e ≠ [] →
  (∀ s', same_node s s' → entries s' !! ino = Some (set_buffer (Some (set_data [] p)) e) →
     Q (s', Ok (Some ((txn p).1 ++ [key_exists (LockKey ino (mode e) (holder e))], (txn p).2))) (m, tt)) →
  wpd (proposeFlushLocked ino s) Q m.
Proof.
  intros Hd Hsec He Hb Hal Hh HQ. unfold proposeFlushLocked, sbind. rewrite (get_entry_is _ _ _ He). cbn [bind fst snd].
  unfold held. rewrite bool_decide_eq_false_2 by done. cbn [negb].
  apply wpd_bind. eapply wpd_flushData; [done..|]. intros s' Hs' He'. cbn [fst snd].
  rewrite (get_entry_is _ _ _ He'). cbn [bind fst snd sret]. apply wpd_ret. by apply HQ.
Qed.

(** The generation is known and current, so that the commit is one request. *)
Lemma wpd_commitGuarded s cs os (Q : Service * result commit → mvcc * unit → Prop) m :
  genInit s = true → guard_current (store s) m → txn_valid m (wire_cmps (store s) cs) os [] = true →
  forallb (eval_cmp (mkvs m)) cs = true →
  Q (s, Ok (mkCommit true false (mrev (mvcc_ops m os).1))) ((mvcc_ops m os).1, tt) →
  wpd (commitGuarded cs os s) Q m.
Proof.
  intros Hg Hc Hv He HQ. unfold commitGuarded, sebind, sbind, guardGeneration. rewrite Hg. cbn [bind fst snd].
  apply wpd_bind. unfold retryEtcd, retry. cbn [retry_from etcdAttempts]. unfold with_store.
  apply wpd_bind, wpd_bind, wpd_of_wpx, wpx_TxnRev; [done|done| |by rewrite He].
  intros _. cbn [fst]. apply wpd_ret. cbn [fst snd]. unfold sret. by apply wpd_ret, wpd_ret.
Qed.
End answering.

(** ** A flush publishes *)

(** The node's side of a delegation: the buffer [p] of [ino] is the node's,
    under an exclusive key that etcd still holds, the comparisons it collected
    hold, and the cached extents are the buffer's view. *)
Record delegated (s : Service) (m : mvcc) (ino : Z) (e : lockEntry) (p : pending) (rec : option InodeRecord) : Prop := {
  dg_entry : entries s !! ino = Some e;
  dg_buffer : buffer e = Some p;
  dg_some : order p ≠ [];
  dg_size : Z.of_nat (length (order p)) <= maxWriteTxnOps;
  dg_holder : holder e ≠ [];
  dg_key : is_Some (mkvs m !! LockKey ino (mode e) (holder e));
  dg_ops : buffer_of ino p;
  dg_noleases : ∀ k v l, OpPut k v l ∈ (txn p).2 → l = 0;
  dg_cmps : forallb (eval_cmp (mkvs m)) (txn p).1 = true;
  dg_meta : meta e = Some (mkMeta rec (pending_view ino m p)) ∧ metaFor e = holder e;
}.

Definition freed (a : Allocator) (ps : list reclaimPlan) : Allocator :=
  foldl (λ a p, if 0 <? freeLen p then Free a (freeOff p) (freeLen p) else a) a ps.

Lemma free_plans_is ps s : free_plans ps s = Ret (set_alloc (freed (alloc s) ps) s, tt).
Proof.
  revert s. induction ps as [|p ps IH]; intros s; simpl; [by destruct s|].
  unfold sbind, freeReclaimed. case_if; simpl; rewrite IH; by destruct s.
Qed.

Lemma flushCommitted_is s ino e p revs :
  entries s !! ino = Some e → buffer e = Some p →
  ∃ s', flushCommitted ino revs s = Ret (s', tt) ∧ alloc s' = freed (alloc s) (plans p) ∧
    entries s' !! ino = Some (set_buffer (Some (reset p))
      match meta e with
      | None => e
      | Some mt => set_meta (Some (mkMeta (m_rec mt) (map (update_rev revs) (m_extents mt)))) (metaFor e) e
      end).
Proof.
  intros He Hb. unfold flushCommitted, sbind. rewrite (get_entry_is _ _ _ He). cbn [bind fst snd]. rewrite Hb.
  rewrite alter_entry_is. cbn [bind fst snd]. rewrite free_plans_is. cbn [bind fst snd].
  unfold bufferAccounted, modify. cbn [bind fst snd]. rewrite alter_entry_is. eexists. split; [done|]. split; [done|].
  simpl. rewrite !lookup_alter_eq, He. simpl. by destruct (meta e).
Qed.

(** C11. A buffer is published: on a server and a device that answer, flushing
    an inode's buffer under its lock key succeeds, leaves the store where the
    buffered operations lead, gives back the blocks the writes buried, empties
    the buffer, and the extents cached for the inode are then exactly those a
    reader decodes from the store. *)
Theorem buffer_flush_publishes `{E : Etcd, !ReliableEtcd E, !WorkingDevice E} s srv ino e p rec d
  (Hino : is_u64 ino) (Hwf : mvcc_wf (eview srv)) (Hcan : canonical ino (eview srv))
  (Hd : dev s = Some d) (Hsec : 0 < sectorSize d) (Hal : Forall (run_aligned d) (data p))
  (Hgen : genInit s = true) (Hguard : guard_current (store s) (eview srv))
  (Hdel : delegated s (eview srv) ino e p rec) :
  let x := run (flushLocked ino s) srv in
  let m' := (mvcc_ops (eview srv) (txn p).2).1 in
  x.2.2 = Ok tt ∧ eview x.1 = m' ∧ alloc x.2.1 = freed (alloc s) (plans p) ∧
  ∃ e', entries x.2.1 !! ino = Some e' ∧ pending_empty (buffer e') = true ∧ holder e' = holder e ∧
    metaFor e' = holder e ∧ meta e' = Some (mkMeta rec (extents_of ino m')).
Proof.
  destruct Hdel as [He Hb Hsome Hsize Hh Hkey Hops Hnl Hcmps [Hmeta Hfor]]. set (m := eview srv) in *.
  intros x m'. unfold x, m'.
  apply (wpd_run (flushLocked ino s) (λ a m1, a.2 = Ok tt ∧ m1 = (mvcc_ops m (txn p).2).1 ∧
    alloc a.1 = freed (alloc s) (plans p) ∧ ∃ e', entries a.1 !! ino = Some e' ∧ pending_empty (buffer e') = true ∧
    holder e' = holder e ∧ metaFor e' = holder e ∧ meta e' = Some (mkMeta rec (extents_of ino (mvcc_ops m (txn p).2).1)))).
  fold m. unfold flushLocked, sbind. rewrite (get_entry_is _ _ _ He). cbn [bind fst snd]. rewrite Hb. unfold pending_empty at 1.
  rewrite bool_decide_eq_false_2 by done. unfold sebind, sbind. apply wpd_bind.
  eapply wpd_propose; [done..|]. intros s1 Hs1 He1. cbn [fst snd]. destruct Hs1 as (Eo & En & El & Eg & Es & Ed & Eal).
  assert (store s1 = store s) as Est by (unfold store; by rewrite En, El, Eg, Es).
  apply wpd_bind. apply wpd_commitGuarded.
  - by rewrite Eg.
  - by rewrite Est.
  - apply txn_valid_small; [by apply txn_distinct, Hops| | |].
    + pose proof (txn_length p) as [Hl _]. rewrite length_app. cbn [length]. unfold maxWriteTxnOps in Hsize. lia.
    + pose proof (txn_length p) as [_ Hl]. unfold maxWriteTxnOps in Hsize. lia.
    + apply Forall_forall. intros [k v l|k pr] Hin; [|done]. by rewrite (Hnl _ _ _ Hin).
  - rewrite forallb_app, Hcmps. simpl. rewrite andb_true_r. by apply eval_key_exists.
  - cbn [fst snd by_fence committed negb crev].
    destruct (flushCommitted_is s1 ino _ _ (put_revs (txn p).2 (mrev (mvcc_ops m (txn p).2).1)) He1 eq_refl)
      as (s2 & Ef & Ea & Ee). rewrite Ef. cbn [bind fst snd]. apply wpd_ret. cbn [fst snd].
    split; [done|]. split; [done|]. split; [by rewrite Ea, Eal|]. eexists. split; [exact Ee|]. simpl. rewrite Hmeta. simpl.
    split; [done|]. split; [done|]. split; [done|]. f_equal. f_equal. by apply view_published.
Qed.

(** A node that has buffered an overwrite of its one published block. *)
Lemma canonical_puts ino m os :
  canonical ino m →
  Forall (λ o, match o with
               | OpPut k _ _ => has_prefix (ExtentPrefix ino) k = false ∨ ∃ c, is_u64 c ∧ k = ExtentKey ino c
               | OpDelete _ _ => True end) os → canonical ino (mvcc_ops m os).1.
Proof.
  intros Hcan Hops k e Hk Hp. rewrite mvcc_ops_kvs in Hk. apply apply_ops_lookup in Hk as [Hk|(_ & Hin & _)]; [eauto|].
  rewrite Forall_forall in Hops. destruct (Hops _ Hin) as [H|?]; [by rewrite H in Hp|done].
Qed.

Definition fl_holder : bytes := lit "n1/64/1".
Definition fl_extent (chunk seq disk : Z) : Extent := mkExtent [] chunk 0 seq (lit "n1") 0 disk 4096 0.
Definition fl_store : mvcc :=
  (mvcc_ops empty_store
     [put (GenKey (lit "n1")) (fmt_uint 0); put (LockKey 7 LockExclusive fl_holder) [1];
      put (InodeKey 7) (EncodeInode (demo_rec 4096)); put (ExtentKey 7 0) (Encode (fl_extent 0 0 8192))]).1.
Definition fl_buffer : pending :=
  add_runs [mkBuffered 12288 (replicate 4096 9)] [mkRun 12288 4096]
    (add no_pending 5 [key_absent (ExtentKey 7 1); mod_is (ExtentKey 7 0) 2]
       [put (ExtentKey 7 1) (Encode (fl_extent 1 1 12288)); OpDelete (ExtentKey 7 0) false]
       [mkPlan (mod_is (ExtentKey 7 0) 2) [OpDelete (ExtentKey 7 0) false] 8192 4096] 4096).
Definition fl_entry : lockEntry :=
  mkEntry 7 true 0 LockExclusive fl_holder 100 0 0 (Some (mkMeta (Some (demo_rec 4096)) (pending_view 7 fl_store fl_buffer)))
    fl_holder 0 (Some fl_buffer) 0.
Definition fl_alloc : Allocator := mkAllocator [markAllocated (markAllocated (new_arena 0) 2) 3] 0 0.
Definition fl_svc : Service := set_alloc fl_alloc (set_entries {[ 7 := fl_entry ]} demo_svc).

Lemma fl_delegated : delegated fl_svc fl_store 7 fl_entry fl_buffer (Some (demo_rec 4096)).
Proof.
  split; [by apply lookup_singleton_eq|done|by vm_compute|by vm_compute|done| | | |by vm_compute|done].
  - vm_compute. eauto.
  - assert (buffer_of 7 (add no_pending 5 [key_absent (ExtentKey 7 1); mod_is (ExtentKey 7 0) 2]
       [put (ExtentKey 7 1) (Encode (fl_extent 1 1 12288)); OpDelete (ExtentKey 7 0) false]
       [mkPlan (mod_is (ExtentKey 7 0) 2) [OpDelete (ExtentKey 7 0) false] 8192 4096] 4096)) as [[? ? ? ?] ?].
    { apply add_buffer_of; [split; [apply no_pending_wf|intros k o Ho; simpl in Ho; by rewrite lookup_empty in Ho]|].
      repeat first [apply Forall_nil_2 | apply Forall_cons_2];
        [right; exists 1|split; [done|exists 0]]; (split; [unfold is_u64; lia|done]). }
    split; [by split|done].
  - intros k v l Hin. vm_compute in Hin. repeat (apply elem_of_cons in Hin as [Hin|Hin]; [by simplify_eq|]).
    by apply elem_of_nil in Hin.
Qed.

Lemma buffer_flush_publishes_witness :
  let x := @run ref_etcd _ (flushLocked 7 fl_svc) (RefSrv fl_store 0) in
  x.2.2 = Ok tt ∧ (DiskOff <$> extents_of 7 (rs_store x.1)) = [12288] ∧
  (λ ar, (isFree ar 2, isFree ar 3)) <$> arenas (alloc x.2.1) = [(true, false)].
Proof.
  intros x. destruct (@buffer_flush_publishes ref_etcd _ _ fl_svc (RefSrv fl_store 0) 7 fl_entry fl_buffer (Some (demo_rec 4096))
    (mkDevice false 512 (2 ^ 40))) as (H1 & H2 & H3 & _).
  - unfold is_u64; lia.
  - apply mvcc_ops_wf, empty_store_wf.
  - apply canonical_puts; [apply canonical_empty|]. repeat first [apply Forall_nil_2 | apply Forall_cons_2];
      try (by left; vm_compute). right. exists 0. split; [unfold is_u64; lia|done].
  - done.
  - simpl. lia.
  - apply Forall_singleton. by intros ?.
  - done.
  - split; [unfold is_u64; simpl; lia|]. eexists. split; [by vm_compute|done].
  - apply fl_delegated.
  - split; [exact H1|]. split.
    + unfold x. replace (rs_store _) with ((mvcc_ops fl_store (txn fl_buffer).2).1) by (symmetry; exact H2). by vm_compute.
    + unfold x. rewrite H3. by vm_compute.
Defined.
