(* ===== verification/Wire.v ===== *)
(** * The IPC wire format

    Models internal/ipc/errno.go and the framing, payload readers, writers and
    response helpers of internal/ipc/socket.go, with the table of operations.
    A stream of bytes is a list; what [io.ReadFull] leaves unread is the rest of
    the list. *)

From S2P Require Import Prelude Etcd Schema.

(** ** Error numbers *)

Definition errPerm : Z := -1.
Definition errNoEnt : Z := -2.
Definition errIO : Z := -5.
Definition errNXIO : Z := -6.
Definition err2Big : Z := -7.
Definition errNoMem : Z := -12.
Definition errAgain : Z := -11.
Definition errExist : Z := -17.
Definition errNotDir : Z := -20.
Definition errIsDir : Z := -21.
Definition errInval : Z := -22.
Definition errNoSpace : Z := -28.
Definition errROFS : Z := -30.
Definition errNoSys : Z := -38.
Definition errNotEmpty : Z := -39.
Definition errNoData : Z := -61.
Definition errNotSupp : Z := -95.

(** [errnoFor] (handlers.go). *)
Definition errnoFor (e : err) (fallback : Z) : Z :=
  match e with
  | ErrFenced | ErrGuardUnavailable => errIO
  | ErrExists => errExist
  | ErrNotFound => errNoEnt
  | ErrNotDir => errNotDir
  | ErrIsDir => errIsDir
  | ErrInvalid => errInval
  | ErrNotEmpty => errNotEmpty
  | ErrPerm => errPerm
  | ErrNoData => errNoData
  | ErrTooBig => err2Big
  | _ => fallback
  end.

(** [errnoForWrite] (datapath.go). *)
Definition errnoForWrite (e : err) : Z := match e with ErrUnaligned => errNoMem | _ => errIO end.

(** ** Frames *)

Definition maxFrameLen : Z := 2 ^ 20 + 28.

(** [None]: the stream ended or the frame is over the limit; the connection is
    given up either way. *)
Definition recvReq (stream : bytes) : option (Z * bytes * bytes) :=
  if bool_decide (length stream < 6)%nat then None
  else
    let '(op, rest) := getn 2 stream in
    let '(plen, rest) := getn 4 rest in
    if maxFrameLen <? plen then None
    else if bool_decide (length rest < Z.to_nat plen)%nat then None
    else Some (op, take (Z.to_nat plen) rest, drop (Z.to_nat plen) rest).

Definition sendResp (data : bytes) : bytes := be 4 (wrap32 (Z.of_nat (length data))) ++ data.

(** ** Payload readers *)

(** Once a read has run past the end, [r_ok] stays false. *)
Record reader := mkReader { r_b : bytes; r_ok : bool }.
Definition newReader (payload : bytes) : reader := mkReader payload true.

(** [n] is never negative here: lengths are read as 32-bit unsigned numbers. *)
Definition take_n (n : Z) (r : reader) : option bytes * reader :=
  if negb (r_ok r) || (n <? 0) || (Z.of_nat (length (r_b r)) <? n) then (None, mkReader (r_b r) false)
  else (Some (take (Z.to_nat n) (r_b r)), mkReader (drop (Z.to_nat n) (r_b r)) true).

Definition u32 (r : reader) : Z * reader :=
  let '(b, r) := take_n 4 r in (match b with Some b => be_decode b | None => 0 end, r).
Definition u64 (r : reader) : Z * reader :=
  let '(b, r) := take_n 8 r in (match b with Some b => be_decode b | None => 0 end, r).
(** [str] and [blob]: a length, then that many bytes. *)
Definition str (r : reader) : bytes * reader :=
  let '(n, r) := u32 r in let '(b, r) := take_n n r in (default [] b, r).
Definition blob (r : reader) : bytes * reader :=
  let '(n, r) := u32 r in let '(b, r) := take_n n r in (default [] b, r).

(** ** Payload writers *)

Definition w32 (v : Z) : bytes := be 4 (wrap32 v).
Definition w64 (v : Z) : bytes := be 8 (wrap64 v).

Definition wAttr (rec : InodeRecord) : bytes :=
  w64 (Ino rec) ++ w64 (Size rec) ++ w64 (Blocks rec) ++
  w64 (Unix (Atime rec)) ++ w64 (Unix (Mtime rec)) ++ w64 (Unix (Ctime rec)) ++
  w32 (Nanosecond (Atime rec)) ++ w32 (Nanosecond (Mtime rec)) ++ w32 (Nanosecond (Ctime rec)) ++
  w32 (Mode rec) ++ w32 (Nlink rec) ++ w32 (UID rec) ++ w32 (GID rec) ++ w32 (Rdev rec) ++ w32 (Blksize rec).

(** ** Responses *)

Definition int32Resp (v : Z) : bytes := w32 v.
Definition okResp : bytes := int32Resp 0.
Definition openResp (keepCache : bool) : bytes := w32 0 ++ w32 (if keepCache then 1 else 0).
Definition writtenResp (written : Z) : bytes := w32 0 ++ w32 written.
Definition dataResp (data : bytes) : bytes := w32 0 ++ w32 (Z.of_nat (length data)) ++ data.
Definition lseekResp (offset : Z) : bytes := w32 0 ++ w64 offset.
Definition statfsResp (blocks bfree files ffree : Z) : bytes :=
  w32 0 ++ w64 blocks ++ w64 bfree ++ w64 bfree ++ w64 files ++ w64 ffree ++ w32 4096 ++ w32 255 ++ w32 4096.

(** A [time.Time] that was never set is the year 1. *)
Definition zero_time : Z := -62135596800 * nanos.
Definition zero_rec (ino : Z) : InodeRecord := mkInode ino 0 0 0 0 0 0 0 0 0 zero_time zero_time zero_time.

Definition entryResp (entryTimeout attrTimeout : Z) (ino : Z) (rec : option InodeRecord) : bytes :=
  w32 0 ++ w64 ino ++ wAttr (default (zero_rec ino) rec) ++ w32 entryTimeout ++ w32 attrTimeout.
Definition createResp (entryTimeout attrTimeout : Z) (ino : Z) (rec : option InodeRecord) (keepCache : bool) : bytes :=
  entryResp entryTimeout attrTimeout ino rec ++ (if keepCache then [0; 0; 0; 1] else [0; 0; 0; 0]).
Definition negativeEntryResp (entryTimeout : Z) : bytes :=
  w32 0 ++ w64 0 ++ wAttr (zero_rec 0) ++ w32 entryTimeout ++ w32 0.
Definition attrResp (attrTimeout : Z) (rec : InodeRecord) : bytes := w32 0 ++ wAttr rec ++ w32 attrTimeout.

(** The error number a response starts with. *)
Definition resp_errno (b : bytes) : Z :=
  let v := (u32 (newReader b)).1 in if v <? 2 ^ 31 then v else v - 2 ^ 32.

(** ** Operations *)

Inductive opcode :=
| ipcOpLookup | ipcOpGetattr | ipcOpReaddir | ipcOpReadlink | ipcOpCreate | ipcOpMkdir | ipcOpUnlink | ipcOpRmdir
| ipcOpRename | ipcOpSymlink | ipcOpLink | ipcOpSetattr | ipcOpOpen | ipcOpRelease | ipcOpOpendir | ipcOpReleasedir
| ipcOpStatfs | ipcOpAlloc | ipcOpCommit | ipcOpRead | ipcOpWrite | ipcOpFsync | ipcOpMknod | ipcOpFlush
| ipcOpReadDirPlus | ipcOpSetxattr | ipcOpGetxattr | ipcOpListxattr | ipcOpRemovexattr | ipcOpLseek | ipcOpFallocate.
#[global] Instance opcode_eq_dec : EqDecision opcode.
Proof. solve_decision. Defined.

Definition code_of (o : opcode) : Z :=
  match o with
  | ipcOpLookup => 1 | ipcOpGetattr => 2 | ipcOpReaddir => 3 | ipcOpReadlink => 4 | ipcOpCreate => 5
  | ipcOpMkdir => 6 | ipcOpUnlink => 7 | ipcOpRmdir => 8 | ipcOpRename => 9 | ipcOpSymlink => 10
  | ipcOpLink => 11 | ipcOpSetattr => 12 | ipcOpOpen => 13 | ipcOpRelease => 14 | ipcOpOpendir => 15
  | ipcOpReleasedir => 16 | ipcOpStatfs => 17 | ipcOpAlloc => 18 | ipcOpCommit => 19 | ipcOpRead => 22
  | ipcOpWrite => 23 | ipcOpFsync => 24 | ipcOpMknod => 25 | ipcOpFlush => 26 | ipcOpReadDirPlus => 29
  | ipcOpSetxattr => 30 | ipcOpGetxattr => 31 | ipcOpListxattr => 32 | ipcOpRemovexattr => 33
  | ipcOpLseek => 34 | ipcOpFallocate => 35
  end.

(** [ops]: every operation with an entry in the table. *)
Definition ops_table : list opcode :=
  [ipcOpLookup; ipcOpGetattr; ipcOpReaddir; ipcOpReadDirPlus; ipcOpReadlink; ipcOpStatfs; ipcOpRead; ipcOpCreate;
   ipcOpMkdir; ipcOpUnlink; ipcOpRmdir; ipcOpRename; ipcOpWrite; ipcOpSetattr; ipcOpSymlink; ipcOpLink; ipcOpMknod;
   ipcOpSetxattr; ipcOpGetxattr; ipcOpListxattr; ipcOpRemovexattr; ipcOpLseek; ipcOpFallocate; ipcOpOpen; ipcOpOpendir;
   ipcOpRelease; ipcOpReleasedir; ipcOpFlush; ipcOpFsync; ipcOpAlloc; ipcOpCommit].

Definition find_op (code : Z) : option opcode := list_find (λ o, code_of o = code) ops_table ≫= λ x, Some x.2.

Definition mutatingOps (o : opcode) : bool :=
  match o with
  | ipcOpCreate | ipcOpMkdir | ipcOpUnlink | ipcOpRmdir | ipcOpRename | ipcOpSymlink | ipcOpLink | ipcOpMknod
  | ipcOpSetattr | ipcOpWrite | ipcOpSetxattr | ipcOpRemovexattr | ipcOpFallocate | ipcOpOpen => true
  | _ => false
  end.
