(* ===== verification/WireProps.v ===== *)
(** * The wire format is lossless

    The readers of internal/ipc/socket.go against its writers: a payload is a
    list of fields, and what the handlers read back is what was written, no more
    and no less; a payload cut short anywhere is refused. *)

From S2P Require Import Prelude Etcd Schema Wire.

(** ** Payloads *)

Inductive field := F32 (v : Z) | F64 (v : Z) | FBytes (b : bytes).

Definition field_ok (f : field) : Prop :=
  match f with
  | F32 v => 0 <= v < 2 ^ 32
  | F64 v => is_u64 v
  | FBytes b => Z.of_nat (length b) < 2 ^ 32
  end.

Definition write_field (f : field) : bytes :=
  match f with F32 v => w32 v | F64 v => w64 v | FBytes b => w32 (Z.of_nat (length b)) ++ b end.
Definition write_fields (fs : list field) : bytes := concat (map write_field fs).

(** Reading with the same layout; the values of the template are not used. *)
Definition read_field (like : field) (r : reader) : field * reader :=
  match like with
  | F32 _ => let '(v, r) := u32 r in (F32 v, r)
  | F64 _ => let '(v, r) := u64 r in (F64 v, r)
  | FBytes _ => let '(b, r) := str r in (FBytes b, r)
  end.
Fixpoint read_fields (like : list field) (r : reader) : list field * reader :=
  match like with
  | [] => ([], r)
  | k :: ks => let '(f, r) := read_field k r in let '(fs, r) := read_fields ks r in (f :: fs, r)
  end.

Lemma take_n_app b rest : take_n (Z.of_nat (length b)) (mkReader (b ++ rest) true) = (Some b, mkReader rest true).
Proof.
  unfold take_n. simpl. rewrite length_app, Nat2Z.inj_add, Nat2Z.id, take_app_length, drop_app_length.
  rewrite (proj2 (Z.ltb_ge _ _)), (proj2 (Z.ltb_ge _ _)) by lia. done.
Qed.

Lemma take_n_short n b : Z.of_nat (length b) < n → take_n n (mkReader b true) = (None, mkReader b false).
Proof. intros H. unfold take_n. simpl. by rewrite (proj2 (Z.ltb_lt (Z.of_nat _) n)), orb_true_r by lia. Qed.

Lemma length_w32 v : length (w32 v) = 4%nat.
Proof. apply length_be. Qed.
Lemma length_w64 v : length (w64 v) = 8%nat.
Proof. apply length_be. Qed.

Lemma u32_w32 v rest : 0 <= v < 2 ^ 32 → u32 (mkReader (w32 v ++ rest) true) = (v, mkReader rest true).
Proof.
  intros Hv. unfold u32. change 4 with (Z.of_nat 4). rewrite <- (length_w32 v), take_n_app. unfold w32.
  rewrite be_decode_be. unfold wrap32. f_equal. rewrite !Z.mod_small; [done|done|rewrite Z.mod_small; done].
Qed.
Lemma u64_w64 v rest : is_u64 v → u64 (mkReader (w64 v ++ rest) true) = (v, mkReader rest true).
Proof.
  intros Hv. unfold u64. change 8 with (Z.of_nat 8). rewrite <- (length_w64 v), take_n_app. unfold w64.
  rewrite be_decode_be. unfold is_u64 in *. unfold wrap64. f_equal. rewrite !Z.mod_small; [done|done|rewrite Z.mod_small; done].
Qed.

Lemma read_field_app f rest :
  field_ok f → read_field f (mkReader (write_field f ++ rest) true) = (f, mkReader rest true).
Proof.
  intros Hf. destruct f as [v|v|b]; cbn [read_field write_field field_ok] in *.
  - by rewrite u32_w32.
  - by rewrite u64_w64.
  - unfold str. by rewrite <- app_assoc, u32_w32, take_n_app by lia.
Qed.

Lemma read_fields_app fs rest :
  Forall field_ok fs → read_fields fs (mkReader (write_fields fs ++ rest) true) = (fs, mkReader rest true).
Proof.
  induction 1 as [|f fs Hf Hfs IH]; [done|]. unfold write_fields in *. cbn [map concat read_fields].
  by rewrite <- app_assoc, read_field_app, IH.
Qed.

Lemma read_fields_failed fs b : r_ok (read_fields fs (mkReader b false)).2 = false.
Proof.
  revert b. induction fs as [|f fs IH]; intros b; [done|]. simpl.
  assert (∃ v, read_field f (mkReader b false) = (v, mkReader b false)) as [v ->] by (destruct f; by eexists).
  specialize (IH b). by destruct (read_fields fs _).
Qed.

(** A field cut short: the reader fails on it. *)
Lemma read_field_short f b k :
  field_ok f → (k < length (write_field f))%nat → b = take k (write_field f) →
  r_ok (read_field f (mkReader b true)).2 = false.
Proof.
  intros Hf Hk ->. assert (length (take k (write_field f)) = k) as Hl by (rewrite length_take; lia).
  destruct f as [v|v|b]; cbn [read_field write_field field_ok] in *.
  - rewrite length_w32 in Hk. unfold u32. by rewrite take_n_short by lia.
  - rewrite length_w64 in Hk. unfold u64. by rewrite take_n_short by lia.
  - rewrite length_app, length_w32 in Hk. unfold str. destruct (decide (k < 4)%nat).
    + unfold u32. rewrite take_n_short by lia. done.
    + rewrite take_app_ge, length_w32 by (rewrite length_w32; lia). rewrite u32_w32 by lia.
      rewrite take_n_short; [done|]. rewrite length_take. lia.
Qed.

Lemma read_fields_short fs k :
  Forall field_ok fs → (k < length (write_fields fs))%nat →
  r_ok (read_fields fs (mkReader (take k (write_fields fs)) true)).2 = false.
Proof.
  intros Hfs. revert k. induction Hfs as [|f fs Hf Hfs IH]; intros k Hk; [simpl in Hk; lia|].
  unfold write_fields in *. cbn [map concat read_fields] in *. rewrite length_app in Hk.
  destruct (decide (k < length (write_field f))%nat).
  - rewrite take_app_le by lia. pose proof (read_field_short f _ k Hf ltac:(done) eq_refl) as Hs.
    destruct (read_field f _) as [v [b o]]. simpl in Hs. subst o.
    pose proof (read_fields_failed fs b) as Hr. by destruct (read_fields fs _).
  - rewrite take_app_ge by lia. rewrite read_field_app by done. specialize (IH (k - length (write_field f))%nat ltac:(lia)).
    by destruct (read_fields fs _).
Qed.

(** ** Frames *)

(** A request as the daemon frames it. *)
Definition request (o : Z) (payload : bytes) : bytes := be 2 o ++ be 4 (Z.of_nat (length payload)) ++ payload.

Lemma recvReq_request o payload rest :
  0 <= o < 2 ^ 16 → Z.of_nat (length payload) < 2 ^ 32 →
  recvReq (request o payload ++ rest) =
  if maxFrameLen <? Z.of_nat (length payload) then None else Some (o, payload, rest).
Proof.
  intros Ho Hp. unfold recvReq, request. rewrite bool_decide_eq_false_2 by (rewrite !length_app, !length_be; lia).
  rewrite <- !app_assoc, getn_be, getn_be by lia. case_if; [done|].
  rewrite bool_decide_eq_false_2 by (rewrite length_app; lia).
  by rewrite Nat2Z.id, take_app_length, drop_app_length.
Qed.

(** A request round trips: a frame whose payload is a list of fields is
    received with its operation and payload, leaving the stream at the next
    frame, and reading the fields yields the values written with nothing left;
    a payload cut anywhere fails the read; and a frame over the limit is
    refused whatever it holds. *)
Theorem request_roundtrip o fs rest :
  0 <= o < 2 ^ 16 → Forall field_ok fs →
  let payload := write_fields fs in
  (Z.of_nat (length payload) <= maxFrameLen →
     recvReq (request o payload ++ rest) = Some (o, payload, rest)) ∧
  (maxFrameLen < Z.of_nat (length payload) < 2 ^ 32 → recvReq (request o payload ++ rest) = None) ∧
  read_fields fs (newReader payload) = (fs, mkReader [] true) ∧
  (∀ k, (k < length payload)%nat → r_ok (read_fields fs (newReader (take k payload))).2 = false).
Proof.
  intros Ho Hfs payload. split_and!.
  - intros Hl. rewrite recvReq_request by (unfold maxFrameLen in *; lia). by rewrite (proj2 (Z.ltb_ge _ _)) by lia.
  - intros Hl. rewrite recvReq_request by lia. by rewrite (proj2 (Z.ltb_lt _ _)) by lia.
  - pose proof (read_fields_app fs [] Hfs) as H. by rewrite app_nil_r in H.
  - intros k Hk. by apply read_fields_short.
Qed.

Lemma request_roundtrip_witness :
  let fs := [F64 7; FBytes [97; 98]; F32 420] in
  recvReq (request 5 (write_fields fs) ++ [1; 2]) = Some (5, write_fields fs, [1; 2]).
Proof.
  apply (request_roundtrip 5 [F64 7; FBytes [97; 98]; F32 420] [1; 2]); [lia|repeat constructor; simpl; lia|].
  vm_compute. discriminate.
Defined.

(** A response is read back whole: the length the daemon reads first is the
    number of bytes that follow. *)
Lemma sendResp_roundtrip d rest :
  Z.of_nat (length d) < 2 ^ 32 →
  let '(n, s) := getn 4 (sendResp d ++ rest) in take (Z.to_nat n) s = d ∧ drop (Z.to_nat n) s = rest.
Proof.
  intros Hd. unfold sendResp. rewrite <- app_assoc. unfold wrap32. rewrite Z.mod_small by lia.
  rewrite getn_be by lia. by rewrite Nat2Z.id, take_app_length, drop_app_length.
Qed.

(** The error number a response starts with, for each shape of response. *)
Lemma resp_errno_w32 v rest : - 2 ^ 31 <= v < 2 ^ 31 → resp_errno (w32 v ++ rest) = v.
Proof.
  intros Hv. unfold resp_errno, newReader, u32. change 4 with (Z.of_nat 4). rewrite <- (length_w32 v), take_n_app.
  unfold w32. rewrite be_decode_be. cbn [fst]. unfold wrap32. change (256 ^ Z.of_nat 4) with (2 ^ 32).
  rewrite Z.mod_mod by lia. destruct (decide (0 <= v)).
  - rewrite Z.mod_small by lia. by rewrite (proj2 (Z.ltb_lt _ _)) by lia.
  - rewrite <- (Z.mod_unique v (2 ^ 32) (-1) (v + 2 ^ 32)) by lia. rewrite (proj2 (Z.ltb_ge _ _)) by lia. lia.
Qed.
Lemma resp_errno_int32 v : - 2 ^ 31 <= v < 2 ^ 31 → resp_errno (int32Resp v) = v.
Proof. intros Hv. unfold int32Resp. rewrite <- (app_nil_r (w32 v)). by apply resp_errno_w32. Qed.
