(* ===== verification/DataHandlers.v ===== *)
(** * Handlers of the data path

    Models the request handlers that touch the block device or an inode's
    extents: WRITE, READ (datapath.go), LSEEK, FALLOCATE (sparse.go), FSYNC and
    FLUSH (delegate.go).  A handler turns a payload into a response; [locked] is
    the [defer lk.Release()] of its body, which also reports whether it
    published the metadata it changed. *)

From S2P Require Import Prelude Etcd EtcdFacts Schema Store Locks Extents Allocator ArenaPool InodeTimes Service DataPath Delegate LockCache Wire.

Definition minBufferedWriteBytes : Z := 65536.  (* 64 << 10 *)
Definition oDSync : Z := 4096.                   (* 0o10000 *)

(** Run [body] under the inode's lock; [busy] answers a lock that cannot be had. *)
Definition locked {A} (ino : Z) (m : bytes) (busy : A) (body : svc (A * bool)) : svc A :=
  r ⇠ lockInode ino m;
  match r with
  | Err _ => sret busy
  | Ok _ => x ⇠ body; _ ⇠ release ino m x.2; sret x.1
  end.

(** ** WRITE *)

(** The payload stays in memory when the write continues a streak or is large;
    otherwise it goes to the device now. *)
Definition stage_payload (ino : Z) (w : writeOp) : svc (result (writeOp * list bufferedRun * Z)) :=
  o ⇠ gets opts;
  hold ⇠ (if dataCache o
          then c ⇠ streakContinues ino (w_runs w); sret (c || (minBufferedWriteBytes <=? dataLen w))
          else sret false);
  if (hold : bool) then sret (Ok (w, bufferedPayload w, padded w))
  else w' ⇠? writeThrough w; sret (Ok (w', [], dataLen w')).

(** [None]: the write takes the committing path.  A published buffer sends the
    write round once more, against the revisions the flush left; the buffer is
    empty then, so a second round does not happen again. *)
Fixpoint buffer_loop (fuel : nat) (ino : Z) (w : writeOp) (cs : list cmp) (os : list op) (sync : bool)
  : svc (option (bytes * bool) * writeOp) :=
  match fuel with
  | O => sret (None, w)
  | S fuel' =>
    if sync || w_modeChanged w || negb (bool_decide (w_deferred w = [])) then sret (None, w)
    else
      match replayTxn ino (w_rec w) os with
      | None => sret (None, w)
      | Some replay =>
        r ⇠ stage_payload ino w;
        match r with
        | Err e => _ ⇠ freeRuns w; sret (Some (int32Resp (errnoForWrite e), false), w)
        | Ok (w, d, n) =>
          b ⇠ bufferWrite ino replay cs os (w_plans w) n d (w_runs w);
          match b with
          | Err ErrBufferPublished =>
            f ⇠ held_meta ino;
            match f with
            | Ok (mkMeta (Some rec) exts) =>
              s ⇠ gets id;
              let '(w, cs, os) := replan s rec exts w in buffer_loop fuel' ino w cs os sync
            | _ => _ ⇠ freeRuns w; sret (Some (int32Resp errIO, false), w)
            end
          | Err _ => _ ⇠ freeRuns w; sret (Some (int32Resp errIO, false), w)
          | Ok _ => sret (Some (writtenResp (wrap32 (dataLen w)), true), w)
          end
        end
      end
  end.

Definition bufferWriteOp (ino : Z) (w : writeOp) (cs : list cmp) (os : list op) (sync : bool)
  : svc (option (bytes * bool) * writeOp) := buffer_loop 3 ino w cs os sync.

(** Planning against what etcd holds: the buffer first, then a fresh read. *)
Definition plan_commit (ino : Z) (w : writeOp) : svc (result (writeOp * list cmp * list op)) :=
  s ⇠ gets id;
  if hasPending s ino then
    _ ⇠? flushEntry ino;
    w ⇠? readExtents w;
    s ⇠ gets id; sret (Ok (proposal s w))
  else sret (Ok (proposal s w)).

(** The commit, proposed again from a linearizable read when a comparison
    failed. *)
Definition commit_or_replan (w : writeOp) (cs : list cmp) (os : list op) : svc (writeOp * list op * result commit) :=
  c ⇠ commitGuarded cs os;
  match c with
  | Ok c0 =>
    if negb (committed c0) && negb (by_fence c0) then
      x ⇠ readExtents w;
      match x with
      | Err e => sret (w, os, Err e)
      | Ok w => s ⇠ gets id; let '(w, cs, os) := proposal s w in c ⇠ commitGuarded cs os; sret (w, os, c)
      end
    else sret (w, os, c)
  | Err _ => sret (w, os, c)
  end.

(** The cache after a commit: [true] when the replay accounts for all of it. *)
Definition publish_commit (ino : Z) (w : writeOp) (os : list op) (rev : Z) : svc bool :=
  if bool_decide (w_deferred w = []) then
    match replayTxn ino (w_rec w) os with
    | Some r => _ ⇠ alter_entry ino (setMeta (apply_replay r (w_existing w) rev)); sret true
    | None => sret false
    end
  else sret false.

Definition commitWriteOp (ino : Z) (w : writeOp) : svc (bytes * bool) :=
  p ⇠ plan_commit ino w;
  match p with
  | Err _ => _ ⇠ freeRuns w; sret (int32Resp errIO, false)
  | Ok (w, cs, os) =>
    t ⇠ writeThrough w;
    match t with
    | Err e => _ ⇠ freeRuns w; sret (int32Resp (errnoForWrite e), false)
    | Ok w =>
      x ⇠ commit_or_replan w cs os;
      let '(w, os, c) := x in
      match c with
      | Ok (mkCommit true false rev) =>
        published ⇠ publish_commit ino w os rev;
        _ ⇠ free_plans (w_plans w);
        _ ⇠ reclaimDeferred w;
        sret (writtenResp (wrap32 (dataLen w)), published)
      | _ => _ ⇠ freeRuns w; sret (int32Resp errIO, false)
      end
    end
  end.

Definition write_locked (ino offset : Z) (data : bytes) (uid flags : Z) : svc (bytes * bool) :=
  s ⇠ gets id;
  let sync := negb (deferWrites s) || negb (Z.land flags oDSync =? 0) in
  f ⇠ (if sync && hasPending s ino then flushEntry ino else sret (Ok tt));
  match f with
  | Err _ => sret (int32Resp errIO, false)
  | Ok _ =>
    m ⇠ held_meta ino;
    match m with
    | Err _ => sret (int32Resp errIO, false)
    | Ok (mkMeta None _) => sret (int32Resp errNoEnt, false)
    | Ok (mkMeta (Some rec) exts) =>
      gen ⇠ writeGeneration;
      a ⇠ allocate (newWriteOp ino offset data uid gen rec exts);
      match a with
      | Err _ => sret (int32Resp errNoSpace, false)
      | Ok w =>
        s ⇠ gets id;
        let '(w, cs, os) := proposal s w in
        b ⇠ bufferWriteOp ino w cs os sync;
        match b.1 with Some x => sret x | None => commitWriteOp ino b.2 end
      end
    end
  end.

Definition handleWriteBlock (ino offset : Z) (data : bytes) (uid flags : Z) : svc bytes :=
  if bool_decide (data = []) then sret (writtenResp 0)
  else
    f ⇠ IsFenced;
    if (f : bool) then sret (int32Resp errIO)
    else locked ino LockExclusive (int32Resp errAgain) (write_locked ino offset data uid flags).

(** Without a device only the size and the mode are kept; the put's outcome is
    ignored. *)
Definition write_metadata (ino offset n uid : Z) : svc bytes :=
  r ⇠ with_store (λ st, GetInode st ino);
  match r with
  | Ok (Some rec) =>
    let newEnd := add64 offset n in
    let mode := ClearSetIDOnWrite (Mode rec) uid in
    _ ⇠ (if (Size rec <? newEnd) || negb (mode =? Mode rec)
         then with_store (λ st, Put st (InodeKey ino) (EncodeInode (set_Size_Mode (Z.max (Size rec) newEnd) mode rec)) 0)
         else sret (Ok 0));
    sret (writtenResp n)
  | _ => sret (int32Resp errNoEnt)
  end.

Definition handleWrite (payload : bytes) : svc bytes :=
  let r := newReader payload in
  let '(ino, r) := u64 r in let '(offset, r) := u64 r in
  let '(data, r) := blob r in
  let '(uid, r) := u32 r in let '(flags, r) := u32 r in
  if negb (r_ok r) then sret (int32Resp errInval)
  else
    s ⇠ gets id;
    match dev s with
    | Some _ => handleWriteBlock ino offset data uid flags
    | None => write_metadata ino offset (wrap32 (Z.of_nat (length data))) uid
    end.

(** ** READ *)

Definition read_locked (ino offset size : Z) : svc (bytes * bool) :=
  s ⇠ gets id;
  _ ⇠ (if writeBarriers (opts s) then lift FlushDevice else sret (Ok tt));
  m ⇠ held_meta ino;
  match m with
  | Err _ => sret (int32Resp errIO, false)
  | Ok (mkMeta None _) => sret (int32Resp errNoEnt, false)
  | Ok (mkMeta (Some rec) exts) =>
    e ⇠ get_entry ino;
    r ⇠ (λ s, x ⇐ read_data s e rec exts offset size; Ret (s, x));
    sret (match r with Ok data => dataResp data | Err _ => int32Resp errIO end, false)
  end.

Definition handleRead (payload : bytes) : svc bytes :=
  let r := newReader payload in
  let '(ino, r) := u64 r in let '(offset, r) := u64 r in let '(size, r) := u32 r in
  if negb (r_ok r) then sret (int32Resp errInval)
  else
    s ⇠ gets id;
    if negb (has_dev s) then sret (int32Resp errIO)
    else locked ino LockShared (int32Resp errAgain) (read_locked ino offset size).

(** ** LSEEK and FALLOCATE *)

Definition seekData : Z := 3.
Definition seekHole : Z := 4.
Definition fallocKeepSize : Z := 1.
Definition fallocPunchHole : Z := 2.

Definition handleLseek (payload : bytes) : svc bytes :=
  let r := newReader payload in
  let '(ino, r) := u64 r in let '(offset, r) := u64 r in let '(whence, r) := u32 r in
  if negb (r_ok r) then sret (int32Resp errInval)
  else if negb (whence =? seekData) && negb (whence =? seekHole) then sret (int32Resp errInval)
  else
    f ⇠ flushInode ino;
    match f with
    | Err _ => sret (int32Resp errIO)
    | Ok _ =>
      rr ⇠ with_store (λ st, GetInode st ino);
      match rr with
      | Ok (Some rec) =>
        x ⇠ with_store (λ st, GetExtents st ino false);
        match x with
        | Err e => sret (int32Resp (errnoFor e errIO))
        | Ok exts =>
          sret match (if whence =? seekData then SeekData exts (Size rec) offset else SeekHole exts (Size rec) offset) with
               | Some found => lseekResp found
               | None => int32Resp errNXIO
               end
        end
      | _ => sret (int32Resp errNoEnt)
      end
    end.

Definition resp_of (r : result unit) (fallback : Z) : bytes :=
  match r with Ok _ => okResp | Err e => int32Resp (errnoFor e fallback) end.

Definition fallocate_locked (ino mode offset length : Z) : svc (bytes * bool) :=
  f ⇠ flushEntry ino;
  match f with
  | Err _ => sret (int32Resp errIO, false)
  | Ok _ =>
    if negb (Z.land mode fallocPunchHole =? 0) then
      if Z.land mode fallocKeepSize =? 0 then sret (int32Resp errInval, false)
      else r ⇠ punchHole ino offset (add64 offset length); sret (resp_of r errIO, false)
    else if mode =? 0 then r ⇠ growTo ino (add64 offset length); sret (resp_of r errIO, false)
    else sret (int32Resp errNotSupp, false)
  end.

Definition handleFallocate (payload : bytes) : svc bytes :=
  let r := newReader payload in
  let '(ino, r) := u64 r in let '(mode, r) := u32 r in let '(offset, r) := u64 r in let '(length, r) := u64 r in
  if negb (r_ok r) then sret (int32Resp errInval)
  else if length =? 0 then sret (int32Resp errInval)
  else if add64 offset length <? offset then sret (int32Resp errInval)
  else if mode =? fallocKeepSize then sret okResp
  else locked ino LockExclusive (int32Resp errAgain) (fallocate_locked ino mode offset length).

(** ** Handing a file over *)

(** [publishInode] (xattr.go): publish, then give the lock key up. *)
Definition publishInode (ino : Z) : svc (result unit) :=
  _ ⇠? flushInode ino; yieldCachedLock ino.
