(* ===== verification/LostReplies.v ===== *)
(** * How a live block is freed

    Concrete runs of the write path (internal/ipc/datapath.go, delegate.go) in
    which the allocator ends up offering a block that a published extent still
    refers to. *)

From S2P Require Import Prelude Etcd EtcdFacts Schema Store Locks Extents Allocator ArenaPool InodeTimes Service DataPath ReadProps ReplayProps WriteProps Delegate LockCache BufferProps FlushProps Wire DataHandlers.

(** A node holding inode 7's lock with its metadata cached: one published
    extent, at device block 2, which the node's arena has as allocated. *)
Definition ld_entry : lockEntry :=
  mkEntry 7 true 0 LockExclusive fl_holder 100 0 0 (Some (mkMeta (Some (demo_rec 4096)) (extents_of 7 fl_store))) fl_holder 0 None 0.
Definition ld_svc : Service :=
  set_alloc (mkAllocator [markAllocated (new_arena 0) 2] 0 0) (set_entries {[ 7 := ld_entry ]} demo_svc).

Definition published_blocks (m : mvcc) : list Z := (λ e, DiskOff e / BlockSize) <$> extents_of 7 m.
Definition free_blocks (s : Service) (bs : list Z) : list bool := concat ((λ ar, isFree ar <$> bs) <$> arenas (alloc s)).

(** An overwrite whose commit takes effect but whose reply is lost.  The retry
    finds its own extent in the way, plans again, buries that extent and frees
    its blocks, which are the ones the new extent refers to: the write is
    acknowledged, the file's only extent is at block 0, and block 0 is free. *)
Theorem lost_commit_reply_frees_live_block :
  let '(srv, (s, r)) :=
    @run lossy_etcd _ (write_locked 7 0 (replicate 4096 9) 0 0 ld_svc) (LossySrv (RefSrv fl_store 0) true) in
  r = (writtenResp 4096, true) ∧ published_blocks (rs_store (ls_inner srv)) = [0] ∧ free_blocks s [0; 2] = [true; false].
Proof. vm_compute. split_and!; reflexivity. Qed.

(** Without the loss the same write leaves block 0 allocated and frees block 2. *)
Theorem commit_frees_what_it_buried :
  let '(srv, (s, r)) := @run ref_etcd _ (write_locked 7 0 (replicate 4096 9) 0 0 ld_svc) (RefSrv fl_store 0) in
  r = (writtenResp 4096, true) ∧ published_blocks (rs_store srv) = [0] ∧ free_blocks s [0; 2] = [false; true].
Proof. vm_compute. split_and!; reflexivity. Qed.

(** An overwrite that is buffered, and a lock lost before it was published: the
    buffer is discarded together with its reclaim plans, whose blocks the store
    still has published. *)
Definition overwrite_then_lose : svc (result unit) :=
  e ⇠ get_entry 7;
  match meta e with
  | Some (mkMeta (Some rec) exts) =>
    a ⇠ allocate (newWriteOp 7 0 (replicate 4096 9) 0 0 rec exts);
    match a with
    | Err er => sret (Err er)
    | Ok w =>
      s ⇠ gets id;
      let '(w, cs, os) := proposal s w in
      match replayTxn 7 (w_rec w) os with
      | None => sret (Err EOther)
      | Some replay =>
        b ⇠ bufferWrite 7 replay cs os (w_plans w) (padded w) (bufferedPayload w) (w_runs w);
        _ ⇠ dropCachesForLease 100;
        sret b
      end
    end
  | _ => sret (Err EOther)
  end.

Theorem discard_frees_published_block :
  let '(srv, (s, r)) := @run ref_etcd _ (overwrite_then_lose ld_svc) (RefSrv fl_store 0) in
  r = Ok tt ∧ rs_store srv = fl_store ∧ published_blocks (rs_store srv) = [2] ∧ free_blocks s [0; 2] = [true; true].
Proof. vm_compute. split_and!; reflexivity. Qed.

(** Two short writes inside one block, no fault at all.  The first leaves the
    old extent as a head and a tail that both lie in its first block; the second
    covers the head, whose block is given back while the tail still has it
    published. *)
Definition sb_extent : Extent := mkExtent [] 0 0 0 (lit "n1") 0 8192 8192 5.
Definition sb_store : mvcc :=
  (mvcc_ops fl_store [put (ExtentKey 7 0) (Encode sb_extent); put (InodeKey 7) (EncodeInode (demo_rec 8192))]).1.
Definition sb_svc : Service :=
  set_alloc (mkAllocator [markAllocated (markAllocated (new_arena 0) 2) 3] 0 0)
    (set_entries {[ 7 := set_meta (Some (mkMeta (Some (demo_rec 8192)) (extents_of 7 sb_store))) fl_holder ld_entry ]} demo_svc).

Definition two_short_writes : svc (bytes * bool) :=
  _ ⇠ write_locked 7 100 (replicate 100 9) 0 0; write_locked 7 0 (replicate 100 8) 0 0.

Theorem short_writes_free_live_block :
  let '(srv, (s, r)) := @run ref_etcd _ (two_short_writes sb_svc) (RefSrv sb_store 0) in
  r = (writtenResp 100, true) ∧
  (λ e, (LogOff e, DiskOff e / BlockSize, Length e)) <$> extents_of 7 (rs_store srv) = [(0, 1, 100); (0, 2, 8192); (100, 0, 100)] ∧
  free_blocks s [0; 1; 2; 3] = [false; false; true; false].
Proof. vm_compute. split_and!; reflexivity. Qed.
