(* ===== verification/NodeCaches.v ===== *)
(** * What a daemon keeps beside its locks

    Models internal/ipc/inodealloc.go (blocks of inode numbers),
    opendescriptors.go (open descriptors and the files they keep alive),
    readdircursor.go (where a directory's listing stopped) and direntcache.go
    (the names of a directory as one range read found them, kept in step by the
    dirent watch and by this node's own mutations, and used only to answer that a
    name is not there).  Each is behind a mutex of its own; its operations are
    functions on its state here. *)

From S2P Require Import Prelude Etcd EtcdFacts Schema Store Dirents.

(** ** Inode numbers *)

Definition inodeBlockSize : Z := 1024.
Record inodeBlocks := mkBlocks { ib_next : Z; ib_end : Z }.
Definition newInodeBlocks : inodeBlocks := mkBlocks 0 0.

Definition reserve (st : Store) (a : inodeBlocks) : prog (inodeBlocks * result Z) :=
  r ⇐ (if ib_end a <=? ib_next a then
         f ⇐? ReserveCounter st KeyInodeAllocCounter FirstUsableIno inodeBlockSize;
         Ret (Ok (mkBlocks f (add64 f inodeBlockSize)))
       else Ret (Ok a));
  Ret match r with
      | Err e => (a, Err e)
      | Ok a => (mkBlocks (add64 (ib_next a) 1) (ib_end a), Ok (ib_next a))
      end.

(** ** Open descriptors *)

(** A missing count is 0, as for a Go map. *)
Record openFiles := mkOpen { o_count : gmap Z Z; o_orphaned : gset Z }.
Definition newOpenFiles : openFiles := mkOpen ∅ ∅.
Definition open_count (o : openFiles) (ino : Z) : Z := default 0 (o_count o !! ino).

Definition retain (ino : Z) (o : openFiles) : openFiles :=
  mkOpen (<[ino := open_count o ino + 1]> (o_count o)) (o_orphaned o).

(** [true]: the last descriptor of a file that has already lost its name. *)
Definition release_fd (ino : Z) (o : openFiles) : openFiles * bool :=
  if 1 <? open_count o ino then (mkOpen (<[ino := open_count o ino - 1]> (o_count o)) (o_orphaned o), false)
  else
    let count := delete ino (o_count o) in
    if bool_decide (ino ∈ o_orphaned o) then (mkOpen count (o_orphaned o ∖ {[ino]}), true)
    else (mkOpen count (o_orphaned o), false).

(** Also remembers that the file's deletion is now this node's. *)
Definition heldOpen (ino : Z) (o : openFiles) : openFiles * bool :=
  if open_count o ino =? 0 then (o, false) else (mkOpen (o_count o) ({[ino]} ∪ o_orphaned o), true).

(** ** Directory cursors *)

Record dirCursor := mkCursor { c_offset : Z; c_name : bytes; c_used : Z }.
Definition dirCursorMax : nat := 1024.
Definition dirCursorTTL : Z := 60 * 1000000000.

(** An offset of zero never resumes. *)
Definition resumeAt (now ino offset : Z) (c : gmap Z dirCursor) : gmap Z dirCursor * option bytes :=
  if offset =? 0 then (c, None)
  else
    match c !! ino with
    | None => (c, None)
    | Some cur =>
      if negb (c_offset cur =? offset) || (dirCursorTTL <? now - c_used cur) then (c, None)
      else (<[ino := mkCursor (c_offset cur) (c_name cur) now]> c, Some (c_name cur))
    end.

(** The cursor used longest ago; which one among equals is the map's choice. *)
Definition older (a b : Z * dirCursor) : Z * dirCursor := if c_used b.2 <? c_used a.2 then b else a.
Definition evictOldestLocked (c : gmap Z dirCursor) : gmap Z dirCursor :=
  match map_to_list c with
  | [] => c
  | x :: l => delete (foldl older x l).1 c
  end.

Definition record_cursor (now ino offset : Z) (name : bytes) (c : gmap Z dirCursor) : gmap Z dirCursor :=
  if bool_decide (name = []) then c
  else
    let c := if bool_decide (dirCursorMax <= size c)%nat && negb (bool_decide (is_Some (c !! ino)))
             then evictOldestLocked c else c in
    <[ino := mkCursor offset name now]> c.

(** ** The names of a directory *)

Definition direntCacheMaxDirs : nat := 64.
Definition direntCacheMaxDirNames : nat := 4096.
Definition direntCacheMaxNames : Z := 65536.

(** [mine]: names this node created whose own event the watch has not brought
    back yet. *)
Record direntSet := mkSet { names : gset bytes; filled : Z; mine : gset bytes; tooBig : bool }.

Record direntCache := mkCache {
  ttl : Z; armed : bool; dirs : gmap Z direntSet; total : Z; filling : gmap Z Z
}.
Definition newDirentCache (ttl : Z) : direntCache := mkCache ttl false ∅ 0 ∅.

Definition set_dirs (d : gmap Z direntSet) (n : Z) (c : direntCache) : direntCache :=
  mkCache (ttl c) (armed c) d n (filling c).
Definition set_filling (f : gmap Z Z) (c : direntCache) : direntCache :=
  mkCache (ttl c) (armed c) (dirs c) (total c) f.

Definition arm (c : direntCache) : direntCache := mkCache (ttl c) true (dirs c) (total c) (filling c).
Definition reset_dirents (c : direntCache) : direntCache := mkCache (ttl c) false ∅ 0 ∅.

Definition fresh_at (now : Z) (c : direntCache) (d : direntSet) : bool := now - filled d <=? ttl c.

(** [false] means: ask etcd. *)
Definition absent (now parent : Z) (name : bytes) (c : direntCache) : bool :=
  if negb (armed c) then false
  else match dirs c !! parent with
       | None => false
       | Some d => if tooBig d || negb (fresh_at now c d) then false else negb (bool_decide (name ∈ names d))
       end.

Definition beginFill (now parent : Z) (c : direntCache) : direntCache * bool :=
  if negb (armed c) then (c, false)
  else if bool_decide (is_Some (filling c !! parent)) then (c, false)
  else match dirs c !! parent with
       | Some d => if fresh_at now c d then (c, false) else (set_filling (<[parent := 0]> (filling c)) c, true)
       | None => (set_filling (<[parent := 0]> (filling c)) c, true)
       end.

Definition abandonFill (parent : Z) (c : direntCache) : direntCache := set_filling (delete parent (filling c)) c.

Definition dropLocked (parent : Z) (c : direntCache) : direntCache :=
  match dirs c !! parent with
  | None => c
  | Some d => set_dirs (delete parent (dirs c)) (total c - Z.of_nat (size (names d))) c
  end.

(** The set filled longest ago; which one among equals is the map's choice. *)
Definition older_set (a b : Z * direntSet) : Z * direntSet := if filled b.2 <? filled a.2 then b else a.
Definition over_cap (c : direntCache) : bool :=
  bool_decide (direntCacheMaxDirs < size (dirs c))%nat || (direntCacheMaxNames <? total c).

(** The loop drops one directory per round, so the number of directories is
    fuel enough. *)
Fixpoint evict_loop (fuel : nat) (c : direntCache) : direntCache :=
  match fuel with
  | O => c
  | S fuel' =>
    if over_cap c then
      match map_to_list (dirs c) with
      | [] => c
      | x :: l => evict_loop fuel' (dropLocked (foldl older_set x l).1 c)
      end
    else c
  end.
Definition evict_dirents (c : direntCache) : direntCache := evict_loop (size (dirs c)) c.

Definition endFill (now parent : Z) (entries : list DirentEntry) (c : direntCache) : direntCache :=
  let deltas := filling c !! parent in
  let c := abandonFill parent c in
  match deltas with
  | None => c
  | Some n =>
    if negb (armed c) || (0 <? n) then c
    else
      let c := dropLocked parent c in
      if bool_decide (direntCacheMaxDirNames < length entries)%nat
      then evict_dirents (set_dirs (<[parent := mkSet ∅ now ∅ true]> (dirs c)) (total c) c)
      else
        let ns := list_to_set (map d_name entries) : gset bytes in
        evict_dirents (set_dirs (<[parent := mkSet ns now ∅ false]> (dirs c)) (total c + Z.of_nat (size ns)) c)
  end.

(** ** Changes *)

Definition notedLocked (parent : Z) (c : direntCache) : direntCache :=
  match filling c !! parent with
  | Some n => set_filling (<[parent := n + 1]> (filling c)) c
  | None => c
  end.

(** The set a change may be applied to. *)
Definition mutableLocked (parent : Z) (c : direntCache) : option direntSet :=
  match dirs c !! parent with
  | Some d => if tooBig d then None else Some d
  | None => None
  end.

Definition insertLocked (name : bytes) (d : direntSet) : direntSet * Z :=
  if bool_decide (name ∈ names d) then (d, 0) else (mkSet ({[name]} ∪ names d) (filled d) (mine d) (tooBig d), 1).
Definition removeLocked (name : bytes) (d : direntSet) : direntSet * Z :=
  if bool_decide (name ∈ names d) then (mkSet (names d ∖ {[name]}) (filled d) (mine d) (tooBig d), -1) else (d, 0).
Definition set_mine (m : gset bytes) (d : direntSet) : direntSet := mkSet (names d) (filled d) m (tooBig d).

Definition change (parent : Z) (f : direntSet → direntSet * Z) (c : direntCache) : direntCache :=
  let c := notedLocked parent c in
  match mutableLocked parent c with
  | None => c
  | Some d => let '(d', n) := f d in set_dirs (<[parent := d']> (dirs c)) (total c + n) c
  end.

Definition created (parent : Z) (name : bytes) : direntCache → direntCache :=
  change parent (λ d, let '(d, n) := insertLocked name d in (set_mine ({[name]} ∪ mine d) d, n)).

Definition deleted (parent : Z) (name : bytes) : direntCache → direntCache :=
  change parent (λ d, removeLocked name (set_mine (mine d ∖ {[name]}) d)).

Definition observed (parent : Z) (name : bytes) (present : bool) : direntCache → direntCache :=
  change parent (λ d,
    if present then insertLocked name (set_mine (mine d ∖ {[name]}) d)
    else if bool_decide (name ∈ mine d) then (d, 0)
    else removeLocked name d).

(** ** Bookkeeping *)

(** The count of names over all sets. *)
Definition names_held (m : gmap Z direntSet) : Z := map_fold (λ _ d n, Z.of_nat (size (names d)) + n) 0 m.

(** What every operation keeps: the total is the number of names held, a set
    past the cap holds none, and both caps are respected. *)
Record cache_ok (c : direntCache) : Prop := {
  ck_total : total c = names_held (dirs c);
  ck_big : ∀ parent d, dirs c !! parent = Some d → tooBig d = true → names d = ∅;
  ck_dirs : (size (dirs c) <= direntCacheMaxDirs)%nat;
}.

Lemma names_held_insert p d m :
  m !! p = None → names_held (<[p := d]> m) = Z.of_nat (size (names d)) + names_held m.
Proof. intros Hp. unfold names_held. rewrite map_fold_insert_L; [done| |done]. intros. lia. Qed.

Lemma names_held_delete p d m : m !! p = Some d → names_held (delete p m) = names_held m - Z.of_nat (size (names d)).
Proof.
  intros Hp. rewrite <- (insert_delete_id m p d) at 2 by done. rewrite names_held_insert by apply lookup_delete_eq. lia.
Qed.

Lemma names_held_replace p d d' m :
  m !! p = Some d →
  names_held (<[p := d']> m) = names_held m - Z.of_nat (size (names d)) + Z.of_nat (size (names d')).
Proof.
  intros Hp. rewrite <- insert_delete_eq, names_held_insert by apply lookup_delete_eq.
  rewrite (names_held_delete p d) by done. lia.
Qed.

Lemma names_held_nonneg m : 0 <= names_held m.
Proof. induction m as [|p d m Hp IH] using map_ind; [done|]. rewrite names_held_insert by done. lia. Qed.

Lemma dropLocked_ok p c : cache_ok c → cache_ok (dropLocked p c).
Proof.
  intros [H1 H2 H3]. unfold dropLocked. destruct (dirs c !! p) as [d|] eqn:Ed; [|done]. split; simpl.
  - by rewrite (names_held_delete p d), H1.
  - intros q e [_ ?]%lookup_delete_Some. eauto.
  - rewrite map_size_delete_Some by eauto. lia.
Qed.
