(* ===== verification/DirentCacheProps.v ===== *)
(** * How old an absence can be

    The dirent cache against the history of one directory: the events etcd has
    committed, how many of them the watch has delivered, and the range read a
    fill is waiting for.  The last section shows three orders of events in which
    the cache misleads the node. *)

From S2P Require Import Prelude Etcd EtcdFacts Schema Store Dirents NodeCaches.

(** ** Bookkeeping is exact *)

Lemma evict_loop_ok fuel c :
  total c = names_held (dirs c) → (∀ p d, dirs c !! p = Some d → tooBig d = true → names d = ∅) →
  (size (dirs c) <= fuel)%nat → cache_ok (evict_loop fuel c) ∧ total (evict_loop fuel c) <= direntCacheMaxNames.
Proof.
  revert c. induction fuel as [|f IH]; intros c H1 H2 H3; simpl.
  { assert (dirs c = ∅) as E by (apply map_size_empty_iff; lia).
    split; [split; [done|done|rewrite E, map_size_empty; unfold direntCacheMaxDirs; lia]|].
    rewrite H1, E. unfold names_held, direntCacheMaxNames. by rewrite map_fold_empty. }
  destruct (over_cap c) eqn:Eo; cbn [negb].
  - destruct (map_to_list (dirs c)) as [|x l] eqn:El.
    + apply map_to_list_empty_iff in El. unfold over_cap in Eo. rewrite H1, El in Eo. unfold names_held in Eo.
      rewrite map_fold_empty, map_size_empty in Eo. by vm_compute in Eo.
    + assert (is_Some (dirs c !! (foldl older_set x l).1)) as [d Hd].
      { assert (foldl older_set x l ∈ x :: l) as Hin.
        { clear. revert x. induction l as [|y l IH]; intros x; simpl; [left|].
          specialize (IH (older_set x y)). apply elem_of_cons in IH as [E|IH]; [|by do 2 right].
          rewrite E. unfold older_set. case_if; [right; left|left]. }
        rewrite <- El in Hin. destruct (foldl older_set x l) as [q d]. apply elem_of_map_to_list in Hin. eauto. }
      unfold dropLocked. rewrite Hd. apply IH; simpl.
      * by rewrite (names_held_delete _ d), H1.
      * intros q e [_ ?]%lookup_delete_Some. eauto.
      * rewrite map_size_delete_Some by eauto. lia.
  - unfold over_cap in Eo. apply orb_false_iff in Eo as [E1 E2]. apply bool_decide_eq_false in E1. zbool.
    split; [split; [done|done|lia]|lia].
Qed.

Lemma endFill_ok now p l c : cache_ok c → cache_ok (endFill now p l c).
Proof.
  intros Hc. unfold endFill. destruct (filling c !! p) as [n|]; [|by destruct Hc].
  assert (cache_ok (abandonFill p c)) as Ha by (destruct Hc; by split). revert Ha. generalize (abandonFill p c). clear Hc c.
  intros c Hc. case_if; [done|]. pose proof (dropLocked_ok p c Hc) as [H1 H2 H3].
  assert (dirs (dropLocked p c) !! p = None) as Hn.
  { unfold dropLocked. destruct (dirs c !! p) as [e|] eqn:He; [|done]. simpl. apply lookup_delete_eq. }
  case_if; apply evict_loop_ok; try (simpl; lia); simpl.
  - rewrite names_held_insert, H1 by done. cbn [names]. assert (size (∅ : gset bytes) = 0%nat) as -> by done. lia.
  - intros q d [[_ <-]|[_ ?]]%lookup_insert_Some; eauto.
  - rewrite names_held_insert by done. simpl. lia.
  - intros q d [[_ <-]|[_ ?]]%lookup_insert_Some; [done|eauto].
Qed.

Lemma change_ok p f c :
  (∀ d, tooBig d = false → tooBig (f d).1 = false ∧ Z.of_nat (size (names (f d).1)) = Z.of_nat (size (names d)) + (f d).2) →
  cache_ok c → cache_ok (change p f c).
Proof.
  intros Hf Hc. unfold change.
  assert (cache_ok (notedLocked p c)) as Hc'.
  { unfold notedLocked. destruct (filling c !! p); [|done]. destruct Hc. by split. }
  revert Hc'. generalize (notedLocked p c). clear Hc c. intros c Hc.
  unfold mutableLocked. destruct (dirs c !! p) as [d|] eqn:Ed; [|done].
  destruct (tooBig d) eqn:Eb; [done|]. destruct (Hf d Eb) as [H1 H2]. destruct (f d) as [d' n]. simpl in *.
  destruct Hc as [C1 C2 C3]. split; simpl.
  - rewrite (names_held_replace p d) by done. lia.
  - intros q e [[_ <-]|[_ ?]]%lookup_insert_Some He; [congruence|eauto].
  - rewrite map_size_insert_Some; [done|eauto].
Qed.

Lemma insert_counts n d : Z.of_nat (size (names (insertLocked n d).1)) = Z.of_nat (size (names d)) + (insertLocked n d).2.
Proof.
  unfold insertLocked. case_bool_decide; simpl; [lia|]. rewrite size_union, size_singleton by set_solver. lia.
Qed.
Lemma remove_counts n d : Z.of_nat (size (names (removeLocked n d).1)) = Z.of_nat (size (names d)) + (removeLocked n d).2.
Proof.
  unfold removeLocked. case_bool_decide; simpl; [|lia]. rewrite size_difference by set_solver. rewrite size_singleton.
  assert (0 < size (names d))%nat; [|lia]. apply Nat.neq_0_lt_0. intros E%size_empty_inv. set_solver.
Qed.

Lemma set_counts_ok (f : direntSet → direntSet * Z) :
  (∀ d, tooBig (f d).1 = tooBig d ∧ Z.of_nat (size (names (f d).1)) = Z.of_nat (size (names d)) + (f d).2) →
  ∀ p c, cache_ok c → cache_ok (change p f c).
Proof. intros Hf p c. apply change_ok. intros d Hb. destruct (Hf d) as [-> ->]. done. Qed.

Lemma insert_big n d : tooBig (insertLocked n d).1 = tooBig d.
Proof. unfold insertLocked. by case_bool_decide. Qed.
Lemma remove_big n d : tooBig (removeLocked n d).1 = tooBig d.
Proof. unfold removeLocked. by case_bool_decide. Qed.

(** ** The cache beside the history of the directories *)

(** One committed change of a name. *)
Record devent := mkDev { de_parent : Z; de_name : bytes; de_present : bool }.

Definition apply_dev (p : Z) (s : gset bytes) (e : devent) : gset bytes :=
  if de_parent e =? p then (if de_present e then {[de_name e]} ∪ s else s ∖ {[de_name e]}) else s.
Definition dir_at (h : list devent) (p : Z) : gset bytes := foldl (apply_dev p) ∅ h.

(** [seen] events of [hist] have been delivered by the watch; [reads] holds what
    the range read of a fill in flight returned. *)
Record world := mkWorld {
  hist : list devent; seen : nat; reads : gmap Z (gset bytes); cache : direntCache; clock : Z
}.

Definition with_cache (c : direntCache) (w : world) : world := mkWorld (hist w) (seen w) (reads w) c (clock w).

(** What happens to the cache.  A delete is acknowledged before the watch is
    past it, and the watch skips forward with no fill in flight: the last
    section shows what happens otherwise. *)
Inductive world_step (w : world) : world → Prop :=
  | ws_commit e : world_step w (mkWorld (hist w ++ [e]) (seen w) (reads w) (cache w) (clock w))
  | ws_deliver e :
      hist w !! seen w = Some e →
      world_step w (mkWorld (hist w) (S (seen w)) (reads w)
                            (observed (de_parent e) (de_name e) (de_present e) (cache w)) (clock w))
  | ws_created p n r : hist w !! r = Some (mkDev p n true) → world_step w (with_cache (created p n (cache w)) w)
  | ws_deleted p n r :
      hist w !! r = Some (mkDev p n false) → (seen w <= S r)%nat →
      world_step w (with_cache (deleted p n (cache w)) w)
  | ws_lookup p n r :
      n ∈ dir_at (take r (hist w)) p → world_step w (with_cache (observed p n true (cache w)) w)
  | ws_begin p c :
      beginFill (clock w) p (cache w) = (c, true) →
      world_step w (mkWorld (hist w) (seen w) (delete p (reads w)) c (clock w))
  | ws_read p :
      is_Some (filling (cache w) !! p) →
      world_step w (mkWorld (hist w) (seen w) (<[p := dir_at (hist w) p]> (reads w)) (cache w) (clock w))
  | ws_end p l :
      reads w !! p = Some (list_to_set (map d_name l)) →
      world_step w (mkWorld (hist w) (seen w) (delete p (reads w)) (endFill (clock w) p l (cache w)) (clock w))
  | ws_abandon p :
      world_step w (mkWorld (hist w) (seen w) (delete p (reads w)) (abandonFill p (cache w)) (clock w))
  | ws_tick t : clock w <= t → world_step w (mkWorld (hist w) (seen w) (reads w) (cache w) t)
  | ws_arm : world_step w (with_cache (arm (cache w)) w)
  | ws_gap :
      filling (cache w) = ∅ →
      world_step w (mkWorld (hist w) (length (hist w)) (reads w) (reset_dirents (cache w)) (clock w)).

Definition start (h : list devent) (ttl : Z) : world := mkWorld h (length h) ∅ (newDirentCache ttl) 0.
Definition reachable (w : world) : Prop := ∃ h ttl, rtc world_step (start h ttl) w.

(** The name was not in the directory at a revision the watch is not past. *)
Definition lately_absent (w : world) (p : Z) (n : bytes) : Prop :=
  ∃ r, (seen w <= r <= length (hist w))%nat ∧ n ∉ dir_at (take r (hist w)) p.

(** What every step keeps. *)
Record world_ok (w : world) : Prop := {
  wo_cache : cache_ok (cache w);
  wo_seen : (seen w <= length (hist w))%nat;
  wo_sets : ∀ p d n, dirs (cache w) !! p = Some d → tooBig d = false → n ∉ names d → lately_absent w p n;
  wo_reads : ∀ p s n, filling (cache w) !! p = Some 0 → reads w !! p = Some s → n ∉ s → lately_absent w p n;
  wo_filling : ∀ p k, filling (cache w) !! p = Some k → 0 <= k;
}.

Lemma change_dirs p f c q d' :
  dirs (change p f c) !! q = Some d' → tooBig d' = false →
  (q = p ∧ ∃ d, dirs c !! p = Some d ∧ d' = (f d).1) ∨ (q ≠ p ∧ dirs c !! q = Some d').
Proof.
  unfold change. assert (dirs (notedLocked p c) = dirs c) as Hn by (unfold notedLocked; by destruct (filling c !! p)).
  unfold mutableLocked. rewrite Hn. intros H Hb. destruct (dirs c !! p) as [d|] eqn:Ed.
  - destruct (tooBig d) eqn:Et.
    + cbn beta iota in H. rewrite Hn in H. right. split; [|done]. intros ->. congruence.
    + destruct (f d) as [e n] eqn:Ef. simpl in H. apply lookup_insert_Some in H as [[<- <-]|[Hq H]].
      * left. split; [done|]. exists d. by rewrite Ef.
      * right. auto.
  - cbn beta iota in H. rewrite Hn in H. right. split; [|done]. intros ->. congruence.
Qed.

Lemma change_filling p f c q k :
  filling (change p f c) !! q = Some k →
  (q = p ∧ ∃ k0, filling c !! p = Some k0 ∧ k = k0 + 1) ∨ (q ≠ p ∧ filling c !! q = Some k).
Proof.
  assert (filling (change p f c) = filling (notedLocked p c)) as ->.
  { unfold change. destruct (mutableLocked _ _) as [d|]; [|done]. by destruct (f d). }
  unfold notedLocked. destruct (filling c !! p) as [k0|] eqn:Ek; simpl.
  - intros [[<- <-]|[Hq H]]%lookup_insert_Some; [left; eauto|right; auto].
  - intros H. right. split; [|done]. intros ->. congruence.
Qed.

Lemma evict_loop_sub fuel c :
  dirs (evict_loop fuel c) ⊆ dirs c ∧ filling (evict_loop fuel c) = filling c ∧ armed (evict_loop fuel c) = armed c.
Proof.
  revert c. induction fuel as [|f IH]; intros c; simpl; [done|]. case_if; [|done].
  destruct (map_to_list (dirs c)) as [|x l]; [done|]. destruct (IH (dropLocked (foldl older_set x l).1 c)) as (H1 & H2 & H3).
  unfold dropLocked in *. destruct (dirs c !! _) as [d|]; [|done]. simpl in *. split_and!; [|done|done].
  etrans; [exact H1|]. apply delete_subseteq.
Qed.

(** What the set of [p] holds after a fill. *)
Lemma endFill_dirs now p l c q d :
  dirs (endFill now p l c) !! q = Some d → tooBig d = false →
  (q = p ∧ filling c !! p ≠ None ∧ (∀ n, filling c !! p = Some n → n <= 0) ∧ names d = list_to_set (map d_name l)) ∨
  dirs c !! q = Some d.
Proof.
  unfold endFill. intros H Hb. destruct (filling c !! p) as [n|] eqn:En; [|by right].
  destruct (negb (armed (abandonFill p c)) || (0 <? n)) eqn:Ea; [by right|].
  apply orb_false_iff in Ea as [_ Ha]. zbool.
  assert (∀ d', (if bool_decide (direntCacheMaxDirNames < length l)%nat then true else false) = tooBig d' →
    dirs (evict_dirents (set_dirs (<[p := d']> (dirs (dropLocked p (abandonFill p c))))
           (total (dropLocked p (abandonFill p c)) + Z.of_nat (size (names d'))) (dropLocked p (abandonFill p c)))) !! q = Some d →
    (q = p ∧ d = d') ∨ dirs c !! q = Some d) as Hgen.
  { intros d' _ Hd. eapply lookup_weaken in Hd; [|apply evict_loop_sub]. simpl in Hd.
    apply lookup_insert_Some in Hd as [[-> ->]|[Hq Hd]]; [by left|right].
    unfold dropLocked in Hd. simpl in Hd. destruct (dirs c !! p); [|done]. simpl in Hd.
    by apply lookup_delete_Some in Hd as [_ Hd]. }
  case_bool_decide as Hl.
  - destruct (Hgen (mkSet ∅ now ∅ true)) as [[-> ->]|?]; [done| |done|by right].
    cbn [names]. change (Z.of_nat (size ∅)) with 0. by rewrite Z.add_0_r.
  - destruct (Hgen (mkSet (list_to_set (map d_name l)) now ∅ false)) as [[-> ->]|?]; [done|done| |by right].
    left. split_and!; [done|done| |done]. intros m [= <-]. lia.
Qed.

Lemma endFill_filling now p l c : filling (endFill now p l c) = delete p (filling c).
Proof.
  unfold endFill. destruct (filling c !! p) as [n|] eqn:En; [|done]. case_if; [done|].
  case_if; (unfold evict_dirents; rewrite (proj1 (proj2 (evict_loop_sub _ _))); simpl;
    unfold dropLocked; simpl; by destruct (dirs c !! p)).
Qed.

(** ** Steps keep the invariant *)

Lemma change_world p f w w' :
  (∀ d, tooBig (f d).1 = tooBig d ∧ Z.of_nat (size (names (f d).1)) = Z.of_nat (size (names d)) + (f d).2) →
  cache w' = change p f (cache w) → reads w' = reads w → (seen w' <= length (hist w'))%nat →
  (∀ q n, q ≠ p → lately_absent w q n → lately_absent w' q n) →
  (∀ d n, n ∉ names (f d).1 → (n ∉ names d → lately_absent w p n) → lately_absent w' p n) →
  world_ok w → world_ok w'.
Proof.
  intros Hf Ec Er Hs Hq Hp [W1 W2 W3 W4 W5]. split; rewrite ?Ec, ?Er.
  - by apply set_counts_ok.
  - done.
  - intros q d n Hd Hb Hn. destruct (change_dirs _ _ _ _ _ Hd Hb) as [[-> (e & He & ->)]|[Hne He]]; [|eauto].
    apply (Hp e); [done|]. intros. destruct (Hf e) as [Hb' _]. rewrite Hb in Hb'. eauto.
  - intros q s n [[-> (k0 & Hk & E)]|[Hne Hk]]%change_filling Hr Hn; [|eauto].
    apply W5 in Hk. lia.
  - intros q k [[-> (k0 & Hk & ->)]|[Hne Hk]]%change_filling; [|eauto]. apply W5 in Hk. lia.
Qed.

Lemma dir_at_snoc h e p : dir_at (h ++ [e]) p = apply_dev p (dir_at h p) e.
Proof. unfold dir_at. by rewrite foldl_app. Qed.

Lemma dir_at_next h r e p :
  h !! r = Some e → dir_at (take (S r) h) p = apply_dev p (dir_at (take r h) p) e.
Proof. intros He. by rewrite (take_S_r _ _ e), dir_at_snoc. Qed.

(** An absence that the next event does not undo moves past it. *)
Lemma absent_next w c e p n :
  hist w !! seen w = Some e → (de_parent e = p → de_present e = true → de_name e ≠ n) → lately_absent w p n →
  lately_absent (mkWorld (hist w) (S (seen w)) (reads w) c (clock w)) p n.
Proof.
  intros He Hne (r & Hr & Hn). pose proof (lookup_lt_Some _ _ _ He).
  destruct (decide (r = seen w)) as [->|]; [|exists r; simpl; split; [lia|done]].
  exists (S (seen w)). simpl. split; [lia|]. rewrite (dir_at_next _ _ _ _ He). unfold apply_dev.
  destruct (Z.eqb_spec (de_parent e) p) as [E|]; [|done].
  destruct (de_present e) eqn:Ep; [|set_solver]. specialize (Hne E eq_refl). set_solver.
Qed.

Lemma absent_commit w e p n : lately_absent w p n →
  lately_absent (mkWorld (hist w ++ [e]) (seen w) (reads w) (cache w) (clock w)) p n.
Proof.
  intros (r & Hr & Hn). exists r. simpl. rewrite length_app, take_app_le by lia. split; [lia|done].
Qed.

Lemma insert_fn_ok m n d :
  tooBig (insertLocked n (set_mine m d)).1 = tooBig d ∧
  Z.of_nat (size (names (insertLocked n (set_mine m d)).1)) = Z.of_nat (size (names d)) + (insertLocked n (set_mine m d)).2.
Proof. split; [apply (insert_big n (set_mine m d))|apply (insert_counts n (set_mine m d))]. Qed.
Lemma remove_fn_ok n d :
  tooBig (removeLocked n d).1 = tooBig d ∧
  Z.of_nat (size (names (removeLocked n d).1)) = Z.of_nat (size (names d)) + (removeLocked n d).2.
Proof. split; [apply remove_big|apply remove_counts]. Qed.

Lemma not_inserted x n d : x ∉ names (insertLocked n d).1 → x ≠ n ∧ x ∉ names d.
Proof. unfold insertLocked. case_bool_decide; set_solver. Qed.
Lemma not_left x n d : x ∉ names (removeLocked n d).1 → x = n ∨ x ∉ names d.
Proof. unfold removeLocked. case_bool_decide; simpl; [|auto]. destruct (decide (x = n)); set_solver. Qed.

Definition observe_fn (n : bytes) (present : bool) (d : direntSet) : direntSet * Z :=
  if present then insertLocked n (set_mine (mine d ∖ {[n]}) d)
  else if bool_decide (n ∈ mine d) then (d, 0) else removeLocked n d.

Lemma observe_fn_ok n b d :
  tooBig (observe_fn n b d).1 = tooBig d ∧
  Z.of_nat (size (names (observe_fn n b d).1)) = Z.of_nat (size (names d)) + (observe_fn n b d).2.
Proof.
  destruct b; simpl; [apply insert_fn_ok|].
  case_bool_decide; [simpl; split; [done|lia]|apply remove_fn_ok].
Qed.

Lemma deliver_ok w e :
  hist w !! seen w = Some e → world_ok w →
  world_ok (mkWorld (hist w) (S (seen w)) (reads w)
                    (observed (de_parent e) (de_name e) (de_present e) (cache w)) (clock w)).
Proof.
  intros He Hw. pose proof Hw as [W1 W2 W3 W4 W5].
  pose proof (lookup_lt_Some _ _ _ He).
  apply (change_world (de_parent e) (observe_fn (de_name e) (de_present e)) w); try done.
  - intros. apply observe_fn_ok.
  - intros q n Hq Hn. apply (absent_next w _ e); [done|congruence|done].
  - intros d n Hn Hold. destruct (de_present e) eqn:Eb; simpl in Hn.
    + apply not_inserted in Hn as [Hne Hn]. apply (absent_next w _ e); [done|congruence|auto].
    + destruct (decide (n = de_name e)) as [->|Hne].
      * exists (S (seen w)). simpl. split; [lia|]. rewrite (dir_at_next _ _ _ _ He). unfold apply_dev.
         rewrite Z.eqb_refl, Eb. set_solver.
      * apply (absent_next w _ e); [done|congruence|]. apply Hold. case_bool_decide; [done|].
         apply not_left in Hn as [|]; done.
Qed.

Lemma deleted_ok w p n r :
  hist w !! r = Some (mkDev p n false) → (seen w <= S r)%nat → world_ok w →
  world_ok (with_cache (deleted p n (cache w)) w).
Proof.
  intros Hr Hs Hw. pose proof Hw as [W1 W2 W3 W4 W5].
  pose proof (lookup_lt_Some _ _ _ Hr).
  apply (change_world p (λ d, removeLocked n (set_mine (mine d ∖ {[n]}) d)) w); try done.
  - intros d. apply (remove_fn_ok n (set_mine (mine d ∖ {[n]}) d)).
  - intros d x Hx Hold. apply not_left in Hx as [->|Hx]; [|auto].
    exists (S r). simpl. split; [lia|]. rewrite (dir_at_next _ _ _ _ Hr). unfold apply_dev. simpl.
    rewrite Z.eqb_refl. set_solver.
Qed.

Lemma begin_ok w p c :
  beginFill (clock w) p (cache w) = (c, true) → world_ok w →
  world_ok (mkWorld (hist w) (seen w) (delete p (reads w)) c (clock w)).
Proof.
  intros Hc [W1 W2 W3 W4 W5].
  assert (c = set_filling (<[p := 0]> (filling (cache w))) (cache w)) as ->.
  { unfold beginFill in Hc. repeat case_match; simplify_eq; done. }
  split; simpl; try done.
  - destruct W1. by split.
  - intros q s n [[<- _]|[_ Hk]]%lookup_insert_Some Hr; [by rewrite lookup_delete_eq in Hr|].
    apply lookup_delete_Some in Hr as [_ Hr]. eauto.
  - intros q k [[_ <-]|[_ Hk]]%lookup_insert_Some; [done|eauto].
Qed.

Lemma end_ok w p l :
  reads w !! p = Some (list_to_set (map d_name l)) → world_ok w →
  world_ok (mkWorld (hist w) (seen w) (delete p (reads w)) (endFill (clock w) p l (cache w)) (clock w)).
Proof.
  intros Hl [W1 W2 W3 W4 W5].
  split; simpl.
  - by apply endFill_ok.
  - done.
  - intros q d n Hd Hb Hn. destruct (endFill_dirs _ _ _ _ _ _ Hd Hb) as [(-> & Hk & Hle & Hnm)|]; [|eauto].
    destruct (filling (cache w) !! p) as [k|] eqn:Ek; [|done]. pose proof (W5 _ _ Ek). specialize (Hle k eq_refl).
    assert (k = 0) as -> by lia. apply (W4 p _ n Ek Hl). by rewrite <- Hnm.
  - intros q s n. rewrite endFill_filling. intros [Hq Hk]%lookup_delete_Some [_ Hs]%lookup_delete_Some. eauto.
  - intros q k. rewrite endFill_filling. intros [_ Hk]%lookup_delete_Some. eauto.
Qed.

Lemma world_step_ok w w' : world_step w w' → world_ok w → world_ok w'.
Proof.
  intros Hstep Hw. pose proof Hw as [W1 W2 W3 W4 W5].
  destruct Hstep as [e|e He|p n r Hr|p n r Hr Hs|p n r Hr|p c Hc|p Hp|p l Hl|p|t Ht| |Hf].
  - split; simpl; try done; try (intros; apply absent_commit; eauto). rewrite length_app. lia.
  - by apply deliver_ok.
  - apply (change_world p (λ d, let '(d, k) := insertLocked n d in (set_mine ({[n]} ∪ mine d) d, k)) w); try done.
    + intros d. pose proof (insert_big n d). pose proof (insert_counts n d). by destruct (insertLocked n d).
    + intros d x Hx Hold. apply Hold. pose proof (not_inserted x n d) as Hi. destruct (insertLocked n d). by apply Hi.
  - by apply (deleted_ok w p n r).
  - apply (change_world p (observe_fn n true) w); try done.
    + intros. apply observe_fn_ok.
    + intros d x Hx Hold. apply Hold. by apply not_inserted in Hx as [_ Hx].
  - by apply begin_ok.
  - split; simpl; try done. intros q s n Hk [[<- <-]|[_ Hs]]%lookup_insert_Some Hn; [|eauto].
    exists (length (hist w)). simpl. rewrite take_ge by lia. split; [lia|done].
  - by apply end_ok.
  - split; simpl; try done.
    + destruct W1. by split.
    + intros q s n [_ Hk]%lookup_delete_Some [_ Hs]%lookup_delete_Some. eauto.
    + intros q k [_ Hk]%lookup_delete_Some. eauto.
  - by split.
  - split; simpl; try done. destruct W1. by split.
  - split; simpl; try done. split; simpl; try done. rewrite map_size_empty. unfold direntCacheMaxDirs. lia.
Qed.

Lemma reachable_ok w : reachable w → world_ok w.
Proof.
  intros (h & t & H). assert (world_ok (start h t)) as H0.
  { split; simpl; try done. split; simpl; try done. rewrite map_size_empty. unfold direntCacheMaxDirs. lia. }
  induction H; [done|]. eauto using world_step_ok.
Qed.


Definition dc_name : bytes := [97].
Definition dc_other : bytes := [98].
Definition dc_filled : direntCache :=
  endFill 0 5 [mkDirentEntry dc_other 9] (beginFill 0 5 (arm (newDirentCache 10))).1.


(** ** Names this node created *)

(** What a name this node created is held against. *)
Definition held_name (p : Z) (n : bytes) (c : direntCache) : Prop :=
  ∀ d, dirs c !! p = Some d → tooBig d = false → n ∈ names d ∧ n ∈ mine d.

Lemma held_not_absent now p n c : held_name p n c → absent now p n c = false.
Proof.
  intros H. unfold absent. destruct (armed c); simpl; [|done]. destruct (dirs c !! p) as [d|] eqn:Ed; [|done].
  destruct (tooBig d) eqn:Eb; simpl; [done|]. destruct (fresh_at now c d); simpl; [|done].
  rewrite bool_decide_true; [done|]. by apply (H d).
Qed.

Lemma held_observed p n q m b c :
  (b = true → (q, m) ≠ (p, n)) → held_name p n c → held_name p n (observed q m b c).
Proof.
  intros Hne H d Hd Hb. unfold observed in Hd. destruct (change_dirs _ _ _ _ _ Hd Hb) as [[-> (e & He & ->)]|[_ He]]; [|eauto].
  assert (tooBig e = false) as Hbe by (rewrite <- Hb; symmetry; apply (observe_fn_ok m b e)).
  destruct (H e He Hbe) as [H1 H2]. destruct b; simpl.
  - assert (n ≠ m) by (intros ->; by apply Hne). unfold insertLocked. case_bool_decide; simpl; set_solver.
  - case_bool_decide as Hm; [done|]. assert (n ≠ m) by (intros ->; done).
    unfold removeLocked. case_bool_decide; simpl; set_solver.
Qed.

(** Once a create has been answered the cache does not report the new name
    absent, whatever deletions the watch still delivers, until an event or a
    lookup reports that very name present. *)
Theorem own_name_held now p n (evs : list (Z * bytes * bool)) c :
  (∀ q m, (q, m, true) ∈ evs → (q, m) ≠ (p, n)) →
  absent now p n (foldl (λ c '(q, m, b), observed q m b c) (created p n c) evs) = false.
Proof.
  intros Hevs. apply held_not_absent.
  assert (held_name p n (created p n c)) as H.
  { intros d Hd Hb. unfold created in Hd.
    destruct (change_dirs _ _ _ _ _ Hd Hb) as [[_ (e & He & ->)]|[? _]]; [|done].
    unfold insertLocked. case_bool_decide; simpl; set_solver. }
  revert H. generalize (created p n c). clear c. induction evs as [|[[q m] b] evs IH]; intros c H; simpl; [done|].
  apply IH; [intros; apply Hevs; by right|]. apply held_observed; [|done]. intros ->. apply Hevs. left.
Qed.

Lemma own_name_held_witness :
  absent 1 5 dc_name (foldl (λ c '(q, m, b), observed q m b c) (created 5 dc_name dc_filled) [(5, dc_name, false)]) = false.
Proof. apply (own_name_held 1 5 dc_name [(5, dc_name, false)]). intros q m H. by apply list_elem_of_singleton in H. Defined.

(** A lookup releases the name before its own event: the older DELETE of a peer,
    delivered next, takes a name this node has just created out of the set. *)
Theorem lookup_unholds_own_name :
  let c := observed 5 dc_name false (observed 5 dc_name true (created 5 dc_name dc_filled)) in
  absent 1 5 dc_name c = true.
Proof. vm_compute. reflexivity. Qed.

(** A delete acknowledged after the watch has delivered a later re-creation of
    the name reports the re-created name absent. *)
Theorem late_delete_ack_hides_name :
  let h := [mkDev 5 dc_name false; mkDev 5 dc_name true] in
  let c := deleted 5 dc_name (observed 5 dc_name true (observed 5 dc_name false dc_filled)) in
  absent 1 5 dc_name c = true ∧ dc_name ∈ dir_at h 5.
Proof. split; vm_compute; reflexivity. Qed.

(** A fill that straddles a reset can consume the claim of the next one: what it
    read before the gap is installed after it, though the watch will never
    deliver the creation it missed. *)
Theorem fill_across_gap_installs_old_read :
  let c := (beginFill 0 5 (arm (newDirentCache 10))).1 in
  let c := (beginFill 1 5 (arm (reset_dirents c))).1 in
  absent 2 5 dc_name (endFill 1 5 [mkDirentEntry dc_other 9] c) = true.
Proof. vm_compute. reflexivity. Qed.
