(* ===== verification/Daemon.v ===== *)
(** * The daemon and its read-only handlers

    Models the rest of the [Service] of internal/ipc/service.go (beside the lock
    entries and the device of Service: the timestamp queue, the inode block, the
    open descriptors, the directory cursors, the name sets, the connection to
    the kernel) and the handlers of internal/ipc/handlers.go that change
    nothing: LOOKUP, GETATTR, READDIR, READDIRPLUS, READLINK, STATFS.

    What the daemon only logs, and the unacknowledged notifications whose outcome
    it ignores, are left out. *)

From Stdlib Require Import SpecFloat.
From S2P Require Import Prelude Etcd EtcdFacts Schema Store Locks Extents Allocator ArenaPool InodeTimes Dirents Service DataPath Delegate LockCache Wire DataHandlers NodeCaches.

Record Daemon := mkDaemon {
  base : Service; times : Touch; inodes : inodeBlocks; open : openFiles; dirCursors : gmap Z dirCursor;
  dirents : direntCache; connected : bool; entryTimeout : Z; attrTimeout : Z
}.

Definition set_base (s : Service) (d : Daemon) : Daemon :=
  mkDaemon s (times d) (inodes d) (open d) (dirCursors d) (dirents d) (connected d) (entryTimeout d) (attrTimeout d).
Definition set_times (t : Touch) (d : Daemon) : Daemon :=
  mkDaemon (base d) t (inodes d) (open d) (dirCursors d) (dirents d) (connected d) (entryTimeout d) (attrTimeout d).
Definition set_inodes (i : inodeBlocks) (d : Daemon) : Daemon :=
  mkDaemon (base d) (times d) i (open d) (dirCursors d) (dirents d) (connected d) (entryTimeout d) (attrTimeout d).
Definition set_open (o : openFiles) (d : Daemon) : Daemon :=
  mkDaemon (base d) (times d) (inodes d) o (dirCursors d) (dirents d) (connected d) (entryTimeout d) (attrTimeout d).
Definition set_cursors (c : gmap Z dirCursor) (d : Daemon) : Daemon :=
  mkDaemon (base d) (times d) (inodes d) (open d) c (dirents d) (connected d) (entryTimeout d) (attrTimeout d).
Definition set_dirents (c : direntCache) (d : Daemon) : Daemon :=
  mkDaemon (base d) (times d) (inodes d) (open d) (dirCursors d) c (connected d) (entryTimeout d) (attrTimeout d).

(** ** Operations on the daemon *)

Definition dmn (A : Type) : Type := Daemon → prog (Daemon * A).
Definition dret {A} (a : A) : dmn A := λ d, Ret (d, a).
Definition dbind {A B} (p : dmn A) (f : A → dmn B) : dmn B := λ d, x ⇐ p d; f x.2 x.1.
Notation "x ⇝ p ; q" := (dbind p (λ x, q))
  (at level 100, p at next level, right associativity) : etcfs_scope.

Definition dgets {A} (f : Daemon → A) : dmn A := λ d, Ret (d, f d).
Definition dmodify (f : Daemon → Daemon) : dmn unit := λ d, Ret (f d, tt).
Definition dlift {A} (p : prog A) : dmn A := λ d, x ⇐ p; Ret (d, x).
Definition on_svc {A} (p : svc A) : dmn A := λ d, x ⇐ p (base d); Ret (set_base x.1 d, x.2).
Definition on_store {A} (f : Store → prog A) : dmn A := λ d, x ⇐ f (store (base d)); Ret (d, x).
(** An operation of the store that takes and leaves the timestamp queue. *)
Definition on_times {A} (f : Store → Touch → prog (Touch * A)) : dmn A :=
  λ d, x ⇐ f (store (base d)) (times d); Ret (set_times x.1 d, x.2).
Definition on_dirents (f : direntCache → direntCache) : dmn unit := dmodify (λ d, set_dirents (f (dirents d)) d).
Definition now_d : dmn Z := dlift (call QNow).

(** A handler: it always answers. *)
Definition handler : Type := bytes → dmn bytes.
Definition errResp (v : Z) : dmn bytes := dret (int32Resp v).

(** ** Answers *)

Definition entry_resp (ino : Z) (rec : InodeRecord) : dmn bytes :=
  dgets (λ d, entryResp (entryTimeout d) (attrTimeout d) ino (Some rec)).
Definition negative_resp : dmn bytes := dgets (λ d, negativeEntryResp (entryTimeout d)).
Definition attr_resp (rec : InodeRecord) : dmn bytes := dgets (λ d, attrResp (attrTimeout d) rec).

(** What this node has changed and not yet published: a file's size, a
    directory's times. *)
Definition withPending (d : Daemon) (rec : InodeRecord) : InodeRecord :=
  let sized := match pendingSize (base d) (Ino rec) with
               | Some size => if size =? Size rec then rec else set_Size size rec
               | None => rec
               end in
  (PendingInodeTimes (times d) sized).1.

(** ** Lookup *)

Definition direntsAbsent (parent : Z) (name : bytes) : dmn bool :=
  now ⇝ now_d; dgets (λ d, absent now parent name (dirents d)).

Definition prefetchDirents (parent : Z) : dmn unit :=
  now ⇝ now_d;
  begun ⇝ (λ d, let '(c, b) := beginFill now parent (dirents d) in Ret (set_dirents c d, b));
  if negb (begun : bool) then dret tt
  else
    r ⇝ on_store (λ st, ListDirents st parent);
    match r with
    | Err _ => on_dirents (abandonFill parent)
    | Ok entries => now ⇝ now_d; on_dirents (endFill now parent entries)
    end.

Definition handleLookup : handler := λ payload,
  let r := newReader payload in
  let '(parent, r) := u64 r in let '(name, r) := str r in
  if negb (r_ok r) then errResp errInval
  else
    gone ⇝ direntsAbsent parent name;
    if (gone : bool) then negative_resp
    else
      l ⇝ on_store (λ st, LookupDirent st parent name);
      match l with
      | Err _ => errResp errIO
      | Ok ino =>
        if ino =? 0 then _ ⇝ prefetchDirents parent; negative_resp
        else
          _ ⇝ on_dirents (observed parent name true);
          g ⇝ on_store (λ st, GetInode st ino);
          match g with
          | Ok (Some rec) => rec ⇝ dgets (λ d, withPending d rec); entry_resp ino rec
          | _ => errResp errIO
          end
      end.

Definition handleGetattr : handler := λ payload,
  let r := newReader payload in
  let '(ino, r) := u64 r in
  if negb (r_ok r) then errResp errInval
  else
    g ⇝ on_store (λ st, GetInode st ino);
    match g with
    | Ok (Some rec) => rec ⇝ dgets (λ d, withPending d rec); attr_resp rec
    | _ => errResp errNoEnt
    end.

(** ** Listing a directory *)

Definition minDirentCost : Z := 32.  (* 24 + 8 *)
Definition direntHeader : Z := 24.
Definition entryOutBytes : Z := 128.

Definition pageLimit (size : Z) (plus : bool) : Z :=
  if size =? 0 then 0
  else
    let cost := minDirentCost + (if plus then entryOutBytes else 0) in
    if 0 <? size / cost then size / cost else 1.

Definition direntCost (plus : bool) (e : DirentEntry) : Z :=
  direntHeader + (Z.of_nat (length (d_name e)) + 7) / 8 * 8 + (if plus then entryOutBytes else 0).

(** The entries that fit the budget. *)
Fixpoint fitting (budget : Z) (plus : bool) (l : list DirentEntry) : list DirentEntry :=
  match l with
  | [] => []
  | e :: l' => let budget := budget - direntCost plus e in
               if budget <? 0 then [] else e :: fitting budget plus l'
  end.

(** At least one entry is always returned. *)
Definition truncateToBuffer (entries : list DirentEntry) (size : Z) (plus : bool) : list DirentEntry :=
  if size =? 0 then entries
  else match fitting size plus entries with [] => take 1 entries | l => l end.

Definition direntPage (ino offset size : Z) (plus : bool) : dmn (result (list DirentEntry)) :=
  now ⇝ now_d;
  after ⇝ (λ d, let '(c, a) := resumeAt now ino offset (dirCursors d) in Ret (set_cursors c d, a));
  page ⇝ match after with
         | Some name => on_store (λ st, ListDirentsAfter st ino name (pageLimit size plus))
         | None => r ⇝ on_store (λ st, ListDirents st ino);
                   dret match r with
                        | Ok all => Ok (if Z.of_nat (length all) <=? offset then [] else drop (Z.to_nat offset) all)
                        | Err e => Err e
                        end
         end;
  match page with
  | Err e => dret (Err e)
  | Ok entries =>
    let entries := truncateToBuffer entries size plus in
    match last entries with
    | None => dret (Ok entries)
    | Some e =>
      now ⇝ now_d;
      _ ⇝ dmodify (λ d, set_cursors (record_cursor now ino (add64 offset (Z.of_nat (length entries))) (d_name e) (dirCursors d)) d);
      dret (Ok entries)
    end
  end.

Definition DirentTypeFile : Z := 8.
Definition DirentTypeDir : Z := 4.
Definition DirentTypeSymlink : Z := 10.

Definition direntType (rec : option InodeRecord) : Z :=
  match rec with
  | None => DirentTypeFile
  | Some r =>
    if ftype (Mode r) =? ModeDir then DirentTypeDir
    else if ftype (Mode r) =? ModeSymlink then DirentTypeSymlink else DirentTypeFile
  end.

(** [GetMany] (client.go): the keys in transactions of at most 128 reads. *)
Definition maxTxnReads : nat := 128.
Fixpoint get_chunks (st : Store) (fuel : nat) (keys : list bytes) (out : gmap bytes bytes) : prog (result (gmap bytes bytes)) :=
  match fuel, keys with
  | O, _ | _, [] => Ret (Ok out)
  | S fuel', _ =>
    x ⇐? readTxn st (map RKey (take maxTxnReads keys)) false;
    get_chunks st fuel' (drop maxTxnReads keys) (foldl (λ m e, <[e.1 := kv_val e.2]> m) out (concat x))
  end.
Definition GetMany (st : Store) (keys : list bytes) : prog (result (gmap bytes bytes)) :=
  get_chunks st (length keys) keys ∅.

Definition entry_bytes (d : Daemon) (plus : bool) (records : gmap bytes bytes) (cookie : Z) (e : DirentEntry) : bytes :=
  let rec := DecodeInode (default [] (records !! InodeKey (d_ino e))) in
  w64 (d_ino e) ++ w32 (Z.of_nat (length (d_name e))) ++ d_name e ++ w32 (direntType rec) ++ w64 cookie ++
  (if plus then wAttr (withPending d (default (zero_rec (d_ino e)) rec)) ++ w32 (entryTimeout d) ++ w32 (attrTimeout d) else []).

Fixpoint entries_bytes (d : Daemon) (plus : bool) (records : gmap bytes bytes) (cookie : Z) (l : list DirentEntry) : bytes :=
  match l with
  | [] => []
  | e :: l' => entry_bytes d plus records (wrap64 cookie) e ++ entries_bytes d plus records (cookie + 1) l'
  end.

Definition readdirResp (plus : bool) : handler := λ payload,
  let r := newReader payload in
  let '(ino, r) := u64 r in let '(offset, r) := u64 r in let '(size, r) := u32 r in
  if negb (r_ok r) then errResp errInval
  else
    p ⇝ direntPage ino offset size plus;
    match p with
    | Err _ => errResp errIO
    | Ok entries =>
      m ⇝ on_store (λ st, GetMany st (map (λ e, InodeKey (d_ino e)) entries));
      match m with
      | Err _ => errResp errIO
      | Ok records => dgets (λ d, w32 0 ++ w32 (Z.of_nat (length entries)) ++ entries_bytes d plus records (offset + 1) entries)
      end
    end.

Definition handleReaddir : handler := readdirResp false.
Definition handleReaddirPlus : handler := readdirResp true.

Definition handleReadlink : handler := λ payload,
  let r := newReader payload in
  let '(ino, r) := u64 r in
  if negb (r_ok r) then errResp errInval
  else
    g ⇝ on_store (λ st, Get st (InodeSymlinkKey ino));
    match g with
    | Ok (Some target) => dret (dataResp target)
    | _ => errResp errNoEnt
    end.

(** ** Space *)

(** Double precision, as IEEE 754 rounds it; the numbers here are not
    negative. *)
Definition float64 : Type := spec_float.
Definition of_uint (n : Z) : float64 := binary_normalize 53 1024 n 0 false.
Definition fdiv : float64 → float64 → float64 := SFdiv 53 1024.
Definition fmul : float64 → float64 → float64 := SFmul 53 1024.
Definition fsub : float64 → float64 → float64 := SFsub 53 1024.
(** [uint64(f)] for what fits: the fraction is dropped. *)
Definition to_uint (f : float64) : Z :=
  match f with S754_finite false m e => Z.shiftl (Zpos m) e | _ => 0 end.

Definition LiveRatio (a : Allocator) : float64 :=
  let '(used, total) := LiveBlocks a in
  if total =? 0 then of_uint 0 else fdiv (of_uint used) (of_uint total).

Definition freeBytes (deviceSize : Z) : dmn Z :=
  r ⇝ on_store CountOwnedArenas;
  match r with
  | Err _ => dret 0
  | Ok owned =>
    let claimed := mul64 owned ArenaSizeBytes in
    let unclaimed := if claimed <? deviceSize then deviceSize - claimed else 0 in
    a ⇝ dgets (λ d, alloc (base d));
    let mine := mul64 (ArenaCount a) ArenaSizeBytes in
    let localFree := to_uint (fmul (of_uint mine) (fsub (of_uint 1) (LiveRatio a))) in
    dret (add64 unclaimed localFree)
  end.

Definition handleStatfs : handler := λ _,
  v ⇝ dgets (λ d, dev (base d));
  space ⇝ match v with
          | Some dv => f ⇝ freeBytes (totalSize dv); dret (totalSize dv / 512, f / 512)
          | None => dret (1073741824, 536870912)
          end;
  c ⇝ on_store (λ st, Get st KeyInodeAllocCounter);
  let files := match c with
               | Ok (Some v) => let n := DecodeUint64 v in if FirstUsableIno <? n then n - FirstUsableIno else 0
               | _ => 0
               end in
  dret (statfsResp space.1 space.2 files space.2).
