(* ===== verification/Handlers.v ===== *)
(** * The handlers that change something, and dispatch

    Models the rest of internal/ipc/handlers.go (CREATE, OPEN, RELEASE, MKDIR,
    UNLINK, RMDIR, RENAME, SETATTR, SYMLINK, LINK, MKNOD), the attribute handlers
    of internal/ipc/xattr.go, FSYNC and FLUSH of internal/ipc/delegate.go and
    [dispatch] of internal/ipc/socket.go. *)

From S2P Require Import Prelude Etcd EtcdFacts Schema Store Locks Extents Allocator ArenaPool InodeTimes Dirents StoreLogic StoreProps Fencing LinkCounts NamespaceProps Xattrs Service DataPath Delegate LockCache Wire DataHandlers NodeCaches Daemon.

(** [&^] on 32-bit words. *)
Definition applyUmask (mode umask : Z) : Z := Z.ldiff mode (Z.land umask 511).

Definition allocInode : dmn (result Z) := λ d,
  x ⇐ reserve (store (base d)) (inodes d); Ret (set_inodes x.1 d, x.2).

(** ** Creating *)

(** What every handler that makes a name does around the store's operation. *)
Definition creating (parent : Z) (name : bytes) (mk : Z → Store → Touch → prog (Touch * (InodeRecord * result unit))) : dmn bytes :=
  a ⇝ allocInode;
  match a with
  | Err e => errResp (errnoFor e errNoSpace)
  | Ok ino =>
    x ⇝ on_times (mk ino);
    match x.2 with
    | Err e => errResp (errnoFor e errExist)
    | Ok _ => _ ⇝ on_dirents (created parent name); entry_resp ino x.1
    end
  end.

Definition handleMkdir : handler := λ payload,
  let r := newReader payload in
  let '(parent, r) := u64 r in let '(name, r) := str r in
  let '(mode, r) := u32 r in let '(umask, r) := u32 r in let '(uid, r) := u32 r in let '(gid, r) := u32 r in
  if negb (r_ok r) then errResp errInval
  else creating parent name (λ ino st t, AtomicCreateDir st t parent name ino (applyUmask mode umask) uid gid).

Definition handleSymlink : handler := λ payload,
  let r := newReader payload in
  let '(parent, r) := u64 r in let '(name, r) := str r in let '(target, r) := str r in
  let '(uid, r) := u32 r in let '(gid, r) := u32 r in
  if negb (r_ok r) then errResp errInval
  else creating parent name (λ ino st t, AtomicCreateSymlink st t parent name ino target uid gid).

Definition handleMknod : handler := λ payload,
  let r := newReader payload in
  let '(parent, r) := u64 r in let '(name, r) := str r in
  let '(mode, r) := u32 r in let '(rdev, r) := u32 r in let '(umask, r) := u32 r in
  let '(uid, r) := u32 r in let '(gid, r) := u32 r in
  if negb (r_ok r) then errResp errInval
  else creating parent name (λ ino st t, AtomicCreateNode st t parent name ino (applyUmask mode umask) rdev uid gid).

(** May the kernel keep this open's pages? *)
Definition cacheableOpen (flags : Z) : dmn bool := λ d,
  if negb (pageCache (opts (base d))) || negb (Z.land flags oDSync =? 0) then Ret (d, false)
  else if negb (connected d) then Ret (d, false)
  else Ret (set_base (set_pagesCached true (base d)) d, true).

Definition prepare_lock (ino : Z) : dmn (result (bytes * cmp * op)) := λ d,
  x ⇐ PrepareLock (store (base d)) (lstate (base d)) ino LockExclusive inodeLockTTL;
  Ret (set_base (set_lstate x.1 (base d)) d, x.2).

Definition discard_created (ino : Z) (holder : option bytes) : dmn unit :=
  match holder with Some h => on_svc (discardCreatedLock ino h) | None => dret tt end.

Definition create_resp (rec : InodeRecord) (keep : bool) : dmn bytes :=
  dgets (λ d, createResp (entryTimeout d) (attrTimeout d) (Ino rec) (Some rec) keep).

Definition handleCreate : handler := λ payload,
  let r := newReader payload in
  let '(parent, r) := u64 r in let '(name, r) := str r in
  let '(mode, r) := u32 r in let '(flags, r) := u32 r in
  let '(umask, r) := u32 r in let '(uid, r) := u32 r in let '(gid, r) := u32 r in
  if negb (r_ok r) then errResp errInval
  else
    a ⇝ allocInode;
    match a with
    | Err e => errResp (errnoFor e errNoSpace)
    | Ok ino =>
      l ⇝ prepare_lock ino;
      let '(holder, extra) := match l with
                              | Ok (h, c, o) => (Some h, mkExtra [c] [o])
                              | Err _ => (None, no_extra)
                              end in
      x ⇝ on_times (λ st t, AtomicCreateFile st t parent name ino (applyUmask mode umask) uid gid extra);
      match x.2 with
      | Err e => _ ⇝ discard_created ino holder; errResp (errnoFor e errExist)
      | Ok _ =>
        now ⇝ now_d;
        _ ⇝ match holder with
            | Some h => ok ⇝ on_svc (seedCreatedLock ino h x.1 now);
                        if (ok : bool) then dret tt else on_svc (discardCreatedLock ino h)
            | None => dret tt
            end;
        _ ⇝ on_dirents (created parent name);
        _ ⇝ dmodify (λ d, set_open (retain (Ino x.1) (open d)) d);
        keep ⇝ cacheableOpen flags;
        create_resp x.1 keep
      end
    end.

(** ** Opening and closing *)

Definition oTrunc : Z := 512.  (* 0x200 *)

Definition truncate_locked (ino : Z) : svc (option Z * bool) :=
  f ⇠ flushEntry ino;
  match f with
  | Err _ => sret (Some errIO, false)
  | Ok _ => r ⇠ truncateToZero ino; sret (match r with Ok _ => None | Err e => Some (errnoFor e errIO) end, false)
  end.

(** The descriptor is counted while the lock is still held; nothing between the
    two looks at it. *)
Definition handleOpen : handler := λ payload,
  let r := newReader payload in
  let '(ino, r) := u64 r in let '(flags, r) := u32 r in
  if negb (r_ok r) then errResp errInval
  else
    t ⇝ (if negb (Z.land flags oTrunc =? 0)
         then on_svc (locked ino LockExclusive (Some errAgain) (truncate_locked ino)) else dret None);
    match t with
    | Some e => errResp e
    | None =>
      _ ⇝ dmodify (λ d, set_open (retain ino (open d)) d);
      keep ⇝ cacheableOpen flags;
      dret (openResp keep)
    end.

Definition handleRelease : handler := λ payload,
  let r := newReader payload in
  let '(ino, r) := u64 r in
  if negb (r_ok r) then errResp errInval
  else
    orphan ⇝ (λ d, let '(o, b) := release_fd ino (open d) in Ret (set_open o d, b));
    _ ⇝ (if (orphan : bool) then
           _ ⇝ on_store (λ st, DeleteOrphan st ino);
           _ ⇝ on_svc (yieldQuietCachedLock ino);
           dret tt
         else dret tt);
    dret okResp.

(** ** Removing names *)

Definition held_open (ino : Z) : dmn bool := λ d,
  let '(o, b) := heldOpen ino (open d) in Ret (set_open o d, b).

Definition touch_dir (parent : Z) : dmn unit :=
  on_times (λ st t, t' ⇐ touchDir st t parent; Ret (t', tt)).

(** An attempt of [AtomicUnlinkKeepingOpen] (dirent.go), called with the
    daemon's [heldOpen], which remembers what it was asked. *)
Definition unlink_open_attempt (parent : Z) (name : bytes) : dmn (result (option Z)) :=
  g ⇝ on_store (λ st, GetRevision st (DirentKey parent name));
  match g with
  | Err e => dret (Err e)
  | Ok x =>
    match first_kv x.1 with
    | None => dret (Err ErrNotFound)
    | Some e =>
      let ino := DecodeUint64 (kv_val e) in
      i ⇝ on_store (λ st, GetInodeRev st ino);
      match i with
      | Err er => dret (Err er)
      | Ok (None, _) => dret (Err ErrNotFound)
      | Ok (Some rec, rev) =>
        held ⇝ (if (Nlink rec <=? 1) && negb (is_dir rec) then held_open ino else dret false);
        tl ⇝ on_store (λ st, unlink_tail st ino rec (Some (λ _, held)));
        c ⇝ on_store (λ st, Txn st [mod_is (DirentKey parent name) (kv_mod e); InodeUnchanged ino rev]
                                  (DeleteDirent parent name :: tl.1) []);
        match c with
        | Err er => dret (Err er)
        | Ok true => _ ⇝ touch_dir parent; dret (Ok (Some tl.2))
        | Ok false => dret (Ok None)
        end
      end
    end
  end.

Fixpoint unlink_open_loop (parent : Z) (name : bytes) (fuel i : nat) : dmn (result Z) :=
  match fuel with
  | O => dret (Err ErrConflict)
  | S fuel' =>
    r ⇝ unlink_open_attempt parent name;
    match r with
    | Err e => dret (Err e)
    | Ok (Some removed) => dret (Ok removed)
    | Ok None =>
      done ⇝ dlift (call (QBackoff i));
      if (done : bool) then dret (Err EOther) else unlink_open_loop parent name fuel' (S i)
    end
  end.
Definition unlinkKeepingOpen (parent : Z) (name : bytes) : dmn (result Z) :=
  unlink_open_loop parent name casAttempts 0.

Definition handleUnlink : handler := λ payload,
  let r := newReader payload in
  let '(parent, r) := u64 r in let '(name, r) := str r in
  if negb (r_ok r) then errResp errInval
  else
    u ⇝ unlinkKeepingOpen parent name;
    match u with
    | Err e => errResp (errnoFor e errNoEnt)
    | Ok removed =>
      _ ⇝ on_dirents (deleted parent name);
      _ ⇝ (if removed =? 0 then dret (Ok tt) else on_svc (yieldQuietCachedLock removed));
      dret okResp
    end.

Definition handleRmdir : handler := λ payload,
  let r := newReader payload in
  let '(parent, r) := u64 r in let '(name, r) := str r in
  if negb (r_ok r) then errResp errInval
  else
    u ⇝ on_store (λ st, AtomicRmdir st parent name);
    match u with
    | Err e => errResp (errnoFor e errNoEnt)
    | Ok _ => _ ⇝ on_dirents (deleted parent name); dret okResp
    end.

Definition handleRename : handler := λ payload,
  let r := newReader payload in
  let '(oldParent, r) := u64 r in let '(oldName, r) := str r in
  let '(newParent, r) := u64 r in let '(newName, r) := str r in
  let '(flags, r) := u32 r in
  if negb (r_ok r) then errResp errInval
  else
    l ⇝ on_store (λ st, LookupDirent st oldParent oldName);
    match l with
    | Err _ => errResp errNoEnt
    | Ok ino =>
      if ino =? 0 then errResp errNoEnt
      else
        f ⇝ on_svc (flushInode ino);
        match f with
        | Err _ => errResp errIO
        | Ok _ =>
          x ⇝ on_times (λ st t, AtomicRename st t oldParent oldName newParent newName ino flags);
          match x with
          | Err e => errResp (errnoFor e errExist)
          | Ok _ =>
            _ ⇝ on_dirents (λ c, created newParent newName (deleted oldParent oldName c));
            dret okResp
          end
        end
    end.

Definition handleLink : handler := λ payload,
  let r := newReader payload in
  let '(ino, r) := u64 r in let '(newParent, r) := u64 r in let '(name, r) := str r in
  if negb (r_ok r) then errResp errInval
  else
    f ⇝ on_svc (flushInode ino);
    match f with
    | Err _ => errResp errIO
    | Ok _ =>
      x ⇝ on_times (λ st t, AtomicLink st t ino newParent name);
      match x with
      | Err e => errResp (errnoFor e errExist)
      | Ok rec => _ ⇝ on_dirents (created newParent name); entry_resp ino rec
      end
    end.

(** ** Attributes *)

Definition fattrMode : Z := 1.
Definition fattrUID : Z := 2.
Definition fattrGID : Z := 4.
Definition fattrSize : Z := 8.
Definition fattrAtime : Z := 16.
Definition fattrMtime : Z := 32.
Definition fattrAtimeNow : Z := 128.
Definition fattrMtimeNow : Z := 256.
Definition fattrCtime : Z := 1024.

Definition selects (valid mask : Z) : bool := negb (Z.land valid mask =? 0).

Record setattrFields := mkFields { f_size : Z; f_mode : Z; f_uid : Z; f_gid : Z; f_atime : Z; f_mtime : Z; f_ctime : Z }.

Definition set_Mode (m : Z) (r : InodeRecord) : InodeRecord := set_Size_Mode (Size r) m r.
Definition set_UID (u : Z) (r : InodeRecord) : InodeRecord :=
  mkInode (Ino r) (Size r) (Blocks r) (Mode r) (Nlink r) u (GID r) (Rdev r) (Blksize r) (Generation r) (Atime r) (Mtime r) (Ctime r).
Definition set_GID (g : Z) (r : InodeRecord) : InodeRecord :=
  mkInode (Ino r) (Size r) (Blocks r) (Mode r) (Nlink r) (UID r) g (Rdev r) (Blksize r) (Generation r) (Atime r) (Mtime r) (Ctime r).

(** The stored type bits with the permissions the caller sent. *)
Definition chmod_mode (old new : Z) : Z := Z.lor (Z.land old S_IFMT) (Z.ldiff new S_IFMT).

Definition applySetattr (rec : InodeRecord) (valid : Z) (f : setattrFields) (now : Z) : InodeRecord :=
  let r := rec in
  let r := if selects valid fattrSize then set_Size (f_size f) r else r in
  let r := if selects valid fattrMode then set_Mode (chmod_mode (Mode r) (f_mode f)) r else r in
  let r := if selects valid fattrUID then set_UID (f_uid f) r else r in
  let r := if selects valid fattrGID then set_GID (f_gid f) r else r in
  let r := if selects valid fattrAtime then set_Atime (f_atime f) r else r in
  let r := if selects valid fattrMtime then set_Mtime (f_mtime f) r else r in
  let r := if selects valid fattrCtime then set_Ctime (f_ctime f) r else r in
  let r := if selects valid fattrAtimeNow then set_Atime now r else r in
  let r := if selects valid fattrMtimeNow then set_Mtime now r else r in
  if selects valid (Z.lor (Z.lor (Z.lor fattrMode fattrUID) fattrGID) fattrSize) && negb (selects valid fattrCtime)
  then set_Ctime now r else r.

Definition setattrEnforces (rec : InodeRecord) (valid : Z) (f : setattrFields) : bool :=
  if selects valid fattrMode && negb (chmod_mode (Mode rec) (f_mode f) =? Mode rec) then true
  else if selects valid fattrUID && negb (f_uid f =? UID rec) then true
  else if selects valid fattrGID && negb (f_gid f =? GID rec) then true
  else selects valid fattrSize.

Definition setattrRetries : nat := 3.

(** [None]: the record moved underneath; try again. *)
Definition commitSetattr (ino : Z) (rec : InodeRecord) (rev valid : Z) (f : setattrFields) : dmn (option bytes) :=
  t ⇝ (if selects valid fattrSize && (f_size f <? Size rec) then on_svc (truncate ino (f_size f)) else dret (Ok tt));
  match t with
  | Err e => dret (Some (int32Resp (errnoFor e errIO)))
  | Ok _ =>
    now ⇝ now_d;
    let rec := applySetattr rec valid f now in
    ok ⇝ on_store (λ st, Txn st [InodeUnchanged ino rev] [put (InodeKey ino) (EncodeInode rec)] []);
    match ok with
    | Err e => dret (Some (int32Resp (errnoFor e errIO)))
    | Ok false => dret None
    | Ok true => r ⇝ attr_resp rec; dret (Some r)
    end
  end.

Definition moved (a b : Z) : option Z := if a =? b then None else Some a.

(** [None]: write-behind is off. *)
Definition deferSetattrTimes (rec : InodeRecord) (valid : Z) (f : setattrFields) : dmn (option bytes) :=
  before ⇝ dgets (λ d, (PendingInodeTimes (times d) rec).1);
  now ⇝ now_d;
  let updated := applySetattr before valid f now in
  queued ⇝ (λ d, let '(t, b) := QueueInodeTimes (times d) (Ino updated)
                     (moved (Atime updated) (Atime before)) (moved (Mtime updated) (Mtime before))
                     (moved (Ctime updated) (Ctime before)) in
                 Ret (set_times t d, b));
  if negb (queued : bool) then dret None else r ⇝ attr_resp updated; dret (Some r).

Definition take_times (ino : Z) : dmn (option (Z * timeUpdate)) := λ d,
  let '(t, q) := TakeInodeTimes (times d) ino in Ret (set_times t d, q).
Definition requeue_times (q : option (Z * timeUpdate)) : dmn unit :=
  match q with Some p => dmodify (λ d, set_times (RequeueInodeTimes (times d) p) d) | None => dret tt end.

Fixpoint setattr_loop (ino valid : Z) (f : setattrFields) (fuel : nat) : dmn bytes :=
  match fuel with
  | O => errResp errAgain
  | S fuel' =>
    q ⇝ take_times ino;
    g ⇝ on_store (λ st, GetInodeRev st ino);
    match g with
    | Ok (Some rec, rev) =>
      let rec := match q with Some p => (apply p.2 rec).1 | None => rec end in
      r ⇝ commitSetattr ino rec rev valid f;
      match r with
      | Some resp => dret resp
      | None => _ ⇝ requeue_times q; setattr_loop ino valid f fuel'
      end
    | _ => _ ⇝ requeue_times q; errResp errNoEnt
    end
  end.

Definition setattr_unlocked (ino valid : Z) (f : setattrFields) : dmn bytes :=
  g ⇝ on_store (λ st, GetInode st ino);
  match g with
  | Ok (Some rec) =>
    r ⇝ (if setattrEnforces rec valid f then dret None else deferSetattrTimes rec valid f);
    match r with
    | Some resp => dret resp
    | None => setattr_loop ino valid f (S setattrRetries)
    end
  | _ => errResp errNoEnt
  end.

(** A change of size works under the exclusive lock, what is buffered published
    first; the lock is given back without a metadata snapshot. *)
Definition setattr_sized (ino valid : Z) (f : setattrFields) : dmn bytes :=
  l ⇝ on_svc (lockInode ino LockExclusive);
  match l with
  | Err _ => errResp errAgain
  | Ok _ =>
    b ⇝ on_svc (flushEntry ino);
    r ⇝ match b with Err _ => errResp errIO | Ok _ => setattr_unlocked ino valid f end;
    _ ⇝ on_svc (release ino LockExclusive false);
    dret r
  end.

(** [time.Unix]. *)
Definition unix_time (sec nsec : Z) : Z := to_i64 sec * nanos + nsec.

Definition handleSetattr : handler := λ payload,
  let r := newReader payload in
  let '(ino, r) := u64 r in let '(_, r) := u64 r in let '(valid, r) := u32 r in
  let '(size, r) := u64 r in
  let '(mode, r) := u32 r in let '(uid, r) := u32 r in let '(gid, r) := u32 r in
  let '(atime, r) := u64 r in let '(mtime, r) := u64 r in let '(ctime, r) := u64 r in
  let '(atimeNsec, r) := u32 r in let '(mtimeNsec, r) := u32 r in let '(ctimeNsec, r) := u32 r in
  let f := mkFields size mode uid gid (unix_time atime atimeNsec) (unix_time mtime mtimeNsec) (unix_time ctime ctimeNsec) in
  if negb (r_ok r) then errResp errInval
  else if selects valid fattrSize then setattr_sized ino valid f else setattr_unlocked ino valid f.

(** ** Extended attributes *)

Definition privilegedXattrPrefix (name : bytes) : bool := has_prefix (lit "trusted.") name.
Definition xattrPublish : bytes := lit "user.etcfs.publish".

Definition handleSetxattr : handler := λ payload,
  let r := newReader payload in
  let '(ino, r) := u64 r in let '(name, r) := str r in let '(value, r) := blob r in
  let '(flags, r) := u32 r in let '(uid, r) := u32 r in
  if negb (r_ok r) then errResp errInval
  else if privilegedXattrPrefix name && negb (uid =? 0) then errResp errPerm
  else if bool_decide (name = xattrPublish) then
    p ⇝ on_svc (publishInode ino);
    match p with Ok _ => dret okResp | Err _ => errResp errIO end
  else p ⇝ on_store (λ st, SetXattr st ino name value flags); dret (resp_of p errIO).

Definition handleGetxattr : handler := λ payload,
  let r := newReader payload in
  let '(ino, r) := u64 r in let '(name, r) := str r in
  if negb (r_ok r) then errResp errInval
  else
    g ⇝ on_store (λ st, GetXattr st ino name);
    dret match g with Ok value => dataResp value | Err e => int32Resp (errnoFor e errIO) end.

Definition handleListxattr : handler := λ payload,
  let r := newReader payload in
  let '(ino, r) := u64 r in
  if negb (r_ok r) then errResp errInval
  else
    g ⇝ on_store (λ st, ListXattrs st ino);
    dret match g with
         | Ok names => dataResp (concat (map (λ n, n ++ [0]) names))
         | Err e => int32Resp (errnoFor e errIO)
         end.

Definition handleRemovexattr : handler := λ payload,
  let r := newReader payload in
  let '(ino, r) := u64 r in let '(name, r) := str r in let '(uid, r) := u32 r in
  if negb (r_ok r) then errResp errInval
  else if privilegedXattrPrefix name && negb (uid =? 0) then errResp errPerm
  else p ⇝ on_store (λ st, RemoveXattr st ino name); dret (resp_of p errIO).

(** ** Making a file durable *)

(** One inode has at most one update queued, so the order a Go map gives is no
    choice here. *)
Definition flush_times (ino : Z) : dmn unit :=
  on_times (λ st t, t' ⇐ FlushInodeTimes st (λ l, l) t ino; Ret (t', tt)).

Definition fsyncInode (durable : bool) : handler := λ payload,
  let r := newReader payload in
  let '(ino, r) := u64 r in
  if negb (r_ok r) then errResp errInval
  else
    _ ⇝ (if durable then flush_times ino else dret tt);
    f ⇝ on_svc (flushInode ino);
    match f with
    | Err _ => errResp errIO
    | Ok _ =>
      v ⇝ dgets (λ d, dev (base d));
      s ⇝ match v with
          | Some dv => if direct dv then dret (Ok tt) else dlift FlushDevice
          | None => dret (Ok tt)
          end;
      match s with Ok _ => dret okResp | Err _ => errResp errIO end
    end.
Definition handleFsync : handler := fsyncInode true.
Definition handleFlush : handler := fsyncInode false.

(** ** Dispatch *)

Definition ok_handler : handler := λ _, dret okResp.
Definition unsupported : handler := λ _, errResp errNoSys.

(** The handler of each operation (the table [ops] of socket.go). *)
Definition handler_of (o : opcode) : handler :=
  match o with
  | ipcOpLookup => handleLookup | ipcOpGetattr => handleGetattr | ipcOpReaddir => handleReaddir
  | ipcOpReadDirPlus => handleReaddirPlus | ipcOpReadlink => handleReadlink | ipcOpStatfs => handleStatfs
  | ipcOpRead => λ p, on_svc (handleRead p) | ipcOpCreate => handleCreate | ipcOpMkdir => handleMkdir
  | ipcOpUnlink => handleUnlink | ipcOpRmdir => handleRmdir | ipcOpRename => handleRename
  | ipcOpWrite => λ p, on_svc (handleWrite p) | ipcOpSetattr => handleSetattr | ipcOpSymlink => handleSymlink
  | ipcOpLink => handleLink | ipcOpMknod => handleMknod | ipcOpSetxattr => handleSetxattr
  | ipcOpGetxattr => handleGetxattr | ipcOpListxattr => handleListxattr | ipcOpRemovexattr => handleRemovexattr
  | ipcOpLseek => λ p, on_svc (handleLseek p) | ipcOpFallocate => λ p, on_svc (handleFallocate p)
  | ipcOpOpen => handleOpen | ipcOpOpendir => ok_handler | ipcOpRelease => handleRelease
  | ipcOpReleasedir => ok_handler | ipcOpFlush => handleFlush | ipcOpFsync => handleFsync
  | ipcOpAlloc => unsupported | ipcOpCommit => unsupported
  end.

Definition dispatch (code : Z) (payload : bytes) : dmn bytes :=
  match find_op code with
  | None => errResp errNoSys
  | Some o =>
    ro ⇝ dgets (λ d, readOnly (opts (base d)));
    if ro && mutatingOps o then errResp errROFS else handler_of o payload
  end.

(** One connection: requests answered in order until the stream ends or a frame
    is refused ([handleConn] of socket.go).  Every frame is at least six bytes
    long, so the length of the stream is fuel enough. *)
Fixpoint serve (fuel : nat) (stream : bytes) : dmn bytes :=
  match fuel with
  | O => dret []
  | S fuel' =>
    match recvReq stream with
    | None => dret []
    | Some (code, payload, rest) =>
      r ⇝ dispatch code payload;
      more ⇝ serve fuel' rest;
      dret (sendResp r ++ more)
    end
  end.
Definition handleConn (stream : bytes) : dmn bytes := serve (length stream) stream.
