(* ===== verification/HandlerProps.v ===== *)
(** * What every request is answered with

    Theorems about [dispatch] as a whole, for any reply of the store, the device
    and the kernel: what is refused before anything is asked, and the shape of
    every answer. *)

From S2P Require Import Prelude Etcd EtcdFacts Schema Store Locks Extents Allocator ArenaPool InodeTimes Dirents Xattrs Service DataPath Delegate LockCache Wire WireProps DataHandlers NodeCaches Daemon Handlers.

(** ** Refused before anything is asked *)

(** The fields a handler reads. *)
Definition layout (o : opcode) : list field :=
  let i := F64 0 in let w := F32 0 in let b := FBytes [] in
  match o with
  | ipcOpLookup | ipcOpUnlink | ipcOpRmdir | ipcOpGetxattr => [i; b]
  | ipcOpGetattr | ipcOpReadlink | ipcOpRelease | ipcOpFsync | ipcOpFlush | ipcOpListxattr => [i]
  | ipcOpReaddir | ipcOpReadDirPlus | ipcOpRead | ipcOpLseek => [i; i; w]
  | ipcOpCreate | ipcOpMknod => [i; b; w; w; w; w; w]
  | ipcOpMkdir => [i; b; w; w; w; w]
  | ipcOpRename => [i; b; i; b; w]
  | ipcOpSymlink => [i; b; b; w; w]
  | ipcOpLink => [i; i; b]
  | ipcOpSetattr => [i; i; w; i; w; w; w; i; i; i; w; w; w]
  | ipcOpOpen => [i; w]
  | ipcOpWrite => [i; i; b; w; w]
  | ipcOpSetxattr => [i; b; b; w; w]
  | ipcOpRemovexattr => [i; b; w]
  | ipcOpFallocate => [i; w; i; i]
  | ipcOpOpendir | ipcOpReleasedir | ipcOpStatfs | ipcOpAlloc | ipcOpCommit => []
  end.

Lemma blob_str : blob = str.
Proof. done. Qed.

(** Read the fields off, in the order the handler does. *)
Ltac read_off :=
  repeat match goal with
  | H : context [newReader] |- _ => revert H
  end;
  match goal with |- context [newReader ?p] => generalize (newReader p) end;
  repeat match goal with
  | |- ∀ r : reader, _ => intros ?r
  | |- context [u64 ?r] => is_var r; generalize (u64 r); intros [? ?]; cbn beta iota
  | |- context [u32 ?r] => is_var r; generalize (u32 r); intros [? ?]; cbn beta iota
  | |- context [str ?r] => is_var r; generalize (str r); intros [? ?]; cbn beta iota
  end.
Ltac malformed h :=
  cbn [layout read_fields read_field handler_of]; unfold h, on_svc; rewrite ?blob_str; read_off;
  cbn [snd]; intros ->; try done; try (by intros []).

(** The reader a handler ends up with is the one its layout describes. *)
Lemma malformed_refused o payload d :
  r_ok (read_fields (layout o) (newReader payload)).2 = false →
  handler_of o payload d = Ret (d, int32Resp errInval).
Proof.
  destruct o.
  - malformed handleLookup.
  - malformed handleGetattr.
  - unfold handler_of, handleReaddir. malformed readdirResp.
  - malformed handleReadlink.
  - malformed handleCreate.
  - malformed handleMkdir.
  - malformed handleUnlink.
  - malformed handleRmdir.
  - malformed handleRename.
  - malformed handleSymlink.
  - malformed handleLink.
  - malformed handleSetattr.
  - malformed handleOpen.
  - malformed handleRelease.
  - done.
  - done.
  - done.
  - done.
  - done.
  - malformed handleRead. by destruct d.
  - malformed handleWrite. by destruct d.
  - unfold handler_of, handleFsync. malformed fsyncInode.
  - malformed handleMknod.
  - unfold handler_of, handleFlush. malformed fsyncInode.
  - unfold handler_of, handleReaddirPlus. malformed readdirResp.
  - malformed handleSetxattr.
  - malformed handleGetxattr.
  - malformed handleListxattr.
  - malformed handleRemovexattr.
  - malformed handleLseek. by destruct d.
  - malformed handleFallocate. by destruct d.
Qed.

Lemma dispatch_known code o payload d :
  find_op code = Some o →
  dispatch code payload d = if readOnly (opts (base d)) && mutatingOps o then Ret (d, int32Resp errROFS) else handler_of o payload d.
Proof. intros Ho. unfold dispatch. rewrite Ho. unfold dbind, dgets. cbn [bind fst snd]. by case_if. Qed.

(** C39. What is refused is refused before anything is asked of the store, the
    device or the kernel, and leaves the daemon as it was: an operation code
    with no entry with ENOSYS; on a read-only mount every operation that changes
    something with EROFS, its payload unread; and a payload that ends before the
    last field of its operation with EINVAL. *)
Theorem refusals_touch_nothing code payload d :
  (find_op code = None → dispatch code payload d = Ret (d, int32Resp errNoSys)) ∧
  ∀ o, find_op code = Some o →
    (readOnly (opts (base d)) = true → mutatingOps o = true →
       dispatch code payload d = Ret (d, int32Resp errROFS)) ∧
    (readOnly (opts (base d)) = false → r_ok (read_fields (layout o) (newReader payload)).2 = false →
       dispatch code payload d = Ret (d, int32Resp errInval)).
Proof.
  split; [intros E; unfold dispatch; by rewrite E|]. intros o Ho. rewrite (dispatch_known _ _ _ _ Ho). split.
  - by intros -> ->.
  - intros -> Hr. by apply malformed_refused.
Qed.

(** ** The shape of every answer *)

(** Every way a program can end, whatever the replies. *)
Fixpoint returns {A} (P : A → Prop) (p : prog A) : Prop :=
  match p with Ret a => P a | Call q k => ∀ r, returns P (k r) end.

Lemma returns_bind {A B} (Q : B → Prop) (p : prog A) (f : A → prog B) :
  (∀ a, returns Q (f a)) → returns Q (bind p f).
Proof. intros H. induction p as [a|q k IH]; simpl; [done|]. intros r. apply IH. Qed.

Definition answers {A} (P : A → Prop) (p : dmn A) : Prop := ∀ d, returns (λ x, P x.2) (p d).
Definition svc_answers {A} (P : A → Prop) (p : svc A) : Prop := ∀ s, returns (λ x, P x.2) (p s).

Lemma answers_bind {A B} (P : B → Prop) (p : dmn A) (f : A → dmn B) :
  (∀ a, answers P (f a)) → answers P (dbind p f).
Proof. intros H d. apply returns_bind. intros [d' a]. apply H. Qed.
Lemma svc_answers_bind {A B} (P : B → Prop) (p : svc A) (f : A → svc B) :
  (∀ a, svc_answers P (f a)) → svc_answers P (sbind p f).
Proof. intros H s. apply returns_bind. intros [s' a]. apply H. Qed.
Lemma answers_ret {A} (P : A → Prop) a : P a → answers P (dret a).
Proof. by intros H d. Qed.
Lemma svc_answers_ret {A} (P : A → Prop) a : P a → svc_answers P (sret a).
Proof. by intros H d. Qed.
Lemma answers_gets {A} (P : A → Prop) f : (∀ d, P (f d)) → answers P (dgets f).
Proof. intros H d. apply H. Qed.
Lemma answers_svc {A} (P : A → Prop) (p : svc A) : svc_answers P p → answers P (on_svc p).
Proof.
  intros H d. unfold on_svc. specialize (H (base d)). induction (p (base d)) as [[s a]|q k IH]; simpl in *; [done|].
  intros r. apply IH, H.
Qed.

Definition failed (b : bytes) : Prop := ∃ v, - 2 ^ 31 <= v < 0 ∧ b = int32Resp v.

Inductive shape := Ack | Entry | EntryOpen | Attr | Opened | Written | Offset | Space | Data | Dirents (plus : bool).

Definition attr_len : nat := 84.
(** One entry of a listing: the length it declares is that of its name. *)
Definition entry_shape (plus : bool) (e : bytes) : Prop :=
  ∃ name : bytes, length e = (24 + length name + (if plus then attr_len + 8 else 0))%nat ∧
                  take 4 (drop 8 e) = w32 (Z.of_nat (length name)) ∧ take (length name) (drop 12 e) = name.

Definition shaped (k : shape) (b : bytes) : Prop :=
  resp_errno b = 0 ∧
  match k with
  | Ack => length b = 4%nat
  | Entry => length b = (20 + attr_len)%nat
  | EntryOpen => length b = (24 + attr_len)%nat
  | Attr => length b = (8 + attr_len)%nat
  | Opened | Written => length b = 8%nat
  | Offset => length b = 12%nat
  | Space => length b = 56%nat
  | Data => ∃ data, b = w32 0 ++ w32 (Z.of_nat (length data)) ++ data
  | Dirents plus => ∃ es, b = w32 0 ++ w32 (Z.of_nat (length es)) ++ concat es ∧ Forall (entry_shape plus) es
  end.

Definition shape_of (o : opcode) : shape :=
  match o with
  | ipcOpLookup | ipcOpMkdir | ipcOpSymlink | ipcOpLink | ipcOpMknod => Entry
  | ipcOpCreate => EntryOpen
  | ipcOpGetattr | ipcOpSetattr => Attr
  | ipcOpReaddir => Dirents false
  | ipcOpReadDirPlus => Dirents true
  | ipcOpReadlink | ipcOpRead | ipcOpGetxattr | ipcOpListxattr => Data
  | ipcOpStatfs => Space
  | ipcOpOpen => Opened
  | ipcOpWrite => Written
  | ipcOpLseek => Offset
  | _ => Ack
  end.

Definition good (k : shape) (b : bytes) : Prop := failed b ∨ shaped k b.

Lemma failed_int v : - 2 ^ 31 <= v < 0 → failed (int32Resp v).
Proof. by exists v. Qed.
Lemma good_failed k v : - 2 ^ 31 <= v < 0 → good k (int32Resp v).
Proof. intros. left. by apply failed_int. Qed.
Lemma errnoFor_neg e v : - 2 ^ 31 <= v < 0 → - 2 ^ 31 <= errnoFor e v < 0.
Proof. by destruct e. Qed.
Lemma errnoForWrite_neg e : - 2 ^ 31 <= errnoForWrite e < 0.
Proof. by destruct e. Qed.

Lemma shaped_ok k rest :
  match k with
  | Ack => rest = []
  | Entry => length rest = (16 + attr_len)%nat
  | EntryOpen => length rest = (20 + attr_len)%nat
  | Attr => length rest = (4 + attr_len)%nat
  | Opened | Written => length rest = 4%nat
  | Offset => length rest = 8%nat
  | Space => length rest = 52%nat
  | Data => ∃ data, rest = w32 (Z.of_nat (length data)) ++ data
  | Dirents plus => ∃ es, rest = w32 (Z.of_nat (length es)) ++ concat es ∧ Forall (entry_shape plus) es
  end → good k (w32 0 ++ rest).
Proof.
  intros H. right. split; [apply (resp_errno_w32 0); lia|]. destruct k; rewrite ?length_app, ?length_w32, ?H; try lia; try done.
  - destruct H as [data ->]. by exists data.
  - destruct H as (es & -> & ?). by exists es.
Qed.

Lemma length_wAttr rec : length (wAttr rec) = attr_len.
Proof. unfold wAttr. rewrite !length_app, !length_w64, !length_w32. done. Qed.

Lemma good_ack : good Ack okResp.
Proof. unfold okResp, int32Resp. rewrite <- (app_nil_r (w32 0)). by apply shaped_ok. Qed.
Lemma good_entry e a ino rec : good Entry (entryResp e a ino rec).
Proof. apply shaped_ok. by rewrite !length_app, length_wAttr, !length_w64, !length_w32. Qed.
Lemma good_negative e : good Entry (negativeEntryResp e).
Proof. apply shaped_ok. by rewrite !length_app, length_wAttr, !length_w64, !length_w32. Qed.
Lemma good_create e a ino rec keep : good EntryOpen (createResp e a ino rec keep).
Proof.
  unfold createResp, entryResp. rewrite <- app_assoc. apply shaped_ok.
  rewrite !length_app, length_wAttr, !length_w64, !length_w32. by destruct keep.
Qed.
Lemma good_attr a rec : good Attr (attrResp a rec).
Proof. apply shaped_ok. by rewrite !length_app, length_wAttr, !length_w32. Qed.
Lemma good_open keep : good Opened (openResp keep).
Proof. apply shaped_ok. apply length_w32. Qed.
Lemma good_written n : good Written (writtenResp n).
Proof. apply shaped_ok. apply length_w32. Qed.
Lemma good_seek n : good Offset (lseekResp n).
Proof. apply shaped_ok. apply length_w64. Qed.
Lemma good_statfs a b c e : good Space (statfsResp a b c e).
Proof. apply shaped_ok. by rewrite !length_app, !length_w64, !length_w32. Qed.
Lemma good_data b : good Data (dataResp b).
Proof. apply shaped_ok. by exists b. Qed.
Lemma good_unit_resp r v : - 2 ^ 31 <= v < 0 → good Ack (resp_of r v).
Proof. intros Hv. destruct r; [apply good_ack|]. by apply good_failed, errnoFor_neg. Qed.

(** A value a later step passes on. *)
Lemma returns_post {A B} (P : A → Prop) (Q : B → Prop) (p : prog A) (f : A → prog B) :
  returns P p → (∀ a, P a → returns Q (f a)) → returns Q (bind p f).
Proof. intros Hp Hf. induction p as [a|q k IH]; simpl in *; [by apply Hf|]. intros r. apply IH, Hp. Qed.
Lemma answers_post {A B} (P : A → Prop) (Q : B → Prop) (p : dmn A) (f : A → dmn B) :
  answers P p → (∀ a, P a → answers Q (f a)) → answers Q (dbind p f).
Proof. intros Hp Hf d. apply (returns_post (λ x, P x.2)); [apply Hp|]. intros [d' a] H. by apply Hf. Qed.
Lemma svc_answers_post {A B} (P : A → Prop) (Q : B → Prop) (p : svc A) (f : A → svc B) :
  svc_answers P p → (∀ a, P a → svc_answers Q (f a)) → svc_answers Q (sbind p f).
Proof. intros Hp Hf d. apply (returns_post (λ x, P x.2)); [apply Hp|]. intros [d' a] H. by apply Hf. Qed.

Create HintDb shapes.
#[export] Hint Resolve good_ack good_entry good_negative good_create good_attr good_open good_written good_seek
  good_statfs good_data : shapes.
#[export] Hint Extern 1 (good _ (int32Resp _)) => apply good_failed; first [done | by apply errnoFor_neg | apply errnoForWrite_neg] : shapes.
#[export] Hint Extern 1 (good Ack (resp_of _ _)) => by apply good_unit_resp : shapes.

(** What the handlers' parts pass on: an answer, perhaps with more. *)
Definition good_opt (k : shape) (o : option bytes) : Prop := match o with Some b => good k b | None => True end.
Definition good_pair (k : shape) (x : bytes * bool) : Prop := good k x.1.

Definition good_buffered (x : option (bytes * bool) * writeOp) : Prop :=
  match x.1 with Some y => good Written y.1 | None => True end.

Lemma answers_attr rec : answers (good Attr) (attr_resp rec).
Proof. apply answers_gets. intros. apply good_attr. Qed.
Create HintDb answered.
#[export] Hint Resolve answers_attr : answered.

(** Walk a handler to its answers. *)
Ltac answer_step :=
  match goal with
  | |- answers _ (dbind _ _) =>
    first [eapply answers_post; [solve [eauto 1 with answered]|intros ? ?] | apply answers_bind; intros ?]
  | |- answers _ (dret _) => apply answers_ret
  | |- answers _ (dgets _) => apply answers_gets; intros ?
  | |- answers _ (errResp _) => apply answers_ret
  | |- answers _ (on_svc _) => apply answers_svc
  | |- answers _ (entry_resp _ _) => apply answers_gets; intros ?
  | |- answers _ (create_resp _ _) => apply answers_gets; intros ?
  | |- answers _ negative_resp => apply answers_gets; intros ?
  | |- answers _ (attr_resp _) => apply answers_gets; intros ?
  | |- svc_answers _ (sbind _ _) =>
    first [eapply svc_answers_post; [solve [eauto 1 with answered]|intros ? ?] | apply svc_answers_bind; intros ?]
  | |- svc_answers _ (sret _) => apply svc_answers_ret
  | |- answers _ (match ?x with _ => _ end) => destruct x; cbn [good_opt good_pair fst snd] in *
  | |- svc_answers _ (match ?x with _ => _ end) => unfold good_buffered in *; destruct x; cbn [good_opt good_pair fst snd] in *
  | |- answers _ (let '(_, _) := ?x in _) => destruct x
  | |- good _ (match ?x with _ => _ end) => destruct x
  end.
Ltac answer :=
  repeat answer_step; cbn [fst snd good_opt good_pair];
  repeat match goal with |- good _ (match ?x with _ => _ end) => destruct x end; eauto with shapes.

Lemma entries_shape d plus records cookie l :
  ∃ es, entries_bytes d plus records cookie l = concat es ∧ length es = length l ∧ Forall (entry_shape plus) es.
Proof.
  revert cookie. induction l as [|e l IH]; intros cookie; [by exists []|]. destruct (IH (cookie + 1)) as (es & E & Hl & Hs).
  exists (entry_bytes d plus records (wrap64 cookie) e :: es). cbn [entries_bytes concat length]. rewrite E, Hl.
  split; [done|]. split; [done|]. constructor; [|done]. exists (d_name e). unfold entry_bytes. split_and!.
  - rewrite !length_app, !length_w64, !length_w32. destruct plus; [rewrite !length_app, length_wAttr, !length_w32|]; simpl; lia.
  - rewrite (drop_app_length' (w64 _)) by (by rewrite length_w64). by rewrite (take_app_length' (w32 _)) by (by rewrite length_w32).
  - rewrite (app_assoc (w64 _)), drop_app_length' by (by rewrite length_app, length_w64, length_w32). apply take_app_length.
Qed.

Lemma good_readdir plus payload : answers (good (Dirents plus)) (readdirResp plus payload).
Proof.
  unfold readdirResp. answer. apply shaped_ok.
  match goal with |- context [entries_bytes ?d ?p ?m ?c ?l] => destruct (entries_shape d p m c l) as (es & E & Hl & Hs) end.
  exists es. by rewrite <- E, Hl.
Qed.

Lemma good_commitSetattr ino rec rev valid f : answers (good_opt Attr) (commitSetattr ino rec rev valid f).
Proof. unfold commitSetattr. answer; simpl; eauto with shapes. Qed.
Lemma good_defer rec valid f : answers (good_opt Attr) (deferSetattrTimes rec valid f).
Proof. unfold deferSetattrTimes. answer; simpl; eauto with shapes. Qed.
#[export] Hint Resolve good_commitSetattr good_defer : answered.

Lemma good_setattr_loop ino valid f fuel : answers (good Attr) (setattr_loop ino valid f fuel).
Proof. induction fuel as [|n IH]; cbn [setattr_loop]; answer. Qed.
#[export] Hint Resolve good_setattr_loop : shapes.

Lemma good_maybe_defer (b : bool) rec valid f :
  answers (good_opt Attr) (if b then dret None else deferSetattrTimes rec valid f).
Proof. destruct b; [by apply answers_ret|apply good_defer]. Qed.
#[export] Hint Resolve good_maybe_defer : answered.

Lemma good_setattr_unlocked ino valid f : answers (good Attr) (setattr_unlocked ino valid f).
Proof. unfold setattr_unlocked. answer. Qed.
#[export] Hint Resolve good_setattr_unlocked : shapes.

Lemma good_setattr_flushed (r : result unit) ino valid f :
  answers (good Attr) match r with Err _ => errResp errIO | Ok _ => setattr_unlocked ino valid f end.
Proof. answer. Qed.
#[export] Hint Resolve good_setattr_flushed : answered.

Lemma good_setattr payload : answers (good Attr) (handleSetattr payload).
Proof. unfold handleSetattr. answer. unfold setattr_sized. answer. Qed.

(** Data-path handlers. *)
Lemma svc_locked {A} (P : A → Prop) ino m busy (body : svc (A * bool)) :
  P busy → svc_answers (λ x, P x.1) body → svc_answers P (locked ino m busy body).
Proof.
  intros Hb Hbody. unfold locked. apply svc_answers_bind. intros [u|e]; [|by apply svc_answers_ret].
  apply (svc_answers_post (λ x, P x.1)); [done|]. intros x Hx. answer.
Qed.

Lemma good_read payload : svc_answers (good Data) (handleRead payload).
Proof. unfold handleRead. answer. apply svc_locked; [eauto with shapes|]. unfold read_locked. answer. Qed.

Lemma good_buffer_loop fuel ino w cs os sync : svc_answers good_buffered (buffer_loop fuel ino w cs os sync).
Proof.
  revert w cs os. induction fuel as [|n IH]; intros w cs os; cbn [buffer_loop]; [by apply svc_answers_ret|].
  case_if; [by apply svc_answers_ret|]. destruct (replayTxn _ _ _); [|by apply svc_answers_ret].
  answer; unfold good_buffered; cbn [fst]; eauto with shapes.
Qed.

Lemma good_commitWriteOp ino w : svc_answers (λ x, good Written x.1) (commitWriteOp ino w).
Proof. unfold commitWriteOp. answer. Qed.
#[export] Hint Resolve good_buffer_loop good_commitWriteOp : answered shapes.

Lemma good_write_block ino offset data uid flags : svc_answers (good Written) (handleWriteBlock ino offset data uid flags).
Proof.
  unfold handleWriteBlock. answer. apply svc_locked; [eauto with shapes|]. unfold write_locked. answer.
Qed.
Lemma good_write payload : svc_answers (good Written) (handleWrite payload).
Proof.
  unfold handleWrite. answer; [apply good_write_block|]. unfold write_metadata. answer.
Qed.
Lemma good_lseek payload : svc_answers (good Offset) (handleLseek payload).
Proof. unfold handleLseek. answer. Qed.
Lemma good_fallocate payload : svc_answers (good Ack) (handleFallocate payload).
Proof.
  unfold handleFallocate. answer. apply svc_locked; [eauto with shapes|]. unfold fallocate_locked. answer.
Qed.

Lemma good_creating parent name mk : answers (good Entry) (creating parent name mk).
Proof. unfold creating. answer. Qed.
#[export] Hint Resolve good_creating : shapes.

Lemma svc_truncate_locked ino : svc_answers (λ x, match x.1 with Some v => - 2 ^ 31 <= v < 0 | None => True end) (truncate_locked ino).
Proof.
  unfold truncate_locked. apply svc_answers_bind. intros [u|e]; [|by apply svc_answers_ret].
  apply svc_answers_bind. intros [u'|e]; apply svc_answers_ret; [done|]. by apply errnoFor_neg.
Qed.

Lemma good_open_handler payload : answers (good Opened) (handleOpen payload).
Proof.
  unfold handleOpen. destruct (u64 _) as [ino r], (u32 _) as [flags r']. case_if; [answer|].
  apply (answers_post (λ t, match t with Some v => - 2 ^ 31 <= v < 0 | None => True end)).
  - case_if; [|by apply answers_ret]. apply answers_svc, svc_locked; [done|]. apply svc_truncate_locked.
  - intros [v|] Hv; [|answer]. apply answers_ret. by apply good_failed.
Qed.
Lemma good_fsync durable payload : answers (good Ack) (fsyncInode durable payload).
Proof. unfold fsyncInode. answer. Qed.

Lemma dispatch_good code payload d :
  returns (λ x, match find_op code with Some o => good (shape_of o) x.2 | None => x.2 = int32Resp errNoSys end)
          (dispatch code payload d).
Proof.
  destruct (find_op code) as [o|] eqn:Ho; [|unfold dispatch; by rewrite Ho].
  rewrite (dispatch_known _ _ _ _ Ho). case_if; [by apply good_failed|].
  assert (answers (good (shape_of o)) (handler_of o payload)) as Ha; [|apply Ha].
  destruct o; cbn [handler_of shape_of];
    try first [ apply answers_svc; first [apply good_read | apply good_write | apply good_lseek | apply good_fallocate]
              | apply good_readdir | apply good_setattr ].
  - unfold handleLookup. answer.
  - unfold handleGetattr. answer.
  - unfold handleReadlink. answer.
  - unfold handleCreate. answer.
  - unfold handleMkdir. answer.
  - unfold handleUnlink. answer.
  - unfold handleRmdir. answer.
  - unfold handleRename. answer.
  - unfold handleSymlink. answer.
  - unfold handleLink. answer.
  - apply good_open_handler.
  - unfold handleRelease. answer.
  - unfold ok_handler. answer.
  - unfold ok_handler. answer.
  - unfold handleStatfs. answer.
  - unfold unsupported. answer.
  - unfold unsupported. answer.
  - apply good_fsync.
  - unfold handleMknod. answer.
  - apply good_fsync.
  - unfold handleSetxattr. answer.
  - unfold handleGetxattr. answer.
  - unfold handleListxattr. answer.
  - unfold handleRemovexattr. answer.
Qed.

(** C18. Every answer has the shape its operation promises, whatever the store,
    the device and the kernel reply: an unknown code is ENOSYS; otherwise the
    answer is a negative error number alone, or success followed by the fields
    of that operation at their fixed widths, each length it declares being the
    length of what follows. *)
Theorem dispatch_shape code payload d :
  returns (λ x, match find_op code with Some o => good (shape_of o) x.2 | None => x.2 = int32Resp errNoSys end)
          (dispatch code payload d).
Proof. apply dispatch_good. Qed.

(** ** A concrete daemon *)

Definition h_opts (ro : bool) : Options := mkOptions 0 defaultFlushMaxBytes defaultBufferMaxBytes false false ro true.
Definition h_svc (ro : bool) : Service :=
  mkService (h_opts ro) (lit "n1") false false true 0 (mkLockState None 0) (mkAllocator [new_arena 0] 0 0) None 0 0 false ∅.
Definition h_daemon (ro : bool) : Daemon :=
  mkDaemon (h_svc ro) (Some ∅) newInodeBlocks newOpenFiles ∅ (newDirentCache second) false 1 60.

Lemma refusals_touch_nothing_witness :
  dispatch 99 [] (h_daemon false) = Ret (h_daemon false, int32Resp errNoSys) ∧
  dispatch 6 [] (h_daemon true) = Ret (h_daemon true, int32Resp errROFS) ∧
  dispatch 1 [0; 0; 0; 0; 0; 0; 0; 1; 0; 0; 0; 5; 97] (h_daemon false) = Ret (h_daemon false, int32Resp errInval).
Proof.
  split; [apply (proj1 (refusals_touch_nothing 99 [] (h_daemon false))); reflexivity|]. split.
  - apply (proj2 (refusals_touch_nothing 6 [] (h_daemon true)) ipcOpMkdir); reflexivity.
  - apply (proj2 (refusals_touch_nothing 1 [0; 0; 0; 0; 0; 0; 0; 1; 0; 0; 0; 5; 97] (h_daemon false)) ipcOpLookup); reflexivity.
Defined.

(** A read-only mount refuses every OPEN, one that asks for no truncation
    included. *)
Theorem readonly_mount_refuses_open ino :
  is_u64 ino →
  dispatch 13 (write_fields [F64 ino; F32 0]) (h_daemon true) = Ret (h_daemon true, int32Resp errROFS).
Proof. intros _. by apply (dispatch_known 13 ipcOpOpen). Qed.

(** ** One connection *)

Fixpoint dispatch_all (reqs : list (Z * bytes)) : dmn bytes :=
  match reqs with
  | [] => dret []
  | (o, p) :: reqs' => r ⇝ dispatch o p; more ⇝ dispatch_all reqs'; dret (sendResp r ++ more)
  end.

Definition request_ok (x : Z * bytes) : Prop := 0 <= x.1 < 2 ^ 16 ∧ Z.of_nat (length x.2) <= maxFrameLen.
Definition frames (reqs : list (Z * bytes)) : bytes := concat (map (λ x, request x.1 x.2) reqs).

Lemma serve_frames `{E : Etcd} fuel reqs rest d srv :
  Forall request_ok reqs → (length reqs < fuel)%nat → recvReq rest = None →
  run (serve fuel (frames reqs ++ rest) d) srv = run (dispatch_all reqs d) srv.
Proof.
  intros Hok. revert fuel d srv. induction Hok as [|[o p] reqs [Ho Hp] Hok IH]; intros fuel d srv Hf Hr;
    (destruct fuel as [|fuel]; [simpl in Hf; lia|]); cbn [serve dispatch_all length] in *.
  { unfold frames. cbn [map concat app]. by rewrite Hr. }
  unfold frames. cbn [map concat fst snd]. rewrite <- app_assoc, recvReq_request by (simpl in *; unfold maxFrameLen in *; lia).
  rewrite (proj2 (Z.ltb_ge _ _)) by (simpl in Hp; lia). unfold dbind. rewrite !run_bind.
  destruct (run (dispatch o p d) srv) as [srv1 [d1 r]]. rewrite !run_bind. cbn [fst snd].
  fold (frames reqs). rewrite IH by (done || lia). done.
Qed.

Lemma dispatch_all_frames `{E : Etcd} reqs d srv :
  ∃ rs, length rs = length reqs ∧ (run (dispatch_all reqs d) srv).2.2 = concat (map sendResp rs).
Proof.
  revert d srv. induction reqs as [|[o p] reqs IH]; intros d srv; cbn [dispatch_all]; [by exists []|].
  unfold dbind. rewrite run_bind. destruct (run (dispatch o p d) srv) as [srv1 [d1 r]]. rewrite run_bind. cbn [fst snd].
  destruct (IH d1 srv1) as (rs & Hl & Hr). destruct (run (dispatch_all reqs d1) srv1) as [srv2 [d2 more]].
  exists (r :: rs). simpl in *. by rewrite Hl, Hr.
Qed.

(** Every complete request on a connection is answered, once and in order:
    a stream of frames within the limit runs the operations one after the other,
    each on the state the one before left, and what is written back is exactly
    one response frame per request; a tail that is not a frame ends the
    connection without disturbing the answers before it. *)
Theorem requests_answered_in_order `{E : Etcd} reqs rest d srv :
  Forall request_ok reqs → recvReq rest = None →
  run (handleConn (frames reqs ++ rest) d) srv = run (dispatch_all reqs d) srv ∧
  ∃ rs, length rs = length reqs ∧ (run (handleConn (frames reqs ++ rest) d) srv).2.2 = concat (map sendResp rs).
Proof.
  intros Hok Hr. assert (run (handleConn (frames reqs ++ rest) d) srv = run (dispatch_all reqs d) srv) as Hrun.
  { unfold handleConn. destruct (decide (reqs = [])) as [->|Hne].
    - cbn [frames map concat app dispatch_all]. destruct (length rest) as [|n] eqn:El; cbn [serve]; [done|]. by rewrite Hr.
    - apply serve_frames; [done| |done]. rewrite length_app.
      assert (6 * length reqs <= length (frames reqs))%nat; [|destruct reqs; simpl in *; [done|lia]].
      clear. unfold frames. induction reqs as [|[o p] reqs IH]; cbn [map concat length]; [lia|]. rewrite length_app. unfold request at 1. cbn [fst snd].
      rewrite !length_app, !length_be. lia. }
  split; [done|]. rewrite Hrun. apply dispatch_all_frames.
Qed.

Lemma requests_answered_in_order_witness :
  (@run ref_etcd _ (handleConn (frames [(13, write_fields [F64 7; F32 0]); (99, [])] ++ [1; 2]) (h_daemon false))
     (RefSrv (MVCC 5 ∅ ∅) 0)).2.2 = sendResp (openResp false) ++ sendResp (int32Resp errNoSys).
Proof.
  destruct (@requests_answered_in_order ref_etcd [(13, write_fields [F64 7; F32 0]); (99, [])] [1; 2] (h_daemon false)
             (RefSrv (MVCC 5 ∅ ∅) 0)) as [E _].
  - repeat constructor; simpl; unfold maxFrameLen; lia.
  - reflexivity.
  - rewrite E. vm_compute. reflexivity.
Defined.
