(* ===== verification/ListingProps.v ===== *)
(** * Listing a directory page by page

    [direntPage] of internal/ipc/handlers.go against the reference a listing is
    owed: the directory's names in key order, cut where the kernel's buffer ends.
    The page a cursor resumes is the page a rescan would give, and the pages of
    one listing are the whole directory. *)

From S2P Require Import Prelude Etcd EtcdFacts Schema Store StoreLogic StoreProps InodeTimes Dirents NodeCaches Service Wire Daemon HandlerProps.

(** ** The order of keys *)

#[global] Instance key_le_total : Total key_le.
Proof. intros x y. apply leb_total. Qed.
#[global] Instance key_le_trans : Transitive key_le.
Proof. intros x y z. apply leb_trans. Qed.

(** The first key after [k]. *)
Lemma leb_after k k' :
  Forall (Z.le 0) k' → bytes_leb (k ++ [0]) k' = true ↔ bytes_leb k k' = true ∧ k' ≠ k.
Proof.
  intros Hk. revert k. induction Hk as [|y k' Hy _ IH]; intros [|x k]; simpl.
  - split; [done|]. by intros [_ ?].
  - split; [done|]. by intros [? _].
  - split; [done|]. intros _. by destruct y.
  - destruct (Z.ltb_spec x y), (Z.eqb_spec x y); try lia.
    + split; [|done]. intros _. split; [done|]. intros [= ? ?]. lia.
    + rewrite IH. subst. split; intros [? Hne]; (split; [done|congruence]).
Qed.

Lemma in_drop {A} (x : A) n l : x ∈ drop n l → x ∈ l.
Proof. intros H. rewrite <- (take_drop n l). apply elem_of_app. by right. Qed.

(** ** Ranges *)

Section ranges.
Context (m : gmap bytes kv) (p : bytes).
Context (Hbytes : ∀ k e, m !! k = Some e → Forall (Z.le 0) k).

Lemma range_all_sorted r : StronglySorted key_le (range_all r m).
Proof. apply (StronglySorted_merge_sort key_le). Qed.
Lemma range_all_NoDup r : NoDup (range_all r m).
Proof. unfold range_all. rewrite merge_sort_Permutation. apply NoDup_filter, NoDup_map_to_list. Qed.

(** What a range that starts after one key of a prefix holds. *)
Lemma range_after j k e n :
  range_all (RPrefix p) m !! j = Some (k, e) →
  range_all (RAfter (k ++ [0]) p n) m = drop (S j) (range_all (RPrefix p) m).
Proof.
  intros Hj. set (l := range_all (RPrefix p) m) in *.
  pose proof (range_all_sorted (RPrefix p)) as Hs. pose proof (range_all_NoDup (RPrefix p)) as Hn. fold l in Hs, Hn.
  assert (l = take (S j) l ++ drop (S j) l) as El by (by rewrite take_drop).
  assert (∀ x, x ∈ l ↔ m !! x.1 = Some x.2 ∧ has_prefix p x.1 = true) as Hin.
  { intros [k' e']. apply (elem_of_range_all (RPrefix p)). }
  assert ((k, e) ∈ take (S j) l) as Hk by (apply list_elem_of_lookup; exists j; rewrite lookup_take_lt by lia; done).
  apply (StronglySorted_unique_strong key_le).
  - intros [k1 e1] [k2 e2] [H1 _]%elem_of_range_all H2 Hle1 Hle2. apply in_drop in H2; apply Hin in H2 as [H2 _]. simpl in *.
    pose proof (leb_antisym _ _ Hle1 Hle2). by simplify_map_eq.
  - apply range_all_sorted.
  - rewrite El in Hs. by apply StronglySorted_app_1_r in Hs.
  - apply NoDup_Permutation; [apply range_all_NoDup|by apply (sublist_NoDup _ l), sublist_drop|].
    intros [k' e']. rewrite elem_of_range_all. cbn [in_range]. rewrite andb_true_iff. split.
    + intros (Hm & Hp & Hle). pose proof (proj1 (leb_after k k' (Hbytes _ _ Hm)) Hle) as [Hle' Hne].
      assert ((k', e') ∈ l) as Hl by by apply Hin. rewrite El in Hl. apply elem_of_app in Hl as [Hl|]; [|done].
      exfalso. apply Hne.
      assert (key_le (k', e') (k, e)) as Hle2; [|by apply leb_antisym].
      apply list_elem_of_lookup in Hl as [i Hi]. apply lookup_take_Some in Hi as [Hi Hlt].
      destruct (decide (i = j)) as [->|]; [rewrite Hj in Hi; simplify_eq; apply leb_refl|].
      apply (StronglySorted_app_1_elem_of key_le (take j l) (drop j l)); [by rewrite take_drop| |].
      * apply list_elem_of_lookup. exists i. rewrite lookup_take_lt by lia. done.
      * apply list_elem_of_lookup. exists 0%nat. rewrite lookup_drop, Nat.add_0_r. done.
    + intros Hd. pose proof (in_drop _ _ _ Hd) as Hl. apply Hin in Hl as [Hm Hp]. simpl in *. split; [done|].
      split; [done|]. apply leb_after; [eauto|]. split.
      * rewrite El in Hs. apply (StronglySorted_app_1_elem_of _ _ _ _ _ Hs Hk Hd).
      * intros ->. assert (m !! k = Some e) as Hke by (apply elem_of_take in Hk as (i & Hi & _); apply list_elem_of_lookup_2, Hin in Hi as [? _]; done).
        simplify_eq. rewrite El in Hn. apply NoDup_app in Hn as (_ & Hdis & _). by eapply Hdis.
Qed.
End ranges.

(** ** Pages *)

Lemma fitting_take n budget plus l : fitting budget plus (take n l) = take n (fitting budget plus l).
Proof.
  revert n budget. induction l as [|e l IH]; intros [|n] budget; simpl; try done. case_if; [done|]. by rewrite IH.
Qed.

(** An entry with a name costs at least what [pageLimit] divides by. *)
Definition named (l : list DirentEntry) : Prop := Forall (λ e, d_name e ≠ []) l.
Definition min_cost (plus : bool) : Z := minDirentCost + (if plus then entryOutBytes else 0).

Lemma direntCost_min plus e : d_name e ≠ [] → min_cost plus <= direntCost plus e.
Proof.
  intros Hn. unfold min_cost, direntCost, minDirentCost, direntHeader.
  assert (1 <= (Z.of_nat (length (d_name e)) + 7) / 8); [|destruct plus; lia].
  apply Z.div_le_lower_bound; [lia|]. destruct (d_name e); [done|simpl; lia].
Qed.

Lemma fitting_bound budget plus l :
  named l → 0 <= budget → Z.of_nat (length (fitting budget plus l)) * min_cost plus <= budget.
Proof.
  intros Hl. revert budget. induction Hl as [|e l He Hl IH]; intros budget Hb; simpl; [lia|].
  destruct (Z.ltb_spec (budget - direntCost plus e) 0); simpl; [lia|].
  specialize (IH (budget - direntCost plus e) ltac:(lia)). pose proof (direntCost_min plus e He). lia.
Qed.

Lemma pageLimit_enough size plus l :
  0 < size → named l → truncateToBuffer (take (Z.to_nat (pageLimit size plus)) l) size plus = truncateToBuffer l size plus.
Proof.
  intros Hs Hl. unfold truncateToBuffer. rewrite (proj2 (Z.eqb_neq size 0)) by lia. rewrite fitting_take.
  assert (1 <= pageLimit size plus ∧ size / min_cost plus <= pageLimit size plus) as [H1 H2].
  { unfold pageLimit. rewrite (proj2 (Z.eqb_neq size 0)) by lia. cbv zeta. fold (min_cost plus).
    destruct (Z.ltb_spec 0 (size / min_cost plus)); lia. }
  rewrite (take_ge (fitting _ _ _)).
  - destruct (fitting size plus l); [|done]. rewrite take_take. f_equal. lia.
  - pose proof (fitting_bound size plus l Hl ltac:(lia)).
    assert (Z.of_nat (length (fitting size plus l)) <= size / min_cost plus); [|lia].
    apply Z.div_le_lower_bound; [|lia]. unfold min_cost, minDirentCost, entryOutBytes. destruct plus; lia.
Qed.

(** A page is a prefix of what is left, and not empty while anything is. *)
Lemma fitting_prefix budget plus l : fitting budget plus l `prefix_of` l.
Proof.
  revert budget. induction l as [|e l IH]; intros budget; simpl; [done|]. case_if; [apply prefix_nil|]. by apply prefix_cons.
Qed.
Lemma truncate_prefix l size plus : truncateToBuffer l size plus `prefix_of` l.
Proof.
  unfold truncateToBuffer. case_if; [done|]. pose proof (fitting_prefix size plus l). destruct (fitting size plus l); [|done].
  apply prefix_of_take || (exists (drop 1 l); by rewrite take_drop).
Qed.
Lemma truncate_nonempty l size plus : l ≠ [] → truncateToBuffer l size plus ≠ [].
Proof. intros Hl. unfold truncateToBuffer. case_if; [done|]. destruct (fitting size plus l); [|done]. by destruct l. Qed.

(** ** One page *)

(** The directory as a listing should show it. *)
Definition dir_list (m : gmap bytes kv) (ino : Z) : list DirentEntry :=
  map (dirent_entry ino) (range_all (RPrefix (DirentPrefix ino)) m).

(** Keys are bytes, and a name is not empty. *)
Definition dir_wf (m : gmap bytes kv) (ino : Z) : Prop :=
  ∀ k e, m !! k = Some e → Forall (Z.le 0) k ∧ k ≠ DirentPrefix ino.

(** A cursor names the entry before the position it stands for. *)
Definition cursor_ok (l : list DirentEntry) (ino : Z) (c : gmap Z dirCursor) : Prop :=
  ∀ cur, c !! ino = Some cur →
    ∃ j e, c_offset cur = Z.of_nat (S j) ∧ l !! j = Some e ∧ d_name e = c_name cur.

Lemma DirentKey_prefix ino name : DirentKey ino name = DirentPrefix ino ++ name.
Proof. unfold DirentKey, DirentPrefix. by rewrite <- !app_assoc. Qed.

Lemma has_prefix_split p k : has_prefix p k = true → k = p ++ drop (length p) k.
Proof. intros [t ->]%has_prefix_true. by rewrite drop_app_length. Qed.

Lemma extract_key ino k :
  has_prefix (DirentPrefix ino) k = true → k ≠ DirentPrefix ino →
  k = DirentKey ino (extractNameFromKey k ino) ∧ extractNameFromKey k ino ≠ [].
Proof.
  intros Hp Hne. pose proof (has_prefix_split _ _ Hp) as Ek. rewrite DirentKey_prefix. unfold extractNameFromKey.
  assert (drop (length (DirentPrefix ino)) k ≠ []) as Hd by (intros E; rewrite E, app_nil_r in Ek; done).
  rewrite bool_decide_eq_true_2; [done|]. apply (f_equal length) in Ek. rewrite length_app in Ek.
  destruct (drop _ k) eqn:E; [done|]. cbn [length] in Ek. lia.
Qed.

Section page.
Context (m : mvcc) (ino : Z) (Hwf : dir_wf (mkvs m) ino).
Let l := dir_list (mkvs m) ino.
Context (Hlen : Z.of_nat (length l) < 2 ^ 64).

Lemma dir_entry_key j e :
  l !! j = Some e → ∃ k v, range_all (RPrefix (DirentPrefix ino)) (mkvs m) !! j = Some (k, v) ∧
    k = DirentKey ino (d_name e) ∧ d_name e ≠ [].
Proof.
  unfold l, dir_list. rewrite list_lookup_fmap. destruct (range_all _ _ !! j) as [[k v]|] eqn:E; [|done].
  intros [= <-]. exists k, v. split; [done|]. pose proof (list_elem_of_lookup_2 _ _ _ E) as [Hm Hp]%elem_of_range_all.
  destruct (Hwf _ _ Hm) as [_ Hne]. cbn [dirent_entry d_name fst]. by apply extract_key.
Qed.

Lemma dir_named : named l.
Proof. apply Forall_lookup. intros j e (k & v & _ & _ & ?)%dir_entry_key. done. Qed.

Lemma wpx_after s j e limit (Q : result (list DirentEntry) → mvcc * unit → Prop) :
  l !! j = Some e →
  Q (Ok (if 0 <? limit then take (Z.to_nat limit) (drop (S j) l) else drop (S j) l)) (m, tt) →
  wpx (ListDirentsAfter s ino (d_name e) limit) Q m.
Proof.
  intros Hj HQ. destruct (dir_entry_key _ _ Hj) as (k & v & Hr & -> & Hn).
  unfold ListDirentsAfter. apply wpx_ebind, wpx_read, wpx_ret. cbn [fst].
  destruct (d_name e) as [|b name] eqn:En; [done|]. rewrite <- En in *.
  cbn [range_kvs]. rewrite (range_after _ _ (λ k e H, proj1 (Hwf k e H)) j _ v) by done.
  unfold l, dir_list in HQ. rewrite <- fmap_drop, <- fmap_take in HQ. by destruct (0 <? limit).
Qed.

Lemma resume_cursor now offset c :
  cursor_ok l ino c →
  cursor_ok l ino (resumeAt now ino offset c).1 ∧
  match (resumeAt now ino offset c).2 with
  | None => True
  | Some name => ∃ j e, offset = Z.of_nat (S j) ∧ l !! j = Some e ∧ d_name e = name
  end.
Proof.
  intros Hc. unfold resumeAt. case_if; [done|]. destruct (c !! ino) as [cur|] eqn:Ecur; [|done].
  destruct (Hc _ Ecur) as (j & e & Ho & Hj & Hn). destruct (Z.eqb_spec (c_offset cur) offset) as [<-|]; [|done].
  cbn [negb orb]. case_if; [done|]. cbn [fst snd]. split; [|by exists j, e].
  intros cur' [[_ <-]|[? _]]%lookup_insert_Some; [|done]. by exists j, e.
Qed.

Lemma cursor_recorded now j e c :
  l !! j = Some e → cursor_ok l ino (record_cursor now ino (Z.of_nat (S j)) (d_name e) c).
Proof.
  intros Hj. destruct (dir_entry_key _ _ Hj) as (_ & _ & _ & _ & Hn). unfold record_cursor.
  rewrite bool_decide_eq_false_2 by done. intros cur [[_ <-]|[? _]]%lookup_insert_Some; [|done]. by exists j, e.
Qed.

Lemma page_recorded now offset size plus e c :
  0 <= offset → last (truncateToBuffer (drop (Z.to_nat offset) l) size plus) = Some e →
  cursor_ok l ino
    (record_cursor now ino (add64 offset (Z.of_nat (length (truncateToBuffer (drop (Z.to_nat offset) l) size plus))))
       (d_name e) c).
Proof.
  intros Ho Hlast. set (page := truncateToBuffer _ _ _) in *.
  destruct (truncate_prefix (drop (Z.to_nat offset) l) size plus) as [rest Hr]. fold page in Hr.
  rewrite last_lookup in Hlast. pose proof (lookup_lt_Some _ _ _ Hlast) as Hlt.
  assert (l !! (Z.to_nat offset + pred (length page))%nat = Some e) as Hj.
  { rewrite <- lookup_drop, Hr, lookup_app_l by done. done. }
  pose proof (lookup_lt_Some _ _ _ Hj). rewrite add64_small by (unfold is_u64; lia).
  replace (offset + Z.of_nat (length page)) with (Z.of_nat (S (Z.to_nat offset + pred (length page)))) by lia.
  by apply cursor_recorded.
Qed.

Lemma wpx_direntPage offset size plus d (Q : Daemon * result (list DirentEntry) → mvcc * unit → Prop) :
  0 <= offset → 0 <= size → cursor_ok l ino (dirCursors d) →
  (∀ d', cursor_ok l ino (dirCursors d') →
     Q (d', Ok (truncateToBuffer (drop (Z.to_nat offset) l) size plus)) (m, tt)) →
  wpx (direntPage ino offset size plus d) Q m.
Proof.
  intros Ho Hsz Hc HQ. unfold direntPage, dbind, now_d, dlift. apply wpx_bind, wpx_bind, wpx_now. intros now.
  apply wpx_ret. cbn [fst snd]. apply wpx_bind. destruct (resume_cursor now offset _ Hc) as [Hc' Hr].
  destruct (resumeAt now ino offset (dirCursors d)) as [c after]. cbn [fst snd] in *. apply wpx_ret. cbn [fst snd].
  apply wpx_bind. eapply wp_mono; [|]. 
  instantiate (1 := λ x σ, σ = (m, tt) ∧ cursor_ok l ino (dirCursors x.1) ∧
     ∃ es, x.2 = Ok es ∧ truncateToBuffer es size plus = truncateToBuffer (drop (Z.to_nat offset) l) size plus).
  - intros [d1 r] σ (-> & Hd1 & es & Hr1 & Hes). cbn [fst snd] in *. subst r. rewrite Hes.
    destruct (last _) as [e|] eqn:Hlast; [|apply wpx_ret; by apply HQ].
    apply wpx_bind, wpx_bind, wpx_now. intros now'. apply wpx_ret. cbn [fst snd]. unfold dmodify.
    apply wpx_bind, wpx_ret. cbn [fst snd]. apply wpx_ret. apply HQ. cbn [dirCursors set_cursors]. by apply page_recorded.
  - destruct after as [name|].
    + destruct Hr as (j & e & -> & Hj & <-). unfold on_store. apply wpx_bind. apply (wpx_after _ j); [done|].
      apply wpx_ret. split; [done|]. split; [done|]. eexists. split; [done|].
      replace (Z.to_nat (Z.of_nat (S j))) with (S j) by lia.
      destruct (Z.ltb_spec 0 (pageLimit size plus)); [|done]. apply pageLimit_enough; [|by apply Forall_drop, dir_named].
      unfold pageLimit in *. destruct (Z.eqb_spec size 0); lia.
    + unfold on_store. apply wpx_bind, wpx_bind. unfold ListDirents. apply wpx_ebind, wpx_GetPrefix, wpx_ret, wpx_ret.
      apply wpx_ret. cbn [fst snd]. split; [done|]. split; [done|]. eexists. split; [done|].
      change (map (dirent_entry ino) (range_kvs (RPrefix (DirentPrefix ino)) m)) with l. destruct (Z.leb_spec (Z.of_nat (length l)) offset); [|done]. by rewrite drop_ge by lia.
Qed.

(** The kernel's listing: each request asks for what follows the entries it was
    given so far. *)
Fixpoint list_pages (asks : list (Z * bool)) (offset : Z) : dmn (result (list DirentEntry)) :=
  match asks with
  | [] => dret (Ok [])
  | (size, plus) :: asks' =>
    p ⇝ direntPage ino offset size plus;
    match p with
    | Err e => dret (Err e)
    | Ok es =>
      r ⇝ list_pages asks' (offset + Z.of_nat (length es));
      dret match r with Ok rest => Ok (es ++ rest) | Err e => Err e end
    end
  end.

Lemma wpx_list_pages asks offset d (Q : Daemon * result (list DirentEntry) → mvcc * unit → Prop) :
  0 <= offset → Forall (λ a, 0 <= a.1) asks → cursor_ok l ino (dirCursors d) →
  (∀ d' es, es `prefix_of` drop (Z.to_nat offset) l →
     ((length (drop (Z.to_nat offset) l) <= length asks)%nat → es = drop (Z.to_nat offset) l) → Q (d', Ok es) (m, tt)) →
  wpx (list_pages asks offset d) Q m.
Proof.
  intros Ho Ha. revert offset d Q Ho. induction Ha as [|[size plus] asks Hs Ha IH]; intros offset d Q Ho Hc HQ; cbn [list_pages].
  { apply wpx_ret, HQ; [apply prefix_nil|]. cbn [length]. intros Hl. symmetry. apply nil_length_inv. lia. }
  unfold dbind at 1. apply wpx_bind. apply wpx_direntPage; [done|done|done|]. intros d1 Hc1. cbn [fst snd].
  set (page := truncateToBuffer _ _ _). destruct (truncate_prefix (drop (Z.to_nat offset) l) size plus) as [rest Hr].
  fold page in Hr. assert (drop (Z.to_nat (offset + Z.of_nat (length page))) l = rest) as Hd.
  { replace (Z.to_nat (offset + Z.of_nat (length page))) with (Z.to_nat offset + length page)%nat by lia.
    by rewrite <- drop_drop, Hr, drop_app_length. }
  unfold dbind. apply wpx_bind. apply IH; [lia|done|]. intros d2 es Hp Hall. rewrite Hd in Hp, Hall. apply wpx_ret.
  cbn [fst snd]. apply HQ; rewrite Hr; [by apply prefix_app|]. rewrite length_app. cbn [length]. intros Hl. f_equal. apply Hall.
  destruct page as [|x page'] eqn:Ep; [|cbn [length] in Hl; lia].
  destruct (decide (drop (Z.to_nat offset) l = [])) as [E|E]; [|by apply (truncate_nonempty _ size plus) in E].
  assert (rest = []) as -> by (by rewrite Hr in E). cbn [length]. lia.
Qed.
End page.

(** C19. Listing an unchanging directory gives each of its names once, in key
    order: however the buffer is sized and whichever form is asked for, the
    answers to successive requests, each continuing where the last one ended,
    are together a prefix of the directory, and all of it once there has been a
    request per entry; a page found through a cursor is the page a full rescan
    would have given. *)
Theorem listing_complete `{E : Etcd, !ReliableEtcd E} ino asks d srv :
  dir_wf (mkvs (eview srv)) ino → Z.of_nat (length (dir_list (mkvs (eview srv)) ino)) < 2 ^ 64 →
  Forall (λ a, 0 <= a.1) asks → cursor_ok (dir_list (mkvs (eview srv)) ino) ino (dirCursors d) →
  (∃ es, (run (list_pages ino asks 0 d) srv).2.2 = Ok es ∧ es `prefix_of` dir_list (mkvs (eview srv)) ino ∧
     ((length (dir_list (mkvs (eview srv)) ino) <= length asks)%nat → es = dir_list (mkvs (eview srv)) ino)) ∧
  (∀ offset size plus, 0 <= offset → 0 <= size →
     (run (direntPage ino offset size plus d) srv).2.2 =
     Ok (truncateToBuffer (drop (Z.to_nat offset) (dir_list (mkvs (eview srv)) ino)) size plus)).
Proof.
  intros Hwf Hlen Ha Hc. split.
  - apply (wp_run_reliable _ (λ x _, ∃ es, x.2 = Ok es ∧ es `prefix_of` dir_list (mkvs (eview srv)) ino ∧
      ((length (dir_list (mkvs (eview srv)) ino) <= length asks)%nat → es = dir_list (mkvs (eview srv)) ino))).
    apply wpx_list_pages; [done|done|done|done|done|]. intros d' es Hp Hall. exists es. simpl in *. done.
  - intros offset size plus Ho Hs.
    apply (wp_run_reliable _ (λ x _, x.2 = Ok (truncateToBuffer (drop (Z.to_nat offset) (dir_list (mkvs (eview srv)) ino)) size plus))).
    by apply wpx_direntPage.
Qed.

(** Three names, pages of one entry each. *)
Definition ls_store : mvcc :=
  MVCC 9 {[ DirentKey 5 [98] := KV (EncodeUint64 11) 3 3 0; DirentKey 5 [97] := KV (EncodeUint64 10) 2 2 0;
            DirentKey 5 [97; 98] := KV (EncodeUint64 12) 4 4 0 ]} ∅.

Lemma listing_complete_witness :
  (@run ref_etcd _ (list_pages 5 (replicate 3 (40, false)) 0 (h_daemon false)) (RefSrv ls_store 0)).2.2 =
  Ok [mkDirentEntry [97] 10; mkDirentEntry [97; 98] 12; mkDirentEntry [98] 11].
Proof.
  destruct (@listing_complete ref_etcd _ 5 (replicate 3 (40, false)) (h_daemon false) (RefSrv ls_store 0)) as [H _].
  - intros k e. cbn [eview ref_etcd]. intros He.
    assert (k ∈ (map_to_list (mkvs ls_store)).*1) as Hk.
    { apply list_elem_of_fmap. exists (k, e). split; [done|]. by apply elem_of_map_to_list. }
    revert k e He Hk. intros k e _ Hk. vm_compute in Hk.
    repeat (apply elem_of_cons in Hk as [->|Hk]; [split; [repeat constructor; lia|discriminate]|]). by apply not_elem_of_nil in Hk.
  - vm_compute. reflexivity.
  - repeat constructor; simpl; lia.
  - by intros cur.
  - destruct H as (es & -> & _ & Hall). rewrite Hall; vm_compute; [reflexivity|lia].
Defined.
