(* ===== verification/SetattrProps.v ===== *)
(** * Changing attributes

    What SETATTR does to a record, when it may be answered without a commit, and
    that the answer it then gives is what the node reports and later publishes. *)

From S2P Require Import Prelude Etcd EtcdFacts Schema Store StoreLogic StoreProps InodeTimes Dirents NodeCaches Extents Allocator ArenaPool Locks Service DataPath Delegate LockCache Wire WireProps DataHandlers Daemon Handlers HandlerProps.

(** ** The decision table *)

Definition enforced_mask : Z := Z.lor (Z.lor (Z.lor fattrMode fattrUID) fattrGID) fattrSize.

(** chmod keeps the type of the file. *)
Lemma chmod_keeps_type old new : ftype (chmod_mode old new) = ftype old.
Proof.
  unfold ftype, chmod_mode. rewrite Z.land_lor_distr_l, <- Z.land_assoc, Z.land_diag.
  assert (Z.land (Z.ldiff new S_IFMT) S_IFMT = 0) as ->; [|apply Z.lor_0_r].
  apply Z.bits_inj'. intros n Hn. rewrite Z.land_spec, Z.ldiff_spec, Z.bits_0. by destruct (Z.testbit S_IFMT n), (Z.testbit new n).
Qed.

Lemma applySetattr_spec rec valid f now :
  let r := applySetattr rec valid f now in
  Ino r = Ino rec ∧ Nlink r = Nlink rec ∧ Rdev r = Rdev rec ∧ Blocks r = Blocks rec ∧ Blksize r = Blksize rec ∧
  ftype (Mode r) = ftype (Mode rec) ∧
  Mode r = (if selects valid fattrMode then chmod_mode (Mode rec) (f_mode f) else Mode rec) ∧
  Size r = (if selects valid fattrSize then f_size f else Size rec) ∧
  UID r = (if selects valid fattrUID then f_uid f else UID rec) ∧
  GID r = (if selects valid fattrGID then f_gid f else GID rec) ∧
  Atime r = (if selects valid fattrAtimeNow then now else if selects valid fattrAtime then f_atime f else Atime rec) ∧
  Mtime r = (if selects valid fattrMtimeNow then now else if selects valid fattrMtime then f_mtime f else Mtime rec) ∧
  Ctime r = (if selects valid fattrCtime then f_ctime f else if selects valid enforced_mask then now else Ctime rec).
Proof.
  unfold applySetattr. fold enforced_mask. cbv zeta.
  match goal with |- context [if selects valid fattrGID then set_GID _ ?x else ?x] =>
    set (r4 := if selects valid fattrGID then set_GID (f_gid f) x else x) end.
  assert (Ino r4 = Ino rec ∧ Nlink r4 = Nlink rec ∧ Rdev r4 = Rdev rec ∧ Blocks r4 = Blocks rec ∧ Blksize r4 = Blksize rec ∧
    Mode r4 = (if selects valid fattrMode then chmod_mode (Mode rec) (f_mode f) else Mode rec) ∧
    Size r4 = (if selects valid fattrSize then f_size f else Size rec) ∧
    UID r4 = (if selects valid fattrUID then f_uid f else UID rec) ∧
    GID r4 = (if selects valid fattrGID then f_gid f else GID rec) ∧
    Atime r4 = Atime rec ∧ Mtime r4 = Mtime rec ∧ Ctime r4 = Ctime rec) as H.
  { unfold r4. by destruct (selects valid fattrSize), (selects valid fattrMode), (selects valid fattrUID), (selects valid fattrGID). }
  clearbody r4.
  assert (ftype (if selects valid fattrMode then chmod_mode (Mode rec) (f_mode f) else Mode rec) = ftype (Mode rec)) as Ht.
  { case_if; [apply chmod_keeps_type|done]. }
  destruct (selects valid fattrAtime), (selects valid fattrMtime), (selects valid fattrCtime), (selects valid fattrAtimeNow),
    (selects valid fattrMtimeNow), (selects valid enforced_mask); cbn; destruct H as (H1 & H2 & H3 & H4 & H5 & H6 & H7 & H8 & H9 & H10 & H11 & H12);
    rewrite ?H1, ?H2, ?H3, ?H4, ?H5, ?H6, ?H7, ?H8, ?H9, ?H10, ?H11, ?H12; split_and!; done.
Qed.

(** A setattr changes exactly the fields its mask selects, with two
    exceptions the mask does not name: the type bits of the mode are kept
    whatever is sent, and any change of mode, owner or size moves ctime to now
    unless the caller set it; a time asked for as "now" wins over a time that
    was sent.  Nothing else of the record moves. *)
Theorem setattr_decision rec valid f now :
  let r := applySetattr rec valid f now in
  Ino r = Ino rec ∧ Nlink r = Nlink rec ∧ Rdev r = Rdev rec ∧ Blocks r = Blocks rec ∧ Blksize r = Blksize rec ∧
  ftype (Mode r) = ftype (Mode rec) ∧
  Mode r = (if selects valid fattrMode then chmod_mode (Mode rec) (f_mode f) else Mode rec) ∧
  Size r = (if selects valid fattrSize then f_size f else Size rec) ∧
  UID r = (if selects valid fattrUID then f_uid f else UID rec) ∧
  GID r = (if selects valid fattrGID then f_gid f else GID rec) ∧
  Atime r = (if selects valid fattrAtimeNow then now else if selects valid fattrAtime then f_atime f else Atime rec) ∧
  Mtime r = (if selects valid fattrMtimeNow then now else if selects valid fattrMtime then f_mtime f else Mtime rec) ∧
  Ctime r = (if selects valid fattrCtime then f_ctime f else if selects valid enforced_mask then now else Ctime rec).
Proof. apply applySetattr_spec. Qed.

(** ** What may be deferred *)

(** [updated] is [rec] with other times. *)
Definition only_times (rec updated : InodeRecord) : Prop :=
  updated = set_Ctime (Ctime updated) (set_Mtime (Mtime updated) (set_Atime (Atime updated) rec)).

Lemma inode_ext (r r' : InodeRecord) :
  Ino r = Ino r' → Size r = Size r' → Blocks r = Blocks r' → Mode r = Mode r' → Nlink r = Nlink r' → UID r = UID r' →
  GID r = GID r' → Rdev r = Rdev r' → Blksize r = Blksize r' → Generation r = Generation r' →
  Atime r = Atime r' → Mtime r = Mtime r' → Ctime r = Ctime r' → r = r'.
Proof. destruct r, r'. simpl. intros. by subst. Qed.

Lemma applySetattr_generation rec valid f now : Generation (applySetattr rec valid f now) = Generation rec.
Proof. unfold applySetattr. repeat (match goal with |- context [if ?b then set_Ctime now ?r else ?r] => destruct b; cbn | |- context [Generation (if ?b then _ else _)] => destruct b; cbn end); done. Qed.

Lemma apply_only_times u rec : only_times rec (apply u rec).1.
Proof.
  unfold only_times, apply. destruct rec. destruct (atime u), (mtime u), (ctime u), (bump u); cbn; repeat case_if; done.
Qed.
Lemma only_times_trans r1 r2 r3 : only_times r1 r2 → only_times r2 r3 → only_times r1 r3.
Proof. unfold only_times. intros H1 H2. rewrite H2. rewrite H1. done. Qed.

Lemma unenforced_only_times rec before valid f now :
  only_times rec before → setattrEnforces rec valid f = false → only_times before (applySetattr before valid f now).
Proof.
  intros Hb He. destruct (applySetattr_spec before valid f now) as (H1 & H2 & H3 & H4 & H5 & _ & H6 & H7 & H8 & H9 & _).
  assert (Mode before = Mode rec ∧ UID before = UID rec ∧ GID before = GID rec) as (Em & Eu & Eg) by (rewrite Hb; done).
  unfold setattrEnforces in He.
  destruct (selects valid fattrMode && negb (chmod_mode (Mode rec) (f_mode f) =? Mode rec)) eqn:Bm; [done|].
  destruct (selects valid fattrUID && negb (f_uid f =? UID rec)) eqn:Bu; [done|].
  destruct (selects valid fattrGID && negb (f_gid f =? GID rec)) eqn:Bg; [done|].
  unfold only_times. apply inode_ext; try (cbn; done).
  - by rewrite H7, He.
  - rewrite H6. destruct (selects valid fattrMode); [|done]. cbn in Bm |- *. rewrite Em.
    by destruct (Z.eqb_spec (chmod_mode (Mode rec) (f_mode f)) (Mode rec)).
  - rewrite H8. destruct (selects valid fattrUID); [|done]. cbn in Bu |- *. rewrite Eu. by destruct (Z.eqb_spec (f_uid f) (UID rec)).
  - rewrite H9. destruct (selects valid fattrGID); [|done]. cbn in Bg |- *. rewrite Eg. by destruct (Z.eqb_spec (f_gid f) (GID rec)).
  - cbn. apply applySetattr_generation.
Qed.

Lemma only_times_eq r a b :
  only_times r a → only_times r b → Atime a = Atime b → Mtime a = Mtime b → Ctime a = Ctime b → a = b.
Proof. unfold only_times. intros -> -> Ha Hm Hc. cbn in *. by rewrite Ha, Hm, Hc. Qed.

(** The times an update without a bump leaves. *)
Lemma apply_times q rec :
  bump q = None →
  let r := (apply q rec).1 in
  Atime r = default (Atime rec) (atime q) ∧ Mtime r = default (Mtime rec) (mtime q) ∧
  Ctime r = match ctime q with Some t => Z.max (Ctime rec) t | None => Ctime rec end.
Proof.
  destruct q as [b a m c]. cbn [bump atime mtime ctime]. intros ->. unfold apply. cbn [bump atime mtime ctime].
  destruct a as [a|]; [destruct (Z.eqb_spec (Atime rec) a)|];
    (destruct m as [m|]; [cbn; destruct (Z.eqb_spec (Mtime rec) m)|]);
    (destruct c as [c|]; [cbn; destruct (Z.ltb_spec (Ctime rec) c)|]); cbn; split_and!; done || lia.
Qed.

(** What is queued, applied to the stored record, is the record answered. *)
Lemma queued_is_answered q rec updated :
  bump q = None → only_times (apply q rec).1 updated → Ctime (apply q rec).1 <= Ctime updated →
  let b := (apply q rec).1 in
  (apply (mergeAssignment q (mkTimeUpdate None (moved (Atime updated) (Atime b)) (moved (Mtime updated) (Mtime b))
            (moved (Ctime updated) (Ctime b)))) rec).1 = updated.
Proof.
  intros Hb Ho Hc b. set (q' := mergeAssignment _ _).
  destruct (apply_times q rec Hb) as (Ha & Hm & Hct). destruct (apply_times q' rec eq_refl) as (Ha' & Hm' & Hct').
  fold b in Ha, Hm, Hct, Hc. apply (only_times_eq rec); [apply apply_only_times|by eapply only_times_trans; [apply apply_only_times|]| | |].
  - rewrite Ha'. unfold q', moved, newest. cbn. destruct (Z.eqb_spec (Atime updated) (Atime b)) as [->|]; done.
  - rewrite Hm'. unfold q', moved, newest. cbn. destruct (Z.eqb_spec (Mtime updated) (Mtime b)) as [->|]; done.
  - rewrite Hct'. unfold q', moved, newest. cbn. destruct (Z.eqb_spec (Ctime updated) (Ctime b)) as [->|]; [done|].
    cbn [newest]. assert (Ctime rec <= Ctime b); [|lia]. rewrite Hct. destruct (ctime q); lia.
Qed.

Lemma pending_queued dirty rec a m c :
  bump (default no_update (dirty !! Ino rec)) = None →
  let x := QueueInodeTimes (Some dirty) (Ino rec) a m c in
  (PendingInodeTimes x.1 rec).1 =
  (apply (mergeAssignment (default no_update (dirty !! Ino rec)) (mkTimeUpdate None a m c)) rec).1 ∧ x.2 = true.
Proof.
  intros Hb. unfold QueueInodeTimes.
  destruct a, m, c; cbn [fst snd PendingInodeTimes]; rewrite ?lookup_insert_eq; try done.
  destruct (dirty !! Ino rec) as [q|] eqn:E; [|done]. cbn [default from_option] in *. split; [|done].
  destruct q as [b qa qm qc]. cbn in Hb. by subst b.
Qed.

(** A setattr that moves nothing a peer checks is answered from this node's
    own state: it makes no request of the store at all, the record it answers
    with differs from the stored one in its times only, and what it leaves in the
    queue, applied to the stored record, is that record, so a stat on this node
    agrees with the answer and publishing the queue writes it.  (A directory bump
    queued for the same inode is excluded, and the clock does not run back.) *)
Theorem deferred_setattr_visible d dirty rec valid f :
  times d = Some dirty → setattrEnforces rec valid f = false → selects valid fattrCtime = false →
  bump (default no_update (dirty !! Ino rec)) = None →
  let before := (apply (default no_update (dirty !! Ino rec)) rec).1 in
  ∀ now, Ctime before <= now →
  let updated := applySetattr before valid f now in
  ∃ d' k, deferSetattrTimes rec valid f d = Call QNow k ∧ k now = Ret (d', Some (attrResp (attrTimeout d) updated)) ∧
    only_times rec updated ∧ (PendingInodeTimes (times d') rec).1 = updated ∧
    d' = set_times (times d') d.
Proof.
  intros Ht He Hsel Hb before now Hnow updated.
  assert ((PendingInodeTimes (times d) rec).1 = before) as Hbef.
  { unfold before. rewrite Ht. cbn. by destruct (dirty !! Ino rec). }
  assert (only_times before updated) as Ho by (eapply unenforced_only_times; [apply apply_only_times|done]).
  assert (Ino updated = Ino rec) as Hi by (rewrite Ho; apply apply_fields).
  assert (Ctime before <= Ctime updated) as Hc.
  { destruct (applySetattr_spec before valid f now) as (_ & _ & _ & _ & _ & _ & _ & _ & _ & _ & _ & _ & E). fold updated in E.
    rewrite E, Hsel. case_if; [done|lia]. }
  pose proof (queued_is_answered _ _ _ Hb Ho Hc) as Hq. fold before in Hq. cbv zeta in Hq.
  unfold deferSetattrTimes, dbind, dgets, now_d, dlift. cbn [bind fst snd]. rewrite Hbef. fold updated.
  eexists (set_times (QueueInodeTimes (times d) (Ino updated) (moved (Atime updated) (Atime before))
    (moved (Mtime updated) (Mtime before)) (moved (Ctime updated) (Ctime before))).1 d), _. split; [done|].
  cbn [bind fst snd times set_times]. fold updated. rewrite Ht, Hi.
  pose proof (pending_queued dirty rec (moved (Atime updated) (Atime before)) (moved (Mtime updated) (Mtime before))
    (moved (Ctime updated) (Ctime before)) Hb) as [Hp Hflag]. rewrite Hq in Hp.
  destruct (QueueInodeTimes _ _ _ _ _) as [t b]. cbn [fst snd] in *. subst b. split; [done|].
  split; [by eapply only_times_trans; [apply apply_only_times|]|]. done.
Qed.

Definition sa_rec : InodeRecord := mkInode 7 10 0 (Z.lor ModeFile 420) 1 0 0 0 4096 0 100 100 100.
Definition sa_fields : setattrFields := mkFields 0 420 0 0 5 6 0.

Lemma deferred_setattr_visible_witness :
  let valid := Z.lor (Z.lor fattrMode fattrAtime) fattrMtime in
  ∃ d' k, deferSetattrTimes sa_rec valid sa_fields (h_daemon false) = Call QNow k ∧
    k 500 = Ret (d', Some (attrResp 60 (set_Ctime 500 (set_Mtime 6 (set_Atime 5 sa_rec))))) ∧
    (PendingInodeTimes (times d') sa_rec).1 = set_Ctime 500 (set_Mtime 6 (set_Atime 5 sa_rec)).
Proof.
  destruct (deferred_setattr_visible (h_daemon false) ∅ sa_rec (Z.lor (Z.lor fattrMode fattrAtime) fattrMtime) sa_fields
              eq_refl eq_refl eq_refl eq_refl 500) as (d' & k & H1 & H2 & _ & H3 & _); [vm_compute; discriminate|].
  exists d', k. split; [exact H1|]. split; [rewrite H2; vm_compute; reflexivity|]. rewrite H3. vm_compute. reflexivity.
Defined.

(** ** A failed setattr loses the times queued before it *)

(** A server that refuses one transaction, which has no effect. *)
Record refusing_srv := RefusingSrv { rf_inner : ref_srv; rf_armed : bool }.
Definition refusing_serve (q : req) (s : refusing_srv) : refusing_srv * resp q :=
  match q return (refusing_srv * resp q) with
  | QTxn ifs ts es =>
    if rf_armed s then (RefusingSrv (rf_inner s) false, None)
    else let x := ref_serve (QTxn ifs ts es) (rf_inner s) in (RefusingSrv x.1 false, x.2)
  | q => let x := ref_serve q (rf_inner s) in (RefusingSrv x.1 (rf_armed s), x.2)
  end.
Lemma refusing_serve_ok q s :
  etcd_ok q (rs_store (rf_inner s)) (rs_store (rf_inner (refusing_serve q s).1)) (refusing_serve q s).2.
Proof.
  pose proof (ref_serve_exact q (rf_inner s)) as H. destruct q; try (left; exact H). unfold refusing_serve.
  destruct (rf_armed s); [|left; exact H]. right. split; [done|]. by left.
Qed.
Definition refusing_etcd : Etcd := {|
  esrv := refusing_srv; eview s := rs_store (rf_inner s); eserve := refusing_serve;
  eexpire l s := RefusingSrv (eexpire (Etcd := ref_etcd) l (rf_inner s)) (rf_armed s);
  etcd_documented := refusing_serve_ok; etcd_expiry l s := eq_refl
|}.

Definition sa_store : mvcc :=
  MVCC 9 {[ GenKey (lit "n1") := KV (fmt_uint 0) 2 5 0; InodeKey 7 := KV (EncodeInode sa_rec) 3 3 0 ]} ∅.
Definition sa_queue : gmap Z timeUpdate := {[ 7 := mkTimeUpdate None (Some 5) (Some 6) None ]}.

(** A utimes answered and queued; then a chmod whose commit fails without taking
    effect.  The chmod is answered with EIO, the stored record still has the old
    times, and the queue no longer holds the new ones: the acknowledged utimes is
    lost. *)
Theorem failed_setattr_drops_queued_times :
  let chmod := setattr_loop 7 fattrMode (mkFields 0 384 0 0 0 0 0) 4 in
  let '(srv, (d, r)) := @run refusing_etcd _ (chmod (set_times (Some sa_queue) (h_daemon false)))
                          (RefusingSrv (RefSrv sa_store 0) true) in
  r = int32Resp errIO ∧ rs_store (rf_inner srv) = sa_store ∧ times d = Some ∅.
Proof. vm_compute. split_and!; reflexivity. Qed.
