(* ===== verification/Notify.v ===== *)
(** * Telling the kernel

    Models internal/ipc/notify.go: the connection to the FUSE daemon that carries
    cache invalidations, with its breaker for a client that stops answering, the
    framing of its messages, and what the dirent and inode watches do with an
    event.  Clocks are read where the code reads them and passed in; [outcome] is
    what the socket did with one message. *)

From S2P Require Import Prelude Etcd EtcdFacts Schema Store Locks Extents Allocator ArenaPool InodeTimes Dirents Service DataPath Delegate LockCache Wire WireProps DataHandlers NodeCaches Daemon.

Definition notifyInvalEntry : Z := 1.
Definition notifyInvalInode : Z := 2.
Definition notifyInvalAttr : Z := 3.
Definition notifyHeaderLen : nat := 16.
Definition notifyMaxName : nat := 255.
Definition notifyBreakerTrips : Z := 3.
Definition notifyBreakerCooldown : Z := 30 * second.

(** [brokenUntil]: [None] is the zero time. *)
Record notifyServer := mkNotify { conn : bool; ackTimeouts : Z; brokenUntil : option Z }.
Definition newNotifyServer : notifyServer := mkNotify false 0 None.

Definition notifyMsg (typ ino : Z) (name : bytes) : bytes :=
  be 4 (wrap32 typ) ++ be 8 (wrap64 ino) ++ be 4 (wrap32 (Z.of_nat (length name))) ++ name.

(** [Answered b]: the write succeeded and, where one is waited for, the
    acknowledgement is [b]. *)
Inductive outcome := WriteFailed | AckTimedOut | AckFailed | Answered (b : Z).
Inductive notify_err := NoNotifyClient | ClientUnresponsive | InvalidationFailed.

Definition before_time (now : Z) (t : option Z) : bool := match t with Some u => now <? u | None => false end.

(** [now] and [later]: the clock at the breaker's check and after a failure. *)
Definition send (now later : Z) (o : outcome) (ack : bool) (n : notifyServer) : notifyServer * option notify_err :=
  if negb (conn n) then (n, Some NoNotifyClient)
  else if ack && before_time now (brokenUntil n) then (n, Some ClientUnresponsive)
  else
    match o with
    | WriteFailed => (mkNotify false (ackTimeouts n) (brokenUntil n), Some NoNotifyClient)
    | Answered b =>
      if negb ack then (n, None)
      else if negb (b =? 0) then (n, Some InvalidationFailed)
      else (mkNotify (conn n) 0 (brokenUntil n), None)
    | AckFailed => if negb ack then (n, None) else (mkNotify false (ackTimeouts n) (brokenUntil n), Some NoNotifyClient)
    | AckTimedOut =>
      if negb ack then (n, None)
      else
        let t := ackTimeouts n + 1 in
        if notifyBreakerTrips <=? t then (mkNotify false t (Some (later + notifyBreakerCooldown)), Some ClientUnresponsive)
        else (mkNotify false t (brokenUntil n), Some NoNotifyClient)
    end.

(** [set]: a client connects. *)
Definition set_conn (n : notifyServer) : notifyServer := mkNotify true (ackTimeouts n) (brokenUntil n).
Definition connected_n (n : notifyServer) : bool := conn n.

(** What [invalidatePages] (Service) sees of an acknowledged message. *)
Definition inval_reply (e : option notify_err) : inval :=
  match e with None => InvalDone | Some NoNotifyClient => InvalNoClient | Some _ => InvalFailed end.

(** ** Events *)

(** [sendInvalEntry] and [parentTimesChanged]: the message sent, if any. *)
Definition sendInvalEntry (parent : Z) (name : bytes) : option bytes :=
  if parent =? 0 then None
  else if bool_decide (notifyMaxName < length name)%nat then None
  else Some (notifyMsg notifyInvalEntry parent name).
Definition parentTimesChanged (parent : Z) : option bytes :=
  if parent =? 0 then None else Some (notifyMsg notifyInvalAttr parent []).

Definition direntChanged (key : bytes) (is_delete : bool) (d : Daemon) : Daemon * option bytes :=
  match ParseDirentKey key with
  | None => (d, None)
  | Some (parent, name) => (set_dirents (observed parent name (negb is_delete) (dirents d)) d, sendInvalEntry parent name)
  end.

Definition direntWatchGap (d : Daemon) : Daemon := set_dirents (reset_dirents (dirents d)) d.

Definition inodeChanged (key : bytes) (d : Daemon) : option bytes :=
  match ParseInodeKey key with
  | None => None
  | Some ino => if holdsLockKey (base d) ino then None else Some (notifyMsg notifyInvalAttr ino [])
  end.

(** ** The stream can be taken apart *)

(** The reader of the other side: a header, then the name of the length it
    declares. *)
Fixpoint read_msgs (fuel : nat) (s : bytes) : list (Z * Z * bytes) :=
  match fuel with
  | O => []
  | S fuel' =>
    if bool_decide (length s < notifyHeaderLen)%nat then []
    else
      let '(typ, s) := getn 4 s in let '(ino, s) := getn 8 s in let '(n, s) := getn 4 s in
      if bool_decide (length s < Z.to_nat n)%nat then []
      else (typ, ino, take (Z.to_nat n) s) :: read_msgs fuel' (drop (Z.to_nat n) s)
  end.

Definition msg_ok (x : Z * Z * bytes) : Prop :=
  0 <= x.1.1 < 2 ^ 32 ∧ is_u64 x.1.2 ∧ Z.of_nat (length x.2) < 2 ^ 32.
Definition frame_msgs (ms : list (Z * Z * bytes)) : bytes := concat (map (λ x, notifyMsg x.1.1 x.1.2 x.2) ms).

Lemma read_msgs_app fuel ms rest :
  Forall msg_ok ms → (length ms < fuel)%nat → (length rest < notifyHeaderLen)%nat → read_msgs fuel (frame_msgs ms ++ rest) = ms.
Proof.
  intros Hms. revert fuel. induction Hms as [|[[t i] name] ms (Ht & Hi & Hn) Hms IH]; intros [|fuel] Hf Hr; cbn [length] in *; try lia.
  - cbn [frame_msgs map concat app read_msgs]. by rewrite bool_decide_eq_true_2.
  - unfold frame_msgs. cbn [map concat fst snd read_msgs] in *. fold (frame_msgs ms). unfold notifyMsg. rewrite <- !app_assoc.
    rewrite bool_decide_eq_false_2 by (rewrite !length_app, !length_be; unfold notifyHeaderLen; lia).
    unfold wrap32, wrap64. rewrite !Z.mod_small by (unfold is_u64 in *; lia).
    rewrite getn_be, getn_be, getn_be by (unfold is_u64 in *; lia).
    rewrite Nat2Z.id, bool_decide_eq_false_2 by (rewrite length_app; lia).
    rewrite take_app_length, drop_app_length, IH by lia. done.
Qed.

(** Messages written back to back are taken apart again: whatever sequence
    of invalidations is written to the stream, however it is split by the reads,
    a reader that follows each header's length recovers that sequence, and a
    partial message at the end adds nothing. *)
Theorem notify_stream_roundtrip ms rest :
  Forall msg_ok ms → (length rest < notifyHeaderLen)%nat →
  read_msgs (S (length ms)) (frame_msgs ms ++ rest) = ms.
Proof. intros. by apply read_msgs_app; [| lia|]. Qed.

Lemma notify_stream_roundtrip_witness :
  read_msgs 3 (frame_msgs [(1, 5, [97; 98]); (3, 5, [])] ++ [0; 0]) = [(1, 5, [97; 98]); (3, 5, [])].
Proof.
  apply (notify_stream_roundtrip [(1, 5, [97; 98]); (3, 5, [])] [0; 0]).
  - repeat constructor; simpl; lia.
  - unfold notifyHeaderLen. simpl. lia.
Defined.

(** ** The breaker *)

(** [k] acknowledgements in a row time out, the client reconnecting each time. *)
Fixpoint wedged (k : nat) (now : Z) (n : notifyServer) : notifyServer * list (option notify_err) :=
  match k with
  | O => (n, [])
  | S k' =>
    let '(n, e) := send now now AckTimedOut true (set_conn n) in
    let '(n, es) := wedged k' now n in (n, e :: es)
  end.

Lemma send_timeout now c t b :
  before_time now b = false →
  send now now AckTimedOut true (set_conn (mkNotify c t b)) =
  if notifyBreakerTrips <=? t + 1 then (mkNotify false (t + 1) (Some (now + notifyBreakerCooldown)), Some ClientUnresponsive)
  else (mkNotify false (t + 1) b, Some NoNotifyClient).
Proof. intros Hb. unfold send, set_conn. cbn [conn negb andb brokenUntil ackTimeouts]. by rewrite Hb. Qed.

Ltac time_out :=
  match goal with |- context [notifyBreakerTrips <=? ?t] =>
    let v := eval vm_compute in (notifyBreakerTrips <=? t) in change (notifyBreakerTrips <=? t) with v end; cbn beta iota zeta.

(** The breaker trips on the third acknowledgement in a row that times out,
    whatever reconnections lie between: from then until the cool-down ends every
    acknowledged message is refused at once, without touching the socket, so a
    release does not go through; an acknowledgement that arrives before the third
    clears the count. *)
Theorem breaker_trips now later n t o :
  ackTimeouts n = 0 → before_time now (brokenUntil n) = false → now <= t < now + notifyBreakerCooldown →
  (wedged 3 now n).2 = [Some NoNotifyClient; Some NoNotifyClient; Some ClientUnresponsive] ∧
  send t later o true (set_conn (wedged 3 now n).1) = (set_conn (wedged 3 now n).1, Some ClientUnresponsive) ∧
  inval_reply (send t later o true (set_conn (wedged 3 now n).1)).2 = InvalFailed ∧
  ackTimeouts (send now later (Answered 0) true (set_conn (wedged 2 now n).1)).1 = 0.
Proof.
  destruct n as [c k b]. cbn [ackTimeouts brokenUntil]. intros -> Hb Ht.
  assert (wedged 2 now (mkNotify c 0 b) = (mkNotify false 2 b, [Some NoNotifyClient; Some NoNotifyClient])) as E2.
  { cbn [wedged]. by do 2 (rewrite (send_timeout now) by done; time_out). }
  assert (wedged 3 now (mkNotify c 0 b) = (mkNotify false 3 (Some (now + notifyBreakerCooldown)),
            [Some NoNotifyClient; Some NoNotifyClient; Some ClientUnresponsive])) as E3.
  { cbn [wedged]. by do 3 (rewrite (send_timeout now) by done; time_out). }
  rewrite E2, E3. cbn [fst snd]. unfold send, set_conn. cbn [conn ackTimeouts brokenUntil negb andb before_time].
  rewrite (proj2 (Z.ltb_lt t _)) by lia. rewrite Hb. done.
Qed.

Lemma breaker_trips_witness :
  (wedged 3 100 newNotifyServer).2 = [Some NoNotifyClient; Some NoNotifyClient; Some ClientUnresponsive].
Proof. apply (breaker_trips 100 0 newNotifyServer 200 WriteFailed); [reflexivity|reflexivity|unfold notifyBreakerCooldown, second; lia]. Defined.

(** The first two time-outs of a client that is wedged but still has its session
    are reported as a client that is gone: the page invalidation a release waits
    for is then taken as done, and the lock key is given up with the kernel's
    pages still cached. *)
Theorem wedged_client_release_proceeds now n s ino :
  ackTimeouts n <= 1 → before_time now (brokenUntil n) = false → pagesCacheable s = true →
  let reply := inval_reply (send now now AckTimedOut true (set_conn n)).2 in
  reply = InvalNoClient ∧
  ∃ k, invalidatePages ino s = Call (QIO (InvalPages ino)) k ∧ k reply = Ret (set_pagesCached false s, Ok tt).
Proof.
  intros Ht Hb Hp. unfold send. cbn [set_conn conn negb andb brokenUntil ackTimeouts]. rewrite Hb.
  rewrite (proj2 (Z.leb_gt _ _)) by (unfold notifyBreakerTrips; lia). cbn. split; [done|].
  unfold invalidatePages. rewrite Hp. cbn. eexists. split; [done|]. done.
Qed.

Lemma wedged_client_release_proceeds_witness :
  inval_reply (send 0 0 AckTimedOut true (set_conn newNotifyServer)).2 = InvalNoClient.
Proof.
  apply (wedged_client_release_proceeds 0 newNotifyServer
           (mkService (mkOptions 0 0 0 false true false true) (lit "n1") false false true 0 (mkLockState None 0)
              NewAllocator None 0 0 true ∅) 7); [vm_compute; discriminate|reflexivity|reflexivity].
Defined.
