(* ===== verification/Watch.v ===== *)
(** * Resumable watches

    Models internal/ipc/watch.go: [runWatch] delivers a prefix's events on one
    goroutine and re-opens the watch from the revision after the last response
    whenever etcd ends it.  etcd is a parameter: [channel i resume] is every
    response the [i]-th channel carries before it ends, having been asked to
    start at [resume] (0: from current). *)

From S2P Require Import Prelude Etcd.

(** One change: the revision that made it and what it was. *)
Record wevent := mkWEvent { we_rev : Z; we_key : bytes; we_put : bool }.

(** A response of the channel; a cancellation carries the revision compacted
    past, or 0. *)
Inductive wresp := WResp (events : list wevent) (header : Z) | WCanceled (compactRevision : Z).

(** What the watcher's callbacks are called with. *)
Inductive wcall := COpened | CEvent (e : wevent) | CGap.

(** [for resp := range ch]: the callbacks, the revision to resume from and
    whether history was lost. *)
Fixpoint drain_channel (resps : list wresp) (resume : Z) : list wcall * Z * bool :=
  match resps with
  | [] => ([], resume, false)
  | WCanceled c :: _ => ([], resume, 0 <? c)
  | WResp evs h :: resps' =>
    let '(calls, resume', compacted) := drain_channel resps' (h + 1) in
    (map CEvent evs ++ calls, resume', compacted)
  end.

(** [n] openings; the loop itself ends only with its context. *)
Fixpoint watch_loop (channel : nat → Z → list wresp) (n i : nat) (resume : Z) : list wcall * Z :=
  match n with
  | O => ([], resume)
  | S n' =>
    let '(calls, resume', compacted) := drain_channel (channel i resume) resume in
    let '(resume', gap) := if (compacted : bool) then (0, [CGap]) else (resume', []) in
    let '(rest, final) := watch_loop channel n' (S i) resume' in
    (COpened :: calls ++ gap ++ rest, final)
  end.
Definition runWatch (channel : nat → Z → list wresp) (n : nat) : list wcall * Z := watch_loop channel n 0 0.

Definition delivered (calls : list wcall) : list wevent := omap (λ c, match c with CEvent e => Some e | _ => None end) calls.

(** ** Histories *)

Section histories.
Context {A} (rev : A → Z).

(** The events of a history from one revision up to and including another. *)
Definition between (hist : list A) (from to : Z) : list A := filter (λ e, from <= rev e ∧ rev e <= to) hist.

Definition sorted_hist (hist : list A) : Prop := StronglySorted (λ a b, rev a <= rev b) hist.

Lemma between_ext hist a b a' b' :
  Forall (λ e, (a <= rev e ∧ rev e <= b) ↔ (a' <= rev e ∧ rev e <= b')) hist → between hist a b = between hist a' b'.
Proof.
  unfold between. induction 1 as [|e l He Hl IH]; [done|]. rewrite !filter_cons. rewrite IH.
  destruct (decide (a <= rev e ∧ rev e <= b)), (decide (a' <= rev e ∧ rev e <= b')); tauto || done.
Qed.
Lemma between_empty hist a b : b < a → between hist a b = [].
Proof.
  intros H. rewrite (between_ext hist a b 1 0) by (apply Forall_true; intros; lia).
  unfold between. induction hist as [|e l IH]; [done|]. rewrite filter_cons, decide_False by lia. done.
Qed.

Lemma between_app hist a b c :
  sorted_hist hist → a - 1 <= b → b <= c → between hist a c = between hist a b ++ between hist (b + 1) c.
Proof.
  intros Hs Hab Hbc. induction Hs as [|e l Hs IH He]; [done|]. destruct (decide (b < rev e)) as [Hlt|Hge].
  - rewrite (between_ext (e :: l) a b 1 0), (between_empty _ 1 0) by first [lia | constructor; [lia|]; eapply Forall_impl; [exact He|]; simpl; lia].
    apply between_ext. constructor; [lia|]. eapply Forall_impl; [exact He|]. simpl. lia.
  - unfold between in *. rewrite !filter_cons. rewrite (decide_False (P := b + 1 <= _ ∧ _)) by lia.
    destruct (decide (a <= rev e ∧ rev e <= c)).
    + rewrite decide_True by lia. by rewrite IH.
    + rewrite decide_False by lia. done.
Qed.

End histories.

(** ** What etcd promises *)

(** From [from] on: each response carries everything up to its header, in
    order, and none is skipped; a cancellation ends the channel. *)
Fixpoint in_order (hist : list wevent) (from : Z) (resps : list wresp) : Prop :=
  match resps with
  | [] => True
  | WCanceled _ :: rest => rest = []
  | WResp evs h :: rest => from - 1 <= h ∧ evs = between we_rev hist from h ∧ in_order hist (h + 1) rest
  end.

(** [current i]: the store's revision when the [i]-th channel was opened. *)
Definition serves (hist : list wevent) (current : nat → Z) (channel : nat → Z → list wresp) : Prop :=
  ∀ i resume, in_order hist (if resume =? 0 then current i + 1 else resume) (channel i resume).

(** ** Delivery *)

Lemma delivered_app l l' : delivered (l ++ l') = delivered l ++ delivered l'.
Proof. apply omap_app. Qed.
Lemma delivered_events evs : delivered (map CEvent evs) = evs.
Proof. unfold delivered. induction evs as [|e l IH]; csimpl; [done|]. by rewrite IH. Qed.

(** One channel delivers what lies between where it started and where the next
    one will. *)
Lemma drain_delivers hist from resps resume :
  sorted_hist we_rev hist → in_order hist from resps → resume = from ∨ (∃ evs h rest, resps = WResp evs h :: rest) →
  let '(calls, resume', _) := drain_channel resps resume in
  delivered calls = between we_rev hist from (resume' - 1) ∧ from <= resume'.
Proof.
  intros Hs. revert from resume. induction resps as [|[evs h|c] resps IH]; intros from resume Hin Hr; simpl.
  - destruct Hr as [->|(? & ? & ? & ?)]; [|done]. split; [by rewrite between_empty by lia|lia].
  - destruct Hin as (Hh & -> & Hin). specialize (IH (h + 1) (h + 1) Hin (or_introl eq_refl)).
    destruct (drain_channel resps (h + 1)) as [[calls r] cp]. destruct IH as [Hd Hle].
    split; [|lia]. rewrite delivered_app, delivered_events, Hd. symmetry. apply between_app; [done|lia|lia].
  - destruct Hr as [->|(? & ? & ? & ?)]; [|done]. split; [by rewrite between_empty by lia|lia].
Qed.

Lemma loop_delivers hist current channel n i resume :
  sorted_hist we_rev hist → serves hist current channel → 0 < resume →
  let '(calls, final) := watch_loop channel n i resume in
  CGap ∉ calls → delivered calls = between we_rev hist resume (final - 1) ∧ resume <= final.
Proof.
  intros Hs Hsv. revert i resume. induction n as [|n IH]; intros i resume Hr; cbn [watch_loop].
  { intros _. split; [by rewrite between_empty by lia|lia]. }
  pose proof (Hsv i resume) as Hin. rewrite (proj2 (Z.eqb_neq resume 0)) in Hin by lia.
  pose proof (drain_delivers hist resume _ resume Hs Hin (or_introl eq_refl)) as Hd.
  destruct (drain_channel (channel i resume) resume) as [[calls r] cp]. destruct Hd as [Hd Hle].
  destruct cp; [destruct (watch_loop channel n (S i) 0) as [rest final]; intros Hg; exfalso; apply Hg; set_solver|].
  specialize (IH (S i) r ltac:(lia)). destruct (watch_loop channel n (S i) r) as [rest final]. cbn [app]. intros Hg.
  destruct IH as [Hrest Hf]; [set_solver|]. split; [|lia].
  change (COpened :: calls ++ rest) with ([COpened] ++ calls ++ rest). rewrite !delivered_app, Hd, Hrest. cbn [app].
  symmetry. rewrite (between_app we_rev hist resume (r - 1) (final - 1)) by (done || lia). by replace (r - 1 + 1) with r by lia.
Qed.


(** ** Concrete channels *)

Definition w_ev (r : Z) : wevent := mkWEvent r (fmt_uint r) true.
Definition w_hist : list wevent := [w_ev 11; w_ev 12; w_ev 14].

(** A channel opened at revision 10, ended after a response up to 12; the next
    one carries the rest. *)
Definition w_channel (i : nat) (resume : Z) : list wresp :=
  match i, resume with
  | O, 0 => [WResp [w_ev 11; w_ev 12] 12; WCanceled 0]
  | 1%nat, 13 => [WResp [w_ev 14] 15]
  | _, _ => []
  end.


(** The first channel ends before any response: the next one starts "from
    current" again, the change committed in between is never delivered, and no
    gap is reported. *)
Definition quiet_channel (i : nat) (resume : Z) : list wresp :=
  match i with O => [] | _ => [WResp [w_ev 14] 15] end.

Theorem quiet_first_watch_loses_events :
  runWatch quiet_channel 2 = ([COpened; COpened; CEvent (w_ev 14)], 16) ∧
  in_order w_hist 11 (quiet_channel 0 0) ∧ in_order w_hist 13 (quiet_channel 1 0) ∧
  w_ev 12 ∈ w_hist ∧ w_ev 12 ∉ delivered (runWatch quiet_channel 2).1.
Proof.
  split; [vm_compute; reflexivity|]. split; [done|]. split; [vm_compute; split_and!; try done; discriminate|].
  split; [unfold w_hist; set_solver|].
  vm_compute. intros H. apply elem_of_cons in H as [H|H]; [discriminate|]. by apply elem_of_nil in H.
Qed.
