(* ===== verification/DaemonReqs.v ===== *)
(** * A daemon keeps to its requests

    Every operation of the service (internal/ipc: delegate.go, lockcache.go,
    datapath.go, writeop.go, sparse.go) and every handler makes only the requests
    NodeReqs allows, whatever etcd, the device and the kernel answer.  Two things
    are carried along: the generation the service was started with, and that
    neither a buffered operation nor a cached extent has a lock's key.

    Theorems: a fenced daemon changes nothing but its own want keys and the pool
    of free arenas; and daemons serving any requests, interleaved in any way, keep
    an exclusive lock holder alone. *)

From S2P Require Import Prelude Etcd EtcdFacts Schema Store StoreLogic Locks Extents Allocator ArenaPool InodeTimes Dirents Fencing Xattrs Service DataPath Delegate SvcLogic LockCache Wire DataHandlers NodeCaches Daemon Handlers Sends NodeReqs.

Section daemon.
Context (n : bytes) (og : option Z).
Notation sends := (sends (node_req n og)).

Definition entry_ok (e : lockEntry) : Prop :=
  (∀ k o, entry_ops e !! k = Some o → op_locks o = []) ∧ (∀ k, k ∈ meta_keys e → is_lock_key k = false).

(** What is carried along. *)
Record svc_ok (s : Service) : Prop := {
  so_node : node s = n;
  so_gen : ∀ g, og = Some g → genInit s = true ∧ startGen s = g;
  so_entries : ∀ ino e, entries s !! ino = Some e → entry_ok e;
}.

Lemma store_ok s : svc_ok s → node_store n og (store s).
Proof.
  intros [Hn Hg _]. split; [done|]. unfold store. eexists. split; [done|]. intros g Ho. by destruct (Hg g Ho) as [-> ->].
Qed.

Definition stays {A} (c : svc A) (Q : A → Prop) : Prop := ∀ s, svc_ok s → sends (c s) (λ x, svc_ok x.1 ∧ Q x.2).

(** ** Rules *)

Lemma stays_ret {A} (a : A) (Q : A → Prop) : Q a → stays (sret a) Q.
Proof. by intros HQ s Hs. Qed.

Lemma stays_mono {A} (c : svc A) (Q Q' : A → Prop) : stays c Q → (∀ a, Q a → Q' a) → stays c Q'.
Proof. intros Hc HQ s Hs. eapply sends_mono; [by apply Hc|]. intros x [? ?]. auto. Qed.

Lemma stays_then {A B} (c : svc A) (f : A → svc B) Q R : stays c Q → (∀ a, Q a → stays (f a) R) → stays (sbind c f) R.
Proof. intros Hc Hf s Hs. eapply sends_then; [by apply Hc|]. intros x [? ?]. by apply Hf. Qed.

Lemma stays_seq {A B} (c : svc A) (f : A → svc B) R : stays c (λ _, True) → (∀ a, stays (f a) R) → stays (sbind c f) R.
Proof. intros Hc Hf. eapply stays_then; [exact Hc|]. auto. Qed.

Lemma stays_ethen {A B} (c : svc (result A)) (f : A → svc (result B)) Q R :
  stays c Q → (∀ a, Q (Ok a) → stays (f a) R) → (∀ e, R (Err e)) → stays (sebind c f) R.
Proof. intros Hc Hf He. eapply stays_then; [exact Hc|]. intros [a|e] Ha; [by apply Hf|by apply stays_ret]. Qed.

Lemma stays_gets {A} (f : Service → A) : stays (gets f) (λ a, ∃ s, svc_ok s ∧ a = f s).
Proof. intros s Hs. split; [done|]. eauto. Qed.

Lemma stays_store {A} (f : Store → prog A) Q : (∀ st, node_store n og st → sends (f st) Q) → stays (with_store f) Q.
Proof. intros Hf s Hs. eapply sends_then; [by apply Hf, store_ok|]. by intros a Ha. Qed.

Lemma stays_lift {A} (p : prog A) Q : sends p Q → stays (lift p) Q.
Proof. intros Hp s Hs. eapply sends_then; [exact Hp|]. by intros a Ha. Qed.

Lemma stays_with {A} (p : Service → prog A) Q : (∀ s, sends (p s) Q) → stays (λ s, x ⇐ p s; Ret (s, x)) Q.
Proof. intros Hp s Hs. eapply sends_then; [apply Hp|]. by intros a Ha. Qed.

Lemma stays_at {A} (c : svc A) s : stays c (λ _, True) → svc_ok s → sends (c s) (λ x, svc_ok x.1 ∧ True).
Proof. intros Hc. apply Hc. Qed.

(** A change that leaves the generation and the entries alone. *)
Lemma svc_ok_same s s' : svc_ok s → node s' = node s → genInit s' = genInit s → startGen s' = startGen s →
  entries s' = entries s → svc_ok s'.
Proof. intros [H1 H2 H3] E1 E2 E3 E4. split; [by rewrite E1|by rewrite E2, E3|by rewrite E4]. Qed.

Lemma stays_modify (f : Service → Service) : (∀ s, svc_ok s → svc_ok (f s)) → stays (modify f) (λ _, True).
Proof. intros Hf s Hs. by split; [apply Hf|]. Qed.

Lemma svc_ok_entries s m : svc_ok s → (∀ ino e, m !! ino = Some e → entry_ok e) → svc_ok (set_entries m s).
Proof. by intros [H1 H2 H3] Hm. Qed.

Lemma stays_alter ino f : (∀ e, entry_ok e → entry_ok (f e)) → stays (alter_entry ino f) (λ _, True).
Proof.
  intros Hf. apply stays_modify. intros s Hs. apply svc_ok_entries; [done|]. intros i e He.
  apply lookup_alter_Some in He as [(<- & e0 & He & ->)|[_ He]]; [apply Hf|]; by eapply so_entries.
Qed.

Lemma stays_retry {A} (c : svc (result A)) k Q : (∀ e, Q (Err e)) → stays c Q → stays (retry k c) Q.
Proof.
  intros HQ Hc. unfold retry. generalize EOther as last, O as i. induction k as [|k IH]; intros last i; [by apply stays_ret|].
  cbn [retry_from]. eapply stays_then; [exact Hc|]. intros [a|e] Ha; [by apply stays_ret|]. case_if; [by apply stays_ret|].
  eapply stays_then; [apply stays_lift, sends_call; done|]. intros [] _; [by apply stays_ret|apply IH].
Qed.

Lemma stays_for_each {A} (f : A → svc unit) l : (∀ x, stays (f x) (λ _, True)) → stays (for_each f l) (λ _, True).
Proof. intros Hf. induction l as [|x l IH]; [by apply stays_ret|]. cbn [for_each]. by eapply stays_then; [apply Hf|]. Qed.

Lemma entry_ok_core e e' : same_core e e' → entry_ok e → entry_ok e'.
Proof. intros (Hb & _ & _ & Hm) [H1 H2]. split; [|by auto]. unfold entry_ops. by rewrite Hb. Qed.

Lemma entry_ok_new ino : entry_ok (new_entry ino).
Proof. split; [|by intros k ?%elem_of_nil]. intros k o Hk. cbn in Hk. by rewrite lookup_empty in Hk. Qed.

Lemma stays_entry ino : stays (get_entry ino) entry_ok.
Proof.
  intros s Hs. split; [done|]. simpl. destruct (entries s !! ino) as [e|] eqn:He; [by eapply so_entries|apply entry_ok_new].
Qed.

(** ** Publishing

    The flushes follow from SvcLogic: a phase is whether the replies so far were
    plausible. *)

Definition dok (st : Prop) (q : req) : Prop := st → node_req n og q.
Definition dupd (st : Prop) (q : req) : resp q → Prop :=
  match q return resp q → Prop with
  | QRange r ser => λ a, st ∧ plausible (QRange r ser) a
  | QReadTxn rs ser => λ a, st ∧ plausible (QReadTxn rs ser) a
  | _ => λ _, st
  end.

Lemma dupd_spec st q r : dupd st q r ↔ st ∧ plausible q r.
Proof. destruct q; simpl; naive_solver. Qed.

Lemma obeys_sends {A} (p : prog A) (st : Prop) Q : (st → sends p Q) → obeys dok dupd st p (λ st' a, st' → Q a).
Proof.
  revert st. induction p as [a|q k IH]; intros st Hp; [done|]. split; [intros Hst; by apply Hp|]. intros r. apply IH.
  intros [Hst Hr]%dupd_spec. by apply Hp.
Qed.

Lemma sends_obeys {A} (p : prog A) (st : Prop) (Q : A → Prop) : st → obeys dok dupd st p (λ st' a, st' → Q a) → sends p Q.
Proof.
  revert st. induction p as [a|q k IH]; intros st Hst; simpl; [auto|]. intros [Hq Hk]. split; [by apply Hq|]. intros r Hr.
  apply (IH r (dupd st q r)); [by apply dupd_spec|apply Hk].
Qed.

Definition live (s : Service) (st : Prop) : Prop := st → svc_ok s.

Lemma stays_keeps {A} (c : svc A) Q : stays c Q → triple dok dupd live c (λ a s st, live s st ∧ (st → Q a)).
Proof.
  intros Hc s st Hs. eapply obeys_mono; [|apply obeys_sends; intros Hst; apply Hc, Hs, Hst].
  intros st' x Hx. split; intros Hst; by apply Hx.
Qed.

Lemma stays_kept {A} (c : svc A) : stays c (λ _, True) → keeps dok dupd live c.
Proof. intros Hc. eapply triple_mono; [done| |by apply stays_keeps]. by intros a s st [? _]. Qed.

Lemma kept_stays {A} (c : svc A) : keeps dok dupd live c → stays c (λ _, True).
Proof.
  intros Hc s Hs. apply (sends_obeys _ True); [done|]. eapply obeys_mono; [|apply (Hc s True); by intros _].
  intros st [s' a] H Hst. split; [by apply H|done].
Qed.

Lemma stays_generation : stays guardGeneration (λ _, True).
Proof.
  intros s Hs. unfold guardGeneration. destruct (genInit s) eqn:Eg; [done|].
  assert (og = None) as Ho.
  { destruct og as [g|] eqn:E; [|done]. destruct (so_gen s Hs g E). congruence. }
  eapply (sends_then _ _ _ (λ _, True)).
  - unfold EnsureGenerationKey, txnRaw, txnRawResponse. eapply (sends_ethen _ _ _ (λ _, True)); [|intros []; [done|intros; apply sends_GetGeneration]|done].
    eapply (sends_ethen _ _ _ (λ _, True)); [|done..]. eapply sends_then; [apply sends_call|done].
    split; [by apply no_put_disciplined|]. left. intros g. by rewrite Ho.
  - intros [g|e] _; (split; [|done]); [|done]. destruct Hs as [H1 H2 H3]. split; [done| |done]. intros g'. by rewrite Ho.
Qed.

Lemma stays_commit cs os : plain os → stays (commitGuarded cs os) (λ _, True).
Proof.
  intros Hp. unfold commitGuarded. eapply stays_ethen; [apply stays_generation| |done]. intros _ _.
  apply stays_seq; [|intros; by apply stays_ret]. apply stays_retry; [done|]. apply stays_store. intros st Hst.
  by eapply sends_TxnRev, plain_lockable.
Qed.

Lemma stays_free_plans ps : stays (free_plans ps) (λ _, True).
Proof.
  intros s Hs. destruct (free_plans_run ps s) as [a ->]. split; [|done]. by apply (svc_ok_same s).
Qed.

Lemma entry_ok_reset p e : entry_ok e → entry_ok (set_buffer (Some (reset p)) e).
Proof. intros [_ H]. split; [|done]. intros k o Hk. cbn in Hk. by rewrite lookup_empty in Hk. Qed.

Lemma stays_account a b : stays (bufferAccounted a b) (λ _, True).
Proof. apply stays_modify. intros s Hs. by apply (svc_ok_same s). Qed.

Lemma stays_free_runs rs : stays (free_runs rs) (λ _, True).
Proof. apply stays_modify. intros s Hs. by apply (svc_ok_same s). Qed.

Lemma stays_core ino f : (∀ e, same_core e (f e)) → stays (alter_entry ino f) (λ _, True).
Proof. intros Hf. apply stays_alter. intros e. by apply entry_ok_core. Qed.

Lemma stays_keyed ino f : (∀ e, buffer (f e) = buffer e ∧ meta (f e) = meta e) → stays (alter_entry ino f) (λ _, True).
Proof. intros Hf. apply stays_alter. intros e. unfold entry_ok, entry_ops, meta_keys. by destruct (Hf e) as [-> ->]. Qed.

Lemma stays_discard ino : stays (discardPending ino) (λ _, True).
Proof.
  unfold discardPending. eapply stays_then; [apply stays_entry|]. intros e He. destruct (buffer e) as [p|]; [|by apply stays_ret].
  eapply stays_then; [apply stays_alter, entry_ok_reset|]. intros _ _. eapply stays_then; [apply stays_free_plans|]. intros _ _.
  eapply stays_then; [apply stays_free_runs|]. intros _ _. eapply stays_then; [apply stays_core, same_core_dropped|]. intros _ _.
  eapply stays_then; [apply stays_account|]. intros _ _. by apply stays_ret.
Qed.

Lemma stays_committed ino revs : stays (flushCommitted ino revs) (λ _, True).
Proof.
  unfold flushCommitted. eapply stays_then; [apply stays_entry|]. intros e He. destruct (buffer e) as [p|]; [|by apply stays_ret].
  eapply stays_then; [apply stays_alter, entry_ok_reset|]. intros _ _. eapply stays_then; [apply stays_free_plans|]. intros _ _.
  eapply stays_then; [apply stays_account|]. intros _ _. apply (stays_core ino (with_revs revs)), same_core_revs.
Qed.

Lemma stays_inval ino : stays (invalidatePages ino) (λ _, True).
Proof.
  intros s Hs. unfold invalidatePages. case_if; [done|]. eapply sends_then; [by apply sends_call|].
  intros [] _; (split; [|done]); by apply (svc_ok_same s).
Qed.

Lemma issues_io {A} (p : prog A) : issues is_io p → sends p (λ _, True).
Proof. intros Hp. apply sends_issues. eapply issues_mono; [|exact Hp]. by intros []. Qed.

Lemma sends_writeRun s b off : sends (writeRun s b off) (λ _, True).
Proof. apply issues_io. eapply issues_mono; [|apply io_writeRun]. by intros q [? _]. Qed.

Lemma entry_ok_same e b : (∀ p, b = Some p → ∃ p', buffer e = Some p' ∧ ops p = ops p') → entry_ok e → entry_ok (set_buffer b e).
Proof.
  intros Hb [H1 H2]. split; [|done]. intros k o. unfold entry_ops in *. simpl. destruct b as [p|]; [|by rewrite lookup_empty].
  destruct (Hb p eq_refl) as (p' & Hp & ->). rewrite Hp in H1. apply H1.
Qed.

(** The bytes first; the buffer's operations stay what they are. *)
Lemma sends_groups s gs : sends (group_buffers s gs) (λ _, True) ∧ sends (write_groups s gs) (λ _, True).
Proof.
  split; apply issues_io; (eapply issues_mono; [|first [apply io_group_buffers'|apply io_write_groups]]); by intros q [? _].
Qed.

Lemma stays_buffer ino p d : (∀ k o, ops p !! k = Some o → op_locks o = []) →
  stays (alter_entry ino (set_buffer (Some (set_data d p)))) (λ _, True).
Proof. intros Hp. apply stays_alter. intros e [_ H]. by split. Qed.

Lemma stays_flushData ino : stays (flushData ino) (λ _, True).
Proof.
  unfold flushData. eapply stays_then; [apply stays_entry|]. intros e [He _]. unfold entry_ops in He.
  destruct (buffer e) as [p|]; [|by apply stays_ret]. destruct (data p) as [|r rs]; [by apply stays_ret|].
  apply stays_seq; [by apply stays_buffer|]. intros _. apply stays_seq.
  - intros s Hs. eapply sends_then; [apply sends_groups|]. intros _ _. eapply sends_then; [apply sends_groups|]. by intros x _.
  - intros [er|]; [by apply stays_ret|]. apply stays_seq; [by apply stays_buffer|]. intros _. by apply stays_ret.
Qed.

Lemma stays_perr ino er : stays (alter_entry ino (λ e, set_buffer (set_perr er <$> buffer e) e)) (λ _, True).
Proof.
  apply stays_alter. intros e. apply entry_ok_same. intros p Hp. destruct (buffer e) as [p'|]; [|done].
  injection Hp as <-. eauto.
Qed.

Lemma stays_propose ino : stays (proposeFlushLocked ino) (okp (λ x, match x with Some (_, os) => plain os | None => True end)).
Proof.
  unfold proposeFlushLocked. eapply stays_then; [apply stays_entry|]. intros e _. case_if.
  { apply stays_seq; [apply stays_discard|]. intros _. by apply stays_ret. }
  apply stays_seq; [apply stays_flushData|]. intros [[]|er].
  - eapply stays_then; [apply stays_entry|]. intros e' [He _]. apply stays_ret. unfold entry_ops in He.
    destruct (buffer e') as [p|]; [|done]. simpl. apply Forall_forall. intros o [k Hk]%(txn_op_owned p). by eapply He.
  - apply stays_seq; [apply stays_perr|]. intros _. by apply stays_ret.
Qed.

Lemma stays_forget ino : stays (alter_entry ino (λ e, set_meta None [] (forget_key e))) (λ _, True).
Proof. apply stays_alter. intros e [H _]. split; [done|]. by intros k ?%elem_of_nil. Qed.

Lemma flush_rules : FlushRules dok dupd live (λ st _ os, st → plain os).
Proof.
  split.
  - intros st. by split.
  - intros st q r cs os Hp [Hst _]%dupd_spec. auto.
  - intros st _. constructor.
  - intros st cs os cs' os' H1 H2 Hst. apply plain_app; auto.
  - intros ino f Hf. by apply stays_kept, stays_core.
  - intros ino er. apply stays_kept, stays_perr.
  - intros ino. apply stays_kept, stays_forget.
  - intros ino. apply stays_kept, stays_discard.
  - intros ino revs. apply stays_kept, stays_committed.
  - intros ino. apply stays_kept, stays_inval.
  - intros ino. apply stays_kept, stays_store. intros st _. eapply sends_true, sends_GetInodeAndExtents.
  - intros ino m h. apply stays_kept, stays_store. intros st _. apply sends_LockHeldBy.
  - intros ino. eapply triple_mono; [done| |apply stays_keeps, stays_propose]. intros r s st [Hs Hr]. split; [done|].
    intros cs os -> Hst. by apply Hr.
  - intros cs os s st [Hs Hp]. eapply obeys_mono; [|apply obeys_sends; intros Hst; apply (stays_commit cs os); auto].
    intros st' x Hx Hst. by apply Hx.
Qed.

Lemma stays_flushLocked ino : stays (flushLocked ino) (λ _, True).
Proof. apply kept_stays, (keeps_flushLocked _ _ _ _ flush_rules). Qed.
Lemma stays_keyLost ino : stays (keyLostLocked ino) (λ _, True).
Proof. apply kept_stays, (keeps_keyLost _ _ _ _ flush_rules). Qed.
Lemma stays_tryLock ino : stays (tryLockExclusive ino) (λ _, True).
Proof. apply kept_stays, (keeps_tryLock _ _ _ _ flush_rules). Qed.
Lemma stays_FlushAll : stays FlushAll (λ _, True).
Proof. apply kept_stays, (keeps_FlushAll _ _ _ _ flush_rules). Qed.
Lemma stays_flushExpired : stays flushExpired (λ _, True).
Proof. apply kept_stays, (keeps_flushExpired _ _ _ _ flush_rules). Qed.
End daemon.

#[export] Hint Resolve stays_ret stays_entry stays_generation stays_commit stays_free_plans stays_account stays_free_runs
  stays_discard stays_committed stays_inval stays_flushData stays_perr stays_propose stays_forget stays_flushLocked stays_keyLost
  stays_tryLock stays_FlushAll stays_flushExpired stays_gets : stays.
#[export] Hint Extern 1 (stays _ _ (with_store _) _) => apply stays_store; intros; solve [eauto with node] : stays.
#[export] Hint Extern 1 (stays _ _ (lift _) _) => apply stays_lift; solve [eauto with node] : stays.
#[export] Hint Extern 1 (stays _ _ (alter_entry _ _) _) => apply stays_keyed; intros; split; reflexivity : stays.

Ltac stay_step :=
  match goal with
  | |- ∀ _, _ => intros
  | |- stays _ _ (sret _) _ => apply stays_ret; try done
  | |- stays _ _ (sbind _ _) _ =>
    first [ eapply stays_then; [solve [eauto with stays]|intros ? ?; cbn [okp] in *] | apply stays_seq; [|intros ?] ]
  | |- stays _ _ (sebind _ _) _ =>
    first [ eapply stays_ethen; [solve [eauto with stays]|intros ? ?; cbn [okp] in *|try done]
          | eapply (stays_ethen _ _ _ _ (λ _, True)); [|intros ? _|try done] ]
  | |- stays _ _ (retry _ _) _ => apply stays_retry; [done|]
  | |- stays _ _ (retryEtcd _) _ => apply stays_retry; [done|]
  | |- stays _ _ (for_each _ _) _ => apply stays_for_each; intros
  | |- stays _ _ (if ?b then _ else _) _ => destruct b
  | |- stays _ _ (match ?x with _ => _ end) _ => destruct x
  end.
Ltac stay_auto := repeat (first [ done | solve [eauto 6 with stays] | stay_step ]).

(** ** The lock cache *)

Section cache.
Context (n : bytes) (og : option Z).
Notation stays := (stays n og).
Notation ok c := (stays c (λ _, True)).

Lemma stays_lock ino : ok (lockExclusive ino) ∧ ok (unlockExclusive ino).
Proof. split; apply stays_core; by repeat split. Qed.

Lemma stays_forgetKey ino : ok (forgetKeyLocked ino).
Proof. unfold forgetKeyLocked. stay_auto. Qed.

Lemma stays_deleteKeys owed : ok (deleteKeys owed).
Proof. unfold deleteKeys. stay_auto. Qed.

Lemma stays_releaseKey ino : ok (releaseKeyLocked ino).
Proof. pose proof stays_forgetKey. pose proof stays_deleteKeys. unfold releaseKeyLocked. stay_auto. Qed.

Lemma stays_prepare ino : ok (prepareDropLocked ino).
Proof. unfold prepareDropLocked. stay_auto. Qed.

Lemma stays_dropCachedLocks inos : ok (dropCachedLocks inos).
Proof.
  pose proof stays_deleteKeys. unfold dropCachedLocks. apply stays_seq.
  { induction inos as [|ino inos IH]; cbn [prepare_all]; [by apply stays_ret|]. pose proof stays_prepare. stay_auto. }
  intros ready. apply stays_seq; [|stay_auto].
  induction ready as [|ino ready IH]; cbn [forget_all]; [by apply stays_ret|]. pose proof stays_forgetKey. stay_auto.
Qed.

Lemma stays_dropCachedLock ino : ok (dropCachedLock ino).
Proof. pose proof stays_dropCachedLocks. unfold dropCachedLock. stay_auto. Qed.

Lemma stays_yield ino : ok (yieldCachedLock ino).
Proof.
  intros s Hs. unfold yieldCachedLock. destruct (entries s !! ino); [|done]. apply stays_at; [|done].
  pose proof stays_lock as Hl. pose proof stays_dropCachedLock. apply stays_seq; [apply Hl|]. intros _.
  apply stays_seq; [done|]. intros r. apply stays_seq; [apply Hl|]. stay_auto.
Qed.

Lemma stays_forget_entry ino : ok (forget_entry ino).
Proof.
  apply stays_modify. intros s Hs. apply svc_ok_entries; [done|]. intros i e [_ He]%lookup_delete_Some. by eapply so_entries.
Qed.

Lemma stays_yieldQuiet ino : ok (yieldQuietCachedLock ino).
Proof.
  intros s Hs. unfold yieldQuietCachedLock. destruct (entries s !! ino) as [e|]; [|done]. case_if; [done|]. apply stays_at; [|done].
  pose proof stays_lock as Hl. apply stays_seq; [apply Hl|]. intros _. apply stays_seq; [apply stays_dropCachedLock|]. intros r.
  apply stays_seq; [apply Hl|]. intros _. pose proof stays_forget_entry. stay_auto.
Qed.

Lemma stays_recall ino : ok (recallLock ino).
Proof.
  intros s Hs. unfold recallLock. destruct (entries s !! ino); [|done]. apply stays_at; [|done].
  pose proof stays_yield. unfold handoverHold. stay_auto.
Qed.

Lemma stays_dropLease l : ok (dropCachesForLease l).
Proof.
  unfold dropCachesForLease. eapply stays_then; [apply stays_gets|]. intros inos _.
  induction inos as [|ino inos IH]; cbn [drop_lease]; stay_auto.
Qed.

Lemma stays_evict : ok evictLocked.
Proof.
  unfold evictLocked, claimVictimsLocked. eapply stays_then; [apply stays_gets|]. intros s0 _. case_if; [by apply stays_ret|].
  apply stays_seq.
  { eapply stays_then; [apply stays_gets|]. intros cands _. generalize lockEvictBatch as k.
    induction cands as [|ino cands IH]; intros [|k]; cbn [claim_loop_locks]; try by apply stays_ret. stay_auto. }
  intros victims. pose proof stays_dropCachedLocks. pose proof (λ ino, proj2 (stays_lock ino)). pose proof stays_forget_entry. stay_auto.
Qed.

Lemma stays_entryFor ino : ok (entryFor ino).
Proof.
  unfold entryFor. eapply stays_then; [apply stays_gets|]. intros s0 _. apply stays_seq; [|stay_auto].
  destruct (entries s0 !! ino); [by apply stays_ret|]. apply stays_seq; [apply stays_evict|]. intros _. apply stays_modify.
  intros s Hs. destruct (entries s !! ino) eqn:He; [done|]. apply svc_ok_entries; [done|].
  intros i e [[<- <-]|[_ Hi]]%lookup_insert_Some; [apply entry_ok_new|by eapply so_entries].
Qed.

Lemma stays_lockLocal ino m : ok (lockLocal ino m).
Proof.
  apply stays_retry; [done|]. intros s Hs. unfold try_local. destruct (entries s !! ino) as [e|] eqn:He; [|done]. case_if.
  - apply stays_at; [|done]. stay_auto.
  - case_if; [done|]. split; [|done]. apply svc_ok_entries; [done|].
    intros i e' [[<- <-]|[_ Hi]]%lookup_insert_Some; [|by eapply so_entries]. eapply entry_ok_core; [|by eapply so_entries]. by repeat split.
Qed.

Lemma stays_unlockLocal ino m : ok (unlockLocal ino m).
Proof. unfold unlockLocal, unlockExclusive. stay_auto. Qed.

Lemma stays_lstate {A} (p : Service → prog (LockState * A)) :
  (∀ s, node_store n og (store s) → sends (node_req n og) (p s) (λ _, True)) →
  stays (λ s, x ⇐ p s; Ret (set_lstate x.1 s, x.2)) (λ _, True).
Proof.
  intros Hp s Hs. eapply sends_then; [by apply Hp, store_ok|]. intros x _. split; [|done]. by apply (svc_ok_same n og s).
Qed.

Lemma stays_acquire_loop ino m fuel i attempted announced last : ok (acquire_loop ino m fuel i attempted announced last).
Proof.
  assert (∀ l, ok (adoptOwnLock ino m l)) as Ha.
  { induction l as [|h l IH]; cbn [adoptOwnLock]; stay_auto. }
  assert (ok (acquire_lock ino m)) as Hq.
  { apply (stays_lstate (λ s, AcquireLock (store s) (lstate s) ino m inodeLockTTL)). intros s Hs. by apply sends_AcquireLock. }
  assert (ok (announce_want ino)) as Hw.
  { intros s Hs. eapply sends_then; [by apply (sends_want n og (store s)), store_ok|]. intros x _. split; [|done]. by apply (svc_ok_same n og s). }
  revert i attempted announced last. induction fuel as [|fuel IH]; intros; cbn [acquire_loop]; [by apply stays_ret|].
  apply stays_seq; [apply Ha|]. intros [h|]; [by apply stays_ret|]. apply stays_seq; [apply Hq|]. intros [h [e|]]; [|by apply stays_ret].
  cbn [fst snd]. apply stays_seq; [destruct e; stay_auto|]. intros an. case_if; [by apply stays_ret|]. stay_auto.
Qed.

Lemma stays_ensure ino m : ok (ensureLockKey ino m).
Proof.
  unfold ensureLockKey, check_session, acquireLockKey. apply stays_seq.
  { eapply stays_then; [apply stays_entry|]. intros e _. case_if; [|by apply stays_ret]. apply stays_seq; [|intros l; case_if; stay_auto].
    apply (stays_with n og (λ s, LockSessionLease (lstate s))). intros s. unfold LockSessionLease. destruct (session (lstate s)); [|done].
    by eapply sends_then; [apply sends_call|]. }
  intros _. eapply stays_then; [apply stays_entry|]. intros e _. case_if; [by apply stays_ret|].
  eapply (stays_ethen _ _ _ _ (λ _, True)); [pose proof stays_releaseKey; stay_auto| |done]. intros _ _.
  eapply (stays_ethen _ _ _ _ (λ _, True)); [| |done].
  - apply stays_seq; [apply stays_acquire_loop|]. intros r. apply stays_seq; [|intros; by apply stays_ret].
    case_if; [|by apply stays_ret]. apply stays_store. intros st Hst. by apply (sends_want n og st Hst (mkLockState None 0)).
  - stay_auto.
Qed.

Lemma stays_lockInode ino m : ok (lockInode ino m).
Proof.
  unfold lockInode. generalize entryRetries as fuel. intros fuel. pose proof stays_entryFor. pose proof stays_lockLocal.
  pose proof stays_ensure. pose proof stays_unlockLocal. induction fuel as [|fuel IH]; cbn [lock_loop]; [by apply stays_ret|]. stay_auto.
Qed.

Lemma stays_release ino m b : ok (release ino m b).
Proof.
  unfold release. apply stays_seq; [|intros _; apply stays_unlockLocal]. case_if; [|by apply stays_ret]. apply stays_core, same_core_dropped.
Qed.

Lemma stays_flushInode ino : ok (flushInode ino).
Proof.
  intros s Hs. unfold flushInode. case_if; [done|]. apply stays_at; [|done]. pose proof stays_lockInode. pose proof stays_release.
  unfold flushEntry. stay_auto.
Qed.
End cache.
#[export] Hint Resolve stays_releaseKey stays_yield stays_yieldQuiet stays_recall stays_dropLease stays_lockInode stays_release
  stays_flushInode stays_unlockLocal stays_entryFor : stays.

(** ** What a write proposes *)

Definition w_ok (w : writeOp) : Prop := extents_ok (w_existing w) ∧ extents_ok (w_deferred w).

Lemma put_plain k v : is_lock_key k = false → op_locks (put k v) = [].
Proof. intros Hk. unfold op_locks, put. cbn [op_puts]. by rewrite filter_cons_False by by rewrite Hk. Qed.

Lemma planReclaim_plain s old a b next p next' :
  is_lock_key (Key old) = false → planReclaim s old a b next = (Some p, next') → plain (p_ops p).
Proof.
  intros Hk. unfold planReclaim. case_if; [done|]. destruct (SplitAround old a b) as [head tail], (CoveredBlocks old head tail) as [fo fl].
  pose proof (put_plain (Key old)) as Hp.
  destruct head as [h|], tail as [t|]; try case_if; intros [= <- _]; repeat constructor; auto.
Qed.

Lemma propose_runs_plain w nd rs pos next end_ : plain (propose_runs w nd rs pos next end_).1.1.2.
Proof.
  revert pos next end_. induction rs as [|r rs IH]; intros pos next end_; [constructor|]. cbn [propose_runs].
  match goal with |- context [propose_runs w nd rs ?a ?b ?c] => specialize (IH a b c); destruct (propose_runs w nd rs a b c) as [[[cs os] nx] en] end.
  by constructor.
Qed.

Lemma propose_reclaims_plain s off end_ exts cs os ps def next :
  extents_ok exts → plain os → extents_ok def →
  plain (propose_reclaims s off end_ exts cs os ps def next).1.1.1.2 ∧
  extents_ok (propose_reclaims s off end_ exts cs os ps def next).1.2.
Proof.
  revert cs os ps def next. induction exts as [|old exts IH]; intros cs os ps def next He Ho Hd; [done|]. cbn [propose_reclaims].
  assert (extents_ok exts) as He' by (intros e ?; apply He; by right).
  case_if; [by apply IH|]. case_if.
  - apply IH; [done..|]. intros e [?| ->%list_elem_of_singleton]%elem_of_app; [by apply Hd|apply He; left].
  - destruct (planReclaim s old off end_ next) as [[p|] nx] eqn:Ep; [|by apply IH].
    apply IH; [done| |done]. apply plain_app; [done|]. eapply planReclaim_plain; [apply He; left|exact Ep].
Qed.

Lemma proposal_ok s w w' cs os : w_ok w → proposal s w = (w', cs, os) → w_ok w' ∧ plain os.
Proof.
  intros [He _]. unfold proposal. pose proof (propose_runs_plain w (node s) (w_runs w) 0 (w_chunk w) (w_offset w)) as Hr.
  destruct (propose_runs w (node s) (w_runs w) 0 (w_chunk w) (w_offset w)) as [[[cs0 os0] nx] en]. cbn [fst snd] in Hr.
  set (os1 := if _ || _ then _ else _).
  assert (plain os1) as H1 by (unfold os1; case_if; eauto 7 with node).
  pose proof (propose_reclaims_plain s (w_offset w) en (w_existing w) cs0 os1 [] [] nx He H1 ltac:(by intros ? ?%elem_of_nil)) as [Hp Hd].
  destruct (propose_reclaims s (w_offset w) en (w_existing w) cs0 os1 [] [] nx) as [[[[cs1 os2] ps] def] nx'].
  intros [= <- <- <-]. by split.
Qed.

(** The cache after a replay: extents it had, and extents under the inode's
    prefix. *)
Lemma replay_puts ino os r r' : extents_ok (t_puts r) → replay_ops ino os r = Some r' → extents_ok (t_puts r').
Proof.
  revert r. induction os as [|o os IH]; intros r Hr; simpl; [by intros [= <-]|]. destruct o as [k v l|k p].
  - case_bool_decide; [destruct (DecodeInode v); [by apply IH|done]|]. destruct (has_prefix (ExtentPrefix ino) k) eqn:Hk; [|done]. cbn [negb].
    destruct (DecodeExtent k v) as [e|] eqn:He; [|done]. apply IH. cbn [t_puts]. intros x [?| ->%list_elem_of_singleton]%elem_of_app; [by apply Hr|].
    rewrite (decoded_under _ _ _ He). by apply (extent_prefix_plain ino).
  - case_if; [done|]. destruct (ParseExtentKey k) as [[]|]; [by apply IH|done].
Qed.

Lemma removed_ok c l : extents_ok l → extents_ok (remove_chunk c l).
Proof.
  intros Hl e He. apply Hl. revert He. clear Hl. induction l as [|x l IH]; simpl; [done|]. case_if; [by right|].
  intros [->|?]%elem_of_cons; [left|right; auto].
Qed.

Lemma replayed_ok r exts rev : extents_ok exts → extents_ok (t_puts r) → extents_ok (m_extents (apply_replay r exts rev)).
Proof.
  intros He. unfold apply_replay. cbn [m_extents].
  assert (extents_ok (foldl (flip remove_chunk) exts (t_dels r))) as H1.
  { revert exts He. induction (t_dels r) as [|c l IH]; intros exts He; [done|]. by apply IH, removed_ok. }
  revert H1. generalize (foldl (flip remove_chunk) exts (t_dels r)). induction (t_puts r) as [|p l IH]; intros l0 H0 Hp; [done|].
  simpl. apply IH; [|intros e ?; apply Hp; by right]. unfold apply_put, InsertExtent. intros e He0.
  set (kept := remove_chunk (Chunk p) l0) in *. set (i := sort_search _ _ _ _) in *.
  assert (e = set_ModRevision rev p ∨ e ∈ take i kept ++ drop i kept) as [->|Hx] by set_solver.
  - simpl. apply Hp. left.
  - rewrite take_drop in Hx. by apply (removed_ok (Chunk p) l0).
Qed.

Lemma added_plain p now cs os pl b : (∀ k o, ops p !! k = Some o → op_locks o = []) → plain os →
  ∀ k o, ops (add p now cs os pl b) !! k = Some o → op_locks o = [].
Proof.
  intros Hp Ho. unfold add. set (p0 := if made p then p else _).
  assert (∀ k o, ops p0 !! k = Some o → op_locks o = []) as H0.
  { intros k o. unfold p0. destruct (made p); [apply Hp|]. cbn [ops]. by rewrite lookup_empty. }
  assert (∀ l, plain os → (∀ k o, (ops p0, l).1 !! k = Some o → op_locks o = []) →
    ∀ k o, (add_ops (ops p0, l) os).1 !! k = Some o → op_locks o = []) as Ha.
  { clear Ho Hp. generalize (ops p0). clear. unfold add_ops. induction os as [|x os IH]; intros m l Ho Hm; [done|].
    inversion_clear Ho as [|? ? Hx Hos]. simpl. apply IH; [done|]. cbn [fst]. intros k o [[_ <-]|[_ Hk]]%lookup_insert_Some; [done|by eapply Hm]. }
  specialize (Ha (order p0) Ho H0). destruct (add_ops (ops p0, order p0) os) as [m ord]. exact Ha.
Qed.

(** ** The data path *)

Section data.
Context (n : bytes) (og : option Z).
Notation stays := (stays n og).
Notation ok c := (stays c (λ _, True)).

Lemma sends_device s k off : sends (node_req n og) (readInto s k off) (λ _, True).
Proof.
  apply issues_io. unfold readInto, directSafe. destruct (dev s) as [d|]; [|done].
  apply issues_bind; [repeat case_match; try done; by split|]. intros []; [apply io_ReadAt|]. apply issues_bind; [apply io_ioBuffer|].
  intros x. apply issues_ebind; [apply io_ReadAt|done].
Qed.

Lemma stays_allocate w : w_ok w → stays (allocate w) (okp w_ok).
Proof.
  intros Hw. unfold allocate. eapply (stays_ethen _ _ _ _ (λ _, True)); [|intros rs _; by apply stays_ret|done].
  assert (∀ size, ok (allocate_in size)) as Ha.
  { intros size s Hs. unfold allocate_in. destruct (Allocate (alloc s) size) as [a r]. split; [|done]. by apply (svc_ok_same n og s). }
  assert (ok acquire_arena) as Hq.
  { intros s Hs. eapply sends_then; [by apply sends_AcquireArena, store_ok|]. intros x _. split; [|done]. by apply (svc_ok_same n og s). }
  assert (ok refreshDeviceSize) as Hr.
  { intros s Hs. unfold refreshDeviceSize. destruct (dev s) as [d|]; [|done]. eapply (sends_then _ _ _ (λ _, True)).
    - unfold RefreshSize. by eapply sends_then; [apply sends_call|].
    - intros [d' [size|e]] _; cbn [fst snd]; [case_if|]; (split; [|done]); by apply (svc_ok_same n og s). }
  unfold allocateBlocks. eapply stays_then; [apply stays_gets|]. intros k _. apply stays_seq; [case_if; [apply Ha|by apply stays_ret]|].
  intros [rs|]; [by apply stays_ret|]. apply stays_seq; [apply Hq|]. intros r0. apply stays_seq.
  { destruct r0 as [|[]]; try (by apply stays_ret). apply stays_seq; [apply Hr|]. intros []; [apply Hq|by apply stays_ret]. }
  intros r1. stay_auto.
Qed.

Lemma stays_writeThrough w : w_ok w → stays (writeThrough w) (okp w_ok).
Proof.
  intros Hw s Hs. unfold writeThrough. case_if; [done|].
  assert (∀ k b, sends (node_req n og) (directSafe s k b) (λ _, True)) as Hsafe.
  { intros k b. apply issues_io. unfold directSafe. repeat case_match; try done. }
  eapply (sends_then _ _ _ (λ _, True)); [case_if; [done|apply Hsafe]|]. intros safe _.
  eapply (sends_then _ _ _ (λ _, True)); [destruct safe; [done|]|].
  { eapply sends_then; [apply issues_io, io_ioBuffer|]. intros x _. apply Hsafe. }
  intros [] _; [|done]. cbn [negb]. eapply (sends_then _ _ _ (λ _, True)).
  - generalize (padded_data w) as b. induction (w_runs w) as [|r rs IH]; intros b; [done|]. cbn [write_runs].
    eapply sends_ethen; [apply sends_writeRun|intros; apply IH|done].
  - by intros [[]|e] _.
Qed.

Lemma stays_reclaim old a b next : is_lock_key (Key old) = false → ok (reclaimCovered old a b next).
Proof.
  intros Hk s Hs. unfold reclaimCovered. destruct (planReclaim s old a b next) as [[p|] next'] eqn:Ep; [|done].
  pose proof (planReclaim_plain _ _ _ _ _ _ _ Hk Ep) as Hp. apply stays_at; [|done].
  assert (ok (freeReclaimed p)) as Hf.
  { unfold freeReclaimed. case_if; [|by apply stays_ret]. apply stays_modify. intros s' ?. by apply (svc_ok_same n og s'). }
  apply stays_seq; [apply stays_store; intros st Hst; eauto with node|]. intros [[]|e]; stay_auto.
Qed.

Lemma stays_reclaim_deferred l a b next : extents_ok l → ok (reclaim_deferred l a b next).
Proof.
  revert next. induction l as [|e l IH]; intros next Hl; cbn [reclaim_deferred]; [by apply stays_ret|].
  apply stays_seq; [apply stays_reclaim, Hl; left|]. intros r. apply IH. intros x ?. apply Hl. by right.
Qed.

Lemma stays_reclaim_each f l a b next : extents_ok l → ok (reclaim_each f l a b next).
Proof.
  revert next. induction l as [|e l IH]; intros next Hl; cbn [reclaim_each]; [by apply stays_ret|].
  assert (extents_ok l) as Hl' by (intros x ?; apply Hl; by right).
  case_if; [|by apply IH]. apply stays_seq; [apply stays_reclaim, Hl; left|]. intros [next' [[]|er]]; [by apply IH|by apply stays_ret].
Qed.

Lemma stays_truncate ino size : ok (truncate ino size).
Proof.
  apply stays_retry; [done|]. unfold truncateOnce. eapply stays_ethen; [apply stays_store; intros; apply sends_GetExtents| |done].
  intros exts He. by apply stays_reclaim_each.
Qed.

Lemma stays_truncateToZero ino : ok (truncateToZero ino).
Proof. pose proof stays_truncate. unfold truncateToZero. stay_auto. Qed.

Lemma stays_punch ino a b : ok (punchHole ino a b).
Proof.
  apply stays_retry; [done|]. unfold punch_once. eapply stays_ethen; [apply stays_store; intros; apply sends_GetExtents| |done].
  intros exts He. by apply stays_reclaim_each.
Qed.

Lemma stays_growTo ino size : ok (growTo ino size).
Proof. unfold growTo. stay_auto. Qed.

Lemma stays_held_meta ino : stays (held_meta ino) (okp (λ m, extents_ok (m_extents m))).
Proof.
  unfold held_meta. eapply stays_then; [apply stays_entry|]. intros e [_ He]. unfold cachedMeta.
  destruct (if _ || _ then None else meta e) as [m|] eqn:Em.
  { apply stays_ret. simpl. destruct (negb (held e) || _) in Em; [done|]. intros x Hx. apply He. unfold meta_keys. rewrite Em.
    by apply list_elem_of_fmap_2. }
  case_if; [by apply stays_ret|].
  eapply stays_ethen; [apply stays_retry; [|apply stays_store; intros; apply sends_GetInodeAndExtents]; done| |done].
  intros x Hx. assert (extents_ok (m_extents match x with Some (rec, l) => mkMeta rec l | None => mkMeta None [] end)) as Hm.
  { destruct x as [[rec l]|]; [done|]. by intros ? ?%elem_of_nil. }
  apply stays_seq; [|intros _; by apply stays_ret]. apply stays_alter. intros e' [H1 H2]. unfold setMeta. destruct (held e'); [|done].
  split; [done|]. intros k Hk. unfold meta_keys in Hk. simpl in Hk. apply list_elem_of_fmap in Hk as (y & -> & Hy). by apply Hm.
Qed.

Lemma stays_readExtents w : w_ok w → stays (readExtents w) (okp w_ok).
Proof.
  intros [_ Hd]. unfold readExtents. eapply stays_ethen; [apply stays_store; intros; apply sends_GetExtents| |done].
  intros exts He. apply stays_ret. unfold countFrom. by destruct (count_from exts).
Qed.

(** Joining the buffer. *)
Lemma stays_bufferWrite ino r cs os pl b d rs : plain os → extents_ok (t_puts r) → ok (bufferWrite ino r cs os pl b d rs).
Proof.
  intros Ho Hr. unfold bufferWrite. apply stays_seq.
  { apply stays_alter. intros e He. destruct (buffer e) eqn:Eb; [done|]. destruct He as [_ H2]. split; [|done].
    intros k o Hk. cbn in Hk. by rewrite lookup_empty in Hk. }
  intros _. eapply stays_then; [apply stays_entry|]. intros e [He _]. eapply stays_then; [apply stays_gets|]. intros op _.
  case_if; [stay_auto|]. eapply stays_then; [apply stays_gets|]. intros total _. apply stays_seq.
  { case_if; [|by apply stays_ret]. unfold drainBuffers. eapply stays_then; [apply stays_gets|]. intros inos _.
    induction (filter (λ i, i ≠ ino) inos) as [|i l IH]; cbn [drain_loop]; [by apply stays_ret|].
    pose proof (λ i, proj2 (stays_lock n og i)). unfold flushEntry. stay_auto. }
  intros _. apply stays_seq; [case_if; stay_auto|]. intros now.
  apply stays_seq; [apply stays_account|]. intros _. apply stays_seq; [|intros _; by apply stays_ret]. apply stays_alter.
  intros e' [H1 H2]. set (p' := add _ _ _ _ _ _).
  assert (entry_ok (set_buffer (Some (add_runs d rs p')) e')) as Hb.
  { split; [|done]. unfold entry_ops. cbn [buffer set_buffer add_runs ops]. apply added_plain; [|done].
    unfold entry_ops in He. destruct (buffer e) as [p|]; [apply He|]. intros k o Hk. cbn in Hk. by rewrite lookup_empty in Hk. }
  cbn [meta set_buffer]. destruct (meta e') as [m|] eqn:Em; [|done]. case_if; [|done]. destruct Hb as [Hb _]. split; [exact Hb|].
  intros k Hk. unfold meta_keys in Hk. cbn [meta set_meta] in Hk. apply list_elem_of_fmap in Hk as (y & -> & Hy). revert Hy. apply replayed_ok; [|done].
  intros z Hz. apply H2. unfold meta_keys. rewrite Em. by apply list_elem_of_fmap_2.
Qed.
End data.
#[export] Hint Resolve stays_allocate stays_writeThrough stays_truncate stays_truncateToZero stays_punch stays_growTo stays_held_meta
  stays_readExtents : stays.

(** ** The data handlers *)

Section data_handlers.
Context (n : bytes) (og : option Z).
Notation stays := (stays n og).
Notation ok c := (stays c (λ _, True)).

Lemma stays_locked {A} ino m (busy : A) body : ok body → ok (locked ino m busy body).
Proof. intros Hb. unfold locked. stay_auto. Qed.

Lemma stays_stage ino w : w_ok w → stays (stage_payload ino w) (okp (λ x, w_ok x.1.1)).
Proof.
  intros Hw. unfold stage_payload. eapply stays_then; [apply stays_gets|]. intros o _. apply stays_seq.
  { unfold streakContinues. stay_auto. }
  intros []; [by apply stays_ret|]. eapply stays_ethen; [by apply stays_writeThrough|intros w' Hw'; by apply stays_ret|done].
Qed.

Lemma replan_ok s rec exts w w' cs os : extents_ok exts → w_ok w → replan s rec exts w = (w', cs, os) → w_ok w' ∧ plain os.
Proof.
  intros He [_ Hd]. apply proposal_ok. unfold countFrom. destruct (count_from exts). by split.
Qed.

Lemma stays_buffer_loop fuel ino w cs os sync : w_ok w → plain os → stays (buffer_loop fuel ino w cs os sync) (λ x, w_ok x.2).
Proof.
  revert w cs os. induction fuel as [|fuel IH]; intros w cs os Hw Ho; cbn [buffer_loop]; [by apply stays_ret|].
  case_if; [by apply stays_ret|]. destruct (replayTxn ino (w_rec w) os) as [r|] eqn:Er; [|by apply stays_ret].
  assert (extents_ok (t_puts r)) as Hr by (eapply replay_puts; [|exact Er]; by intros ? ?%elem_of_nil).
  eapply stays_then; [by apply stays_stage|]. intros [[[w1 d] k]|er] Hw1; [|eapply stays_seq; [apply stays_free_runs|intros _; by apply stays_ret]].
  cbn [okp fst] in Hw1. apply stays_seq; [by apply stays_bufferWrite|].
  assert (stays (_ ⇠ freeRuns w1; sret (Some (int32Resp errIO, false), w1)) (λ x : option (bytes * bool) * writeOp, w_ok x.2)) as Hfail.
  { eapply stays_seq; [apply stays_free_runs|intros _; by apply stays_ret]. }
  intros [[]|er]; [by apply stays_ret|]. destruct er; try exact Hfail.
  eapply stays_then; [apply stays_held_meta|]. intros [[[rec|] exts]|er] Hm; [|exact Hfail..]. cbn [okp m_extents] in Hm.
  eapply stays_then; [apply stays_gets|]. intros s _. destruct (replan s rec exts w1) as [[w2 cs2] os2] eqn:Ep.
  destruct (replan_ok _ _ _ _ _ _ _ Hm Hw1 Ep) as [Hw2 Ho2]. by apply IH.
Qed.

Lemma stays_plan_commit ino w : w_ok w → stays (plan_commit ino w) (okp (λ x, w_ok x.1.1 ∧ plain x.2)).
Proof.
  intros Hw. assert (∀ s w, w_ok w → w_ok (proposal s w).1.1 ∧ plain (proposal s w).2) as Hp.
  { intros s w' Hw'. destruct (proposal s w') as [[w1 cs] os] eqn:Ep. by eapply proposal_ok in Ep. }
  unfold plan_commit. eapply stays_then; [apply stays_gets|]. intros s _. case_if; [|apply stays_ret; by apply Hp].
  eapply (stays_ethen _ _ _ _ (λ _, True)); [apply stays_flushLocked| |done]. intros _ _.
  eapply stays_ethen; [by apply stays_readExtents| |done]. intros w' Hw'. eapply stays_then; [apply stays_gets|]. intros s' _.
  apply stays_ret. by apply Hp.
Qed.

Lemma stays_commit_or_replan w cs os : w_ok w → plain os → stays (commit_or_replan w cs os) (λ x, w_ok x.1.1 ∧ plain x.1.2).
Proof.
  intros Hw Ho. unfold commit_or_replan. apply stays_seq; [by apply stays_commit|]. intros [c|e]; [|by apply stays_ret].
  case_if; [|by apply stays_ret]. eapply stays_then; [by apply stays_readExtents|]. intros [w'|e] Hw'; [|by apply stays_ret].
  eapply stays_then; [apply stays_gets|]. intros s _. destruct (proposal s w') as [[w2 cs2] os2] eqn:Ep.
  destruct (proposal_ok _ _ _ _ _ Hw' Ep). apply stays_seq; [by apply stays_commit|]. intros c'. by apply stays_ret.
Qed.

Lemma stays_publish ino w os rev : w_ok w → ok (publish_commit ino w os rev).
Proof.
  intros [He _]. unfold publish_commit. case_if; [|by apply stays_ret]. destruct (replayTxn ino (w_rec w) os) as [r|] eqn:Er; [|by apply stays_ret].
  assert (extents_ok (t_puts r)) as Hr by (eapply replay_puts; [|exact Er]; by intros ? ?%elem_of_nil).
  apply stays_seq; [|intros _; by apply stays_ret]. apply stays_alter. intros e [H1 H2]. unfold setMeta. destruct (held e); [|done]. split; [done|].
  intros k Hk. unfold meta_keys in Hk. cbn [meta set_meta] in Hk. apply list_elem_of_fmap in Hk as (y & -> & Hy). revert Hy. by apply replayed_ok.
Qed.

Lemma stays_commitWriteOp ino w : w_ok w → ok (commitWriteOp ino w).
Proof.
  intros Hw. assert (∀ w (x : bytes * bool), ok (_ ⇠ freeRuns w; sret x)) as Hfail.
  { intros w' x. apply stays_seq; [apply stays_free_runs|intros _; by apply stays_ret]. }
  unfold commitWriteOp. eapply stays_then; [by apply stays_plan_commit|]. intros [[[w1 cs] os]|e] Hp; [|apply Hfail]. destruct Hp as [Hw1 Ho].
  eapply stays_then; [by apply stays_writeThrough|]. intros [w2|e] Hw2; [|apply Hfail].
  eapply stays_then; [by apply stays_commit_or_replan|]. intros [[w3 os3] c] [Hw3 Ho3]. destruct c as [[[] [] rev]|e]; try apply Hfail.
  apply stays_seq; [by apply stays_publish|]. intros pub. apply stays_seq; [apply stays_free_plans|]. intros _.
  apply stays_seq; [apply stays_reclaim_deferred, Hw3|]. intros _. by apply stays_ret.
Qed.

Lemma stays_write_locked ino off d uid flags : ok (write_locked ino off d uid flags).
Proof.
  unfold write_locked. eapply stays_then; [apply stays_gets|]. intros s _. apply stays_seq; [case_if; [apply stays_flushLocked|by apply stays_ret]|].
  intros [[]|e]; [|by apply stays_ret]. eapply stays_then; [apply stays_held_meta|]. intros [[[rec|] exts]|e] Hm; [|by apply stays_ret..].
  apply stays_seq; [unfold writeGeneration; stay_auto|]. intros gen. eapply stays_then; [apply stays_allocate|].
  { unfold newWriteOp, countFrom. destruct (count_from exts). split; [exact Hm|]. by intros ? ?%elem_of_nil. }
  intros [w|e] Hw; [|by apply stays_ret]. eapply stays_then; [apply stays_gets|]. intros s' _.
  destruct (proposal s' w) as [[w1 cs] os] eqn:Ep. destruct (proposal_ok _ _ _ _ _ Hw Ep) as [Hw1 Ho].
  eapply stays_then; [by apply stays_buffer_loop|]. intros [[x|] w2] Hw2; [by apply stays_ret|by apply stays_commitWriteOp].
Qed.

Lemma stays_handleWrite p : ok (handleWrite p).
Proof.
  assert (∀ ino off d uid flags, ok (handleWriteBlock ino off d uid flags)) as Hb.
  { intros. unfold handleWriteBlock, IsFenced. case_if; [by apply stays_ret|]. eapply stays_then; [apply stays_gets|].
    intros [] _; [by apply stays_ret|]. apply stays_locked, stays_write_locked. }
  assert (∀ ino off k uid, ok (write_metadata ino off k uid)) as Hm by (intros; unfold write_metadata; stay_auto).
  unfold handleWrite. repeat case_match; [by apply stays_ret|]. eapply stays_then; [apply stays_gets|]. intros s _. by destruct (dev s).
Qed.

Lemma stays_handleRead p : ok (handleRead p).
Proof.
  unfold handleRead. repeat case_match; try by apply stays_ret. eapply stays_then; [apply stays_gets|]. intros s _. case_if; [by apply stays_ret|].
  apply stays_locked. unfold read_locked. eapply stays_then; [apply stays_gets|]. intros s' _.
  apply stays_seq; [case_if; [apply stays_lift, issues_io, io_FlushDevice|by apply stays_ret]|]. intros _.
  eapply stays_then; [apply stays_held_meta|]. intros [[[rec|] exts]|e] _; [|by apply stays_ret..].
  eapply stays_then; [apply stays_entry|]. intros e _. apply stays_seq; [|intros; by apply stays_ret]. apply stays_with. intros s0.
  unfold read_data. case_if; [done|]. eapply sends_then; [apply issues_io, io_ioBuffer|]. intros _ _.
  match goal with |- context [read_fill s0 e ?o ?l ?b] => generalize l as segs, b as buf end.
  intros segs. induction segs as [|g segs IH]; intros buf; cbn [read_fill]; [done|]. destruct (bufferedReadAt s0 e (s_n g) (s_disk g)); [apply IH|].
  eapply sends_ethen; [apply sends_device|intros; apply IH|done].
Qed.

Lemma stays_handleLseek p : ok (handleLseek p).
Proof. unfold handleLseek. repeat case_match; stay_auto. Qed.

Lemma stays_handleFallocate p : ok (handleFallocate p).
Proof.
  unfold handleFallocate. repeat case_match; try by apply stays_ret. apply stays_locked. unfold fallocate_locked, flushEntry. stay_auto.
Qed.

Lemma stays_publishInode ino : ok (publishInode ino).
Proof. unfold publishInode. stay_auto. Qed.

Lemma stays_seed ino h rec now : ok (seedCreatedLock ino h rec now).
Proof.
  unfold seedCreatedLock. destruct (LockHolderLease h); [|by apply stays_ret]. apply stays_seq; [apply stays_entryFor|]. intros _.
  eapply stays_then; [apply stays_entry|]. intros e _. case_if; [by apply stays_ret|]. apply stays_seq; [|intros _; by apply stays_ret].
  apply stays_alter. intros e' [H _]. split; [done|]. by intros k ?%elem_of_nil.
Qed.

Lemma stays_discardCreated ino h : ok (discardCreatedLock ino h).
Proof. unfold discardCreatedLock. stay_auto. Qed.
End data_handlers.
#[export] Hint Resolve stays_handleWrite stays_handleRead stays_handleLseek stays_handleFallocate stays_publishInode stays_seed
  stays_discardCreated : stays.

(** ** The daemon *)

Section dmn.
Context (n : bytes) (og : option Z).
Notation sends := (sends (node_req n og)).
Notation svc_ok := (svc_ok n og).

Definition dstays {A} (c : dmn A) (Q : A → Prop) : Prop := ∀ d, svc_ok (base d) → sends (c d) (λ x, svc_ok (base x.1) ∧ Q x.2).

Lemma dstays_ret {A} (a : A) (Q : A → Prop) : Q a → dstays (dret a) Q.
Proof. by intros HQ d Hd. Qed.

Lemma dstays_then {A B} (c : dmn A) (f : A → dmn B) Q R : dstays c Q → (∀ a, Q a → dstays (f a) R) → dstays (dbind c f) R.
Proof. intros Hc Hf d Hd. eapply sends_then; [by apply Hc|]. intros x [? ?]. by apply Hf. Qed.

Lemma dstays_seq {A B} (c : dmn A) (f : A → dmn B) R : dstays c (λ _, True) → (∀ a, dstays (f a) R) → dstays (dbind c f) R.
Proof. intros Hc Hf. eapply dstays_then; [exact Hc|]. auto. Qed.

Lemma dstays_svc {A} (c : svc A) Q : stays n og c Q → dstays (on_svc c) Q.
Proof. intros Hc d Hd. eapply sends_then; [by apply Hc|]. by intros x [? ?]. Qed.

Lemma dstays_store {A} (f : Store → prog A) Q : (∀ st, node_store n og st → sends (f st) Q) → dstays (on_store f) Q.
Proof. intros Hf d Hd. eapply sends_then; [by apply Hf, store_ok|]. by intros a Ha. Qed.

Lemma dstays_times {A} (f : Store → Touch → prog (Touch * A)) :
  (∀ st t, node_store n og st → sends (f st t) (λ _, True)) → dstays (on_times f) (λ _, True).
Proof. intros Hf d Hd. eapply sends_then; [by apply Hf, store_ok|]. by intros a Ha. Qed.

Lemma dstays_lift {A} (p : prog A) Q : sends p Q → dstays (dlift p) Q.
Proof. intros Hp d Hd. eapply sends_then; [exact Hp|]. by intros a Ha. Qed.

Lemma dstays_gets {A} (f : Daemon → A) : dstays (dgets f) (λ _, True).
Proof. by intros d Hd. Qed.

Lemma dstays_modify (f : Daemon → Daemon) : (∀ d, base (f d) = base d) → dstays (dmodify f) (λ _, True).
Proof. intros Hf d Hd. split; [|done]. simpl. by rewrite Hf. Qed.

Lemma dstays_err v : dstays (errResp v) (λ _, True).
Proof. by apply dstays_ret. Qed.

Lemma dstays_now : dstays now_d (λ _, True).
Proof. by apply dstays_lift, sends_call. Qed.
End dmn.

#[export] Hint Resolve dstays_ret dstays_err dstays_now dstays_gets : dstays.
#[export] Hint Extern 1 (dstays _ _ (on_svc _) _) => apply dstays_svc; solve [eauto with stays] : dstays.
#[export] Hint Extern 1 (dstays _ _ (on_store _) _) => apply dstays_store; intros; solve [eauto with node] : dstays.
#[export] Hint Extern 1 (dstays _ _ (on_times _) _) => apply dstays_times; intros; solve [eauto with node] : dstays.
#[export] Hint Extern 1 (dstays _ _ (on_dirents _) _) => apply dstays_modify; intros; reflexivity : dstays.
#[export] Hint Extern 1 (dstays _ _ (dmodify _) _) => apply dstays_modify; intros; reflexivity : dstays.
#[export] Hint Extern 1 (dstays _ _ (entry_resp _ _) _) => apply dstays_gets : dstays.
#[export] Hint Extern 1 (dstays _ _ (attr_resp _) _) => apply dstays_gets : dstays.
#[export] Hint Extern 1 (dstays _ _ negative_resp _) => apply dstays_gets : dstays.

(** A step of the daemon's own memory. *)
Ltac memory_step := let d := fresh "d" in intros d ?; repeat case_match; by split.

Ltac dstay_step :=
  match goal with
  | |- ∀ _, _ => intros
  | |- dstays _ _ (dret _) _ => apply dstays_ret; try done
  | |- dstays _ _ (dbind _ _) _ =>
    first [ eapply dstays_then; [solve [eauto with dstays]|intros ? ?; cbn [okp] in *] | apply dstays_seq; [|intros ?] ]
  | |- dstays _ _ (if ?b then _ else _) _ => destruct b
  | |- dstays _ _ (match ?x with _ => _ end) _ => destruct x
  end.
Ltac dstay_auto := repeat (first [ done | solve [eauto 6 with dstays] | dstay_step ]).

Section handlers.
Context (n : bytes) (og : option Z).
Notation ok c := (dstays n og c (λ _, True)).

Lemma stays_Lookup p : ok (handleLookup p).
Proof.
  assert (∀ parent, ok (prefetchDirents parent)) as Hp.
  { intros parent. unfold prefetchDirents. apply dstays_seq; [apply dstays_now|]. intros now. apply dstays_seq.
    - memory_step.
    - dstay_auto. }
  unfold handleLookup, direntsAbsent. dstay_auto.
Qed.

Lemma stays_readers p : ok (handleGetattr p) ∧ ok (handleReadlink p) ∧ ok (handleGetxattr p) ∧ ok (handleListxattr p).
Proof.
  unfold handleGetattr, handleReadlink, handleGetxattr, handleListxattr. repeat split; dstay_auto.
Qed.

Lemma sends_GetMany st keys : sends (node_req n og) (GetMany st keys) (λ _, True).
Proof.
  unfold GetMany. generalize (length keys) as fuel. intros fuel. generalize (∅ : gmap bytes bytes) as out. revert keys.
  induction fuel as [|fuel IH]; intros keys out; cbn [get_chunks]; [done|]. destruct keys; [done|].
  eapply sends_ethen; [apply sends_readTxn|intros; apply IH|done].
Qed.

Lemma stays_readdir plus p : ok (readdirResp plus p).
Proof.
  assert (∀ ino off size, ok (direntPage ino off size plus)) as Hp.
  { intros. unfold direntPage. apply dstays_seq; [apply dstays_now|]. intros now. apply dstays_seq; [memory_step|]. dstay_auto. }
  unfold readdirResp. repeat case_match; [apply dstays_err|]. apply dstays_seq; [apply Hp|]. intros [l|e]; [|apply dstays_err].
  apply dstays_seq; [apply dstays_store; intros; apply sends_GetMany|]. intros [m|e]; [apply dstays_gets|apply dstays_err].
Qed.

Lemma stays_statfs p : ok (handleStatfs p).
Proof. unfold handleStatfs, freeBytes. dstay_auto. Qed.

Lemma stays_allocInode : ok allocInode.
Proof.
  intros d Hd. unfold allocInode. eapply (sends_then _ _ _ (λ _, True)); [|by intros x _]. unfold reserve.
  eapply (sends_then _ _ _ (λ _, True)); [|by intros [] _]. case_if; [|done].
  eapply sends_ethen; [by apply sends_reserve; [apply store_ok|]|done..].
Qed.

Lemma stays_creating parent name mk :
  (∀ ino st t, node_store n og st → sends (node_req n og) (mk ino st t) (λ _, True)) → ok (creating parent name mk).
Proof.
  intros Hm. unfold creating. apply dstays_seq; [apply stays_allocInode|]. intros [ino|e]; [|apply dstays_err].
  apply dstays_seq; [apply dstays_times; intros; by apply Hm|]. dstay_auto.
Qed.

Lemma stays_makers p : ok (handleMkdir p) ∧ ok (handleSymlink p) ∧ ok (handleMknod p).
Proof.
  unfold handleMkdir, handleSymlink, handleMknod. repeat split; repeat case_match; try apply dstays_err;
    apply stays_creating; intros; (apply sends_create; [done|]); left; eauto with node.
Qed.

Lemma stays_cacheable flags : ok (cacheableOpen flags).
Proof.
  intros d Hd. unfold cacheableOpen. repeat case_if; (split; [|done]); try done. by apply (svc_ok_same n og (base d)).
Qed.

Lemma stays_create p : ok (handleCreate p).
Proof.
  unfold handleCreate. repeat case_match; [apply dstays_err|]. apply dstays_seq; [apply stays_allocInode|]. intros [ino|e]; [|apply dstays_err].
  apply (dstays_then n og _ _ (okp (λ y, ∀ st, node_store n og st → extra_ok st (mkExtra [y.1.2] [y.2])))).
  { intros d Hd. unfold prepare_lock. eapply sends_then; [by apply (sends_PrepareLock n og)|]. intros [ls [y|e]] Hy; (split; [by apply (svc_ok_same n og (base d))|]); [|done].
    simpl in *. intros st [Hst _]. destruct Hy as [Hy|(i & md & hd & ls' & Hy)]; [by left|]. right. exists i, md, hd, ls'.
    unfold lock_op in *. cbn [store nodeID] in Hy. rewrite (so_node _ _ _ Hd) in Hy. by rewrite Hst. }
  intros lk Hl. destruct (match lk with Ok (h, c, o) => (Some h, mkExtra [c] [o]) | Err _ => (None, no_extra) end) as [holder extra] eqn:El.
  assert (∀ st, node_store n og st → extra_ok st extra) as Hx.
  { intros st Hst. destruct lk as [[[h c] o]|e]; injection El as <- <-; [by apply Hl|left; constructor]. }
  apply dstays_seq; [apply dstays_times; intros; apply sends_create; auto|]. intros x.
  pose proof stays_cacheable.
  destruct (x.2); [|unfold discard_created; dstay_auto]. unfold create_resp. dstay_auto.
Qed.

Lemma stays_open p : ok (handleOpen p).
Proof.
  unfold handleOpen. repeat case_match; try apply dstays_err; (apply dstays_seq;
    [first [by apply dstays_ret|apply dstays_svc, stays_locked; unfold truncate_locked, flushEntry; stay_auto]|]);
    pose proof stays_cacheable; dstay_auto.
Qed.

Lemma stays_handleRelease p : ok (handleRelease p).
Proof.
  unfold handleRelease. repeat case_match; [apply dstays_err|]. apply dstays_seq; [memory_step|]. dstay_auto.
Qed.

Lemma stays_unlink p : ok (handleUnlink p).
Proof.
  assert (∀ parent name, ok (unlinkKeepingOpen parent name)) as Hu.
  { intros parent name. unfold unlinkKeepingOpen. generalize casAttempts as fuel, O as i.
    assert (ok (unlink_open_attempt parent name)) as Ha.
    { unfold unlink_open_attempt. apply dstays_seq; [apply dstays_store; intros; apply sends_GetRevision|]. intros [x|e]; [|by apply dstays_ret].
      destruct (first_kv x.1) as [e|]; [|by apply dstays_ret]. apply dstays_seq; [apply dstays_store; intros; apply sends_GetInodeRev|].
      intros [[[rec|] rev]|er]; [|by apply dstays_ret..]. apply dstays_seq; [case_if; [unfold held_open; memory_step|by apply dstays_ret]|].
      intros b. eapply dstays_then; [apply dstays_store; intros; apply sends_unlink_tail|]. intros tl Ht. cbn beta in Ht.
      apply dstays_seq; [apply dstays_store; intros st Hst; apply sends_Txn; [done|]; eauto 6 with node|].
      intros [[]|er]; [|by apply dstays_ret..]. apply dstays_seq; [|intros; by apply dstays_ret].
      apply dstays_times. intros st t Hst. eapply sends_then; [by apply sends_touchDir|done]. }
    induction fuel as [|fuel IH]; intros i; cbn [unlink_open_loop]; [by apply dstays_ret|].
    apply dstays_seq; [exact Ha|]. intros [[r|]|e]; [by apply dstays_ret| |by apply dstays_ret].
    apply dstays_seq; [by apply dstays_lift, sends_call|]. intros []; [by apply dstays_ret|apply IH]. }
  unfold handleUnlink. dstay_auto.
Qed.

Lemma stays_names p : ok (handleRmdir p) ∧ ok (handleRename p) ∧ ok (handleLink p).
Proof. unfold handleRmdir, handleRename, handleLink. repeat split; dstay_auto. Qed.

Lemma stays_setattr p : ok (handleSetattr p).
Proof.
  assert (∀ ino rec rev valid f, ok (commitSetattr ino rec rev valid f)) as Hc.
  { intros. unfold commitSetattr. dstay_auto. }
  assert (∀ ino, ok (take_times ino)) as Ht by (intros; unfold take_times; memory_step).
  assert (∀ q, ok (requeue_times q)) as Hq by (intros [q|]; [by apply dstays_modify|by apply dstays_ret]).
  assert (∀ ino valid f fuel, ok (setattr_loop ino valid f fuel)) as Hl.
  { intros ino valid f fuel. induction fuel as [|fuel IH]; cbn [setattr_loop]; [apply dstays_err|]. dstay_auto. }
  assert (∀ ino valid f, ok (setattr_unlocked ino valid f)) as Hu.
  { intros ino valid f. unfold setattr_unlocked. apply dstays_seq; [apply dstays_store; intros; apply sends_GetInode|].
    intros [[rec|]|e]; [|apply dstays_err..]. apply dstays_seq; [|dstay_auto]. case_if; [by apply dstays_ret|].
    unfold deferSetattrTimes. apply dstays_seq; [apply dstays_gets|]. intros before. apply dstays_seq; [apply dstays_now|]. intros now.
    apply dstays_seq; [|dstay_auto]. intros d Hd. by destruct (QueueInodeTimes _ _ _ _ _). }
  unfold handleSetattr, setattr_sized, flushEntry. repeat case_match; [apply dstays_err| |apply Hu]. dstay_auto.
Qed.

Lemma stays_xattrs p : ok (handleSetxattr p) ∧ ok (handleRemovexattr p).
Proof. unfold handleSetxattr, handleRemovexattr. split; dstay_auto. Qed.

Lemma stays_fsync b p : ok (fsyncInode b p).
Proof.
  unfold fsyncInode, flush_times. assert (ok (dlift FlushDevice)) as Hf by apply dstays_lift, issues_io, io_FlushDevice. dstay_auto.
  apply dstays_times. intros st t Hst. eapply sends_then; [by apply sends_flush_times|done].
Qed.

Lemma stays_handler o p : ok (handler_of o p).
Proof.
  destruct o; cbn [handler_of]; try apply stays_Lookup; try apply stays_readers; try apply stays_readdir; try apply stays_statfs;
    try apply stays_create; try apply stays_makers; try apply stays_unlink; try apply stays_names; try apply stays_setattr;
    try apply stays_xattrs; try apply stays_open; try apply stays_handleRelease; try apply stays_fsync; try (by apply dstays_ret);
    apply dstays_svc; eauto with stays.
Qed.

Lemma stays_dispatch code p : ok (dispatch code p).
Proof.
  unfold dispatch. destruct (find_op code) as [o|]; [|apply dstays_err]. apply dstays_seq; [apply dstays_gets|]. intros ro.
  case_if; [apply dstays_err|apply stays_handler].
Qed.
End handlers.
