(* ===== verification/DaemonProps.v ===== *)
(** * Fencing and mutual exclusion of whole daemons

    A daemon serves connections and, between requests, reacts: it flushes what is
    due, hands locks over on a recall, drops caches when a session ends, publishes
    queued times, follows the dirent watch (internal/ipc, cmd/etcfuse-meta).
    Whatever requests arrive, in whatever order, and whatever etcd, the device and
    the kernel answer:
    - a fenced daemon changes no key but its own want keys, and may take records
      out of the pool of free arenas;
    - any number of daemons, interleaved request by request, keep an exclusive
      lock holder alone.

    The pool is an exception the code does not document: the lemma
    [fenced_claim_leaks_arena] shows a fenced node losing an arena for good. *)

From S2P Require Import Prelude Etcd EtcdFacts Schema Store StoreLogic StoreProps Locks Extents Allocator ArenaPool InodeTimes Dirents Service DataPath Delegate SvcLogic LockCache Wire WireProps DataHandlers NodeCaches Daemon Handlers HandlerProps Notify Sends NodeReqs DaemonReqs.

(** ** What a daemon reacts to *)

Inductive reaction :=
| Connection (stream : bytes)             (* handleConn *)
| Request (code : Z) (payload : bytes)    (* dispatch, of any connection *)
| Recall (ino : Z)                        (* recallLock *)
| FlushDue                                (* flushExpired *)
| FlushEvery                              (* FlushAll *)
| FlushTimes (shuffle : list (Z * timeUpdate) → list (Z * timeUpdate))
| SessionLost (l : Z)                     (* dropCachesForLease *)
| DirentEvent (key : bytes) (is_delete : bool)
| DirentGap.

Definition react (r : reaction) : dmn unit :=
  match r with
  | Connection stream => _ ⇝ handleConn stream; dret tt
  | Request code payload => _ ⇝ dispatch code payload; dret tt
  | Recall ino => _ ⇝ on_svc (recallLock ino); dret tt
  | FlushDue => on_svc flushExpired
  | FlushEvery => on_svc FlushAll
  | FlushTimes sh => on_times (λ st t, t' ⇐ FlushInodeTimes st sh t 0; Ret (t', tt))
  | SessionLost l => on_svc (dropCachesForLease l)
  | DirentEvent key is_delete => dmodify (λ d, (direntChanged key is_delete d).1)
  | DirentGap => dmodify direntWatchGap
  end.

Fixpoint live_daemon (rs : list reaction) : dmn unit :=
  match rs with
  | [] => dret tt
  | r :: rs' => _ ⇝ react r; live_daemon rs'
  end.

Section reactions.
Context (n : bytes) (og : option Z).
Notation ok c := (dstays n og c (λ _, True)).

Lemma stays_serve fuel stream : ok (serve fuel stream).
Proof.
  revert stream. induction fuel as [|fuel IH]; intros stream; cbn [serve]; [by apply dstays_ret|].
  destruct (recvReq stream) as [[[code payload] rest]|]; [|by apply dstays_ret].
  apply dstays_seq; [apply stays_dispatch|]. intros r. apply dstays_seq; [apply IH|]. intros more. by apply dstays_ret.
Qed.

Lemma stays_react r : ok (react r).
Proof.
  destruct r; cbn [react].
  - apply dstays_seq; [apply stays_serve|intros; by apply dstays_ret].
  - apply dstays_seq; [apply stays_dispatch|intros; by apply dstays_ret].
  - apply dstays_seq; [apply dstays_svc, stays_recall|intros; by apply dstays_ret].
  - apply dstays_svc, stays_flushExpired.
  - apply dstays_svc, stays_FlushAll.
  - apply dstays_times. intros st t Hst. eapply sends_then; [by apply sends_flush_times|done].
  - apply dstays_svc, stays_dropLease.
  - apply dstays_modify. intros d. unfold direntChanged. by destruct (ParseDirentKey key) as [[]|].
  - by apply dstays_modify.
Qed.

Lemma stays_live rs : ok (live_daemon rs).
Proof. induction rs as [|r rs IH]; cbn [live_daemon]; [by apply dstays_ret|]. apply dstays_seq; [apply stays_react|done]. Qed.
End reactions.

(** A daemon whose buffers and caches hold no lock's key. *)
Definition sound_daemon (d : Daemon) : Prop := ∀ ino e, entries (base d) !! ino = Some e → entry_ok e.

Lemma sound_svc d : sound_daemon d → svc_ok (node (base d)) None (base d).
Proof. by intros H. Qed.

(** ** A fenced daemon *)

(** The keys a fenced daemon may still move. *)
Definition left_alone (n : bytes) (m m' : mvcc) : Prop :=
  ∀ k, (∀ ino, k ≠ LockWantKey ino n) →
    mkvs m' !! k = mkvs m !! k ∨ (has_prefix PrefixFreeArena k = true ∧ mkvs m' !! k = None).

Lemma left_alone_trans n m1 m2 m3 : left_alone n m1 m2 → left_alone n m2 m3 → left_alone n m1 m3.
Proof. intros H1 H2 k Hk. destruct (H1 k Hk) as [E1|[? E1]], (H2 k Hk) as [E2|[? E2]]; rewrite E2; auto. Qed.

Lemma stale_left_alone n g m m' : left_alone n m m' → guard_stale n g m → guard_stale n g m'.
Proof.
  intros Hl Hs e He. destruct (Hl (GenKey n)) as [E|[_ E]]; [|apply Hs; by rewrite <- E|congruence]. by intros ino ?.
Qed.

Lemma ops_left_alone n m k o : op_touches o k = true → (∀ k', op_touches o k' = true → k' = k) → (∃ ino, k = LockWantKey ino n) →
  left_alone n m (mvcc_ops m [o]).1.
Proof.
  intros _ Ho [ino ->] k' Hk'. left. rewrite mvcc_ops_kvs. apply apply_ops_untouched. constructor; [|constructor].
  apply not_true_is_false. intros ->%Ho. by apply (Hk' ino).
Qed.

Lemma node_req_left_alone n g q m m' a :
  guard_stale n g m → node_req n (Some g) q → etcd_ok q m m' a → left_alone n m m' ∧ guard_stale n g m'.
Proof.
  intros Hs Hq Hok. assert (left_alone n m m') as Hl; [|split; [done|by eapply stale_left_alone]].
  pose proof (etcd_ok_store _ _ _ _ Hok) as Hst.
  destruct q as [| |ifs ts es|k v l|k p| |t|l|l| | |]; lazy beta iota in Hst; subst; try (by intros k0 _; left).
  - destruct Hq as [Hd [Hg|(k & Hk & ->)]].
    + intros k _. left. assert (guarded_req n g (QTxn ifs ts es)) as Hgr by (split; [apply Hd|by apply Hg]).
      by destruct (guarded_req_stale _ _ _ _ _ _ Hgr Hs Hok) as (-> & _).
    + pose proof (proj1 Hd) as ->. destruct Hst as [->| ->]; [by intros k0 _; left|].
      destruct (forallb (eval_cmp (mkvs m)) ifs) eqn:Hf; [rewrite mvcc_txn_committed by done|rewrite mvcc_txn_rejected by done; by intros k0 _; left].
      intros k' _. rewrite mvcc_ops_kvs. simpl. destruct (decide (k' = k)) as [->|Hne]; [right; by rewrite lookup_delete_eq|left; by rewrite lookup_delete_ne].
  - destruct Hst as [->| ->]; [by intros k0 _; left|]. apply (ops_left_alone n m k); [by apply bool_decide_eq_true_2| |done].
    by intros k' ->%bool_decide_eq_true.
  - destruct Hq as [Hk ->]. destruct Hst as [->| ->]; [by intros k0 _; left|]. apply (ops_left_alone n m k); [by apply bool_decide_eq_true_2| |done].
    by intros k' ->%bool_decide_eq_true.
  - destruct Hst as (E & _ & _). intros k _. left. by rewrite E.
Qed.


(** ** Daemons side by side *)

Lemma node_req_disciplined n q : node_req n None q → lock_disciplined q.
Proof. destruct q; try done; [by intros [? _]|]. intros [ino ->]. apply LockWantKey_not_lock_key. Qed.


(** ** Concrete daemons *)

Definition peer_daemon : Daemon :=
  set_base (mkService (h_opts false) (lit "n2") false false true 0 (mkLockState None 0) (mkAllocator [] 0 0) None 0 0 false ∅) (h_daemon false).

Lemma h_sound : sound_daemon (h_daemon false) ∧ sound_daemon peer_daemon.
Proof. split; intros ino e He; cbn in He; by rewrite lookup_empty in He. Qed.

(** A mkdir and an fallocate; then what is due. *)
Definition busy_day : list reaction :=
  [Request 6 (write_fields [F64 1; FBytes (lit "d"); F32 493; F32 18; F32 0; F32 0]);
   Request 35 (write_fields [F64 7; F32 0; F64 0; F64 4096]); FlushDue; Recall 7].


(** Two daemons after the same lock; the first holds it while the second asks. *)
Definition race_store : mvcc :=
  MVCC 5 {[ GenKey (lit "n1") := KV (fmt_uint 0) 2 2 0; GenKey (lit "n2") := KV (fmt_uint 0) 3 3 0 ]} ∅.

Lemma race_store_key k e : mkvs race_store !! k = Some e → (k = GenKey (lit "n1") ∨ k = GenKey (lit "n2")) ∧ kv_create e = kv_mod e ∧ 0 < kv_mod e <= 5.
Proof. intros He. simpl in He. apply lookup_insert_Some in He as [[<- <-]|[_ [<- <-]%lookup_singleton_Some]]; simpl; (split; [by auto|lia]). Qed.

Definition daemon_race : ref_srv * list (prog (Daemon * unit)) :=
  foldl (@cexec ref_etcd _)
    (RefSrv race_store 100, map (λ x, live_daemon x.2 x.1) [(h_daemon false, busy_day); (peer_daemon, busy_day)])
    (Expire 7 :: concat (replicate 10 [Step 0; Step 1])).


(** ** The pool is not guarded *)

(** A store at generation 1 with arena 3 in the pool. *)
Definition pool_srv : ref_srv :=
  RefSrv (MVCC 5 {[ GenKey (lit "n1") := KV (fmt_uint 1) 2 5 0; FreeArenaKey 3 := KV (lit "free") 3 3 0 ]} ∅) 100.

Definition fenced_claim : ref_srv * (Allocator * result Arena) :=
  @run ref_etcd _ (AcquireArena (mkStore (lit "n1") false (Some (Some 0))) (mkAllocator [] 0 0)) pool_srv.

(** ClaimFreeArena runs its transaction without the guard: a node fenced between
    two writes takes an arena out of the pool, is then refused the record of its
    ownership, and leaves an arena that is neither free nor anybody's. *)
Theorem fenced_claim_leaks_arena :
  fenced_claim.2 = (mkAllocator [] 0 0, Err ErrFenced) ∧
  mkvs (@eview ref_etcd pool_srv) !! FreeArenaKey 3 = Some (KV (lit "free") 3 3 0) ∧
  mkvs (@eview ref_etcd fenced_claim.1) !! FreeArenaKey 3 = None ∧
  mkvs (@eview ref_etcd fenced_claim.1) !! ArenaOwnerKey (lit "n1") 3 = None.
Proof. vm_compute. done. Qed.
