(* ===== verification/Scrub.v ===== *)
(** * The scrubber

    Models pkg/scrub/scrubber.go: one scan of the key space into a snapshot, the
    checks over it, and the pass that reclaims dead extents of this node's
    arenas.  The interfaces the scrubber is given are classes here: [Reclaimer]
    (the block allocator), and [MapOrder] for the order in which a Go map is
    visited, which the language leaves open.  The lock cache changes while a pass
    runs, so [InodeLocks] answers the [n]-th question of the scrubber.

    The texts of findings, logging and metrics are left out, and so is the ticker
    that calls the pass again. *)

From S2P Require Import Prelude Etcd EtcdFacts Schema Store Extents Allocator.

(** ** Interfaces *)

Class Reclaimer (R : Type) := {
  Reclaim_Free : R → Z → Z → R;
  Reclaim_Owns : R → Z → bool;
  (** Freeing changes no ownership. *)
  Reclaim_Owns_Free r off len d : Reclaim_Owns (Reclaim_Free r off len) d = Reclaim_Owns r d
}.

Class MapOrder := {
  visit {A} : gmap Z A → list (Z * A);
  visit_perm {A} (m : gmap Z A) : visit m ≡ₚ map_to_list m
}.

Definition sorted_visit : MapOrder := {| visit A := map_to_list; visit_perm A m := reflexivity _ |}.

Abbreviation InodeLocks := (nat → Z → bool).

(** ** Findings *)

Record Result := mkResult {
  r_type : bytes; r_ino : Z; r_diskOff : Z; r_length : Z; r_key : bytes; r_modRev : Z; r_autoFix : bool
}.
#[global] Instance Result_eq_dec : EqDecision Result.
Proof. solve_decision. Defined.

Record heldRange := mkHeld { h_ino : Z; h_diskOff : Z; h_length : Z }.

Record Scrubber (R : Type) := mkScrubber {
  sc_deviceSize : Z;
  reclaimer : option R;
  locks : option InodeLocks;
  asked : nat;                    (* questions put to [locks] so far *)
  lastRun : Z;
  anomalies : list Result;
  totalChecked : Z;
  heldRanges : list heldRange
}.
Arguments mkScrubber {R}.
Arguments sc_deviceSize {R}.
Arguments reclaimer {R}.
Arguments locks {R}.
Arguments asked {R}.
Arguments lastRun {R}.
Arguments anomalies {R}.
Arguments totalChecked {R}.
Arguments heldRanges {R}.

Section state.
Context {R : Type}.
Definition set_reclaimer (r : option R) (s : Scrubber R) : Scrubber R :=
  mkScrubber (sc_deviceSize s) r (locks s) (asked s) (lastRun s) (anomalies s) (totalChecked s) (heldRanges s).
Definition set_asked (n : nat) (s : Scrubber R) : Scrubber R :=
  mkScrubber (sc_deviceSize s) (reclaimer s) (locks s) n (lastRun s) (anomalies s) (totalChecked s) (heldRanges s).
Definition set_lastRun (t : Z) (s : Scrubber R) : Scrubber R :=
  mkScrubber (sc_deviceSize s) (reclaimer s) (locks s) (asked s) t (anomalies s) (totalChecked s) (heldRanges s).
Definition set_anomalies (l : list Result) (n : Z) (s : Scrubber R) : Scrubber R :=
  mkScrubber (sc_deviceSize s) (reclaimer s) (locks s) (asked s) (lastRun s) l n (heldRanges s).
Definition set_held (h : list heldRange) (s : Scrubber R) : Scrubber R :=
  mkScrubber (sc_deviceSize s) (reclaimer s) (locks s) (asked s) (lastRun s) (anomalies s) (totalChecked s) h.

Definition newScrubber : Scrubber R := mkScrubber 0 None None 0 0 [] 0 [].

Definition lockedHere (ino : Z) (s : Scrubber R) : bool * Scrubber R :=
  match locks s with
  | None => (false, s)
  | Some f => (f (asked s) ino, set_asked (S (asked s)) s)
  end.
End state.

(** ** The snapshot *)

Record Snapshot := mkSnapshot {
  sn_extents : list Extent;
  sn_inodes : gmap Z InodeRecord;
  sn_direntRefs : gmap Z Z;
  sn_subdirRefs : gmap Z Z;
  sn_generations : gmap bytes Z
}.

(** [m[k]++] on a map of uint32 counters. *)
Definition incr32 (k : Z) (m : gmap Z Z) : gmap Z Z := <[k := wrap32 (default 0 (m !! k) + 1)]> m.

(** [fmt.Sscanf(v, "%d", &n)]: blanks, then digits up to the first other byte;
    0 when there are none or the number does not fit. *)
Definition is_blank (c : Z) : bool := (c =? 9) || ((11 <=? c) && (c <=? 13)) || (c =? 32).
Fixpoint skip_blanks (v : bytes) : bytes :=
  match v with c :: v' => if is_blank c then skip_blanks v' else v | [] => [] end.
Fixpoint digits_of (v : bytes) : bytes :=
  match v with c :: v' => if (48 <=? c) && (c <=? 57) then c :: digits_of v' else [] | [] => [] end.
Definition Sscanf_d (v : bytes) : Z := default 0 (ParseUint (digits_of (skip_blanks v))).

Definition scan_inodes (kvs : list (bytes * kv)) : gmap Z InodeRecord :=
  foldl (λ m x, match DecodeInode (kv_val x.2) with Some rec => <[Ino rec := rec]> m | None => m end) ∅ kvs.

Definition scan_dirents (inodes : gmap Z InodeRecord) (kvs : list (bytes * kv)) : gmap Z Z * gmap Z Z :=
  foldl (λ st x,
    let '(refs, subdirs) := st in
    let child := DecodeUint64 (kv_val x.2) in
    (incr32 child refs,
     match ParseDirentKey x.1, inodes !! child with
     | Some (parent, _), Some rec => if ftype (Mode rec) =? ModeDir then incr32 parent subdirs else subdirs
     | _, _ => subdirs
     end)) (∅, ∅) kvs.

Definition scan_gens (kvs : list (bytes * kv)) : gmap bytes Z :=
  foldl (λ m x, <[drop (length PrefixGen) x.1 := Sscanf_d (kv_val x.2)]> m) ∅ kvs.

Definition snapshot_of (exts inos dirs gens : list (bytes * kv)) : Snapshot :=
  let inodes := scan_inodes inos in
  let '(refs, subdirs) := scan_dirents inodes dirs in
  mkSnapshot (DecodeExtents exts) inodes refs subdirs (scan_gens gens).

Definition Scan (st : Store) : prog (result Snapshot) :=
  exts ⇐? GetPrefix st PrefixExtent;
  inos ⇐? GetPrefix st PrefixInode;
  dirs ⇐? GetPrefix st PrefixDirent;
  gens ⇐? GetPrefix st PrefixGen;
  Ret (Ok (snapshot_of exts inos dirs gens)).

(** ** The checks *)

Definition disk_le (a b : Extent) : Prop := DiskOff a <= DiskOff b.
#[global] Instance disk_le_dec : RelDecision disk_le.
Proof. intros a b. unfold disk_le. apply _. Defined.
#[global] Instance disk_le_total : Total disk_le.
Proof. intros a b. unfold disk_le. lia. Qed.
#[global] Instance disk_le_trans : Transitive disk_le.
Proof. intros a b c. unfold disk_le. lia. Qed.

Fixpoint adjacent_collisions (prev : Extent) (l : list Extent) : list Result :=
  match l with
  | [] => []
  | cur :: l' =>
    if (add64 (DiskOff prev) (Length prev) <=? DiskOff cur) || bool_decide (Key prev = Key cur)
    then adjacent_collisions cur l'
    else mkResult (lit "collision") (extent_ino cur) (DiskOff cur) 0 (Key cur) 0 false :: adjacent_collisions cur l'
  end.

Definition collisions_of (byStart : list Extent) : list Result :=
  match byStart with [] => [] | e :: l => adjacent_collisions e l end.

Definition CheckExtentCollisions (snap : Snapshot) : list Result :=
  collisions_of (merge_sort disk_le (sn_extents snap)).

Definition CheckOrphanExtents (snap : Snapshot) : list Result :=
  omap (λ e, match sn_inodes snap !! extent_ino e with
             | Some _ => None
             | None => Some (mkResult (lit "orphan") (extent_ino e) (DiskOff e) (Length e) (Key e) (ModRevision e) true)
             end) (sn_extents snap).

(** Is there a reason [ext] can no longer be read? *)
Definition deadReason (ext : Extent) (size : Z) (siblings : list Extent) : bool :=
  (size <=? LogOff ext) || existsb (λ other, Supersedes other ext) siblings.

Definition by_ino (exts : list Extent) : gmap Z (list Extent) :=
  foldl (λ m e, <[extent_ino e := default [] (m !! extent_ino e) ++ [e]]> m) ∅ exts.

Definition dead_of (ino : Z) (rec : InodeRecord) (extents : list Extent) : list Result :=
  omap (λ e, if deadReason e (Size rec) extents
             then Some (mkResult (lit "dead") ino (DiskOff e) (Length e) (Key e) (ModRevision e) true)
             else None) extents.

Definition CheckDeadExtents `{MapOrder} (snap : Snapshot) : list Result :=
  visit (by_ino (sn_extents snap)) ≫= λ '(ino, extents),
    match sn_inodes snap !! ino with Some rec => dead_of ino rec extents | None => [] end.

Definition CheckRangeValidity (snap : Snapshot) (devSize : Z) : list Result :=
  if devSize =? 0 then []
  else omap (λ e, if devSize <? add64 (DiskOff e) (Length e)
                  then Some (mkResult (lit "range") (extent_ino e) (DiskOff e) 0 (Key e) 0 false)
                  else None) (sn_extents snap).

Definition CheckGenerationConsistency (snap : Snapshot) : list Result :=
  omap (λ e, match sn_generations snap !! Node e with
             | Some current =>
               if Gen e <=? current then None
               else Some (mkResult (lit "generation") (extent_ino e) (DiskOff e) 0 (Key e) 0 false)
             | None => None
             end) (sn_extents snap).

Definition expectedNlink (rec : InodeRecord) (dirents subdirs : Z) : Z :=
  if ftype (Mode rec) =? ModeDir then wrap32 (InitialNlink (Mode rec) + subdirs) else dirents.

Definition CheckNlinkConsistency `{MapOrder} (snap : Snapshot) : list Result :=
  omap (λ '(ino, rec),
    let expected := expectedNlink rec (default 0 (sn_direntRefs snap !! ino)) (default 0 (sn_subdirRefs snap !! ino)) in
    if Nlink rec =? expected then None
    else Some (mkResult (lit "nlink") ino 0 0 (InodeKey ino) 0 false)) (visit (sn_inodes snap)).

Definition CheckUnreferencedInodes `{MapOrder} (snap : Snapshot) : list Result :=
  omap (λ '(ino, _),
    if (ino =? RootIno) || (0 <? default 0 (sn_direntRefs snap !! ino)) then None
    else Some (mkResult (lit "unreferenced") ino 0 0 (InodeKey ino) 0 false)) (visit (sn_inodes snap)).

(** ** Keeping the findings *)

Definition maxAnomalies : nat := 1000.

Definition anomaly_id (r : Result) : bytes := r_type r ++ 0 :: r_key r.

Definition record_one (st : gset bytes * list Result) (r : Result) : gset bytes * list Result :=
  let '(seen, l) := st in
  if bool_decide (anomaly_id r ∈ seen) then st else ({[anomaly_id r]} ∪ seen, l ++ [r]).

Section pass.
Context {R : Type} `{Reclaimer R} `{MapOrder}.

Definition record (passes : list (list Result)) (s : Scrubber R) : Scrubber R :=
  let seen := list_to_set (map anomaly_id (anomalies s)) : gset bytes in
  let l := (foldl record_one (seen, anomalies s) (concat passes)).2 in
  set_anomalies (drop (length l - maxAnomalies) l) (totalChecked s + 1) s.

(** ** Reclaiming *)

Definition free_range (r : R) (off len : Z) (s : Scrubber R) : Scrubber R :=
  set_reclaimer (Some (Reclaim_Free r off len)) s.

Definition freeOrHold (r : R) (ino diskOff length : Z) (s : Scrubber R) : Scrubber R :=
  let '(busy, s) := lockedHere ino s in
  if busy then set_held (heldRanges s ++ [mkHeld ino diskOff length]) s
  else free_range r diskOff length s.

(** The loop of [releaseHeldRanges]: what is freed, and what stays. *)
Fixpoint release_loop (hs : list heldRange) (r : R) (still : list heldRange) (s : Scrubber R)
  : R * list heldRange * Scrubber R :=
  match hs with
  | [] => (r, still, s)
  | h :: hs' =>
    let '(busy, s) := lockedHere (h_ino h) s in
    if busy then release_loop hs' r (still ++ [h]) s
    else release_loop hs' (Reclaim_Free r (h_diskOff h) (h_length h)) still s
  end.

Definition releaseHeldRanges (s : Scrubber R) : Scrubber R :=
  match reclaimer s with
  | None => s
  | Some r =>
    let '(r, still, s) := release_loop (heldRanges s) r [] (set_held [] s) in
    set_held (still ++ heldRanges s) (set_reclaimer (Some r) s)
  end.

Fixpoint reclaim_loop (st : Store) (rs : list Result) (s : Scrubber R) : prog (Scrubber R) :=
  match rs with
  | [] => Ret s
  | r :: rs' =>
    if negb (r_autoFix r) then reclaim_loop st rs' s
    else match reclaimer s with
    | None => reclaim_loop st rs' s
    | Some rc =>
      if negb (Reclaim_Owns rc (r_diskOff r)) then reclaim_loop st rs' s
      else
        let '(busy, s) := lockedHere (r_ino r) s in
        if busy then reclaim_loop st rs' s
        else
          ok ⇐ Txn st [mod_is (r_key r) (r_modRev r)] [OpDelete (r_key r) false] [];
          match ok with
          | Ok true =>
            reclaim_loop st rs' (if 0 <? r_length r then freeOrHold rc (r_ino r) (r_diskOff r) (r_length r) s else s)
          | _ => reclaim_loop st rs' s
          end
    end
  end.

(** What a pass does with its snapshot. *)
Definition repair (st : Store) (snap : Snapshot) (s : Scrubber R) : prog (Scrubber R) :=
  let collisions := CheckExtentCollisions snap in
  let orphans := CheckOrphanExtents snap in
  let dead := CheckDeadExtents snap in
  let rangeV := CheckRangeValidity snap (sc_deviceSize s) in
  let genM := CheckGenerationConsistency snap in
  let nlinkV := CheckNlinkConsistency snap in
  let unref := CheckUnreferencedInodes snap in
  reclaim_loop st (orphans ++ dead) (record [collisions; orphans; dead; rangeV; genM; nlinkV; unref] s).

Definition RunScrubPass (st : Store) (s : Scrubber R) : prog (Scrubber R) :=
  now ⇐ call QNow;
  let s := releaseHeldRanges (set_lastRun now s) in
  snap ⇐ Scan st;
  match snap with
  | Err _ => Ret s
  | Ok snap => repair st snap s
  end.

(** [Run] until its context ends: one pass per tick. *)
Fixpoint run_passes (st : Store) (ticks : nat) (s : Scrubber R) : prog (Scrubber R) :=
  match ticks with
  | O => Ret s
  | S n => s ⇐ RunScrubPass st s; run_passes st n s
  end.

Definition Stats (s : Scrubber R) : Z * Z := (totalChecked s, Z.of_nat (length (anomalies s))).
End pass.

(** The allocator is the daemon's reclaimer. *)
Lemma holds_free_block bs st d : holds (foldl free_block st bs).1 d = holds st.1 d.
Proof. revert st. induction bs as [|b bs IH]; intros st; [done|]. simpl. rewrite IH. unfold free_block. by case_if. Qed.

Lemma Owns_Free a off size d : Owns (Free a off size) d = Owns a d.
Proof.
  unfold Owns, Free. assert (existsb (λ ar, holds ar d) (free_loop (arenas a) off size).1 = existsb (λ ar, holds ar d) (arenas a)) as H.
  { induction (arenas a) as [|ar ars IH]; [done|]. cbn [free_loop]. case_if.
    - unfold free_in_arena. pose proof (holds_free_block
        (seqZ ((off - DiskStart ar) / BlockSize) (Z.min (add64 size (BlockSize - 1) / BlockSize) (BlocksPerArena - (off - DiskStart ar) / BlockSize)))
        (ar, 0) d) as Hb.
      destruct (foldl free_block _ _) as [ar' df]. cbn [fst] in Hb. case_if; simpl; by rewrite <- Hb.
    - destruct (free_loop ars off size). simpl in *. by rewrite IH. }
  destruct (free_loop (arenas a) off size). done.
Qed.

#[global] Instance Allocator_Reclaimer : Reclaimer Allocator :=
  {| Reclaim_Free := Free; Reclaim_Owns := Owns; Reclaim_Owns_Free := Owns_Free |}.
