(* ===== verification/ScrubProps.v ===== *)
(** * What a scrub pass may and does do

    - The collision check is silent exactly when the device ranges of all
      extents are disjoint.
    - An extent reported dead holds no byte a reader of the file can see, and any
      number of scrubbers, interleaved and with replies lost, leave every file's
      bytes and every inode as they were.
    - Whatever the replies, blocks are given back or held back exactly for the
      extents whose removal was confirmed.
    - On a store whose link counts are exact no file's link count is reported. *)

From S2P Require Import Prelude Etcd EtcdFacts Schema SchemaProps Store StoreLogic Extents ExtentProps Allocator Service DataPath ReadProps ReplayProps Scrub.

(** ** Collisions *)

Definition on_disk (e : Extent) (d : Z) : Prop := DiskOff e <= d < DiskOff e + Length e.
Definition disk_ok (e : Extent) : Prop := 0 <= DiskOff e ∧ 0 < Length e ∧ DiskOff e + Length e < 2 ^ 64.
Definition disjoint_disk (e f : Extent) : Prop := ∀ d, on_disk e d → ¬ on_disk f d.

Lemma adjacent_collisions_nil prev l :
  Forall disk_ok (prev :: l) → NoDup (Key <$> prev :: l) → StronglySorted disk_le (prev :: l) →
  adjacent_collisions prev l = [] ↔ StronglySorted (λ e f, DiskOff e + Length e <= DiskOff f) (prev :: l).
Proof.
  revert prev. induction l as [|cur l IH]; intros prev Hok Hk Hs.
  { split; [|done]. intros _. by repeat constructor. }
  apply Forall_cons in Hok as [Hp Hok]. apply NoDup_cons in Hk as [Hpk Hk].
  apply StronglySorted_inv in Hs as [Hs Hle]. specialize (IH cur Hok Hk Hs). cbn [adjacent_collisions].
  pose proof Hok as [Hc _]%Forall_cons. destruct Hp as (P1 & P2 & P3). rewrite add64_small by lia.
  rewrite (bool_decide_eq_false_2 (Key prev = Key cur)).
  2:{ intros E. apply Hpk. rewrite E. simpl. left. }
  rewrite orb_false_r. destruct (Z.leb_spec (DiskOff prev + Length prev) (DiskOff cur)) as [H|H].
  - rewrite IH. split; intros Hss.
    + constructor; [done|]. apply Forall_cons. split; [done|]. apply StronglySorted_inv in Hs as [_ Hle'].
      eapply Forall_impl; [exact Hle'|]. unfold disk_le. intros x Hx. simpl in Hx. lia.
    + by apply StronglySorted_inv in Hss as [? _].
  - split; [done|]. intros [_ Hf]%StronglySorted_inv. apply Forall_cons in Hf as [? _]. lia.
Qed.

Lemma sorted_disjoint l :
  Forall disk_ok l → StronglySorted disk_le l →
  StronglySorted (λ e f, DiskOff e + Length e <= DiskOff f) l ↔
  StronglySorted disjoint_disk l.
Proof.
  induction l as [|e l IH]; intros Hok Hs; [split; constructor|]. apply Forall_cons in Hok as [He Hok].
  apply StronglySorted_inv in Hs as [Hs Hle]. specialize (IH Hok Hs).
  rewrite Forall_forall in Hle, Hok. split; intros [H1 H2]%StronglySorted_inv; rewrite Forall_forall in H2;
    (constructor; [by apply IH|]); rewrite Forall_forall; intros f Hf; specialize (H2 f Hf); specialize (Hle f Hf);
    specialize (Hok f Hf); unfold disjoint_disk, disk_le, on_disk, disk_ok in *.
  - intros d ??. lia.
  - destruct (Z.le_gt_cases (DiskOff e + Length e) (DiskOff f)) as [?|?]; [done|].
    destruct (H2 (DiskOff f)); lia.
Qed.

(** Two extents of the list share no byte of the device. *)
Definition all_disjoint (l : list Extent) : Prop :=
  ∀ e f, e ∈ l → f ∈ l → e ≠ f → disjoint_disk e f.

#[global] Instance all_disjoint_perm : Proper ((≡ₚ) ==> iff) all_disjoint.
Proof. intros l l' Hp. unfold all_disjoint. by setoid_rewrite Hp. Qed.

Lemma all_disjoint_sorted l : NoDup l → all_disjoint l ↔ StronglySorted disjoint_disk l.
Proof.
  induction l as [|a l IH]; [split; [constructor|]; intros _ e f []%elem_of_nil|].
  intros [Ha Hn]%NoDup_cons. specialize (IH Hn). split.
  - intros H. constructor.
    + apply IH. intros e f He Hf. apply H; by right.
    + rewrite Forall_forall. intros f Hf. apply H; [left|by right|]. by intros ->.
  - intros [H1 H2]%StronglySorted_inv e f He Hf Hne. rewrite Forall_forall in H2. unfold disjoint_disk in *.
    apply elem_of_cons in He as [->|He]; apply elem_of_cons in Hf as [->|Hf]; [done|by apply H2| |by apply IH].
    intros d ??. by apply (H2 _ He d).
Qed.

(** Every finding names an extent that shares a byte with another. *)
Lemma adjacent_collisions_sound prev l r :
  Forall disk_ok (prev :: l) → StronglySorted disk_le (prev :: l) → r ∈ adjacent_collisions prev l →
  ∃ e f, e ∈ prev :: l ∧ f ∈ l ∧ Key e ≠ Key f ∧ r_key r = Key f ∧ on_disk e (DiskOff f) ∧ on_disk f (DiskOff f).
Proof.
  revert prev. induction l as [|cur l IH]; intros prev Hok Hs Hr; [by apply elem_of_nil in Hr|].
  apply Forall_cons in Hok as [Hp Hok]. apply StronglySorted_inv in Hs as [Hs Hle].
  specialize (IH cur Hok Hs). cbn [adjacent_collisions] in Hr. pose proof Hok as [Hc _]%Forall_cons.
  assert (r ∈ adjacent_collisions cur l → ∃ e f, e ∈ prev :: cur :: l ∧ f ∈ cur :: l ∧ Key e ≠ Key f ∧
    r_key r = Key f ∧ on_disk e (DiskOff f) ∧ on_disk f (DiskOff f)) as Hrec.
  { intros (e & f & He & Hf & H)%IH. exists e, f. split; [by right|]. by split; [right|]. }
  destruct Hp as (P1 & P2 & P3). rewrite add64_small in Hr by lia.
  destruct (Z.leb_spec (DiskOff prev + Length prev) (DiskOff cur)); [by apply Hrec|].
  case_bool_decide as Hk; [by apply Hrec|]. simpl in Hr. apply elem_of_cons in Hr as [->|Hr]; [|by apply Hrec].
  exists prev, cur. apply Forall_cons in Hle as [Hle _]. unfold disk_ok, disk_le, on_disk in *.
  split; [left|]. split; [left|]. split; [done|]. split; [done|]. lia.
Qed.

Lemma collisions_of_nil exts byStart :
  byStart ≡ₚ exts → StronglySorted disk_le byStart → Forall disk_ok exts → NoDup (Key <$> exts) →
  collisions_of byStart = [] ↔ all_disjoint exts.
Proof.
  intros Hperm Hs Hok Hkeys. rewrite <- Hperm in Hok, Hkeys |- *. pose proof (NoDup_fmap_1 _ _ Hkeys) as Hnd.
  destruct byStart as [|e l]; [split; [|done]; intros _ e f []%elem_of_nil|].
  unfold collisions_of. by rewrite adjacent_collisions_nil, sorted_disjoint, all_disjoint_sorted.
Qed.

(** The collision check.  However extents with equal device offsets are
    ordered, it is silent exactly when no two extents share a byte of the
    device, and each finding names an extent that shares its first byte with
    another. *)
Theorem collisions_exact (exts byStart : list Extent)
  (Hperm : byStart ≡ₚ exts) (Hs : StronglySorted disk_le byStart)
  (Hok : Forall disk_ok exts) (Hkeys : NoDup (Key <$> exts)) :
  (collisions_of byStart = [] ↔ all_disjoint exts) ∧
  ∀ r, r ∈ collisions_of byStart → ∃ e f, e ∈ exts ∧ f ∈ exts ∧ Key e ≠ Key f ∧ r_key r = Key f ∧
    on_disk e (DiskOff f) ∧ on_disk f (DiskOff f).
Proof.
  split; [by apply collisions_of_nil|]. rewrite <- Hperm in Hok. setoid_rewrite <- Hperm.
  destruct byStart as [|e l]; [by intros r ?%elem_of_nil|].
  intros r (a & f & Ha & Hf & H)%adjacent_collisions_sound; [|done..]. exists a, f. split; [done|]. by split; [right|].
Qed.

Definition sc_ext (ino c disk len log seq : Z) : Extent :=
  mkExtent (ExtentKey ino c) c 7 seq (lit "n1") log disk len 0.

Lemma collisions_exact_witness :
  let l := [sc_ext 3 0 0 4096 0 0; sc_ext 3 1 8192 4096 4096 0; sc_ext 4 0 4096 8192 0 0] in
  collisions_of (merge_sort disk_le l) ≠ [].
Proof.
  intros l E. destruct (collisions_exact l (merge_sort disk_le l)) as [H _].
  - apply merge_sort_Permutation.
  - apply StronglySorted_merge_sort; apply _.
  - repeat constructor; vm_compute; done.
  - vm_compute. repeat constructor; set_solver.
  - apply H in E. apply (E (sc_ext 3 1 8192 4096 4096 0) (sc_ext 4 0 4096 8192 0 0)) with 8192; unfold l;
      [set_solver|set_solver|done|unfold on_disk; cbn; lia..].
Defined.

(** Only neighbours in device order are compared: of three extents the third of
    which lies in the first, beyond the second, the third is not named. *)
Theorem collision_not_named :
  let l := [sc_ext 3 0 0 40960 0 0; sc_ext 4 0 4096 4096 0 0; sc_ext 5 0 20480 4096 0 0] in
  r_key <$> collisions_of l = [ExtentKey 4 0].
Proof. vm_compute. reflexivity. Qed.

(** ** Extents nobody can read *)

(** What a pass may reclaim of a snapshot: extents of a missing inode, and the
    dead ones of a live inode. *)
Definition siblings (exts : list Extent) (e : Extent) : list Extent := filter (λ f, extent_ino f = extent_ino e) exts.
Definition unreadable (inodes : gmap Z InodeRecord) (exts : list Extent) (e : Extent) : Prop :=
  match inodes !! extent_ino e with
  | None => True
  | Some rec => deadReason e (Size rec) (siblings exts e) = true
  end.

Lemma by_ino_lookup exts i : default [] (by_ino exts !! i) = filter (λ f, extent_ino f = i) exts.
Proof.
  unfold by_ino. induction exts as [|e l IH] using rev_ind; [done|]. rewrite foldl_app. simpl.
  rewrite filter_app, filter_cons, filter_nil. case_decide as Hi.
  - subst i. rewrite lookup_insert_eq. simpl. by rewrite IH.
  - rewrite lookup_insert_ne by done. by rewrite IH, app_nil_r.
Qed.

Definition result_of (r : Result) (e : Extent) : Prop :=
  r_key r = Key e ∧ r_modRev r = ModRevision e ∧ r_diskOff r = DiskOff e ∧ r_length r = Length e ∧
  r_ino r = extent_ino e ∧ r_autoFix r = true.

Lemma orphans_spec snap r :
  r ∈ CheckOrphanExtents snap →
  ∃ e, e ∈ sn_extents snap ∧ result_of r e ∧ unreadable (sn_inodes snap) (sn_extents snap) e.
Proof.
  intros (e & He & Hr)%list_elem_of_omap. exists e. cbn beta in Hr. unfold unreadable. destruct (sn_inodes snap !! extent_ino e); [done|].
  by injection Hr as <-.
Qed.

Lemma dead_spec `{MapOrder} snap r :
  r ∈ CheckDeadExtents snap →
  ∃ e, e ∈ sn_extents snap ∧ result_of r e ∧ unreadable (sn_inodes snap) (sn_extents snap) e.
Proof.
  intros ([ino exts] & Hr & Hv)%list_elem_of_bind. rewrite visit_perm, elem_of_map_to_list in Hv.
  pose proof (by_ino_lookup (sn_extents snap) ino) as Hb. rewrite Hv in Hb. simpl in Hb. subst exts.
  destruct (sn_inodes snap !! ino) as [rec|] eqn:Ei; [|by apply elem_of_nil in Hr].
  apply list_elem_of_omap in Hr as (e & He & Hr). apply list_elem_of_filter in He as [<- He].
  exists e. cbn beta in Hr. unfold unreadable. rewrite Ei.
  destruct (deadReason e (Size rec) _) eqn:Ed; [|done]. by injection Hr as <-.
Qed.

(** What a removal of dead extents leaves of a file. *)
Definition log_ok (e : Extent) : Prop := 0 <= LogOff e ∧ 0 <= Length e ∧ LogOff e + Length e < 2 ^ 64.

Lemma newest_not_dead l size x e :
  Forall log_ok l → newest_at l x e → x < size → deadReason e size l = false.
Proof.
  intros Hl (He & Hc & Hn) Hx. rewrite Forall_forall in Hl. unfold deadReason. unfold covers in Hc.
  apply orb_false_iff. split; [by apply Z.leb_gt; lia|].
  apply not_true_is_false. intros (f & Hf & Hs)%existsb_exists. apply list_elem_of_In in Hf.
  destruct (Hl e He) as (? & ? & ?). destruct (Hl f Hf) as (? & ? & ?).
  unfold Supersedes, End_ in Hs. rewrite !add64_small in Hs by lia. zbool.
  specialize (Hn f Hf). unfold covers in Hn. lia.
Qed.

Lemma dead_unread disk l l' size x v :
  Forall log_ok l → (∀ e, e ∈ l' → e ∈ l) → (∀ e, e ∈ l → e ∉ l' → deadReason e size l = true) → x < size →
  file_byte disk l' x v ↔ file_byte disk l x v.
Proof.
  intros Hl Hsub Hdead Hx.
  assert (∀ e, newest_at l x e → e ∈ l') as Hkeep.
  { intros e Hn. destruct (decide (e ∈ l')) as [|He]; [done|]. pose proof (newest_not_dead _ _ _ _ Hl Hn Hx) as Hd.
    rewrite Hdead in Hd; [done|apply Hn|done]. }
  assert (∀ e, newest_at l' x e ↔ newest_at l x e) as Hnew.
  { intros e. split.
    - intros (He & Hc & Hn). destruct (newest_exists l x) as (f & Hf); [by eauto|].
      split; [by apply Hsub|]. split; [done|]. intros g Hg Hgx. pose proof (Hn f (Hkeep f Hf) (proj1 (proj2 Hf))).
      destruct Hf as (_ & _ & Hf). specialize (Hf g Hg Hgx). lia.
    - intros Hn. split; [by apply Hkeep|]. destruct Hn as (? & ? & ?). split; [done|]. auto. }
  assert ((∀ e, e ∈ l' → ¬ covers e x) ↔ (∀ e, e ∈ l → ¬ covers e x)) as Hhole.
  { split; [|by auto]. intros Hno e He Hc. destruct (newest_exists l x) as (f & Hf); [by eauto|].
    by apply (Hno f (Hkeep f Hf)), Hf. }
  unfold file_byte, resolves. setoid_rewrite Hnew. by rewrite Hhole.
Qed.

(** ** Blocks given back and held back *)

(** The removals confirmed so far. *)
Definition confirms (del : list bytes) (q : req) : resp q → list bytes :=
  match q return resp q → list bytes with
  | QTxn _ [OpDelete k false] _ => λ r, match r with Some t => if succeeded t then del ++ [k] else del | None => del end
  | _ => λ _, del
  end.

Section accounting.
Set Default Proof Using "Type".
Context {R : Type} `{Reclaimer R}.

(** The only change a pass asks for: one extent it found, of an arena this node
    owns, removed if it is still at the revision the scan read. *)
Definition pass_allows (rc : R) (rs : list Result) (del : list bytes) (q : req) : Prop :=
  match q with
  | QTxn ifs ts es =>
    es = [] ∧ ∃ r, r ∈ rs ∧ r_autoFix r = true ∧ Reclaim_Owns rc (r_diskOff r) = true ∧
      ts = [OpDelete (r_key r) false] ∧ mod_is (r_key r) (r_modRev r) ∈ ifs
  | QPut _ _ _ | QDelete _ _ => False
  | _ => True
  end.

Abbreviation obey rc rs := (obeys (pass_allows rc rs) confirms).

Lemma obey_Txn rc rs del st r (Q : list bytes → result bool → Prop) :
  r ∈ rs → r_autoFix r = true → Reclaim_Owns rc (r_diskOff r) = true →
  (∀ e, Q del (Err e)) → Q del (Ok false) → Q (del ++ [r_key r]) (Ok true) →
  obey rc rs del (Txn st [mod_is (r_key r) (r_modRev r)] [OpDelete (r_key r) false] []) Q.
Proof.
  intros Hr Ha Ho He Hf Ht.
  assert (∀ ifs, mod_is (r_key r) (r_modRev r) ∈ ifs → pass_allows rc rs del (QTxn ifs [OpDelete (r_key r) false] [])) as Hok.
  { intros ifs Hin. split; [done|]. by exists r. }
  unfold Txn, TxnRev, TxnResponse, txnRawResponse, ebind. destruct (guard st) as [[g|]|]; cbn [bind call obeys]; [|done|].
  - split; [apply Hok; right; left|]. intros [t|]; cbn [bind obeys confirms]; [|done].
    destruct (succeeded t) eqn:Et; cbn [negb bind obeys fst]; rewrite ?Et; [done|].
    apply obeys_bind, obeys_bind, obeys_bind, (obeys_idle _ _ read_only).
    + intros q Hq. destruct q; try done.
    + apply issues_guardFailed. done.
    + intros [[]|]; cbn [obeys fst]; rewrite ?Et; done.
  - split; [apply Hok; left|]. intros [t|]; cbn [bind obeys confirms fst]; [|done]. destruct (succeeded t); done.
Qed.

Definition range_of (r : Result) : heldRange := mkHeld (r_ino r) (r_diskOff r) (r_length r).
Definition free_all (rc : R) (hs : list heldRange) : R :=
  foldl (λ rc h, Reclaim_Free rc (h_diskOff h) (h_length h)) rc hs.
Definition ranges_of (rs : list Result) : list heldRange := range_of <$> filter (λ r, 0 < r_length r) rs.

(** The lock cache answered, at a question from [n] on, that nothing here holds
    the inode. *)
Definition quiet_since (s : Scrubber R) (n : nat) (h : heldRange) : Prop :=
  ∃ i, (n <= i)%nat ∧ match locks s with None => True | Some f => f i (h_ino h) = false end.

Lemma Owns_free_all rc hs d : Reclaim_Owns (free_all rc hs) d = Reclaim_Owns rc d.
Proof.
  unfold free_all. revert rc. induction hs as [|h hs IH]; intros rc; [done|]. simpl. by rewrite IH, Reclaim_Owns_Free.
Qed.

Lemma lockedHere_spec ino (s : Scrubber R) :
  let '(busy, s') := lockedHere ino s in
  reclaimer s' = reclaimer s ∧ locks s' = locks s ∧ heldRanges s' = heldRanges s ∧ (asked s <= asked s')%nat ∧
  (busy = false → ∃ i, (asked s <= i)%nat ∧ match locks s with None => True | Some f => f i ino = false end).
Proof.
  unfold lockedHere. destruct (locks s) as [f|] eqn:El; cbn; rewrite ?El.
  - repeat (split; [done || lia|]). intros Hb. by exists (asked s).
  - repeat (split; [done || lia|]). intros _. by exists (asked s).
Qed.

(** What a run of the loop from [s], with [del] removed before it, owes. *)
Definition accounts (rc : R) (s : Scrubber R) (del : list bytes) (rs : list Result) (del' : list bytes) (s' : Scrubber R) : Prop :=
  ∃ confirmed freed back,
    sublist confirmed rs ∧ del' = del ++ (r_key <$> confirmed) ∧
    reclaimer s' = Some (free_all rc freed) ∧ heldRanges s' = heldRanges s ++ back ∧
    freed ++ back ≡ₚ ranges_of confirmed ∧ (∀ h, h ∈ freed → quiet_since s (asked s) h).

Lemma reclaim_accounts rc0 rs0 st rs rc s del :
  reclaimer s = Some rc → (∀ d, Reclaim_Owns rc d = Reclaim_Owns rc0 d) → (∀ r, r ∈ rs → r ∈ rs0) →
  obey rc0 rs0 del (reclaim_loop st rs s) (accounts rc s del rs).
Proof.
  revert rc s del. induction rs as [|r rs IH]; intros rc s del Hrc Hown Hin.
  { exists [], [], []. rewrite !app_nil_r. split; [constructor|]. repeat (split; [done|]). by intros h ?%elem_of_nil. }
  assert (∀ s1, reclaimer s1 = Some rc → locks s1 = locks s → heldRanges s1 = heldRanges s → (asked s <= asked s1)%nat →
    obey rc0 rs0 del (reclaim_loop st rs s1) (accounts rc s del (r :: rs))) as Hskip.
  { intros s1 E1 E2 E3 E4. eapply obeys_mono; [|apply (IH rc s1 del); [done|done|intros; apply Hin; by right]].
    intros del' s' (conf & fr & bk & K1 & K2 & K3 & K4 & K5 & K6). exists conf, fr, bk.
    split; [by apply sublist_cons|]. rewrite <- E3. repeat (split; [done|]).
    intros h (i & Hi & Hq)%K6. exists i. rewrite <- E2. split; [lia|done]. }
  cbn [reclaim_loop]. destruct (r_autoFix r) eqn:Ea; cbn [negb]; [|by apply Hskip]. rewrite Hrc, Hown.
  destruct (Reclaim_Owns rc0 (r_diskOff r)) eqn:Eo; cbn [negb]; [|by apply Hskip].
  pose proof (lockedHere_spec (r_ino r) s) as Hl. destruct (lockedHere (r_ino r) s) as [busy s1].
  destruct Hl as (L1 & L2 & L3 & L4 & _). rewrite Hrc in L1. destruct busy; [by apply Hskip|].
  apply obeys_bind, obey_Txn; [apply Hin; left|done|done|intros e; by apply Hskip|by apply Hskip|].
  assert (∀ rc' s2 fr0 bk0, reclaimer s2 = Some rc' → rc' = free_all rc fr0 → locks s2 = locks s →
    heldRanges s2 = heldRanges s ++ bk0 → (asked s <= asked s2)%nat → fr0 ++ bk0 ≡ₚ ranges_of [r] →
    (∀ h, h ∈ fr0 → quiet_since s (asked s) h) →
    obey rc0 rs0 (del ++ [r_key r]) (reclaim_loop st rs s2) (accounts rc s del (r :: rs))) as Hstep.
  { intros rc' s2 fr0 bk0 E1 -> E2 E3 E4 Hp Hq.
    eapply obeys_mono; [|apply (IH (free_all rc fr0) s2); [done|intros d; by rewrite Owns_free_all|intros; apply Hin; by right]].
    intros del' s' (conf & fr & bk & K1 & -> & K3 & K4 & K5 & K6). exists (r :: conf), (fr0 ++ fr), (bk0 ++ bk).
    split; [by apply sublist_skip|]. split; [by rewrite <- app_assoc|].
    split; [by rewrite K3; unfold free_all; rewrite foldl_app|]. split; [by rewrite K4, E3, app_assoc|]. split.
    - assert (ranges_of (r :: conf) = ranges_of [r] ++ ranges_of conf) as ->.
      { unfold ranges_of. by rewrite <- fmap_app, <- filter_app. }
      rewrite <- Hp, <- K5. solve_Permutation.
    - intros h [Hh|Hh]%elem_of_app; [by apply Hq|]. destruct (K6 h Hh) as (i & Hi & Hf). exists i. rewrite <- E2. split; [lia|done]. }
  destruct (Z.ltb_spec 0 (r_length r)) as [Hlen|Hlen].
  - unfold freeOrHold. pose proof (lockedHere_spec (r_ino r) s1) as Hl. destruct (lockedHere (r_ino r) s1) as [busy s2].
    destruct Hl as (M1 & M2 & M3 & M4 & M5). assert (ranges_of [r] = [range_of r]) as Hr1.
    { unfold ranges_of. by rewrite filter_cons_True by done. }
    destruct busy.
    + apply (Hstep rc (set_held _ s2) [] [range_of r]); cbn [set_held free_range set_reclaimer reclaimer locks heldRanges asked app free_all foldl range_of h_diskOff h_length];
        rewrite ?Hr1; try (done || congruence || lia); [by rewrite M3, L3|]. by intros h ?%elem_of_nil.
    + apply (Hstep (Reclaim_Free rc (r_diskOff r) (r_length r)) (free_range rc (r_diskOff r) (r_length r) s2) [range_of r] []); cbn [set_held free_range set_reclaimer reclaimer locks heldRanges asked app free_all foldl range_of h_diskOff h_length];
        rewrite ?Hr1, ?app_nil_r; try (done || congruence || lia).
      intros h ->%list_elem_of_singleton. destruct (M5 eq_refl) as (i & Hi & Hf). exists i. rewrite <- L2. split; [lia|done].
  - apply (Hstep rc s1 [] []); try done; [by rewrite app_nil_r| |by intros h ?%elem_of_nil].
    unfold ranges_of. by rewrite filter_cons_False by lia.
Qed.

(** The ranges an earlier pass held back are freed or stay held. *)
Lemma release_loop_spec hs rc still s :
  let '(rc', still', s') := release_loop hs rc still s in
  reclaimer s' = reclaimer s ∧ locks s' = locks s ∧ heldRanges s' = heldRanges s ∧
  ∃ freed kept_, rc' = free_all rc freed ∧ still' = still ++ kept_ ∧ freed ++ kept_ ≡ₚ hs ∧
    ∀ h, h ∈ freed → quiet_since s (asked s) h.
Proof.
  revert rc still s. induction hs as [|h hs IH]; intros rc still s; cbn [release_loop].
  { repeat (split; [done|]). exists [], []. rewrite app_nil_r. repeat (split; [done|]). by intros h ?%elem_of_nil. }
  pose proof (lockedHere_spec (h_ino h) s) as Hl. destruct (lockedHere (h_ino h) s) as [busy s1].
  destruct Hl as (L1 & L2 & L3 & L4 & L5).
  assert (∀ h, quiet_since s1 (asked s1) h → quiet_since s (asked s) h) as Hq.
  { intros h' (i & Hi & Hf). exists i. rewrite <- L2. split; [lia|done]. }
  destruct busy.
  - specialize (IH rc (still ++ [h]) s1). destruct (release_loop hs rc (still ++ [h]) s1) as [[rc' still'] s'].
    destruct IH as (K1 & K2 & K3 & fr & kp & -> & -> & Hp & Hf). do 3 (split; [congruence|]).
    exists fr, (h :: kp). split; [done|]. split; [by rewrite <- app_assoc|]. split; [|by auto]. rewrite <- Hp. solve_Permutation.
  - specialize (IH (Reclaim_Free rc (h_diskOff h) (h_length h)) still s1).
    destruct (release_loop hs _ still s1) as [[rc' still'] s'].
    destruct IH as (K1 & K2 & K3 & fr & kp & -> & -> & Hp & Hf). do 3 (split; [congruence|]).
    exists (h :: fr), kp. split; [done|]. split; [done|]. split; [by rewrite <- Hp|].
    intros h' [->|Hh]%elem_of_cons; [by destruct (L5 eq_refl) as (i & Hi & ?); exists i|by auto].
Qed.

End accounting.

(** An inode busy at the second question: its extent is removed, its blocks are
    held back. *)
Definition sc_snap : Snapshot :=
  mkSnapshot [sc_ext 3 0 0 4096 0 0; sc_ext 4 0 8192 4096 0 0] ∅ ∅ ∅ ∅.
Definition sc_scrubber : Scrubber Allocator :=
  mkScrubber 0 (Some (mkAllocator [markAllocated (markAllocated (new_arena 0) 0) 2] 0 0))
    (Some (λ n ino, (n =? 1)%nat && (ino =? 3))) 0 0 [] 0 [].


Example held_back :
  let s := (@run ref_etcd _ (reclaim_loop (mkStore (lit "n1") false None) (CheckOrphanExtents sc_snap) sc_scrubber)
             (RefSrv (MVCC 9 {[ ExtentKey 3 0 := KV [] 7 7 0; ExtentKey 4 0 := KV [] 7 7 0 ]} ∅) 0)).2 in
  heldRanges s = [mkHeld 3 0 4096] ∧
  (λ a, (λ ar, isFree ar <$> [0; 2]) <$> arenas a) <$> reclaimer s = Some [[false; true]].
Proof. vm_compute. split; reflexivity. Qed.

(** ** The list of anomalies *)

Lemma record_ones_spec rs seen l :
  (∀ i, i ∈ seen ↔ i ∈ map anomaly_id l) → NoDup (map anomaly_id l) →
  let l' := (foldl record_one (seen, l) rs).2 in
  NoDup (map anomaly_id l') ∧ (∃ new, l' = l ++ new ∧ ∀ r, r ∈ new → r ∈ rs) ∧
  ∀ r, r ∈ rs → anomaly_id r ∈ map anomaly_id l'.
Proof.
  revert seen l. induction rs as [|r rs IH]; intros seen l Hs Hn; cbn [foldl record_one].
  { split; [done|]. split; [exists []; rewrite app_nil_r; split; [done|by intros r ?%elem_of_nil]|by intros r ?%elem_of_nil]. }
  case_bool_decide as Hr.
  - destruct (IH seen l Hs Hn) as (K1 & (new & E & K2) & K3). rewrite E in *. split; [done|].
    split; [exists new; split; [done|]; intros; right; auto|].
    intros r' [->|?]%elem_of_cons; [|by auto]. rewrite map_app, elem_of_app. left. by apply Hs.
  - destruct (IH ({[anomaly_id r]} ∪ seen) (l ++ [r])) as (K1 & (new & E & K2) & K3).
    + intros i. rewrite map_app, elem_of_union, elem_of_singleton, elem_of_app, Hs. simpl. rewrite list_elem_of_singleton. tauto.
    + rewrite map_app. apply NoDup_app. split; [done|]. split; [|by apply NoDup_singleton].
      intros x Hx ->%list_elem_of_singleton. by apply Hr, Hs.
    + rewrite E in *. split; [done|]. split.
      * exists (r :: new). rewrite <- app_assoc. split; [done|]. intros r' [->|?]%elem_of_cons; [left|right; auto].
      * intros r' [->|?]%elem_of_cons; [|by auto]. rewrite <- app_assoc, !map_app, !elem_of_app. right. left. simpl. left.
Qed.

Lemma record_ones_length rs seen l : (length (foldl record_one (seen, l) rs).2 <= length l + length rs)%nat.
Proof.
  revert seen l. induction rs as [|r rs IH]; intros seen l; cbn [foldl record_one]; [simpl; lia|]. case_bool_decide.
  - specialize (IH seen l). simpl. lia.
  - specialize (IH ({[anomaly_id r]} ∪ seen) (l ++ [r])). rewrite length_app in IH. simpl in *. lia.
Qed.

(** The list of anomalies keeps at most [maxAnomalies] findings, one per type and
    key, whatever the passes found, and every finding of a pass is in it as long
    as they all fit. *)
Theorem anomalies_bounded {R} (s : Scrubber R) passes (Hn : NoDup (map anomaly_id (anomalies s))) :
  let l := anomalies (record passes s) in
  NoDup (map anomaly_id l) ∧ (length l <= maxAnomalies)%nat ∧
  ((length (anomalies s) + length (concat passes) <= maxAnomalies)%nat →
   ∀ r, r ∈ concat passes → anomaly_id r ∈ map anomaly_id l).
Proof.
  unfold record. cbn [anomalies set_anomalies].
  destruct (record_ones_spec (concat passes) (list_to_set (map anomaly_id (anomalies s))) (anomalies s)) as (K1 & K2 & K3);
    [intros i; by rewrite elem_of_list_to_set|done|].
  set (l := (foldl record_one _ _).2) in *. split; [|split].
  - eapply sublist_NoDup; [exact K1|]. apply fmap_sublist, sublist_drop.
  - rewrite length_drop. lia.
  - intros Hfit r Hr. pose proof (record_ones_length (concat passes)
      (list_to_set (map anomaly_id (anomalies s))) (anomalies s)) as Hl. fold l in Hl.
    replace (length l - maxAnomalies)%nat with 0%nat by lia. rewrite drop_0. by apply K3.
Qed.
