(* ===== verification/ScrubFiles.v ===== *)
(** * Scrubbers leave every file alone

    Any number of scrubbers, each making any number of passes, interleaved
    request by request and with replies lost: the inodes stay, and a byte below
    a file's size stays the byte it was. *)

From S2P Require Import Prelude Etcd EtcdFacts Schema SchemaProps Store StoreLogic Extents ExtentProps Allocator Service DataPath ReadProps ReplayProps Scrub ScrubProps.

(** ** The records of a store *)

Definition all_extents (m : mvcc) : list Extent := DecodeExtents (range_kvs (RPrefix PrefixExtent) m).
Definition all_inodes (m : mvcc) : gmap Z InodeRecord := scan_inodes (range_kvs (RPrefix PrefixInode) m).
Definition inode_rec (m : mvcc) (ino : Z) : option InodeRecord :=
  e ← mkvs m !! InodeKey ino; DecodeInode (kv_val e).

(** Inode records are stored under their own number, extents under keys the
    daemon builds, and neither under a lease. *)
Record tree_ok (m : mvcc) : Prop := {
  to_inodes : ∀ k e rec, mkvs m !! k = Some e → has_prefix PrefixInode k = true → DecodeInode (kv_val e) = Some rec →
              is_u64 (Ino rec) ∧ k = InodeKey (Ino rec);
  to_extents : ∀ k e, mkvs m !! k = Some e → has_prefix PrefixExtent k = true →
               ∃ ino c, is_u64 ino ∧ is_u64 c ∧ k = ExtentKey ino c;
  to_leases : ∀ k e, mkvs m !! k = Some e → has_prefix PrefixInode k = true ∨ has_prefix PrefixExtent k = true →
              kv_lease e = 0;
  to_logs : Forall log_ok (all_extents m)
}.

Lemma elem_of_decoded kvs e :
  e ∈ DecodeExtents kvs ↔
  ∃ k r, (k, r) ∈ kvs ∧ set_ModRevision (kv_mod r) <$> DecodeExtent k (kv_val r) = Some e.
Proof.
  unfold DecodeExtents, SortExtents. rewrite merge_sort_Permutation, list_elem_of_omap. split.
  - intros ([k r] & Hin & He). by exists k, r.
  - intros (k & r & Hin & He). by exists (k, r).
Qed.

Lemma elem_of_all_extents m e :
  e ∈ all_extents m ↔
  ∃ k r, mkvs m !! k = Some r ∧ has_prefix PrefixExtent k = true ∧
         set_ModRevision (kv_mod r) <$> DecodeExtent k (kv_val r) = Some e.
Proof. unfold all_extents. rewrite elem_of_decoded. setoid_rewrite elem_of_range_prefix. naive_solver. Qed.

(** An extent carries the key it was decoded under. *)
Lemma decoded_key k v e r : set_ModRevision r <$> DecodeExtent k v = Some e → Key e = k.
Proof.
  unfold DecodeExtent. intros H. repeat (case_match; try done); by injection H as <-.
Qed.

Lemma scan_inodes_app l x :
  scan_inodes (l ++ [x]) = match DecodeInode (kv_val x.2) with Some rec => <[Ino rec := rec]> (scan_inodes l) | None => scan_inodes l end.
Proof. unfold scan_inodes. by rewrite foldl_app. Qed.

Lemma scan_inodes_elem l i rec :
  scan_inodes l !! i = Some rec → ∃ x, x ∈ l ∧ DecodeInode (kv_val x.2) = Some rec ∧ Ino rec = i.
Proof.
  induction l as [|x l IH] using rev_ind; [done|]. rewrite scan_inodes_app. intros H. setoid_rewrite elem_of_app.
  setoid_rewrite list_elem_of_singleton. destruct (DecodeInode (kv_val x.2)) as [rec'|] eqn:E; [|naive_solver].
  apply lookup_insert_Some in H as [[<- <-]|[_ H]]; naive_solver.
Qed.

Lemma scan_inodes_hit l x rec :
  x ∈ l → DecodeInode (kv_val x.2) = Some rec → is_Some (scan_inodes l !! Ino rec).
Proof.
  induction l as [|y l IH] using rev_ind; [by intros ?%elem_of_nil|]. rewrite scan_inodes_app.
  intros [Hx|<-%list_elem_of_singleton]%elem_of_app E.
  - destruct (DecodeInode (kv_val y.2)); [|by apply IH]. apply lookup_insert_is_Some'. right. by apply IH.
  - rewrite E. by rewrite lookup_insert_eq.
Qed.

Lemma all_inodes_lookup m ino : tree_ok m → is_u64 ino → all_inodes m !! ino = inode_rec m ino.
Proof.
  intros Hm Hi. unfold inode_rec, all_inodes. apply option_eq. intros rec. split.
  - intros ([k e] & Hin & Hd & <-)%scan_inodes_elem. apply elem_of_range_prefix in Hin as [Hk Hp].
    destruct (to_inodes m Hm k e rec Hk Hp Hd) as [_ ->]. by rewrite Hk.
  - destruct (mkvs m !! InodeKey ino) as [e|] eqn:Ee; [|done]. intros Hd. change (DecodeInode (kv_val e) = Some rec) in Hd.
    destruct (to_inodes m Hm _ e rec Ee) as [Hu E]; [apply has_prefix_app|done|].
    apply InodeKey_inj in E as Ei; [|apply Hi|apply Hu]. subst ino.
    destruct (scan_inodes_hit (range_kvs (RPrefix PrefixInode) m) (InodeKey (Ino rec), e) rec) as [rec' H']; [|done|].
    { apply elem_of_range_prefix. split; [done|]. apply has_prefix_app. }
    rewrite H'. apply scan_inodes_elem in H' as ([k' e'] & Hin & Hd' & Hi'). apply elem_of_range_prefix in Hin as [Hk' Hp'].
    destruct (to_inodes m Hm k' e' rec' Hk' Hp' Hd') as [_ ->]. simpl in Hd'. congruence.
Qed.

(** The extents of an inode are those of all extents with its number. *)
Lemma extents_of_all m ino e : tree_ok m → is_u64 ino → e ∈ extents_of ino m ↔ e ∈ all_extents m ∧ extent_ino e = ino.
Proof.
  intros Hm Hi. unfold extents_of, all_extents. rewrite !elem_of_decoded. setoid_rewrite elem_of_range_prefix.
  assert (∀ k r, mkvs m !! k = Some r → has_prefix PrefixExtent k = true →
    has_prefix (ExtentPrefix ino) k = true ↔ InoFromExtentKey k = ino) as Hk.
  { intros k r Hk Hp. destruct (to_extents m Hm k r Hk Hp) as (i & c & Hu & Hc & ->).
    unfold InoFromExtentKey. rewrite ParseExtentKey_ok by done. unfold ExtentPrefix, ExtentKey.
    rewrite num_prefix_isolated; [done|apply Hi|apply Hu]. }
  split.
  - intros (k & r & [Hr Hp] & He).
    assert (has_prefix PrefixExtent k = true) as Hpe.
    { apply has_prefix_true in Hp as [t ->]. unfold ExtentPrefix. rewrite <- app_assoc. apply has_prefix_app. }
    split; [by exists k, r|]. unfold extent_ino. rewrite (decoded_key _ _ _ _ He). by apply (Hk k r).
  - intros ((k & r & [Hr Hp] & He) & Hino). exists k, r. split; [|done]. split; [done|]. apply (Hk k r); [done|done|].
    unfold extent_ino in Hino. by rewrite (decoded_key _ _ _ _ He) in Hino.
Qed.

(** ** What the scrubbers keep *)

Section keep.
Set Default Proof Using "Type".
Context {R : Type} `{Reclaimer R} `{MapOrder}.
Context (m0 : mvcc) (Hm0 : tree_ok m0).

(** A key whose extent nobody can read. *)
Definition waste (k : bytes) : Prop :=
  ∃ e, e ∈ all_extents m0 ∧ Key e = k ∧ unreadable (all_inodes m0) (all_extents m0) e.

Definition kept (m : mvcc) : Prop :=
  (∀ k, has_prefix PrefixInode k = true → mkvs m !! k = mkvs m0 !! k) ∧
  (∀ k, has_prefix PrefixExtent k = true → mkvs m !! k = mkvs m0 !! k ∨ (mkvs m !! k = None ∧ waste k)).

Definition kept_rel (σ σ' : mvcc * unit) : Prop := kept σ.1 → kept σ'.1.
#[export] Instance kept_rel_preorder : PreOrder kept_rel.
Proof. split; [by intros σ Hk|]. intros σ1 σ2 σ3 H12 H23 Hk. by apply H23, H12. Qed.

Lemma kept_tree m : kept m → tree_ok m.
Proof using Hm0.
  intros [Hi He].
  assert (∀ k e, has_prefix PrefixExtent k = true → mkvs m !! k = Some e → mkvs m0 !! k = Some e) as Hx.
  { intros k e Hp Hk. destruct (He k Hp) as [E|[E _]]; congruence. }
  split.
  - intros k e rec Hk Hp. rewrite (Hi k Hp) in Hk. by apply (to_inodes m0 Hm0).
  - intros k e Hk Hp. by apply (to_extents m0 Hm0 k e); [apply Hx|].
  - intros k e Hk [Hp|Hp]; (eapply (to_leases m0 Hm0 k e); [|by auto]); [by rewrite <- (Hi k Hp)|by apply Hx].
  - rewrite Forall_forall. intros e (k & r & Hk & Hp & Hd)%elem_of_all_extents.
    eapply Forall_forall; [apply (to_logs m0 Hm0)|]. apply elem_of_all_extents. exists k, r. split; [by apply Hx|done].
Qed.

Lemma kept_extents m e : kept m → e ∈ all_extents m → e ∈ all_extents m0.
Proof.
  intros [_ He] (k & r & Hk & Hp & Hd)%elem_of_all_extents. apply elem_of_all_extents. exists k, r.
  split; [|done]. destruct (He k Hp) as [E|[E _]]; congruence.
Qed.

Lemma kept_inodes m i : kept m → is_u64 i → all_inodes m !! i = all_inodes m0 !! i.
Proof using Hm0.
  intros Hm Hi. rewrite !all_inodes_lookup by (done || by apply kept_tree). unfold inode_rec.
  destruct Hm as [Hm _]. by rewrite Hm by apply has_prefix_app.
Qed.

Lemma extent_ino_u64 m e : tree_ok m → e ∈ all_extents m → is_u64 (extent_ino e).
Proof.
  intros Hm (k & r & Hk & Hp & Hd)%elem_of_all_extents. unfold extent_ino. rewrite (decoded_key _ _ _ _ Hd).
  destruct (to_extents m Hm k r Hk Hp) as (i & c & Hi & Hc & ->). unfold InoFromExtentKey. by rewrite ParseExtentKey_ok.
Qed.

Lemma unreadable_mono inodes exts exts' e :
  (∀ f, f ∈ exts → f ∈ exts') → unreadable inodes exts e → unreadable inodes exts' e.
Proof.
  intros Hsub. unfold unreadable. destruct (inodes !! extent_ino e) as [rec|]; [|done]. unfold deadReason.
  intros [->|(f & Hf & Hs)%existsb_exists]%orb_true_iff; [done|]. apply orb_true_iff. right. apply existsb_exists.
  exists f. split; [|done]. apply list_elem_of_In in Hf. apply list_elem_of_In. unfold siblings in *.
  apply list_elem_of_filter in Hf as [Hi Hf]. apply list_elem_of_filter. auto.
Qed.

(** What a snapshot read while the store was kept lists for reclaim is waste. *)
Lemma reclaimable_waste m1 m2 dirs gens r :
  kept m1 → kept m2 →
  let snap := snapshot_of (range_kvs (RPrefix PrefixExtent) m1) (range_kvs (RPrefix PrefixInode) m2) dirs gens in
  r ∈ CheckOrphanExtents snap ++ CheckDeadExtents snap → waste (r_key r).
Proof using Hm0.
  intros H1 H2 snap Hr.
  assert (∃ e, e ∈ sn_extents snap ∧ result_of r e ∧ unreadable (sn_inodes snap) (sn_extents snap) e) as (e & He & Hre & Hu).
  { apply elem_of_app in Hr as [Hr|Hr]; [by apply orphans_spec|by eapply dead_spec]. }
  revert He Hu. unfold snap, snapshot_of. destruct (scan_dirents _ _) as [refs subs]. cbn [sn_extents sn_inodes].
  intros He Hu. exists e. pose proof (kept_extents m1 e H1 He) as He0. split; [done|]. split; [symmetry; apply Hre|].
  assert (unreadable (all_inodes m2) (all_extents m0) e) as Hu0.
  { eapply unreadable_mono; [|exact Hu]. intros f. by apply kept_extents. }
  unfold unreadable in *. by rewrite kept_inodes in Hu0 by (done || by eapply extent_ino_u64).
Qed.

Lemma kept_delete m k : kept m → waste k → kept (mvcc_ops m [OpDelete k false]).1.
Proof.
  intros [Hi He] Hw.
  assert (∀ k', mkvs (mvcc_ops m [OpDelete k false]).1 !! k' = if bool_decide (k' = k) then None else mkvs m !! k') as Hl.
  { intros k'. rewrite mvcc_ops_kvs, apply_ops_cons. cbn [apply_op apply_ops fst]. rewrite del_keys_lookup.
    unfold op_touches. simpl. done. }
  split; intros k' Hp; rewrite Hl; case_bool_decide; subst; auto.
  destruct Hw as (e & (k' & r & _ & Hp' & Hd)%elem_of_all_extents & <- & _).
  rewrite (decoded_key _ _ _ _ Hd) in Hp. apply has_prefix_true in Hp' as [t ->]. done.
Qed.

Lemma kept_expire l m : kept m → kept (mvcc_expire l m).
Proof using Hm0.
  intros Hm. pose proof (kept_tree m Hm) as Ht. destruct Hm as [Hi He].
  assert (∀ k, has_prefix PrefixInode k = true ∨ has_prefix PrefixExtent k = true →
    mkvs (mvcc_expire l m) !! k = mkvs m !! k) as Hl.
  { intros k Hp. apply option_eq. intros e. rewrite mvcc_expire_lookup. split; [tauto|]. intros Hk. split; [done|].
    rewrite (to_leases m Ht k e Hk Hp). destruct (decide (l = 0)); auto. }
  split; intros k Hp; rewrite Hl by auto; auto.
Qed.

(** ** The scrubber's requests *)

Abbreviation wpk := (wp etcd_ok kept_rel kept_rel).

Lemma wpk_reclaim st rs s σ (Q : Scrubber R → mvcc * unit → Prop) :
  kept σ.1 → (∀ r, r ∈ rs → waste (r_key r)) → (∀ s' σ', kept σ'.1 → Q s' σ') → wpk (reclaim_loop st rs s) Q σ.
Proof.
  revert s σ. induction rs as [|r rs IH]; intros s σ Hk Hw HQ.
  { intros σ1 H1. by apply HQ, H1. }
  assert (∀ s' σ', kept σ'.1 → wpk (reclaim_loop st rs s') Q σ') as Hrec.
  { intros s' σ' Hk'. apply IH; [done|intros; apply Hw; by right|done]. }
  cbn [reclaim_loop]. case_if; [by apply Hrec|]. destruct (reclaimer s) as [rc|]; [|by apply Hrec].
  case_if; [by apply Hrec|]. destruct (lockedHere (r_ino r) s) as [busy s1]. destruct busy; [by apply Hrec|].
  wpb. wpr wp_Txn.
  - intros e σ1 H1. by apply Hrec, H1.
  - intros σ1 H1. by apply Hrec, H1.
  - intros σ1 H1 _. exists tt. assert (kept (mvcc_ops σ1.1 [OpDelete (r_key r) false]).1) as Hd.
    { apply kept_delete; [by apply H1|]. apply Hw. left. }
    split; [by intros _|]. intros σ3 H3. split; by apply Hrec, H3.
Qed.

Lemma wpk_pass st s σ (Q : Scrubber R → mvcc * unit → Prop) :
  kept σ.1 → (∀ s' σ', kept σ'.1 → Q s' σ') → wpk (RunScrubPass st s) Q σ.
Proof using Hm0.
  intros Hk HQ. unfold RunScrubPass. wpb. wpr wp_now. intros t σ1 H1. apply H1 in Hk as Hk1. unfold Scan.
  wpb. wpb. wpr wp_GetPrefix; [intros σ2 H2 σ3 H3 σ4 H4; by apply HQ, H4, H3, H2|].
  intros σ2 σ2' H2 H2'. wpb. wpr wp_GetPrefix; [intros σ3 H3 σ4 H4 σ5 H5; by apply HQ, H5, H4, H3, H2', H2|].
  intros σ3 σ3' H3 H3'. wpb. wpr wp_GetPrefix; [intros σ4 H4 σ5 H5 σ6 H6; by apply HQ, H6, H5, H4, H3', H3, H2', H2|].
  intros σ4 σ4' H4 H4'. wpb. wpr wp_GetPrefix; [intros σ5 H5 σ6 H6 σ7 H7; by apply HQ, H7, H6, H5, H4', H4, H3', H3, H2', H2|].
  intros σ5 σ5' H5 H5' σ6 H6. unfold repair. apply wpk_reclaim; [by apply H6, H5', H5, H4', H4, H3', H3, H2', H2| |done].
  intros r Hr. eapply reclaimable_waste; [by apply H2|by apply H3, H2', H2|exact Hr].
Qed.

Lemma wpk_passes st n s σ (Q : Scrubber R → mvcc * unit → Prop) :
  kept σ.1 → (∀ s' σ', kept σ'.1 → Q s' σ') → wpk (run_passes st n s) Q σ.
Proof using Hm0.
  revert s σ. induction n as [|n IH]; intros s σ Hk HQ; [intros σ1 H1; by apply HQ, H1|].
  cbn [run_passes]. wpb. apply wpk_pass; [done|]. intros s' σ' Hk'. by apply IH.
Qed.

(** A kept store has every file as it was. *)
Lemma kept_file m disk ino rec x v :
  kept m → is_u64 ino → inode_rec m0 ino = Some rec → x < Size rec →
  file_byte disk (extents_of ino m) x v ↔ file_byte disk (extents_of ino m0) x v.
Proof using Hm0.
  intros Hm Hi Hrec Hx. pose proof (kept_tree m Hm) as Ht. apply (dead_unread disk _ _ (Size rec)); [| | |done].
  - rewrite Forall_forall. intros e [He _]%extents_of_all; [|done..]. by eapply Forall_forall; [apply (to_logs m0 Hm0)|].
  - intros e [He Hin]%extents_of_all; [|done..]. apply extents_of_all; [done..|]. split; [by eapply kept_extents|done].
  - intros e [He Hin]%extents_of_all Hne; [|done..].
    assert (waste (Key e)) as (f & Hf & Hfk & Hu).
    { apply elem_of_all_extents in He as He'. destruct He' as (k & r & Hk & Hp & Hd).
      rewrite (decoded_key _ _ _ _ Hd). destruct Hm as [_ Hm]. destruct (Hm k Hp) as [E|[_ ?]]; [|done].
      destruct Hne. apply extents_of_all; [done..|]. split; [|done]. apply elem_of_all_extents. exists k, r. by rewrite E. }
    assert (f = e) as ->.
    { apply elem_of_all_extents in He as (k & r & Hk & _ & Hd). apply elem_of_all_extents in Hf as (k' & r' & Hk' & _ & Hd').
      rewrite (decoded_key _ _ _ _ Hd), (decoded_key _ _ _ _ Hd') in Hfk. subst k'. simplify_eq. congruence. }
    unfold unreadable in Hu. rewrite Hin, all_inodes_lookup, Hrec in Hu by done.
    unfold deadReason in *. apply orb_true_iff in Hu as [->|(g & Hg & Hs)%existsb_exists]; [done|]. apply orb_true_iff. right.
    apply existsb_exists. exists g. split; [|done]. apply list_elem_of_In in Hg. apply list_elem_of_In.
    apply list_elem_of_filter in Hg as [Hg1 Hg2]. apply extents_of_all; [done..|]. split; [done|congruence].
Qed.
End keep.

(** C22. Any number of scrubbers, each making any number of passes, interleaved
    request by request, with replies lost and leases expiring, leave every inode
    record as it was and every byte below a file's size at the device byte it
    was. *)
Theorem scrubbers_change_no_file `{E : Etcd} {R} `{Reclaimer R} `{MapOrder}
  (scrubbers : list (Store * nat * Scrubber R)) srv c' disk ino rec
  (Htree : tree_ok (eview srv)) (Hino : is_u64 ino) (Hrec : inode_rec (eview srv) ino = Some rec)
  (Hrun : rtc cstep (srv, map (λ x, run_passes x.1.1 x.1.2 x.2) scrubbers) c') :
  inode_rec (eview c'.1) ino = Some rec ∧
  ∀ x v, x < Size rec →
    file_byte disk (extents_of ino (eview c'.1)) x v ↔ file_byte disk (extents_of ino (eview srv)) x v.
Proof.
  assert (kept (eview srv) (eview srv)) as Hk0 by (split; auto).
  destruct (cluster_rely_guarantee_inv (λ _, kept_rel (eview srv)) (λ _, kept_rel (eview srv)) (λ _ _ _, True)
    (λ i j σ σ' _ HG, HG) (λ i l m g, kept_expire (eview srv) Htree l m) (λ σ, kept (eview srv) σ.1)
    (srv, map (λ x, run_passes x.1.1 x.1.2 x.2) scrubbers) c' tt) as ([] & _ & Hk); [by intros i σ σ' HG| | |done|done|].
  - intros l m g. by apply kept_expire.
  - intros i p Hp. simpl in Hp. rewrite list_lookup_fmap in Hp.
    destruct (scrubbers !! i) as [[[st n] s]|]; [|done]. injection Hp as <-. by apply wpk_passes.
  - cbn [fst] in Hk. split; [|by intros x v; apply kept_file].
    rewrite <- Hrec. unfold inode_rec. destruct Hk as [Hi _]. by rewrite Hi by apply has_prefix_app.
Qed.

(** Two nodes' scrubbers on a store with a file of one live, one overwritten and
    one cut-off extent and an orphan. *)
Definition sf_ext (log disk len seq : Z) : bytes := Encode (mkExtent [] 0 0 seq (lit "n1") log disk len 0).
Definition sf_store : mvcc :=
  (mvcc_ops empty_store
     [put (InodeKey 7) (EncodeInode (demo_rec 8192));
      put (ExtentKey 7 0) (sf_ext 0 0 8192 0); put (ExtentKey 7 1) (sf_ext 4096 16384 4096 1);
      put (ExtentKey 7 2) (sf_ext 4096 20480 4096 2); put (ExtentKey 7 3) (sf_ext 12288 24576 4096 3);
      put (ExtentKey 9 0) (sf_ext 0 28672 4096 0)]).1.
Definition sf_scrubber : Scrubber Allocator :=
  mkScrubber 0 (Some (mkAllocator [new_arena 0] 0 0)) None 0 0 [] 0 [].
Definition sf_nodes : list (Store * nat * Scrubber Allocator) :=
  [(mkStore (lit "n1") false None, 1%nat, sf_scrubber); (mkStore (lit "n2") true None, 2%nat, sf_scrubber)].
Definition sf_end : ref_srv * list (prog (Scrubber Allocator)) :=
  foldl (@cexec ref_etcd _)
    (RefSrv sf_store 0, map (λ x, @run_passes _ _ sorted_visit x.1.1 x.1.2 x.2) sf_nodes)
    (concat (replicate 12 [Step 0; Step 1])).

Example sf_reclaims : Key <$> all_extents (rs_store sf_end.1) = [ExtentKey 7 0; ExtentKey 7 2].
Proof. vm_compute. reflexivity. Qed.

Lemma sf_keys k e : mkvs sf_store !! k = Some e →
  (k = InodeKey 7 ∧ kv_val e = EncodeInode (demo_rec 8192) ∨ ∃ i c, (i = 7 ∨ i = 9) ∧ 0 <= c < 4 ∧ k = ExtentKey i c) ∧ kv_lease e = 0.
Proof.
  intros Hk%elem_of_map_to_list.
  assert (Forall (λ x : bytes * kv, ((x.1 = InodeKey 7 ∧ kv_val x.2 = EncodeInode (demo_rec 8192)) ∨
    x.1 ∈ [ExtentKey 7 0; ExtentKey 7 1; ExtentKey 7 2; ExtentKey 7 3; ExtentKey 9 0]) ∧ kv_lease x.2 = 0)
    (map_to_list (mkvs sf_store))) as Hf.
  { apply (bool_decide_unpack _). vm_compute. exact I. }
  rewrite Forall_forall in Hf. apply Hf in Hk as [[Hk|Hk] Hl]; (split; [|done]); [by left|right].
  cbn [fst] in Hk. rewrite !elem_of_cons, elem_of_nil in Hk.
  destruct Hk as [->|[->|[->|[->|[->|[]]]]]];
    [exists 7, 0|exists 7, 1|exists 7, 2|exists 7, 3|exists 9, 0]; (split; [lia|]); (split; [lia|done]).
Qed.

Lemma sf_tree : tree_ok sf_store.
Proof.
  split.
  - intros k e rec [[[-> Hv]|(i & c & Hi & Hc & ->)] _]%sf_keys Hp Hd; [|vm_compute in Hp; done].
    rewrite Hv in Hd. vm_compute in Hd. injection Hd as <-. split; [unfold is_u64; cbn; lia|vm_compute; reflexivity].
  - intros k e [[[-> Hv]|(i & c & Hi & Hc & ->)] _]%sf_keys Hp; [vm_compute in Hp; done|].
    exists i, c. unfold is_u64. split; [lia|]. split; [lia|done].
  - by intros k e [_ ?]%sf_keys _.
  - apply (bool_decide_unpack _). vm_compute. exact I.
Qed.

Lemma scrubbers_change_no_file_witness :
  inode_rec (@eview ref_etcd sf_end.1) 7 = inode_rec (@eview ref_etcd (RefSrv sf_store 0)) 7 ∧
  (file_byte ref_disk (extents_of 7 (@eview ref_etcd sf_end.1)) 4096 (ref_disk 20480) ↔
   file_byte ref_disk (extents_of 7 (@eview ref_etcd (RefSrv sf_store 0))) 4096 (ref_disk 20480)).
Proof.
  destruct (inode_rec (@eview ref_etcd (RefSrv sf_store 0)) 7) as [rec|] eqn:Er; [|vm_compute in Er; discriminate].
  destruct (@scrubbers_change_no_file ref_etcd Allocator _ sorted_visit sf_nodes (RefSrv sf_store 0) sf_end ref_disk 7 rec)
    as [H1 H2].
  - exact sf_tree.
  - unfold is_u64. lia.
  - exact Er.
  - apply cexec_steps.
  - split; [exact H1|]. apply H2. vm_compute in Er. injection Er as <-. vm_compute. reflexivity.
Defined.

(** A pass frees a block that is still published.  A short write has left the
    extent at block 2 as a head of 100 bytes and a tail, both in that block; a
    peer then overwrites the head's bytes.  The head is dead, its blocks are
    given back, and block 2 is the tail's first block. *)
Definition sd_store : mvcc :=
  (mvcc_ops empty_store
     [put (InodeKey 7) (EncodeInode (demo_rec 8192));
      put (ExtentKey 7 0) (sf_ext 0 8192 100 0); put (ExtentKey 7 1) (sf_ext 100 0 100 1);
      put (ExtentKey 7 2) (sf_ext 0 8192 8192 0);
      put (ExtentKey 7 3) (Encode (mkExtent [] 0 0 2 (lit "n2") 0 ArenaSizeBytes 100 0))]).1.
Definition sd_scrubber : Scrubber Allocator :=
  mkScrubber 0 (Some (mkAllocator [foldl markAllocated (new_arena 0) [0; 2; 3]] 0 0)) None 0 0 [] 0 [].

Theorem scrub_frees_live_block :
  let '(srv, s) := @run ref_etcd _ (@RunScrubPass _ _ sorted_visit (mkStore (lit "n1") false None) sd_scrubber) (RefSrv sd_store 0) in
  (ExtentKey 7 2, 8192) ∈ (λ e, (Key e, DiskOff e)) <$> all_extents (rs_store srv) ∧
  (λ a, (λ ar, isFree ar <$> [0; 2; 3]) <$> arenas a) <$> reclaimer s = Some [[false; true; false]].
Proof. vm_compute. split; [repeat constructor|reflexivity]. Qed.
