(* ===== verification/ScrubLinks.v ===== *)
(** * The link-count checks

    The scrubber counts names by one pass over the directory entries.  On a store
    that holds what the daemon writes, what it reports is exactly where a link
    count differs from the names the store has, and where an inode has none. *)

From S2P Require Import Prelude Etcd EtcdFacts Schema SchemaProps Store StoreLogic Locks Extents ExtentProps Allocator InodeTimes Dirents LinkCounts Service DataPath ReadProps ReplayProps Scrub ScrubProps ScrubFiles.

(** What a pass reads from a store nobody changes. *)
Definition store_snapshot (m : mvcc) : Snapshot :=
  snapshot_of (range_kvs (RPrefix PrefixExtent) m) (range_kvs (RPrefix PrefixInode) m)
    (range_kvs (RPrefix PrefixDirent) m) (range_kvs (RPrefix PrefixGen) m).

(** The directory entries of [p] that lead to a directory. *)
Definition subdir_entry (m : mvcc) (p : Z) (x : bytes * kv) : bool :=
  match ParseDirentKey x.1, inode_rec m (DecodeUint64 (kv_val x.2)) with
  | Some (parent, _), Some rec => bool_decide (parent = p) && is_dir rec
  | _, _ => false
  end.
Definition subdirs (m : mvcc) (p : Z) : gset bytes :=
  dom (filter (λ x : bytes * kv, has_prefix PrefixDirent x.1 = true ∧ subdir_entry m p x = true) (mkvs m)).

(** ** Counting *)

Lemma wrap32_succ n : wrap32 (wrap32 n + 1) = wrap32 (n + 1).
Proof. unfold wrap32. by rewrite Zplus_mod_idemp_l. Qed.

Lemma incr32_lookup k m i :
  default 0 (incr32 k m !! i) = if decide (k = i) then wrap32 (default 0 (m !! i) + 1) else default 0 (m !! i).
Proof.
  unfold incr32. case_decide as Hk; [subst; by rewrite lookup_insert_eq|by rewrite lookup_insert_ne].
Qed.

(** A counter bumped for every element of a list that selects it. *)
Lemma count_incr {A} (f : A → option Z) (l : list A) (m : gmap Z Z) i :
  m = foldl (λ m x, match f x with Some k => incr32 k m | None => m end) ∅ l →
  default 0 (m !! i) = wrap32 (Z.of_nat (length (filter (λ x, f x = Some i) l))).
Proof.
  intros ->. induction l as [|x l IH] using rev_ind; [done|].
  rewrite foldl_app, filter_app, length_app, Nat2Z.inj_add. cbn [foldl]. rewrite filter_cons, filter_nil.
  destruct (f x) as [k|]; [|case_decide; [done|]; cbn [length]; by rewrite Z.add_0_r].
  rewrite incr32_lookup, IH. case_decide as Hk; case_decide; try congruence; cbn [length]; [apply wrap32_succ|].
  by rewrite Z.add_0_r.
Qed.

Lemma scan_dirents_counts inodes l :
  scan_dirents inodes l =
  (foldl (λ m x, match Some (DecodeUint64 (kv_val x.2)) with Some k => incr32 k m | None => m end) ∅ l,
   foldl (λ m x, match (match ParseDirentKey x.1, inodes !! DecodeUint64 (kv_val x.2) with
                        | Some (parent, _), Some rec => if is_dir rec then Some parent else None
                        | _, _ => None end) with Some k => incr32 k m | None => m end) ∅ l).
Proof.
  unfold scan_dirents. induction l as [|x l IH] using rev_ind; [done|]. rewrite !foldl_app, IH. cbn [foldl].
  f_equal. unfold is_dir. destruct (ParseDirentKey x.1) as [[p n]|]; [|done].
  destruct (inodes !! DecodeUint64 (kv_val x.2)) as [rec|]; [|done]. by case_if.
Qed.

(** Keys of a prefix scan that satisfy a predicate, counted as a list and as a
    set. *)
Lemma count_keys m p (P : bytes * kv → Prop) `{∀ x, Decision (P x)} :
  size (dom (filter (λ x : bytes * kv, has_prefix p x.1 = true ∧ P x) (mkvs m)) : gset bytes) =
  length (filter P (range_kvs (RPrefix p) m)).
Proof.
  assert (NoDup (filter P (range_kvs (RPrefix p) m)).*1) as Hn.
  { eapply (sublist_NoDup _ (range_kvs (RPrefix p) m).*1); [|apply fmap_sublist, sublist_filter].
    simpl. unfold range_all. rewrite merge_sort_Permutation. eapply sublist_NoDup; [apply (NoDup_fst_map_to_list (mkvs m))|].
    apply fmap_sublist, sublist_filter. }
  rewrite <- (length_fmap fst), <- (size_list_to_set (C := gset bytes) _ Hn). f_equal.
  apply set_eq. intros k. rewrite elem_of_dom, elem_of_list_to_set, list_elem_of_fmap. split.
  - intros [e [Hk [Hp HP]]%map_lookup_filter_Some]. exists (k, e). split; [done|].
    apply list_elem_of_filter. split; [done|]. by apply elem_of_range_prefix.
  - intros ([k' e] & -> & [HP Hk]%list_elem_of_filter). apply elem_of_range_prefix in Hk as [Hk Hp].
    exists e. by apply map_lookup_filter_Some.
Qed.

Lemma filter_iff_in {A} (P Q : A → Prop) `{∀ x, Decision (P x), ∀ x, Decision (Q x)} (l : list A) :
  (∀ x, x ∈ l → P x ↔ Q x) → filter P l = filter Q l.
Proof.
  induction l as [|x l IH]; intros Hl; [done|]. rewrite !filter_cons, IH by (intros; apply Hl; by right).
  specialize (Hl x (list_elem_of_here _ _)). do 2 case_decide; naive_solver.
Qed.

Section links.
Set Default Proof Using "Type".
Context (m : mvcc) (Htree : tree_ok m) (Hdir : dirents_ok m).

Lemma scan_dirent_value x : x ∈ range_kvs (RPrefix PrefixDirent) m → ∃ i, is_u64 i ∧ kv_val x.2 = EncodeUint64 i.
Proof using Hdir.
  destruct x as [k e]. intros [Hk Hp]%elem_of_range_prefix.
  destruct (Hdir k (kv_val e) (kv_lease e)) as (i & Hi & Hv & _); [|done|by exists i].
  unfold val_at. by rewrite Hk.
Qed.

Lemma direntRefs_count i : is_u64 i → default 0 (sn_direntRefs (store_snapshot m) !! i) = wrap32 (Z.of_nat (size (names m i))).
Proof using Hdir.
  intros Hi. unfold store_snapshot, snapshot_of. rewrite scan_dirents_counts. cbn [sn_direntRefs].
  rewrite (count_incr (λ x, Some (DecodeUint64 (kv_val x.2))) _ _ i eq_refl). do 2 f_equal. symmetry.
  unfold names. rewrite count_keys. f_equal. apply filter_iff_in. intros x Hx.
  destruct (scan_dirent_value x Hx) as (j & Hj & ->). rewrite DecodeUint64_EncodeUint64 by done. split.
  - intros E%(f_equal DecodeUint64). rewrite !DecodeUint64_EncodeUint64 in E by done. by f_equal.
  - by intros [= ->].
Qed.

Lemma subdirRefs_count i : default 0 (sn_subdirRefs (store_snapshot m) !! i) = wrap32 (Z.of_nat (size (subdirs m i))).
Proof using Hdir Htree.
  unfold store_snapshot, snapshot_of. rewrite scan_dirents_counts. cbn [sn_subdirRefs].
  rewrite (count_incr _ _ _ i eq_refl). do 2 f_equal. symmetry.
  unfold subdirs. rewrite (count_keys m PrefixDirent (λ x, subdir_entry m i x = true)). f_equal. apply filter_iff_in. intros x Hx.
  destruct (scan_dirent_value x Hx) as (j & Hj & Hv). unfold subdir_entry.
  change (scan_inodes (range_kvs (RPrefix PrefixInode) m)) with (all_inodes m).
  rewrite Hv, DecodeUint64_EncodeUint64, all_inodes_lookup by done.
  destruct (ParseDirentKey x.1) as [[p n]|]; [|done]. destruct (inode_rec m j) as [rec|]; [|done].
  destruct (is_dir rec); [|by rewrite andb_false_r]. rewrite andb_true_r, bool_decide_eq_true. naive_solver.
Qed.

Lemma elem_of_checked `{MapOrder} (f : Z * InodeRecord → option Result) ino :
  (∀ i rec r, f (i, rec) = Some r → r_key r = InodeKey i) → is_u64 ino →
  InodeKey ino ∈ r_key <$> omap f (visit (all_inodes m)) ↔ ∃ rec, inode_rec m ino = Some rec ∧ is_Some (f (ino, rec)).
Proof using Htree.
  intros Hf Hi. rewrite list_elem_of_fmap. split.
  - intros (r & Hk & Hr). apply list_elem_of_omap in Hr as ([i rec] & Hin & Hfr). rewrite visit_perm, elem_of_map_to_list in Hin.
    rewrite (Hf _ _ _ Hfr) in Hk. apply scan_inodes_elem in Hin as ([k e] & Hke & Hd & <-).
    apply elem_of_range_prefix in Hke as [Hke Hp]. destruct (to_inodes m Htree k e rec Hke Hp Hd) as [Hu ->].
    apply InodeKey_inj in Hk as ->; [|apply Hi|apply Hu]. exists rec. split; [|by eexists].
    unfold inode_rec. by rewrite Hke.
  - intros (rec & Hrec & r & Hr). exists r. split; [symmetry; by eapply Hf|]. apply list_elem_of_omap. exists (ino, rec).
    split; [|done]. rewrite visit_perm, elem_of_map_to_list. by rewrite all_inodes_lookup.
Qed.

Lemma wrap32_inj_small a b : is_u32 a → 0 <= b < 2 ^ 32 → a = wrap32 b ↔ a = b.
Proof. intros Ha Hb. unfold wrap32. by rewrite Z.mod_small. Qed.

End links.

(** A file with two names and a count of one. *)
Definition sl_store : mvcc :=
  (mvcc_ops empty_store
     [put (InodeKey 7) (EncodeInode (demo_rec 8192)); put (DirentKey 1 (lit "a")) (EncodeUint64 7);
      put (DirentKey 1 (lit "b")) (EncodeUint64 7)]).1.

Lemma sl_keys k e : mkvs sl_store !! k = Some e →
  (k = InodeKey 7 ∧ kv_val e = EncodeInode (demo_rec 8192) ∨ has_prefix PrefixInode k = false ∧ has_prefix PrefixExtent k = false ∧ kv_val e = EncodeUint64 7) ∧ kv_lease e = 0.
Proof.
  intros Hk%elem_of_map_to_list. revert k e Hk.
  assert (Forall (λ x : bytes * kv, ((x.1 = InodeKey 7 ∧ kv_val x.2 = EncodeInode (demo_rec 8192)) ∨
    (has_prefix PrefixInode x.1 = false ∧ has_prefix PrefixExtent x.1 = false ∧ kv_val x.2 = EncodeUint64 7)) ∧ kv_lease x.2 = 0)
    (map_to_list (mkvs sl_store))) as Hf.
  { apply (bool_decide_unpack _). vm_compute. exact I. }
  rewrite Forall_forall in Hf. intros k e Hk. apply (Hf (k, e) Hk).
Qed.

