(* ===== verification/Quota.v ===== *)
(** * Subtree quotas

    Models pkg/quota/quota.go (the walk that charges a subtree to its quota
    root), pkg/metadata/quota.go (the quota records) and the quota command of
    cmd/etcfsctl/quota.go.  The JSON decoder is a parameter; what is encoded is
    written out.  A command's printed text is the data it prints. *)

From S2P Require Import Prelude Etcd EtcdFacts Schema Store Extents Allocator Scrub.

(** ** Usage *)

Record Limits := mkLimits { lim_bytes : Z; lim_inodes : Z }.
#[global] Instance Limits_eq_dec : EqDecision Limits.
Proof. solve_decision. Defined.

Record Usage := mkUsage { u_root : Z; u_limits : Limits; u_bytes : Z; u_inodes : Z }.

Definition OverBytes (u : Usage) : bool := (0 <? lim_bytes (u_limits u)) && (lim_bytes (u_limits u) <? u_bytes u).
Definition OverInodes (u : Usage) : bool := (0 <? lim_inodes (u_limits u)) && (lim_inodes (u_limits u) <? u_inodes u).

(** ** The tree *)

Abbreviation Tree := (gmap Z (list Z)).

Definition children (t : Tree) (ino : Z) : list Z := default [] (t !! ino).

Definition BuildTree (direntKeys : list bytes) (targets : list Z) : Tree :=
  foldl (λ t x, match ParseDirentKey x.1 with
                | Some (parent, _) => <[parent := children t parent ++ [x.2]]> t
                | None => t
                end) ∅ (zip direntKeys targets).

(** ** Charging a subtree *)

(** One inode's charge to the usage of [root]. *)
Definition charge (inodes : gmap Z InodeRecord) (root ino : Z) (u : Usage) : Usage :=
  if ino =? root then u
  else match inodes !! ino with
       | None => u
       | Some rec =>
         mkUsage (u_root u) (u_limits u)
           (if ftype (Mode rec) =? ModeDir then u_bytes u else add64 (u_bytes u) (Size rec))
           (add64 (u_inodes u) 1)
       end.

(** The loop of [Compute]; the top of the stack comes first. *)
Fixpoint quota_walk (t : Tree) (inodes : gmap Z InodeRecord) (root : Z) (fuel : nat) (stack : list Z)
  (seen : gset Z) (u : Usage) : option Usage :=
  match fuel, stack with
  | O, _ => None
  | S _, [] => Some u
  | S f, ino :: stack' =>
    if bool_decide (ino ∈ seen) then quota_walk t inodes root f stack' seen u
    else quota_walk t inodes root f (rev (children t ino) ++ stack') ({[ino]} ∪ seen) (charge inodes root ino u)
  end.

(** The stack holds the root and, once per directory, its children. *)
Definition quota_fuel (t : Tree) : nat := S (S (sum_list (map (λ x, length x.2) (map_to_list t)))).

Definition usage_of (t : Tree) (inodes : gmap Z InodeRecord) (root : Z) (lim : Limits) : option Usage :=
  quota_walk t inodes root (quota_fuel t) [root] ∅ (mkUsage root lim 0 0).

Definition Compute_ `{MapOrder} (t : Tree) (inodes : gmap Z InodeRecord) (limits : gmap Z Limits) : option (list Usage) :=
  mapM (λ x, usage_of t inodes x.1 x.2) (visit limits).

(** ** The records *)

(** [json.Marshal] of a [QuotaRecord]. *)
Definition marshal_quota (r : Limits) : bytes :=
  lit "{" ++ [34] ++ lit "bytes" ++ [34] ++ lit ":" ++ fmt_uint (lim_bytes r) ++
  lit "," ++ [34] ++ lit "inodes" ++ [34] ++ lit ":" ++ fmt_uint (lim_inodes r) ++ lit "}".

Definition SetQuota (s : Store) (ino : Z) (limits : Limits) : prog (result unit) :=
  rec ⇐? GetInode s ino;
  match rec with
  | None => Ret (Err ErrNotFound)
  | Some rec =>
    if negb (ftype (Mode rec) =? ModeDir) then Ret (Err ErrNotDir)
    else
      ok ⇐? Txn s [key_present (InodeKey ino)] [put (QuotaKey ino) (marshal_quota limits)] [];
      Ret (if ok then Ok tt else Err ErrNotFound)
  end.

Definition ClearQuota (s : Store) (ino : Z) : prog (result unit) := Delete s (QuotaKey ino).

Section json.
Context (unmarshal : bytes → option Limits).

Definition quotas_of (kvs : list (bytes * kv)) : gmap Z Limits :=
  foldl (λ m x, match ParseQuotaKey x.1 with
                | Some ino => match unmarshal (kv_val x.2) with Some rec => <[ino := rec]> m | None => m end
                | None => m
                end) ∅ kvs.

Definition ListQuotas (s : Store) : prog (result (gmap Z Limits)) :=
  kvs ⇐? GetPrefix s PrefixQuota; Ret (Ok (quotas_of kvs)).

(** ** The command *)

Definition trim_prefix (p s : bytes) : bytes := match cut_prefix p s with Some t => t | None => s end.

(** One [--name=value] of [quota set]. *)
Definition quota_flag (rec : Limits) (arg : bytes) : option Limits :=
  match cut 61 (trim_prefix (lit "--") arg) with
  | None => None
  | Some (name, value) =>
    match ParseUint value with
    | None => None
    | Some n =>
      if bool_decide (name = lit "bytes") then Some (mkLimits n (lim_inodes rec))
      else if bool_decide (name = lit "inodes") then Some (mkLimits (lim_bytes rec) n)
      else None
    end
  end.

Fixpoint quota_flags (rec : Limits) (args : list bytes) : option Limits :=
  match args with
  | [] => Some rec
  | a :: args' => match quota_flag rec a with Some rec' => quota_flags rec' args' | None => None end
  end.

Definition setQuota (s : Store) (args : list bytes) : prog (result unit) :=
  match args with
  | [] => Ret (Err EOther)
  | a :: args' =>
    match ParseUint a with
    | None => Ret (Err EOther)
    | Some ino =>
      match quota_flags (mkLimits 0 0) args' with
      | None => Ret (Err EOther)
      | Some rec =>
        if (lim_bytes rec =? 0) && (lim_inodes rec =? 0) then Ret (Err EOther)
        else SetQuota s ino rec
      end
    end
  end.

Definition root_le (a b : Usage) : Prop := u_root a <= u_root b.
#[global] Instance root_le_dec : RelDecision root_le.
Proof. intros a b. unfold root_le. apply _. Defined.

Definition reportQuotas `{MapOrder} (s : Store) : prog (result (list (Usage * bool))) :=
  limits ⇐? ListQuotas s;
  if bool_decide (limits = ∅) then Ret (Ok [])
  else
    dirents ⇐? GetPrefix s PrefixDirent;
    inodes ⇐? GetPrefix s PrefixInode;
    let t := BuildTree (map fst dirents) (map (λ x, DecodeUint64 (kv_val x.2)) dirents) in
    match Compute_ t (scan_inodes inodes) limits with
    | None => Ret (Err EOther)
    | Some us => Ret (Ok (map (λ u, (u, OverBytes u || OverInodes u)) (merge_sort root_le us)))
    end.

(** [runQuota]: usage, or the outcome of a change. *)
Inductive quota_out := QReport (us : list (Usage * bool)) | QDone.

Definition runQuota `{MapOrder} (s : Store) (args : list bytes) : prog (result quota_out) :=
  match args with
  | [] => us ⇐? reportQuotas s; Ret (Ok (QReport us))
  | a :: args' =>
    if bool_decide (a = lit "set") then _ ⇐? setQuota s args'; Ret (Ok QDone)
    else if bool_decide (a = lit "clear") then
      match args' with
      | [i] => match ParseUint i with
               | None => Ret (Err EOther)
               | Some ino => _ ⇐? ClearQuota s ino; Ret (Ok QDone)
               end
      | _ => Ret (Err EOther)
      end
    else Ret (Err EOther)
  end.
End json.
