(* ===== verification/QuotaProps.v ===== *)
(** * What a quota report says

    The walk of [Compute] against the reference: the inodes reachable from the
    quota root through directory entries, each counted once.  It ends on every
    namespace, one with a cycle or with an inode that has several names
    included.  The quota records read back as they were set. *)

From S2P Require Import Prelude Etcd EtcdFacts Schema SchemaProps Store StoreLogic StoreProps Extents Allocator InodeTimes Dirents NamespaceProps Scrub Quota.

(** ** Sums over a set *)

Definition sum_over (f : Z → Z) (X : gset Z) : Z := foldr Z.add 0 (map f (elements X)).

#[global] Instance foldr_add_perm : Proper ((≡ₚ) ==> eq) (foldr Z.add 0).
Proof. intros l l' Hl. induction Hl; simpl; lia. Qed.

Lemma sum_over_insert f X x : x ∉ X → sum_over f ({[x]} ∪ X) = f x + sum_over f X.
Proof. intros Hx. unfold sum_over. by rewrite (elements_union_singleton X x Hx). Qed.

Lemma elem_of_rev_iff {A} (x : A) l : x ∈ rev l ↔ x ∈ l.
Proof. by rewrite !list_elem_of_In, <- in_rev. Qed.

(** ** The walk *)

Section walk.
Set Default Proof Using "Type".
Context (t : Tree) (inodes : gmap Z InodeRecord) (root : Z) (lim : Limits).

Definition edge (p c : Z) : Prop := c ∈ children t p.
Definition under (x : Z) : Prop := rtc edge root x.

(** What one inode below the root is charged. *)
Definition counted (x : Z) : Z := if x =? root then 0 else match inodes !! x with Some _ => 1 | None => 0 end.
Definition file_bytes (x : Z) : Z :=
  if x =? root then 0
  else match inodes !! x with Some rec => if ftype (Mode rec) =? ModeDir then 0 else Size rec | None => 0 end.

Definition tally (X : gset Z) : Usage :=
  mkUsage root lim (wrap64 (sum_over file_bytes X)) (wrap64 (sum_over counted X)).

Lemma add64_wrap a b : add64 (wrap64 a) b = wrap64 (b + a).
Proof. unfold add64, wrap64. rewrite Zplus_mod_idemp_l. by rewrite Z.add_comm. Qed.

Lemma charge_tally X x : x ∉ X → charge inodes root x (tally X) = tally ({[x]} ∪ X).
Proof.
  intros Hx. unfold charge, tally. rewrite !sum_over_insert by done. unfold counted, file_bytes.
  destruct (x =? root); [done|]. destruct (inodes !! x) as [rec|]; [|done]. cbn [u_root u_limits u_bytes u_inodes].
  rewrite !add64_wrap. by case_if.
Qed.

(** Entries whose directory has not been visited: what may still be pushed. *)
Definition pot (seen : gset Z) (l : list (Z * list Z)) : nat :=
  sum_list (map (λ x, if bool_decide (x.1 ∈ seen) then 0%nat else length x.2) l).

#[local] Instance pot_perm seen : Proper ((≡ₚ) ==> eq) (pot seen).
Proof. intros l l' Hl. induction Hl; unfold pot in *; simpl in *; lia. Qed.

Lemma pot_cons seen x l : pot seen (x :: l) = ((if bool_decide (x.1 ∈ seen) then 0 else length x.2) + pot seen l)%nat.
Proof. done. Qed.

Lemma pot_other seen x l : x ∉ l.*1 → pot ({[x]} ∪ seen) l = pot seen l.
Proof.
  intros Hx. unfold pot. f_equal. apply map_ext_in. intros y Hy%list_elem_of_In.
  assert (y.1 ≠ x) by (intros <-; by apply Hx, list_elem_of_fmap_2). do 2 case_bool_decide; set_solver.
Qed.

Lemma pot_visit seen x :
  x ∉ seen → (pot ({[x]} ∪ seen) (map_to_list t) + length (children t x) = pot seen (map_to_list t))%nat.
Proof.
  intros Hx. unfold children. destruct (t !! x) as [c|] eqn:Et; simpl.
  - rewrite <- (insert_delete_id t x c Et). set (t' := delete x t).
    assert (t' !! x = None) as Hn by apply lookup_delete_eq.
    rewrite (map_to_list_insert t' x c Hn), !pot_cons. cbn [fst snd].
    rewrite (bool_decide_eq_true_2 (x ∈ {[x]} ∪ seen)), (bool_decide_eq_false_2 (x ∈ seen)) by set_solver.
    rewrite pot_other; [lia|]. intros ([? d] & -> & Hd%elem_of_map_to_list)%list_elem_of_fmap. simpl in *. congruence.
  - rewrite pot_other; [lia|]. intros ([? d] & -> & Hd%elem_of_map_to_list)%list_elem_of_fmap. simpl in *. congruence.
Qed.

Lemma closed_under (X : gset Z) a x : (∀ a b, a ∈ X → edge a b → b ∈ X) → a ∈ X → rtc edge a x → x ∈ X.
Proof. intros Hcl Ha Hr. induction Hr as [a|a b c Hab Hbc IH]; eauto. Qed.

Lemma quota_walk_spec fuel stack seen :
  (pot seen (map_to_list t) + length stack < fuel)%nat →
  (∀ x, x ∈ seen → under x) → (∀ x, x ∈ stack → under x) →
  (∀ x y, x ∈ seen → edge x y → y ∈ seen ∨ y ∈ stack) → (root ∈ seen ∨ root ∈ stack) →
  ∃ X, quota_walk t inodes root fuel stack seen (tally seen) = Some (tally X) ∧ ∀ x, x ∈ X ↔ under x.
Proof.
  revert stack seen. induction fuel as [|f IH]; intros stack seen Hf Hseen Hst Hcl Hroot; [lia|].
  destruct stack as [|ino stack]; cbn [quota_walk].
  { exists seen. split; [done|]. intros x. split; [apply Hseen|].
    destruct Hroot as [Hroot|Hroot%elem_of_nil]; [|done]. apply closed_under; [|done].
    intros a b Ha Hb. by destruct (Hcl a b Ha Hb) as [?|?%elem_of_nil]. }
  case_bool_decide as Hin.
  - apply IH; [simpl in Hf; lia|done|intros; apply Hst; by right| |].
    + intros x y Hx Hy. destruct (Hcl x y Hx Hy) as [?|[->|?]%elem_of_cons]; auto.
    + destruct Hroot as [?|[->|?]%elem_of_cons]; auto.
  - rewrite charge_tally by done. assert (under ino) as Hi by (apply Hst; left). apply IH.
    + pose proof (pot_visit seen ino Hin). rewrite length_app, length_rev. simpl in Hf. lia.
    + intros x [->%elem_of_singleton|?]%elem_of_union; auto.
    + intros x [Hx|Hx]%elem_of_app; [|apply Hst; by right]. rewrite elem_of_rev_iff in Hx. by eapply rtc_r.
    + intros x y Hx Hy. rewrite elem_of_union, elem_of_singleton, elem_of_app, elem_of_rev_iff.
      apply elem_of_union in Hx as [->%elem_of_singleton|Hx]; [by auto|].
      destruct (Hcl x y Hx Hy) as [?|[->|?]%elem_of_cons]; auto.
    + rewrite elem_of_union, elem_of_singleton, elem_of_app. destruct Hroot as [?|[->|?]%elem_of_cons]; auto.
Qed.

(** C25. The usage of a quota root.  On every tree, cycles and inodes with several
    names included, the walk ends, and it charges every inode reachable from the
    root, other than the root itself, once: the inode count is the number of
    those that have a record, the byte count the sizes of those that are not
    directories (modulo 2^64). *)
Theorem quota_usage_exact :
  ∃ below : gset Z, usage_of t inodes root lim = Some (tally below) ∧ ∀ x, x ∈ below ↔ rtc edge root x.
Proof.
  unfold usage_of. change (mkUsage root lim 0 0) with (tally ∅). apply quota_walk_spec.
  - unfold quota_fuel, pot. cbn [length]. assert (∀ l : list (Z * list Z), map (λ x, if bool_decide (x.1 ∈ (∅ : gset Z)) then 0%nat else length x.2) l
      = map (λ x, length x.2) l) as ->; [|lia]. intros l. apply map_ext. intros x. by rewrite bool_decide_eq_false_2 by set_solver.
  - set_solver.
  - intros x ->%list_elem_of_singleton. constructor.
  - set_solver.
  - right. left.
Qed.
End walk.

(** ** The report *)

(** A directory entry of [p] leads to [c]. *)
Definition ns_edge (m : mvcc) (p c : Z) : Prop :=
  ∃ k e name, mkvs m !! k = Some e ∧ ParseDirentKey k = Some (p, name) ∧ DecodeUint64 (kv_val e) = c.

Lemma BuildTree_children l p c :
  c ∈ children (BuildTree (map fst l) (map snd l)) p ↔ ∃ k name, (k, c) ∈ l ∧ ParseDirentKey k = Some (p, name).
Proof.
  assert (zip (map fst l) (map snd l) = l) as Hz.
  { induction l as [|[] l IH]; simpl; [done|by rewrite IH]. }
  unfold BuildTree. rewrite Hz. clear Hz. induction l as [|[k v] l IH] using rev_ind.
  { split; [by intros ?%elem_of_nil|]. intros (k & name & Hk & _). by apply elem_of_nil in Hk. }
  rewrite foldl_app. cbn [foldl fst snd]. setoid_rewrite elem_of_app. setoid_rewrite list_elem_of_singleton.
  set (t := foldl _ ∅ l) in *.
  assert (∀ P : Prop, (c ∈ children t p ∨ P) ↔ (∃ k name, (k, c) ∈ l ∧ ParseDirentKey k = Some (p, name)) ∨ P) as Hor.
  { intros P. by rewrite IH. }
  destruct (ParseDirentKey k) as [[q name]|] eqn:Ek.
  - unfold children at 1. destruct (decide (q = p)) as [->|Hq].
    + rewrite lookup_insert_eq. cbn [default from_option id]. rewrite elem_of_app, list_elem_of_singleton, Hor. split.
      * intros [(k' & n' & H1 & H2)| ->]; [exists k', n'; auto|exists k, name; auto].
      * intros (k' & n' & [H1|H1] & H2); [left; by exists k', n'|injection H1; by right].
    + rewrite lookup_insert_ne by done. fold (children t p). rewrite IH. split.
      * intros (k' & n' & H1 & H2). exists k', n'. auto.
      * intros (k' & n' & [H1|H1] & H2); [by exists k', n'|congruence].
  - rewrite IH. split.
    + intros (k' & n' & H1 & H2). exists k', n'. auto.
    + intros (k' & n' & [H1|H1] & H2); [by exists k', n'|congruence].
Qed.

Lemma ParseDirentKey_prefix k x : ParseDirentKey k = Some x → has_prefix PrefixDirent k = true.
Proof. unfold ParseDirentKey, parse_num_rest, has_prefix. by destruct (cut_prefix PrefixDirent k). Qed.

(** The tree a report builds is the namespace of the store. *)
Lemma report_tree m p c :
  let l := range_kvs (RPrefix PrefixDirent) m in
  edge (BuildTree (map fst l) (map (λ x, DecodeUint64 (kv_val x.2)) l)) p c ↔ ns_edge m p c.
Proof.
  intros l. unfold edge. set (l' := map (λ x : bytes * kv, (x.1, DecodeUint64 (kv_val x.2))) l).
  replace (map fst l) with (map fst l') by (unfold l'; by rewrite map_map).
  replace (map (λ x, DecodeUint64 (kv_val x.2)) l) with (map snd l') by (unfold l'; by rewrite map_map).
  rewrite BuildTree_children. unfold l', l, ns_edge. split.
  - intros (k & name & Hin & Hn). apply list_elem_of_fmap in Hin as ([k' e] & [= -> ->] & Hk).
    apply elem_of_range_prefix in Hk as [Hk Hp]. by exists k', e, name.
  - intros (k & e & name & Hk & Hn & <-). exists k, name. split; [|done]. apply list_elem_of_fmap. exists (k, e).
    split; [done|]. apply elem_of_range_prefix. split; [done|]. by eapply ParseDirentKey_prefix.
Qed.

Lemma mapM_total {A B} (f : A → option B) (P : A → B → Prop) l :
  (∀ x, x ∈ l → ∃ y, f x = Some y ∧ P x y) → ∃ k, mapM f l = Some k ∧ Forall2 P l k.
Proof.
  induction l as [|x l IH]; intros H; [by exists []|].
  destruct (H x (list_elem_of_here _ _)) as (y & Hy & HP).
  destruct IH as (k & Hk & HF); [intros; apply H; by right|].
  exists (y :: k). simpl. rewrite Hy. simpl. rewrite Hk. simpl. auto.
Qed.

Lemma rtc_iff {A} (R R' : relation A) x y : (∀ a b, R a b ↔ R' a b) → rtc R x y ↔ rtc R' x y.
Proof. intros H. split; apply rtc_subrel; intros a b; by apply H. Qed.

Section report.
Set Default Proof Using "Type".
Context (unmarshal : bytes → option Limits) `{MapOrder}.

(** What one line of a report owes. *)
Definition reported (m : mvcc) (u : Usage) : Prop :=
  ∃ below : gset Z, u = tally (scan_inodes (range_kvs (RPrefix PrefixInode) m)) (u_root u) (u_limits u) below ∧
    ∀ x, x ∈ below ↔ rtc (ns_edge m) (u_root u) x.

(** A quota report.  On a server that answers, the report has one line per
    quota root of the store, in the order of their numbers, each with the root's
    limits, the usage of the inodes reachable from it through the directory
    entries of the store, and whether a limit is exceeded; nothing is changed. *)
Theorem quota_report_exact `{E : Etcd, !ReliableEtcd E} s srv :
  let m := eview srv in
  let limits := quotas_of unmarshal (range_kvs (RPrefix PrefixQuota) m) in
  let '(srv', r) := run (reportQuotas unmarshal s) srv in
  eview srv' = m ∧
  ∃ us, r = Ok us ∧ (λ x, (u_root x.1, u_limits x.1)) <$> us ≡ₚ map_to_list limits ∧
    StronglySorted root_le us.*1 ∧
    Forall (λ x, reported m x.1 ∧ x.2 = OverBytes x.1 || OverInodes x.1) us.
Proof.
  intros m limits.
  assert (∃ us, Compute_ (BuildTree (map fst (range_kvs (RPrefix PrefixDirent) m))
    (map (λ x, DecodeUint64 (kv_val x.2)) (range_kvs (RPrefix PrefixDirent) m)))
    (scan_inodes (range_kvs (RPrefix PrefixInode) m)) limits = Some us ∧
    Forall2 (λ x u, (u_root u, u_limits u) = x ∧ reported m u) (visit limits) us) as (us & Hus & HF).
  { apply mapM_total. intros [root lim] _. cbn [fst snd].
    destruct (quota_usage_exact (BuildTree (map fst (range_kvs (RPrefix PrefixDirent) m))
      (map (λ x, DecodeUint64 (kv_val x.2)) (range_kvs (RPrefix PrefixDirent) m)))
      (scan_inodes (range_kvs (RPrefix PrefixInode) m)) root lim) as (X & Hu & HX).
    eexists. split; [exact Hu|]. split; [done|]. exists X. split; [done|]. intros x. cbn [u_root tally].
    rewrite HX. apply rtc_iff. intros a b. apply report_tree. }
  assert (Q : wpx (reportQuotas unmarshal s) (λ r σ, σ.1 = m ∧ ∃ us0, r = Ok us0 ∧
    (λ x, (u_root x.1, u_limits x.1)) <$> us0 ≡ₚ map_to_list limits ∧ StronglySorted root_le us0.*1 ∧
    Forall (λ x, reported m x.1 ∧ x.2 = OverBytes x.1 || OverInodes x.1) us0) m).
  { unfold reportQuotas. apply wpx_ebind. unfold ListQuotas. apply wpx_ebind, wpx_GetPrefix, wpx_ret. fold limits.
    case_bool_decide as Hl.
    - apply wpx_ret. split; [done|]. exists []. rewrite Hl, map_to_list_empty. repeat split; constructor.
    - apply wpx_ebind, wpx_GetPrefix, wpx_ebind, wpx_GetPrefix. cbn [fst]. rewrite Hus. apply wpx_ret. split; [done|]. eexists. split; [done|].
      assert (map fst (map (λ u, (u, OverBytes u || OverInodes u)) (merge_sort root_le us)) = merge_sort root_le us) as Hfst.
      { rewrite map_map. apply map_id. }
      split; [|split].
      + change (@fmap list _ _ _) with (@map (Usage * bool) (Z * Limits)). rewrite map_map. cbn [fst].
        rewrite merge_sort_Permutation, <- visit_perm. clear - HF. induction HF as [|x u l us [<- _] HF IH]; simpl; [done|by rewrite IH].
      + change (@fmap list _ _ _ fst) with (@map (Usage * bool) Usage fst). rewrite Hfst. apply StronglySorted_merge_sort; intros ?; unfold root_le; intros; lia.
      + rewrite Forall_map. rewrite merge_sort_Permutation. cbn [fst snd]. clear - HF. induction HF as [|x u l us [_ Hu] HF IH]; auto. }
  pose proof (wp_run_reliable (reportQuotas unmarshal s) (λ r m', m' = m ∧ ∃ us0, r = Ok us0 ∧
    (λ x, (u_root x.1, u_limits x.1)) <$> us0 ≡ₚ map_to_list limits ∧ StronglySorted root_le us0.*1 ∧
    Forall (λ x, reported m x.1 ∧ x.2 = OverBytes x.1 || OverInodes x.1) us0) srv Q) as Hr.
  destruct (run (reportQuotas unmarshal s) srv) as [srv' r]. exact Hr.
Qed.
End report.

(** ** Setting a quota *)

Definition set_quota_verdict (m : mvcc) (ino : Z) : result unit :=
  match stored (InodeKey ino) m with
  | None => Err ErrNotFound
  | Some v => match DecodeInode v with
              | None => Err ErrNotFound
              | Some rec => if ftype (Mode rec) =? ModeDir then Ok tt else Err ErrNotDir
              end
  end.

Definition quota_set (m : mvcc) (ino : Z) (lim : Limits) (r : result unit) (m' : mvcc) : Prop :=
  r = set_quota_verdict m ino ∧
  ∀ k, val_at k m' = match r with
                     | Ok _ => if bool_decide (k = QuotaKey ino) then Some (marshal_quota lim, 0) else val_at k m
                     | Err _ => val_at k m
                     end.

Lemma wpx_SetQuota s ino lim m :
  mvcc_wf m → guard_current s m → wpx (SetQuota s ino lim) (λ r σ, quota_set m ino lim r σ.1) m.
Proof.
  intros Hwf Hg. unfold SetQuota, GetInode, quota_set, set_quota_verdict.
  apply wpx_ebind, wpx_ebind, wpx_Get, wpx_ret. destruct (stored (InodeKey ino) m) as [v|] eqn:Es; [|by apply wpx_ret].
  destruct (DecodeInode v) as [rec|]; [|by apply wpx_ret].
  destruct (ftype (Mode rec) =? ModeDir); cbn [negb]; [|by apply wpx_ret].
  apply wpx_ebind, wpx_Txn; [done|by apply txn_valid_small; [done|simpl; lia..|repeat constructor]| |].
  - intros _. apply wpx_ret. split; [done|]. intros k. cbn [fst]. rewrite val_at_ops. cbn [ops_effect op_effect put].
    unfold op_effect. simpl. by case_bool_decide.
  - intros Hf. exfalso. revert Hf. simpl. rewrite andb_true_r. apply not_false_iff_true. apply eval_key_present; [done|].
    rewrite val_at_is_Some. rewrite stored_val_at in Es. by destruct (val_at (InodeKey ino) m).
Qed.

Lemma quotas_of_lookup unmarshal kvs ino lim :
  (∀ x, x ∈ kvs → ParseQuotaKey x.1 = Some ino → unmarshal (kv_val x.2) = Some lim) →
  (∃ x, x ∈ kvs ∧ ParseQuotaKey x.1 = Some ino) → quotas_of unmarshal kvs !! ino = Some lim.
Proof.
  unfold quotas_of. induction kvs as [|x l IH] using rev_ind; intros Hall (y & Hy & Hp); [by apply elem_of_nil in Hy|].
  rewrite foldl_app. cbn [foldl]. destruct (ParseQuotaKey x.1) as [i|] eqn:Ex.
  - destruct (decide (i = ino)) as [->|Hi].
    + rewrite (Hall x); [by rewrite lookup_insert_eq|apply elem_of_app; right; left|done].
    + assert (y ∈ l) by (apply elem_of_app in Hy as [?| ->%list_elem_of_singleton]; [done|congruence]).
      destruct (unmarshal (kv_val x.2)); [rewrite lookup_insert_ne by done|]; apply IH; eauto;
        intros z Hz; apply Hall, elem_of_app; by left.
  - apply IH; [intros z Hz; apply Hall, elem_of_app; by left|]. exists y. split; [|done].
    apply elem_of_app in Hy as [?| ->%list_elem_of_singleton]; [done|congruence].
Qed.

(** Setting a quota on a server that answers.  A missing inode is refused with
    ErrNotFound and a file with ErrNotDir, and nothing changes; on a directory the
    quota record is written and nothing else, and the quotas listed afterwards
    have exactly these limits for it. *)
Theorem set_quota_reads_back `{E : Etcd, !ReliableEtcd E} (unmarshal : bytes → option Limits) s ino lim srv
  (Hjson : unmarshal (marshal_quota lim) = Some lim) (Hino : is_u64 ino)
  (Hwf : mvcc_wf (eview srv)) (Hguard : guard_current s (eview srv))
  (Hkeys : ∀ k, is_Some (val_at k (eview srv)) → ParseQuotaKey k = Some ino → k = QuotaKey ino) :
  let '(srv1, r) := run (SetQuota s ino lim) srv in
  quota_set (eview srv) ino lim r (eview srv1) ∧
  (r = Ok tt → ∃ qs, (run (ListQuotas unmarshal s) srv1).2 = Ok qs ∧ qs !! ino = Some lim).
Proof.
  pose proof (wp_run_reliable (SetQuota s ino lim) (quota_set (eview srv) ino lim) srv (wpx_SetQuota _ _ _ _ Hwf Hguard)) as Hset.
  destruct (run (SetQuota s ino lim) srv) as [srv1 r]. cbn [fst snd] in Hset. split; [done|]. intros ->.
  destruct Hset as [_ Hat].
  exists (quotas_of unmarshal (range_kvs (RPrefix PrefixQuota) (eview srv1))). split.
  - apply (wp_run_reliable (ListQuotas unmarshal s)
      (λ r _, r = Ok (quotas_of unmarshal (range_kvs (RPrefix PrefixQuota) (eview srv1)))) srv1).
    by apply wpx_ebind, wpx_GetPrefix, wpx_ret.
  - assert (ParseQuotaKey (QuotaKey ino) = Some ino) as Hp.
    { unfold ParseQuotaKey, QuotaKey. rewrite cut_prefix_app. by apply ParseUint_fmt_uint. }
    pose proof (Hat (QuotaKey ino)) as Hq. rewrite bool_decide_eq_true_2 in Hq by done.
    apply val_at_Some in Hq as (e & He & Hv & _). apply quotas_of_lookup.
    + intros [k e'] [Hk _]%elem_of_range_prefix Hpk. cbn [fst snd] in *. assert (k = QuotaKey ino) as ->; [|congruence].
      destruct (decide (k = QuotaKey ino)) as [|Hne]; [done|]. apply Hkeys; [|done].
      specialize (Hat k). rewrite bool_decide_eq_false_2 in Hat by done. rewrite <- Hat. unfold val_at. by rewrite Hk.
    + exists (QuotaKey ino, e). split; [|done]. apply elem_of_range_prefix. split; [done|]. apply has_prefix_app.
Qed.

(** ** On a concrete store *)

(** A decoder for what [marshal_quota] writes, enough to read it back. *)
Definition decode_quota (v : bytes) : option Limits :=
  match cut_prefix (lit "{" ++ [34] ++ lit "bytes" ++ [34] ++ lit ":") v with
  | None => None
  | Some v1 =>
    match cut 44 v1 with
    | None => None
    | Some (b, v2) =>
      match cut_prefix ([34] ++ lit "inodes" ++ [34] ++ lit ":") v2 with
      | None => None
      | Some v3 =>
        match cut 125 v3 with
        | None => None
        | Some (i, _) =>
          match ParseUint b, ParseUint i with Some b, Some i => Some (mkLimits b i) | _, _ => None end
        end
      end
    end
  end.

Lemma set_quota_reads_back_witness :
  ∃ qs, (@run ref_etcd _ (ListQuotas decode_quota demo_store) (run_ref (SetQuota demo_store 11 (mkLimits 100 5)) ns_dir)).2 = Ok qs ∧
    qs !! 11 = Some (mkLimits 100 5).
Proof.
  pose proof (@set_quota_reads_back ref_etcd _ decode_quota demo_store 11 (mkLimits 100 5) ns_dir) as H.
  unfold run_ref. destruct (@run ref_etcd _ (SetQuota _ _ _) _) as [srv' r] eqn:E. cbn [fst].
  destruct H as [_ H]; concrete.
  - unfold is_u64. lia.
  - intros k [[v l] (e & Hk & _)%val_at_Some] Hp. exfalso. apply elem_of_map_to_list in Hk.
    assert (Forall (λ x : bytes * kv, ParseQuotaKey x.1 = None) (map_to_list (mkvs (rs_store ns_dir)))) as Hf.
    { apply (bool_decide_unpack _). vm_compute. exact I. }
    rewrite Forall_forall in Hf. specialize (Hf _ Hk). cbn [fst] in Hf. congruence.
  - apply H. replace r with (srv', r).2 by done. rewrite <- E. concrete.
Defined.

Lemma quota_report_exact_witness :
  (@run ref_etcd _ (@reportQuotas decode_quota sorted_visit demo_store)
     (run_ref (SetQuota demo_store 1 (mkLimits 100 1)) ns_dir)).2 = Ok [(mkUsage 1 (mkLimits 100 1) 0 2, true)] ∧
  eview (@run ref_etcd _ (@reportQuotas decode_quota sorted_visit demo_store) (run_ref (SetQuota demo_store 1 (mkLimits 100 1)) ns_dir)).1 =
    rs_store (run_ref (SetQuota demo_store 1 (mkLimits 100 1)) ns_dir).
Proof.
  split; [vm_compute; reflexivity|].
  pose proof (@quota_report_exact decode_quota sorted_visit ref_etcd _ demo_store (run_ref (SetQuota demo_store 1 (mkLimits 100 1)) ns_dir)) as H.
  destruct (@run ref_etcd _ (@reportQuotas _ _ _) _) as [srv' r]. by destruct H as [H _].
Defined.
