(* ===== verification/Fsck.v ===== *)
(** * The offline checker

    Models pkg/fsck/checker.go: the scrubber's checks over one snapshot, and the
    checks that are fsck's own (records that do not decode, names that lead
    nowhere, arenas past the end of the device, arenas in no place or in two).
    A finding's text is the data it is made of; a read that fails inside a check
    is taken for an empty answer, as the code does.

    On a store nobody changes while it is read, an error is reported exactly when
    something is wrong with it: a record that does not decode, a name that leads
    nowhere, two extents on one device byte, an extent or an arena past the end of
    the device, an extent from a generation its node has not reached, or an arena
    that is both owned and in the free pool. *)

From S2P Require Import Prelude Etcd EtcdFacts Schema SchemaProps Store StoreLogic Extents ExtentProps Allocator ArenaPool ArenaProps InodeTimes Service DataPath ReadProps ReplayProps Scrub ScrubProps ScrubFiles.

Inductive level := LError | LWarning | LInfo.
#[global] Instance level_eq_dec : EqDecision level.
Proof. solve_decision. Defined.

Inductive message :=
| MUnreadable (e : err)
| MCorruptInode (key : bytes) (len : Z)
| MDangling (key : bytes) (ino : Z)
| MScrub (r : Result)
| MNoArenas
| MBadArenaKey (key : bytes)
| MArenaPastEnd (node : bytes) (id : Z)
| MArenaShared (id : Z) (node : bytes)
| MArenaLost (id : Z).

Record Finding := mkFinding { Level : level; Message : message }.

Definition report (l : level) (rs : list Result) : list Finding := map (λ r, mkFinding l (MScrub r)) rs.

Definition count_level (l : level) (fs : list Finding) : Z :=
  Z.of_nat (length (filter (λ f, Level f = l) fs)).
Definition ErrorCount (fs : list Finding) : Z := count_level LError fs.
Definition WarningCount (fs : list Finding) : Z := count_level LWarning fs.

(** [kvs, _ := GetPrefix(...)]. *)
Definition prefix_or_nil (s : Store) (p : bytes) : prog (list (bytes * kv)) :=
  r ⇐ GetPrefix s p; Ret match r with Ok l => l | Err _ => [] end.

Definition corrupt_inodes (kvs : list (bytes * kv)) : list Finding :=
  omap (λ x, if bool_decide (length (kv_val x.2) < 72)%nat
             then Some (mkFinding LError (MCorruptInode x.1 (Z.of_nat (length (kv_val x.2))))) else None) kvs.

Definition checkInodesDecodable (s : Store) : prog (list Finding) :=
  kvs ⇐ prefix_or_nil s PrefixInode; Ret (corrupt_inodes kvs).

Definition dangling_dirents (snap : Snapshot) (kvs : list (bytes * kv)) : list Finding :=
  omap (λ x, let ino := DecodeUint64 (kv_val x.2) in
             if ino =? 0 then None
             else match sn_inodes snap !! ino with
                  | Some _ => None
                  | None => Some (mkFinding LError (MDangling x.1 ino))
                  end) kvs.

Definition checkDirentsReferenced (s : Store) (snap : Snapshot) : prog (list Finding) :=
  kvs ⇐ prefix_or_nil s PrefixDirent; Ret (dangling_dirents snap kvs).

Definition arena_bounds (devSize : Z) (kvs : list (bytes * kv)) : list Finding :=
  (match kvs with [] => [mkFinding LInfo MNoArenas] | _ => [] end) ++
  omap (λ x, match ParseArenaKey x.1 with
             | None => Some (mkFinding LError (MBadArenaKey x.1))
             | Some (node, id) =>
               if (0 <? devSize) && (devSize <? mul64 (add64 id 1) ArenaSizeBytes)
               then Some (mkFinding LError (MArenaPastEnd node id)) else None
             end) kvs.

Definition checkArenaBoundaries (s : Store) (devSize : Z) : prog (list Finding) :=
  kvs ⇐ prefix_or_nil s PrefixArena; Ret (arena_bounds devSize kvs).

Definition arena_owners (kvs : list (bytes * kv)) : gmap Z bytes :=
  foldl (λ m x, match ParseArenaKey x.1 with Some (node, id) => <[id := node]> m | None => m end) ∅ kvs.

Definition free_ids (kvs : list (bytes * kv)) : gset Z :=
  foldl (λ X x, match ParseUint (drop (length PrefixFreeArena) x.1) with Some id => {[id]} ∪ X | None => X end) ∅ kvs.

Definition arena_places (highWater : Z) (owners : gmap Z bytes) (free : gset Z) : list Finding :=
  omap (λ id, match owners !! id, bool_decide (id ∈ free) with
              | Some node, true => Some (mkFinding LError (MArenaShared id node))
              | None, false => Some (mkFinding LWarning (MArenaLost id))
              | _, _ => None
              end) (seqZ 0 highWater).

Definition checkArenaOrphans (s : Store) : prog (list Finding) :=
  counter ⇐ Get s PrefixArenaLog;
  let highWater := match counter with Ok (Some v) => DecodeUint64 v | _ => 0 end in
  kvs ⇐ prefix_or_nil s PrefixArena;
  freeKvs ⇐ prefix_or_nil s PrefixFreeArena;
  Ret (arena_places highWater (arena_owners kvs) (free_ids freeKvs)).

Definition Run `{MapOrder} (s : Store) (devSize : Z) : prog (list Finding) :=
  snap ⇐ Scan s;
  match snap with
  | Err e => Ret [mkFinding LError (MUnreadable e)]
  | Ok snap =>
    f1 ⇐ checkInodesDecodable s;
    f2 ⇐ checkDirentsReferenced s snap;
    f3 ⇐ checkArenaBoundaries s devSize;
    f4 ⇐ checkArenaOrphans s;
    Ret (f1 ++ f2 ++
         report LWarning (CheckUnreferencedInodes snap) ++
         report LWarning (CheckNlinkConsistency snap) ++
         report LWarning (CheckOrphanExtents snap) ++
         report LWarning (CheckDeadExtents snap) ++
         report LError (CheckExtentCollisions snap) ++
         report LError (CheckRangeValidity snap devSize) ++
         report LError (CheckGenerationConsistency snap) ++
         f3 ++ f4)
  end.


(** ** Lists of findings *)

Definition errors (fs : list Finding) : list Finding := filter (λ f, Level f = LError) fs.

Lemma ErrorCount_zero fs : ErrorCount fs = 0 ↔ errors fs = [].
Proof. unfold ErrorCount, count_level, errors. split; [|by intros ->]. intros H. apply nil_length_inv. lia. Qed.

Lemma errors_app f g : errors (f ++ g) = [] ↔ errors f = [] ∧ errors g = [].
Proof. unfold errors. rewrite filter_app. split; [apply app_eq_nil|by intros [-> ->]]. Qed.

Lemma errors_report l rs : errors (report l rs) = [] ↔ l ≠ LError ∨ rs = [].
Proof.
  unfold errors, report. destruct rs as [|r rs]; [naive_solver|]. destruct (decide (l = LError)) as [->|Hl].
  - simpl. rewrite filter_cons_True by done. naive_solver.
  - split; [by auto|]. intros _. induction (r :: rs) as [|x y IH]; simpl; [done|]. by rewrite filter_cons_False.
Qed.

Lemma errors_omap {A} (f : A → option Finding) l :
  errors (omap f l) = [] ↔ ∀ x y, x ∈ l → f x = Some y → Level y ≠ LError.
Proof.
  unfold errors. split.
  - intros H x y Hx Hy Hl. assert (y ∈ filter (λ f, Level f = LError) (omap f l)) as Hin.
    { apply list_elem_of_filter. split; [done|]. apply list_elem_of_omap. eauto. }
    rewrite H in Hin. by apply elem_of_nil in Hin.
  - intros H. apply elem_of_nil_inv. intros y [Hl (x & Hx & Hy)%list_elem_of_omap]%list_elem_of_filter. by eapply H.
Qed.

Lemma omap_nil {A B} (f : A → option B) l : omap f l = [] ↔ ∀ x, x ∈ l → f x = None.
Proof.
  split.
  - intros H x Hx. destruct (f x) as [y|] eqn:Ey; [|done].
    assert (y ∈ omap f l) as Hin by (apply list_elem_of_omap; eauto). rewrite H in Hin. by apply elem_of_nil in Hin.
  - intros H. apply elem_of_nil_inv. intros y (x & Hx & Hy)%list_elem_of_omap. by rewrite (H x Hx) in Hy.
Qed.

(** ** Arenas *)

Lemma arena_owners_lookup kvs id n :
  arena_owners kvs !! id = Some n → ∃ x, x ∈ kvs ∧ ParseArenaKey x.1 = Some (n, id).
Proof.
  unfold arena_owners. induction kvs as [|x l IH] using rev_ind; [done|]. rewrite foldl_app. cbn [foldl].
  setoid_rewrite elem_of_app. setoid_rewrite list_elem_of_singleton.
  destruct (ParseArenaKey x.1) as [[n' id']|] eqn:Ex; [|naive_solver].
  intros [[<- <-]|[_ H]]%lookup_insert_Some; naive_solver.
Qed.

Lemma arena_owners_hit kvs id n x :
  x ∈ kvs → ParseArenaKey x.1 = Some (n, id) → is_Some (arena_owners kvs !! id).
Proof.
  unfold arena_owners. induction kvs as [|y l IH] using rev_ind; [by intros ?%elem_of_nil|].
  rewrite foldl_app. cbn [foldl]. intros [Hx|<-%list_elem_of_singleton]%elem_of_app Hp.
  - destruct (ParseArenaKey y.1) as [[n' id']|]; [|by apply IH]. apply lookup_insert_is_Some'. right. by apply IH.
  - rewrite Hp. by rewrite lookup_insert_eq.
Qed.

Lemma elem_of_free_ids kvs id :
  id ∈ free_ids kvs ↔ ∃ x, x ∈ kvs ∧ ParseUint (drop (length PrefixFreeArena) x.1) = Some id.
Proof.
  unfold free_ids. induction kvs as [|x l IH] using rev_ind.
  { split; [set_solver|]. intros (x & Hx & _). by apply elem_of_nil in Hx. }
  rewrite foldl_app. cbn [foldl]. setoid_rewrite elem_of_app. setoid_rewrite list_elem_of_singleton.
  destruct (ParseUint (drop _ x.1)) as [i|] eqn:Ex; [rewrite elem_of_union, elem_of_singleton|]; rewrite IH; naive_solver.
Qed.

Section arenas.
Set Default Proof Using "Type".
Context (m : mvcc) (Hpool : pool_wf m).

Definition owners_of : gmap Z bytes := arena_owners (range_kvs (RPrefix PrefixArena) m).
Definition pool_of : gset Z := free_ids (range_kvs (RPrefix PrefixFreeArena) m).

Lemma owners_of_spec id n : owners_of !! id = Some n → is_u64 id ∧ n ≠ [] ∧ owned m n id.
Proof using Hpool.
  intros ([k e] & Hin & Hp)%arena_owners_lookup. apply elem_of_range_prefix in Hin as [Hk Hpre]. cbn [fst] in Hp.
  destruct Hpool as (_ & _ & Ha & _). destruct (Ha k (kv_val e) (kv_lease e)) as (n' & i' & Hi & -> & _); [|done|].
  { unfold val_at. by rewrite Hk. }
  rewrite ArenaKey_parse in Hp by done. case_bool_decide; [done|]. injection Hp as <- <-. split; [done|]. split; [done|].
  unfold owned. apply val_at_is_Some. by rewrite Hk.
Qed.

Lemma owners_of_hit id n : is_u64 id → n ≠ [] → owned m n id → is_Some (owners_of !! id).
Proof.
  intros Hi Hn [[v l] (e & Hk & _)%val_at_Some]. eapply (arena_owners_hit _ id n (ArenaOwnerKey n id, e)).
  - apply elem_of_range_prefix. split; [done|]. unfold ArenaOwnerKey. apply has_prefix_app.
  - cbn [fst]. rewrite ArenaKey_parse by done. by rewrite bool_decide_eq_false_2.
Qed.

Lemma pool_of_spec id : is_u64 id → id ∈ pool_of ↔ pooled m id.
Proof using Hpool.
  intros Hi. unfold pool_of. rewrite elem_of_free_ids. split.
  - intros ([k e] & Hin & Hp). apply elem_of_range_prefix in Hin as [Hk Hpre]. cbn [fst] in Hp.
    destruct Hpool as (_ & _ & _ & Hf & _). destruct (Hf k) as (i & Hu & ->); [by apply val_at_is_Some; rewrite Hk|done|].
    rewrite FreeArenaKey_parse in Hp by done. injection Hp as ->. apply val_at_is_Some. by rewrite Hk.
  - intros [[v l] (e & Hk & _)%val_at_Some]. exists (FreeArenaKey id, e). cbn [fst]. rewrite FreeArenaKey_parse by done.
    split; [|done]. apply elem_of_range_prefix. split; [done|]. apply has_prefix_app.
Qed.

Definition places : list Finding := arena_places (counter_value PrefixArenaLog m) owners_of pool_of.

Lemma elem_of_places f :
  f ∈ places ↔ ∃ id, 0 <= id < counter_value PrefixArenaLog m ∧
    match owners_of !! id, bool_decide (id ∈ pool_of) with
    | Some node, true => f = mkFinding LError (MArenaShared id node)
    | None, false => f = mkFinding LWarning (MArenaLost id)
    | _, _ => False
    end.
Proof.
  unfold places, arena_places. rewrite list_elem_of_omap. split.
  - intros (id & [H1 H2]%elem_of_seqZ & Hf). exists id. split; [lia|]. cbn beta in Hf.
    destruct (owners_of !! id), (bool_decide (id ∈ pool_of)); congruence.
  - intros (id & Hid & Hf). exists id. split; [apply elem_of_seqZ; lia|].
    destruct (owners_of !! id), (bool_decide (id ∈ pool_of)); by subst.
Qed.

Lemma places_shared i n :
  mkFinding LError (MArenaShared i n) ∈ places → is_u64 i ∧ n ≠ [] ∧ owned m n i ∧ pooled m i.
Proof using Hpool.
  intros (i' & Hi & Hf)%elem_of_places. destruct (owners_of !! i') as [n'|] eqn:Eo; [|by case_bool_decide].
  case_bool_decide as Hp; [|done]. injection Hf as -> ->. destruct (owners_of_spec i' n' Eo) as (Hu & Hn & Ho).
  split; [done|]. split; [done|]. split; [done|]. by apply pool_of_spec.
Qed.

(** No arena is owned while it is in the pool. *)
Lemma places_errors :
  errors places = [] ↔ ∀ i n, is_u64 i → n ≠ [] → owned m n i → ¬ pooled m i.
Proof using Hpool.
  split.
  - intros He i n Hi Hn Ho Hp. destruct (owners_of_hit i n Hi Hn Ho) as [n' Hn'].
    assert (mkFinding LError (MArenaShared i n') ∈ errors places) as Hin; [|rewrite He in Hin; by apply elem_of_nil in Hin].
    apply list_elem_of_filter. split; [done|]. apply elem_of_places. exists i.
    rewrite Hn', bool_decide_eq_true_2 by by apply pool_of_spec. split; [|done].
    destruct Hpool as (_ & _ & _ & _ & Hlt & _). specialize (Hlt i Hi Hp). destruct Hi. lia.
  - intros Hno. apply elem_of_nil_inv. intros f [Hl Hf]%list_elem_of_filter. pose proof Hf as (i & Hi & Hm)%elem_of_places.
    destruct (owners_of !! i) as [n|] eqn:Eo; case_bool_decide as Hp; try done; subst f; [|done].
    apply places_shared in Hf as (Hu & Hn & Ho & Hpo). by apply (Hno i n).
Qed.

(** Arena findings.  On a store that holds what the pool's operations write,
    an arena is reported shared exactly when a node owns it while it is in the
    free pool, so never in a state where ownership is exclusive, and reported
    lost exactly when it was handed out and is in neither place. *)
Theorem fsck_arenas_exact id (Hid : is_u64 id) (Hctr : is_u64 (counter_value PrefixArenaLog m)) :
  ((∃ node, mkFinding LError (MArenaShared id node) ∈ places) ↔ (∃ node, node ≠ [] ∧ owned m node id) ∧ pooled m id) ∧
  (mkFinding LWarning (MArenaLost id) ∈ places ↔
   id < counter_value PrefixArenaLog m ∧ ¬ pooled m id ∧ ∀ node, node ≠ [] → ¬ owned m node id) ∧
  (arenas_exclusive m → errors places = []).
Proof using Hpool.
  split; [|split].
  - split.
    + intros [n (_ & Hn & Ho & Hp)%places_shared]. split; [by exists n|done].
    + intros [(n & Hn & Ho) Hp]. destruct (owners_of_hit id n Hid Hn Ho) as [n' Hn']. exists n'. apply elem_of_places.
      exists id. rewrite Hn', bool_decide_eq_true_2 by by apply pool_of_spec. split; [|done].
      destruct Hpool as (_ & _ & _ & _ & Hlt & _). specialize (Hlt id Hid Hp). destruct Hid. lia.
  - rewrite elem_of_places. split.
    + intros (i & Hi & Hf). destruct (owners_of !! i) as [n'|] eqn:Eo; case_bool_decide as Hp; try done.
      injection Hf as ->. split; [lia|]. split; [by rewrite <- pool_of_spec|].
      intros n Hn Ho. destruct (owners_of_hit i n Hid Hn Ho) as [? ?]. congruence.
    + intros (Hlt & Hp & Hno). exists id. split; [destruct Hid; lia|].
      rewrite (bool_decide_eq_false_2 (id ∈ pool_of)) by (by rewrite pool_of_spec).
      destruct (owners_of !! id) as [n|] eqn:Eo; [|done]. destruct (owners_of_spec id n Eo) as (_ & Hn & Ho). by apply (Hno n).
  - intros Hex. apply places_errors. intros i n Hu _ Ho. by apply (Hex i n Hu Ho).
Qed.
End arenas.

(** ** The whole run *)

Lemma scan_gens_lookup m node g :
  scan_gens (range_kvs (RPrefix PrefixGen) m) !! node = Some g ↔
  ∃ r, mkvs m !! GenKey node = Some r ∧ g = Sscanf_d (kv_val r).
Proof.
  assert (∀ l : list (bytes * kv), (∀ x, x ∈ l → x ∈ range_kvs (RPrefix PrefixGen) m) →
    scan_gens l !! node = Some g ↔ ∃ r, (GenKey node, r) ∈ l ∧ g = Sscanf_d (kv_val r)) as H.
  { intros l Hl. unfold scan_gens. induction l as [|[k r] l IH] using rev_ind.
    { split; [done|]. intros (r & Hr & _). by apply elem_of_nil in Hr. }
    rewrite foldl_app. cbn [foldl fst snd]. setoid_rewrite elem_of_app. setoid_rewrite list_elem_of_singleton.
    assert (∀ x, x ∈ l → x ∈ range_kvs (RPrefix PrefixGen) m) as Hl' by (intros; apply Hl, elem_of_app; by left).
    specialize (IH Hl'). assert ((k, r) ∈ range_kvs (RPrefix PrefixGen) m) as Hkr by (apply Hl, elem_of_app; right; left).
    apply elem_of_range_prefix in Hkr as [Hk Hp]. apply has_prefix_true in Hp as [n ->]. rewrite drop_app_length.
    destruct (decide (n = node)) as [->|Hn].
    - rewrite lookup_insert_eq. split.
      + intros [= <-]. exists r. split; [by right|done].
      + intros (r' & [Hin|[= ->]] & ->); [|done]. apply Hl', elem_of_range_prefix in Hin as [Hk' _].
        change (GenKey node) with (PrefixGen ++ node) in Hk'. congruence.
    - rewrite lookup_insert_ne by done. rewrite IH. split.
      + intros (r' & Hin & ->). exists r'. auto.
      + intros (r' & [Hin|[= E _]] & ->); [by exists r'|]. by destruct Hn. }
  rewrite (H _ (λ x Hx, Hx)). setoid_rewrite elem_of_range_prefix. split.
  - intros (r & [Hr _] & ->). by exists r.
  - intros (r & Hr & ->). exists r. split; [|done]. split; [done|]. apply has_prefix_app.
Qed.

Lemma all_extents_keys m : NoDup (Key <$> all_extents m).
Proof.
  unfold all_extents, DecodeExtents, SortExtents. rewrite merge_sort_Permutation.
  assert (NoDup (range_kvs (RPrefix PrefixExtent) m).*1) as Hn.
  { simpl. unfold range_all. rewrite merge_sort_Permutation. eapply sublist_NoDup; [apply (NoDup_fst_map_to_list (mkvs m))|].
    apply fmap_sublist, sublist_filter. }
  revert Hn. generalize (range_kvs (RPrefix PrefixExtent) m) as l. induction l as [|[k r] l IH]; intros Hn; [constructor|].
  simpl in Hn. apply NoDup_cons in Hn as [Hk Hn]. specialize (IH Hn). simpl.
  destruct (set_ModRevision (kv_mod r) <$> DecodeExtent k (kv_val r)) as [e|] eqn:Ee; simpl; [|done].
  apply NoDup_cons. split; [|done]. rewrite (decoded_key _ _ _ _ Ee).
  intros (f & Ef & Hf)%list_elem_of_fmap. apply list_elem_of_omap in Hf as ([k' r'] & Hin & Hf).
  rewrite (decoded_key _ _ _ _ Hf) in Ef. cbn [fst] in Ef. subst k'. apply Hk. by apply (list_elem_of_fmap_2 fst _ (k, r')).
Qed.

(** A store in which nothing is wrong. *)
Record healthy (m : mvcc) (devSize : Z) : Prop := {
  hl_inodes : ∀ k e, mkvs m !! k = Some e → has_prefix PrefixInode k = true → is_Some (DecodeInode (kv_val e));
  hl_names : ∀ k e, mkvs m !! k = Some e → has_prefix PrefixDirent k = true → DecodeUint64 (kv_val e) ≠ 0 →
             is_Some (inode_rec m (DecodeUint64 (kv_val e)));
  hl_extents : all_disjoint (all_extents m);
  hl_device : 0 < devSize → ∀ e, e ∈ all_extents m → DiskOff e + Length e <= devSize;
  hl_gens : ∀ e r, e ∈ all_extents m → mkvs m !! GenKey (Node e) = Some r → Gen e <= Sscanf_d (kv_val r);
  hl_arenas : ∀ n id, is_u64 id → owned m n id → n ≠ [] ∧ ¬ pooled m id ∧ (0 < devSize → (id + 1) * ArenaSizeBytes <= devSize)
}.

Section run.
Set Default Proof Using "Type".
Context (m : mvcc) (devSize : Z) `{MapOrder}.
Context (Htree : tree_ok m) (Hpool : pool_wf m) (Hdisk : Forall disk_ok (all_extents m)) (Hdev : 0 <= devSize).
Context (Hdir : ∀ k e, mkvs m !! k = Some e → has_prefix PrefixDirent k = true → is_u64 (DecodeUint64 (kv_val e))).
Context (Hfit : ∀ n id, is_u64 id → owned m n id → (id + 1) * ArenaSizeBytes < 2 ^ 64).

(** What a run reads from a store nobody changes. *)
Definition snap_of : Snapshot :=
  snapshot_of (range_kvs (RPrefix PrefixExtent) m) (range_kvs (RPrefix PrefixInode) m)
    (range_kvs (RPrefix PrefixDirent) m) (range_kvs (RPrefix PrefixGen) m).

Lemma snap_of_fields : sn_extents snap_of = all_extents m ∧ sn_inodes snap_of = all_inodes m ∧
  sn_generations snap_of = scan_gens (range_kvs (RPrefix PrefixGen) m).
Proof. unfold snap_of, snapshot_of. by destruct (scan_dirents _ _). Qed.

Lemma corrupt_ok :
  errors (corrupt_inodes (range_kvs (RPrefix PrefixInode) m)) = [] ↔
  ∀ k e, mkvs m !! k = Some e → has_prefix PrefixInode k = true → is_Some (DecodeInode (kv_val e)).
Proof.
  unfold corrupt_inodes. rewrite errors_omap.
  assert (∀ v, is_Some (DecodeInode v) ↔ ¬ (length v < 72)%nat) as Hd.
  { intros v. unfold DecodeInode, inodeBytesV1. case_bool_decide; [split; [by intros [? ?]|by intros []]|].
    split; [done|]. intros _. repeat case_match; by eexists. }
  setoid_rewrite Hd. split.
  - intros He k e Hk Hp Hlt. refine (He (k, e) (mkFinding LError _) _ _ eq_refl); [by apply elem_of_range_prefix|]. cbn [fst snd]. by rewrite bool_decide_eq_true_2.
  - intros Hno [k e] y [Hk Hp]%elem_of_range_prefix Hy. cbn [fst snd] in Hy. case_bool_decide; [|done]. by destruct (Hno k e Hk Hp).
Qed.

Lemma dangling_ok :
  errors (dangling_dirents snap_of (range_kvs (RPrefix PrefixDirent) m)) = [] ↔
  ∀ k e, mkvs m !! k = Some e → has_prefix PrefixDirent k = true → DecodeUint64 (kv_val e) ≠ 0 →
    is_Some (inode_rec m (DecodeUint64 (kv_val e))).
Proof using Htree Hdir.
  unfold dangling_dirents. rewrite errors_omap. destruct snap_of_fields as (_ & -> & _). split.
  - intros He k e Hk Hp Hz. rewrite <- all_inodes_lookup by eauto.
    destruct (all_inodes m !! DecodeUint64 (kv_val e)) as [rec|] eqn:Er; [done|]. exfalso.
    refine (He (k, e) (mkFinding LError _) _ _ eq_refl); [by apply elem_of_range_prefix|]. cbn [fst snd]. by rewrite (proj2 (Z.eqb_neq _ _) Hz), Er.
  - intros Hok [k e] y [Hk Hp]%elem_of_range_prefix Hy. cbn [fst snd] in Hy.
    destruct (Z.eqb_spec (DecodeUint64 (kv_val e)) 0) as [|Hz]; [done|].
    destruct (Hok k e Hk Hp Hz) as [rec Hr]. rewrite all_inodes_lookup, Hr in Hy by eauto. done.
Qed.

Lemma bounds_ok :
  errors (arena_bounds devSize (range_kvs (RPrefix PrefixArena) m)) = [] ↔
  ∀ n id, is_u64 id → owned m n id → n ≠ [] ∧ (0 < devSize → (id + 1) * ArenaSizeBytes <= devSize).
Proof using Hpool Hfit.
  unfold arena_bounds. rewrite errors_app. rewrite errors_omap.
  assert (errors match range_kvs (RPrefix PrefixArena) m with [] => [mkFinding LInfo MNoArenas] | _ => [] end = []) as Hi.
  { by destruct (range_kvs (RPrefix PrefixArena) m). }
  rewrite Hi. assert (∀ n id, is_u64 id → owned m n id →
    mul64 (add64 id 1) ArenaSizeBytes = (id + 1) * ArenaSizeBytes) as Hmul.
  { intros n id Hid Ho. specialize (Hfit n id Hid Ho). unfold ArenaSizeBytes in *. destruct Hid. rewrite add64_small by lia.
    apply mul64_small. lia. }
  split.
  - intros [_ He] n id Hid Ho. pose proof Ho as [[v l] (e & Hk & _)%val_at_Some].
    assert ((ArenaOwnerKey n id, e) ∈ range_kvs (RPrefix PrefixArena) m) as Hin.
    { apply elem_of_range_prefix. split; [done|]. unfold ArenaOwnerKey. apply has_prefix_app. }
    pose proof (λ y, He _ y Hin) as He'. cbn [fst snd] in He'. rewrite ArenaKey_parse in He' by done. clear He. rename He' into He.
    case_bool_decide as Hn; [by destruct (He _ eq_refl)|]. split; [done|]. intros Hd. rewrite (Hmul n id Hid Ho) in He.
    destruct (Z.ltb_spec devSize ((id + 1) * ArenaSizeBytes)) as [Hlt|]; [|lia].
    rewrite (proj2 (Z.ltb_lt _ _) Hd) in He. by destruct (He _ eq_refl).
  - intros Hok. split; [done|]. intros [k e] y [Hk Hp]%elem_of_range_prefix Hy. cbn [fst snd] in Hy.
    destruct Hpool as (_ & _ & Ha & _). destruct (Ha k (kv_val e) (kv_lease e)) as (n & id & Hid & -> & _); [|done|].
    { unfold val_at. by rewrite Hk. }
    assert (owned m n id) as Ho by (apply val_at_is_Some; by rewrite Hk). destruct (Hok n id Hid Ho) as [Hn Hle].
    rewrite ArenaKey_parse, bool_decide_eq_false_2, (Hmul n id Hid Ho) in Hy by done.
    destruct (Z.ltb_spec 0 devSize) as [Hd|]; [|done]. specialize (Hle Hd).
    rewrite (proj2 (Z.ltb_ge _ _)) in Hy by lia. done.
Qed.

Lemma range_ok :
  CheckRangeValidity snap_of devSize = [] ↔ (0 < devSize → ∀ e, e ∈ all_extents m → DiskOff e + Length e <= devSize).
Proof using Hdisk Hdev.
  unfold CheckRangeValidity. destruct snap_of_fields as (-> & _ & _). rewrite Forall_forall in Hdisk.
  destruct (Z.eqb_spec devSize 0) as [->|Hz]; [by split; [intros _ ?|]|]. rewrite omap_nil. split.
  - intros Hn _ e He. specialize (Hn e He). destruct (Hdisk e He) as (? & ? & ?). rewrite add64_small in Hn by lia.
    by destruct (Z.ltb_spec devSize (DiskOff e + Length e)).
  - intros Hn e He. specialize (Hn ltac:(lia) e He). destruct (Hdisk e He) as (? & ? & ?). rewrite add64_small by lia.
    by rewrite (proj2 (Z.ltb_ge _ _)) by lia.
Qed.

Lemma gens_ok :
  CheckGenerationConsistency snap_of = [] ↔
  ∀ e r, e ∈ all_extents m → mkvs m !! GenKey (Node e) = Some r → Gen e <= Sscanf_d (kv_val r).
Proof.
  unfold CheckGenerationConsistency. destruct snap_of_fields as (-> & _ & ->). rewrite omap_nil. split.
  - intros Hn e r He Hr. specialize (Hn e He). rewrite (proj2 (scan_gens_lookup m (Node e) (Sscanf_d (kv_val r)))) in Hn by eauto.
    by destruct (Z.leb_spec (Gen e) (Sscanf_d (kv_val r))).
  - intros Hn e He. destruct (scan_gens _ !! Node e) as [g|] eqn:Eg; [|done].
    apply scan_gens_lookup in Eg as (r & Hr & ->). by rewrite (proj2 (Z.leb_le _ _) (Hn e r He Hr)).
Qed.

(** The findings of a run on this store. *)
Definition all_findings : list Finding :=
  corrupt_inodes (range_kvs (RPrefix PrefixInode) m) ++ dangling_dirents snap_of (range_kvs (RPrefix PrefixDirent) m) ++
  report LWarning (CheckUnreferencedInodes snap_of) ++ report LWarning (CheckNlinkConsistency snap_of) ++
  report LWarning (CheckOrphanExtents snap_of) ++ report LWarning (CheckDeadExtents snap_of) ++
  report LError (CheckExtentCollisions snap_of) ++ report LError (CheckRangeValidity snap_of devSize) ++
  report LError (CheckGenerationConsistency snap_of) ++
  arena_bounds devSize (range_kvs (RPrefix PrefixArena) m) ++ places m.

Lemma wpx_Run s : wpx (Run s devSize) (λ r σ, r = all_findings ∧ σ.1 = m) m.
Proof.
  assert (∀ A p (f : list (bytes * kv) → prog A) Q, wpx (f (range_kvs (RPrefix p) m)) Q m →
    wpx (l ⇐ prefix_or_nil s p; f l) Q m) as Hp.
  { intros A p f Q HQ. apply wpx_bind, wpx_bind, wpx_GetPrefix, wpx_ret. exact HQ. }
  unfold Run, Scan. apply wpx_bind. do 4 apply wpx_ebind, wpx_GetPrefix. apply wpx_ret. cbn [fst].
  apply wpx_bind, Hp, wpx_ret, wpx_bind, Hp, wpx_ret, wpx_bind, Hp, wpx_ret, wpx_bind, wpx_bind, wpx_Get. cbn [fst].
  apply Hp, Hp, wpx_ret, wpx_ret. split; [|done]. unfold all_findings, places, counter_value, stored.
  by destruct (mkvs m !! PrefixArenaLog) as [[[] ? ? ?]|].
Qed.

Lemma healthy_errors : errors all_findings = [] ↔ healthy m devSize.
Proof using Htree Hpool Hdisk Hdev Hdir Hfit.
  unfold all_findings. rewrite !errors_app, !errors_report, corrupt_ok, dangling_ok, bounds_ok, range_ok, gens_ok, places_errors by done.
  unfold CheckExtentCollisions. destruct snap_of_fields as (-> & _ & _).
  rewrite (collisions_of_nil (all_extents m)); [|apply merge_sort_Permutation|apply StronglySorted_merge_sort; apply _|done|apply all_extents_keys].
  split.
  - intros (H1 & H2 & _ & _ & _ & _ & [|H3] & [|H4] & [|H5] & H6 & H7); try done.
    split; try done. intros n id Hid Ho. destruct (H6 n id Hid Ho) as [Hn Hd]. split; [done|]. split; [by apply (H7 id n)|done].
  - intros [H1 H2 H3 H4 H5 H6]. repeat (split; [by auto|]). split.
    + intros n id Hid Ho. destruct (H6 n id Hid Ho) as (? & ? & ?). auto.
    + intros id n Hid _ Ho. by apply (H6 n id).
Qed.
End run.


(** ** On concrete stores *)

(** The store of ScrubFiles has unreadable extents but nothing wrong with it. *)
Lemma sf_pool : pool_wf sf_store.
Proof.
  assert (∀ k e p, mkvs sf_store !! k = Some e → p ∈ [PrefixArenaLog; PrefixArena; PrefixFreeArena; PrefixDirent] → has_prefix p k = false) as Hno.
  { intros k e p Hk Hp. apply not_true_is_false. intros Hpk. apply has_prefix_true in Hpk as [t ->].
    apply sf_keys in Hk as [[[E _]|(i & c & _ & _ & E)] _];
      rewrite !elem_of_cons, elem_of_nil in Hp; destruct Hp as [->|[->|[->|[->|[]]]]]; vm_compute in E; discriminate. }
  assert (∀ k p, is_Some (val_at k sf_store) → p ∈ [PrefixArenaLog; PrefixArena; PrefixFreeArena; PrefixDirent] → has_prefix p k = false) as Hno'.
  { intros k p [e He]%val_at_is_Some. by apply (Hno k e). }
  split; [|split; [|split; [|split; [|split]]]].
  - unfold sf_store. apply mvcc_ops_wf, empty_store_wf.
  - intros v l Hv. by assert (has_prefix PrefixArenaLog PrefixArenaLog = false) by (apply Hno'; [by eexists|left]).
  - intros k v l Hv Hp. rewrite (Hno' k PrefixArena) in Hp; [done|by eexists|set_solver].
  - intros k Hk Hp. rewrite (Hno' k PrefixFreeArena) in Hp; [done|done|set_solver].
  - intros id _ Hp. pose proof (Hno' (FreeArenaKey id) PrefixFreeArena Hp ltac:(set_solver)) as Hf.
    unfold FreeArenaKey in Hf. by rewrite has_prefix_app in Hf.
  - intros id n _ Ho. pose proof (Hno' (ArenaOwnerKey n id) PrefixArena Ho ltac:(set_solver)) as Hf.
    unfold ArenaOwnerKey in Hf. by rewrite has_prefix_app in Hf.
Qed.


(** An arena that is owned and pooled at once. *)
Definition fk_store : mvcc :=
  (mvcc_ops empty_store
     [put PrefixArenaLog (EncodeUint64 2); put (ArenaOwnerKey (lit "n1") 0) (EncodeUint64 0); put (FreeArenaKey 0) (lit "free")]).1.

Lemma fk_pool : pool_wf fk_store.
Proof.
  assert (∀ k e, mkvs fk_store !! k = Some e →
    k = PrefixArenaLog ∧ kv_lease e = 0 ∨ k = ArenaOwnerKey (lit "n1") 0 ∧ kv_val e = EncodeUint64 0 ∧ kv_lease e = 0 ∨ k = FreeArenaKey 0) as Hk.
  { intros k e Hk%elem_of_map_to_list. revert k e Hk.
    assert (Forall (λ x : bytes * kv, (x.1 = PrefixArenaLog ∧ kv_lease x.2 = 0) ∨
      ((x.1 = ArenaOwnerKey (lit "n1") 0 ∧ kv_val x.2 = EncodeUint64 0 ∧ kv_lease x.2 = 0) ∨ x.1 = FreeArenaKey 0))
      (map_to_list (mkvs fk_store))) as Hf by (apply (bool_decide_unpack _); vm_compute; exact I).
    rewrite Forall_forall in Hf. intros k e Hk. apply (Hf (k, e) Hk). }
  assert (is_u64 0) as H0 by (unfold is_u64; lia).
  split; [|split; [|split; [|split; [|split]]]].
  - unfold fk_store. apply mvcc_ops_wf, empty_store_wf.
  - intros v l (e & He & _ & <-)%val_at_Some. vm_compute in He. by injection He as <-.
  - intros k v l (e & He & <- & <-)%val_at_Some Hp. destruct (Hk k e He) as [[-> _]|[(-> & Hv & Hl)| ->]];
      [vm_compute in Hp; discriminate| |vm_compute in Hp; discriminate]. by exists (lit "n1"), 0.
  - intros k [e He]%val_at_is_Some Hp. destruct (Hk k e He) as [[-> _]|[(-> & _)| ->]];
      [vm_compute in Hp; discriminate|vm_compute in Hp; discriminate|]. by exists 0.
  - intros id Hid [e He]%val_at_is_Some. destruct (Hk _ e He) as [[E _]|[(E & _)|E]]; [vm_compute in E; discriminate|vm_compute in E; discriminate|].
    apply FreeArenaKey_inj in E as ->; [vm_compute; reflexivity|done|done].
  - intros id n Hid [e He]%val_at_is_Some. destruct (Hk _ e He) as [[E _]|[(E & _)|E]]; [vm_compute in E; discriminate| |vm_compute in E; discriminate].
    apply ArenaOwnerKey_inj in E as [_ ->]; [vm_compute; reflexivity|done|done].
Qed.

Lemma fsck_arenas_exact_witness : ∃ node, mkFinding LError (MArenaShared 0 node) ∈ places fk_store.
Proof.
  apply (fsck_arenas_exact fk_store fk_pool 0).
  - unfold is_u64. lia.
  - assert (counter_value PrefixArenaLog fk_store = 2) as -> by (vm_compute; reflexivity). unfold is_u64. lia.
  - split; [exists (lit "n1"); split; [vm_compute; discriminate|]|]; apply val_at_is_Some; vm_compute; eexists; reflexivity.
Defined.
