(* ===== verification/Fencers.v ===== *)
(** * The device fencers

    Models pkg/nvmeresv/nvmeresv.go (the reservation commands of an NVMe
    namespace), pkg/fencing/nvme.go (the fencer that preempts a node's key) and
    pkg/fencing/detach.go (the fencer that detaches an EBS volume and polls for
    the detachment).  These are what answers the controller's request to cut a
    node off ([QFence]).

    Neither talks to etcd, so they are programs over requests of their own: the
    pass-through ioctl, the two EC2 calls, the clock and a timer that may lose
    against the context.  Times are nanoseconds; an EC2 error is its text. *)

From S2P Require Import Prelude Etcd Schema Store.

(** ** Requests *)

(** [struct nvme_passthru_cmd]; [addr] is the buffer it points to. *)
Record passthruCmd := mkCmd {
  opcode : Z; flags : Z; rsvd1 : Z; nsid : Z; cdw2 : Z; cdw3 : Z; metadata : Z; addr : bytes;
  metadataLen : Z; dataLen : Z; cdw10 : Z; cdw11 : Z; cdw12 : Z; cdw13 : Z; cdw14 : Z; cdw15 : Z;
  timeoutMS : Z }.

(** One attachment of a volume: its instance, and whether it is detached. *)
Record attachment := mkAttachment { att_instance : option bytes; att_detached : bool }.

Inductive fcall :=
| Ioctl (cmd : passthruCmd)                    (* result code and buffer, or an errno *)
| DetachVolume (volume instance : bytes)       (* the error's text *)
| DescribeVolumes (volume : bytes)             (* attachments per volume, or an error *)
| Clock                                        (* time.Now *)
| WaitFor (d : Z).                             (* did the context end first? *)

Definition fanswer (q : fcall) : Type :=
  match q with
  | Ioctl _ => option (Z * bytes)
  | DetachVolume _ _ => option bytes
  | DescribeVolumes _ => option (list (list attachment))
  | Clock => Z
  | WaitFor _ => bool
  end.

Inductive fprog (A : Type) :=
| FRet (a : A)
| FAsk (q : fcall) (k : fanswer q → fprog A).
Arguments FRet {A} a.
Arguments FAsk {A} q k.

#[global] Instance fprog_ret : MRet fprog := @FRet.
#[global] Instance fprog_bind : MBind fprog := λ A B f,
  fix go p := match p with FRet a => f a | FAsk q k => FAsk q (λ a, go (k a)) end.

#[global] Instance fprog_fmap : FMap fprog := λ A B f p, p ≫= λ a, FRet (f a).

Definition ask (q : fcall) : fprog (fanswer q) := FAsk q FRet.

(** What answers: any state machine whose clock does not go back and whose timer
    takes its time. *)
Class World := {
  world : Type;
  now : world → Z;
  answer : ∀ q, world → world * fanswer q;
  clock_exact w : let '(w', t) := answer Clock w in t = now w' ∧ now w <= t;
  clock_monotone q w : now w <= now (answer q w).1;
  timer_waits d w : let '(w', ended) := answer (WaitFor d) w in ended = false → now w + d <= now w' }.

Definition event : Type := { q : fcall & fanswer q }.

(** A run: the requests with their answers, the world afterwards, the result. *)
Fixpoint frun `{World} {A} (p : fprog A) (w : world) : list event * world * A :=
  match p with
  | FRet a => ([], w, a)
  | FAsk q k =>
    let '(w', a) := answer q w in
    let '(tr, w'', r) := frun (k a) w' in
    (existT q a :: tr, w'', r)
  end.

(** ** NVMe reservation commands *)

Definition le (n : nat) (v : Z) : bytes := rev (be n v).
Definition le_decode (b : bytes) : Z := be_decode (rev b).

(** [b[i:j]]. *)
Definition slice (i j : nat) (b : bytes) : bytes := take (j - i) (drop i b).

Definition opReservationRegister : Z := 13.
Definition opReservationReport : Z := 14.
Definition opReservationAcquire : Z := 17.
Definition opReservationRelease : Z := 21.
Definition TypeWriteExclusiveAllRegistrants : Z := 5.
Definition registerActionRegister : Z := 0.
Definition registerActionUnregister : Z := 1.
Definition acquireActionAcquire : Z := 0.
Definition acquireActionPreempt : Z := 1.
Definition releaseActionRelease : Z := 0.

(** The descriptor is the namespace number. *)
Definition submitIoctl (cmd : passthruCmd) : fprog (result bytes) :=
  r ← ask (Ioctl cmd);
  mret match r with
       | None => Err EOther
       | Some (code, data) => if negb (code =? 0) then Err EOther else Ok data
       end.

(** The buffer after the command is returned. *)
Definition exec (dev op c10 c11 : Z) (data : bytes) : fprog (result bytes) :=
  submitIoctl (mkCmd op 0 0 dev 0 0 0 data 0
    (if bool_decide (0 < length data)%nat then wrap32 (Z.of_nat (length data)) else 0) c10 c11 0 0 0 0 15000).

Definition keyPair (current other : Z) : bytes := le 8 current ++ le 8 other.

(** [uint32(action) | uint32(TypeWriteExclusiveAllRegistrants)<<8]. *)
Definition with_type (action : Z) : Z := Z.lor action (Z.shiftl TypeWriteExclusiveAllRegistrants 8).

Definition unit_of {A} (r : result A) : result unit := match r with Ok _ => Ok tt | Err e => Err e end.

Definition Register (dev key : Z) : fprog (result unit) :=
  unit_of <$> exec dev opReservationRegister registerActionRegister 0 (keyPair 0 key).

Definition Unregister (dev key : Z) : fprog (result unit) :=
  unit_of <$> exec dev opReservationRegister registerActionUnregister 0 (keyPair key 0).

Definition Acquire (dev key : Z) : fprog (result unit) :=
  unit_of <$> exec dev opReservationAcquire (with_type acquireActionAcquire) 0 (keyPair key 0).

Definition Preempt (dev selfKey victimKey : Z) : fprog (result unit) :=
  unit_of <$> exec dev opReservationAcquire (with_type acquireActionPreempt) 0 (keyPair selfKey victimKey).

Definition Release (dev key : Z) : fprog (result unit) :=
  unit_of <$> exec dev opReservationRelease (with_type releaseActionRelease) 0 (le 8 key).

Record Registrant := mkRegistrant { ControllerID : Z; rg_key : Z; HoldsReservation : bool }.
Record Report := mkReport { rp_generation : Z; rp_type : Z; Registrants : list Registrant }.

Definition Report_Holds (r : Report) (key : Z) : bool := existsb (λ reg, rg_key reg =? key) (Registrants r).

Definition reportHeaderLen : nat := 24.
Definition registrantLen : nat := 24.
Definition reportBufLen : nat := reportHeaderLen + 64 * registrantLen.

Definition registrant_at (buf : bytes) (i : nat) : Registrant :=
  let e := drop (reportHeaderLen + i * registrantLen) buf in
  mkRegistrant (le_decode (slice 0 2 e)) (le_decode (slice 14 22 e))
    (negb (Z.land (default 0 (e !! 2%nat)) 1 =? 0)).

Definition parseReport (buf : bytes) : result Report :=
  if bool_decide (length buf < reportHeaderLen)%nat then Err EOther
  else
    let count := Z.to_nat (le_decode (slice 5 7 buf)) in
    if bool_decide (length buf < reportHeaderLen + count * registrantLen)%nat then Err EOther
    else Ok (mkReport (le_decode (slice 0 4 buf)) (default 0 (buf !! 4%nat)) (map (registrant_at buf) (seq 0 count))).

Definition Report_ (dev : Z) : fprog (result Report) :=
  let buf := replicate reportBufLen 0 in
  let numd := wrap32 (Z.of_nat (length buf) / 4 - 1) in
  r ← exec dev opReservationReport numd 0 buf;
  mret match r with Err e => Err e | Ok buf => parseReport buf end.

(** FNV-1a, 64 bits. *)
Definition fnv_offset : Z := 14695981039346656037.
Definition fnv_prime : Z := 1099511628211.
Definition fnv1a (b : bytes) : Z := foldl (λ h c, mul64 (Z.lxor h c) fnv_prime) fnv_offset b.

Definition KeyForNode (nodeID : bytes) : Z :=
  let k := fnv1a nodeID in if negb (k =? 0) then k else 1.

(** ** Fencing by reservation *)

Record NVMeFencer := mkNVMeFencer { nf_dev : Z; selfKey : Z }.

Definition newNVMeFencer (dev : Z) (nodeID : bytes) : fprog (result NVMeFencer) :=
  let key := KeyForNode nodeID in
  r ← Register dev key;
  match r with
  | Err e => mret (Err e)
  | Ok _ => _ ← Acquire dev key; mret (Ok (mkNVMeFencer dev key))
  end.

Definition NVMeFencer_Fence (f : NVMeFencer) (nodeID instanceID : bytes) : fprog (result unit) :=
  let victim := KeyForNode nodeID in
  if victim =? selfKey f then mret (Err EOther)
  else
    r ← Preempt (nf_dev f) (selfKey f) victim;
    match r with
    | Err e => mret (Err e)
    | Ok _ =>
      report ← Report_ (nf_dev f);
      mret match report with
           | Err e => Err e
           | Ok rep => if Report_Holds rep victim then Err EOther else Ok tt
           end
    end.

(** ** Fencing by detachment *)

Record EBSDetacher := mkDetacher { volumeID : bytes; PollInterval : Z; PollTimeout : Z }.

(** The intervals [NewEBSDetacher] sets: 2 and 60 seconds. *)
Definition newDetacher (volume : bytes) : option EBSDetacher :=
  match volume with [] => None | _ => Some (mkDetacher volume (2 * nanos) (60 * nanos)) end.

(** [strings.Contains]. *)
Fixpoint contains (sub s : bytes) : bool :=
  has_prefix sub s || match s with [] => false | _ :: s' => contains sub s' end.

Definition alreadyDetached (msg : bytes) : bool :=
  existsb (λ s, contains s msg) [lit "IncorrectState"; lit "InvalidAttachment.NotFound"; lit "is not attached"].

Definition holds_volume (instanceID : bytes) (att : attachment) : bool :=
  bool_decide (att_instance att = Some instanceID) && negb (att_detached att).

Definition stillAttached (d : EBSDetacher) (instanceID : bytes) : fprog (result bool) :=
  out ← ask (DescribeVolumes (volumeID d));
  mret match out with
       | None => Err EOther
       | Some vols => Ok (existsb (existsb (holds_volume instanceID)) vols)
       end.

(** The polling loop; [None] only when the fuel is spent. *)
Fixpoint poll (d : EBSDetacher) (instanceID : bytes) (deadline : Z) (fuel : nat) : fprog (option (result unit)) :=
  match fuel with
  | O => mret None
  | S n =>
    r ← stillAttached d instanceID;
    match r with
    | Err e => mret (Some (Err e))
    | Ok false => mret (Some (Ok tt))
    | Ok true =>
      t ← ask Clock;
      if deadline <? t then mret (Some (Err EOther))
      else
        ended ← ask (WaitFor (PollInterval d));
        if (ended : bool) then mret (Some (Err EOther)) else poll d instanceID deadline n
    end
  end.

(** One poll at the start, one per interval, and one past the deadline. *)
Definition poll_fuel (d : EBSDetacher) : nat := 2 + Z.to_nat (PollTimeout d / PollInterval d).

Definition DetachAndConfirm (d : EBSDetacher) (instanceID : bytes) : fprog (option (result unit)) :=
  match instanceID with
  | [] => mret (Some (Err EOther))
  | _ =>
    err ← ask (DetachVolume (volumeID d) instanceID);
    let refused := match err with Some msg => negb (alreadyDetached msg) | None => false end in
    if refused then mret (Some (Err EOther))
    else t ← ask Clock; poll d instanceID (t + PollTimeout d) (poll_fuel d)
  end.

Definition EBSDetacher_Fence (d : EBSDetacher) (nodeID instanceID : bytes) : fprog (option (result unit)) :=
  match instanceID with [] => mret (Some (Err EOther)) | _ => DetachAndConfirm d instanceID end.
