(* ===== verification/FenceWatch.v ===== *)
(** * The controller's watch

    Models Run of pkg/fencing/controller.go: the loop that watches membership,
    records an intent for every node that disappears and starts its fence.  etcd's
    watch is a parameter, as in Watch: [channel i resume] is every response the
    [i]-th channel carries before it closes, asked to start at [resume] (0: from
    current).  The fences are goroutines; the loop's result lists them in the
    order they are started. *)

From S2P Require Import Prelude Etcd EtcdFacts Schema Store StoreLogic StoreProps Extents Allocator ArenaPool ArenaProps InodeTimes Dirents NamespaceProps FenceRecords Membership Controller ControllerProps MembershipProps FenceProps Fencers Watch.

(** An event of the membership prefix, with the value it replaced. *)
Record mevent := mkMEvent { me_rev : Z; me_key : bytes; me_delete : bool; me_prev : option bytes }.

(** A response, or the error that ends a watch. *)
Inductive mresp := MResp (events : list mevent) (revision : Z) | MErr.

Section run.
(** The decoder of membership records. *)
Context (unmarshal : bytes → option MembershipRecord) (c : Controller).

Definition InstanceIDFromMembership (value : bytes) : bytes :=
  match unmarshal value with Some rec => InstanceID rec | None => [] end.

Definition event_instance (e : mevent) : bytes :=
  match me_prev e with Some v => InstanceIDFromMembership v | None => [] end.

(** The node and instance of the fence an event starts. *)
Definition handle_event (e : mevent) : prog (option (bytes * bytes)) :=
  if negb (me_delete e) then Ret None
  else
    let node := extractNodeID (me_key e) in
    let instance := event_instance e in
    clean ⇐ departedCleanly c node;
    if (clean : bool) then Ret None
    else _ ⇐ RecordFenceIntent node instance; Ret (Some (node, instance)).

Fixpoint handle_events (evs : list mevent) : prog (list (bytes * bytes)) :=
  match evs with
  | [] => Ret []
  | e :: evs' =>
    r ⇐ handle_event e;
    rest ⇐ handle_events evs';
    Ret (match r with Some f => f :: rest | None => rest end)
  end.

(** One channel, until it closes or fails; an error of any kind forgets the
    revision reached. *)
Fixpoint watch_channel (resps : list mresp) (lastRev : Z) : prog (list (bytes * bytes) * Z) :=
  match resps with
  | [] => Ret ([], lastRev)
  | MErr :: _ => Ret ([], 0)
  | MResp evs revision :: resps' =>
    started ⇐ handle_events evs;
    r ⇐ watch_channel resps' (Z.max lastRev revision);
    Ret (started ++ r.1, r.2)
  end.

Definition resume_at (lastRev : Z) : Z := if 0 <? lastRev then lastRev + 1 else 0.

(** [n] channels; the loop itself ends only with its context. *)
Fixpoint Controller_Run (channel : nat → Z → list mresp) (n i : nat) (lastRev : Z) : prog (list (bytes * bytes) * Z) :=
  match n with
  | O => Ret ([], lastRev)
  | S n' =>
    r ⇐ watch_channel (channel i (resume_at lastRev)) lastRev;
    rest ⇐ Controller_Run channel n' (S i) r.2;
    Ret (r.1 ++ rest.1, rest.2)
  end.

(** ** What etcd promises *)

(** From [from] on, each response carries everything up to its revision. *)
Fixpoint carries (hist : list mevent) (from : Z) (resps : list mresp) : Prop :=
  match resps with
  | [] => True
  | MErr :: rest => rest = []
  | MResp evs h :: rest => from - 1 <= h ∧ evs = between me_rev hist from h ∧ carries hist (h + 1) rest
  end.

Definition watched (hist : list mevent) (current : nat → Z) (channel : nat → Z → list mresp) : Prop :=
  ∀ i resume, carries hist (if resume =? 0 then current i + 1 else resume) (channel i resume).

(** ** What the loop starts *)

(** Whether the cluster's records bear out a departure. *)
Definition gone_cleanly (m : mvcc) (n : bytes) : bool :=
  bool_decide (is_Some (stored (DepartedKey n) m)) && negb (holds_arenas m n).

Definition to_start (m : mvcc) (e : mevent) : option (bytes * bytes) :=
  let node := extractNodeID (me_key e) in
  if me_delete e && negb (gone_cleanly m node) then Some (node, event_instance e) else None.

(** The intents of [fences] are recorded over [m], the last of a node winning. *)
Record intents_over (m : mvcc) (fences : list (bytes * bytes)) (m' : mvcc) : Prop := IntentsOver {
  io_recorded n i : (n, i) ∈ fences → ∃ i', (n, i') ∈ fences ∧ val_at (FencePendingKey n) m' = Some (i', 0);
  io_other k : (∀ n i, (n, i) ∈ fences → k ≠ FencePendingKey n) → val_at k m' = val_at k m
}.

Lemma intents_over_app m fs m1 fs' m2 : intents_over m fs m1 → intents_over m1 fs' m2 → intents_over m (fs ++ fs') m2.
Proof.
  intros [R1 O1] [R2 O2]. split.
  - intros n i Hin. destruct (decide (n ∈ fs'.*1)) as [Hn|Hn].
    + apply list_elem_of_fmap in Hn as ([n' i'] & E & Hi'). cbn in E. subst n'. destruct (R2 n i' Hi') as (i2 & H2 & Hv).
      exists i2. split; [|done]. apply elem_of_app. by right.
    + assert (∀ i', (n, i') ∉ fs') as Hno by (intros i' Hi'; apply Hn, list_elem_of_fmap; by exists (n, i')).
      apply elem_of_app in Hin as [Hin|Hin]; [|by apply Hno in Hin]. destruct (R1 n i Hin) as (i1 & H1 & Hv).
      exists i1. split; [apply elem_of_app; by left|]. rewrite O2; [done|].
      intros n' i' Hi' E. apply app_inv_head in E as <-. by apply (Hno i').
  - intros k Hk. rewrite O2, O1; [done| |]; intros n i Hi; apply (Hk n i), elem_of_app; auto.
Qed.

(** Recording intents does not change who left cleanly. *)
Lemma to_start_over m fs m' e : intents_over m fs m' → to_start m' e = to_start m e.
Proof.
  intros [_ O]. unfold to_start. set (n := extractNodeID (me_key e)).
  assert (gone_cleanly m' n = gone_cleanly m n) as ->; [|done]. unfold gone_cleanly.
  rewrite !stored_val_at, O by done. f_equal. f_equal. apply eq_bool_prop_intro. rewrite !Is_true_true, !holds_arenas_iff.
  split; intros (k & Hk & Hp); exists k; (split; [|done]).
  - rewrite <- O; [done|]. by intros n' i' _ ->.
  - rewrite O; [done|]. by intros n' i' _ ->.
Qed.

Lemma starts_over m fs m' (evs : list mevent) : intents_over m fs m' → omap (to_start m') evs = omap (to_start m) evs.
Proof. intros H. induction evs as [|e evs IH]; csimpl; [done|]. by rewrite (to_start_over m fs m') by done; rewrite IH. Qed.

Lemma wpx_handle_event e m (Q : option (bytes * bytes) → mvcc * unit → Prop) :
  (∀ m', intents_over m (option_list (to_start m e)) m' → Q (to_start m e) (m', tt)) → wpx (handle_event e) Q m.
Proof.
  intros HQ. assert (intents_over m [] m) as Hnil by (split; [by intros n i ?%elem_of_nil|done]).
  unfold handle_event, to_start in *. destruct (me_delete e); cbn [negb andb] in *; [|by apply wpx_ret, HQ].
  apply wpx_bind, wpx_departedCleanly. cbn [fst]. fold (gone_cleanly m (extractNodeID (me_key e))).
  destruct (gone_cleanly m (extractNodeID (me_key e))); cbn [negb] in *; [by apply wpx_ret, HQ|].
  apply wpx_bind, wpx_ebind, wpx_putRaw; [done|]. intros r. cbn [fst]. apply wpx_ret, wpx_ret, HQ. cbn [fst]. split.
  - intros n i [= -> ->]%list_elem_of_singleton. eexists. split; [by apply list_elem_of_singleton|].
    rewrite val_at_ops. effects. by rewrite bool_decide_eq_true_2.
  - intros k Hk. rewrite val_at_ops. effects. rewrite bool_decide_eq_false_2; [done|]. by eapply Hk, list_elem_of_singleton.
Qed.

Lemma wpx_handle_events evs m (Q : list (bytes * bytes) → mvcc * unit → Prop) :
  (∀ m', intents_over m (omap (to_start m) evs) m' → Q (omap (to_start m) evs) (m', tt)) → wpx (handle_events evs) Q m.
Proof.
  revert m Q. induction evs as [|e evs IH]; intros m Q HQ.
  { apply wpx_ret, HQ. split; [by intros n i ?%elem_of_nil|done]. }
  apply wpx_bind, wpx_handle_event. intros m1 H1. cbn [fst]. apply wpx_bind, IH. intros m2 H2.
  rewrite (starts_over _ _ _ _ H1) in *. apply wpx_ret. cbn [fst].
  pose proof (intents_over_app _ _ _ _ _ H1 H2) as H12. csimpl in HQ. destruct (to_start m e); by apply HQ.
Qed.

(** The events of a channel that the loop handles, and where it stands then. *)
Fixpoint channel_seen (resps : list mresp) (lastRev : Z) : list mevent * Z :=
  match resps with
  | [] => ([], lastRev)
  | MErr :: _ => ([], 0)
  | MResp evs revision :: resps' => let '(l, last) := channel_seen resps' (Z.max lastRev revision) in (evs ++ l, last)
  end.

Fixpoint run_seen (channel : nat → Z → list mresp) (n i : nat) (lastRev : Z) : list mevent * Z :=
  match n with
  | O => ([], lastRev)
  | S n' =>
    let '(l, last) := channel_seen (channel i (resume_at lastRev)) lastRev in
    let '(l', last') := run_seen channel n' (S i) last in (l ++ l', last')
  end.

(** Two stretches of the loop, one after the other. *)
Lemma wpx_seen_bind {B} (p : prog (list (bytes * bytes) * B)) fs evs b m (Q : list (bytes * bytes) * B → mvcc * unit → Prop) m1 :
  intents_over m fs m1 → fs = omap (to_start m) (evs.1 : list mevent) →
  (∀ m', intents_over m (omap (to_start m) (evs.1 ++ evs.2)) m' → Q (omap (to_start m) (evs.1 ++ evs.2), b) (m', tt)) →
  (∀ Q', (∀ m', intents_over m1 (omap (to_start m1) evs.2) m' → Q' (omap (to_start m1) evs.2, b) (m', tt)) → wpx p Q' m1) →
  wpx (r ⇐ p; Ret (fs ++ r.1, r.2)) Q m1.
Proof.
  intros H1 -> HQ Hp. apply wpx_bind, Hp. intros m2 H2. rewrite (starts_over _ _ _ _ H1) in *. apply wpx_ret. cbn [fst snd].
  rewrite <- omap_app in *. apply HQ. rewrite omap_app. by eapply intents_over_app.
Qed.

Lemma wpx_watch_channel resps last m (Q : list (bytes * bytes) * Z → mvcc * unit → Prop) :
  (∀ m', intents_over m (omap (to_start m) (channel_seen resps last).1) m' →
     Q (omap (to_start m) (channel_seen resps last).1, (channel_seen resps last).2) (m', tt)) →
  wpx (watch_channel resps last) Q m.
Proof.
  revert last m Q. induction resps as [|[evs h|] resps IH]; intros last m Q HQ; cbn [watch_channel channel_seen] in *.
  - apply wpx_ret, HQ. split; [by intros n i ?%elem_of_nil|done].
  - destruct (channel_seen resps (Z.max last h)) as [l last'] eqn:E. cbn [fst snd] in HQ.
    apply wpx_bind, wpx_handle_events. intros m1 H1. cbn [fst]. eapply (wpx_seen_bind _ _ (evs, l) last'); [done..|].
    intros Q' HQ'. apply IH. rewrite E. exact HQ'.
  - apply wpx_ret, HQ. split; [by intros n i ?%elem_of_nil|done].
Qed.

Lemma wpx_Controller_Run channel n i last m (Q : list (bytes * bytes) * Z → mvcc * unit → Prop) :
  (∀ m', intents_over m (omap (to_start m) (run_seen channel n i last).1) m' →
     Q (omap (to_start m) (run_seen channel n i last).1, (run_seen channel n i last).2) (m', tt)) →
  wpx (Controller_Run channel n i last) Q m.
Proof.
  revert i last m Q. induction n as [|n IH]; intros i last m Q HQ; cbn [Controller_Run run_seen] in *.
  { apply wpx_ret, HQ. split; [by intros n i' ?%elem_of_nil|done]. }
  apply wpx_bind, wpx_watch_channel. destruct (channel_seen (channel i (resume_at last)) last) as [l last1].
  intros m1 H1. cbn [fst snd] in *. destruct (run_seen channel n (S i) last1) as [l' last2] eqn:E. cbn [fst snd] in HQ.
  eapply (wpx_seen_bind _ _ (l, l') last2); [done..|]. intros Q' HQ'. apply IH. rewrite E. exact HQ'.
Qed.

Lemma channel_seen_between hist from resps last :
  sorted_hist me_rev hist → carries hist from resps → MErr ∉ resps →
  last = from - 1 ∨ (last <= from - 1 ∧ ∃ evs h rest, resps = MResp evs h :: rest) →
  let '(l, last') := channel_seen resps last in l = between me_rev hist from last' ∧ from - 1 <= last'.
Proof.
  intros Hs. revert from last. induction resps as [|[evs h|] resps IH]; intros from last Hc He Hl; cbn [channel_seen].
  - destruct Hl as [->|(_ & ? & ? & ? & ?)]; [|done]. split; [by rewrite between_empty by lia|lia].
  - destruct Hc as (Hh & -> & Hc). replace (Z.max last h) with h by (destruct Hl as [|[]]; lia).
    specialize (IH (h + 1) h Hc ltac:(set_solver) ltac:(left; lia)). destruct (channel_seen resps h) as [l last'].
    destruct IH as [-> Hle]. split; [|lia]. symmetry. apply between_app; [done|lia|lia].
  - exfalso. apply He. left.
Qed.

Lemma run_seen_between hist current channel n i last :
  sorted_hist me_rev hist → watched hist current channel → (∀ j r, MErr ∉ channel j r) → 0 < last →
  let '(l, last') := run_seen channel n i last in l = between me_rev hist (last + 1) last' ∧ last <= last'.
Proof.
  intros Hs Hw He. revert i last. induction n as [|n IH]; intros i last Hl; cbn [run_seen].
  { split; [by rewrite between_empty by lia|lia]. }
  unfold resume_at. rewrite (proj2 (Z.ltb_lt 0 last)) by done.
  pose proof (Hw i (last + 1)) as Hc. rewrite (proj2 (Z.eqb_neq (last + 1) 0)) in Hc by lia.
  pose proof (channel_seen_between hist (last + 1) _ last Hs Hc (He _ _) ltac:(left; lia)) as H1.
  destruct (channel_seen (channel i (last + 1)) last) as [l last1]. destruct H1 as [-> H1].
  specialize (IH (S i) last1 ltac:(lia)). destruct (run_seen channel n (S i) last1) as [l' last']. destruct IH as [-> H2].
  split; [|lia]. symmetry. apply between_app; [done|lia|lia].
Qed.

End run.

(** ** Concrete clusters *)

Definition demo_unmarshal (v : bytes) : option MembershipRecord :=
  if bool_decide (v = lit "i-1") then Some (mkMembershipRecord n1 (lit "c") 0 v) else None.

Definition n1_gone : mevent := mkMEvent 12 (MembershipKey n1) true (Some (lit "i-1")).
Definition m_hist : list mevent := [mkMEvent 11 (MembershipKey n1) false None; n1_gone].

(** A channel that closes after the first event; the next one carries the rest. *)
Definition m_channel (i : nat) (resume : Z) : list mresp :=
  match i, resume with
  | O, 0 => [MResp [mkMEvent 11 (MembershipKey n1) false None] 11]
  | 1%nat, 12 => [MResp [n1_gone] 12]
  | _, _ => []
  end.

Definition expired_srv : ref_srv := RefSrv (mvcc_ops (MVCC 1 ∅ ∅) [put (GenKey n1) (fmt_uint 0)]).1 0.


(** One controller sweeps while another sees "n1" go: the sweep lists the
    intents, the other records its own with the instance, then the sweep finds
    "n1" gone and records one without. *)
Definition sweep_race : ref_srv * list (prog (list (bytes * outcome) + option (bytes * bytes))) :=
  foldl (@cexec ref_etcd _)
    (expired_srv,
     [(o ⇐ reconcile peer_controller id; Ret (inl o));
      (f ⇐ handle_event demo_unmarshal (mkController (mkStore (lit "n3") false (Some (Some 0))) (lit "n3") true defaultClaimTTL) n1_gone;
       Ret (inr f))])
    (repeat (Step 0) 3 ++ repeat (Step 1) 2 ++ repeat (Step 0) 3).

(** A sweep that listed the intents before a departure and gets to the
    node after it overwrites the intent another controller has recorded
    meanwhile, and with it the instance to detach, which nothing else holds: the
    membership record is gone.  If that controller's fence then fails, every
    retry has no instance, and fencing by detachment fails without asking EC2
    anything. *)
Theorem sweep_erases_instance :
  sweep_race.2 !! 1%nat = Some (Ret (inr (Some (n1, lit "i-1")))) ∧
  val_at (FencePendingKey n1) (rs_store sweep_race.1) = Some ([], 0) ∧
  ∀ `{World} d w, frun (EBSDetacher_Fence d n1 []) w = (([], w), Some (Err EOther)).
Proof. split; [vm_compute; reflexivity|]. split; [vm_compute; reflexivity|]. done. Qed.
