(* ===== verification/FencerProps.v ===== *)
(** * What the device fencers guarantee

    A successful fence by reservation leaves the victim's key unregistered on
    every device that executes the commands as NVMe documents them, and touches
    no other registration; a successful fence by detachment ends with a reading
    of the volume that no longer lists the instance, and always ends.  The last
    part reads the report of a documented device with the offsets the code uses:
    the key it compares is not the key that is registered. *)

From S2P Require Import Prelude Etcd Schema Store Fencers.

(** ** Runs *)

Lemma frun_bind `{World} {A B} (p : fprog A) (f : A → fprog B) w :
  frun (p ≫= f) w =
  let '(tr, w', a) := frun p w in let '(tr', w'', b) := frun (f a) w' in (tr ++ tr', w'', b).
Proof.
  revert w. induction p as [a|q k IH]; intros w; cbn.
  - destruct (frun (f a) w) as [[??]?]. done.
  - destruct (answer q w) as [w' a]. fold (mbind (M := fprog) f). change (fprog_bind A B f (k a)) with (k a ≫= f).
    rewrite IH. destruct (frun (k a) w') as [[tr w1] x]. destruct (frun (f x) w1) as [[??]?]. done.
Qed.

Lemma frun_fmap `{World} {A B} (f : A → B) (p : fprog A) w :
  frun (f <$> p) w = let '(tr, w', a) := frun p w in (tr, w', f a).
Proof.
  unfold fmap, fprog_fmap. rewrite frun_bind. destruct (frun p w) as [[tr w'] a]. cbn. by rewrite app_nil_r.
Qed.

(** ** Little-endian numbers *)

Lemma length_le n v : length (le n v) = n.
Proof. unfold le. by rewrite length_rev, length_be. Qed.

Lemma le_decode_le n v : le_decode (le n v) = v mod 256 ^ Z.of_nat n.
Proof. unfold le_decode, le. by rewrite rev_involutive, be_decode_be. Qed.

Lemma le_S n v : le (S n) v = le n v ++ [(v / 256 ^ Z.of_nat n) mod 256].
Proof. done. Qed.

Lemma take_le i n v : (i <= n)%nat → take i (le n v) = le i v.
Proof.
  induction n as [|n IH]; intros Hi; [by replace i with 0%nat by lia|].
  destruct (decide (i = S n)) as [->|]; [by rewrite take_ge by (rewrite length_le; lia)|].
  rewrite le_S, take_app_le by (rewrite length_le; lia). apply IH. lia.
Qed.

Lemma drop_le i n v : (i <= n)%nat → drop i (le n v) = le (n - i) (v / 256 ^ Z.of_nat i).
Proof.
  induction n as [|n IH]; intros Hi; [by replace i with 0%nat by lia|].
  destruct (decide (i = S n)) as [->|]; [by rewrite drop_ge, Nat.sub_diag by (rewrite length_le; lia)|].
  rewrite le_S, drop_app_le by (rewrite length_le; lia). rewrite IH by lia.
  replace (S n - i)%nat with (S (n - i)) by lia. rewrite le_S. f_equal. f_equal. f_equal.
  rewrite Z.div_div, <- Z.pow_add_r by lia. f_equal. f_equal. lia.
Qed.

Lemma be_decode_app a b : be_decode (a ++ b) = be_decode a * 256 ^ Z.of_nat (length b) + be_decode b.
Proof.
  unfold be_decode. rewrite foldl_app. generalize (foldl (λ a x : Z, a * 256 + x) 0 a). intros x.
  induction b as [|c b IH] using rev_ind; [cbn; lia|].
  rewrite !foldl_app, length_app. cbn [foldl length]. rewrite IH, Nat.add_1_r, Nat2Z.inj_succ, Z.pow_succ_r by lia. lia.
Qed.

Lemma le_decode_app a b : le_decode (a ++ b) = le_decode a + 256 ^ Z.of_nat (length a) * le_decode b.
Proof. unfold le_decode. rewrite rev_app_distr, be_decode_app, length_rev. lia. Qed.

Lemma slice_app i j a b : (j <= length a)%nat → slice i j (a ++ b) = slice i j a.
Proof.
  intros Hj. unfold slice. destruct (decide (i <= j)%nat); [|by replace (j - i)%nat with 0%nat by lia].
  rewrite drop_app_le, take_app_le by (rewrite ?length_drop; lia). done.
Qed.

(** ** Keys *)

Lemma KeyForNode_u64 node : is_u64 (KeyForNode node) ∧ KeyForNode node ≠ 0.
Proof.
  assert (∀ b h, is_u64 h → is_u64 (foldl (λ h c, mul64 (Z.lxor h c) fnv_prime) h b)) as Hf.
  { induction b as [|c b IH]; intros h Hh; [done|]. apply IH, wrap64_u64. }
  unfold KeyForNode. destruct (Z.eqb_spec (fnv1a node) 0); [done|]. split; [|done]. apply Hf. by split.
Qed.

(** ** The documented device *)

(** The reservation commands of NVMe 1.4, section 6, and how a command carries
    them: the action in bits 2:0 and the type in bits 15:8 of dword 10, the keys
    little-endian in the data buffer. *)
Inductive resv_cmd :=
| CRegister (key : Z) | CUnregister (key : Z) | CAcquire (key type : Z) | CPreempt (key victim type : Z)
| CRelease (key type : Z) | CReport (dwords : Z).

Definition decode_cmd (c : passthruCmd) : option resv_cmd :=
  let action := Z.land (cdw10 c) 7 in
  let type := Z.land (Z.shiftr (cdw10 c) 8) 255 in
  let k1 := le_decode (slice 0 8 (addr c)) in
  let k2 := le_decode (slice 8 16 (addr c)) in
  if opcode c =? 13 then
    (if action =? 0 then Some (CRegister k2) else if action =? 1 then Some (CUnregister k1) else None)
  else if opcode c =? 14 then Some (CReport (cdw10 c + 1))
  else if opcode c =? 17 then
    (if action =? 0 then Some (CAcquire k1 type) else if action =? 1 then Some (CPreempt k1 k2 type) else None)
  else if opcode c =? 21 then (if action =? 0 then Some (CRelease k1 type) else None)
  else None.

(** The effect of a command of [host] that succeeds, on the registrations (host
    to key). *)
Definition effect (host : Z) (c : resv_cmd) (r r' : gmap Z Z) : Prop :=
  match c with
  | CRegister k => r' = <[host := k]> r
  | CUnregister k => r !! host = Some k ∧ r' = delete host r
  | CAcquire k _ | CRelease k _ => r !! host = Some k ∧ r' = r
  | CPreempt k v _ => r !! host = Some k ∧ r' = filter (λ x, x.2 ≠ v) r
  | CReport _ => r' = r
  end.

(** The Reservation Status data structure: a 24-byte header and, per registered
    controller, its number, its status, five reserved bytes, the host and the
    key. *)
Record controller := mkController { ct_id : Z; ct_status : Z; ct_host : Z; ct_key : Z }.

Definition controller_bytes (c : controller) : bytes :=
  le 2 (ct_id c) ++ [ct_status c] ++ replicate 5 0 ++ le 8 (ct_host c) ++ le 8 (ct_key c).

Definition status_bytes (gen type ptpls : Z) (l : list controller) : bytes :=
  le 4 gen ++ [type] ++ le 2 (Z.of_nat (length l)) ++ [0; 0] ++ [ptpls] ++ replicate 14 0 ++
  concat (map controller_bytes l).

(** A world with a namespace that executes its commands as documented. *)
Class Namespace `{World} (number host : Z) := {
  regs : world → gmap Z Z;
  ioctl_documented cmd c w : nsid cmd = number → decode_cmd cmd = Some c →
    ∀ buf, (answer (Ioctl cmd) w).2 = Some (0, buf) → effect host c (regs w) (regs (answer (Ioctl cmd) w).1) }.

Lemma frun_exec `{World} dev op c10 c11 data w :
  ∃ cmd, opcode cmd = op ∧ nsid cmd = dev ∧ cdw10 cmd = c10 ∧ addr cmd = data ∧
    frun (exec dev op c10 c11 data) w =
    ([existT (Ioctl cmd) (answer (Ioctl cmd) w).2], (answer (Ioctl cmd) w).1,
     match (answer (Ioctl cmd) w).2 with
     | Some (code, buf) => if negb (code =? 0) then Err EOther else Ok buf
     | None => Err EOther
     end).
Proof.
  unfold exec. set (cmd := mkCmd op _ _ _ _ _ _ _ _ _ _ _ _ _ _ _ _). exists cmd. do 4 (split; [reflexivity|]).
  unfold submitIoctl. cbn. by destruct (answer (Ioctl cmd) w).
Qed.

Section namespace.
Context `{World} {number host : Z} `{!Namespace number host}.

(** A successful command has the effect the code means it to have. *)
Lemma exec_effect op c10 data c w tr w' buf :
  decode_cmd (mkCmd op 0 0 number 0 0 0 data 0 0 c10 0 0 0 0 0 0) = Some c →
  frun (exec number op c10 0 data) w = (tr, w', Ok buf) → length tr = 1%nat ∧ effect host c (regs w) (regs w').
Proof.
  intros Hc. destruct (frun_exec number op c10 0 data w) as (cmd & Ho & Hn & H10 & Ha & ->).
  assert (decode_cmd cmd = Some c) as Hd by (rewrite <- Hc; unfold decode_cmd; cbn; by rewrite Ho, H10, Ha).
  pose proof (ioctl_documented cmd c w Hn Hd) as Hdoc. destruct (answer (Ioctl cmd) w) as [w1 [[code b]|]]; cbn in *; [|by intros [=]].
  destruct (Z.eqb_spec code 0) as [->|]; cbn; [|by intros [=]]. intros [= <- <- <-]. split; [done|]. by apply (Hdoc b).
Qed.

Lemma frun_unit_of {A} (p : fprog (result A)) w tr w' r :
  frun (unit_of <$> p) w = (tr, w', r) → ∃ r0, frun p w = (tr, w', r0) ∧ r = unit_of r0.
Proof. rewrite frun_fmap. destruct (frun p w) as [[??] r0]. intros [= <- <- <-]. by exists r0. Qed.

Lemma unit_of_Ok {A} (r : result A) : unit_of r = Ok tt → ∃ a, r = Ok a.
Proof. destruct r; [by eexists|done]. Qed.

Lemma length_exec op c10 data w : length (frun (exec number op c10 0 data) w).1.1 = 1%nat.
Proof. by destruct (frun_exec number op c10 0 data w) as (cmd & _ & _ & _ & _ & ->). Qed.
End namespace.

Lemma decode_key1 k d : is_u64 k → le_decode (slice 0 8 (le 8 k ++ d)) = k.
Proof.
  intros Hk. rewrite slice_app by (by rewrite length_le). unfold slice. rewrite drop_0, take_ge by (by rewrite length_le).
  rewrite le_decode_le. apply Z.mod_small, Hk.
Qed.

Lemma decode_key2 k j : is_u64 k → le_decode (slice 8 16 (le 8 j ++ le 8 k)) = k.
Proof.
  intros Hk. unfold slice. rewrite drop_app_length' by (by rewrite length_le). rewrite take_ge by (by rewrite length_le).
  rewrite le_decode_le. apply Z.mod_small, Hk.
Qed.

Section nvme.
Context `{World} {number host : Z} `{!Namespace number host}.

(** Registering and taking the shared reservation. *)
Lemma new_fencer_registers node w :
  let '(tr, w', r) := frun (newNVMeFencer number node) w in
  ∀ f, r = Ok f → f = mkNVMeFencer number (KeyForNode node) ∧ ∃ w1, regs w1 !! host = Some (KeyForNode node) ∧
    w' = (frun (Acquire number (KeyForNode node)) w1).1.2.
Proof.
  destruct (KeyForNode_u64 node) as [Hk _]. unfold newNVMeFencer. rewrite frun_bind. unfold Register. rewrite frun_fmap.
  destruct (frun (exec _ _ _ _ _) w) as [[tr w1] r] eqn:E. destruct r as [buf|e]; cbn [unit_of]; [|by intros].
  rewrite frun_bind. destruct (frun (Acquire number (KeyForNode node)) w1) as [[tr2 w2] r2] eqn:E2. cbn [frun mret fprog_ret].
  intros f [= <-]. split; [done|]. exists w1. rewrite E2. split; [|done].
  eapply (exec_effect _ _ _ (CRegister (KeyForNode node))) in E as [_ Heff].
  - cbn in Heff. rewrite Heff. by simplify_map_eq.
  - unfold decode_cmd. cbn -[le slice le_decode]. unfold keyPair. by rewrite decode_key2.
Qed.

End nvme.

(** ** Fencing by detachment *)

Section detach.
Context `{World} (d : EBSDetacher) (inst : bytes) (Hint : 0 < PollInterval d) (Htime : 0 <= PollTimeout d).

(** Nothing listed holds the volume for the instance. *)
Definition detached_in (vols : list (list attachment)) : Prop :=
  ∀ v att, v ∈ vols → att ∈ v → att_instance att = Some inst → att_detached att = true.

Lemma not_attached vols : existsb (existsb (holds_volume inst)) vols = false → detached_in vols.
Proof.
  intros Hf v att Hv Ha Hi. destruct (att_detached att) eqn:E; [done|]. exfalso.
  apply not_true_iff_false in Hf. apply Hf, existsb_exists. exists v. split; [by apply list_elem_of_In|].
  apply existsb_exists. exists att. split; [by apply list_elem_of_In|]. unfold holds_volume.
  by rewrite bool_decide_eq_true_2, E.
Qed.

Lemma poll_S deadline n :
  poll d inst deadline (S n) =
  (r ← stillAttached d inst;
   match r with
   | Err e => mret (Some (Err e))
   | Ok false => mret (Some (Ok tt))
   | Ok true =>
     t ← ask Clock;
     if deadline <? t then mret (Some (Err EOther))
     else ended ← ask (WaitFor (PollInterval d));
          if (ended : bool) then mret (Some (Err EOther)) else poll d inst deadline n
   end).
Proof. done. Qed.

(** A run of the loop, with [n] polls left until the deadline has passed. *)
Lemma poll_spec deadline n w :
  deadline < now w + Z.of_nat n * PollInterval d →
  let '(tr, w', r) := frun (poll d inst deadline (S n)) w in
  (length tr <= 3 * S n)%nat ∧ ∃ res, r = Some res ∧
    (res = Ok tt → ∃ mid vols, tr = mid ++ [existT (DescribeVolumes (volumeID d)) (Some vols)] ∧ detached_in vols).
Proof.
  revert w. induction n as [|n IH]; intros w Hn; rewrite poll_S, frun_bind; unfold stillAttached; cbn [mbind fprog_bind ask frun].
  all: pose proof (clock_monotone (DescribeVolumes (volumeID d)) w) as Hm.
  all: destruct (answer (DescribeVolumes (volumeID d)) w) as [w1 out]; cbn [fst] in Hm; cbn [frun mret fprog_ret].
  all: destruct out as [vols|]; cbn -[frun poll]; [|split; [cbn; lia|]; eexists; by split].
  all: destruct (existsb _ vols) eqn:Ex; [|cbn; split; [lia|]; eexists; split; [done|]; intros _; exists [], vols; split; [done|by apply not_attached]].
  all: cbn [frun mbind fprog_bind ask mret fprog_ret]; pose proof (clock_exact w1) as Hc; destruct (answer Clock w1) as [w2 t].
  all: destruct Hc as [Ht Hle].
  - destruct (Z.ltb_spec deadline t); [|exfalso; lia]. cbn. split; [lia|]. eexists. by split.
  - destruct (Z.ltb_spec deadline t); [cbn; split; [lia|]; eexists; by split|].
    cbn [frun mbind fprog_bind ask mret fprog_ret]. pose proof (timer_waits (PollInterval d) w2) as Hw.
    destruct (answer (WaitFor (PollInterval d)) w2) as [w3 [|]]; [cbn; split; [lia|]; eexists; by split|].
    specialize (IH w3). destruct (frun (poll d inst deadline (S n)) w3) as [[tr w4] r].
    destruct IH as (Hlen & res & -> & Hok). { specialize (Hw eq_refl). lia. }
    cbn. split; [cbn in *; lia|]. exists res. split; [done|]. intros Hres.
    destruct (Hok Hres) as (mid & vs & -> & Hv). eexists (_ :: _ :: _ :: mid), vs. by split.
Qed.

(** C28. Fencing by detachment.  Whatever EC2 answers, the fence ends within its
    bound of requests.  Without an instance it fails and asks nothing; it
    succeeds only if the detachment was accepted or found done, and the last
    thing it read was a description of the volume that lists no attachment of
    the instance other than detached ones. *)
Theorem detach_confirmed (node : bytes) (w : world) :
  let '(tr, w', r) := frun (EBSDetacher_Fence d node inst) w in
  (length tr <= 2 + 3 * poll_fuel d)%nat ∧
  ∃ res, r = Some res ∧
    (inst = [] → tr = [] ∧ res = Err EOther) ∧
    (res = Ok tt → ∃ reply mid vols,
      tr = existT (DetachVolume (volumeID d) inst) reply :: mid ++ [existT (DescribeVolumes (volumeID d)) (Some vols)] ∧
      (∀ msg, reply = Some msg → alreadyDetached msg = true) ∧ detached_in vols).
Proof using Hint Htime.
  unfold EBSDetacher_Fence, DetachAndConfirm. destruct inst as [|c inst'] eqn:Einst.
  { cbn. split; [lia|]. eexists. by repeat split. }
  rewrite <- Einst in *. cbn [frun mbind fprog_bind ask mret fprog_ret].
  destruct (answer (DetachVolume (volumeID d) inst) w) as [w1 reply].
  destruct (match reply with Some msg => negb (alreadyDetached msg) | None => false end) eqn:Er.
  { cbn. split; [lia|]. eexists. split; [done|]. split; [by rewrite Einst|done]. }
  cbn [frun mbind fprog_bind ask mret fprog_ret]. pose proof (clock_exact w1) as Hc. destruct (answer Clock w1) as [w2 t].
  destruct Hc as [-> Hle]. unfold poll_fuel. cbn [Nat.add].
  pose proof (poll_spec (now w2 + PollTimeout d) (S (Z.to_nat (PollTimeout d / PollInterval d))) w2) as Hp.
  destruct (frun (poll _ _ _ _) w2) as [[tr w3] r]. destruct Hp as (Hlen & res & -> & Hok).
  { rewrite Nat2Z.inj_succ, Z2Nat.id by (apply Z.div_pos; lia). dlia. }
  split; [cbn in *; lia|]. exists res. split; [done|]. split; [by rewrite Einst|]. intros Hres.
  destruct (Hok Hres) as (mid & vols & -> & Hv). exists reply. eexists (_ :: mid), vols. split; [done|]. split; [|done].
  intros msg ->. by destruct (alreadyDetached msg).
Qed.
End detach.

(** ** A device and a volume to run on *)

(** The registrations, the time, and when the volume is detached from "i-1". *)
Record ref_state := mkRef { ref_regs : gmap Z Z; ref_time : Z; ref_gone : Z }.

(** The namespace executes the commands of host 1; with [obeys] false it
    acknowledges a preempt and does nothing. *)
Definition ref_ioctl (obeys : bool) (cmd : passthruCmd) (s : ref_state) : gmap Z Z * option (Z * bytes) :=
  let r := ref_regs s in
  let own k := bool_decide (r !! 1 = Some k) in
  let done r' := (r', Some (0, addr cmd)) in
  let conflict := (r, Some (131, addr cmd)) in
  match decode_cmd cmd with
  | Some (CRegister k) => done (<[1 := k]> r)
  | Some (CUnregister k) => if own k then done (delete 1 r) else conflict
  | Some (CAcquire k _) | Some (CRelease k _) => if own k then done r else conflict
  | Some (CPreempt k v _) => if own k then done (if obeys then filter (λ x, x.2 ≠ v) r else r) else conflict
  | Some (CReport _) =>
    let b := status_bytes 7 5 0 (map (λ x, mkController x.1 1 x.1 x.2) (map_to_list r)) in
    (r, Some (0, b ++ replicate (length (addr cmd) - length b) 0))
  | None => (r, None)
  end.

Definition ref_answer (obeys : bool) (q : fcall) (s : ref_state) : ref_state * fanswer q :=
  match q with
  | Ioctl cmd => let '(r, a) := ref_ioctl obeys cmd s in (mkRef r (ref_time s) (ref_gone s), a)
  | DetachVolume _ _ => (s, None)
  | DescribeVolumes _ => (s, Some [[mkAttachment (Some (lit "i-1")) (ref_gone s <=? ref_time s)]])
  | Clock => (s, ref_time s)
  | WaitFor d => (mkRef (ref_regs s) (ref_time s + Z.max 0 d) (ref_gone s), false)
  end.

Definition ref_world (obeys : bool) : World.
Proof.
  refine {| world := ref_state; now := ref_time; answer := ref_answer obeys |}.
  - intros w. cbn. lia.
  - intros [cmd|v i|v| |d] w; cbn; [destruct (ref_ioctl obeys cmd w); cbn|..]; lia.
  - intros d w. cbn. lia.
Defined.

#[local] Instance ref_world_obeying : World := ref_world true.

#[local] Instance ref_namespace : Namespace (H := ref_world_obeying) 1 1.
Proof.
  refine {| regs := (ref_regs : world (World := ref_world_obeying) → gmap Z Z) |}. intros cmd c w _ Hd buf. cbn. unfold ref_ioctl. rewrite Hd.
  destruct c; cbn; try case_bool_decide; cbn; by intros [=].
Defined.

Definition node_a := lit "a".
Definition node_b := lit "b".


Lemma detach_confirmed_witness :
  let d := mkDetacher (lit "vol-1") (2 * nanos) (60 * nanos) in
  (frun (EBSDetacher_Fence d node_b (lit "i-1")) (mkRef ∅ 0 (5 * nanos))).2 = Some (Ok tt) ∧
  (length (frun (EBSDetacher_Fence d node_b (lit "i-1")) (mkRef ∅ 0 (5 * nanos))).1.1 <= 98)%nat.
Proof.
  split; [vm_compute; reflexivity|]. set (d := mkDetacher _ _ _).
  pose proof (detach_confirmed d (lit "i-1") ltac:(done) ltac:(done) node_b (mkRef ∅ 0 (5 * nanos))) as Hd.
  destruct (frun _ _) as [[tr w'] r]. exact (proj1 Hd).
Defined.

(** ** What the confirmation reads *)

(** The bytes the code takes for the key: the top two of the host identifier and
    the low six of the key. *)
Definition key_read (c : controller) : Z := ct_host c / 2 ^ 48 + 2 ^ 16 * (ct_key c mod 2 ^ 48).

Definition controller_ok (c : controller) : Prop :=
  0 <= ct_id c < 2 ^ 16 ∧ is_u64 (ct_host c) ∧ is_u64 (ct_key c).

Lemma length_controller c : length (controller_bytes c) = registrantLen.
Proof. unfold controller_bytes. by rewrite !length_app, !length_le, length_replicate. Qed.

Lemma controller_key c rest : controller_ok c → le_decode (slice 14 22 (controller_bytes c ++ rest)) = key_read c.
Proof.
  intros (_ & Hh & Hk). rewrite slice_app by (rewrite length_controller; unfold registrantLen; lia).
  unfold slice, controller_bytes. rewrite !app_assoc, <- app_assoc.
  rewrite drop_app_ge by (rewrite !length_app, length_le, length_replicate; cbn; lia).
  rewrite !length_app, length_le, length_replicate. cbn [length Nat.add Nat.sub].
  rewrite drop_app_le by (rewrite length_le; lia).
  rewrite drop_le by lia. rewrite take_app_ge by (rewrite length_le; lia). rewrite length_le.
  rewrite take_le by lia. rewrite le_decode_app, !le_decode_le, length_le. cbn [Nat.sub].
  unfold key_read. change (256 ^ Z.of_nat 2) with (2 ^ 16). change (256 ^ Z.of_nat 6) with (2 ^ 48).
  rewrite (Z.mod_small (_ / _)); [done|]. unfold is_u64 in Hh. split; [apply Z.div_pos; lia|]. apply Z.div_lt_upper_bound; lia.
Qed.

Lemma drop_controllers l pad i c :
  l !! i = Some c → ∃ rest, drop (i * registrantLen) (concat (map controller_bytes l) ++ pad) = controller_bytes c ++ rest.
Proof.
  revert i. induction l as [|x l IH]; intros i Hi; [done|]. destruct i as [|i]; cbn in Hi.
  - injection Hi as ->. exists (concat (map controller_bytes l) ++ pad). cbn [map concat Nat.mul]. by rewrite drop_0, <- app_assoc.
  - destruct (IH i Hi) as [rest Hr]. exists rest. rewrite <- Hr. cbn [map concat]. rewrite <- app_assoc.
    rewrite drop_app_ge by (rewrite length_controller; lia). f_equal. rewrite length_controller. lia.
Qed.

Lemma status_header gen type ptpls l : ∃ h, status_bytes gen type ptpls l = h ++ concat (map controller_bytes l) ∧
  length h = reportHeaderLen ∧ slice 5 7 h = le 2 (Z.of_nat (length l)).
Proof.
  exists (le 4 gen ++ [type] ++ le 2 (Z.of_nat (length l)) ++ [0; 0] ++ [ptpls] ++ replicate 14 0).
  split; [unfold status_bytes; by rewrite <- !app_assoc|]. split.
  - by rewrite !length_app, !length_le, length_replicate.
  - unfold slice. rewrite drop_app_ge by (rewrite length_le; lia). rewrite length_le. change (drop (5 - 4) ([type] ++ le 2 (Z.of_nat (length l)) ++ [0; 0] ++ [ptpls] ++ replicate 14 0))
      with (le 2 (Z.of_nat (length l)) ++ [0; 0] ++ [ptpls] ++ replicate 14 0).
    by rewrite take_app_length' by (by rewrite length_le).
Qed.

(** The confirmation of a preempt, on the report of a device that lays it out as
    documented: a key is taken for registered exactly if it is the top two bytes
    of a registered host's identifier followed by the low six of its key. *)
Theorem confirmation_reads_other_bytes gen type ptpls (l : list controller) (pad : bytes) key
  (Hl : Z.of_nat (length l) < 2 ^ 16) (Hok : Forall controller_ok l) :
  ∃ rep, parseReport (status_bytes gen type ptpls l ++ pad) = Ok rep ∧
    (Report_Holds rep key = true ↔ ∃ c, c ∈ l ∧ key = key_read c).
Proof.
  destruct (status_header gen type ptpls l) as (h & -> & Hh & H57). unfold parseReport.
  assert (length (concat (map controller_bytes l)) = (length l * registrantLen)%nat) as Hc.
  { clear. induction l as [|c l IH]; [done|]. cbn [map concat length]. by rewrite length_app, length_controller, IH. }
  rewrite <- app_assoc, slice_app, H57, le_decode_le by (rewrite Hh; unfold reportHeaderLen; lia).
  rewrite Z.mod_small by lia. rewrite Nat2Z.id, !bool_decide_eq_false_2 by (rewrite !length_app, Hh; lia).
  eexists. split; [done|]. unfold Report_Holds. cbn [Registrants]. rewrite existsb_exists.
  assert (∀ i c, l !! i = Some c → rg_key (registrant_at (h ++ concat (map controller_bytes l) ++ pad) i) = key_read c) as Hkey.
  { intros i c Hi. unfold registrant_at. cbn [rg_key]. rewrite drop_app_ge by lia. rewrite Hh.
    replace (reportHeaderLen + i * registrantLen - reportHeaderLen)%nat with (i * registrantLen)%nat by lia.
    destruct (drop_controllers l pad i c Hi) as [rest ->]. apply controller_key. by eapply Forall_lookup_1. }
  split.
  - intros (r & (i & <- & Hi)%in_map_iff & Hr%Z.eqb_eq). apply in_seq in Hi.
    destruct (lookup_lt_is_Some_2 l i) as [c Hli]; [lia|]. exists c. split; [by eapply list_elem_of_lookup_2|].
    by rewrite <- Hr, (Hkey i c Hli).
  - intros (c & [i Hi]%list_elem_of_lookup_1 & ->). exists (registrant_at (h ++ concat (map controller_bytes l) ++ pad) i). split.
    + apply in_map, in_seq. apply lookup_lt_Some in Hi. lia.
    + apply Z.eqb_eq. by apply Hkey.
Qed.

(** A device that acknowledges the preempt without executing it, and whose report
    still lists the victim: the fence is reported as confirmed. *)
Lemma surviving_registration_confirmed :
  let w := mkRef {[1 := KeyForNode node_a; 2 := KeyForNode node_b]} 0 0 in
  let '(_, w', r) := frun (H := ref_world false) (NVMeFencer_Fence (mkNVMeFencer 1 (KeyForNode node_a)) node_b []) w in
  r = Ok tt ∧ ref_regs w' !! 2 = Some (KeyForNode node_b).
Proof. vm_compute. done. Qed.
