(* ===== verification/Tools.v ===== *)
(** * The operator's tool

    Models pkg/fsinfo/info.go (the statistics) and cmd/etcfsctl/main.go (the
    commands, with the dispatch of the command line; quota.go's are in Quota).
    A command's output is the data it prints, as text or as JSON; the decoders of
    the JSON records are parameters.  Also cmd/seed-etcd/main.go, which writes a
    known tree.

    Every command only reads, except the three that are asked to write, and
    those write the one record they name; a fence is recorded for a node exactly
    when it holds no membership.  The statistics count what the mode's bits say,
    which for block devices and sockets is a directory. *)

From S2P Require Import Prelude Etcd EtcdFacts Schema Store StoreLogic StoreProps Extents Allocator InodeTimes Dirents NamespaceProps FenceRecords Membership Controller MembershipProps Scrub Fsck Quota Daemon.

(** ** Statistics *)

Record Info := mkInfo {
  TotalInodes : Z; TotalFiles : Z; TotalDirs : Z; TotalSize : Z; TotalExtents : Z; TotalLocks : Z;
  TotalDirents : Z; i_ArenaCount : Z; MemberCount : Z; ArenaUtilization : gmap bytes float64 }.

Definition len64 {A} (l : list A) : Z := Z.of_nat (length l).

(** One inode record's contribution: files, directories, bytes. *)
Definition count_inode (st : Z * Z * Z) (x : bytes * kv) : Z * Z * Z :=
  let '(files, dirs, size) := st in
  match DecodeInode (kv_val x.2) with
  | None => st
  | Some rec =>
    if negb (Z.land (Mode rec) ModeDir =? 0) then (files, add64 dirs 1, add64 size (Size rec))
    else (add64 files 1, dirs, add64 size (Size rec))
  end.

(** Blocks in use per arena number. *)
Definition used_blocks (exts : list Extent) : gmap Z Z :=
  foldl (λ m e, let id := DiskOff e / ArenaSizeBytes in
                <[id := add64 (default 0 (m !! id)) (add64 (Length e) (BlockSize - 1) / BlockSize)]> m) ∅ exts.

(** Per node, the blocks in use in its arenas and the number of its arenas. *)
Definition node_usage (used : gmap Z Z) (arenaKvs : list (bytes * kv)) : gmap bytes (Z * Z) :=
  foldl (λ m x, match ParseArenaKey x.1 with
                | Some (node, id) =>
                  let '(u, n) := default (0, 0) (m !! node) in
                  <[node := (add64 u (default 0 (used !! id)), add64 n 1)]> m
                | None => m
                end) ∅ arenaKvs.

Definition arenaUtilization (arenaKvs : list (bytes * kv)) (exts : list Extent) : gmap bytes float64 :=
  (λ x, fdiv (of_uint x.1) (of_uint (mul64 x.2 BlocksPerArena))) <$> node_usage (used_blocks exts) arenaKvs.

Definition Collect (s : Store) : prog (result Info) :=
  inodeKvs ⇐ prefix_or_nil s (lit "inode:");
  let '(files, dirs, size) := foldl count_inode (0, 0, 0) inodeKvs in
  extKvs ⇐ prefix_or_nil s PrefixExtent;
  direntKvs ⇐ prefix_or_nil s (lit "dirent:");
  lockKvs ⇐ prefix_or_nil s (lit "lock:");
  arenaKvs ⇐ prefix_or_nil s PrefixArena;
  memKvs ⇐ prefix_or_nil s (lit "membership:");
  Ret (Ok (mkInfo (len64 inodeKvs) files dirs size (len64 extKvs) (len64 lockKvs) (len64 direntKvs)
             (len64 arenaKvs) (len64 memKvs) (arenaUtilization arenaKvs (DecodeExtents extKvs)))).

(** ** Commands *)

(** [stripJSONFlag]: the other arguments in order, and whether one was found. *)
Definition is_json_flag (a : bytes) : bool := bool_decide (a = lit "--json") || bool_decide (a = lit "-json").
Definition stripJSONFlag (args : list bytes) : list bytes * bool :=
  (filter (λ a, is_json_flag a = false) args, existsb is_json_flag args).

Record member := mkMember { mb_node : bytes; mb_instance : bytes }.

Section commands.
(** [InstanceIDFromMembership] and the decoder of quota records. *)
Context (instance_of : bytes → bytes) (unmarshal : bytes → option Limits).
Context `{MapOrder}.

Inductive ctl_out :=
| OInfo (i : Info)
| OMembers (ms : list member)
| OArenas (u : gmap bytes float64)
| OFsck (errors warnings : Z) (findings : list Finding)
| OScrub (rs : list Result)
| OFence (node : bytes)
| OQuota (q : quota_out)
| OUsage.

Definition runStatus (s : Store) : prog (result ctl_out) := info ⇐? Collect s; Ret (Ok (OInfo info)).

Definition runMembers (s : Store) : prog (result ctl_out) :=
  kvs ⇐? GetPrefix s PrefixMembership;
  Ret (Ok (OMembers (map (λ x, mkMember (trim_prefix PrefixMembership x.1) (instance_of (kv_val x.2))) kvs))).

Definition runArenas (s : Store) : prog (result ctl_out) :=
  info ⇐? Collect s; Ret (Ok (OArenas (ArenaUtilization info))).

Definition runFsck (s : Store) : prog (result ctl_out) :=
  fs ⇐ Run s 0; Ret (Ok (OFsck (ErrorCount fs) (WarningCount fs) fs)).

Definition runScrub (s : Store) : prog (result ctl_out) :=
  snap ⇐? Scan s;
  Ret (Ok (OScrub (CheckExtentCollisions snap ++ CheckOrphanExtents snap ++ CheckDeadExtents snap ++
                   CheckGenerationConsistency snap ++ CheckNlinkConsistency snap ++ CheckUnreferencedInodes snap))).

Definition runFence (s : Store) (node : bytes) : prog (result ctl_out) :=
  value ⇐? Get s (MembershipKey node);
  match value with
  | Some _ => Ret (Err EOther)
  | None => _ ⇐? RecordFenceIntent node []; Ret (Ok (OFence node))
  end.

(** [main] on the arguments that flag parsing leaves. *)
Definition etcfsctl (s : Store) (args : list bytes) : prog (result ctl_out) :=
  match args with
  | [] => Ret (Ok OUsage)
  | cmd :: rest =>
    if bool_decide (cmd = lit "status") then runStatus s
    else if bool_decide (cmd = lit "members") then runMembers s
    else if bool_decide (cmd = lit "arenas") then runArenas s
    else if bool_decide (cmd = lit "fsck") then runFsck s
    else if bool_decide (cmd = lit "scrub") then runScrub s
    else if bool_decide (cmd = lit "fence") then
      match rest with [node] => runFence s node | _ => Ret (Err EOther) end
    else if bool_decide (cmd = lit "quota") then q ⇐? runQuota unmarshal s rest; Ret (Ok (OQuota q))
    else Ret (Ok OUsage)
  end.
End commands.

(** ** What the commands do to the cluster *)

(** What a command line may ask for beyond reads. *)
Inductive ctl_writes : list bytes → req → Prop :=
| W_fence node : ctl_writes [lit "fence"; node] (QPut (FencePendingKey node) [] 0)
| W_quota_set a ino flags lim :
  ParseUint a = Some ino → quota_flags (mkLimits 0 0) flags = Some lim →
  ctl_writes (lit "quota" :: lit "set" :: a :: flags)
    (QTxn [key_present (InodeKey ino)] [put (QuotaKey ino) (marshal_quota lim)] [])
| W_quota_clear a ino :
  ParseUint a = Some ino → ctl_writes [lit "quota"; lit "clear"; a] (QDelete (QuotaKey ino) false).

Lemma reads_prefix_or_nil s p : issues read_only (prefix_or_nil s p).
Proof. unfold prefix_or_nil. issues_auto. Qed.

Lemma reads_Scan s : issues read_only (Scan s).
Proof. unfold Scan. issues_auto. Qed.

#[local] Hint Resolve reads_prefix_or_nil reads_Scan : issues.

Lemma reads_Collect s : issues read_only (Collect s).
Proof. unfold Collect. issues_auto. Qed.

Lemma reads_Fsck `{MapOrder} s size : issues read_only (Run s size).
Proof. unfold Run, checkInodesDecodable, checkDirentsReferenced, checkArenaBoundaries, checkArenaOrphans. issues_auto. Qed.

Lemma reads_reportQuotas `{MapOrder} unmarshal s : issues read_only (reportQuotas unmarshal s).
Proof. unfold reportQuotas, ListQuotas. issues_auto. Qed.

Section writes.
Context (s : Store) (Hguard : guard s = None) (P : req → Prop) (HP : ∀ q, read_only q → P q).

Lemma reads_only {A} (p : prog A) : issues read_only p → issues P p.
Proof. apply issues_mono, HP. Qed.

Lemma issues_SetQuota ino lim :
  P (QTxn [key_present (InodeKey ino)] [put (QuotaKey ino) (marshal_quota lim)] []) → issues P (SetQuota s ino lim).
Proof.
  intros HQ. unfold SetQuota. apply issues_ebind; [apply reads_only; issues_auto|]. intros [rec|]; [|done].
  case_if; [done|]. unfold Txn, TxnRev, TxnResponse. rewrite Hguard.
  apply issues_ebind; [|by intros]. repeat (apply issues_ebind; [|by intros]). split; [done|]. by intros [].
Qed.

Lemma issues_ClearQuota ino : P (QDelete (QuotaKey ino) false) → issues P (ClearQuota s ino).
Proof.
  intros HQ. unfold ClearQuota, Delete, DeleteCounting, delete_with. rewrite Hguard. apply issues_ebind; [|done]. split; [done|]. by intros [].
Qed.
End writes.

(** The operator's tool.  Whatever the command line and the replies, etcfsctl
    only reads, except that [fence n] records the intent of [n], [quota set i]
    writes the quota record of [i] if its inode exists, and [quota clear i]
    removes that record. *)
Theorem etcfsctl_only_reads instance_of unmarshal `{MapOrder} (s : Store) (args : list bytes) (Hguard : guard s = None) :
  issues (λ q, read_only q ∨ ctl_writes args q) (etcfsctl instance_of unmarshal s args).
Proof.
  assert (∀ {A} (p : prog A), issues read_only p → issues (λ q, read_only q ∨ ctl_writes args q) p) as Hr.
  { intros A p. apply issues_mono. by left. }
  destruct args as [|cmd rest]; [done|]. cbn [etcfsctl].
  case_bool_decide; [apply Hr; unfold runStatus; apply issues_ebind; [apply reads_Collect|done]|].
  case_bool_decide; [apply Hr; unfold runMembers; issues_auto|].
  case_bool_decide; [apply Hr; unfold runArenas; apply issues_ebind; [apply reads_Collect|done]|].
  case_bool_decide; [apply Hr; unfold runFsck; apply issues_bind; [apply reads_Fsck|done]|].
  case_bool_decide; [apply Hr; unfold runScrub; issues_auto|].
  case_bool_decide as Ef.
  { destruct rest as [|node [|]]; try done. subst cmd. unfold runFence. apply issues_ebind; [by apply Hr; issues_auto|].
    intros [v|]; [done|]. apply issues_ebind; [|done]. apply issues_ebind; [|done]. split; [right; constructor|]. by intros []. }
  case_bool_decide as Eq; [|done]. subst cmd. apply issues_ebind; [|done]. unfold runQuota.
  destruct rest as [|a rest]; [apply issues_ebind; [by apply Hr, reads_reportQuotas|done]|].
  case_bool_decide as Es.
  - subst a. apply issues_ebind; [|done]. unfold setQuota. destruct rest as [|i flags]; [done|].
    destruct (ParseUint i) as [ino|] eqn:Ei; [|done]. destruct (quota_flags _ flags) as [lim|] eqn:El; [|done].
    case_if; [done|]. apply issues_SetQuota; [done|by left|]. right. by econstructor.
  - case_bool_decide as Ec; [|done]. subst a. destruct rest as [|i [|]]; try done.
    destruct (ParseUint i) as [ino|] eqn:Ei; [|done]. apply issues_ebind; [|done].
    apply issues_ClearQuota; [done|]. right. by econstructor.
Qed.

Definition ctl_store : Store := mkStore (lit "etcfsctl") false None.

Lemma etcfsctl_only_reads_witness :
  guard ctl_store = None ∧
  issues (λ q, read_only q ∨ ctl_writes [lit "fence"; lit "b"] q)
    (@etcfsctl (λ _, []) (λ _, None) sorted_visit ctl_store [lit "fence"; lit "b"]).
Proof. split; [reflexivity|]. apply (@etcfsctl_only_reads (λ _, []) (λ _, None) sorted_visit). reflexivity. Defined.

(** ** Fencing by hand *)

(** The intent is recorded exactly for a node that holds no membership, and
    nothing else moves. *)
Theorem fence_command_exact `{E : Etcd, !ReliableEtcd E} s node srv :
  let m := eview srv in
  let '(srv', r) := run (runFence s node) srv in
  match stored (MembershipKey node) m with
  | Some _ => r = Err EOther ∧ eview srv' = m
  | None => r = Ok (OFence node) ∧
      ∀ k, val_at k (eview srv') = if bool_decide (k = FencePendingKey node) then Some ([], 0) else val_at k m
  end.
Proof.
  intros m. pose proof (wp_run_reliable (runFence s node) (λ r m',
    match stored (MembershipKey node) m with
    | Some _ => r = Err EOther ∧ m' = m
    | None => r = Ok (OFence node) ∧
        ∀ k, val_at k m' = if bool_decide (k = FencePendingKey node) then Some ([], 0) else val_at k m
    end) srv) as Hr.
  destruct (run (runFence s node) srv) as [srv' r]. cbn [fst snd] in Hr. apply Hr. fold m. unfold runFence.
  apply wpx_ebind, wpx_Get. destruct (stored (MembershipKey node) m) as [v|]; [by apply wpx_ret|].
  apply wpx_ebind. unfold RecordFenceIntent. apply wpx_ebind, wpx_putRaw; [done|]. intros rev. apply wpx_ret, wpx_ret. split; [done|].
  intros k. cbn [fst]. rewrite val_at_ops. effects. by repeat case_bool_decide.
Qed.

(** ** Statistics *)

(** A block device counts as a directory: its type has the directory's bit. *)
Lemma info_counts_device_as_directory :
  let srv := (@run ref_etcd _ (CreateInode ctl_store 11 24576 0 0) (RefSrv empty_store 0)).1 in
  ftype 24576 ≠ ModeDir ∧
  match (@run ref_etcd _ (Collect ctl_store) srv).2 with
  | Ok i => TotalDirs i = 1 ∧ TotalFiles i = 0
  | Err _ => False
  end.
Proof. vm_compute. done. Qed.

(** ** Seeding a store *)

Record seed_entry := mkSeed {
  sd_parent : Z; sd_name : bytes; sd_ino : Z; sd_mode : Z; sd_uid : Z; sd_gid : Z; sd_target : bytes }.

Definition seed_tree : list seed_entry :=
  let dir := Z.lor ModeDir 493 in let file := 33188 in
  [mkSeed 1 (lit ".") 1 dir 0 0 [];
   mkSeed 1 (lit "hello.txt") 10 file 1000 1000 []; mkSeed 1 (lit "notes.md") 11 file 1000 1000 [];
   mkSeed 1 (lit "empty") 12 file 1000 1000 [];
   mkSeed 1 (lit "subdir") 20 dir 1000 1000 []; mkSeed 20 (lit ".") 20 dir 1000 1000 [];
   mkSeed 20 (lit "nested.txt") 21 file 1000 1000 []; mkSeed 20 (lit "deep") 22 dir 1000 1000 [];
   mkSeed 22 (lit ".") 22 dir 1000 1000 []; mkSeed 22 (lit "bottom.txt") 23 file 1000 1000 [];
   mkSeed 1 (lit "link-to-hello") 30 (Z.lor ModeSymlink 511) 1000 1000 (lit "hello.txt")].

Definition seed_root (s : Store) : prog (result Z) :=
  atime ⇐ call QNow; mtime ⇐ call QNow; ctime ⇐ call QNow;
  Put s (InodeKey 1) (EncodeInode (mkInode 1 4096 0 (Z.lor ModeDir 493) 2 0 0 0 4096 0 atime mtime ctime)) 0.

Definition seed_create (s : Store) (e : seed_entry) : prog (result unit) :=
  if ftype (sd_mode e) =? ModeDir then
    x ⇐ AtomicCreateDir s None (sd_parent e) (sd_name e) (sd_ino e) (sd_mode e) (sd_uid e) (sd_gid e); Ret x.2.2
  else if ftype (sd_mode e) =? ModeSymlink then
    _ ⇐? CreateInode s (sd_ino e) (sd_mode e) (sd_uid e) (sd_gid e);
    _ ⇐? Put s (InodeSymlinkKey (sd_ino e)) (sd_target e) 0;
    Ret (Ok tt)
  else
    x ⇐ AtomicCreateFile s None (sd_parent e) (sd_name e) (sd_ino e) (sd_mode e) (sd_uid e) (sd_gid e) no_extra; Ret x.2.2.

(** [false]: the process exits with status 1.  What cannot be created is
    reported and left out. *)
Fixpoint seed_loop (s : Store) (tree : list seed_entry) : prog bool :=
  match tree with
  | [] => Ret true
  | e :: tree' =>
    if bool_decide (sd_name e = lit ".") then seed_loop s tree'
    else
      l ⇐ LookupDirent s (sd_parent e) (sd_name e);
      match l with
      | Err _ => Ret false
      | Ok existing =>
        if negb (existing =? 0) then seed_loop s tree' else _ ⇐ seed_create s e; seed_loop s tree'
      end
  end.

Definition seed : prog bool :=
  let s := mkStore (lit "seed-tool") false None in
  r ⇐ seed_root s;
  match r with Err _ => Ret false | Ok _ => seed_loop s seed_tree end.

(** The seeded store: every name leads to its inode, except the symbolic link,
    whose inode and target are written without a name. *)
Lemma seed_leaves_link_unnamed :
  let '(srv, r) := @run ref_etcd _ seed (RefSrv empty_store 0) in
  r = true ∧
  map (λ e, stored (DirentKey (sd_parent e) (sd_name e)) (rs_store srv)) seed_tree =
  map (λ e, if bool_decide (sd_name e = lit ".") || (ftype (sd_mode e) =? ModeSymlink) then None
            else Some (EncodeUint64 (sd_ino e))) seed_tree ∧
  stored (InodeSymlinkKey 30) (rs_store srv) = Some (lit "hello.txt") ∧ is_Some (stored (InodeKey 30) (rs_store srv)).
Proof. vm_compute. split_and!; [reflexivity..|by eexists]. Qed.
