(* ===== verification/Cluster.v ===== *)
(** * The membership manager

    Models pkg/membership/membership.go: joining with an arena of its own,
    leaving, and moving a fenced node's arena to another node.  The manager works
    on any metadata store; here it is the guarded store of Store.v. *)

From S2P Require Import Prelude Etcd EtcdFacts Schema Store Extents Allocator ArenaPool FenceRecords Membership.

Record Manager := mkManager { mg_store : Store; mg_node : bytes }.

Section manager.
Context (mg : Manager).
Let s := mg_store mg.

(** The value {"joined":<seconds>}. *)
Definition joined_value (t : Z) : bytes :=
  lit "{" ++ [34] ++ lit "joined" ++ [34] ++ lit ":" ++ fmt_uint (Unix t) ++ lit "}".

Definition registerMembership : prog (result unit) :=
  now ⇐ call QNow;
  _ ⇐? Put s (MembershipKey (mg_node mg)) (joined_value now) 0; Ret (Ok tt).

Definition peer_key (peerID : bytes) : bytes := lit "peers:" ++ mg_node mg ++ lit ":" ++ peerID.

Definition registerRecognition (peerID : bytes) : prog unit :=
  _ ⇐ Put s (peer_key peerID) (lit "known") 0; Ret tt.

(** Each node that owns an arena, once. *)
Fixpoint recognise (kvs : list (bytes * kv)) (seen : gset bytes) : prog unit :=
  match kvs with
  | [] => Ret tt
  | x :: kvs' =>
    match ParseArenaKey x.1 with
    | None => recognise kvs' seen
    | Some (node, _) =>
      if bool_decide (node ∈ seen) then recognise kvs' seen
      else _ ⇐ registerRecognition node; recognise kvs' ({[node]} ∪ seen)
    end
  end.

Fixpoint acquire_attempts (fuel : nat) : prog (result unit) :=
  match fuel with
  | O => Ret (Err EOther)
  | S fuel' =>
    val ⇐? Get s PrefixArenaLog;
    let current := match val with Some v => DecodeUint64 v | None => 0 end in
    let cmps := if current =? 0 then [key_absent PrefixArenaLog] else [value_is PrefixArenaLog (EncodeUint64 current)] in
    ok ⇐? Txn s cmps [put PrefixArenaLog (EncodeUint64 (add64 current 1))] [];
    if (ok : bool) then
      _ ⇐ Put s (ArenaOwnerKey (mg_node mg) current) (EncodeUint64 current) 0; Ret (Ok tt)
    else acquire_attempts fuel'
  end.

Definition Manager_AcquireArena : prog (result unit) := acquire_attempts 5.

Definition Join : prog (result unit) :=
  _ ⇐ registerMembership;
  arenas ⇐ GetPrefix s PrefixArena;
  _ ⇐ recognise (match arenas with Ok l => l | Err _ => [] end) ∅;
  Manager_AcquireArena.

Definition releaseArena (ownerKey : bytes) (arenaID : Z) : prog unit :=
  _ ⇐ Txn s [] [OpDelete ownerKey false; put (FreeArenaKey arenaID) (lit "free")] []; Ret tt.

Fixpoint release_each (kvs : list (bytes * kv)) : prog unit :=
  match kvs with
  | [] => Ret tt
  | x :: kvs' =>
    match ParseArenaKey x.1 with
    | None => release_each kvs'
    | Some (_, id) => _ ⇐ releaseArena x.1 id; release_each kvs'
    end
  end.

Definition LeaveGraceful : prog (result unit) :=
  arenas ⇐ GetPrefix s (ArenaNodePrefix (mg_node mg));
  _ ⇐ release_each (match arenas with Ok l => l | Err _ => [] end);
  _ ⇐ Delete s (MembershipKey (mg_node mg));
  Ret (Ok tt).

Definition LeaveUngraceful : prog unit := _ ⇐ LeaveGraceful; Ret tt.

Definition RebalanceArena (fromNode toNode : bytes) (arenaID : Z) : prog (result unit) :=
  let fromKey := ArenaOwnerKey fromNode arenaID in
  fromVal ⇐? Get s fromKey;
  match fromVal with
  | None => Ret (Err EOther)
  | Some _ =>
    genVal ⇐? Get s (GenKey fromNode);
    match (match genVal with None => Some 0 | Some v => ParseUint v end) with
    | None => Ret (Err EOther)
    | Some gen =>
      if gen =? 0 then Ret (Err EOther)
      else
        ok ⇐? Txn s [value_is fromKey (EncodeUint64 arenaID)]
                [OpDelete fromKey false; put (ArenaOwnerKey toNode arenaID) (EncodeUint64 arenaID)] [];
        Ret (if (ok : bool) then Ok tt else Err EOther)
    end
  end.

Definition IsMember (node : bytes) : prog bool :=
  v ⇐ Get s (MembershipKey node); Ret match v with Ok (Some _) => true | _ => false end.

Definition Manager_ArenaCount (node : bytes) : prog Z :=
  kvs ⇐ GetPrefix s (ArenaNodePrefix node); Ret match kvs with Ok l => Z.of_nat (length l) | Err _ => 0 end.
End manager.
