(* ===== verification/ClusterProps.v ===== *)
(** * What the membership manager guarantees

    Joining and moving a fenced node's arena keep ownership exclusive, under
    every interleaving with each other and with the daemons' own pool operations.
    Two behaviours do not: a node that was fenced once and came back still counts
    as fenced, so its arena can be moved while it writes, and leaving releases
    arenas without looking whether they are still its own. *)

From S2P Require Import Prelude Etcd EtcdFacts Schema Store StoreLogic Extents Allocator ArenaPool ArenaProps FenceRecords Membership Cluster.

(** ** An unconditional write under interference *)

Section put.
Context {Γ : Type} (R G : mvcc * Γ → mvcc * Γ → Prop) `{!PreOrder R}.
Context (Grefl : ∀ σ, G σ σ).

Lemma wp_Put s k v Q σ :
  (∀ e σ1, R σ σ1 → Q (Err e) σ1) →
  (∀ σ1, R σ σ1 → ∃ g2, G σ1 ((mvcc_ops σ1.1 [put k v]).1, g2) ∧
     ∀ σ3, R ((mvcc_ops σ1.1 [put k v]).1, g2) σ3 → (∀ rev, Q (Ok rev) σ3) ∧ ∀ e, Q (Err e) σ3) →
  wp etcd_ok R G (Put s k v 0) Q σ.
Proof using Grefl PreOrder0.
  intros He Hc. unfold Put. destruct (guard s) as [[g|]|] eqn:Eg; unfold guardedWrite; rewrite ?Eg.
  - wpb. unfold guardedOp.
    pose proof (wp_txnRawResponse R G Grefl [WithGenerationGuard (nodeID s) g] [OpPut k v 0]
      (λ r σ1, match r with Ok r => if succeeded r then Q (Ok (rrev r)) σ1 else Q (Err ErrFenced) σ1 | Err e => Q (Err e) σ1 end) σ) as Hw.
    intros σ1 m2 a H1 Hok. destruct Hw with (m2 := m2) (r := a) (σ1 := σ1) as (g2 & HG & Hk); [..|exact H1|exact Hok|].
    + intros σ2 H2. by apply He.
    + intros σ2 r H2 Hs. rewrite Hs. by apply He.
    + intros σ2 H2 Hf _. destruct (Hc σ2 H2) as (g2 & HG & HQ). exists g2. split; [done|]. intros σ3 H3.
      rewrite mvcc_txn_succeeded, Hf. split; by apply HQ.
    + exists g2. split; [done|]. destruct a as [r|]; cbn in *; [destruct (succeeded r) eqn:Es|]; intros σ3 H3; cbn; rewrite ?Es.
      all: intros σ4 H4; specialize (Hk σ4 ltac:(by trans σ3)); by rewrite ?Es in Hk.
  - intros σ1 H1. by apply He.
  - unfold putRaw. cbn [bind call]. intros σ1 m2 a H1 Hok.
    assert (∀ a', etcd_exact (QPut k v 0) σ1.1 m2 a' → ∃ g2, G σ1 (m2, g2) ∧ ∀ σ3, R (m2, g2) σ3 →
      Q match a' with Some rev => Ok rev | None => Err EEtcd end σ3 ∧ Q (Err EEtcd) σ3) as Hx.
    { intros a' [-> ->]. destruct (Hc σ1 H1) as (g2 & HG & HQ). exists g2. split; [done|]. intros σ3 H3. split; by apply HQ. }
    destruct Hok as [Ha|[-> [->|[a' Ha]]]].
    + destruct (Hx a Ha) as (g2 & HG & HQ). exists g2. split; [done|]. intros σ3 H3. by apply HQ.
    + exists σ1.2. destruct σ1 as [m1 g1]. split; [apply Grefl|]. intros σ3 H3. apply He. by trans (m1, g1).
    + destruct (Hx a' Ha) as (g2 & HG & HQ). exists g2. split; [done|]. intros σ3 H3. by apply HQ.
Qed.
End put.

(** ** Steps of the manager *)

(** Moving an owned arena to another node. *)
Lemma move_step m fl bud from to id :
  pool_inv (m, (fl, bud)) → is_u64 id → owned m from id →
  pool_inv ((mvcc_ops m [OpDelete (ArenaOwnerKey from id) false; put (ArenaOwnerKey to id) (EncodeUint64 id)]).1, (fl, bud)).
Proof.
  intros (Hw & He & H0 & Hb & Hfl) Hid Hown. set (m2 := (mvcc_ops m _).1). cbn [fst snd] in *.
  assert (∀ n x, is_u64 x → owned m2 n x ↔ (owned m n x ∧ x ≠ id) ∨ (n = to ∧ x = id)) as Ho.
  { intros n x Hx. unfold owned, m2. rewrite val_at_ops. unfold ops_effect, op_effect, op_touches, put.
    case_bool_decide as E; [apply ArenaOwnerKey_inj in E as [-> ->]; [|done..]; split; [by right|by eexists]|].
    case_bool_decide as E'; [apply ArenaOwnerKey_inj in E' as [-> ->]; [|done..]; split; [by intros []|]|].
    - intros [[_ ?]|[-> _]]; done.
    - split; [|by intros [[? _]|[-> ->]]]. intros Hs. left. split; [done|]. intros ->.
      destruct (He id n Hid Hs) as [_ Hu]. apply E'. by rewrite (Hu from Hown). }
  assert (∀ x, pooled m2 x ↔ pooled m x) as Hpo by (intros x; unfold pooled, m2; by rewrite val_at_ops).
  assert (counter_value PrefixArenaLog m2 = counter_value PrefixArenaLog m) as Hcv.
  { apply counter_value_same. unfold m2. by rewrite val_at_ops. }
  assert (id < counter_value PrefixArenaLog m) as Hlt by (destruct Hw as (_ & _ & _ & _ & _ & Hl); eauto).
  destruct (He id from Hid Hown) as [Hnp Huniq]. split.
  { apply pool_wf_ops; [done| | |]; fold m2; rewrite ?Hcv.
    - constructor; [done|]. constructor; [|constructor]. split; [|done]. intros _. by exists to, id.
    - intros x Hx ?%Hpo. by apply Hw.
    - intros x n Hx [[? _]|[_ ->]]%Ho; [by eapply Hw|done|done]. }
  split. { intros x n Hx Hxo. rewrite Hpo. apply Ho in Hxo as [[Hxo Hne]|[-> ->]]; [| |done].
    - destruct (He x n Hx Hxo) as [Hxp Hu]. split; [done|]. intros n' [[? _]|[_ ->]]%Ho; [by apply Hu|done|done].
    - split; [done|]. intros n' [[_ ?]|[-> _]]%Ho; done. }
  cbn [fst snd]. rewrite Hcv. split; [done|]. split; [done|].
  intros x j Hj. destruct (Hfl x j Hj) as (? & ? & ? & Hxo). rewrite Hpo. repeat (split; [done|]).
  intros n [[? _]|[_ ->]]%Ho; [by apply (Hxo n)|by apply (Hxo from)|done].
Qed.

(** Writing a key that is none of the pool's. *)
Lemma other_step m γ k v :
  pool_inv (m, γ) → has_prefix PrefixArena k = false → has_prefix PrefixFreeArena k = false → k ≠ PrefixArenaLog →
  pool_inv ((mvcc_ops m [put k v]).1, γ).
Proof.
  intros (Hw & He & H0 & Hb & Hfl) Ha Hf Hk. set (m2 := (mvcc_ops m _).1). cbn [fst snd] in *.
  assert (∀ k', k' ≠ k → val_at k' m2 = val_at k' m) as Hv.
  { intros k' Hne. unfold m2. rewrite val_at_ops. unfold ops_effect, op_effect, op_touches, put. by rewrite bool_decide_eq_false_2. }
  assert (∀ n x, ArenaOwnerKey n x ≠ k) as Hok by (intros n x <-; unfold ArenaOwnerKey in Ha; by rewrite has_prefix_app in Ha).
  assert (∀ x, FreeArenaKey x ≠ k) as Hfk by (intros x <-; unfold FreeArenaKey in Hf; by rewrite has_prefix_app in Hf).
  assert (∀ n x, owned m2 n x ↔ owned m n x) as Ho by (intros; unfold owned; by rewrite Hv).
  assert (∀ x, pooled m2 x ↔ pooled m x) as Hpo by (intros; unfold pooled; by rewrite Hv).
  assert (counter_value PrefixArenaLog m2 = counter_value PrefixArenaLog m) as Hcv by by apply counter_value_same, Hv.
  split.
  { apply pool_wf_ops; [done| | |]; fold m2; rewrite ?Hcv.
    - constructor; [|constructor]. unfold put. rewrite Ha, Hf. done.
    - intros x Hx ?%Hpo. by apply Hw.
    - intros x n Hx ?%Ho. by eapply Hw. }
  split. { intros x n Hx Hxo%Ho. rewrite Hpo. destruct (He x n Hx Hxo) as [? Hu]. split; [done|]. intros n' ?%Ho. by apply Hu. }
  cbn [fst snd]. rewrite Hcv. split; [done|]. split; [done|]. intros x j Hj. rewrite Hpo. setoid_rewrite Ho. by eapply Hfl.
Qed.

(** ** The manager's operations *)

Inductive mg_cmd := MJoin | MAcquire | MRebalance (from to : bytes) (id : Z).

Definition mg_run (mg : Manager) (c : mg_cmd) : prog (result unit) :=
  match c with
  | MJoin => Join mg
  | MAcquire => Manager_AcquireArena mg
  | MRebalance from to id => RebalanceArena mg from to id
  end.

Definition mg_draws (c : mg_cmd) : nat := match c with MRebalance _ _ _ => 0 | _ => 1 end.

Definition mg_ok (c : mg_cmd) : Prop := match c with MRebalance _ _ id => is_u64 id | _ => True end.

Section ops.
Context (i : nat) (mg : Manager).
Abbreviation wpp p Q σ := (wp etcd_ok (pool_rel false i) (pool_guar false i) p Q σ).

Lemma wp_other_put s k v b (Q : result Z → _ → Prop) σ :
  has_prefix PrefixArena k = false → has_prefix PrefixFreeArena k = false → k ≠ PrefixArenaLog →
  ready i b σ → (∀ r σ1, ready i b σ1 → Q r σ1) → wpp (Put s k v 0) Q σ.
Proof.
  intros Ha Hf Hk Hr HQ. wpr wp_Put; [apply pool_guar_refl| |].
  - intros e σ1 H1. apply HQ. by eapply ready_rel.
  - intros [m1 γ1] H1. assert (ready i b (m1, γ1)) as Hr1 by by eapply ready_rel. exists γ1. split.
    + split; [intros; by apply other_step|]. split; [unfold grows; congruence|done].
    + intros σ3 H3. assert (ready i b σ3) as Hr3.
      { eapply ready_rel; [exact H3|]. split; [apply other_step; [apply Hr1|done..]|apply Hr1]. }
      split; intros; by apply HQ.
Qed.

Lemma wp_RebalanceArena from to id b (Q : result unit → _ → Prop) σ :
  is_u64 id → ready i b σ → (∀ r σ1, ready i b σ1 → Q r σ1) → wpp (RebalanceArena mg from to id) Q σ.
Proof.
  intros Hid Hr HQ. unfold RebalanceArena.
  assert (∀ e σ1, ready i b σ1 → wpp (Ret (Err e)) Q σ1) as Herr.
  { intros e σ1 H1 σ2 H2. apply HQ. by eapply ready_rel. }
  wpb. wpr wp_Get; [apply pool_guar_refl|intros σ1 H1; apply Herr; by eapply ready_rel|].
  intros σ1 σ2 H1 H2. assert (ready i b σ2) as Hr2 by (do 2 (eapply ready_rel; [eassumption|]); done).
  destruct (stored _ _); [|by apply Herr]. wpb.
  wpr wp_Get; [apply pool_guar_refl|intros σ3 H3; apply Herr; by eapply ready_rel|].
  intros σ3 σ4 H3 H4. assert (ready i b σ4) as Hr4 by (do 2 (eapply ready_rel; [eassumption|]); done).
  destruct (match stored _ _ with None => _ | Some v => ParseUint v end) as [gen|]; [|by apply Herr].
  case_if; [by apply Herr|]. wpb. wpr wp_Txn; [apply pool_guar_refl| | |].
  - intros e σ5 H5. apply Herr. by eapply ready_rel.
  - intros σ5 H5 σ6 H6. apply HQ. do 2 (eapply ready_rel; [eassumption|]). done.
  - intros [m1 [fl bud]] H5 Hf. assert (ready i b (m1, (fl, bud))) as Hr5 by by eapply ready_rel.
    assert (pool_inv ((mvcc_ops m1 [OpDelete (ArenaOwnerKey from id) false; put (ArenaOwnerKey to id) (EncodeUint64 id)]).1, (fl, bud))) as Hi.
    { apply move_step; [apply Hr5|done|]. cbn [forallb fst] in Hf. rewrite andb_true_r in Hf.
      apply eval_value_is in Hf as (e & He & _). apply val_at_is_Some. by eexists. }
    exists (fl, bud). split; [split; [done|]; split; [unfold grows; congruence|done]|].
    intros σ7 H7. assert (ready i b σ7) as Hr7 by (eapply ready_rel; [exact H7|]; split; [done|apply Hr5]).
    split; intros σ8 H8; apply HQ; by eapply ready_rel.
Qed.

Lemma wp_Manager_AcquireArena b (Q : result unit → _ → Prop) σ :
  ready i (S b) σ → (∀ r σ1, ready i b σ1 → Q r σ1) → wpp (Manager_AcquireArena mg) Q σ.
Proof.
  intros Hr HQ. unfold Manager_AcquireArena. generalize 5%nat. intros fuel.
  assert (∀ σ1, ready i (S b) σ1 → ready i b σ1) as Hw.
  { intros σ1 (H1 & b' & H2 & H3). split; [done|]. exists b'. split; [lia|done]. }
  assert (∀ r σ1, ready i b σ1 → wpp (Ret r) Q σ1) as Hret.
  { intros r σ1 H1 σ2 H2. apply HQ. by eapply ready_rel. }
  revert σ Hr. induction fuel as [|f IH]; intros σ Hr; cbn [acquire_attempts]; [by apply Hret, Hw|].
  wpb. wpr wp_Get; [apply pool_guar_refl|intros σ1 H1; apply Hret, Hw; by eapply ready_rel|].
  intros σ1 σ2 H1 H2. assert (ready i (S b) σ2) as Hr2 by (do 2 (eapply ready_rel; [eassumption|]); done).
  set (current := match stored PrefixArenaLog σ1.1 with Some v => DecodeUint64 v | None => 0 end).
  wpb. wpr wp_Txn; [apply pool_guar_refl| | |].
  - intros e σ3 H3. apply Hret, Hw. by eapply ready_rel.
  - intros σ3 H3. apply IH. by eapply ready_rel.
  - intros [m3 [fl bud]] H3 Hf. assert (ready i (S b) (m3, (fl, bud))) as Hr3 by by eapply ready_rel.
    assert (counter_value PrefixArenaLog m3 = current) as Hcv.
    { destruct (Z.eqb_spec current 0) as [E0|]; cbn [forallb fst] in Hf; rewrite andb_true_r in Hf.
      - apply eval_key_absent in Hf; [|apply Hr3]. unfold counter_value, stored. by rewrite Hf.
      - apply eval_value_is in Hf as (e & He & Hv). unfold counter_value, stored. rewrite He, Hv.
        destruct (EncodeUint64 current) eqn:Ee; [discriminate Ee|]. rewrite <- Ee. apply DecodeUint64_EncodeUint64.
        assert (pool_inv σ1) as (_ & _ & ? & ? & _) by apply H1, Hr. change current with (counter_value PrefixArenaLog σ1.1).
        unfold is_u64. lia. }
    destruct Hr3 as (Hi3 & b' & Hb' & Hbud). destruct b' as [|b']; [lia|]. cbn [snd] in Hbud.
    destruct (draw_step i m3 fl bud b' Hi3 Hbud) as (Hu & Hn & Hi4 & Ho). rewrite Hcv in *.
    exists (<[current := i]> fl, <[i := b']> bud). split.
    { split; [done|]. split; [unfold grows; congruence|]. split.
      - intros x j Hj Hx. cbn [fst snd] in *. rewrite lookup_insert_ne by congruence. done.
      - intros j Hj. cbn [fst snd]. by rewrite list_lookup_insert_ne. }
    intros σ5 H5. assert (ready i b σ5) as Hr5.
    { eapply ready_rel; [exact H5|]. split; [done|]. exists b'. split; [lia|]. cbn [snd]. apply list_lookup_insert_eq. by eapply lookup_lt_Some. }
    assert (σ5.2.1 !! current = Some i) as Hfl5 by apply H5, lookup_insert_eq.
    split; [|by apply Hret]. wpb. wpr wp_Put; [apply pool_guar_refl|intros e σ6 H6; apply Hret; by eapply ready_rel|].
    intros [m6 [fl6 bud6]] H6. assert (ready i b (m6, (fl6, bud6))) as Hr6 by by eapply ready_rel.
    assert (fl6 !! current = Some i) as Hfl6 by by apply H6.
    destruct (record_step i m6 fl6 bud6 (mg_node mg) current (proj1 Hr6) Hfl6) as (Hi7 & _ & _).
    exists (delete current fl6, bud6). split.
    { split; [done|]. split; [unfold grows; congruence|]. split; [|done].
      intros x j Hj Hx. cbn [fst snd] in *. rewrite lookup_delete_ne by congruence. done. }
    intros σ8 H8. assert (ready i b σ8) as Hr8 by (eapply ready_rel; [exact H8|]; split; [done|apply Hr6]).
    split; intros; by apply Hret.
Qed.

Lemma wp_recognise kvs seen b (Q : unit → _ → Prop) σ :
  ready i b σ → (∀ σ1, ready i b σ1 → Q tt σ1) → wpp (recognise mg kvs seen) Q σ.
Proof.
  intros Hr HQ. revert seen σ Hr. induction kvs as [|x l IH]; intros seen σ Hr; cbn [recognise].
  { intros σ1 H1. apply HQ. by eapply ready_rel. }
  destruct (ParseArenaKey x.1) as [[n id]|]; [|by apply IH]. case_if; [by apply IH|].
  wpb. unfold registerRecognition. wpb. apply (wp_other_put _ _ _ b); [done|done|done|done|].
  intros r σ1 Hr1 σ2 H2. apply IH. by eapply ready_rel.
Qed.

Lemma wp_Join b (Q : result unit → _ → Prop) σ :
  ready i (S b) σ → (∀ r σ1, ready i b σ1 → Q r σ1) → wpp (Join mg) Q σ.
Proof.
  intros Hr HQ. unfold Join, registerMembership. wpb. wpb.
  wpr wp_now; [apply pool_guar_refl|]. intros t σ1 H1. wpb.
  apply (wp_other_put _ _ _ (S b)); [done|done|done|by eapply ready_rel|]. intros r σ2 Hr2.
  assert (∀ σ3, ready i (S b) σ3 → wpp (arenas ⇐ GetPrefix (mg_store mg) PrefixArena;
    _ ⇐ recognise mg (match arenas with Ok l => l | Err _ => [] end) ∅; Manager_AcquireArena mg) Q σ3) as Hrest.
  { intros σ3 Hr3. wpb. wpr wp_reading; [apply pool_guar_refl|by apply issues_GetPrefix|]. intros kvs σ4 H4.
    wpb. apply (wp_recognise _ _ (S b)); [by eapply ready_rel|]. intros σ5 Hr5. by apply (wp_Manager_AcquireArena b). }
  destruct r as [rev|e]; intros σ3 H3; apply Hrest; by eapply ready_rel.
Qed.

Lemma wp_mg_run c b (Q : result unit → _ → Prop) σ :
  mg_ok c → ready i (mg_draws c + b) σ → (∀ r σ1, ready i b σ1 → Q r σ1) → wpp (mg_run mg c) Q σ.
Proof. destruct c; intros Hok Hr HQ; [by apply (wp_Join b)|by apply (wp_Manager_AcquireArena b)|by apply (wp_RebalanceArena _ _ _ b)]. Qed.
End ops.

(** C29. Managers and daemons together.  Daemons run arbitrary sequences of pool
    operations while managers join, acquire arenas and move arenas of fenced
    nodes, all interleaved request by request, with replies lost and leases
    expiring: in every reachable state no arena has two owners, and none is
    owned while it is in the free pool. *)
Theorem managers_keep_exclusive `{E : Etcd} (nodes : list (Store * Allocator * list pool_cmd)) (mgs : list (Manager * mg_cmd)) srv c'
  (Hids : Forall (λ x, ids_ok x.1.2) nodes) (Hmgs : Forall (λ x, mg_ok x.2) mgs)
  (Hwf : pool_wf (eview srv)) (Hinit : arenas_exclusive (eview srv))
  (Hctr : 0 <= counter_value PrefixArenaLog (eview srv))
  (Hmax : counter_value PrefixArenaLog (eview srv) +
          Z.of_nat (sum_list (map (λ x, acquires x.2) nodes ++ map (λ x, mg_draws x.2) mgs)) < 2 ^ 64)
  (Hrun : rtc cstep (srv, map (λ x, _ ⇐ pool_script x.1.1 x.1.2 x.2; Ret tt) nodes ++
                          map (λ x, _ ⇐ mg_run x.1 x.2; Ret tt) mgs) c') :
  arenas_exclusive (eview c'.1).
Proof.
  set (bud := map (λ x, acquires x.2) nodes ++ map (λ x, mg_draws x.2) mgs) in *.
  assert (pool_inv (eview srv, (∅, bud))) as Hinv.
  { split; [done|]. split; [done|]. split; [done|]. split; [done|]. intros id i Hid. done. }
  destruct (cluster_rely_guarantee_inv (pool_rel false) (pool_guar false) (λ _ _ σ, pool_inv σ)
    (λ i j σ σ', pool_guar_rel false i j σ σ') (pool_rel_expire false) pool_inv
    (srv, map (λ x, _ ⇐ pool_script x.1.1 x.1.2 x.2; Ret tt) nodes ++ map (λ x, _ ⇐ mg_run x.1 x.2; Ret tt) mgs) c' (∅, bud))
    as (g & _ & Hend); try done.
  - intros i σ σ' HG. apply HG.
  - intros l m g H. by apply pool_expire.
  - intros i p Hp. simpl in Hp. apply lookup_app_Some in Hp as [Hp|[Hge Hp]]; rewrite list_lookup_fmap in Hp.
    + destruct (nodes !! i) as [[[s a] cmds]|] eqn:Ei; [|done]. injection Hp as <-. wpb.
      eapply wp_mono; [|apply wp_pool_script; [done| |by apply (Forall_lookup_1 _ _ _ _ Hids Ei)]].
      { intros a' σ1 H1 σ2 H2. by apply H2. }
      split; [done|]. exists (acquires cmds). split; [done|]. cbn [fst snd]. unfold bud.
      rewrite lookup_app_l by (rewrite length_map; by eapply lookup_lt_Some). by rewrite list_lookup_fmap, Ei.
    + rewrite length_map in Hge, Hp. destruct (mgs !! (i - length nodes)%nat) as [[mg c]|] eqn:Ei; [|done]. injection Hp as <-. wpb.
      apply (wp_mg_run i mg c 0); [by apply (Forall_lookup_1 _ _ _ _ Hmgs Ei)| |].
      { split; [done|]. exists (mg_draws c). split; [cbn [snd]; lia|]. cbn [fst snd]. unfold bud.
        rewrite lookup_app_r by (rewrite length_map; lia). by rewrite length_map, list_lookup_fmap, Ei. }
      intros r σ1 Hr1 σ2 H2. apply H2, Hr1.
  - apply Hend.
Qed.

(** A daemon "a" acquires an arena while "c" joins and an operator tries to move
    the arena of "a", which is not fenced. *)
Definition op_manager : Manager := mkManager (mkStore (lit "op") false None) (lit "op").
Definition mg_nodes : list (Store * Allocator * list pool_cmd) := [(mkStore (lit "a") false None, NewAllocator, [PAcquire; PReleaseEmpty])].
Definition mg_actors : list (Manager * mg_cmd) :=
  [(mkManager (mkStore (lit "c") false None) (lit "c"), MJoin); (op_manager, MRebalance (lit "a") (lit "c") 0)].
Definition mg_race : ref_srv * list (prog unit) :=
  foldl (@cexec ref_etcd _)
    (RefSrv empty_store 0, map (λ x, _ ⇐ pool_script x.1.1 x.1.2 x.2; Ret tt) mg_nodes ++ map (λ x, _ ⇐ mg_run x.1 x.2; Ret tt) mg_actors)
    [Step 0; Step 1; Step 0; Step 1; Step 2; Step 0; Step 1; Step 0; Step 1; Step 0; Step 1; Step 2; Step 1; Step 2; Step 0; Step 1].

Lemma managers_keep_exclusive_witness : arenas_exclusive (@eview ref_etcd mg_race.1).
Proof.
  apply (@managers_keep_exclusive ref_etcd mg_nodes mg_actors (RefSrv empty_store 0) mg_race).
  - repeat constructor.
  - repeat constructor; cbn; lia.
  - exact empty_pool_wf.
  - intros id n _ [x Hx]. vm_compute in Hx. discriminate Hx.
  - vm_compute. discriminate.
  - vm_compute. reflexivity.
  - apply cexec_steps.
Defined.

(** ** What counts as fenced *)

Definition b_store (g : Z) : Store := mkStore (lit "b") false (Some (Some g)).

(** Node "b" was fenced once, restarted under generation 1 and acquired arena 0.
    Moving that arena away from it succeeds; "b" goes on committing and
    allocating from it, and so does its new owner. *)
Lemma rebalance_takes_live_arena :
  let srv0 := (@run ref_etcd _ (PutGeneration (lit "b") 1) (RefSrv empty_store 0)).1 in
  let '(srv1, (al, _)) := @run ref_etcd _ (AcquireArena (b_store 1) NewAllocator) srv0 in
  let '(srv2, moved) := @run ref_etcd _ (RebalanceArena op_manager (lit "b") (lit "c") 0) srv1 in
  let '(srv3, (cl, _)) := @run ref_etcd _ (Reconstruct (mkStore (lit "c") false None) NewAllocator) srv2 in
  moved = Ok tt ∧
  (@run ref_etcd _ (Txn (b_store 1) [] [put (lit "k") (lit "v")] []) srv3).2 = Ok true ∧
  (Allocate al 4096).2 = (Allocate cl 4096).2 ∧ is_Some (Allocate al 4096).2.
Proof. vm_compute. repeat split. by eexists. Qed.

(** ** Leaving while an arena is moved *)

(** "b" lists its arenas, the operator moves one of them to "c", and then "b"
    releases it: the arena is in the free pool while "c" owns it. *)
Lemma leave_releases_moved_arena :
  let srv0 := (@run ref_etcd _ (_ ⇐ PutGeneration (lit "b") 1; Manager_AcquireArena (mkManager (b_store 1) (lit "b"))) (RefSrv empty_store 0)).1 in
  let c := foldl (@cexec ref_etcd _)
    (srv0, [LeaveGraceful (mkManager (b_store 1) (lit "b")); RebalanceArena op_manager (lit "b") (lit "c") 0])
    [Step 0; Step 1; Step 1; Step 1; Step 0; Step 0] in
  let m := rs_store c.1 in
  c.2 !! 1%nat = Some (Ret (Ok tt)) ∧ pooled m 0 ∧ owned m (lit "c") 0.
Proof. vm_compute. repeat split; by eexists. Qed.
