(* ===== verification/Lifecycle.v ===== *)
(** * A daemon's configuration, construction and departure

    Models the checks of [Parse] in internal/config/config.go, how [run] in
    cmd/etcfuse-meta/main.go and [NewService] in internal/ipc/service.go turn a
    configuration into a daemon, the choice of the fencer, the readiness test,
    and the way out: [stopOnSignalOrFence] and [leaveCluster].  (The sequence
    that joins the cluster is in Membership.)  Also how a volume's device is
    found and opened (pkg/blockio/resolve.go and device.go).

    The flag package and the host name are inputs; [time.ParseDuration] is a
    parameter, since nothing here depends on what it accepts, and so are the
    system calls that list /sys/block and open the device.  Durations are
    nanoseconds, 64-bit. *)

From S2P Require Import Prelude Etcd EtcdFacts Schema Store Locks Extents Allocator ArenaPool InodeTimes Dirents FenceRecords Membership Controller Service DataPath Delegate LockCache NodeCaches Daemon Fencers.

Definition int64 (x : Z) : Z := to_i64 (wrap64 x).

(** ** Configuration *)

Record Config := mkConfig {
  ListenAddr : bytes; EtcdEndpoints : list bytes; EtcdLocalEndpoint : bytes;
  EtcdCertFile : bytes; EtcdKeyFile : bytes; EtcdCAFile : bytes;
  cfg_nodeID : bytes; ClusterName : bytes; LeaseTTL : Z; LogLevel : Z; ShowVersion : bool;
  BlockDevice : bytes; cfg_volumeID : bytes; MetricsAddr : bytes; Pprof : bool; RunFsck : bool; RunInfo : bool;
  EBSVolumeID : bytes; EC2InstanceID : bytes; NVMeReservations : bool; AllowBufferedIO : bool; WriteBarriers : bool;
  MetadataFlushInterval : Z; WriteDataCache : bool; PageCache : bool; EntryTimeout : Z; AttrTimeout : Z;
  NotifyAddr : bytes; HistoryLog : bytes; ReadOnly : bool }.

(** The command line as [flag.Parse] leaves it: most flags are bound to fields
    of the configuration, five to strings that are checked afterwards. *)
Record Flags := mkFlags {
  fl_cfg : Config; fl_endpoints : bytes; fl_lease : bytes; fl_flush : bytes; fl_entry : bytes; fl_attr : bytes }.

Definition RequestTimeout : Z := 10 * second.
Definition DefaultEntryTimeout : Z := 60 * second.
Definition DefaultAttrTimeout : Z := 60 * second.

Definition DefaultSocket : bytes := lit "/run/etcfuse/etcfuse.sock".
Definition DefaultNotifySocket : bytes := lit "/run/etcfuse/etcfuse-notify.sock".

(** The flags' defaults: an empty command line. *)
Definition default_flags : Flags :=
  mkFlags (mkConfig DefaultSocket [] [] [] [] [] [] (lit "etcfuse") 0 1 false [] [] [] false false false [] [] false false
             false 0 true true 0 0 DefaultNotifySocket [] false)
    (lit "http://localhost:2379") (lit "10s") (lit "100ms") (lit "1m0s") (lit "1m0s").

(** [SelfFenceWindow] at its width. *)
Definition selfFenceWindow (ttl : Z) : Z := int64 (2 * ttl).

(** [strings.Split(s, ",")]. *)
Fixpoint split_on (sep : Z) (s : bytes) : list bytes :=
  match s with
  | [] => [[]]
  | c :: s' => if c =? sep then [] :: split_on sep s'
               else match split_on sep s' with [] => [[c]] | x :: xs => (c :: x) :: xs end
  end.

Section config.
Context (ParseDuration : bytes → option Z) (hostname : bytes).

(** [None]: the process exits with status 1. *)
Definition parseCacheTimeout (value : bytes) : option Z :=
  match ParseDuration value with
  | Some d => if d <? 0 then None else Some d
  | None => None
  end.

Definition parse_flush (value : bytes) : option Z :=
  match ParseDuration value with
  | Some fi => if (fi <? 0) || (RequestTimeout <=? fi) then None else Some fi
  | None => None
  end.

Definition parse_lease (value : bytes) : option Z :=
  match ParseDuration value with
  | Some d => if selfFenceWindow d <=? RequestTimeout then None else Some d
  | None => None
  end.

Definition Parse (f : Flags) : option Config :=
  let c := fl_cfg f in
  let endpoints := split_on comma (fl_endpoints f) in
  let nodeID := match cfg_nodeID c with [] => hostname | n => n end in
  if NVMeReservations c && bool_decide (BlockDevice c = []) && bool_decide (cfg_volumeID c = []) then None
  else
    match parse_flush (fl_flush f) with None => None | Some fi =>
    match parseCacheTimeout (fl_entry f) with None => None | Some et =>
    match parseCacheTimeout (fl_attr f) with None => None | Some atm =>
    match parse_lease (fl_lease f) with None => None | Some d =>
    Some (mkConfig (ListenAddr c) endpoints (EtcdLocalEndpoint c) (EtcdCertFile c) (EtcdKeyFile c) (EtcdCAFile c)
            nodeID (ClusterName c) d (LogLevel c) (ShowVersion c) (BlockDevice c) (cfg_volumeID c) (MetricsAddr c) (Pprof c)
            (RunFsck c) (RunInfo c) (EBSVolumeID c) (EC2InstanceID c) (NVMeReservations c) (AllowBufferedIO c)
            (WriteBarriers c) fi (WriteDataCache c) (PageCache c) et atm (NotifyAddr c) (HistoryLog c) (ReadOnly c))
    end end end end.
End config.

(** ** Waiting between attempts *)

Definition retryBaseDelay : Z := 10 * millisecond.
Definition retryStep : Z := 40 * millisecond.

(** [retryDelay] (retry.go): [spread + 1] is the bound of the random number [r]. *)
Definition retry_base (attempt : Z) : Z := int64 (retryBaseDelay + int64 (attempt * retryStep)).
Definition retry_spread (attempt : Z) : Z := Z.quot (retry_base attempt) 2.
Definition retryDelay (attempt r : Z) : Z := int64 (int64 (retry_base attempt - Z.quot (retry_spread attempt) 2) + r).

(** [casBackoff] (inode.go): [delay / 2 + 1] is the bound of the random number. *)
Definition cas_maxDelay : Z := 200 * millisecond.
Definition cas_delay (attempt : Z) : Z :=
  let delay := int64 (int64 (2 ^ attempt) * millisecond) in
  if (cas_maxDelay <? delay) || (delay <=? 0) then cas_maxDelay else delay.
Definition casBackoff (attempt r : Z) : Z := Z.quot (cas_delay attempt) 2 + r.

(** ** Construction *)

(** [entryTimeout] and [timeoutSecs]: zero stands for the default. *)
Definition cacheTimeout (d fallback : Z) : Z := if d =? 0 then fallback else d.
Definition timeoutSecs (d fallback : Z) : Z :=
  let d := cacheTimeout d fallback in
  if d <? 0 then 0 else wrap32 (d / second).

(** The options [run] hands to [NewService], and the service it makes; [dev] is
    the opened block device. *)
Definition service_options (cfg : Config) (dev : option Device) : Options :=
  mkOptions (MetadataFlushInterval cfg) defaultFlushMaxBytes defaultBufferMaxBytes
    (WriteDataCache cfg && (0 <? MetadataFlushInterval cfg)) (PageCache cfg) (ReadOnly cfg)
    (match dev with Some d => barriers_for d (WriteBarriers cfg) | None => false end).

Definition new_service (cfg : Config) (local : bool) (dev : option Device) : Service :=
  mkService (service_options cfg dev) (cfg_nodeID cfg) local false false 0 (mkLockState None 0)
    (match dev with Some d => SetDeviceSize NewAllocator (wrap64 (totalSize d)) | None => NewAllocator end)
    dev 0 0 false ∅.

(** With [StartDirTouchBatching]: timestamps are queued when writes are. *)
Definition NewService (cfg : Config) (local : bool) (dev : option Device) : Daemon :=
  mkDaemon (new_service cfg local dev) (if MetadataFlushInterval cfg <=? 0 then None else Some ∅)
    newInodeBlocks newOpenFiles ∅ (newDirentCache (cacheTimeout (EntryTimeout cfg) DefaultEntryTimeout)) false
    (timeoutSecs (EntryTimeout cfg) DefaultEntryTimeout) (timeoutSecs (AttrTimeout cfg) DefaultAttrTimeout).

Definition set_BlockDevice (p : bytes) (c : Config) : Config :=
  mkConfig (ListenAddr c) (EtcdEndpoints c) (EtcdLocalEndpoint c) (EtcdCertFile c) (EtcdKeyFile c) (EtcdCAFile c)
    (cfg_nodeID c) (ClusterName c) (LeaseTTL c) (LogLevel c) (ShowVersion c) p (cfg_volumeID c) (MetricsAddr c) (Pprof c)
    (RunFsck c) (RunInfo c) (EBSVolumeID c) (EC2InstanceID c) (NVMeReservations c) (AllowBufferedIO c)
    (WriteBarriers c) (MetadataFlushInterval c) (WriteDataCache c) (PageCache c) (EntryTimeout c) (AttrTimeout c)
    (NotifyAddr c) (HistoryLog c) (ReadOnly c).

(** ** Finding and opening the device *)

(** [strings.TrimSpace] and [strings.ToLower] of ASCII strings. *)
Definition is_space (c : Z) : bool := ((9 <=? c) && (c <=? 13)) || (c =? 32).
Fixpoint trim_left (s : bytes) : bytes := match s with c :: s' => if is_space c then trim_left s' else s | [] => [] end.
Definition TrimSpace (s : bytes) : bytes := rev (trim_left (rev (trim_left s))).
Definition to_lower (c : Z) : Z := if (65 <=? c) && (c <=? 90) then c + 32 else c.

Definition normalizeSerial (s : bytes) : bytes := map to_lower (filter (λ c, c ≠ dash) (TrimSpace s)).

Definition sysfsBlock : bytes := lit "/sys/block".
Definition bang : Z := 33.
(** sysfs escapes the slashes of a device's name. *)
Definition device_path (name : bytes) : bytes := lit "/dev/" ++ map (λ c, if c =? bang then slash else c) name.

Section system.
(** What the kernel answers: the names under /sys/block, the contents of a
    file; opening a path with or without O_DIRECT; of an open descriptor, the
    sector size, the size in bytes of a block device and the size of a file. *)
Context (ReadDir : option (list bytes)) (ReadFile : bytes → option bytes).
Context (sys_open : bool → bytes → option Z) (BLKSSZGET BLKGETSIZE64 fstat_size : Z → option Z).

Definition serial_file (p : bytes) (otherwise : bytes) : bytes :=
  match ReadFile p with
  | Some b => match TrimSpace b with [] => otherwise | s => s end
  | None => otherwise
  end.

(** NVMe namespaces carry it on the controller, others on the device. *)
Definition readSerial (name : bytes) : bytes :=
  serial_file (sysfsBlock ++ lit "/" ++ name ++ lit "/device/serial")
    (serial_file (sysfsBlock ++ lit "/" ++ name ++ lit "/serial") []).

Definition ResolvePath (volumeID : bytes) : option bytes :=
  match normalizeSerial volumeID with
  | [] => None
  | want =>
    entries ← ReadDir;
    x ← list_find (λ name, normalizeSerial (readSerial name) = want) entries;
    Some (device_path x.2)
  end.

(** An [int64] of what the ioctl stores. *)
Definition readSize (fd : Z) : option Z :=
  match BLKGETSIZE64 fd with Some bs => Some (int64 bs) | None => fstat_size fd end.

Definition queryGeometry (direct : bool) (fd : Z) : option Device :=
  let sector := match BLKSSZGET fd with Some sec => if 0 <? sec then sec else 512 | None => 512 end in
  size ← readSize fd; Some (mkDevice direct sector size).

Definition open_device (path : bytes) (allowBuffered : bool) : option Device :=
  match sys_open true path with
  | Some fd => queryGeometry true fd
  | None =>
    if negb allowBuffered then None
    else fd ← sys_open false path; queryGeometry false fd
  end.

Definition Open (path : bytes) : option Device := open_device path false.
Definition OpenBuffered (path : bytes) : option Device := open_device path true.

(** The volume's device path overrides the configured one. *)
Definition resolve_volume (cfg : Config) : option Config :=
  match cfg_volumeID cfg with
  | [] => Some cfg
  | v => match ResolvePath v with None => None | Some p => Some (set_BlockDevice p cfg) end
  end.

(** What [run] builds before it touches the cluster.  [None]: it returns an
    error; dialling etcd is assumed to work, and there is no history log. *)
Definition construct (cfg : Config) : option (Config * Membership * Daemon) :=
  match resolve_volume cfg with
  | None => None
  | Some cfg =>
    let mem := SetInstanceID (NewMembership (cfg_nodeID cfg) (ClusterName cfg) (LeaseTTL cfg)) (EC2InstanceID cfg) in
    let local := bool_decide (EtcdLocalEndpoint cfg ≠ []) in
    match BlockDevice cfg with
    | [] => Some (cfg, mem, NewService cfg local None)
    | path =>
      match (if AllowBufferedIO cfg then OpenBuffered path else Open path) with
      | None => None
      | Some dev => Some (cfg, mem, NewService cfg local (Some dev))
      end
    end
  end.
End system.

(** ** Readiness and fencing *)

Definition readiness (serving alive fenced : bool) : bool := if negb serving then false else if negb alive then false else negb fenced.

Inductive fencer := NoFencer | ByReservation (f : NVMeFencer) | ByDetachment (d : EBSDetacher).

(** [newFencingController]; [open_dev] is the namespace [nvmeresv.Open] finds
    behind the path. *)
Definition newFencingController (cfg : Config) (open_dev : bytes → option Z) : fprog (option fencer) :=
  if NVMeReservations cfg then
    match open_dev (BlockDevice cfg) with
    | None => mret None
    | Some dev =>
      r ← newNVMeFencer dev (cfg_nodeID cfg);
      mret match r with Ok f => Some (ByReservation f) | Err _ => None end
    end
  else match EBSVolumeID cfg with
       | [] => mret (Some NoFencer)
       | v => mret (ByDetachment <$> newDetacher v)
       end.

Definition Fence (f : fencer) (node instanceID : bytes) : fprog (option (result unit)) :=
  match f with
  | NoFencer => mret (Some (Ok tt))
  | ByReservation f => Some <$> NVMeFencer_Fence f node instanceID
  | ByDetachment d => EBSDetacher_Fence d node instanceID
  end.

(** ** Leaving *)

Section leave.
Context (shuffle : list (Z * timeUpdate) → list (Z * timeUpdate)).

(** What is flushed and given up before the node announces anything.  [false]:
    the process panicked (see [ReleaseCachedLocks]). *)
Definition flush_and_unlock : dmn bool :=
  _ ⇝ on_times (λ s t, t' ⇐ FlushInodeTimes s shuffle t 0; Ret (t', tt));
  on_svc ReleaseCachedLocks.

Definition close_session : dmn (result unit) := on_svc (λ s,
  x ⇐ CloseLockSession (lstate s); Ret (set_lstate x.1 s, x.2)).

Definition leaveCluster (m : Membership) : dmn (option (Membership * (list Z * option err))) :=
  ok ⇝ flush_and_unlock;
  if negb ok then dret None
  else
    _ ⇝ close_session;
    r ⇝ on_store (λ s, Leave m s);
    dret (Some r).

(** The way down; a node that fenced itself gives its locks up first. *)
Definition shut_down (selfFenced : bool) (m : Membership) : dmn (option (Membership * (list Z * option err))) :=
  if selfFenced then
    ok ⇝ on_svc ReleaseCachedLocks;
    if negb ok then dret None else leaveCluster m
  else leaveCluster m.
End leave.

(** ** The process *)

Inductive process := ShowsVersion | RunsFsck | RunsInfo | Serves.
Definition main_process (cfg : Config) : process :=
  if ShowVersion cfg then ShowsVersion else if RunFsck cfg then RunsFsck else if RunInfo cfg then RunsInfo else Serves.

Inductive run_error := errSelfFenced | RunFailed.

(** The end of [run]: a failure of the socket server goes before a self-fence. *)
Definition run_result (serveErr selfFenced : bool) : option run_error :=
  if serveErr then Some RunFailed else if selfFenced then Some errSelfFenced else None.

Definition SelfFenceExitCode : Z := 77.
Definition exit_status (e : option run_error) : Z :=
  match e with None => 0 | Some errSelfFenced => SelfFenceExitCode | Some RunFailed => 1 end.
