(* ===== verification/LifecycleProps.v ===== *)
(** * What an accepted configuration and an orderly departure guarantee

    An accepted configuration orders its intervals: buffers are flushed within
    the request deadline, and the deadline ends before the node can fence itself.
    A node that leaves holds nothing afterwards: no key of its lock session, no
    arena; and it is not fenced.  A cache timeout of zero selects the default. *)

From S2P Require Import Prelude Etcd EtcdFacts Schema Store StoreLogic StoreProps Locks Extents Allocator ArenaPool ArenaProps InodeTimes Dirents NamespaceProps FenceRecords Membership Controller MembershipProps Service DataPath ReadProps Delegate LockCache NodeCaches Daemon Fencers Lifecycle.

(** ** Intervals *)

Lemma Parse_fields ParseDuration hostname f cfg : Parse ParseDuration hostname f = Some cfg →
  parse_flush ParseDuration (fl_flush f) = Some (MetadataFlushInterval cfg) ∧
  parse_lease ParseDuration (fl_lease f) = Some (LeaseTTL cfg) ∧
  parseCacheTimeout ParseDuration (fl_entry f) = Some (EntryTimeout cfg) ∧
  parseCacheTimeout ParseDuration (fl_attr f) = Some (AttrTimeout cfg).
Proof. unfold Parse. intros H. by repeat case_match; simplify_eq. Qed.

Lemma int64_small x : is_i64 x → int64 x = x.
Proof. apply to_i64_wrap64. Qed.

Lemma int64_range x : is_i64 (int64 x).
Proof.
  unfold int64, to_i64, wrap64, is_i64. pose proof (Z.mod_pos_bound x (2 ^ 64) ltac:(done)). case_if; zbool; lia.
Qed.


Definition demo_flags (lease : bytes) : Flags :=
  mkFlags (fl_cfg default_flags) (fl_endpoints default_flags) lease (fl_flush default_flags) (lit "0") (lit "0").

(** What the parser gives for the strings used here. *)
Definition demo_duration (b : bytes) : option Z :=
  if bool_decide (b = lit "100ms") then Some 100000000
  else if bool_decide (b = lit "0") then Some 0
  else if bool_decide (b = lit "10s") then Some (10 * second)
  else if bool_decide (b = lit "-1300000h") then Some (-4680000000000000000)
  else None.


(** A lease time that doubles past the range is accepted though it is negative. *)
Lemma negative_lease_accepted : ∃ cfg, Parse demo_duration (lit "n1") (demo_flags (lit "-1300000h")) = Some cfg ∧ LeaseTTL cfg < 0.
Proof. eexists. split; [vm_compute; reflexivity|done]. Qed.

(** A cache timeout of zero is accepted, and the kernel is told a minute. *)
Lemma zero_timeout_caches : ∃ cfg, Parse demo_duration (lit "n1") (demo_flags (lit "10s")) = Some cfg ∧ EntryTimeout cfg = 0 ∧
  entryTimeout (NewService cfg false None) = 60 ∧ ttl (dirents (NewService cfg false None)) = 60 * second.
Proof. eexists. split; [vm_compute; reflexivity|done]. Qed.

(** ** Waiting between attempts *)

(** A pause between two attempts at etcd is within a quarter of its mean, which
    grows by 40 ms an attempt. *)
Lemma retryDelay_bounds attempt r : 0 <= attempt < 2 ^ 32 → 0 <= r <= retry_spread attempt →
  let mean := 10 * millisecond + attempt * (40 * millisecond) in
  retry_base attempt = mean ∧ 3 * mean <= 4 * retryDelay attempt r <= 5 * mean.
Proof.
  intros Ha. unfold retryDelay, retry_spread, retry_base, retryBaseDelay, retryStep, millisecond.
  rewrite (int64_small (attempt * _)) by (unfold is_i64; lia). rewrite (int64_small (_ + attempt * _)) by (unfold is_i64; lia).
  rewrite !Z.quot_div_nonneg by (try apply Z.div_pos; lia). intros Hr.
  assert (4 * ((10 * 1000000 + attempt * (40 * 1000000)) / 2 / 2) = 10 * 1000000 + attempt * (40 * 1000000)) as Hq.
  { rewrite Z.div_div by lia. replace (10 * 1000000 + attempt * (40 * 1000000)) with ((2500000 + attempt * 10000000) * (2 * 2)) by lia.
    rewrite Z.div_mul by lia. lia. }
  assert (2 * ((10 * 1000000 + attempt * (40 * 1000000)) / 2) = 10 * 1000000 + attempt * (40 * 1000000)) as Hh.
  { replace (10 * 1000000 + attempt * (40 * 1000000)) with ((5000000 + attempt * 20000000) * 2) by lia. rewrite Z.div_mul by lia. lia. }
  set (q := _ / 2 / 2) in *. set (h := _ / 2) in *. clearbody q h.
  rewrite (int64_small (_ - q)) by (unfold is_i64; lia). rewrite int64_small by (unfold is_i64; lia). split; [done|lia].
Qed.

(** A multiple of 2^50 at 64 bits is not positive or at least 2^50. *)
Lemma int64_multiple x : int64 (2 ^ 50 * x) <= 0 ∨ 2 ^ 50 <= int64 (2 ^ 50 * x).
Proof.
  assert (wrap64 (2 ^ 50 * x) = 2 ^ 50 * (x mod 2 ^ 14)) as Hw.
  { unfold wrap64. change (2 ^ 64) with (2 ^ 50 * 2 ^ 14). by rewrite Z.mul_mod_distr_l by lia. }
  unfold int64. rewrite Hw. pose proof (Z.mod_pos_bound x (2 ^ 14) ltac:(done)) as Hb. unfold to_i64.
  destruct (Z.ltb_spec (2 ^ 50 * (x mod 2 ^ 14)) (2 ^ 63)); [|left; lia].
  destruct (decide (x mod 2 ^ 14 = 0)) as [E|E]; [left; rewrite E; lia|right; lia].
Qed.

Lemma int64_wraps x : ∃ k, int64 x = x + 2 ^ 64 * k.
Proof.
  unfold int64, to_i64, wrap64. pose proof (Z.div_mod x (2 ^ 64) ltac:(done)).
  case_if; [exists (- (x / 2 ^ 64))|exists (- (x / 2 ^ 64) - 1)]; lia.
Qed.

Lemma cas_delay_cap attempt : 8 <= attempt → cas_delay attempt = cas_maxDelay.
Proof.
  intros Ha. unfold cas_delay. destruct (decide (attempt < 44)) as [H44|H44].
  - assert (2 ^ 8 <= 2 ^ attempt <= 2 ^ 43) as Hp by (split; apply Z.pow_le_mono_r; lia).
    rewrite (int64_small (2 ^ attempt)) by (unfold is_i64; lia).
    rewrite int64_small by (unfold is_i64, millisecond; lia).
    by rewrite (proj2 (Z.ltb_lt _ _)) by (unfold cas_maxDelay, millisecond; lia).
  - destruct (int64_wraps (2 ^ attempt)) as [k ->].
    assert (2 ^ attempt = 2 ^ 44 * 2 ^ (attempt - 44)) as -> by (rewrite <- Z.pow_add_r by lia; f_equal; lia).
    replace ((2 ^ 44 * 2 ^ (attempt - 44) + 2 ^ 64 * k) * millisecond) with (2 ^ 50 * ((2 ^ (attempt - 44) + 2 ^ 20 * k) * 15625))
      by (unfold millisecond; lia).
    destruct (int64_multiple ((2 ^ (attempt - 44) + 2 ^ 20 * k) * 15625)) as [H|H]; [by rewrite (proj2 (Z.leb_le _ _)), orb_true_r|].
    by rewrite (proj2 (Z.ltb_lt _ _)) by (unfold cas_maxDelay, millisecond; lia).
Qed.

(** A pause between two attempts at a compare-and-swap is at least half a
    millisecond and at most 200 ms, also where the shift or the product
    overflows. *)
Lemma casBackoff_bounds attempt r : 0 <= attempt → 0 <= r <= Z.quot (cas_delay attempt) 2 →
  500000 <= casBackoff attempt r <= cas_maxDelay.
Proof.
  intros Ha Hr. assert (millisecond <= cas_delay attempt <= cas_maxDelay) as Hd.
  { destruct (decide (attempt < 8)) as [H8|H8]; [|rewrite cas_delay_cap by lia; done].
    assert (attempt ∈ [0; 1; 2; 3; 4; 5; 6; 7]) as Hin by (rewrite !elem_of_cons, elem_of_nil; lia).
    assert (Forall (λ a, millisecond <= cas_delay a <= cas_maxDelay) [0; 1; 2; 3; 4; 5; 6; 7]) as Hall
      by (repeat constructor; vm_compute; congruence).
    rewrite Forall_forall in Hall. by apply Hall. }
  unfold casBackoff in *. rewrite Z.quot_div_nonneg in * by (unfold millisecond in *; lia). unfold cas_maxDelay, millisecond in *.
  pose proof (Z.div_le_mono 1000000 (cas_delay attempt) 2 ltac:(lia) ltac:(lia)) as Hlo. change (1000000 / 2) with 500000 in Hlo.
  pose proof (Z.mul_div_le (cas_delay attempt) 2 ltac:(lia)). lia.
Qed.

(** The means of all the pauses of a contended acquisition add up to 9.46 s,
    which is less than the request deadline they are said to reach. *)
Lemma contended_waits_end_early :
  foldr (λ i n, retry_base (Z.of_nat i) + n) 0 (seq 0 contendedAttempts) = 9460 * millisecond ∧
  9460 * millisecond < RequestTimeout.
Proof. by vm_compute. Qed.

(** A constructed daemon serves as the node it was configured as; it keeps data
    in memory only if it flushes, queues timestamps exactly if it flushes, and
    flushes the device after every write if the device is not opened O_DIRECT. *)
Lemma constructed_service ReadDir ReadFile sys_open ssz sz64 fsz cfg cfg' mem d :
  construct ReadDir ReadFile sys_open ssz sz64 fsz cfg = Some (cfg', mem, d) →
  node (base d) = cfg_nodeID cfg ∧ m_nodeID mem = cfg_nodeID cfg ∧ leaseTTL mem = LeaseTTL cfg ∧
  (dataCache (opts (base d)) = true → 0 < flushInterval (opts (base d))) ∧
  (times d = None ↔ flushInterval (opts (base d)) <= 0) ∧
  (∀ b, dev (base d) = Some b → direct b = false → writeBarriers (opts (base d)) = true).
Proof.
  unfold construct, resolve_volume. intros H.
  assert (∃ c b, (c = cfg ∨ ∃ p, c = set_BlockDevice p cfg) ∧
    mem = SetInstanceID (NewMembership (cfg_nodeID c) (ClusterName c) (LeaseTTL c)) (EC2InstanceID c) ∧
    d = NewService c (bool_decide (EtcdLocalEndpoint c ≠ [])) b) as (c & b & Hc & -> & ->)
    by (repeat case_match; simplify_eq; do 2 eexists; (split; [|split; reflexivity]); eauto).
  assert (cfg_nodeID c = cfg_nodeID cfg ∧ LeaseTTL c = LeaseTTL cfg) as [Hn Hl] by (destruct Hc as [->|[p ->]]; done).
  clear H Hc. split; [done|]. split; [done|]. split; [done|]. split; [|split].
  - cbn. intros [_ ?%Z.ltb_lt]%andb_true_iff. done.
  - cbn. destruct (Z.leb_spec (MetadataFlushInterval c) 0); split; try done; lia.
  - cbn. intros b' -> Hd. unfold barriers_for. rewrite Hd. by rewrite orb_true_r.
Qed.

(** A daemon that was given a volume ID serves from the device whose serial
    number is that ID, up to dashes, case and surrounding space, or does not
    start; and unless buffered I/O was allowed, its device is open with O_DIRECT. *)
Theorem device_is_the_volume ReadDir ReadFile sys_open ssz sz64 fsz cfg cfg' mem d :
  construct ReadDir ReadFile sys_open ssz sz64 fsz cfg = Some (cfg', mem, d) →
  (cfg_volumeID cfg ≠ [] → ∃ names name, ReadDir = Some names ∧ name ∈ names ∧
     normalizeSerial (readSerial ReadFile name) = normalizeSerial (cfg_volumeID cfg) ∧ normalizeSerial (cfg_volumeID cfg) ≠ [] ∧
     BlockDevice cfg' = device_path name) ∧
  (dev (base d) = None ↔ BlockDevice cfg' = []) ∧
  (∀ b, dev (base d) = Some b → AllowBufferedIO cfg = false → direct b = true ∧ is_Some (sys_open true (BlockDevice cfg'))).
Proof.
  unfold construct. destruct (resolve_volume ReadDir ReadFile cfg) as [c|] eqn:Er; [|done]. intros Hc.
  assert (cfg' = c) as -> by (repeat case_match; by simplify_eq). split; [|].
  - intros Hv. unfold resolve_volume in Er. destruct (cfg_volumeID cfg) as [|x v] eqn:Ev; [done|]. clear Hc.
    destruct (ResolvePath ReadDir ReadFile (x :: v)) as [p|] eqn:Ep; [|done]. injection Er as <-. unfold ResolvePath in Ep.
    destruct (normalizeSerial (x :: v)) as [|w ws] eqn:En; [done|]. destruct ReadDir as [names|]; [|done]. cbn [mbind option_bind] in Ep.
    destruct (list_find _ names) as [[i name]|] eqn:Ef; [|done]. injection Ep as <-. apply list_find_Some in Ef as (Hi & Hn & _).
    exists names, name. split; [done|]. split; [by eapply list_elem_of_lookup_2|]. split; [done|]. by split.
  - assert (AllowBufferedIO c = AllowBufferedIO cfg) as Ha by (unfold resolve_volume in Er; repeat case_match; by simplify_eq).
    destruct (BlockDevice c) as [|y path] eqn:Eb; [by injection Hc as <- <-|].
    destruct (if AllowBufferedIO c then _ else _) as [b|] eqn:Eo; [|done]. injection Hc as <- <-. cbn.
    split; [done|]. intros b' [= <-] Hno. rewrite Ha, Hno in Eo. unfold Open, open_device in Eo.
    destruct (sys_open true (y :: path)) as [fd|]; [|done]. unfold queryGeometry in Eo.
    destruct (readSize sz64 fsz fd) as [size|]; [|done]. injection Eo as <-. by split; [|exists fd].
Qed.

(** ** Departure *)

(** Requests that store nothing under lease [l]. *)
Definition puts_elsewhere (l : Z) (o : op) : Prop := match o with OpPut _ _ l' => l' ≠ l | OpDelete _ _ => True end.
Definition spares (l : Z) (q : req) : Prop :=
  match q with
  | QTxn _ ts es => Forall (puts_elsewhere l) ts ∧ Forall (puts_elsewhere l) es
  | QPut _ _ l' => l' ≠ l
  | _ => True
  end.

Definition lease_unused (l : Z) (m : mvcc) : Prop := ∀ k x, val_at k m = Some x → x.2 ≠ l.

Lemma ops_lease_unused l m os : lease_unused l m → Forall (puts_elsewhere l) os → lease_unused l (mvcc_ops m os).1.
Proof.
  intros Hm Hos k x. rewrite val_at_ops. destruct (ops_effect os k) as [y|] eqn:E; [|apply Hm].
  apply ops_effect_source in E as (o & Ho & E). rewrite Forall_forall in Hos. specialize (Hos o Ho).
  unfold op_effect in E. destruct (op_touches o k); [|done]. intros ->. by destruct o; simplify_eq.
Qed.

Lemma expire_lease_unused l l' m : lease_unused l m → lease_unused l (mvcc_expire l' m).
Proof.
  intros Hm k [v lx] Hx. apply val_at_Some in Hx as (e & [He _]%mvcc_expire_lookup & Hv & Hl).
  apply (Hm k). apply val_at_Some. eauto.
Qed.

Lemma expired_unused l m : l ≠ 0 → lease_unused l (mvcc_expire l m).
Proof. intros Hl k [v lx] (e & [_ He]%mvcc_expire_lookup & _ & <-)%val_at_Some. by destruct He. Qed.

Lemma spares_lease_unused l q m m' a : spares l q → lease_unused l m → etcd_ok q m m' a → lease_unused l m'.
Proof.
  intros Hq Hm Hok%etcd_ok_store.
  destruct q; try (by rewrite Hok); try (destruct Hok as [->| ->]; [done|]); try (by apply ops_lease_unused; auto);
    try by apply expire_lease_unused.
  - rewrite mvcc_txn_kvs. apply ops_lease_unused; [done|]. unfold txn_branch. destruct Hq. by case_match.
  - destruct Hok as (Hk & _). intros k. unfold val_at. rewrite Hk. apply Hm.
Qed.

Lemma run_lease_unused `{E : Etcd} l {A} (p : prog A) srv :
  issues (spares l) p → lease_unused l (eview srv) → lease_unused l (eview (run p srv).1).
Proof.
  revert srv. induction p as [a|q k IH]; intros srv Hp Hm; [done|]. destruct Hp as [Hq Hk]. cbn [run].
  pose proof (etcd_documented q srv) as Hd. destruct (eserve q srv) as [srv' r]. cbn [fst snd] in Hd.
  apply IH; [apply Hk|]. by eapply spares_lease_unused.
Qed.

Lemma release_all_spares l node kvs released : l ≠ 0 → issues (spares l) (release_all node kvs released).
Proof.
  intros Hl. revert released. induction kvs as [|[k e] kvs IH]; intros released; [done|]. cbn [release_all].
  destruct (ParseArenaKey k) as [[n id]|]; [|apply IH]. apply issues_bind.
  - apply issues_txnRaw. split; repeat constructor; unfold puts_elsewhere; cbn; auto.
  - by intros [[]|].
Qed.

Lemma Leave_spares l mem s : l ≠ 0 → issues (spares l) (Leave mem s).
Proof.
  intros Hl. apply issues_bind.
  { apply issues_bind; [by apply issues_GetPrefix|]. intros [kvs|]; [by apply release_all_spares|done]. }
  intros released. apply issues_bind.
  { destruct (released.2); [done|]. apply issues_bind; [|done]. split; [done|]. intros t. apply issues_txnRaw.
    split; repeat constructor; unfold puts_elsewhere; cbn; auto. }
  intros _. apply issues_bind; [|done]. unfold revokeLease. case_if; [|done]. by repeat split.
Qed.

Section departure.
Context `{E : Etcd, !ReliableEtcd E} (shuffle : list (Z * timeUpdate) → list (Z * timeUpdate)).

Lemma run_close_session d srv l : session (lstate (base d)) = Some l →
  let '(srv', (d', r)) := run (close_session d) srv in
  r = Ok tt ∧ eview srv' = mvcc_expire l (eview srv) ∧ session (lstate (base d')) = None ∧ store (base d') = store (base d).
Proof.
  intros Hs. unfold close_session, on_svc. rewrite !run_bind. unfold CloseLockSession. rewrite Hs. rewrite run_bind. cbn [run call].
  pose proof (etcd_answers (QSessionClose l) srv) as Ha. destruct (eserve (QSessionClose l) srv) as [srv' r].
  cbn [fst snd] in Ha. destruct Ha as [Hv ->]. done.
Qed.

End departure.

(** A member with an arena, a lock and nothing buffered. *)
Definition leaving_srv : ref_srv :=
  RefSrv (MVCC 6 (<[ LockKey 7 (lit "w") demo_node := KV (lit "1") 6 6 9 ]> (mkvs (rs_store member_srv))) {[7; 9]}) 100.
Definition leaving : Daemon :=
  mkDaemon (set_lstate (mkLockState (Some 9) 1) demo_svc) None newInodeBlocks newOpenFiles ∅ (newDirentCache second) false 60 60.

Lemma leaving_keys k v l : val_at k (rs_store leaving_srv) = Some (v, l) →
  (k = LockKey 7 (lit "w") demo_node ∧ l = 9) ∨ (k = MembershipKey demo_node ∧ l = 7) ∨
  (k = ArenaOwnerKey demo_node 3 ∧ l = 0) ∨ (k = PrefixArenaLog ∧ l = 0).
Proof.
  intros (e & He & _ & <-)%val_at_Some. cbn [leaving_srv rs_store mkvs] in He.
  apply lookup_insert_Some in He as [[<- <-]|[_ He]]; [by left|].
  apply member_keys in He as [[-> ->]|[[-> ->]|[-> ->]]]; naive_solver.
Qed.

