(* ===== verification/Csi.v ===== *)
(** * The CSI driver

    Models csi/internal/driver (controller.go, node.go, volume.go and the checks
    of driver.go): volumes as directories of the mounted file system, their
    quotas, bind mounts, and the fence intent recorded when a volume is taken
    back from a node that is gone.  gRPC is left out: a call is a function of its
    request's fields and its error is a status code.  The operating system's
    calls are requests, as etcd's are. *)

From S2P Require Import Prelude Etcd EtcdFacts Schema Store FenceRecords Extents Allocator Scrub Quota Lifecycle.

(** ** Paths (path/filepath) *)

Definition dot : bytes := lit ".".
Definition dotdot : bytes := lit "..".

(** The parts between slashes. *)
Fixpoint split_path (p : bytes) : list bytes :=
  match p with
  | [] => [[]]
  | c :: p' => if c =? slash then [] :: split_path p'
               else match split_path p' with [] => [[c]] | x :: xs => (c :: x) :: xs end
  end.

(** One part on the way of [Clean]; [out] is the result so far, last part first. *)
Definition clean_part (rooted : bool) (out : list bytes) (x : bytes) : list bytes :=
  if bool_decide (x = []) || bool_decide (x = dot) then out
  else if bool_decide (x = dotdot) then
    match out with
    | [] => if rooted then [] else [dotdot]
    | y :: out' => if bool_decide (y = dotdot) then dotdot :: out else out'
    end
  else x :: out.

Definition is_rooted (p : bytes) : bool := match p with c :: _ => c =? slash | [] => false end.

Definition clean_parts (p : bytes) : list bytes := rev (foldl (clean_part (is_rooted p)) [] (split_path p)).

Fixpoint join_parts (xs : list bytes) : bytes :=
  match xs with [] => [] | [x] => x | x :: xs' => x ++ slash :: join_parts xs' end.

Definition of_parts (rooted : bool) (xs : list bytes) : bytes :=
  if rooted then slash :: join_parts xs else match xs with [] => dot | _ => join_parts xs end.

Definition Clean (p : bytes) : bytes := of_parts (is_rooted p) (clean_parts p).

(** [filepath.Join] of two elements; empty ones are ignored. *)
Definition Join2 (a b : bytes) : bytes :=
  match a, b with
  | [], [] => []
  | [], _ => Clean b
  | _, [] => Clean a
  | _, _ => Clean (a ++ slash :: b)
  end.

Definition Dir (p : bytes) : bytes :=
  Clean match cut_last slash p with Some (a, _) => a ++ [slash] | None => [] end.

(** ** Volume IDs *)

Definition is_alnum (c : Z) : bool :=
  ((97 <=? c) && (c <=? 122)) || ((65 <=? c) && (c <=? 90)) || is_digit c.
Definition is_id_char (c : Z) : bool := is_alnum c || (c =? 46) || (c =? 95) || (c =? 45).

(** The pattern ^[a-zA-Z0-9][a-zA-Z0-9._-]{0,252}$. *)
Definition volumeIDPattern (id : bytes) : bool :=
  match id with [] => false | c :: id' => is_alnum c && forallb is_id_char id' && bool_decide (length id' <= 252)%nat end.

Definition volumeDir (root volumeID : bytes) : option bytes :=
  match volumeID with
  | [] => None
  | _ => if negb (volumeIDPattern volumeID) || bool_decide (volumeID = dotdot) then None else Some (Join2 root volumeID)
  end.

(** ** Calls *)

Inductive stat_reply := StInode (ino : Z) | StMissing | StFailed.
Inductive unmount_reply := UmOk | UmInval | UmNoEnt | UmFailed.

(** What [Statfs] tells: the block size (signed), blocks and inodes. *)
Record statfs := mkStatfs { Bsize : Z; Blocks : Z; Bfree : Z; Bavail : Z; Files : Z; Ffree : Z }.

Inductive os_call :=
| OsMkdirAll (p : bytes)                       (* done? *)
| OsStatInode (p : bytes)                      (* os.Stat, its inode *)
| OsStatDev (p : bytes)                        (* syscall.Stat, its device *)
| OsRemoveAll (p : bytes)                      (* done? *)
| OsMount (source target : bytes) (flags : Z)  (* done? *)
| OsUnmount (target : bytes) (flags : Z)
| OsRemove (p : bytes)                         (* gone? *)
| OsStatfs (p : bytes)
| OsExists (p : bytes).                        (* os.Stat succeeds? *)

Definition os_reply (c : os_call) : Type :=
  match c with
  | OsStatInode _ => stat_reply
  | OsStatDev _ => option Z
  | OsUnmount _ _ => unmount_reply
  | OsStatfs _ => option statfs
  | _ => bool
  end.

Inductive cprog (A : Type) :=
| CRet (a : A)
| COs (c : os_call) (k : os_reply c → cprog A)
| CEtcd (q : req) (k : resp q → cprog A).
Arguments CRet {A} a.
Arguments COs {A} c k.
Arguments CEtcd {A} q k.

#[global] Instance cprog_ret : MRet cprog := @CRet.
#[global] Instance cprog_bind : MBind cprog := λ A B f,
  fix go p := match p with CRet a => f a | COs c k => COs c (λ a, go (k a)) | CEtcd q k => CEtcd q (λ a, go (k a)) end.

Definition os (c : os_call) : cprog (os_reply c) := COs c CRet.

(** An operation of the metadata store. *)
Fixpoint on_store {A} (p : prog A) : cprog A :=
  match p with Ret a => CRet a | Call q k => CEtcd q (λ r, on_store (k r)) end.

Inductive code := InvalidArgument | Internal | FailedPrecondition | NotFound.

(** ** Capabilities *)

Inductive access := AccessBlock | AccessMount | AccessNone.

Definition validateCapability (c : option access) : option code :=
  match c with
  | None | Some AccessBlock | Some AccessNone => Some InvalidArgument
  | Some AccessMount => None
  end.

Fixpoint validate_each (cs : list (option access)) : option code :=
  match cs with
  | [] => None
  | c :: cs' => match validateCapability c with Some e => Some e | None => validate_each cs' end
  end.

Definition validateCapabilities (cs : list (option access)) : option code :=
  match cs with [] => Some InvalidArgument | _ => validate_each cs end.

(** ** The controller *)

Section driver.
Context (mountPath : bytes) (s : Store).

Definition isMountPoint (p : bytes) : cprog (option bool) :=
  st ← os (OsStatDev p);
  match st with
  | None => mret None
  | Some dev =>
    parent ← os (OsStatDev (Dir p));
    mret match parent with None => None | Some pdev => Some (negb (dev =? pdev)) end
  end.

Definition setQuota_csi (dir : bytes) (n : Z) : cprog (option code) :=
  st ← os (OsStatInode dir);
  match st with
  | StInode ino =>
    r ← on_store (SetQuota s ino (mkLimits n 0));
    mret match r with Ok _ => None | Err _ => Some Internal end
  | _ => mret (Some Internal)
  end.

(** [CreateVolume]; [capacity] is the required size. *)
Definition CreateVolume (name : bytes) (caps : list (option access)) (capacity : Z) : cprog (bytes * Z + code) :=
  match name with
  | [] => mret (inr InvalidArgument)
  | _ =>
    match validateCapabilities caps with
    | Some e => mret (inr e)
    | None =>
      match volumeDir mountPath name with
      | None => mret (inr InvalidArgument)
      | Some dir =>
        ok ← os (OsMkdirAll dir);
        if negb ok then mret (inr Internal)
        else if 0 <? capacity then
          e ← setQuota_csi dir (wrap64 capacity);
          mret match e with Some e => inr e | None => inl (name, capacity) end
        else mret (inl (name, capacity))
      end
    end
  end.

Definition remove_dir (dir : bytes) : cprog (unit + code) :=
  ok ← os (OsRemoveAll dir); mret (if (ok : bool) then inl tt else inr Internal).

Definition DeleteVolume (volumeID : bytes) : cprog (unit + code) :=
  match volumeDir mountPath volumeID with
  | None => mret (inr InvalidArgument)
  | Some dir =>
    st ← os (OsStatInode dir);
    match st with
    | StInode ino =>
      r ← on_store (ClearQuota s ino);
      match r with Err _ => mret (inr Internal) | Ok _ => remove_dir dir end
    | StMissing => remove_dir dir
    | StFailed => mret (inr Internal)
    end
  end.

Definition isLiveMember (node : bytes) : cprog (option bool) :=
  v ← on_store (Get s (MembershipKey node));
  mret match v with Err _ => None | Ok (Some _) => Some true | Ok None => Some false end.

Definition ControllerPublishVolume (volumeID node : bytes) (cap : option access) : cprog (unit + code) :=
  match validateCapability cap with
  | Some e => mret (inr e)
  | None =>
    match volumeDir mountPath volumeID with
    | None => mret (inr InvalidArgument)
    | Some _ =>
      alive ← isLiveMember node;
      mret match alive with None => inr Internal | Some false => inr FailedPrecondition | Some true => inl tt end
    end
  end.

Definition ControllerUnpublishVolume (node : bytes) : cprog (unit + code) :=
  match node with
  | [] => mret (inl tt)
  | _ =>
    alive ← isLiveMember node;
    match alive with
    | None => mret (inr Internal)
    | Some true => mret (inl tt)
    | Some false =>
      r ← on_store (RecordFenceIntent node []);
      mret match r with Ok _ => inl tt | Err _ => inr Internal end
    end
  end.

(** Whether the capabilities are confirmed. *)
Definition ValidateVolumeCapabilities (volumeID : bytes) (caps : list (option access)) : cprog (bool + code) :=
  match volumeDir mountPath volumeID with
  | None => mret (inr InvalidArgument)
  | Some dir =>
    ok ← os (OsExists dir);
    mret (if negb ok then inr NotFound
          else match validateCapabilities caps with Some _ => inl false | None => inl true end)
  end.

(** ** The node *)

Definition MS_BIND : Z := 4096.
Definition MS_REMOUNT_RO : Z := Z.lor 4096 (Z.lor 32 1).
Definition MNT_DETACH : Z := 2.

Definition bind_mount (source target : bytes) (readonly : bool) : cprog (unit + code) :=
  ok ← os (OsMount source target MS_BIND);
  if negb ok then mret (inr Internal)
  else if readonly then
    ro ← os (OsMount [] target MS_REMOUNT_RO);
    if negb ro then _ ← os (OsUnmount target MNT_DETACH); mret (inr Internal)
    else mret (inl tt)
  else mret (inl tt).

Definition NodePublishVolume (volumeID target : bytes) (cap : option access) (readonly : bool) : cprog (unit + code) :=
  match target with
  | [] => mret (inr InvalidArgument)
  | _ =>
    match validateCapability cap with
    | Some e => mret (inr e)
    | None =>
      match volumeDir mountPath volumeID with
      | None => mret (inr InvalidArgument)
      | Some source =>
        mounted ← isMountPoint mountPath;
        match mounted with
        | None | Some false => mret (inr FailedPrecondition)
        | Some true =>
          ok1 ← os (OsMkdirAll source);
          if negb ok1 then mret (inr Internal)
          else
            ok2 ← os (OsMkdirAll target);
            if negb ok2 then mret (inr Internal)
            else
              already ← isMountPoint target;
              match already with
              | Some true => mret (inl tt)
              | _ => bind_mount source target readonly
              end
        end
      end
    end
  end.

Definition NodeUnpublishVolume (target : bytes) : cprog (unit + code) :=
  match target with
  | [] => mret (inr InvalidArgument)
  | _ =>
    u ← os (OsUnmount target 0);
    match u with
    | UmFailed => mret (inr Internal)
    | _ => gone ← os (OsRemove target); mret (if (gone : bool) then inl tt else inr Internal)
    end
  end.

(** Total, available and used, in bytes and in inodes, as signed integers. *)
Definition NodeGetVolumeStats (volumePath : bytes) : cprog ((Z * Z * Z) * (Z * Z * Z) + code) :=
  match volumePath with
  | [] => mret (inr InvalidArgument)
  | _ =>
    st ← os (OsStatfs volumePath);
    mret match st with
         | None => inr NotFound
         | Some st =>
           let bytes_of n := to_i64 (wrap64 (to_i64 n * Bsize st)) in
           inl ((bytes_of (Blocks st), bytes_of (Bavail st), bytes_of (sub64 (Blocks st) (Bfree st))),
                (to_i64 (Files st), to_i64 (Ffree st), to_i64 (sub64 (Files st) (Ffree st))))
         end
  end.
End driver.

(** ** The process *)

Definition ModeController : bytes := lit "controller".
Definition ModeNode : bytes := lit "node".
Definition ModeAll : bytes := lit "all".

Record DriverConfig := mkDriverConfig { dc_name : bytes; dc_mode : bytes; dc_node : bytes; dc_mountPath : bytes }.

(** [New]: the configuration in use. *)
Definition newDriver (cfg : DriverConfig) (store : option Store) : option DriverConfig :=
  let name := match dc_name cfg with [] => lit "csi.etcfs.io" | n => n end in
  if bool_decide (dc_node cfg = []) then None
  else if bool_decide (dc_mountPath cfg = []) then None
  else if bool_decide (dc_mode cfg ≠ ModeNode) && (match store with None => true | Some _ => false end) then None
  else Some (mkDriverConfig name (dc_mode cfg) (dc_node cfg) (dc_mountPath cfg)).

(** [register]: whether the controller and the node service are offered. *)
Definition register (cfg : DriverConfig) : bool * bool :=
  let m := dc_mode cfg in
  (bool_decide (m = ModeController) || bool_decide (m = ModeAll), bool_decide (m = ModeNode) || bool_decide (m = ModeAll)).

Definition parseEndpoint (endpoint : bytes) : option (bytes * bytes) :=
  if has_prefix (lit "unix://") endpoint then Some (lit "unix", drop 7 endpoint)
  else if has_prefix (lit "tcp://") endpoint then Some (lit "tcp", drop 6 endpoint)
  else None.

(** ** The process (csi/cmd/etcfs-csi) *)

Definition splitNonEmpty (s : bytes) : list bytes := if bool_decide (TrimSpace s = []) then [] else split_on comma s.

(** What [main] makes of its flags; dialling etcd is assumed to work.  [None]:
    the process exits with status 1. *)
Definition csi_main (hostname mode nodeID mountPath driverName etcdEndpoints : bytes) : option DriverConfig :=
  let node := match nodeID with [] => hostname | n => n end in
  let cfg := mkDriverConfig driverName mode node mountPath in
  if bool_decide (mode ≠ ModeNode) then
    match splitNonEmpty etcdEndpoints with
    | [] => None
    | _ => newDriver cfg (Some (mkStore node false None))
    end
  else newDriver cfg None.
