(* ===== verification/CsiProps.v ===== *)
(** * What the CSI driver guarantees

    A volume ID becomes a directory directly below the mount path, and different
    IDs different directories.  Whatever the operating system and etcd answer: a
    volume's directory is removed only after its quota record is gone; a fence is
    recorded only for a node whose membership was just read and not found; a
    volume is mounted only where the file system was seen to be mounted.  A node
    that left on purpose also has no membership, and is fenced. *)

From S2P Require Import Prelude Etcd EtcdFacts Schema Store StoreLogic StoreProps FenceRecords Extents Allocator ArenaPool ArenaProps InodeTimes Dirents NamespaceProps Membership Controller MembershipProps Scrub Quota Csi.

(** ** Paths *)

Lemma split_path_nonempty p : split_path p ≠ [].
Proof. destruct p as [|c p]; [done|]. cbn. case_if; [done|]. by destruct (split_path p). Qed.

Lemma split_path_app a b : split_path (a ++ slash :: b) = split_path a ++ split_path b.
Proof.
  induction a as [|c a IH]; [done|]. cbn [app split_path]. rewrite IH. case_if; [done|].
  pose proof (split_path_nonempty a). by destruct (split_path a).
Qed.

Lemma split_path_single x : slash ∉ x → split_path x = [x].
Proof.
  induction x as [|c x IH]; intros Hx; [done|]. apply not_elem_of_cons in Hx as [Hc Hx]. cbn.
  rewrite IH by done. destruct (Z.eqb_spec c slash); [by subst|done].
Qed.

(** A plain component is appended to what the path before it cleans to. *)
Lemma clean_parts_snoc a x : a ≠ [] → slash ∉ x → x ≠ [] → x ≠ dot → x ≠ dotdot →
  clean_parts (a ++ slash :: x) = clean_parts a ++ [x] ∧ is_rooted (a ++ slash :: x) = is_rooted a.
Proof.
  intros Ha Hs H1 H2 H3. assert (is_rooted (a ++ slash :: x) = is_rooted a) as Hr by (destruct a; [by destruct Ha|done]).
  split; [|done]. unfold clean_parts. rewrite Hr, split_path_app, (split_path_single x), foldl_app by done.
  cbn [foldl]. unfold clean_part at 1. by rewrite !bool_decide_eq_false_2.
Qed.

Lemma is_id_char_not_slash id : forallb is_id_char id = true → slash ∉ id.
Proof.
  intros H Hin. rewrite forallb_forall in H. apply list_elem_of_In in Hin. specialize (H _ Hin). discriminate H.
Qed.

Lemma volumeIDPattern_plain id : volumeIDPattern id = true → slash ∉ id ∧ id ≠ [] ∧ id ≠ dot ∧ id ≠ dotdot ∧ (length id <= 253)%nat.
Proof.
  destruct id as [|c id]; [done|]. cbn. intros H. apply andb_true_iff in H as [H Hl]. apply andb_true_iff in H as [Hc H].
  apply bool_decide_eq_true in Hl. repeat split; try lia; try done.
  - apply not_elem_of_cons. split; [|by apply is_id_char_not_slash]. intros <-. discriminate Hc.
  - intros [= ->]. discriminate Hc.
  - intros [= -> _]. discriminate Hc.
Qed.

Lemma join_parts_snoc xs x : xs ≠ [] → join_parts (xs ++ [x]) = join_parts xs ++ slash :: x.
Proof.
  induction xs as [|y xs IH]; [done|]. intros _. destruct xs as [|z xs]; [done|].
  change (join_parts ((y :: z :: xs) ++ [x])) with (y ++ slash :: join_parts ((z :: xs) ++ [x])). rewrite IH by done.
  cbn [join_parts]. by rewrite <- app_assoc.
Qed.

Lemma of_parts_inj r xs x y : slash ∉ x → slash ∉ y → of_parts r (xs ++ [x]) = of_parts r (xs ++ [y]) → x = y.
Proof.
  intros Hx Hy. assert (join_parts (xs ++ [x]) = join_parts (xs ++ [y]) → x = y) as Hj.
  { destruct xs as [|z xs]; [done|]. rewrite !join_parts_snoc by done. intros [_ H]%app_inj_1; [by injection H|done]. }
  unfold of_parts. destruct r; [intros [= H]; auto|]. destruct xs; intros H; by apply Hj.
Qed.

(** Volume directories.  A volume ID is accepted only if it is one plain path
    component of at most 253 characters; its directory is then the one of that
    name directly below the cleaned mount path, and no two IDs share one. *)
Theorem volume_dir_confined (root id dir : bytes) (Hroot : root ≠ []) (Hdir : volumeDir root id = Some dir) :
  dir = of_parts (is_rooted root) (clean_parts root ++ [id]) ∧
  slash ∉ id ∧ id ≠ [] ∧ id ≠ dot ∧ id ≠ dotdot ∧ (length id <= 253)%nat ∧
  ∀ id', volumeDir root id' = Some dir → id' = id.
Proof.
  assert (∀ i d, volumeDir root i = Some d → d = of_parts (is_rooted root) (clean_parts root ++ [i]) ∧
    slash ∉ i ∧ i ≠ [] ∧ i ≠ dot ∧ i ≠ dotdot ∧ (length i <= 253)%nat) as Hv.
  { intros i d. unfold volumeDir. destruct i as [|c i]; [done|]. destruct (volumeIDPattern (c :: i)) eqn:Ep; [|done]. cbn [negb orb].
    case_bool_decide; [done|]. intros [= <-]. pose proof (volumeIDPattern_plain _ Ep) as (H1 & H2 & H3 & H4 & H5).
    split; [|done]. destruct (clean_parts_snoc root (c :: i)) as [E1 E2]; [done..|].
    destruct root as [|r root]; [done|]. unfold Join2, Clean. by rewrite E1, E2. }
  destruct (Hv id dir Hdir) as (Ed & Hs & Hrest). split; [done|]. split; [done|].
  destruct Hrest as (H1 & H2 & H3 & H4). repeat (split; [done|]). intros id' Hid'.
  destruct (Hv id' dir Hid') as (Ed' & Hs' & _). rewrite Ed in Ed'. symmetry in Ed'. by eapply of_parts_inj.
Qed.

Lemma volume_dir_confined_witness :
  volumeDir (lit "/mnt//etcfs/") (lit "pvc-1") = Some (lit "/mnt/etcfs/pvc-1") ∧
  ∀ id', volumeDir (lit "/mnt//etcfs/") id' = Some (lit "/mnt/etcfs/pvc-1") → id' = lit "pvc-1".
Proof.
  split; [vm_compute; reflexivity|].
  apply (volume_dir_confined (lit "/mnt//etcfs/") (lit "pvc-1")); [discriminate|vm_compute; reflexivity].
Defined.

(** ** Runs under any answers *)

Inductive cevent := EvOs (c : os_call) (r : os_reply c) | EvEtcd (q : req) (r : resp q).

(** Every run, whatever the answers, ends with a log and a result in [Q]. *)
Fixpoint ctraces {A} (p : cprog A) (log : list cevent) (Q : list cevent → A → Prop) : Prop :=
  match p with
  | CRet a => Q log a
  | COs c k => ∀ r, ctraces (k r) (log ++ [EvOs c r]) Q
  | CEtcd q k => ∀ r, ctraces (k r) (log ++ [EvEtcd q r]) Q
  end.

Lemma ctraces_bind {A B} (p : cprog A) (f : A → cprog B) log Q :
  ctraces p log (λ log' a, ctraces (f a) log' Q) → ctraces (p ≫= f) log Q.
Proof.
  revert log. induction p as [a|c k IH|q k IH]; intros log; cbn; [done|..]; intros H r; by apply IH.
Qed.

Lemma ctraces_mono {A} (p : cprog A) log (Q Q' : list cevent → A → Prop) :
  (∀ log' a, Q log' a → Q' log' a) → ctraces p log Q → ctraces p log Q'.
Proof. intros HQ. revert log. induction p; intros log; cbn; [by apply HQ|eauto..]. Qed.

(** A reply that shows no record under the key. *)
Definition found_nothing (k : bytes) (e : cevent) : Prop :=
  ∃ kvs rev, e = EvEtcd (QRange (RKey k) false) (Some (kvs, rev)) ∧
    match kvs with [] => True | x :: _ => kv_val x.2 = [] end.

Definition reads_only_log (evs : list cevent) : Prop :=
  Forall (λ e, match e with EvEtcd q _ => read_only q | EvOs _ _ => False end) evs.

Lemma ctraces_Get s k log (Q : list cevent → result (option bytes) → Prop) :
  (∀ evs v, reads_only_log evs → (v = Ok None → ∃ e, e ∈ evs ∧ found_nothing k e) → Q (log ++ evs) v) →
  ctraces (on_store (Get s k)) log Q.
Proof.
  intros HQ. assert (∀ log' r, (∃ evs, reads_only_log evs ∧ log' = log ++ evs) →
    ctraces (on_store (x ⇐? Ret match r with Some a => Ok a | None => Err EEtcd end;
      Ret (Ok match x.1 with [] => None | (_, e) :: _ => match kv_val e with [] => None | v => Some v end end)))
      (log' ++ [EvEtcd (QRange (RKey k) false) r]) Q) as Hlast.
  { intros log' r (evs & He & ->). rewrite <- app_assoc. destruct r as [[kvs rev]|]; cbn.
    - apply HQ; [by apply Forall_app; split; [|constructor]|]. intros [= Hn]. eexists. split; [apply elem_of_app; right; by left|].
      exists kvs, rev. split; [done|]. destruct kvs as [|[k0 e] kvs]; [done|]. cbn. by destruct (kv_val e).
    - apply HQ; [by apply Forall_app; split; [|constructor]|done]. }
  unfold Get, read. destruct (localClient s); cbn.
  - intros [a|]; cbn.
    + apply (Hlast log (Some a)). exists []. split; [by constructor|by rewrite app_nil_r].
    + intros r. apply (Hlast _ r). eexists. split; [|done]. by constructor.
  - intros r. apply (Hlast log r). exists []. split; [by constructor|by rewrite app_nil_r].
Qed.

(** Go through the members of a log. *)
Ltac log_cases H := repeat (apply elem_of_cons in H as [-> | H]); [..|by apply elem_of_nil in H].

Section discipline.
Context (mountPath : bytes) (s : Store) (Hguard : guard s = None).

Definition os_of (e : cevent) : option os_call := match e with EvOs c _ => Some c | EvEtcd _ _ => None end.
Definition removes (p : bytes) (e : cevent) : Prop := os_of e = Some (OsRemoveAll p).

(** The quota of the directory's inode is gone, or the directory is. *)
Definition unquotaed (dir : bytes) (log : list cevent) : Prop :=
  EvOs (OsStatInode dir) StMissing ∈ log ∨
  ∃ ino n, EvOs (OsStatInode dir) (StInode ino) ∈ log ∧ EvEtcd (QDelete (QuotaKey ino) false) (Some n) ∈ log.

(** The mount path is on another device than its parent. *)
Definition seen_mounted (log : list cevent) : Prop :=
  ∃ d d', d ≠ d' ∧ EvOs (OsStatDev mountPath) (Some d) ∈ log ∧ EvOs (OsStatDev (Dir mountPath)) (Some d') ∈ log.

(** A log without mounts, and with the mount path seen. *)
Definition no_mount (log : list cevent) : Prop := Forall (λ e, ∀ src tgt flags, os_of e ≠ Some (OsMount src tgt flags)) log.

Definition mounts_ok (volumeID target : bytes) (log : list cevent) : Prop :=
  ∀ e, e ∈ log → ∀ src tgt flags, os_of e = Some (OsMount src tgt flags) →
    tgt = target ∧ (volumeDir mountPath volumeID = Some src ∧ flags = MS_BIND ∨ src = [] ∧ flags = MS_REMOUNT_RO) ∧
    seen_mounted log.

Lemma no_mount_ok volumeID target log : no_mount log → mounts_ok volumeID target log.
Proof. unfold no_mount. rewrite Forall_forall. intros H e He src tgt flags E. by destruct (H e He src tgt flags). Qed.

Lemma no_mount_snoc log c r : no_mount log → (∀ src tgt flags, c ≠ OsMount src tgt flags) → no_mount (log ++ [EvOs c r]).
Proof. intros H Hc. apply Forall_app. split; [done|]. constructor; [|constructor]. intros src tgt flags [= E]. by eapply Hc. Qed.

Lemma seen_mounted_app log log' : seen_mounted log → seen_mounted (log ++ log').
Proof. intros (d & d' & Hne & H1 & H2). exists d, d'. split; [done|]. split; apply elem_of_app; by left. Qed.

Lemma bind_spec volumeID source target readonly log :
  volumeDir mountPath volumeID = Some source → no_mount log → seen_mounted log →
  ctraces (bind_mount source target readonly) log (λ log' _, mounts_ok volumeID target log').
Proof.
  intros Hv Hn Hs. unfold no_mount in Hn. rewrite Forall_forall in Hn.
  assert (∀ log1, (∀ e, e ∈ log1 → ∀ src tgt flags, os_of e = Some (OsMount src tgt flags) →
    tgt = target ∧ (volumeDir mountPath volumeID = Some src ∧ flags = MS_BIND ∨ src = [] ∧ flags = MS_REMOUNT_RO)) →
    mounts_ok volumeID target (log ++ log1)) as Hok.
  { intros log1 H1 e [He|He]%elem_of_app src tgt flags E; [by destruct (Hn e He src tgt flags)|].
    destruct (H1 e He src tgt flags E). by split; [|split; [|apply seen_mounted_app]]. }
  unfold bind_mount. cbn. intros ok. destruct ok; cbn.
  2:{ apply Hok. intros e He src tgt flags E. log_cases He. cbn in E. simplify_eq. split; [done|by left]. }
  destruct readonly; cbn.
  2:{ apply Hok. intros e He src tgt flags E. log_cases He. cbn in E. simplify_eq. split; [done|by left]. }
  intros ro. destruct ro; cbn; [|intros u]; rewrite <- ?app_assoc; apply Hok.
  all: intros e He src tgt flags E; log_cases He; cbn in E; simplify_eq; (split; [done|first [by left|by right]]).
Qed.

Lemma publish_spec volumeID target cap readonly :
  ctraces (NodePublishVolume mountPath volumeID target cap readonly) [] (λ log _, mounts_ok volumeID target log).
Proof.
  assert (no_mount []) as H0 by constructor. unfold NodePublishVolume.
  destruct target as [|c target]; [by apply no_mount_ok|]. set (tg := c :: target).
  destruct (validateCapability cap); [by apply no_mount_ok|].
  destruct (volumeDir mountPath volumeID) as [source|] eqn:Ev; [|by apply no_mount_ok].
  apply ctraces_bind. unfold isMountPoint at 1. cbn -[bind_mount]. intros [d|]; cbn -[bind_mount]; [|by apply no_mount_ok; repeat constructor].
  intros [d'|]; cbn -[bind_mount]; [|by apply no_mount_ok; repeat constructor].
  destruct (Z.eqb_spec d d') as [|Hne]; cbn -[bind_mount]; [by apply no_mount_ok; repeat constructor|].
  assert (∀ l, seen_mounted ([EvOs (OsStatDev mountPath) (Some d); EvOs (OsStatDev (Dir mountPath)) (Some d')] ++ l)) as Hseen.
  { intros l. exists d, d'. split; [done|]. split; [left|right; left]. }
  intros [|]; cbn -[bind_mount]; [|by apply no_mount_ok; repeat constructor]. intros [|]; cbn -[bind_mount]; [|by apply no_mount_ok; repeat constructor].
  intros [e|]; cbn -[bind_mount]; [intros [e'|]; cbn -[bind_mount]; [destruct (e =? e'); cbn -[bind_mount]; [|by apply no_mount_ok; repeat constructor]|]|].
  all: apply bind_spec; [done|by repeat constructor|apply Hseen].
Qed.

(** C30. The driver's calls.  Whatever the operating system and etcd answer:
    deleting a volume removes no directory but its own, and that only after the
    directory was found missing or the quota record of its inode was deleted;
    taking a volume back from a node writes nothing but that node's fence
    intent, and that only after its membership was read and not found;
    publishing mounts nothing but the volume's own directory at the target (and
    remounts it read-only), and only after the mount path was seen to be on
    another device than its parent. *)
Theorem csi_calls_confined (volumeID node target : bytes) (cap : option access) (readonly : bool) :
  ctraces (DeleteVolume mountPath s volumeID) [] (λ log _,
    ∀ p e, e ∈ log → removes p e → volumeDir mountPath volumeID = Some p ∧ unquotaed p log) ∧
  ctraces (ControllerUnpublishVolume s node) [] (λ log _,
    ∀ e, e ∈ log → match e with
      | EvOs _ _ => False
      | EvEtcd q _ => read_only q ∨
          (q = QPut (FencePendingKey node) [] 0 ∧ ∃ e', e' ∈ log ∧ found_nothing (MembershipKey node) e')
      end) ∧
  ctraces (NodePublishVolume mountPath volumeID target cap readonly) [] (λ log _,
    ∀ e, e ∈ log → ∀ src tgt flags, os_of e = Some (OsMount src tgt flags) →
      tgt = target ∧ (volumeDir mountPath volumeID = Some src ∧ flags = MS_BIND ∨ src = [] ∧ flags = MS_REMOUNT_RO) ∧
      seen_mounted log).
Proof using Hguard.
  split; [|split; [|apply publish_spec]].
  - unfold DeleteVolume. destruct (volumeDir mountPath volumeID) as [dir|]; [|by intros p e ?%elem_of_nil].
    cbn -[QuotaKey]. intros [ino| |]; cbn -[QuotaKey].
    + unfold ClearQuota, Delete, DeleteCounting, delete_with. rewrite Hguard. cbn -[QuotaKey]. intros [n|]; cbn -[QuotaKey].
      * intros r p e Hin Hr. log_cases Hin; unfold removes in Hr; cbn in Hr; simplify_eq.
        split; [done|]. right. exists ino, n. split; [left|right; left].
      * intros p e Hin Hr. log_cases Hin; discriminate Hr.
    + intros r p e Hin Hr. log_cases Hin; unfold removes in Hr; cbn in Hr; simplify_eq. split; [done|]. left. left.
    + intros p e Hin Hr. log_cases Hin; discriminate Hr.
  - unfold ControllerUnpublishVolume. destruct node as [|c node']; [by intros e ?%elem_of_nil|]. set (n := c :: node').
    apply ctraces_bind, ctraces_bind, ctraces_Get. intros evs v Hev Hnone. cbn [app]. unfold reads_only_log in Hev. rewrite Forall_forall in Hev.
    assert (∀ e, e ∈ evs → match e with EvOs _ _ => False | EvEtcd q _ => read_only q ∨
      (q = QPut (FencePendingKey n) [] 0 ∧ ∃ e', e' ∈ evs ∧ found_nothing (MembershipKey n) e') end) as Hold.
    { intros e He. specialize (Hev e He). destruct e; [done|by left]. }
    destruct v as [[v|]|e0]; cbn; [done| |done].
    destruct (Hnone eq_refl) as (e' & He' & Hf). intros r.
    assert (∀ e, e ∈ evs ++ [EvEtcd (QPut (FencePendingKey n) [] 0) r] → match e with EvOs _ _ => False | EvEtcd q _ => read_only q ∨
      (q = QPut (FencePendingKey n) [] 0 ∧ ∃ e', e' ∈ evs ++ [EvEtcd (QPut (FencePendingKey n) [] 0) r] ∧ found_nothing (MembershipKey n) e') end) as Hnew.
    { intros e [He|He]%elem_of_app.
      - specialize (Hold e He). destruct e; [done|]. destruct Hold as [|[-> _]]; [by left|]. right. split; [done|]. exists e'. split; [apply elem_of_app; by left|done].
      - apply list_elem_of_singleton in He as ->. right. split; [done|]. exists e'. split; [apply elem_of_app; by left|done]. }
    destruct r; exact Hnew.
Qed.
End discipline.

Definition csi_store : Store := mkStore (lit "csi") false None.

Lemma csi_calls_confined_witness :
  guard csi_store = None ∧
  ctraces (DeleteVolume (lit "/mnt/etcfs") csi_store (lit "pvc-1")) [] (λ log _,
    ∀ p e, e ∈ log → removes p e → volumeDir (lit "/mnt/etcfs") (lit "pvc-1") = Some p ∧ unquotaed p log).
Proof.
  split; [reflexivity|].
  apply (csi_calls_confined (lit "/mnt/etcfs") csi_store eq_refl (lit "pvc-1") (lit "a") (lit "/t") (Some AccessMount) false).
Defined.

(** ** A node that left on purpose *)

(** A run against a server, the operating system answering as [o] says. *)
Fixpoint crun `{Etcd} {A} (o : ∀ c, os_reply c) (p : cprog A) (srv : esrv) : esrv * A :=
  match p with
  | CRet a => (srv, a)
  | COs c k => crun o (k (o c)) srv
  | CEtcd q k => crun o (k (eserve q srv).2) (eserve q srv).1
  end.

Definition no_os (c : os_call) : os_reply c :=
  match c with OsStatInode _ => StFailed | OsStatDev _ => None | OsUnmount _ _ => UmFailed | OsStatfs _ => None | _ => false end.

(** The member leaves, returns its arena and announces it, and a sweep would
    leave it alone.  Taking its volume back records an intent all the same, and
    the next sweep fences the node. *)
Lemma unpublish_fences_departed_node :
  let c := mkController (mkStore (lit "peer") false None) (lit "peer") false defaultClaimTTL in
  let srv1 := (@run ref_etcd _ (Leave member demo_store) member_srv).1 in
  let '(srv2, r) := @crun ref_etcd _ no_os (ControllerUnpublishVolume csi_store demo_node) srv1 in
  (@run ref_etcd _ (departedCleanly c demo_node) srv1).2 = true ∧
  (@run ref_etcd _ (reconcile c id) srv1).2 = [] ∧
  r = inl tt ∧ (@run ref_etcd _ (reconcile c id) srv2).2 = [(demo_node, FFenced 1)].
Proof. vm_compute. repeat split. Qed.

(** A volume published read-only at a target that is mounted already is
    reported published, and nothing was mounted or remounted. *)
Definition mounted_os (c : os_call) : os_reply c :=
  match c with
  | OsStatInode _ => StFailed
  | OsStatDev p => Some (if bool_decide (p = lit "/mnt/etcfs") || bool_decide (p = lit "/pods/v") then 2 else 1)
  | OsUnmount _ _ => UmFailed
  | OsStatfs _ => None
  | OsMkdirAll _ => true
  | _ => false
  end.

Lemma readonly_publish_ignored :
  (@crun ref_etcd _ mounted_os (NodePublishVolume (lit "/mnt/etcfs") (lit "pvc-1") (lit "/pods/v") (Some AccessMount) true)
     (RefSrv empty_store 0)).2 = inl tt ∧ ∀ s t f, mounted_os (OsMount s t f) = false.
Proof. split; [vm_compute|]; reflexivity. Qed.

(** ** What a process offers *)

(** A controller is offered only with a store, and a node service always has a
    mount path; a mode of another name offers neither. *)
Lemma services_offered cfg store cfg' : newDriver cfg store = Some cfg' →
  ((register cfg').1 = true → is_Some store) ∧ dc_mountPath cfg' ≠ [] ∧
  (register cfg' = (false, false) ↔ dc_mode cfg ≠ ModeController ∧ dc_mode cfg ≠ ModeNode ∧ dc_mode cfg ≠ ModeAll).
Proof.
  unfold newDriver, register. intros H. case_bool_decide; [done|]. case_bool_decide as Hm; [done|].
  destruct (bool_decide _ && _) eqn:Es; [done|]. injection H as <-. cbn [dc_mode dc_mountPath fst].
  rewrite pair_eq, !orb_false_iff, !bool_decide_eq_false. split_and!; [|done|naive_solver].
  destruct store; [by eauto|]. rewrite andb_true_r in Es. apply bool_decide_eq_false, dec_stable in Es. by rewrite Es.
Qed.

(** Used and free add up to the total, while the products are in range. *)
Lemma volume_stats_add_up `{Etcd} (o : ∀ c, os_reply c) path st srv b i : path ≠ [] → o (OsStatfs path) = Some st →
  0 <= Bsize st → 0 <= Bfree st <= Blocks st → Blocks st * Bsize st < 2 ^ 63 → Blocks st < 2 ^ 63 →
  (crun o (NodeGetVolumeStats path) srv).2 = inl (b, i) → b.1.1 = b.2 + Bfree st * Bsize st.
Proof.
  intros Hp Ho Hb Hf Ht Hn Hr. destruct path as [|c p]; [done|]. cbn in Hr. rewrite Ho in Hr. injection Hr as <- _. cbn [fst snd].
  assert (∀ n, 0 <= n <= Blocks st → to_i64 (wrap64 (to_i64 n * Bsize st)) = n * Bsize st) as Hx.
  { intros n Hn'. unfold to_i64 at 2. rewrite (proj2 (Z.ltb_lt n (2 ^ 63))) by lia. apply to_i64_wrap64. unfold is_i64. nia. }
  unfold sub64. rewrite (wrap64_small (Blocks st - Bfree st)) by (unfold is_u64; lia). rewrite !Hx by lia. lia.
Qed.
