(* ===== verification/History.v ===== *)
(** * Operation histories

    Models internal/history (what a daemon records of each operation and of the
    events that never cross its socket, internal/ipc/histevents.go and retry.go)
    and the decoders of test/verify, which read those bytes on their own.  A
    history file is the list of its entries; the JSON around them is not
    modelled, base64 is.  What is recorded is read back: base64 round-trips, and
    the events of a file are decoded, stream by stream, as they were recorded. *)

From S2P Require Import Prelude Etcd Schema Wire WireProps Locks.

(** ** base64.StdEncoding *)

Definition b64_char (n : Z) : Z :=
  if n <? 26 then 65 + n else if n <? 52 then 71 + n else if n <? 62 then n - 4 else if n =? 62 then 43 else 47.

Definition b64_val (c : Z) : option Z :=
  if (65 <=? c) && (c <=? 90) then Some (c - 65)
  else if (97 <=? c) && (c <=? 122) then Some (c - 71)
  else if (48 <=? c) && (c <=? 57) then Some (c + 4)
  else if c =? 43 then Some 62 else if c =? 47 then Some 63 else None.

Definition b64_pad : Z := 61.

Fixpoint EncodeToString (b : bytes) : bytes :=
  match b with
  | [] => []
  | [x] => [b64_char (x / 4); b64_char (x mod 4 * 16); b64_pad; b64_pad]
  | [x; y] => [b64_char (x / 4); b64_char (x mod 4 * 16 + y / 16); b64_char (y mod 16 * 4); b64_pad]
  | x :: y :: z :: b' =>
    b64_char (x / 4) :: b64_char (x mod 4 * 16 + y / 16) :: b64_char (y mod 16 * 4 + z / 64) :: b64_char (z mod 64)
      :: EncodeToString b'
  end.

(** Groups of four characters; only the last may be padded, and the bits a
    padded group does not use are not looked at. *)
Fixpoint b64_groups (s : bytes) : option bytes :=
  match s with
  | [] => Some []
  | a :: b :: c :: d :: s' =>
    va ← b64_val a; vb ← b64_val b;
    if c =? b64_pad then
      if (d =? b64_pad) && bool_decide (s' = []) then Some [va * 4 + vb / 16] else None
    else
      vc ← b64_val c;
      if d =? b64_pad then
        if bool_decide (s' = []) then Some [va * 4 + vb / 16; vb mod 16 * 16 + vc / 4] else None
      else
        vd ← b64_val d; rest ← b64_groups s';
        Some (va * 4 + vb / 16 :: vb mod 16 * 16 + vc / 4 :: vc mod 4 * 64 + vd :: rest)
  | _ => None
  end.

(** Line ends are skipped wherever they are. *)
Definition DecodeString (s : bytes) : option bytes := b64_groups (filter (λ c, c ≠ 10 ∧ c ≠ 13) s).

(** ** Entries *)

Definition OpStart : Z := 1005.

Record Entry := mkEntry {
  e_Node : bytes; e_Op : bytes; Opcode : Z; CallNs : Z; ReturnNs : Z; Request : bytes; Response : bytes
}.

(** [Record]: the line appended for one operation. *)
Definition record_entry (node op : bytes) (opcode call ret : Z) (req resp : bytes) : Entry :=
  mkEntry node op opcode call ret (EncodeToString req) (EncodeToString resp).

(** A recorder that was never opened records nothing. *)
Definition Record_ (r : option bytes) (op : bytes) (opcode call ret : Z) (req resp : bytes) (file : list Entry) : list Entry :=
  match r with
  | None => file
  | Some node => file ++ [record_entry node op opcode call ret req resp]
  end.

(** [NewRecorder] on a file that can be opened: the incarnation's marker first. *)
Definition NewRecorder (node : bytes) (now : Z) (file : list Entry) : option bytes * list Entry :=
  (Some node, Record_ (Some node) (lit "start") OpStart now now [] [] file).

Definition Payloads (e : Entry) : option (bytes * bytes) :=
  req ← DecodeString (Request e); resp ← DecodeString (Response e); Some (req, resp).

(** ** What a daemon records besides its requests *)

Definition historyOpLockHold : Z := 1000.
Definition historyOpGuardedCommit : Z := 1001.
Definition historyOpLockKey : Z := 1002.
Definition historyOpPageInval : Z := 1003.
Definition historyOpBlock : Z := 1004.

Definition lockEventAcquire : Z := 0.
Definition lockEventRelease : Z := 1.
Definition blockEventReserve : Z := 0.
Definition blockEventFree : Z := 1.

Definition lockModeByte (mode : bytes) : Z := if bool_decide (mode = LockExclusive) then 1 else 0.

Definition recordLockEvent (r : option bytes) (ino : Z) (mode : bytes) (event call ret : Z) : list Entry → list Entry :=
  Record_ r (lit "lock_hold") historyOpLockHold call ret (event :: lockModeByte mode :: w64 ino) [].

Definition recordKeyEvent (r : option bytes) (ino : Z) (mode : bytes) (event call ret actualCall : Z)
  : list Entry → list Entry :=
  Record_ r (lit "lock_key") historyOpLockKey call ret (event :: lockModeByte mode :: w64 ino ++ w64 actualCall) [].

Definition recordPageInval (r : option bytes) (ino outcome call ret : Z) : list Entry → list Entry :=
  Record_ r (lit "page_inval") historyOpPageInval call ret (w64 ino) [outcome].

Definition recordBlockEvent (r : option bytes) (event diskOff length now : Z) (file : list Entry) : list Entry :=
  if length =? 0 then file
  else Record_ r (lit "block") historyOpBlock now now (event :: w64 diskOff ++ w64 length) [] file.

Definition recordGuardedCommit (r : option bytes) (gen : Z) (committed fenced : bool) (call ret : Z)
  : list Entry → list Entry :=
  let flag := Z.lor (if committed then 1 else 0) (if fenced then 2 else 0) in
  Record_ r (lit "guarded_commit") historyOpGuardedCommit call ret (w64 gen ++ [flag]) [].

(** ** The decoders' reader

    Big-endian fields; once a read has run past the end, [v_ok] stays false. *)

Record vreader := mkVReader { v_b : bytes; v_ok : bool }.

Definition v_fixed (n : nat) (r : vreader) : Z * vreader :=
  if negb (v_ok r) || bool_decide (length (v_b r) < n)%nat then (0, mkVReader (v_b r) false)
  else (be_decode (take n (v_b r)), mkVReader (drop n (v_b r)) true).
Definition v_u64 : vreader → Z * vreader := v_fixed 8.
Definition v_u32 : vreader → Z * vreader := v_fixed 4.
Definition v_skip (n : nat) (r : vreader) : vreader :=
  if negb (v_ok r) || bool_decide (length (v_b r) < n)%nat then mkVReader (v_b r) false
  else mkVReader (drop n (v_b r)) true.
Definition v_str (r : vreader) : bytes * vreader :=
  let '(n, r) := v_u32 r in
  if negb (v_ok r) || (Z.of_nat (length (v_b r)) <? n) then ([], mkVReader (v_b r) false)
  else (take (Z.to_nat n) (v_b r), mkVReader (drop (Z.to_nat n) (v_b r)) true).

Definition new_vreader (b : bytes) : vreader := mkVReader b true.

(** [int32] of the leading word. *)
Definition int32_of (v : Z) : Z := if v <? 2 ^ 31 then v else v - 2 ^ 32.

Definition errnoOf (resp : bytes) : option Z :=
  if bool_decide (length resp < 4)%nat then None
  else let code := int32_of (be_decode (take 4 resp)) in Some (if code <? 0 then - code else 0).

(** The entries of one opcode, each decoded; one that cannot be decoded fails
    the whole history. *)
Definition decode_stream {A} (opcode : Z) (f : Entry → option A) (entries : list Entry) : option (list A) :=
  mapM f (filter (λ e, Opcode e = opcode) entries).

(** *** Locks *)

Inductive lockOpKind := lockAcquireExclusive | lockReleaseExclusive | lockAcquireShared | lockReleaseShared.

Record LockOp := mkLockOp {
  l_Node : bytes; l_Ino : Z; l_Kind : lockOpKind; l_Call : Z; l_Ret : Z; ActualCall : Z
}.

Definition lock_kind (event mode : Z) : option lockOpKind :=
  if (event =? lockEventAcquire) && (mode =? 1) then Some lockAcquireExclusive
  else if (event =? lockEventRelease) && (mode =? 1) then Some lockReleaseExclusive
  else if (event =? lockEventAcquire) && (mode =? 0) then Some lockAcquireShared
  else if (event =? lockEventRelease) && (mode =? 0) then Some lockReleaseShared
  else None.

Definition decode_lock (e : Entry) : option LockOp :=
  p ← Payloads e;
  match p.1 with
  | event :: mode :: rest =>
    let '(ino, r) := v_u64 (new_vreader rest) in
    if negb (v_ok r) then None
    else
      kind ← lock_kind event mode;
      let actual :=
        if bool_decide (18 <= length p.1)%nat then
          let '(v, ar) := v_u64 (new_vreader (drop 10 p.1)) in if v_ok ar then to_i64 v else CallNs e
        else CallNs e in
      Some (mkLockOp (e_Node e) ino kind (CallNs e) (ReturnNs e) actual)
  | _ => None
  end.

Definition decodeLockStream (entries : list Entry) (opcode : Z) : option (list LockOp) :=
  decode_stream opcode decode_lock entries.
Definition DecodeLocks (entries : list Entry) : option (list LockOp) := decodeLockStream entries historyOpLockHold.
Definition DecodeLockKeys (entries : list Entry) : option (list LockOp) := decodeLockStream entries historyOpLockKey.

(** *** Incarnations *)

Record StartOp := mkStartOp { s_Node : bytes; s_At : Z }.

Definition DecodeStarts (entries : list Entry) : list StartOp :=
  map (λ e, mkStartOp (e_Node e) (CallNs e)) (filter (λ e, Opcode e = OpStart) entries).

(** *** Page invalidations, blocks, guarded commits *)

Record PageInvalOp := mkPageInvalOp { p_Node : bytes; p_Ino : Z; p_Outcome : Z; p_Call : Z; p_Ret : Z }.

Definition decode_page_inval (e : Entry) : option PageInvalOp :=
  p ← Payloads e;
  let '(ino, r) := v_u64 (new_vreader p.1) in
  match v_ok r, p.2 with
  | true, outcome :: _ => Some (mkPageInvalOp (e_Node e) ino outcome (CallNs e) (ReturnNs e))
  | _, _ => None
  end.

Definition DecodePageInvals : list Entry → option (list PageInvalOp) := decode_stream historyOpPageInval decode_page_inval.

Record BlockOp := mkBlockOp {
  b_Node : bytes; b_Reserve : bool; b_Crash : bool; b_DiskOff : Z; b_Length : Z; b_Call : Z; b_Ret : Z
}.

Definition decode_block (e : Entry) : option BlockOp :=
  p ← Payloads e;
  match p.1 with
  | event :: rest =>
    if negb ((event =? blockEventReserve) || (event =? blockEventFree)) then None
    else
      let '(off, r) := v_u64 (new_vreader rest) in
      let '(len, r) := v_u64 r in
      if negb (v_ok r) then None
      else Some (mkBlockOp (e_Node e) (event =? blockEventReserve) false off len (CallNs e) (ReturnNs e))
  | [] => None
  end.

Definition DecodeBlocks : list Entry → option (list BlockOp) := decode_stream historyOpBlock decode_block.

Record GuardOp := mkGuardOp { g_Node : bytes; g_Gen : Z; Committed : bool; g_Fenced : bool; g_Call : Z; g_Ret : Z }.

Definition decode_guard (e : Entry) : option GuardOp :=
  p ← Payloads e;
  let '(gen, r) := v_u64 (new_vreader p.1) in
  match v_ok r, v_b r with
  | true, flag :: _ =>
    Some (mkGuardOp (e_Node e) gen (negb (Z.land flag 1 =? 0)) (negb (Z.land flag 2 =? 0)) (CallNs e) (ReturnNs e))
  | _, _ => None
  end.

Definition DecodeGuardedCommits : list Entry → option (list GuardOp) := decode_stream historyOpGuardedCommit decode_guard.

(** *** Namespace operations *)

Inductive Kind :=
| KindLookup | KindCreate | KindMkdir | KindMknod | KindSymlnk | KindUnlink | KindRmdir | KindRename | KindLink | KindReaddir.
#[global] Instance Kind_eq_dec : EqDecision Kind.
Proof. solve_decision. Defined.

Record Op := mkOp {
  n_Kind : Kind; n_Node : bytes; n_Parent : Z; n_Name : bytes; n_NewParent : Z; n_NewName : bytes; n_Ino : Z;
  n_Entries : list (bytes * Z); n_Offset : Z; n_Errno : Z; n_Call : Z; n_Ret : Z
}.

Definition namespaceOps (opcode : Z) : option Kind :=
  if opcode =? 1 then Some KindLookup else if opcode =? 5 then Some KindCreate else if opcode =? 6 then Some KindMkdir
  else if opcode =? 7 then Some KindUnlink else if opcode =? 8 then Some KindRmdir else if opcode =? 9 then Some KindRename
  else if opcode =? 10 then Some KindSymlnk else if opcode =? 11 then Some KindLink else if opcode =? 25 then Some KindMknod
  else if opcode =? 3 then Some KindReaddir else if opcode =? 29 then Some KindReaddir else None.

Definition readdirPlusTail : nat := 84 + 4 + 4.
Definition readdirPlusOpcode : Z := 29.
Definition errnoENOENT : Z := 2.
Definition errnoEEXIST : Z := 17.

Fixpoint dir_entries (count : nat) (plus : bool) (r : vreader) : option (list (bytes * Z)) :=
  match count with
  | O => Some []
  | S count' =>
    let '(ino, r) := v_u64 r in
    let '(name, r) := v_str r in
    let '(_, r) := v_u32 r in
    let '(_, r) := v_u64 r in
    let r := if plus then v_skip readdirPlusTail r else r in
    if negb (v_ok r) then None
    else
      rest ← dir_entries count' plus r;
      Some (if bool_decide (name = lit ".") || bool_decide (name = lit "..") then rest else (name, ino) :: rest)
  end.

Definition decodeDirEntries (body : bytes) (plus : bool) : option (list (bytes * Z)) :=
  let '(count, r) := v_u32 (new_vreader body) in
  if negb (v_ok r) then None else dir_entries (Z.to_nat count) plus r.

(** The fields of a request that is not a listing: parent, name, new parent, new
    name and inode. *)
Definition request_fields (kind : Kind) (r : vreader) : Z * bytes * Z * bytes * Z * vreader :=
  match kind with
  | KindRename =>
    let '(parent, r) := v_u64 r in let '(name, r) := v_str r in
    let '(newParent, r) := v_u64 r in let '(newName, r) := v_str r in (parent, name, newParent, newName, 0, r)
  | KindLink =>
    let '(ino, r) := v_u64 r in let '(newParent, r) := v_u64 r in let '(newName, r) := v_str r in
    (newParent, newName, newParent, newName, ino, r)
  | KindReaddir => (0, [], 0, [], 0, r)
  | _ => let '(parent, r) := v_u64 r in let '(name, r) := v_str r in (parent, name, 0, [], 0, r)
  end.

Definition answers_inode (kind : Kind) : bool :=
  match kind with KindUnlink | KindRmdir | KindRename => false | _ => true end.

Definition decode_listing (e : Entry) (req resp : bytes) (errno : Z) : option Op :=
  let '(parent, r) := v_u64 (new_vreader req) in
  let '(offset, r) := v_u64 r in
  if negb (v_ok r) then None
  else
    entries ← (if errno =? 0 then decodeDirEntries (drop 4 resp) (Opcode e =? readdirPlusOpcode) else Some []);
    Some (mkOp KindReaddir (e_Node e) parent [] 0 [] 0 entries offset errno (CallNs e) (ReturnNs e)).

Definition decode_op (kind : Kind) (e : Entry) : option Op :=
  p ← Payloads e;
  let '(req, resp) := p in
  errno ← errnoOf resp;
  if bool_decide (kind = KindReaddir) then decode_listing e req resp errno
  else
    let '(parent, name, newParent, newName, ino, r) := request_fields kind (new_vreader req) in
    if negb (v_ok r) then None
    else
      let ino :=
        if (errno =? 0) && answers_inode kind then
          let '(i, rr) := v_u64 (new_vreader (drop 4 resp)) in if v_ok rr then i else ino
        else ino in
      (* a negative entry: errno 0 and inode 0 *)
      let errno := if bool_decide (kind = KindLookup) && (errno =? 0) && (ino =? 0) then errnoENOENT else errno in
      Some (mkOp kind (e_Node e) parent name newParent newName ino [] 0 errno (CallNs e) (ReturnNs e)).

Definition DecodeNamespace (entries : list Entry) : option (list Op) :=
  mapM (λ x, decode_op x.1 x.2) (omap (λ e, k ← namespaceOps (Opcode e); Some (k, e)) entries).

(** *** Data operations *)

Inductive ExtentKind := ExtentWrite | ExtentRead | ExtentTruncate | ExtentInvalidate | ExtentFsync.
#[global] Instance ExtentKind_eq_dec : EqDecision ExtentKind.
Proof. solve_decision. Defined.

Record ExtentOp := mkExtentOp {
  x_Node : bytes; x_Ino : Z; x_Kind : ExtentKind; x_Off : Z; x_Len : Z; x_Data : bytes; x_Errno : Z; x_Call : Z; x_Ret : Z
}.

Definition fattrSize : Z := 8.

Definition word (n off : nat) (b : bytes) : Z := be_decode (take n (drop off b)).

(** [errno := int32(0); if len(resp) >= 4 ...]. *)
Definition resp_code (resp : bytes) : Z :=
  if bool_decide (4 <= length resp)%nat then int32_of (word 4 0 resp) else 0.

Definition decodeWrite (e : Entry) : option ExtentOp :=
  p ← Payloads e;
  let '(req, resp) := p in
  if bool_decide (length req < 20)%nat then None
  else
    let dataLen := word 4 16 req in
    if Z.of_nat (length req) <? 20 + dataLen then None
    else
      let data := take (Z.to_nat dataLen) (drop 20 req) in
      let errno := resp_code resp in
      let written := if (errno =? 0) && bool_decide (8 <= length resp)%nat then word 4 4 resp else 0 in
      let data := if written <? Z.of_nat (length data) then take (Z.to_nat written) data else data in
      Some (mkExtentOp (e_Node e) (word 8 0 req) ExtentWrite (word 8 8 req) 0 data errno (CallNs e) (ReturnNs e)).

Definition decodeRead (e : Entry) : option ExtentOp :=
  p ← Payloads e;
  let '(req, resp) := p in
  if bool_decide (length req < 20)%nat then None
  else
    let errno := resp_code resp in
    let n := word 4 4 resp in
    (* int(8+n) is computed in 32 bits *)
    let data := if (errno =? 0) && bool_decide (8 <= length resp)%nat && (wrap32 (8 + n) <=? Z.of_nat (length resp))
                then drop 8 (take (Z.to_nat (wrap32 (8 + n))) resp) else [] in
    Some (mkExtentOp (e_Node e) (word 8 0 req) ExtentRead (word 8 8 req) 0 data errno (CallNs e) (ReturnNs e)).

(** [Some None]: a setattr that does not change the size. *)
Definition decodeTruncate (e : Entry) : option (option ExtentOp) :=
  p ← Payloads e;
  let '(req, resp) := p in
  if bool_decide (length req < 28)%nat then None
  else if Z.land (word 4 16 req) fattrSize =? 0 then Some None
  else Some (Some (mkExtentOp (e_Node e) (word 8 0 req) ExtentTruncate (word 8 20 req) 0 [] (resp_code resp) (CallNs e) (ReturnNs e))).

Definition decodeFallocate (e : Entry) : option ExtentOp :=
  p ← Payloads e;
  let '(req, resp) := p in
  if bool_decide (length req < 28)%nat then None
  else Some (mkExtentOp (e_Node e) (word 8 0 req) ExtentInvalidate (word 8 12 req) (word 8 20 req) [] (resp_code resp)
               (CallNs e) (ReturnNs e)).

Definition decodeFsync (e : Entry) : option ExtentOp :=
  p ← Payloads e;
  let '(req, resp) := p in
  if bool_decide (length req < 8)%nat then None
  else Some (mkExtentOp (e_Node e) (word 8 0 req) ExtentFsync 0 0 [] (Z.abs (resp_code resp)) (CallNs e) (ReturnNs e)).

Definition decode_data (e : Entry) : option (option ExtentOp) :=
  if Opcode e =? 23 then Some <$> decodeWrite e
  else if Opcode e =? 22 then Some <$> decodeRead e
  else if Opcode e =? 12 then decodeTruncate e
  else if Opcode e =? 35 then Some <$> decodeFallocate e
  else if (Opcode e =? 24) || (Opcode e =? 26) then Some <$> decodeFsync e
  else Some None.

Definition DecodeExtents (entries : list Entry) : option (list ExtentOp) :=
  ops ← mapM decode_data entries; Some (omap id ops).

(** ** Reading back *)

Lemma filter_all {A} (P : A → Prop) `{∀ x, Decision (P x)} l : Forall P l → filter P l = l.
Proof. induction 1 as [|x l Hx _ IH]; [done|]. by rewrite filter_cons_True, IH. Qed.

(** ** base64 *)

Definition is_byte (x : Z) : Prop := 0 <= x < 256.

Lemma b64_val_char n : 0 <= n < 64 → b64_val (b64_char n) = Some n ∧ b64_char n ≠ b64_pad ∧ b64_char n ≠ 10 ∧ b64_char n ≠ 13.
Proof.
  intros Hn. assert (forallb (λ n, bool_decide (b64_val (b64_char n) = Some n) && negb (b64_char n =? b64_pad) &&
    negb (b64_char n =? 10) && negb (b64_char n =? 13)) (map Z.of_nat (seq 0 64)) = true) as H by (vm_compute; reflexivity).
  rewrite forallb_forall in H. assert (n ∈ map Z.of_nat (seq 0 64)) as Hin.
  { apply list_elem_of_fmap. exists (Z.to_nat n). rewrite elem_of_seq. lia. }
  apply list_elem_of_In, H in Hin. rewrite !andb_true_iff, !negb_true_iff, !Z.eqb_neq, bool_decide_eq_true in Hin. tauto.
Qed.

(** The bits of the bytes around a character boundary. *)
Lemma b64_join k a u : 0 < k → 0 <= u < k → (a * k + u) / k = a ∧ (a * k + u) mod k = u.
Proof. intros Hk Hu. rewrite Z.div_add_l, Z.div_small, Z.add_0_r by lia. rewrite Z.add_comm, Z.mod_add, Z.mod_small by lia. done. Qed.

Lemma join_byte k x : 0 < k → x / k * k + x mod k = x.
Proof. intros Hk. rewrite (Z.div_mod x k) at 3 by lia. lia. Qed.

Lemma b64_first x u : 0 <= u < 16 → x / 4 * 4 + (x mod 4 * 16 + u) / 16 = x.
Proof. intros Hu. destruct (b64_join 16 (x mod 4) u) as [-> _]; [lia|done|]. by apply join_byte. Qed.
Lemma b64_second a y u : 0 <= y < 256 → 0 <= u < 4 → (a * 16 + y / 16) mod 16 * 16 + (y mod 16 * 4 + u) / 4 = y.
Proof.
  intros Hy Hu. destruct (b64_join 16 a (y / 16)) as [_ ->]; [lia|dlia|]. destruct (b64_join 4 (y mod 16) u) as [-> _]; [lia|done|].
  by apply join_byte.
Qed.
Lemma b64_third a z : 0 <= z < 256 → (a * 4 + z / 64) mod 4 * 64 + z mod 64 = z.
Proof. intros Hz. destruct (b64_join 4 a (z / 64)) as [_ ->]; [lia|dlia|]. by apply join_byte. Qed.

Lemma byte_parts x : is_byte x → (0 <= x / 4 < 64 ∧ 0 <= x mod 4 < 4) ∧ (0 <= x / 16 < 16 ∧ 0 <= x mod 16 < 16) ∧ (0 <= x / 64 < 4 ∧ 0 <= x mod 64 < 64).
Proof. unfold is_byte. intros. split; [|split]; dlia. Qed.

Definition b64_safe : Z → Prop := λ c, c ≠ 10 ∧ c ≠ 13.

Lemma b64_groups_encode b : Forall is_byte b → b64_groups (EncodeToString b) = Some b ∧ Forall b64_safe (EncodeToString b).
Proof.
  assert (b64_safe b64_pad) as Hpad by done.
  revert b. fix IH 1. intros b Hb. destruct b as [|x [|y [|z b]]]; cbn [EncodeToString]; [done|..].
  - apply Forall_cons in Hb as [Hx _]. destruct (byte_parts x Hx) as [[X1 X2] _].
    destruct (b64_val_char (x / 4)) as (V1 & P1 & H1); [lia|]. destruct (b64_val_char (x mod 4 * 16)) as (V2 & P2 & H2); [lia|].
    cbn [b64_groups]. rewrite V1, V2. cbn.
    split; [|by repeat (apply Forall_cons; split)]. by rewrite <- (Z.add_0_r (x mod 4 * 16)), b64_first by lia.
  - apply Forall_cons in Hb as [Hx [Hy _]%Forall_cons].
    destruct (byte_parts x Hx) as [[X1 X2] _]. destruct (byte_parts y Hy) as (_ & [Y1 Y2] & _).
    destruct (b64_val_char (x / 4)) as (V1 & P1 & H1); [lia|]. destruct (b64_val_char (x mod 4 * 16 + y / 16)) as (V2 & P2 & H2); [lia|].
    destruct (b64_val_char (y mod 16 * 4)) as (V3 & P3 & H3); [lia|]. cbn [b64_groups]. rewrite V1, V2. cbn [mbind option_bind].
    rewrite (proj2 (Z.eqb_neq _ _) P3), V3. cbn.
    split; [|by repeat (apply Forall_cons; split)].
    rewrite b64_first, <- (Z.add_0_r (y mod 16 * 4)), b64_second by (done || lia). done.
  - apply Forall_cons in Hb as [Hx [Hy [Hz Hb]%Forall_cons]%Forall_cons].
    destruct (byte_parts x Hx) as [[X1 X2] _]. destruct (byte_parts y Hy) as (_ & [Y1 Y2] & _). destruct (byte_parts z Hz) as (_ & _ & [Z1 Z2]).
    destruct (b64_val_char (x / 4)) as (V1 & P1 & H1); [lia|]. destruct (b64_val_char (x mod 4 * 16 + y / 16)) as (V2 & P2 & H2); [lia|].
    destruct (b64_val_char (y mod 16 * 4 + z / 64)) as (V3 & P3 & H3); [lia|]. destruct (b64_val_char (z mod 64)) as (V4 & P4 & H4); [lia|].
    destruct (IH b Hb) as [IH1 IH2]. cbn [b64_groups]. rewrite V1, V2. cbn [mbind option_bind].
    rewrite (proj2 (Z.eqb_neq _ _) P3), V3. cbn [mbind option_bind]. rewrite (proj2 (Z.eqb_neq _ _) P4), V4, IH1. cbn [mbind option_bind].
    split; [|by repeat (apply Forall_cons; split)]. rewrite b64_first, b64_second, b64_third by (done || lia). done.
Qed.

Lemma DecodeString_EncodeToString b : Forall is_byte b → DecodeString (EncodeToString b) = Some b.
Proof.
  intros [Hd Hc]%b64_groups_encode. unfold DecodeString. rewrite filter_all; done.
Qed.

(** ** Recorded events *)

Inductive hevent :=
| HHold (ino : Z) (mode : bytes) (release : bool) (call ret : Z)
| HKey (ino : Z) (mode : bytes) (release : bool) (call ret actual : Z)
| HPage (ino outcome call ret : Z)
| HBlock (free : bool) (off len now : Z)
| HGuard (gen : Z) (committed fenced : bool) (call ret : Z).

Definition hevent_ok (e : hevent) : Prop :=
  match e with
  | HHold ino _ _ _ _ => is_u64 ino
  | HKey ino _ _ _ _ actual => is_u64 ino ∧ is_i64 actual
  | HPage ino outcome _ _ => is_u64 ino ∧ is_byte outcome
  | HBlock _ off len _ => is_u64 off ∧ is_u64 len
  | HGuard gen _ _ _ _ => is_u64 gen
  end.

Definition event_byte (release : bool) : Z := if release then lockEventRelease else lockEventAcquire.

(** The daemon's side: each event through the function that records it. *)
Definition record_event (r : option bytes) (file : list Entry) (e : hevent) : list Entry :=
  match e with
  | HHold ino mode rel call ret => recordLockEvent r ino mode (event_byte rel) call ret file
  | HKey ino mode rel call ret actual => recordKeyEvent r ino mode (event_byte rel) call ret actual file
  | HPage ino outcome call ret => recordPageInval r ino outcome call ret file
  | HBlock free off len now => recordBlockEvent r (if free then blockEventFree else blockEventReserve) off len now file
  | HGuard gen committed fenced call ret => recordGuardedCommit r gen committed fenced call ret file
  end.

Definition kind_of (mode : bytes) (release : bool) : lockOpKind :=
  if bool_decide (mode = LockExclusive) then (if release then lockReleaseExclusive else lockAcquireExclusive)
  else (if release then lockReleaseShared else lockAcquireShared).

(** What each stream should show of an event. *)
Definition hold_op (node : bytes) (e : hevent) : option LockOp :=
  match e with HHold ino mode rel call ret => Some (mkLockOp node ino (kind_of mode rel) call ret call) | _ => None end.
Definition key_op (node : bytes) (e : hevent) : option LockOp :=
  match e with HKey ino mode rel call ret actual => Some (mkLockOp node ino (kind_of mode rel) call ret actual) | _ => None end.
Definition page_op (node : bytes) (e : hevent) : option PageInvalOp :=
  match e with HPage ino outcome call ret => Some (mkPageInvalOp node ino outcome call ret) | _ => None end.
Definition block_op (node : bytes) (e : hevent) : option BlockOp :=
  match e with
  | HBlock free off len now => if len =? 0 then None else Some (mkBlockOp node (negb free) false off len now now)
  | _ => None
  end.
Definition guard_op (node : bytes) (e : hevent) : option GuardOp :=
  match e with HGuard gen committed fenced call ret => Some (mkGuardOp node gen committed fenced call ret) | _ => None end.

Lemma be_bytes n v : Forall is_byte (be n v).
Proof. induction n as [|n IH]; [done|]. apply Forall_cons. split; [|done]. apply Z.mod_pos_bound. lia. Qed.

Lemma v_u64_w64 v rest : is_u64 v → v_u64 (mkVReader (w64 v ++ rest) true) = (v, mkVReader rest true).
Proof.
  intros Hv. unfold v_u64, v_fixed. cbn [v_ok v_b negb orb].
  rewrite length_app, length_w64, bool_decide_eq_false_2 by lia.
  rewrite take_app_length', drop_app_length' by (by rewrite length_w64). unfold w64.
  rewrite be_decode_be. unfold is_u64 in *. unfold wrap64. f_equal. rewrite !Z.mod_small; [done|done|rewrite Z.mod_small; done].
Qed.

Lemma Payloads_record node op opcode call ret req resp :
  Forall is_byte req → Forall is_byte resp → Payloads (record_entry node op opcode call ret req resp) = Some (req, resp).
Proof. intros Hq Hp. unfold Payloads, record_entry. cbn [Request Response]. by rewrite !DecodeString_EncodeToString. Qed.

Lemma lock_payload_bytes rel mode rest : Forall is_byte rest → Forall is_byte (event_byte rel :: lockModeByte mode :: rest).
Proof.
  intros Hr. apply Forall_cons. split; [by destruct rel|]. apply Forall_cons. split; [|done].
  unfold lockModeByte. by case_bool_decide.
Qed.

Lemma decode_lock_hold node ino mode rel call ret :
  is_u64 ino →
  decode_lock (record_entry node (lit "lock_hold") historyOpLockHold call ret (event_byte rel :: lockModeByte mode :: w64 ino) []) =
  Some (mkLockOp node ino (kind_of mode rel) call ret call).
Proof.
  intros Hi. unfold decode_lock. rewrite Payloads_record; [|apply lock_payload_bytes, be_bytes|done].
  cbn [mbind option_bind fst]. rewrite <- (app_nil_r (w64 ino)). unfold new_vreader. rewrite v_u64_w64 by done. cbn [v_ok negb].
  rewrite app_nil_r. cbn [length]. rewrite length_w64, bool_decide_eq_false_2 by lia.
  unfold lockModeByte, kind_of. by destruct (bool_decide (mode = LockExclusive)), rel.
Qed.

Lemma to_i64_w64 v rest : is_i64 v → let '(x, r) := v_u64 (mkVReader (w64 v ++ rest) true) in v_ok r = true ∧ to_i64 x = v.
Proof.
  intros Hv. assert (w64 v = w64 (wrap64 v)) as ->.
  { unfold w64. f_equal. unfold wrap64. by rewrite Z.mod_mod. }
  rewrite v_u64_w64 by apply wrap64_u64. split; [done|]. by apply to_i64_wrap64.
Qed.

Lemma decode_lock_key node ino mode rel call ret actual :
  is_u64 ino → is_i64 actual →
  decode_lock (record_entry node (lit "lock_key") historyOpLockKey call ret (event_byte rel :: lockModeByte mode :: w64 ino ++ w64 actual) []) =
  Some (mkLockOp node ino (kind_of mode rel) call ret actual).
Proof.
  intros Hi Ha. unfold decode_lock.
  rewrite Payloads_record; [|apply lock_payload_bytes, Forall_app; split; apply be_bytes|done].
  cbn [mbind option_bind fst]. unfold new_vreader. rewrite v_u64_w64 by done. cbn [v_ok negb].
  assert (length (event_byte rel :: lockModeByte mode :: w64 ino ++ w64 actual) = 18%nat) as ->
    by (cbn [length]; by rewrite length_app, !length_w64).
  rewrite (bool_decide_eq_true_2 (18 <= 18)%nat) by lia.
  assert (drop 10 (event_byte rel :: lockModeByte mode :: w64 ino ++ w64 actual) = w64 actual) as -> by done.
  pose proof (to_i64_w64 actual [] Ha) as Hr. rewrite app_nil_r in Hr.
  destruct (v_u64 (mkVReader (w64 actual) true)) as [x r]. destruct Hr as [-> ->].
  unfold lockModeByte, kind_of. by destruct (bool_decide (mode = LockExclusive)), rel.
Qed.

Lemma decode_page_record node ino outcome call ret :
  is_u64 ino → is_byte outcome →
  decode_page_inval (record_entry node (lit "page_inval") historyOpPageInval call ret (w64 ino) [outcome]) =
  Some (mkPageInvalOp node ino outcome call ret).
Proof.
  intros Hi Ho. unfold decode_page_inval. rewrite Payloads_record; [|apply be_bytes|by apply Forall_singleton].
  cbn [mbind option_bind fst]. unfold new_vreader. rewrite <- (app_nil_r (w64 ino)), v_u64_w64 by done. done.
Qed.

Lemma decode_block_record node free off len now :
  is_u64 off → is_u64 len →
  decode_block (record_entry node (lit "block") historyOpBlock now now
    ((if (free : bool) then blockEventFree else blockEventReserve) :: w64 off ++ w64 len) []) =
  Some (mkBlockOp node (negb free) false off len now now).
Proof.
  intros Ho Hl. unfold decode_block. rewrite Payloads_record; [|apply Forall_cons; split; [by destruct free|apply Forall_app; split; apply be_bytes]|done].
  cbn [mbind option_bind fst]. unfold new_vreader. rewrite v_u64_w64 by done.
  rewrite <- (app_nil_r (w64 len)), v_u64_w64 by done. by destruct free.
Qed.

Lemma decode_guard_record node gen committed fenced call ret :
  is_u64 gen →
  decode_guard (record_entry node (lit "guarded_commit") historyOpGuardedCommit call ret
    (w64 gen ++ [Z.lor (if (committed : bool) then 1 else 0) (if (fenced : bool) then 2 else 0)]) []) =
  Some (mkGuardOp node gen committed fenced call ret).
Proof.
  intros Hg. unfold decode_guard. rewrite Payloads_record; [|apply Forall_app; split; [apply be_bytes|by destruct committed, fenced; repeat constructor]|done].
  cbn [mbind option_bind fst]. unfold new_vreader. rewrite v_u64_w64 by done. by destruct committed, fenced.
Qed.

Lemma mapM_snoc {A B} (f : A → option B) l x : mapM f (l ++ [x]) = (l' ← mapM f l; y ← f x; Some (l' ++ [y])).
Proof.
  induction l as [|a l IH]; [cbn; by destruct (f x)|].
  change (mapM f ((a :: l) ++ [x])) with (y ← f a; k ← mapM f (l ++ [x]); Some (y :: k)).
  change (mapM f (a :: l)) with (y ← f a; k ← mapM f l; Some (y :: k)). rewrite IH.
  destruct (f a), (mapM f l), (f x); done.
Qed.

(** One more entry of a stream, or of another one. *)
Lemma decode_stream_snoc {A} opcode (f : Entry → option A) file e :
  decode_stream opcode f (file ++ [e]) =
  (l ← decode_stream opcode f file; if bool_decide (Opcode e = opcode) then x ← f e; Some (l ++ [x]) else Some l).
Proof.
  unfold decode_stream. rewrite filter_app. case_bool_decide as He.
  - rewrite filter_cons_True, filter_nil by done. apply mapM_snoc.
  - rewrite filter_cons_False, filter_nil, app_nil_r by done. by destruct (mapM f (filter _ file)).
Qed.

(** What the five streams of a file decode to. *)
Definition streams (file : list Entry) : option (list LockOp) * option (list LockOp) * option (list PageInvalOp) * option (list BlockOp) * option (list GuardOp) :=
  (DecodeLocks file, DecodeLockKeys file, DecodePageInvals file, DecodeBlocks file, DecodeGuardedCommits file).

Lemma streams_record node file e holds keys pages blocks guards :
  hevent_ok e → streams file = (Some holds, Some keys, Some pages, Some blocks, Some guards) →
  streams (record_event (Some node) file e) =
  (Some (holds ++ option_list (hold_op node e)), Some (keys ++ option_list (key_op node e)), Some (pages ++ option_list (page_op node e)),
   Some (blocks ++ option_list (block_op node e)), Some (guards ++ option_list (guard_op node e))).
Proof.
  intros He. unfold streams, DecodeLocks, DecodeLockKeys, decodeLockStream, DecodePageInvals, DecodeBlocks, DecodeGuardedCommits.
  intros [= H1 H2 H3 H4 H5]. destruct e as [ino mode rel call ret|ino mode rel call ret actual|ino outcome call ret|free off len now|gen cm fn call ret];
    cbn [record_event hold_op key_op page_op block_op guard_op option_list hevent_ok] in *.
  4: unfold recordBlockEvent; destruct (len =? 0); cbn [option_list]; [by rewrite !app_nil_r, H1, H2, H3, H4, H5|].
  all: cbv [recordLockEvent recordKeyEvent recordPageInval recordGuardedCommit Record_]; rewrite !decode_stream_snoc, H1, H2, H3, H4, H5;
    cbn [mbind option_bind Opcode record_entry]; rewrite ?app_nil_r.
  - by rewrite decode_lock_hold.
  - destruct He. by rewrite decode_lock_key.
  - destruct He. by rewrite decode_page_record.
  - destruct He. by rewrite decode_block_record.
  - by rewrite decode_guard_record.
Qed.

(** A run of a daemon: its recorder is opened at [now], then the events. *)
Record session := mkSession { ss_node : bytes; ss_now : Z; ss_events : list hevent }.

Definition record_session (file : list Entry) (s : session) : list Entry :=
  let '(r, file) := NewRecorder (ss_node s) (ss_now s) file in foldl (record_event r) file (ss_events s).

(** The events of every session that a stream shows, in order. *)
Definition shown {A} (f : bytes → hevent → option A) (sessions : list session) : list A :=
  concat (map (λ s, omap (f (ss_node s)) (ss_events s)) sessions).

Definition all_shown (sessions : list session) :=
  (Some (shown hold_op sessions), Some (shown key_op sessions), Some (shown page_op sessions), Some (shown block_op sessions),
   Some (shown guard_op sessions)).

Lemma streams_start node now file : streams (NewRecorder node now file).2 = streams file.
Proof.
  unfold streams, DecodeLocks, DecodeLockKeys, decodeLockStream, DecodePageInvals, DecodeBlocks, DecodeGuardedCommits, NewRecorder, Record_.
  cbn [snd]. rewrite !decode_stream_snoc. cbn [Opcode record_entry].
  by repeat (match goal with |- context [decode_stream ?o ?f file] => destruct (decode_stream o f file) end).
Qed.

Lemma streams_events node evs file holds keys pages blocks guards :
  Forall hevent_ok evs → streams file = (Some holds, Some keys, Some pages, Some blocks, Some guards) →
  streams (foldl (record_event (Some node)) file evs) =
  (Some (holds ++ omap (hold_op node) evs), Some (keys ++ omap (key_op node) evs), Some (pages ++ omap (page_op node) evs),
   Some (blocks ++ omap (block_op node) evs), Some (guards ++ omap (guard_op node) evs)).
Proof.
  intros Hok. revert file holds keys pages blocks guards. induction Hok as [|e evs He _ IH]; intros file holds keys pages blocks guards Hs.
  { cbn. by rewrite !app_nil_r. }
  cbn [foldl]. rewrite (IH _ _ _ _ _ _ (streams_record node file e _ _ _ _ _ He Hs)). rewrite <- !app_assoc. csimpl.
  by destruct (hold_op node e), (key_op node e), (page_op node e), (block_op node e), (guard_op node e).
Qed.

Lemma starts_record r file e : DecodeStarts (record_event r file e) = DecodeStarts file.
Proof.
  unfold DecodeStarts. assert (∀ op c call ret req resp, c ≠ OpStart →
    filter (λ e, Opcode e = OpStart) (Record_ r op c call ret req resp file) = filter (λ e, Opcode e = OpStart) file) as Hr.
  { intros op c call ret req resp Hc. destruct r as [node|]; [|done]. unfold Record_.
    rewrite filter_app, filter_cons_False, filter_nil, app_nil_r; done. }
  destruct e; cbv [record_event recordLockEvent recordKeyEvent recordPageInval recordGuardedCommit recordBlockEvent];
    try match goal with |- context [?l =? 0] => destruct (l =? 0); [done|] end; by rewrite Hr.
Qed.

Lemma starts_session file s : DecodeStarts (record_session file s) = DecodeStarts file ++ [mkStartOp (ss_node s) (ss_now s)].
Proof.
  unfold record_session, NewRecorder, Record_. set (f1 := file ++ _).
  assert (DecodeStarts f1 = DecodeStarts file ++ [mkStartOp (ss_node s) (ss_now s)]) as <-.
  { unfold f1, DecodeStarts. by rewrite filter_app, map_app. }
  generalize f1. clear f1. induction (ss_events s) as [|e evs IH]; intros f1; [done|]. cbn [foldl]. by rewrite IH, starts_record.
Qed.

(** C34. A history is read back as it was recorded, although recorder and
    decoders share no code: over any number of daemon runs appended to one file,
    each of the five event streams decodes without error to exactly the events
    of its kind, in order, every field included (empty block ranges are not
    recorded), and the start of every run is found, at its time. *)
Theorem history_read_back sessions (Hok : Forall (λ s, Forall hevent_ok (ss_events s)) sessions) :
  let file := foldl record_session [] sessions in
  streams file = all_shown sessions ∧ DecodeStarts file = map (λ s, mkStartOp (ss_node s) (ss_now s)) sessions.
Proof.
  induction sessions as [|s sessions IH] using rev_ind; [done|]. apply Forall_app in Hok as [Hok [Hs _]%Forall_cons].
  destruct (IH Hok) as [H1 H2]. clear IH. rewrite foldl_snoc. split.
  - unfold record_session. cbn [NewRecorder]. unfold NewRecorder.
    rewrite (streams_events _ _ _ (shown hold_op sessions) (shown key_op sessions) (shown page_op sessions) (shown block_op sessions)
      (shown guard_op sessions)); [|done|].
    + unfold all_shown, shown. rewrite !map_app, !concat_app. cbn [map concat]. by rewrite !app_nil_r.
    + exact (eq_trans (streams_start (ss_node s) (ss_now s) _) H1).
  - by rewrite starts_session, H2, map_app.
Qed.

Definition demo_session : session :=
  mkSession (lit "n1") 7 [HKey 5 LockExclusive false 10 11 10; HBlock false 4096 8192 12; HPage 5 0 13 14; HKey 5 LockExclusive true 15 16 15;
    HGuard 3 true false 17 18; HBlock true 0 0 19].

Lemma history_read_back_witness :
  DecodeLockKeys (record_session [] demo_session) =
    Some [mkLockOp (lit "n1") 5 lockAcquireExclusive 10 11 10; mkLockOp (lit "n1") 5 lockReleaseExclusive 15 16 15] ∧
  DecodeStarts (record_session [] demo_session) = [mkStartOp (lit "n1") 7].
Proof.
  destruct (history_read_back [demo_session]) as [H1 H2].
  - apply Forall_singleton. repeat constructor; unfold is_u64, is_i64, is_byte; lia.
  - split; [|exact H2]. exact (f_equal (λ x, x.1.1.1.2) H1).
Defined.
