(* ===== verification/Checkers.v ===== *)
(** * The history checkers

    Models test/verify: sequential models of locks, generations, blocks, bytes
    and directories, and the checks that run them over a recorded history.  The
    search for an order is Porcupine's, which is not part of the repository: it
    is the class [Porcupine], whose laws are its documentation (an order of each
    partition that respects real time and that the model accepts was found, or
    there is none, or time ran out). *)

From S2P Require Import Prelude Etcd Schema Lifecycle History.

(** ** Porcupine *)

Record operation (I : Type) := mkOperation { ClientId : nat; Input : I; o_Call : Z; o_Return : Z }.
Arguments mkOperation {I}. Arguments ClientId {I}. Arguments Input {I}. Arguments o_Call {I}. Arguments o_Return {I}.

Record Model (I S : Type) := mkModel {
  Partition : list (operation I) → list (list (operation I)); Init : S; Step : S → I → bool * S
}.
Arguments mkModel {I S}. Arguments Partition {I S}. Arguments Init {I S}. Arguments Step {I S}.

Inductive CheckResult := Unknown | POk | Illegal.

Fixpoint accepts {I S} (step : S → I → bool * S) (s : S) (ins : list I) : bool :=
  match ins with
  | [] => true
  | i :: ins' => let '(ok, s') := step s i in ok && accepts step s' ins'
  end.

(** No operation comes after one that was called only when it had returned. *)
Definition real_time {I} (h : list (operation I)) : Prop := StronglySorted (λ a b, ¬ (o_Return b < o_Call a)) h.

Definition linearizable {I S} (M : Model I S) (h : list (operation I)) : Prop :=
  ∃ h', h' ≡ₚ h ∧ real_time h' ∧ accepts (Step M) (Init M) (map Input h') = true.

Class Porcupine := {
  CheckOperationsTimeout {I S} : Model I S → list (operation I) → Z → CheckResult;
  porcupine_ok {I S} (M : Model I S) h t : CheckOperationsTimeout M h t = POk → Forall (linearizable M) (Partition M h);
  porcupine_illegal {I S} (M : Model I S) h t :
    CheckOperationsTimeout M h t = Illegal → ¬ Forall (linearizable M) (Partition M h)
}.

(** Grouping by a key, as the partitions do; the order of the groups, a Go
    map's, does not matter. *)
Definition group_by {I K} `{EqDecision K} (key : operation I → K) (h : list (operation I)) : list (list (operation I)) :=
  map (λ k, filter (λ o, key o = k) h) (remove_dups (map key h)).

(** Numbering the nodes in the order they appear. *)
Fixpoint number_clients {I} (node : I → bytes) (call ret : I → Z) (seen : list bytes) (ops : list I) : list (operation I) :=
  match ops with
  | [] => []
  | op :: ops' =>
    match list_find (λ n, n = node op) seen with
    | Some (id, _) => mkOperation id op (call op) (ret op) :: number_clients node call ret seen ops'
    | None => mkOperation (length seen) op (call op) (ret op) :: number_clients node call ret (seen ++ [node op]) ops'
    end
  end.

(** [int64] arithmetic. *)
Definition add_i64 (x y : Z) : Z := to_i64 (wrap64 (x + y)).
Definition sub_i64 (x y : Z) : Z := to_i64 (wrap64 (x - y)).

(** ** Relaxations *)

Inductive Consistency := Linearizable | BoundedStale | Serializable.

Definition Classifier : Type := Op → Consistency.
Definition AllLinearizable : Classifier := λ _, Linearizable.
Definition ReadsAreCached : Classifier := λ op, if bool_decide (n_Kind op = KindLookup) then BoundedStale else Linearizable.

Definition relax_op (class : Classifier) (staleness first last : Z) (o : operation Op) : operation Op :=
  match class (Input o) with
  | Linearizable => o
  | BoundedStale =>
    let call := sub_i64 (o_Call o) staleness in
    mkOperation (ClientId o) (Input o) (if call <? first then first else call) (o_Return o)
  | Serializable => mkOperation (ClientId o) (Input o) first last
  end.

Definition Relax (h : list (operation Op)) (class : Classifier) (staleness : Z) : list (operation Op) :=
  match h with
  | [] => []
  | o :: _ =>
    let first := foldl (λ f o, if o_Call o <? f then o_Call o else f) (o_Call o) h in
    let last := foldl (λ l o, if l <? o_Return o then o_Return o else l) (o_Return o) h in
    map (relax_op class staleness first last) h
  end.

Definition Operations (ops : list Op) : list (operation Op) := number_clients n_Node n_Call n_Ret [] ops.

Definition Check `{Porcupine} {S} (model : Model Op S) (h : list (operation Op)) (class : Classifier) (staleness timeout : Z)
  : CheckResult := CheckOperationsTimeout model (Relax h class staleness) timeout.

(** ** Incarnations *)

(** The starts of a node, in order. *)
Definition starts_of (starts : list StartOp) (node : bytes) : list Z :=
  merge_sort Z.le (map s_At (filter (λ s, s_Node s = node) starts)).

(** The last one that had started by [t], counting from 1; [sort.Search] finds
    the first that had not. *)
Definition incarnation_at (starts : list StartOp) (node : bytes) (t : Z) : nat :=
  length (filter (λ a, a <= t) (starts_of starts node)).

Definition endOf (starts : list StartOp) (node : bytes) (gen : nat) : Z := default 0 (starts_of starts node !! gen).

(** ** Locks *)

Definition lock_step (s : Z) (op : LockOp) : bool * Z :=
  match l_Kind op with
  | lockAcquireExclusive => if negb (s =? 0) then (false, s) else (true, -1)
  | lockReleaseExclusive => if negb (s =? -1) then (false, s) else (true, 0)
  | lockAcquireShared => if s =? -1 then (false, s) else (true, s + 1)
  | lockReleaseShared => if s <=? 0 then (false, s) else (true, s - 1)
  end.

Definition LockModel : Model LockOp Z := mkModel (group_by (λ o, l_Ino (Input o))) 0 lock_step.

Definition is_excl (k : lockOpKind) : bool := match k with lockAcquireExclusive | lockReleaseExclusive => true | _ => false end.
Definition is_acquire (k : lockOpKind) : bool := match k with lockAcquireExclusive | lockAcquireShared => true | _ => false end.

(** What an incarnation holds: node, incarnation, inode, mode. *)
Definition holding : Type := bytes * nat * Z * bool.
Definition holding_of (starts : list StartOp) (op : LockOp) : holding :=
  (l_Node op, incarnation_at starts (l_Node op) (l_Call op), l_Ino op, is_excl (l_Kind op)).

(** [held[key]] after the whole history, and [lastSeen] of an incarnation. *)
Definition held_count (starts : list StartOp) (ops : list LockOp) (k : holding) : Z :=
  foldl (λ n op, if bool_decide (holding_of starts op = k) then (if is_acquire (l_Kind op) then n + 1 else n - 1) else n) 0 ops.
Definition last_seen (starts : list StartOp) (ops : list LockOp) (node : bytes) (gen : nat) : Z :=
  foldl (λ t op, if bool_decide ((holding_of starts op).1.1 = (node, gen)) && (t <? l_Ret op) then l_Ret op else t) 0 ops.

Definition withLeaseExpiryReleases (ops : list LockOp) (starts : list StartOp) (leaseTTL : Z) : list LockOp :=
  ops ++ concat (map (λ k : holding, let '(node, gen, ino, excl) := k in
    let last := last_seen starts ops node gen in
    repeat (mkLockOp node ino (if excl then lockReleaseExclusive else lockReleaseShared) last (add_i64 last leaseTTL) 0)
      (Z.to_nat (held_count starts ops k)))
    (remove_dups (map (holding_of starts) ops))).

Definition lockOperations (ops : list LockOp) : list (operation LockOp) := number_clients l_Node l_Call l_Ret [] ops.

Definition CheckLocks `{Porcupine} (ops : list LockOp) (starts : list StartOp) (leaseTTL timeout : Z) : CheckResult :=
  CheckOperationsTimeout LockModel (lockOperations (withLeaseExpiryReleases ops starts leaseTTL)) timeout.

(** ** Generations *)

(** The highest generation the node was fenced at. *)
Definition guard_step (s : option Z) (op : GuardOp) : bool * option Z :=
  let dead := match s with Some at_ => g_Gen op <=? at_ | None => false end in
  if Committed op && dead then (false, s)
  else if g_Fenced op && match s with Some at_ => at_ <? g_Gen op | None => true end then (true, Some (g_Gen op))
  else (true, s).

Definition GenerationModel : Model GuardOp (option Z) := mkModel (group_by ClientId) None guard_step.
Definition guardOperations (ops : list GuardOp) : list (operation GuardOp) := number_clients g_Node g_Call g_Ret [] ops.
Definition CheckGenerations `{Porcupine} (ops : list GuardOp) (timeout : Z) : CheckResult :=
  CheckOperationsTimeout GenerationModel (guardOperations ops) timeout.

(** ** Blocks *)

Definition blockSize : Z := 4096.
Definition blockGroupSize : Z := 2 ^ 30.
Definition blockFree : bytes := [].

(** The offsets [off, off + blockSize, ...] below [off + length]; a range that
    ends within a block of 2^64 would make the loop wrap around. *)
Definition block_offsets (off length : Z) : list Z :=
  let stop := add64 off length in
  if stop <=? off then [] else map (λ i, off + Z.of_nat i * blockSize) (seq 0 (Z.to_nat ((stop - off + blockSize - 1) / blockSize))).

Definition block_cell (op : BlockOp) (c : option bytes) : option (option bytes) :=
  if b_Crash op then Some (if bool_decide (c = Some (b_Node op)) then None else c)
  else if b_Reserve op then
    match c with
    | Some holder => if bool_decide (holder = blockFree) then Some (Some (b_Node op)) else None
    | None => Some (Some (b_Node op))
    end
  else match c with
       | Some holder => if bool_decide (holder = blockFree) then None else Some (Some blockFree)
       | None => Some (Some blockFree)
       end.

Fixpoint block_cells (op : BlockOp) (offs : list Z) (s : gmap Z bytes) : option (gmap Z bytes) :=
  match offs with
  | [] => Some s
  | off :: offs' => c ← block_cell op (s !! off); block_cells op offs' (partial_alter (λ _, c) off s)
  end.

Definition block_step (s : gmap Z bytes) (op : BlockOp) : bool * gmap Z bytes :=
  match block_cells op (block_offsets (b_DiskOff op) (b_Length op)) s with Some s' => (true, s') | None => (false, s) end.

Definition BlockModel : Model BlockOp (gmap Z bytes) :=
  mkModel (group_by (λ o, b_DiskOff (Input o) / blockGroupSize)) ∅ block_step.

(** The blocks an incarnation still holds, and when it was last seen. *)
Definition incarnation_of (starts : list StartOp) (op : BlockOp) : bytes * nat :=
  (b_Node op, incarnation_at starts (b_Node op) (b_Call op)).
Definition held_blocks (starts : list StartOp) (ops : list BlockOp) (h : bytes * nat) : gset Z :=
  foldl (λ held op, if bool_decide (incarnation_of starts op = h) then
    let offs := list_to_set (block_offsets (b_DiskOff op) (b_Length op)) in if b_Reserve op then held ∪ offs else held ∖ offs
    else held) ∅ ops.
Definition block_last_seen (starts : list StartOp) (ops : list BlockOp) (h : bytes * nat) : Z :=
  foldl (λ t op, if bool_decide (incarnation_of starts op = h) && (t <? b_Ret op) then b_Ret op else t) 0 ops.

Definition withCrashBoundaries (ops : list BlockOp) (starts : list StartOp) : list BlockOp :=
  ops ++ concat (map (λ h : bytes * nat,
    let end_ := endOf starts h.1 h.2 in
    if end_ =? 0 then []
    else map (λ off, mkBlockOp h.1 false true off blockSize (block_last_seen starts ops h) end_)
           (merge_sort Z.le (elements (held_blocks starts ops h))))
    (remove_dups (map (incarnation_of starts) ops))).

Definition CheckBlocks `{Porcupine} (ops : list BlockOp) (starts : list StartOp) (timeout : Z) : CheckResult :=
  CheckOperationsTimeout BlockModel (number_clients b_Node b_Call b_Ret [] (withCrashBoundaries ops starts)) timeout.

(** ** Bytes *)

(** A byte's value, the node whose buffer it may still only be in, and whether
    anything has made it durable. *)
Record cell := mkCell { c_b : Z; c_owner : bytes; c_durable : bool }.

Definition read_cell (crashed : gset bytes) (op : ExtentOp) (b : Z) (c : option cell) : option cell :=
  match c with
  | None => Some (mkCell b [] true)
  | Some known =>
    if c_b known =? b then Some (mkCell b [] true)
    else if negb (c_durable known) && negb (bool_decide (c_owner known = x_Node op)) && bool_decide (c_owner known ∈ crashed)
    then Some (mkCell b [] true)
    else None
  end.

Fixpoint data_cells (crashed : gset bytes) (op : ExtentOp) (pos : Z) (data : bytes) (s : gmap Z cell) : option (gmap Z cell) :=
  match data with
  | [] => Some s
  | b :: data' =>
    if bool_decide (x_Kind op = ExtentWrite) then data_cells crashed op (add64 pos 1) data' (<[pos := mkCell b (x_Node op) false]> s)
    else c ← read_cell crashed op b (s !! pos); data_cells crashed op (add64 pos 1) data' (<[pos := c]> s)
  end.

Definition byte_step (crashed : gset bytes) (s : gmap Z cell) (op : ExtentOp) : bool * gmap Z cell :=
  if negb (x_Errno op =? 0) then (true, s)
  else
    match x_Kind op with
    | ExtentFsync =>
      (true, (λ c, if bool_decide (c_owner c = x_Node op) && negb (c_durable c) then mkCell (c_b c) (c_owner c) true else c) <$> s)
    | ExtentTruncate => (true, filter (λ x, x.1 < x_Off op) s)
    | ExtentInvalidate => (true, filter (λ x, ¬ (x_Off op <= x.1 < add64 (x_Off op) (x_Len op))) s)
    | _ => match data_cells crashed op (x_Off op) (x_Data op) s with Some s' => (true, s') | None => (false, s) end
    end.

Definition ExtentModel (crashed : gset bytes) : Model ExtentOp (gmap Z cell) :=
  mkModel (group_by (λ o, x_Ino (Input o))) ∅ (byte_step crashed).
Definition extentOperations (ops : list ExtentOp) : list (operation ExtentOp) := number_clients x_Node x_Call x_Ret [] ops.
Definition CheckExtents `{Porcupine} (ops : list ExtentOp) (crashed : gset bytes) (timeout : Z) : CheckResult :=
  CheckOperationsTimeout (ExtentModel crashed) (extentOperations ops) timeout.

(** ** Directories *)

Definition unknownIno : Z := 2 ^ 64 - 1.

(** What the history has shown of one directory: the names it holds, and the
    names it has said anything about. *)
Record dirState := mkDirState { entries : gmap bytes Z; known : gset bytes }.

Definition newDirState : dirState := mkDirState ∅ ∅.
Definition with_name (d : dirState) (name : bytes) (ino : Z) : dirState := mkDirState (<[name := ino]> (entries d)) ({[name]} ∪ known d).
Definition without_name (d : dirState) (name : bytes) : dirState := mkDirState (delete name (entries d)) ({[name]} ∪ known d).

Definition contradicts (d : dirState) (name : bytes) (ino : Z) : bool :=
  match entries d !! name with
  | Some i => negb ((i =? unknownIno) || (i =? ino))
  | None => bool_decide (name ∈ known d)
  end.

Fixpoint list_page (page : list (bytes * Z)) (d : dirState) : option dirState :=
  match page with
  | [] => Some d
  | (name, ino) :: page' => if contradicts d name ino then None else list_page page' (with_name d name ino)
  end.

(** Go's string order. *)
Definition bytes_ltb (a b : bytes) : bool := negb (bytes_leb b a).

Definition stepReaddir (d : dirState) (op : Op) : bool * dirState :=
  if negb (n_Errno op =? 0) then (true, d)
  else
    match list_page (n_Entries op) d with
    | None => (false, d)
    | Some next =>
      match n_Entries op with
      | [] => if (n_Offset op =? 0) && negb (bool_decide (entries d = ∅)) then (false, d) else (true, next)
      | (lo, _) :: _ =>
        let hi := default lo (fst <$> last (n_Entries op)) in
        let missing name := negb (bool_decide (name ∈ map fst (n_Entries op))) &&
          ((bytes_ltb lo name && bytes_ltb name hi) || ((n_Offset op =? 0) && bytes_ltb name lo)) in
        if existsb missing (map fst (map_to_list (entries d))) then (false, d) else (true, next)
      end
    end.

Definition dir_step (d : dirState) (op : Op) : bool * dirState :=
  let name := if bool_decide (n_Kind op = KindRename) then n_NewName op else n_Name op in
  let present := bool_decide (is_Some (entries d !! name)) in
  let is_known := bool_decide (name ∈ known d) in
  match n_Kind op with
  | KindReaddir => stepReaddir d op
  | KindLookup =>
    if n_Errno op =? 0 then if contradicts d name (n_Ino op) then (false, d) else (true, with_name d name (n_Ino op))
    else if n_Errno op =? errnoENOENT then if present then (false, d) else (true, without_name d name)
    else (true, d)
  | KindUnlink | KindRmdir =>
    if n_Errno op =? 0 then if is_known && negb present then (false, d) else (true, without_name d name)
    else if n_Errno op =? errnoENOENT then if present then (false, d) else (true, without_name d name)
    else (true, d)
  | _ =>
    if n_Errno op =? 0 then
      if present && negb (bool_decide (n_Kind op = KindRename)) then (false, d)
      else
        let made := if n_Ino op =? 0 then unknownIno else n_Ino op in
        let next := with_name d name made in
        (true, if bool_decide (n_Kind op = KindRename) && (n_Parent op =? n_NewParent op) &&
                  negb (bool_decide (n_Name op = n_NewName op)) then without_name next (n_Name op) else next)
    else if n_Errno op =? errnoEEXIST then if is_known && negb present then (false, d) else (true, with_name d name unknownIno)
    else (true, d)
  end.

(** A rename across directories, as each end of it sees it. *)
Definition splitRename (op : Op) : Op * Op :=
  (mkOp KindUnlink (n_Node op) (n_Parent op) (n_Name op) 0 [] (n_Ino op) (n_Entries op) (n_Offset op) (n_Errno op) (n_Call op) (n_Ret op),
   mkOp KindRename (n_Node op) (n_NewParent op) (n_NewName op) (n_NewParent op) (n_NewName op) unknownIno (n_Entries op) (n_Offset op)
     (n_Errno op) (n_Call op) (n_Ret op)).

Definition withInput (o : operation Op) (i : Op) : operation Op := mkOperation (ClientId o) i (o_Call o) (o_Return o).

(** Each operation with the directories it is checked in. *)
Definition dir_halves (o : operation Op) : list (Z * operation Op) :=
  let op := Input o in
  if bool_decide (n_Kind op = KindRename) && negb (n_Parent op =? n_NewParent op) then
    let '(src, dst) := splitRename op in [(n_Parent op, withInput o src); (n_NewParent op, withInput o dst)]
  else [(n_Parent op, o)].

Definition partitionByDirectory (h : list (operation Op)) : list (list (operation Op)) :=
  let halves := concat (map dir_halves h) in
  map (λ d, map snd (filter (λ x, x.1 = d) halves)) (merge_sort Z.le (remove_dups (map fst halves))).

Definition NamespaceModel : Model Op dirState := mkModel partitionByDirectory newDirState dir_step.

(** ** Page caches *)

Definition pageInvalDone : Z := 0.
Definition pageInvalNoClient : Z := 1.
Definition pageInvalFailed : Z := 2.
Definition pageInvalNotCached : Z := 3.

Inductive page_reason := NoInvalidation | InvalidationFailed.
Record PageCacheViolation := mkPCV { pv_Node : bytes; pv_Ino : Z; ReleasedAt : Z; pv_Reason : page_reason }.

Definition actualCall (o : LockOp) : Z := if negb (ActualCall o =? 0) then ActualCall o else l_Call o.

(** The invalidations that returned by [upto], the last one at or after [floor]
    among them, and the rest. *)
Fixpoint match_invals (list : list PageInvalOp) (floor upto : Z) (matched : option PageInvalOp) : option PageInvalOp * Datatypes.list PageInvalOp :=
  match list with
  | [] => (matched, [])
  | iv :: list' =>
    if p_Ret iv <=? upto then match_invals list' floor upto (if floor <=? p_Ret iv then Some iv else matched)
    else (matched, list)
  end.

Fixpoint check_releases (node : bytes) (ino : Z) (floor : Z) (list : list PageInvalOp) (releases : Datatypes.list LockOp)
  : Datatypes.list PageCacheViolation :=
  match releases with
  | [] => []
  | rel :: releases' =>
    let '(matched, rest) := match_invals list floor (actualCall rel) None in
    let found := match matched with
                 | None => [mkPCV node ino (l_Call rel) NoInvalidation]
                 | Some iv => if p_Outcome iv =? pageInvalFailed then [mkPCV node ino (l_Call rel) InvalidationFailed] else []
                 end in
    found ++ check_releases node ino (l_Ret rel) rest releases'
  end.

Definition by_ret (a b : PageInvalOp) : Prop := p_Ret a <= p_Ret b.
Definition by_call (a b : LockOp) : Prop := actualCall a <= actualCall b.
Definition by_release (a b : PageCacheViolation) : Prop := ReleasedAt a <= ReleasedAt b.
#[global] Instance by_ret_dec a b : Decision (by_ret a b).
Proof. unfold by_ret. apply _. Defined.
#[global] Instance by_call_dec a b : Decision (by_call a b).
Proof. unfold by_call. apply _. Defined.
#[global] Instance by_release_dec a b : Decision (by_release a b).
Proof. unfold by_release. apply _. Defined.

Definition CheckPageCache (keys : list LockOp) (invals : list PageInvalOp) : list PageCacheViolation :=
  let releases := filter (λ o, is_acquire (l_Kind o) = false ∧ l_Node o ∈ map p_Node invals) keys in
  merge_sort by_release (concat (map (λ k : bytes * Z,
    check_releases k.1 k.2 0
      (merge_sort by_ret (filter (λ iv, (p_Node iv, p_Ino iv) = k) invals))
      (merge_sort by_call (filter (λ o, (l_Node o, l_Ino o) = k) releases)))
    (remove_dups (map (λ o, (l_Node o, l_Ino o)) releases)))).

(** ** The command (cmd/verify-history) *)

Definition DefaultLockLeaseTTL : Z := 5 * nanos.

(** [None]: the history cannot be decoded or the model is unknown. *)
Definition checkModel `{Porcupine} (model : bytes) (entries : list Entry) (crashed : gset bytes) (timeout : Z) : option bool :=
  let report r := match r with POk => true | _ => false end in
  if bool_decide (model = lit "namespace") then
    ops ← DecodeNamespace entries; Some (report (Check NamespaceModel (Operations ops) AllLinearizable 0 timeout))
  else if bool_decide (model = lit "extent") then
    ops ← DecodeExtents entries; Some (report (CheckExtents ops crashed timeout))
  else if bool_decide (model = lit "lock") then
    ops ← DecodeLocks entries; Some (report (CheckLocks ops (DecodeStarts entries) DefaultLockLeaseTTL timeout))
  else if bool_decide (model = lit "lockkey") then
    ops ← DecodeLockKeys entries; Some (report (CheckLocks ops (DecodeStarts entries) DefaultLockLeaseTTL timeout))
  else if bool_decide (model = lit "block") then
    ops ← DecodeBlocks entries; Some (report (CheckBlocks ops (DecodeStarts entries) timeout))
  else if bool_decide (model = lit "pagecache") then
    keys ← DecodeLockKeys entries; invals ← DecodePageInvals entries;
    Some (bool_decide (length (CheckPageCache keys invals) = 0%nat))
  else if bool_decide (model = lit "generation") then
    ops ← DecodeGuardedCommits entries; Some (report (CheckGenerations ops timeout))
  else None.

Definition allModels : bytes := lit "namespace,extent,lock,lockkey,block,pagecache,generation".

(** The non-empty parts of a flag. *)
Definition split (s : bytes) : list bytes := filter (λ p, p ≠ []) (map TrimSpace (split_on comma s)).

(** [main]: the exit status; [load] reads a file of JSON lines. *)
Definition verify_main `{Porcupine} (load : bytes → option (list Entry)) (files models crashed : bytes) (timeout : Z) : Z :=
  if bool_decide (files = []) then 2
  else
    match mapM load (split_on comma files) with
    | None => 1
    | Some loaded =>
      if forallb (λ m, default false (checkModel (TrimSpace m) (concat loaded) (list_to_set (split crashed)) timeout)) (split_on comma models)
      then 0 else 1
    end.
