(* ===== verification/CheckerProps.v ===== *)
(** * What the history checkers decide

    - Loosening the intervals of a history never turns an accepted one down.
    - The lock and generation models accept exactly the orders in which locks
      exclude and no dead generation commits.
    - The namespace and byte models turn down no history that a real directory or
      a real file could have produced; a restarted node's reads and a rename
      that failed for another reason are outside of that, and are turned down. *)

From S2P Require Import Prelude Etcd EtcdFacts Schema Lifecycle History Checkers.

(** ** The search, by brute force *)

#[global] Instance real_time_dec {I} (h : list (operation I)) : Decision (real_time h).
Proof.
  unfold real_time. induction h as [|o h IH]; [left; constructor|].
  destruct (decide (Forall (λ b, ¬ o_Return b < o_Call o) h)) as [Ho|Ho]; [|right; by intros [_ H]%StronglySorted_inv].
  destruct IH as [Hh|Hh]; [left; by constructor|right; by intros [H _]%StronglySorted_inv].
Defined.

Lemma linearizable_permutations {I S} (M : Model I S) (h : list (operation I)) :
  Exists (λ h', real_time h' ∧ accepts (Step M) (Init M) (map Input h') = true) (permutations h) ↔ linearizable M h.
Proof.
  rewrite Exists_exists. unfold linearizable. setoid_rewrite permutations_Permutation.
  split; intros (h' & Hp & H); by exists h'.
Qed.

#[global] Instance linearizable_dec {I S} (M : Model I S) (h : list (operation I)) : Decision (linearizable M h) :=
  match decide (Exists (λ h', real_time h' ∧ accepts (Step M) (Init M) (map Input h') = true) (permutations h)) with
  | left H => left (proj1 (linearizable_permutations M h) H)
  | right H => right (λ L, H (proj2 (linearizable_permutations M h) L))
  end.

(** A search that never runs out of time. *)
Definition brute_check {I S} (M : Model I S) (h : list (operation I)) (timeout : Z) : CheckResult :=
  if decide (Forall (linearizable M) (Partition M h)) then POk else Illegal.

Lemma brute_ok {I S} (M : Model I S) h t : brute_check M h t = POk → Forall (linearizable M) (Partition M h).
Proof. unfold brute_check. by case_decide. Qed.
Lemma brute_illegal {I S} (M : Model I S) h t : brute_check M h t = Illegal → ¬ Forall (linearizable M) (Partition M h).
Proof. unfold brute_check. by case_decide. Qed.

Definition brute_force : Porcupine := {|
  CheckOperationsTimeout := @brute_check; porcupine_ok := @brute_ok; porcupine_illegal := @brute_illegal
|}.

(** ** Loosening *)

Section loosen.
Context {I : Type}.

(** The same operation with a wider interval. *)
Definition loosened (a b : operation I) : Prop := Input b = Input a ∧ o_Call b <= o_Call a ∧ o_Return a <= o_Return b.

Lemma Forall2_perm {A B} (R : A → B → Prop) l l' k :
  l' ≡ₚ l → Forall2 R l k → ∃ k', k' ≡ₚ k ∧ Forall2 R l' k'.
Proof.
  intros Hp. revert k. induction Hp as [|x l' l Hp IH|x y l|l1 l2 l3 H1 IH1 H2 IH2]; intros k Hk.
  - apply Forall2_nil_inv_l in Hk as ->. by exists [].
  - apply Forall2_cons_inv_l in Hk as (y & k' & Hxy & Hk & ->). destruct (IH k' Hk) as (k2 & Hk2 & H2). exists (y :: k2).
    split; [by constructor|by constructor].
  - apply Forall2_cons_inv_l in Hk as (a & k1 & Ha & Hk & ->). apply Forall2_cons_inv_l in Hk as (b & k2 & Hb & Hk & ->).
    exists (b :: a :: k2). split; [constructor|by repeat constructor].
  - destruct (IH2 k Hk) as (k2 & P2 & F2). destruct (IH1 k2 F2) as (k1 & P1 & F1). exists k1. split; [by etrans|done].
Qed.

Lemma real_time_loosened h h2 : Forall2 loosened h h2 → real_time h → real_time h2.
Proof.
  induction 1 as [|a b h h2 Hab Hh IH]; intros Hr; [constructor|]. apply StronglySorted_inv in Hr as [Hr Ha]. constructor; [by apply IH|].
  clear IH Hr. induction Hh as [|c d h h2 Hcd Hh IH]; [constructor|]. apply Forall_cons in Ha as [Hc Ha]. constructor; [|by apply IH].
  destruct Hab as (_ & ? & ?), Hcd as (_ & ? & ?). lia.
Qed.

Lemma loosened_inputs h h2 : Forall2 loosened h h2 → map Input h2 = map Input h.
Proof. induction 1 as [|a b h h2 [E _] _ IH]; [done|]. cbn. by rewrite E, IH. Qed.

Lemma linearizable_loosened {S} (M : Model I S) h h2 : Forall2 loosened h h2 → linearizable M h → linearizable M h2.
Proof.
  intros Hl (h' & Hp & Hr & Ha). destruct (Forall2_perm _ _ _ _ Hp Hl) as (h2' & Hp2 & Hl').
  exists h2'. split; [done|]. split; [by eapply real_time_loosened|]. by rewrite (loosened_inputs h' h2').
Qed.
End loosen.

(** Splitting into directories only looks at the inputs. *)
Lemma halves_loosened o o2 :
  loosened o o2 → Forall2 (λ x y : Z * operation Op, x.1 = y.1 ∧ loosened x.2 y.2) (dir_halves o) (dir_halves o2).
Proof.
  intros (E & Hc & Hr). unfold dir_halves. rewrite E.
  destruct (bool_decide (n_Kind (Input o) = KindRename) && negb (n_Parent (Input o) =? n_NewParent (Input o)));
    [unfold splitRename|]; repeat constructor; done.
Qed.

Lemma Forall2_filter_key {A B K} `{EqDecision K} (ka : A → K) (kb : B → K) (R : A → B → Prop) l k key :
  (∀ a b, R a b → ka a = kb b) → Forall2 R l k → Forall2 R (filter (λ a, ka a = key) l) (filter (λ b, kb b = key) k).
Proof.
  intros Hk. induction 1 as [|a b l k Hab Hlk IH]; [constructor|]. rewrite !filter_cons, (Hk a b Hab).
  destruct (decide (kb b = key)); [by constructor|done].
Qed.

Lemma partition_loosened h h2 :
  Forall2 loosened h h2 → Forall2 (Forall2 loosened) (partitionByDirectory h) (partitionByDirectory h2).
Proof.
  intros Hl. unfold partitionByDirectory. set (l1 := concat (map dir_halves h)). set (l2 := concat (map dir_halves h2)).
  assert (Forall2 (λ x y : Z * operation Op, x.1 = y.1 ∧ loosened x.2 y.2) l1 l2) as H12.
  { unfold l1, l2. induction Hl as [|o o2 h h2 Ho _ IH]; cbn; [constructor|]. apply Forall2_app; [by apply halves_loosened|done]. }
  assert (map fst l2 = map fst l1) as ->.
  { clear -H12. induction H12 as [|x y l1 l2 [E _] _ IH]; cbn; [done|]. by rewrite E, IH. }
  clearbody l1 l2. generalize (merge_sort Z.le (remove_dups (map fst l1))). intros ks.
  induction ks as [|d ks IH]; cbn; [constructor|]. constructor; [|done].
  pose proof (Forall2_filter_key fst fst _ _ _ d (λ a b H, proj1 H) H12) as Hf.
  induction Hf as [|x y k1 k2 [_ Hxy] _ IHf]; cbn; [constructor|]. by constructor.
Qed.

Lemma fold_min_le h f : foldl (λ f (o : operation Op), if o_Call o <? f then o_Call o else f) f h <= f ∧
  Forall (λ o, foldl (λ f (o : operation Op), if o_Call o <? f then o_Call o else f) f h <= o_Call o) h.
Proof.
  revert f. induction h as [|o h IH]; intros f; cbn; [split; [lia|done]|].
  destruct (IH (if o_Call o <? f then o_Call o else f)) as [H1 H2]. destruct (o_Call o <? f) eqn:E; zbool; split; try lia; constructor; (lia || done).
Qed.
Lemma fold_max_ge h l : l <= foldl (λ l (o : operation Op), if l <? o_Return o then o_Return o else l) l h ∧
  Forall (λ o, o_Return o <= foldl (λ l (o : operation Op), if l <? o_Return o then o_Return o else l) l h) h.
Proof.
  revert l. induction h as [|o h IH]; intros l; cbn; [split; [lia|done]|].
  destruct (IH (if l <? o_Return o then o_Return o else l)) as [H1 H2]. destruct (l <? o_Return o) eqn:E; zbool; split; try lia; constructor; (lia || done).
Qed.

Lemma Relax_loosened h class staleness :
  0 <= staleness → Forall (λ o, is_i64 (o_Call o - staleness)) h → Forall2 loosened h (Relax h class staleness).
Proof.
  intros Hs Ht. unfold Relax. destruct h as [|o0 h0]; [constructor|]. set (h := o0 :: h0) in *.
  destruct (fold_min_le h (o_Call o0)) as [_ Hmin]. destruct (fold_max_ge h (o_Return o0)) as [_ Hmax].
  set (first := foldl _ (o_Call o0) h) in *. set (last := foldl _ (o_Return o0) h) in *. clearbody h first last.
  induction h as [|o h IH]; [constructor|]. apply Forall_cons in Ht as [Ho Ht]. apply Forall_cons in Hmin as [H1 Hmin].
  apply Forall_cons in Hmax as [H2 Hmax]. constructor; [|by apply IH]. unfold relax_op, loosened. destruct (class (Input o)); cbn.
  - split; [done|lia].
  - unfold sub_i64. rewrite to_i64_wrap64 by done. split; [done|]. split; [|lia]. destruct (o_Call o - staleness <? first); lia.
  - split; [done|lia].
Qed.

Lemma Relax_strict h : Relax h AllLinearizable 0 = h.
Proof. destruct h as [|o0 h0]; [done|]. unfold Relax. apply map_id. Qed.

Lemma relaxed_partitions h class staleness :
  0 <= staleness → Forall (λ o, is_i64 (o_Call o - staleness)) h →
  Forall (linearizable NamespaceModel) (partitionByDirectory h) →
  Forall (linearizable NamespaceModel) (partitionByDirectory (Relax h class staleness)).
Proof.
  intros Hs Ht. pose proof (partition_loosened _ _ (Relax_loosened h class staleness Hs Ht)) as Hl.
  induction Hl as [|p p2 ps ps2 Hp _ IH]; intros Hlin; [constructor|]. apply Forall_cons in Hlin as [H1 H2].
  constructor; [by apply (linearizable_loosened NamespaceModel p p2)|by apply IH].
Qed.

(** Relaxing never turns an accepted history down: if the strict check finds
    an order, no class of guarantees and no staleness makes the relaxed check
    report a violation. *)
Theorem relaxing_accepts_more `{Porcupine} h class staleness timeout timeout'
  (Hstale : 0 <= staleness) (Htimes : Forall (λ o, is_i64 (o_Call o - staleness)) h)
  (Hstrict : Check NamespaceModel h AllLinearizable 0 timeout = POk) :
  Check NamespaceModel h class staleness timeout' ≠ Illegal.
Proof.
  unfold Check in *. intros Hbad%porcupine_illegal. apply Hbad, relaxed_partitions; [done|done|].
  apply porcupine_ok in Hstrict. by rewrite Relax_strict in Hstrict.
Qed.

(** ** Locks *)

(** Exclusive and shared holds after some events. *)
Definition excl_delta (op : LockOp) : Z := match l_Kind op with lockAcquireExclusive => 1 | lockReleaseExclusive => -1 | _ => 0 end.
Definition shared_delta (op : LockOp) : Z := match l_Kind op with lockAcquireShared => 1 | lockReleaseShared => -1 | _ => 0 end.
Definition excl_held (ops : list LockOp) : Z := foldr (λ op n, excl_delta op + n) 0 ops.
Definition shared_held (ops : list LockOp) : Z := foldr (λ op n, shared_delta op + n) 0 ops.

(** At most one exclusive holder, then no shared one, and nothing is released
    that was not held. *)
Definition holds_ok (x s : Z) : Prop := 0 <= x <= 1 ∧ 0 <= s ∧ (x = 1 → s = 0).
Definition excludes (ops : list LockOp) : Prop := ∀ p, p `prefix_of` ops → holds_ok (excl_held p) (shared_held p).

(** The model's state for given holds. *)
Definition lock_state (x s : Z) : Z := if x =? 1 then -1 else s.

Lemma lock_step_holds x s op : holds_ok x s →
  (holds_ok (x + excl_delta op) (s + shared_delta op) ∧
   lock_step (lock_state x s) op = (true, lock_state (x + excl_delta op) (s + shared_delta op))) ∨
  (¬ holds_ok (x + excl_delta op) (s + shared_delta op) ∧ (lock_step (lock_state x s) op).1 = false).
Proof.
  unfold holds_ok, lock_step, lock_state, excl_delta, shared_delta. intros (Hx & Hs & Hxs).
  destruct (decide (x = 1)) as [->|Hx1]; [rewrite (Hxs eq_refl)|assert (x = 0) as -> by lia]; destruct (l_Kind op); cbn.
  - right. split; [lia|done].
  - left. split; [lia|done].
  - right. split; [lia|done].
  - right. split; [lia|done].
  - destruct (s =? 0) eqn:E; zbool; cbn; [left; split; [lia|done]|right; split; [lia|done]].
  - rewrite (proj2 (Z.eqb_neq s (-1))) by lia. right. split; [lia|done].
  - rewrite (proj2 (Z.eqb_neq s (-1))) by lia. left. split; [lia|done].
  - destruct (s <=? 0) eqn:E; zbool; cbn; [right; split; [lia|done]|left; split; [lia|done]].
Qed.

Lemma lock_accepts_from ops x s : holds_ok x s →
  accepts lock_step (lock_state x s) ops = true ↔ ∀ p, p `prefix_of` ops → holds_ok (x + excl_held p) (s + shared_held p).
Proof.
  revert x s. induction ops as [|op ops IH]; intros x s Hok.
  { split; [|done]. intros _ p ->%prefix_nil_inv. cbn. by rewrite !Z.add_0_r. }
  assert ((∀ p, p `prefix_of` op :: ops → holds_ok (x + excl_held p) (s + shared_held p)) ↔
    ∀ p, p `prefix_of` ops → holds_ok (x + excl_delta op + excl_held p) (s + shared_delta op + shared_held p)) as ->.
  { split.
    - intros H p Hp. rewrite <- !Z.add_assoc. by apply (H (op :: p)), prefix_cons.
    - intros H p Hp. destruct p as [|o p]; [cbn; by rewrite !Z.add_0_r|]. apply prefix_cons_inv_1 in Hp as Ho. subst o.
      apply prefix_cons_inv_2 in Hp. cbn [excl_held shared_held foldr]. rewrite !Z.add_assoc. by apply H. }
  cbn [accepts]. destruct (lock_step_holds x s op Hok) as [[Hn ->]|[Hn Hf]].
  - cbn [andb]. by apply IH.
  - destruct (lock_step (lock_state x s) op) as [ok s']. cbn in Hf. subst ok. cbn. split; [done|]. intros H.
    destruct Hn. specialize (H [] (prefix_nil _)). cbn in H. by rewrite !Z.add_0_r in H.
Qed.

Lemma lock_accepts ops : accepts lock_step 0 ops = true ↔ excludes ops.
Proof. apply (lock_accepts_from ops 0 0). by unfold holds_ok. Qed.

(** The events of one inode have an order that respects real time in which its
    lock excludes. *)
Definition lock_explained (h : list (operation LockOp)) : Prop :=
  ∃ h', h' ≡ₚ h ∧ real_time h' ∧ excludes (map Input h').

Lemma linearizable_locks h : linearizable LockModel h ↔ lock_explained h.
Proof. unfold linearizable, lock_explained. cbn [Step Init LockModel]. by setoid_rewrite lock_accepts. Qed.

Lemma elem_of_group_by {I K} `{EqDecision K} (key : operation I → K) h p :
  p ∈ group_by key h ↔ ∃ k, p = filter (λ o, key o = k) h ∧ k ∈ map key h.
Proof. unfold group_by. rewrite list_elem_of_fmap. setoid_rewrite elem_of_remove_dups. done. Qed.

Lemma locks_explained h : Forall (linearizable LockModel) (Partition LockModel h) →
  ∀ ino, lock_explained (filter (λ o, l_Ino (Input o) = ino) h).
Proof.
  intros Hok ino. apply linearizable_locks. rewrite Forall_forall in Hok.
  destruct (decide (ino ∈ map (λ o, l_Ino (Input o)) h)) as [Hin|Hin].
  - apply Hok. cbn [Partition LockModel]. apply elem_of_group_by. by exists ino.
  - assert (filter (λ o, l_Ino (Input o) = ino) h = []) as ->; [|exists []; split; [done|split; [constructor|done]]].
    clear -Hin. induction h as [|o h IH]; [done|]. cbn in Hin. apply not_elem_of_cons in Hin as [H1 H2].
    rewrite filter_cons_False by congruence. by apply IH.
Qed.

(** The lock check decides mutual exclusion: success means that the recorded
    acquisitions and releases of every inode, with the releases that expired
    leases stand for, have an order that respects real time and in which an
    exclusive holder is always alone; a violation means that for some inode
    there is none. *)
Theorem lock_check_decides `{Porcupine} ops starts ttl timeout :
  let h := lockOperations (withLeaseExpiryReleases ops starts ttl) in
  let events_of ino := filter (λ o, l_Ino (Input o) = ino) h in
  (CheckLocks ops starts ttl timeout = POk → ∀ ino, lock_explained (events_of ino)) ∧
  (CheckLocks ops starts ttl timeout = Illegal → ∃ ino, ¬ lock_explained (events_of ino)).
Proof.
  intros h events_of. unfold CheckLocks. fold h. split.
  - intros Hok%porcupine_ok. by apply locks_explained.
  - intros Hbad%porcupine_illegal. cbn [Partition LockModel] in Hbad.
    apply not_Forall_Exists in Hbad; [|apply _]. apply Exists_exists in Hbad as (p & (ino & -> & _)%elem_of_group_by & Hp).
    exists ino. by rewrite <- linearizable_locks.
Qed.

(** ** Generations *)

(** No commit carries a generation at or below one fenced before it. *)
Definition dead_stays_dead (a b : GuardOp) : Prop := g_Fenced a = true → Committed b = true → g_Gen a < g_Gen b.
Definition above (s : option Z) (b : GuardOp) : Prop := Committed b = true → match s with Some a => a < g_Gen b | None => True end.

Lemma guard_accepts_from ops s :
  accepts guard_step s ops = true ↔ StronglySorted dead_stays_dead ops ∧ Forall (above s) ops.
Proof.
  revert s. induction ops as [|op ops IH]; intros s; [split; [by repeat constructor|done]|]. cbn [accepts].
  assert (StronglySorted dead_stays_dead (op :: ops) ↔ StronglySorted dead_stays_dead ops ∧ Forall (dead_stays_dead op) ops) as ->.
  { split; [apply StronglySorted_inv|intros []; by constructor]. }
  rewrite Forall_cons. unfold guard_step. destruct (Committed op && _) eqn:Edead.
  { split; [done|]. intros (_ & Hab & _). exfalso. zbool. destruct s as [a|]; [|done]. zbool.
    unfold above in Hab. specialize (Hab ltac:(assumption)). lia. }
  assert (above s op) as Hop.
  { intros Hc. rewrite Hc in Edead. destruct s as [a|]; [|done]. cbn in Edead. zbool. lia. }
  destruct (g_Fenced op && _) eqn:Ef; cbn [andb]; rewrite IH.
  - zbool. assert (Forall (above (Some (g_Gen op))) ops ↔ Forall (dead_stays_dead op) ops ∧ Forall (above s) ops) as ->; [|tauto].
    rewrite <- Forall_and. apply Forall_iff. intros b. unfold above, dead_stays_dead. destruct s as [a|]; zbool; [|tauto].
    split; [|intros [Hb _] Hc; by apply Hb]. intros Hb. split; [auto|]. intros Hc. specialize (Hb Hc). lia.
  - split; [|tauto]. intros [Hs Ha]. split; [|done]. split; [done|]. eapply Forall_impl; [exact Ha|]. intros b Hb Hfe Hc.
    rewrite Hfe in Ef. destruct s as [a|]; [|done]. cbn in Ef. zbool. specialize (Hb Hc). cbn in Hb. lia.
Qed.

Lemma generation_explained h : linearizable GenerationModel h ↔
  ∃ h', h' ≡ₚ h ∧ real_time h' ∧ StronglySorted dead_stays_dead (map Input h').
Proof.
  unfold linearizable. cbn [Step Init GenerationModel]. setoid_rewrite guard_accepts_from.
  assert (∀ l, Forall (above None) l) as Hall by (intros l; apply Forall_true; by intros b _).
  split; intros (h' & Hp & Hr & Ha); exists h'; naive_solver.
Qed.

(** The generation check decides that no dead generation commits: success
    means that every node's attempts have an order that respects real time in
    which no commit carries a generation at or below one the node was
    fenced at before; a violation means that for some node there is none. *)
Theorem generation_check_decides `{Porcupine} ops timeout :
  let explained h := ∃ h', h' ≡ₚ h ∧ real_time h' ∧ StronglySorted dead_stays_dead (map Input h') in
  let groups := group_by ClientId (guardOperations ops) in
  (CheckGenerations ops timeout = POk → Forall explained groups) ∧
  (CheckGenerations ops timeout = Illegal → ¬ Forall explained groups).
Proof.
  intros explained groups.
  unfold CheckGenerations. split.
  - intros Hok%porcupine_ok. eapply Forall_impl; [exact Hok|]. intros h. apply generation_explained.
  - intros Hbad%porcupine_illegal Hall. apply Hbad. eapply Forall_impl; [exact Hall|]. intros h. apply generation_explained.
Qed.

(** ** Directories *)

(** A directory's listing: its names in order, each with its inode. *)
Definition is_listing (D : gmap bytes Z) (l : list (bytes * Z)) : Prop :=
  StronglySorted (λ a b, bytes_ltb a.1 b.1 = true) l ∧ ∀ n i, (n, i) ∈ l ↔ D !! n = Some i.

(** A page of it: a run of the listing, from its start at offset 0, and empty
    there only if the directory is. *)
Definition page_of (D : gmap bytes Z) (offset : Z) (page : list (bytes * Z)) : Prop :=
  ∃ pre post, is_listing D (pre ++ page ++ post) ∧ (offset = 0 → pre = [] ∧ (page = [] → post = [])).

Definition adds_name (k : Kind) : bool :=
  match k with KindCreate | KindMkdir | KindMknod | KindSymlnk | KindLink => true | _ => false end.

(** What a directory that holds [D] may answer, and what it holds then. *)
Inductive serves : gmap bytes Z → Op → gmap bytes Z → Prop :=
| S_found D op : n_Kind op = KindLookup → n_Errno op = 0 → D !! n_Name op = Some (n_Ino op) → serves D op D
| S_absent D op : n_Kind op = KindLookup → n_Errno op = errnoENOENT → D !! n_Name op = None → serves D op D
| S_added D op i : adds_name (n_Kind op) = true → n_Errno op = 0 → D !! n_Name op = None → n_Ino op = i ∨ n_Ino op = 0 →
    serves D op (<[n_Name op := i]> D)
| S_exists D op : adds_name (n_Kind op) = true → n_Errno op = errnoEEXIST → is_Some (D !! n_Name op) → serves D op D
| S_removed D op : n_Kind op = KindUnlink ∨ n_Kind op = KindRmdir → n_Errno op = 0 → is_Some (D !! n_Name op) →
    serves D op (delete (n_Name op) D)
| S_not_there D op : n_Kind op = KindUnlink ∨ n_Kind op = KindRmdir → n_Errno op = errnoENOENT → D !! n_Name op = None → serves D op D
| S_renamed D op i : n_Kind op = KindRename → n_Errno op = 0 → n_Parent op = n_NewParent op → n_Name op ≠ n_NewName op →
    D !! n_Name op = Some i → n_Ino op = 0 → serves D op (<[n_NewName op := i]> (delete (n_Name op) D))
| S_arrived D op i : n_Kind op = KindRename → n_Errno op = 0 → n_Name op = n_NewName op → n_Ino op = unknownIno ∨ n_Ino op = 0 →
    serves D op (<[n_NewName op := i]> D)
| S_kept D op : n_Kind op = KindRename → n_Errno op = errnoEEXIST → is_Some (D !! n_NewName op) → serves D op D
| S_listed D op : n_Kind op = KindReaddir → n_Errno op = 0 → page_of D (n_Offset op) (n_Entries op) → serves D op D
| S_failed D op : n_Errno op ≠ 0 → n_Errno op ≠ errnoENOENT → n_Errno op ≠ errnoEEXIST → serves D op D
| S_elsewhere D op : n_Errno op = errnoENOENT → adds_name (n_Kind op) = true ∨ n_Kind op = KindRename ∨ n_Kind op = KindReaddir →
    serves D op D
| S_stayed D op : n_Kind op = KindUnlink ∨ n_Kind op = KindRmdir → n_Errno op = errnoEEXIST → serves D op D.

(** What the model has learned is true of the directory. *)
Record learned (d : dirState) (D : gmap bytes Z) : Prop := Learned {
  le_there n i : entries d !! n = Some i → ∃ j, D !! n = Some j ∧ (i = unknownIno ∨ i = j);
  le_absent n : n ∈ known d → entries d !! n = None → D !! n = None
}.

Lemma learned_with d D n i j : learned d D → D !! n = Some j → i = unknownIno ∨ i = j → learned (with_name d n i) D.
Proof.
  intros [H1 H2] Hj Hi. split; cbn.
  - intros n' i'. rewrite lookup_insert_Some. intros [[<- <-]|[_ H]]; [eauto|by apply H1].
  - intros n'. rewrite lookup_insert_None. intros [Hs%elem_of_singleton|Hn]%elem_of_union [Hd Hne]; [congruence|by apply H2].
Qed.

Lemma learned_insert d D n i j : learned d D → i = unknownIno ∨ i = j → learned (with_name d n i) (<[n := j]> D).
Proof.
  intros [H1 H2] Hi. split; cbn.
  - intros n' i'. rewrite lookup_insert_Some. intros [[<- <-]|[Hne H]]; [exists j; by rewrite lookup_insert_eq|].
    rewrite lookup_insert_ne by done. by apply H1.
  - intros n'. rewrite lookup_insert_None. intros [Hs%elem_of_singleton|Hn]%elem_of_union [Hd Hne]; [congruence|].
    rewrite lookup_insert_ne by done. by apply H2.
Qed.

Lemma learned_without d D n : learned d D → learned (without_name d n) (delete n D).
Proof.
  intros [H1 H2]. split; cbn.
  - intros n' i'. rewrite lookup_delete_Some. intros [Hne H]. rewrite lookup_delete_ne by done. by apply H1.
  - intros n' Hn Hd. apply lookup_delete_None. destruct (decide (n = n')) as [->|Hne]; [by left|right].
    apply elem_of_union in Hn as [Hs%elem_of_singleton|Hn]; [congruence|]. apply H2; [done|]. by rewrite lookup_delete_ne in Hd.
Qed.

Lemma learned_absent d D n : learned d D → D !! n = None → learned (without_name d n) D.
Proof. intros H Hn. rewrite <- (delete_id D n) by done. by apply learned_without. Qed.

Lemma not_present d D n : learned d D → D !! n = None → entries d !! n = None.
Proof. intros [H1 _] Hn. destruct (entries d !! n) as [i|] eqn:E; [|done]. apply H1 in E as (j & Hj & _). congruence. Qed.

Lemma not_contradicted d D n j : learned d D → D !! n = Some j → contradicts d n j = false.
Proof.
  intros [H1 H2] Hj. unfold contradicts. destruct (entries d !! n) as [i|] eqn:E.
  - destruct (H1 n i E) as (j' & Hj' & Hi). assert (j' = j) as -> by congruence. apply negb_false_iff, orb_true_iff.
    destruct Hi as [-> | ->]; [left|right]; apply Z.eqb_refl.
  - apply bool_decide_eq_false_2. intros Hk. rewrite H2 in Hj; done.
Qed.

Lemma list_page_learned d D page :
  learned d D → (∀ n i, (n, i) ∈ page → D !! n = Some i) → ∃ d', list_page page d = Some d' ∧ learned d' D.
Proof.
  revert d. induction page as [|[n i] page IH]; intros d Hd Hp; [by exists d|]. cbn [list_page].
  assert (D !! n = Some i) as Hn by (apply Hp; left). rewrite (not_contradicted d D) by done.
  apply IH; [by eapply learned_with; [| |right]|]. intros n' i' Hin. apply Hp. by right.
Qed.

Lemma ltb_asym a b : bytes_ltb a b = true → bytes_ltb b a = true → False.
Proof. unfold bytes_ltb. rewrite !negb_true_iff. intros H1 H2. destruct (leb_total a b); congruence. Qed.

Lemma sorted_split {A} (R : A → A → Prop) l k a b : StronglySorted R (l ++ k) → a ∈ l → b ∈ k → R a b.
Proof.
  induction l as [|x l IH]; intros Hs Ha Hb; [by apply elem_of_nil in Ha|]. apply StronglySorted_inv in Hs as [Hs Hx].
  apply elem_of_cons in Ha as [->|Ha]; [|by apply IH]. rewrite Forall_forall in Hx. apply Hx, elem_of_app. by right.
Qed.

(** No name of the directory is missing from the run a page covers. *)
Lemma page_misses_nothing D offset lo i page n :
  page_of D offset ((lo, i) :: page) → is_Some (D !! n) → n ∉ map fst ((lo, i) :: page) →
  (bytes_ltb lo n && bytes_ltb n (default lo (fst <$> last ((lo, i) :: page)))) || ((offset =? 0) && bytes_ltb n lo) = false.
Proof.
  intros (pre & post & [Hs Hl] & Hoff) [j Hj] Hn. set (pg := (lo, i) :: page) in *.
  assert ((lo, i) ∈ pg) as Hlo by left.
  assert (∃ x, last pg = Some x ∧ x ∈ pg) as (hi & Elast & Hhi).
  { destruct (last pg) as [x|] eqn:E; [|by apply last_None in E]. exists x. split; [done|]. by apply last_Some_elem_of in E. }
  rewrite Elast. cbn [fmap option_fmap option_map default id]. unfold id.
  apply Hl in Hj. apply elem_of_app in Hj as [Hpre|[Hpg|Hpost]%elem_of_app].
  - assert (bytes_ltb n lo = true) as Hlt.
    { apply (sorted_split _ _ _ (n, j) (lo, i) Hs Hpre). apply elem_of_app. by left. }
    destruct (offset =? 0) eqn:E0; [zbool; destruct (Hoff E0) as [-> _]; by apply elem_of_nil in Hpre|].
    rewrite orb_false_r. destruct (bytes_ltb lo n) eqn:E; [|done]. by destruct (ltb_asym lo n).
  - destruct Hn. apply list_elem_of_fmap. by exists (n, j).
  - rewrite app_assoc in Hs. assert (∀ x, x ∈ pg → bytes_ltb x.1 n = true) as Hlt.
    { intros x Hx. apply (sorted_split _ _ _ x (n, j) Hs); [|done]. apply elem_of_app. by right. }
    apply orb_false_iff. split.
    + destruct (bytes_ltb n hi.1) eqn:E; [|by rewrite andb_false_r]. destruct (ltb_asym n hi.1); [done|by apply Hlt].
    + destruct (bytes_ltb n lo) eqn:E; [|by rewrite andb_false_r]. destruct (ltb_asym n lo); [done|by apply (Hlt (lo, i))].
Qed.

Lemma readdir_learned d D op :
  learned d D → n_Errno op = 0 → page_of D (n_Offset op) (n_Entries op) → ∃ d', stepReaddir d op = (true, d') ∧ learned d' D.
Proof.
  intros Hd He Hp. unfold stepReaddir. rewrite He. cbn [Z.eqb negb].
  destruct (list_page_learned d D (n_Entries op)) as (d' & -> & Hd'); [done| |].
  { intros n i Hin. destruct Hp as (pre & post & [_ Hl] & _). apply Hl, elem_of_app. right. apply elem_of_app. by left. }
  destruct (n_Entries op) as [|[lo i] page] eqn:Ep.
  - destruct ((n_Offset op =? 0) && negb (bool_decide (entries d = ∅))) eqn:E; [|by exists d']. exfalso. zbool.
    destruct Hp as (pre & post & [_ Hl] & Hoff). destruct (Hoff ltac:(done)) as [-> Hpost]. rewrite Hpost in Hl by done.
    apply bool_decide_eq_false in H0. apply H0, map_empty. intros n. destruct (entries d !! n) as [x|] eqn:Ex; [|done].
    apply Hd in Ex as (j & Hj & _). apply Hl in Hj. by apply elem_of_nil in Hj.
  - match goal with |- context [existsb ?f ?l] => assert (existsb f l = false) as -> end; [|by exists d'].
    apply not_true_is_false. rewrite existsb_exists. intros (n & Hin & Hm). apply andb_true_iff in Hm as [Hnot Hm].
    apply list_elem_of_In, list_elem_of_fmap in Hin as ([n' x] & E & Hin%elem_of_map_to_list). cbn in E. subst n'.
    apply Hd in Hin as (j & Hj & _). apply negb_true_iff, bool_decide_eq_false in Hnot.
    rewrite (page_misses_nothing D (n_Offset op) lo i page n) in Hm; [done|done|by eexists|done].
Qed.

(** The model allows whatever a real directory does. *)
Lemma dir_step_learned d D op D' : learned d D → serves D op D' → ∃ d', dir_step d op = (true, d') ∧ learned d' D'.
Proof.
  intros Hd Hs. unfold dir_step.
  assert (∀ n, is_Some (D !! n) → bool_decide (n ∈ known d) && negb (bool_decide (is_Some (entries d !! n))) = false) as Hthere.
  { intros n [j Hj]. destruct (entries d !! n) as [i|] eqn:E.
    - rewrite (bool_decide_eq_true_2 (is_Some (Some i))) by eauto. apply andb_false_r.
    - rewrite (bool_decide_eq_false_2 (n ∈ known d)); [done|]. intros Hk. rewrite (le_absent _ _ Hd) in Hj; done. }
  assert (∀ n, D !! n = None → bool_decide (is_Some (entries d !! n)) = false) as Hgone.
  { intros n Hn. rewrite (not_present d D n) by done. by apply bool_decide_eq_false_2; intros []. }
  destruct Hs as [D op Hk He Hj|D op Hk He Hj|D op i Hk He Hj Hi|D op Hk He Hj|D op Hk He Hj|D op Hk He Hj
    |D op i Hk He Hp Hne Hj Hi|D op i Hk He Hn Hi|D op Hk He Hj|D op Hk He Hp|D op He1 He2 He3|D op He Hk|D op Hk He].
  - rewrite Hk, He. cbn. rewrite (not_contradicted d D) by done. eexists. split; [done|]. eapply learned_with; eauto.
  - rewrite Hk, He. cbn. rewrite Hgone by done. eexists. split; [done|]. by apply learned_absent.
  - destruct (n_Kind op) eqn:Ek; try discriminate Hk; rewrite He; cbn; rewrite Hgone by done; cbn;
      (eexists; split; [done|]; apply learned_insert; [done|]; destruct Hi as [-> | ->]; [destruct (i =? 0); auto|auto]).
  - destruct (n_Kind op) eqn:Ek; try discriminate Hk; rewrite He; cbn; rewrite Hthere by done; destruct Hj as [j Hj];
      (eexists; split; [done|]; eapply learned_with; eauto).
  - destruct Hk as [Hk|Hk]; rewrite Hk, He; cbn; rewrite Hthere by done; (eexists; split; [done|]; by apply learned_without).
  - destruct Hk as [Hk|Hk]; rewrite Hk, He; cbn; rewrite Hgone by done; (eexists; split; [done|]; by apply learned_absent).
  - rewrite Hk, He, Hi, Hp. cbn. rewrite andb_false_r, Z.eqb_refl. cbn. rewrite (bool_decide_eq_false_2 (n_Name op = n_NewName op)) by done.
    cbn. eexists. split; [done|]. rewrite <- delete_insert_ne by done. apply learned_without, learned_insert; [done|by left].
  - rewrite Hk, He, Hn. cbn. rewrite andb_false_r, (bool_decide_eq_true_2 (n_NewName op = n_NewName op)), andb_false_r by done.
    eexists. split; [done|]. apply learned_insert; [done|]. by destruct Hi as [-> | ->]; left.
  - rewrite Hk, He. cbn. rewrite Hthere by done. destruct Hj as [j Hj]. eexists. split; [done|]. eapply learned_with; eauto.
  - rewrite Hk. by apply readdir_learned.
  - rewrite <- Z.eqb_neq in He1, He2, He3. unfold stepReaddir. destruct (n_Kind op); rewrite ?He1, ?He2, ?He3; by exists d.
  - assert (n_Errno op =? 0 = false) as E0 by (rewrite He; done). assert (n_Errno op =? errnoEEXIST = false) as E1 by (rewrite He; done).
    unfold stepReaddir. destruct (n_Kind op); rewrite ?E0, ?E1; try (by exists d); destruct Hk as [?|[?|?]]; done.
  - destruct Hk as [Hk|Hk]; rewrite Hk, He; by exists d.
Qed.

(** *** Whole histories *)

(** What an operation is to one directory. *)
Definition half (d : Z) (o : operation Op) : option (operation Op) :=
  let op := Input o in
  if bool_decide (n_Kind op = KindRename) && negb (n_Parent op =? n_NewParent op) then
    if n_Parent op =? d then Some (withInput o (splitRename op).1)
    else if n_NewParent op =? d then Some (withInput o (splitRename op).2) else None
  else if n_Parent op =? d then Some o else None.

Lemma filter_halves d h : map snd (filter (λ x, x.1 = d) (concat (map dir_halves h))) = omap (half d) h.
Proof.
  induction h as [|o h IH]; [done|]. cbn [map concat]. rewrite filter_app, map_app, IH. csimpl.
  unfold dir_halves, half. destruct (bool_decide _ && negb (n_Parent (Input o) =? n_NewParent (Input o))) eqn:E; cbn [splitRename fst snd].
  - zbool. rewrite !filter_cons, filter_nil. cbn [fst].
    destruct (Z.eqb_spec (n_Parent (Input o)) d) as [E1|E1]; destruct (Z.eqb_spec (n_NewParent (Input o)) d) as [E2|E2].
    + congruence.
    + by rewrite decide_True, decide_False.
    + by rewrite decide_False, decide_True.
    + by rewrite !decide_False.
  - rewrite !filter_cons, filter_nil. cbn [fst]. destruct (Z.eqb_spec (n_Parent (Input o)) d); [by rewrite decide_True|by rewrite decide_False].
Qed.

Lemma half_times d o o' : half d o = Some o' → o_Call o' = o_Call o ∧ o_Return o' = o_Return o.
Proof. unfold half. repeat case_match; by intros [= <-]. Qed.

Lemma real_time_half d h : real_time h → real_time (omap (half d) h).
Proof.
  induction 1 as [|o h Hs IH Ho]; csimpl; [constructor|]. destruct (half d o) as [o'|] eqn:E; [|done]. constructor; [done|].
  apply half_times in E as [Ec _]. clear IH Hs. induction Ho as [|b h Hb _ IH]; csimpl; [constructor|].
  destruct (half d b) as [b'|] eqn:Eb; [|done]. apply half_times in Eb as [_ Er]. constructor; [by rewrite Ec, Er|done].
Qed.

Lemma omap_perm {A B} (f : A → option B) l k : l ≡ₚ k → omap f l ≡ₚ omap f k.
Proof.
  induction 1 as [|x l k _ IH|x y l|l1 l2 l3 _ IH1 _ IH2]; csimpl; [done| | |by etrans].
  - destruct (f x); [by constructor|done].
  - destruct (f x), (f y); try done. constructor.
Qed.

Lemma learned_new D : learned newDirState D.
Proof.
  split; unfold newDirState; cbn [entries known].
  - intros n i Hn. by rewrite lookup_empty in Hn.
  - intros n Hn. by apply not_elem_of_empty in Hn.
Qed.

(** A history that took place: from some directories on, each operation in turn
    is answered by the directories it touches, a rename by both at once. *)
Inductive took_place : (Z → gmap bytes Z) → list (operation Op) → Prop :=
| T_nil N : took_place N []
| T_cons N o h N' :
    (∀ d, match half d o with Some o' => serves (N d) (Input o') (N' d) | None => N' d = N d end) →
    took_place N' h → took_place N (o :: h).

Lemma took_place_accepted N h d s :
  took_place N h → learned s (N d) → accepts dir_step s (map Input (omap (half d) h)) = true.
Proof.
  intros Ht. revert s. induction Ht as [|N o h N' Ho _ IH]; intros s Hs; csimpl; [done|]. specialize (Ho d).
  destruct (half d o) as [o'|]; [|apply IH; by rewrite Ho]. cbn [map accepts].
  destruct (dir_step_learned s (N d) (Input o') (N' d) Hs Ho) as (s' & -> & Hs'). by apply IH.
Qed.

(** *** A small history *)

(** An operation of node [n1] between two times. *)
Definition ns_op (k : Kind) (parent : Z) (name : bytes) (newParent : Z) (newName : bytes) (ino errno call ret : Z) : operation Op :=
  mkOperation 0 (mkOp k (lit "n1") parent name newParent newName ino [] 0 errno call ret) call ret.

(** A file is moved from directory 1 to directory 2 while it is looked up
    there. *)
Definition move_op : operation Op := ns_op KindRename 1 (lit "a") 2 (lit "b") 0 0 0 10.
Definition found_op : operation Op := ns_op KindLookup 2 (lit "b") 0 [] 5 0 5 20.
Definition before_move (d : Z) : gmap bytes Z := if d =? 1 then {[lit "a" := 5]} else ∅.
Definition after_move (d : Z) : gmap bytes Z := if d =? 2 then {[lit "b" := 5]} else ∅.

Lemma half_move d : half d move_op =
  if 1 =? d then Some (withInput move_op (splitRename (Input move_op)).1)
  else if 2 =? d then Some (withInput move_op (splitRename (Input move_op)).2) else None.
Proof. reflexivity. Qed.
Lemma half_found d : half d found_op = if 2 =? d then Some found_op else None.
Proof. reflexivity. Qed.

Lemma move_took_place : took_place before_move [move_op; found_op].
Proof.
  apply (T_cons _ _ _ after_move); [|apply (T_cons _ _ _ after_move); [|constructor]]; intros d; rewrite ?half_move, ?half_found.
  - unfold before_move, after_move. destruct (Z.eqb_spec 1 d) as [<-|H1]; [|destruct (Z.eqb_spec 2 d) as [<-|H2]].
    + replace (if 1 =? 2 then {[lit "b" := 5]} else ∅) with (delete (lit "a") {[lit "a" := 5]} : gmap bytes Z)
        by (by rewrite delete_singleton_eq).
      apply S_removed; [by left|done|]. exists 5. by apply lookup_singleton_eq.
    + apply (S_arrived ∅ (splitRename (Input move_op)).2 5); auto.
    + by rewrite (proj2 (Z.eqb_neq d 1)), (proj2 (Z.eqb_neq d 2)) by lia.
  - destruct (Z.eqb_spec 2 d) as [<-|H2]; [|done]. apply S_found; [done|done|]. by apply lookup_singleton_eq.
Qed.



(** *** What is turned down *)

(** A create whose reply was lost answers EIO, and the name is found
    afterwards: the model keeps the name as absent and reports the lookup. *)
Lemma lost_reply_reported :
  @Check brute_force _ NamespaceModel
    [ns_op KindLookup 1 (lit "a") 0 [] 0 errnoENOENT 0 1; ns_op KindCreate 1 (lit "a") 0 [] 0 5 2 3; ns_op KindLookup 1 (lit "a") 0 [] 7 0 4 5]
    AllLinearizable 0 1 = Illegal.
Proof. by vm_compute. Qed.

(** handleRename answers EEXIST for every failure of AtomicRename that has no
    error number of its own, also where no name is in the way; the model takes
    the answer at its word. *)
Lemma failed_rename_reported :
  @Check brute_force _ NamespaceModel
    [ns_op KindLookup 1 (lit "b") 0 [] 0 errnoENOENT 0 1; ns_op KindRename 1 (lit "a") 1 (lit "b") 0 errnoEEXIST 2 3]
    AllLinearizable 0 1 = Illegal.
Proof. by vm_compute. Qed.

(** ** Bytes *)

(** What a file that holds [F] may answer, and what it holds then; data ends
    below 2^64.  A truncation or a punched range leaves unsaid what is read there. *)
Inductive fserves : (Z → Z) → ExtentOp → (Z → Z) → Prop :=
| F_failed F op : x_Errno op ≠ 0 → fserves F op F
| F_written F op F' : x_Errno op = 0 → x_Kind op = ExtentWrite → x_Off op + Z.of_nat (length (x_Data op)) <= 2 ^ 64 - 1 →
    (∀ i b, x_Data op !! i = Some b → F' (x_Off op + Z.of_nat i) = b) →
    (∀ pos, pos < x_Off op ∨ x_Off op + Z.of_nat (length (x_Data op)) <= pos → F' pos = F pos) → fserves F op F'
| F_read F op : x_Errno op = 0 → x_Kind op = ExtentRead → x_Off op + Z.of_nat (length (x_Data op)) <= 2 ^ 64 - 1 →
    (∀ i b, x_Data op !! i = Some b → F (x_Off op + Z.of_nat i) = b) → fserves F op F
| F_truncated F op F' : x_Errno op = 0 → x_Kind op = ExtentTruncate → (∀ pos, pos < x_Off op → F' pos = F pos) → fserves F op F'
| F_punched F op F' : x_Errno op = 0 → x_Kind op = ExtentInvalidate →
    (∀ pos, ¬ (x_Off op <= pos < add64 (x_Off op) (x_Len op)) → F' pos = F pos) → fserves F op F'
| F_synced F op : x_Errno op = 0 → x_Kind op = ExtentFsync → fserves F op F.

Definition bytes_learned (s : gmap Z cell) (F : Z → Z) : Prop := ∀ pos c, s !! pos = Some c → F pos = c_b c.

(** Writing: the positions written so far hold the data, the others what they
    held. *)
Lemma write_cells op pos data s F F' :
  x_Kind op = ExtentWrite → 0 <= pos → pos + Z.of_nat (length data) <= 2 ^ 64 - 1 →
  (∀ p c, s !! p = Some c → (p < pos → F' p = c_b c) ∧ (pos <= p → F p = c_b c)) →
  (∀ i b, data !! i = Some b → F' (pos + Z.of_nat i) = b) →
  (∀ p, pos + Z.of_nat (length data) <= p → F' p = F p) →
  ∃ s', data_cells ∅ op pos data s = Some s' ∧ bytes_learned s' F'.
Proof.
  intros Hk. revert pos s. induction data as [|b data IH]; intros pos s Hpos Hlen Hs Hd Ho; cbn [data_cells].
  { exists s. split; [done|]. intros p c Hc. destruct (Hs p c Hc) as [H1 H2]. destruct (decide (p < pos)); [by apply H1|].
    rewrite Ho; [apply H2; lia|]. cbn. lia. }
  rewrite bool_decide_eq_true_2 by done. cbn [length] in *. rewrite add64_small by lia. apply IH; [lia|lia| | |].
  - intros p c. rewrite lookup_insert_Some. intros [[<- <-]|[Hne Hc]].
    + split; [|lia]. intros _. cbn. specialize (Hd 0%nat b eq_refl). by rewrite Z.add_0_r in Hd.
    + destruct (Hs p c Hc) as [H1 H2]. split; intros; [apply H1|apply H2]; lia.
  - intros i b' Hi. specialize (Hd (S i) b' Hi). by replace (pos + 1 + Z.of_nat i) with (pos + Z.of_nat (S i)) by lia.
  - intros p Hp. apply Ho. lia.
Qed.

Lemma read_cells op pos data s F :
  x_Kind op = ExtentRead → 0 <= pos → pos + Z.of_nat (length data) <= 2 ^ 64 - 1 → bytes_learned s F →
  (∀ i b, data !! i = Some b → F (pos + Z.of_nat i) = b) →
  ∃ s', data_cells ∅ op pos data s = Some s' ∧ bytes_learned s' F.
Proof.
  intros Hk. revert pos s. induction data as [|b data IH]; intros pos s Hpos Hlen Hs Hd; cbn [data_cells]; [by exists s|].
  rewrite bool_decide_eq_false_2 by congruence. cbn [length] in *. rewrite add64_small by lia.
  assert (F pos = b) as Hb by (specialize (Hd 0%nat b eq_refl); by rewrite Z.add_0_r in Hd).
  assert (read_cell ∅ op b (s !! pos) = Some (mkCell b [] true)) as ->.
  { unfold read_cell. destruct (s !! pos) as [k|] eqn:E; [|done]. apply Hs in E. by rewrite (proj2 (Z.eqb_eq _ _)) by lia. }
  cbn [mbind option_bind]. apply IH; [lia|lia| |].
  - intros p c. rewrite lookup_insert_Some. intros [[<- <-]|[_ Hc]]; [done|by apply Hs].
  - intros i b' Hi. specialize (Hd (S i) b' Hi). by replace (pos + 1 + Z.of_nat i) with (pos + Z.of_nat (S i)) by lia.
Qed.

Lemma byte_step_learned s F op F' :
  0 <= x_Off op → bytes_learned s F → fserves F op F' → ∃ s', byte_step ∅ s op = (true, s') ∧ bytes_learned s' F'.
Proof.
  intros Hoff Hs Hf. unfold byte_step.
  destruct Hf as [F op He|F op F' He Hk Hl Hd Ho|F op He Hk Hl Hd|F op F' He Hk Ho|F op F' He Hk Ho|F op He Hk].
  - rewrite (proj2 (Z.eqb_neq _ _)) by done. by exists s.
  - rewrite He, Hk. cbn [Z.eqb negb]. destruct (write_cells op (x_Off op) (x_Data op) s F F') as (s' & -> & Hs'); try done.
    + intros p c Hc. split; intros; [rewrite Ho by lia|]; by apply Hs.
    + intros p Hp. apply Ho. by right.
    + by exists s'.
  - rewrite He, Hk. cbn [Z.eqb negb]. destruct (read_cells op (x_Off op) (x_Data op) s F) as (s' & -> & Hs'); try done. by exists s'.
  - rewrite He, Hk. cbn [Z.eqb negb]. eexists. split; [done|]. intros p c [Hc Hp]%map_lookup_filter_Some. cbn in Hp.
    rewrite Ho by done. by apply Hs.
  - rewrite He, Hk. cbn [Z.eqb negb]. eexists. split; [done|]. intros p c [Hc Hp]%map_lookup_filter_Some. cbn [fst] in Hp.
    rewrite Ho by done. by apply Hs.
  - rewrite He, Hk. cbn [Z.eqb negb]. eexists. split; [done|]. intros p c. rewrite lookup_fmap_Some. intros (c' & <- & Hc).
    apply Hs in Hc. by case_match.
Qed.

(** A history of files that took place. *)
Inductive data_took_place : (Z → Z → Z) → list (operation ExtentOp) → Prop :=
| DT_nil FS : data_took_place FS []
| DT_cons FS o h FS' :
    0 <= x_Off (Input o) → fserves (FS (x_Ino (Input o))) (Input o) (FS' (x_Ino (Input o))) →
    (∀ ino, ino ≠ x_Ino (Input o) → FS' ino = FS ino) → data_took_place FS' h → data_took_place FS (o :: h).

Lemma data_took_place_accepted FS h ino s :
  data_took_place FS h → bytes_learned s (FS ino) →
  accepts (byte_step ∅) s (map Input (filter (λ o, x_Ino (Input o) = ino) h)) = true.
Proof.
  intros Ht. revert s. induction Ht as [|FS o h FS' Hoff Ho Hother _ IH]; intros s Hs; [done|]. rewrite filter_cons.
  destruct (decide (x_Ino (Input o) = ino)) as [<-|Hne]; [|apply IH; by rewrite Hother]. cbn [map accepts].
  destruct (byte_step_learned s _ _ _ Hoff Hs Ho) as (s' & -> & Hs'). by apply IH.
Qed.

Lemma real_time_filter {I} (P : operation I → Prop) `{∀ o, Decision (P o)} h : real_time h → real_time (filter P h).
Proof.
  unfold real_time. induction 1 as [|o h Hs IH Ho]; [constructor|]. rewrite filter_cons. case_decide; [|done].
  constructor; [done|]. rewrite Forall_forall in *. intros b [_ Hb]%list_elem_of_filter. by apply Ho.
Qed.

(** The byte check raises no false alarm on a run without crashes: a history
    of writes, reads, truncations, punched holes and syncs that took place in
    some order within the recorded times, over files of any content, is never
    reported as a violation. *)
Theorem extent_no_false_alarm `{Porcupine} FS ops h' timeout
  (Hperm : h' ≡ₚ extentOperations ops) (Horder : real_time h') (Hreal : data_took_place FS h') :
  CheckExtents ops ∅ timeout ≠ Illegal.
Proof.
  unfold CheckExtents. intros Hbad%porcupine_illegal. apply Hbad. apply Forall_forall. cbn [Partition ExtentModel].
  intros p (ino & -> & _)%elem_of_group_by. exists (filter (λ o, x_Ino (Input o) = ino) h'). split; [by rewrite Hperm|].
  split; [by apply real_time_filter|]. cbn [Step Init ExtentModel]. apply (data_took_place_accepted FS); [done|].
  intros pos c Hc. by rewrite lookup_empty in Hc.
Qed.

(** Node [n1] writes a byte that nothing made durable, crashes and comes back:
    its own read of the old byte is reported, because the excuse is only given
    to other nodes and node names do not tell incarnations apart. *)
Lemma restarted_reader_reported :
  let written := mkExtentOp (lit "n1") 9 ExtentWrite 0 1 [7] 0 0 1 in
  let reread := mkExtentOp (lit "n1") 9 ExtentRead 0 1 [0] 0 4 5 in
  @CheckExtents brute_force [written; reread] {[lit "n1"]} 1 = Illegal ∧
  @CheckExtents brute_force [written; mkExtentOp (lit "n2") 9 ExtentRead 0 1 [0] 0 4 5] {[lit "n1"]} 1 = POk.
Proof. by vm_compute. Qed.

(** ** Blocks *)

Definition covers (op : BlockOp) (off : Z) : Prop := off ∈ block_offsets (b_DiskOff op) (b_Length op).
Definition reserves (op : BlockOp) : Prop := b_Crash op = false ∧ b_Reserve op = true.
Definition frees (op : BlockOp) : Prop := b_Crash op = false ∧ b_Reserve op = false.
#[global] Instance covers_dec op off : Decision (covers op off).
Proof. unfold covers. apply _. Defined.
#[global] Instance reserves_dec op : Decision (reserves op).
Proof. unfold reserves. apply _. Defined.
#[global] Instance frees_dec op : Decision (frees op).
Proof. unfold frees. apply _. Defined.

(** A block that a named node has reserved is reserved again only after it was
    freed or the node crashed; one that was freed is freed again only after it
    was reserved. *)
Definition one_owner (ops : list BlockOp) : Prop := ∀ l1 a l2 b l3 off,
  ops = l1 ++ a :: l2 ++ b :: l3 → covers a off → covers b off → b_Node a ≠ [] →
  (reserves a → reserves b → Exists (λ c, covers c off ∧ (frees c ∨ (b_Crash c = true ∧ b_Node c = b_Node a))) l2) ∧
  (frees a → frees b → Exists (λ c, covers c off ∧ (reserves c ∨ (b_Crash c = true ∧ b_Node c = []))) l2).

Lemma block_offsets_nodup off len : NoDup (block_offsets off len).
Proof.
  unfold block_offsets. case_match; [constructor|]. apply NoDup_fmap_2; [|apply NoDup_seq].
  intros i j E. unfold blockSize in E. lia.
Qed.

Lemma block_cells_spec op offs s s' off : NoDup offs → block_cells op offs s = Some s' →
  (off ∈ offs → block_cell op (s !! off) = Some (s' !! off)) ∧ (off ∉ offs → s' !! off = s !! off).
Proof.
  intros Hn. revert s. induction Hn as [|o offs Ho Hn IH]; intros s; cbn [block_cells].
  { intros [= <-]. split; [by intros ?%elem_of_nil|done]. }
  destruct (block_cell op (s !! o)) as [c|] eqn:Ec; [|done]. cbn [mbind option_bind]. intros [H1 H2]%IH. split.
  - intros [->|Hin]%elem_of_cons; [by rewrite H2, lookup_partial_alter_eq|].
    rewrite lookup_partial_alter_ne in H1 by (intros ->; done). by apply H1.
  - intros [Hne Hnot]%not_elem_of_cons. by rewrite H2, lookup_partial_alter_ne.
Qed.

Lemma block_step_spec s op s' off : block_step s op = (true, s') →
  (covers op off → block_cell op (s !! off) = Some (s' !! off)) ∧ (¬ covers op off → s' !! off = s !! off).
Proof.
  unfold block_step. destruct (block_cells _ _ s) as [t|] eqn:E; [|done]. intros [= <-].
  apply (block_cells_spec _ _ _ _ off) in E; [done|apply block_offsets_nodup].
Qed.

Lemma accepts_app {I S} (step : S → I → bool * S) s l1 l2 : accepts step s (l1 ++ l2) = true →
  ∃ t, accepts step t l2 = true ∧ t = foldl (λ s i, (step s i).2) s l1 ∧ accepts step s l1 = true.
Proof.
  revert s. induction l1 as [|i l1 IH]; intros s; cbn [app accepts foldl]; [by exists s|].
  destruct (step s i) as [ok t]. intros [-> H]%andb_true_iff. apply IH in H as (u & Hu & -> & H1). by exists (foldl (λ s i, (step s i).2) t l1).
Qed.

(** A cell stays as it is while nothing changes it. *)
Lemma block_cell_stays ops s off v : accepts block_step s ops = true → s !! off = Some v →
  Forall (λ c, covers c off → block_cell c (Some v) = None ∨ block_cell c (Some v) = Some (Some v)) ops →
  foldl (λ s i, (block_step s i).2) s ops !! off = Some v.
Proof.
  revert s. induction ops as [|op ops IH]; intros s; cbn [accepts foldl]; [done|].
  destruct (block_step s op) as [ok t] eqn:E. intros [-> Ha]%andb_true_iff Hs [Ho Hops]%Forall_cons. apply IH; [done| |done].
  apply (block_step_spec _ _ _ off) in E as [H1 H2]. cbn [snd]. destruct (decide (covers op off)) as [Hc|Hc]; [|by rewrite H2].
  specialize (H1 Hc). rewrite Hs in H1. destruct (Ho Hc) as [Hx|Hx]; rewrite Hx in H1; congruence.
Qed.

Lemma block_accepts_one_owner ops s : accepts block_step s ops = true → one_owner ops.
Proof.
  intros Hacc l1 a l2 b l3 off -> Ha Hb Hna.
  apply accepts_app in Hacc as (s1 & Hacc & _ & _). cbn [accepts] in Hacc. destruct (block_step s1 a) as [ok t] eqn:Ea.
  apply andb_true_iff in Hacc as [-> Hacc]. apply accepts_app in Hacc as (s2 & Hacc & Hs2 & Hl2). cbn [accepts] in Hacc.
  destruct (block_step s2 b) as [ok u] eqn:Eb. apply andb_true_iff in Hacc as [-> _].
  apply (block_step_spec _ _ _ off) in Ea as [Ea _], Eb as [Eb _]. specialize (Ea Ha). specialize (Eb Hb).
  assert (∀ v P, t !! off = Some v → (∀ c, covers c off → ¬ P c → block_cell c (Some v) = None ∨ block_cell c (Some v) = Some (Some v)) →
    block_cell b (Some v) = None → (∀ c, Decision (P c)) → Exists (λ c, covers c off ∧ P c) l2) as Hkey.
  { intros v P Ht Hstay Hbad HP. destruct (decide (Exists (λ c, covers c off ∧ P c) l2)) as [H|H]; [done|]. exfalso.
    assert (s2 !! off = Some v) as Hv; [|rewrite Hv, Hbad in Eb; done]. rewrite Hs2. apply block_cell_stays; [done|done|].
    apply Forall_forall. intros c Hc Hcov. apply Hstay; [done|]. intros Hp. apply H, Exists_exists. by exists c. }
  split.
  - intros [Ra1 Ra2] [Rb1 Rb2]. unfold block_cell in Ea. rewrite Ra1, Ra2 in Ea.
    assert (t !! off = Some (b_Node a)) as Ht by (destruct (s1 !! off) as [w|]; [case_bool_decide|]; congruence).
    apply (Hkey (b_Node a)); [done| | |apply _].
    + intros c Hc Hn. unfold block_cell. rewrite (bool_decide_eq_false_2 (b_Node a = blockFree)) by done.
      destruct (b_Crash c) eqn:Ec; [|destruct (b_Reserve c) eqn:Er; [by left|]].
      * right. rewrite bool_decide_eq_false_2; [done|]. intros [= E]. apply Hn. right. by split.
      * destruct Hn. left. by split.
    + unfold block_cell. rewrite Rb1, Rb2. by rewrite (bool_decide_eq_false_2 (b_Node a = blockFree)) by done.
  - intros [Ra1 Ra2] [Rb1 Rb2]. unfold block_cell in Ea. rewrite Ra1, Ra2 in Ea.
    assert (t !! off = Some blockFree) as Ht by (destruct (s1 !! off) as [w|]; [case_bool_decide|]; congruence).
    apply (Hkey blockFree); [done| | |apply _].
    + intros c Hc Hn. unfold block_cell. rewrite (bool_decide_eq_true_2 (blockFree = blockFree)) by done.
      destruct (b_Crash c) eqn:Ec; [|destruct (b_Reserve c) eqn:Er; [|by left]].
      * right. rewrite bool_decide_eq_false_2; [done|]. intros [= E]. apply Hn. right. by split.
      * destruct Hn. left. by split.
    + unfold block_cell. rewrite Rb1, Rb2. by rewrite (bool_decide_eq_true_2 (blockFree = blockFree)) by done.
Qed.

(** ** What a clean run of the command means *)

(** Page caches: each release of a key by a node that invalidates pages has an
    invalidation before it, the last such one not having failed. *)
Lemma match_invals_spec l floor upto m0 m rest :
  match_invals l floor upto m0 = (m, rest) →
  (m = m0 ∨ ∃ iv, m = Some iv ∧ iv ∈ l ∧ floor <= p_Ret iv <= upto) ∧ ∃ pre, l = pre ++ rest.
Proof.
  revert m0. induction l as [|iv l IH]; intros m0; cbn [match_invals].
  { intros [= <- <-]. split; [by left|by exists []]. }
  destruct (Z.leb_spec (p_Ret iv) upto) as [Hu|Hu]; [|intros [= <- <-]; split; [by left|by exists []]].
  intros H. destruct (IH _ H) as [Hm [pre ->]]. split; [|by exists (iv :: pre)].
  destruct Hm as [->|(iv' & -> & Hin & Hf)]; [|right; exists iv'; split; [done|split; [by right|done]]].
  destruct (Z.leb_spec floor (p_Ret iv)); [|by left]. right. exists iv. split; [done|]. split; [by left|lia].
Qed.

Definition pages_dropped (l : list PageInvalOp) (rel : LockOp) : Prop :=
  ∃ iv, iv ∈ l ∧ p_Ret iv <= actualCall rel ∧ p_Outcome iv ≠ pageInvalFailed.

Lemma check_releases_silent node ino floor l rels :
  check_releases node ino floor l rels = [] → Forall (pages_dropped l) rels.
Proof.
  revert floor l. induction rels as [|rel rels IH]; intros floor l; cbn [check_releases]; [done|].
  destruct (match_invals l floor (actualCall rel) None) as [m rest] eqn:E. apply match_invals_spec in E as [Hm [pre ->]].
  intros [Hf Hr]%app_eq_nil. constructor.
  - destruct Hm as [->|(iv & -> & Hin & Hi)]; [done|]. exists iv. split; [done|]. split; [lia|]. intros Ho.
    by rewrite (proj2 (Z.eqb_eq _ _) Ho) in Hf.
  - eapply Forall_impl; [by apply (IH (l_Ret rel))|]. intros r (iv & Hin & H). exists iv. split; [|done]. apply elem_of_app. by right.
Qed.

Lemma page_cache_silent keys invals : CheckPageCache keys invals = [] →
  ∀ rel, rel ∈ keys → is_acquire (l_Kind rel) = false → l_Node rel ∈ map p_Node invals →
  ∃ iv, iv ∈ invals ∧ p_Node iv = l_Node rel ∧ p_Ino iv = l_Ino rel ∧ p_Ret iv <= actualCall rel ∧ p_Outcome iv ≠ pageInvalFailed.
Proof.
  unfold CheckPageCache. intros H rel Hrel Ha Hn. set (releases := filter _ keys) in *. assert (rel ∈ releases) as Hin by (apply list_elem_of_filter; done).
  assert (Forall (λ v, v = []) (map (λ k : bytes * Z, check_releases k.1 k.2 0
      (merge_sort by_ret (filter (λ iv, (p_Node iv, p_Ino iv) = k) invals))
      (merge_sort by_call (filter (λ o, (l_Node o, l_Ino o) = k) releases)))
    (remove_dups (map (λ o, (l_Node o, l_Ino o)) releases)))) as Hall.
  { apply concat_nil_Forall, Permutation_nil_r. etrans; [symmetry; apply (merge_sort_Permutation by_release)|]. by rewrite H. }
  rewrite Forall_map, Forall_forall in Hall. specialize (Hall (l_Node rel, l_Ino rel)).
  assert ((l_Node rel, l_Ino rel) ∈ remove_dups (map (λ o, (l_Node o, l_Ino o)) releases)) as Hk.
  { apply elem_of_remove_dups, list_elem_of_fmap. by exists rel. }
  apply Hall, check_releases_silent in Hk. rewrite Forall_forall in Hk.
  destruct (Hk rel) as (iv & Hiv & H1 & H2).
  { rewrite merge_sort_Permutation. apply list_elem_of_filter. done. }
  rewrite merge_sort_Permutation in Hiv. apply list_elem_of_filter in Hiv as [[= E1 E2] Hiv]. by exists iv.
Qed.

Lemma default_models : map TrimSpace (split_on comma allModels) =
  [lit "namespace"; lit "extent"; lit "lock"; lit "lockkey"; lit "block"; lit "pagecache"; lit "generation"].
Proof. by vm_compute. Qed.


Lemma checked {A} (d : option A) (f : A → bool) : default false (x ← d; Some (f x)) = true → ∃ x, d = Some x ∧ f x = true.
Proof. destruct d as [x|]; [|done]. by exists x. Qed.
Definition reported (r : CheckResult) : bool := match r with POk => true | _ => false end.
Lemma reported_ok r : reported r = true → r = POk.
Proof. by destruct r. Qed.


