(* ===== verification/Served.v ===== *)
(** * Served requests, as the checkers read them

    Models [opName] and [observedDispatch] of internal/ipc/socket.go and
    [recordRelease] of internal/ipc/lockcache.go: every request a daemon serves
    is recorded with the times around it.  The checkers decode such an entry with
    readers of their own; they see the fields the handler read and the answer the
    client was given, and never fail on a request the daemon could parse. *)

From S2P Require Import Prelude Etcd Schema Locks Service DataPath LockCache Wire WireProps NodeCaches Daemon Handlers HandlerProps History.

(** ** Recording *)

Definition op_name (o : opcode) : bytes :=
  match o with
  | ipcOpLookup => lit "lookup" | ipcOpGetattr => lit "getattr" | ipcOpReaddir => lit "readdir"
  | ipcOpReadDirPlus => lit "readdirplus" | ipcOpReadlink => lit "readlink" | ipcOpStatfs => lit "statfs"
  | ipcOpRead => lit "read" | ipcOpCreate => lit "create" | ipcOpMkdir => lit "mkdir" | ipcOpUnlink => lit "unlink"
  | ipcOpRmdir => lit "rmdir" | ipcOpRename => lit "rename" | ipcOpWrite => lit "write" | ipcOpSetattr => lit "setattr"
  | ipcOpSymlink => lit "symlink" | ipcOpLink => lit "link" | ipcOpMknod => lit "mknod" | ipcOpSetxattr => lit "setxattr"
  | ipcOpGetxattr => lit "getxattr" | ipcOpListxattr => lit "listxattr" | ipcOpRemovexattr => lit "removexattr"
  | ipcOpLseek => lit "lseek" | ipcOpFallocate => lit "fallocate" | ipcOpOpen => lit "open" | ipcOpOpendir => lit "opendir"
  | ipcOpRelease => lit "release" | ipcOpReleasedir => lit "releasedir" | ipcOpFlush => lit "flush"
  | ipcOpFsync => lit "fsync" | ipcOpAlloc => lit "alloc" | ipcOpCommit => lit "commit"
  end.
Definition opName (code : Z) : bytes := match find_op code with Some o => op_name o | None => lit "unknown" end.

Definition observedDispatch (r : option bytes) (code : Z) (payload : bytes) (file : list History.Entry)
  : dmn (bytes * list History.Entry) :=
  start ⇝ now_d;
  resp ⇝ dispatch code payload;
  stop ⇝ now_d;
  dret (resp, Record_ r (opName code) code start stop payload resp file).

(** The end of a key's hold: from when it was acquired, if the key was found
    gone. *)
Definition recordRelease (r : option bytes) (e : lockEntry) (owed : LockRelease) (wasHeld : bool) (call ret : Z)
  : list History.Entry → list History.Entry :=
  recordKeyEvent r (e_ino e) (rel_mode owed) lockEventRelease (if wasHeld then call else acquiredAt e) ret call.

(** ** Bytes and fields *)

Lemma foldl_decode a b : foldl (λ a x, a * 256 + x) a b = a * 256 ^ Z.of_nat (length b) + be_decode b.
Proof.
  unfold be_decode. revert a. induction b as [|y b IH]; intros a; cbn [foldl length]; [lia|].
  rewrite (IH (a * 256 + y)), (IH (0 * 256 + y)), Nat2Z.inj_succ, Z.pow_succ_r by lia. lia.
Qed.
Lemma be_decode_cons x b : be_decode (x :: b) = x * 256 ^ Z.of_nat (length b) + be_decode b.
Proof. unfold be_decode at 1. cbn [foldl]. by rewrite foldl_decode. Qed.

Lemma be_decode_range b : Forall is_byte b → 0 <= be_decode b < 256 ^ Z.of_nat (length b).
Proof.
  induction 1 as [|x b Hx _ IH]; [done|]. rewrite be_decode_cons. cbn [length]. rewrite Nat2Z.inj_succ, Z.pow_succ_r by lia.
  unfold is_byte in Hx. nia.
Qed.

Lemma be_decode_inj a b :
  Forall is_byte a → Forall is_byte b → length a = length b → be_decode a = be_decode b → a = b.
Proof.
  intros Ha. revert b. induction Ha as [|x a Hx Ha IH]; intros [|y b] Hb Hl E; try done. apply Forall_cons in Hb as [Hy Hb].
  injection Hl as Hl. rewrite !be_decode_cons, Hl in E.
  pose proof (be_decode_range a Ha) as Ra. pose proof (be_decode_range b Hb) as Rb. rewrite Hl in Ra.
  assert (x = y) as -> by nia. f_equal. apply IH; [done|done|lia].
Qed.

Lemma be_of_decode b : Forall is_byte b → be (length b) (be_decode b) = b.
Proof.
  intros Hb. apply be_decode_inj; [apply be_bytes|done|apply length_be|]. rewrite be_decode_be.
  apply Z.mod_small, be_decode_range, Hb.
Qed.

Lemma w64_of_decode b : Forall is_byte b → length b = 8%nat → w64 (be_decode b) = b ∧ is_u64 (be_decode b).
Proof.
  intros Hb Hl. pose proof (be_decode_range b Hb) as Hr. rewrite Hl in Hr. change (256 ^ Z.of_nat 8) with (2 ^ 64) in Hr.
  split; [|done]. unfold w64, wrap64. rewrite Z.mod_small by done. rewrite <- Hl. by apply be_of_decode.
Qed.
Lemma w32_of_decode b : Forall is_byte b → length b = 4%nat → w32 (be_decode b) = b ∧ 0 <= be_decode b < 2 ^ 32.
Proof.
  intros Hb Hl. pose proof (be_decode_range b Hb) as Hr. rewrite Hl in Hr. change (256 ^ Z.of_nat 4) with (2 ^ 32) in Hr.
  split; [|done]. unfold w32, wrap32. rewrite Z.mod_small by done. rewrite <- Hl. by apply be_of_decode.
Qed.

(** A read that succeeds has cut off what it read. *)
Lemma take_n_inv n b x r :
  take_n n (mkReader b true) = (x, r) → r_ok r = true →
  ∃ y rest, x = Some y ∧ r = mkReader rest true ∧ b = y ++ rest ∧ Z.of_nat (length y) = n.
Proof.
  unfold take_n. cbn [r_ok r_b negb orb]. destruct ((n <? 0) || (Z.of_nat (length b) <? n)) eqn:E; intros [= <- <-] Hok; [done|]. zbool.
  exists (take (Z.to_nat n) b), (drop (Z.to_nat n) b). rewrite take_drop, length_take. split_and!; [done..|lia].
Qed.

Lemma take_n_false n b : take_n n (mkReader b false) = (None, mkReader b false).
Proof. done. Qed.

Lemma u64_inv b v r : Forall is_byte b → u64 (mkReader b true) = (v, r) → r_ok r = true →
  ∃ rest, r = mkReader rest true ∧ b = w64 v ++ rest ∧ is_u64 v ∧ Forall is_byte rest.
Proof.
  intros Hb. unfold u64. destruct (take_n 8 (mkReader b true)) as [x r'] eqn:E. intros [= <- <-] Hok.
  destruct (take_n_inv _ _ _ _ E Hok) as (y & rest & -> & -> & -> & Hl). apply Forall_app in Hb as [Hy Hr].
  destruct (w64_of_decode y Hy) as [-> Hv]; [lia|]. by exists rest.
Qed.
Lemma u32_inv b v r : Forall is_byte b → u32 (mkReader b true) = (v, r) → r_ok r = true →
  ∃ rest, r = mkReader rest true ∧ b = w32 v ++ rest ∧ 0 <= v < 2 ^ 32 ∧ Forall is_byte rest.
Proof.
  intros Hb. unfold u32. destruct (take_n 4 (mkReader b true)) as [x r'] eqn:E. intros [= <- <-] Hok.
  destruct (take_n_inv _ _ _ _ E Hok) as (y & rest & -> & -> & -> & Hl). apply Forall_app in Hb as [Hy Hr].
  destruct (w32_of_decode y Hy) as [-> Hv]; [lia|]. by exists rest.
Qed.

(** The same kind of field. *)
Definition alike (k f : field) : Prop :=
  match k, f with F32 _, F32 _ | F64 _, F64 _ | FBytes _, FBytes _ => True | _, _ => False end.

Lemma read_field_inv k b f r : Forall is_byte b → read_field k (mkReader b true) = (f, r) → r_ok r = true →
  ∃ rest, r = mkReader rest true ∧ b = write_field f ++ rest ∧ alike k f ∧ field_ok f ∧ Forall is_byte rest.
Proof.
  intros Hb. destruct k as [w|w|w]; cbn [read_field].
  - destruct (u32 _) as [v r'] eqn:E. intros [= <- <-] Hok. destruct (u32_inv b v r' Hb E Hok) as (rest & -> & -> & Hv & Hr). by exists rest.
  - destruct (u64 _) as [v r'] eqn:E. intros [= <- <-] Hok. destruct (u64_inv b v r' Hb E Hok) as (rest & -> & -> & Hv & Hr). by exists rest.
  - unfold str. destruct (u32 _) as [v r'] eqn:E. destruct (take_n v r') as [x r2] eqn:E2. intros [= <- <-] Hok.
    assert (r_ok r' = true) as Hok'.
    { destruct r' as [b' [|]]; [done|]. rewrite take_n_false in E2. by simplify_eq. }
    destruct (u32_inv b v r' Hb E Hok') as (rest & -> & -> & Hv & Hr).
    destruct (take_n_inv _ _ _ _ E2 Hok) as (y & rest2 & -> & -> & -> & Hl). apply Forall_app in Hr as [Hy Hr].
    exists rest2. subst v. cbn [write_field default field_ok alike from_option id]. rewrite <- app_assoc. split_and!; (done || lia).
Qed.

Lemma read_field_false k b : ∃ f, read_field k (mkReader b false) = (f, mkReader b false).
Proof. destruct k; by eexists. Qed.

Lemma read_fields_inv ks b fs r : Forall is_byte b → read_fields ks (mkReader b true) = (fs, r) → r_ok r = true →
  ∃ rest, b = write_fields fs ++ rest ∧ Forall2 alike ks fs ∧ Forall field_ok fs ∧ Forall is_byte rest.
Proof.
  revert b fs r. induction ks as [|k ks IH]; intros b fs r Hb; cbn [read_fields].
  { intros [= <- <-] _. by exists b. }
  destruct (read_field k _) as [f r1] eqn:E1. destruct (read_fields ks r1) as [fs' r2] eqn:E2. intros [= <- <-] Hok.
  assert (r_ok r1 = true) as Hok1.
  { destruct r1 as [b1 [|]]; [done|]. pose proof (read_fields_failed ks b1) as Hf. rewrite E2 in Hf. cbn in Hf. congruence. }
  destruct (read_field_inv k b f r1 Hb E1 Hok1) as (rest & -> & -> & Ha & Hf & Hr).
  destruct (IH rest fs' r2 Hr E2 Hok) as (rest2 & -> & Has & Hfs & Hr2).
  exists rest2. unfold write_fields. cbn [map concat]. rewrite <- app_assoc. split_and!; try done; by constructor.
Qed.

(** ** The checkers' readers on written fields *)

Lemma v_fixed_app n x rest : length x = n → v_fixed n (mkVReader (x ++ rest) true) = (be_decode x, mkVReader rest true).
Proof.
  intros Hl. unfold v_fixed. cbn [v_ok v_b negb orb]. rewrite bool_decide_eq_false_2 by (rewrite length_app; lia).
  by rewrite take_app_length', drop_app_length'.
Qed.
Lemma be_decode_w32 v : 0 <= v < 2 ^ 32 → be_decode (w32 v) = v.
Proof.
  intros Hv. unfold w32, wrap32. rewrite be_decode_be. change (256 ^ Z.of_nat 4) with (2 ^ 32). by rewrite !Z.mod_small by (rewrite ?Z.mod_small; done).
Qed.
Lemma be_decode_w64 v : is_u64 v → be_decode (w64 v) = v.
Proof.
  intros Hv. unfold w64, wrap64. rewrite be_decode_be. change (256 ^ Z.of_nat 8) with (2 ^ 64). by rewrite !Z.mod_small by (rewrite ?Z.mod_small; done).
Qed.
Lemma v_u32_w32 v rest : 0 <= v < 2 ^ 32 → v_u32 (mkVReader (w32 v ++ rest) true) = (v, mkVReader rest true).
Proof. intros Hv. unfold v_u32. by rewrite v_fixed_app, be_decode_w32 by (done || apply length_w32). Qed.
Lemma v_str_app b rest : Z.of_nat (length b) < 2 ^ 32 →
  v_str (mkVReader (w32 (Z.of_nat (length b)) ++ b ++ rest) true) = (b, mkVReader rest true).
Proof.
  intros Hb. unfold v_str. rewrite v_u32_w32 by lia. cbn [v_ok v_b negb orb].
  rewrite (proj2 (Z.ltb_ge _ _)) by (rewrite length_app; lia). by rewrite Nat2Z.id, take_app_length, drop_app_length.
Qed.
Lemma v_skip_app n x rest : length x = n → v_skip n (mkVReader (x ++ rest) true) = mkVReader rest true.
Proof.
  intros Hl. unfold v_skip. cbn [v_ok v_b negb orb]. rewrite bool_decide_eq_false_2 by (rewrite length_app; lia).
  by rewrite drop_app_length'.
Qed.

Lemma word_skip n k off m x rest : length x = k → m = (k + off)%nat → word n m (x ++ rest) = word n off rest.
Proof. intros <- ->. unfold word. by rewrite <- drop_drop, drop_app_length. Qed.
Ltac widths := first [apply length_w64 | apply length_w32 | reflexivity | assumption].
Lemma word_w64 v rest : is_u64 v → word 8 0 (w64 v ++ rest) = v.
Proof. intros Hv. unfold word. by rewrite drop_0, take_app_length', be_decode_w64 by (done || apply length_w64). Qed.
Lemma word_w32 v rest : 0 <= v < 2 ^ 32 → word 4 0 (w32 v ++ rest) = v.
Proof. intros Hv. unfold word. by rewrite drop_0, take_app_length', be_decode_w32 by (done || apply length_w32). Qed.

(** ** Answers *)

(** As a client reads them: the inode after the error number, a count, data. *)
Definition answered_ino (resp : bytes) : Z := (u64 (u32 (newReader resp)).2).1.
Definition answered_count (resp : bytes) : Z := (u32 (u32 (newReader resp)).2).1.
Definition answered_data (resp : bytes) : bytes := (blob (u32 (newReader resp)).2).1.

Lemma u32_4 x rest : length x = 4%nat → u32 (mkReader (x ++ rest) true) = (be_decode x, mkReader rest true).
Proof. intros Hl. unfold u32. pose proof (take_n_app x rest) as H. rewrite Hl in H. change (Z.of_nat 4) with 4 in H. by rewrite H. Qed.
Lemma u64_8 x rest : length x = 8%nat → u64 (mkReader (x ++ rest) true) = (be_decode x, mkReader rest true).
Proof. intros Hl. unfold u64. pose proof (take_n_app x rest) as H. rewrite Hl in H. change (Z.of_nat 8) with 8 in H. by rewrite H. Qed.

Lemma split_at {A} n (l : list A) : (n <= length l)%nat → ∃ x y, l = x ++ y ∧ length x = n.
Proof. intros Hn. exists (take n l), (drop n l). rewrite take_drop, length_take. split; [done|lia]. Qed.

Lemma good_length k resp : good k resp → (4 <= length resp)%nat.
Proof.
  intros [(v & _ & ->)|[_ Hs]]; [unfold int32Resp; by rewrite length_w32|].
  destruct k; cbv beta iota in Hs; unfold attr_len in *; try lia.
  - destruct Hs as [data ->]. rewrite !length_app, !length_w32. lia.
  - destruct Hs as (es & -> & _). rewrite !length_app, !length_w32. lia.
Qed.

Lemma good_errno k resp : good k resp → - 2 ^ 31 <= resp_errno resp <= 0.
Proof. intros [(v & Hv & ->)|[-> _]]; [rewrite resp_errno_int32 by lia|]; lia. Qed.

(** Both sides agree on the error number. *)
Lemma errnoOf_good k resp : good k resp → errnoOf resp = Some (- resp_errno resp) ∧ resp_code resp = resp_errno resp.
Proof.
  intros Hg. pose proof (good_errno k resp Hg) as He. pose proof (good_length k resp Hg) as Hl.
  destruct (split_at 4 resp Hl) as (x & y & -> & Hx).
  assert (int32_of (be_decode x) = resp_errno (x ++ y)) as Hc.
  { unfold resp_errno, newReader. rewrite u32_4 by done. done. }
  unfold errnoOf, resp_code, word. rewrite drop_0, bool_decide_eq_false_2 by lia. rewrite bool_decide_eq_true_2 by done.
  rewrite take_app_length' by done. rewrite Hc. split; [|done]. destruct (Z.ltb_spec (resp_errno (x ++ y)) 0); f_equal; lia.
Qed.

Lemma answered_ino_v resp : (12 <= length resp)%nat →
  ∃ r, v_u64 (new_vreader (drop 4 resp)) = (answered_ino resp, r) ∧ v_ok r = true.
Proof.
  intros Hl. destruct (split_at 4 resp) as (x & y & -> & Hx); [lia|]. rewrite length_app in Hl.
  destruct (split_at 8 y) as (z & rest & -> & Hz); [lia|]. rewrite drop_app_length' by done. unfold new_vreader, v_u64, answered_ino, newReader.
  rewrite v_fixed_app, u32_4 by done. cbn [snd]. rewrite u64_8 by done. by eexists.
Qed.

(** An entry of a listing, as a client reads it. *)
Definition entry_of (e : bytes) : bytes * Z :=
  let '(ino, r) := u64 (newReader e) in let '(name, _) := str r in (name, ino).
Definition not_dots (x : bytes * Z) : Prop := x.1 ≠ lit "." ∧ x.1 ≠ lit "..".
#[global] Instance not_dots_dec x : Decision (not_dots x).
Proof. unfold not_dots. apply _. Defined.

Lemma entry_parts plus e : entry_shape plus e →
  ∃ a name t c tail, e = a ++ w32 (Z.of_nat (length name)) ++ name ++ t ++ c ++ tail ∧
    length a = 8%nat ∧ length t = 4%nat ∧ length c = 8%nat ∧ length tail = if plus then readdirPlusTail else 0%nat.
Proof.
  intros (name & Hl & Hn & He). destruct (split_at 8 e) as (a & e1 & -> & Ha); [lia|].
  rewrite (drop_app_length' a) in Hn by done. rewrite length_app in Hl.
  destruct (split_at 4 e1) as (x & e2 & -> & Hx); [lia|]. rewrite take_app_length' in Hn by done. subst x. rewrite length_app in Hl.
  rewrite (app_assoc a), (drop_app_length' (a ++ _)) in He by (rewrite length_app; lia).
  destruct (split_at (length name) e2) as (y & e3 & -> & Hy); [lia|]. rewrite take_app_length' in He by done. subst y. rewrite length_app in Hl.
  destruct (split_at 4 e3) as (t & e4 & -> & Ht); [lia|]. rewrite length_app in Hl.
  destruct (split_at 8 e4) as (c & tail & -> & Hc); [lia|]. rewrite length_app in Hl.
  exists a, name, t, c, tail. split; [done|]. split_and!; [done..|]. unfold readdirPlusTail, attr_len in *. destruct plus; lia.
Qed.

Lemma entry_of_parts a name rest : length a = 8%nat → Z.of_nat (length name) < 2 ^ 32 →
  entry_of (a ++ w32 (Z.of_nat (length name)) ++ name ++ rest) = (name, be_decode a).
Proof.
  intros Ha Hn. unfold entry_of, newReader. rewrite u64_8 by done. unfold str. by rewrite u32_w32, take_n_app by lia.
Qed.

Lemma dir_entries_raw plus es :
  Forall (entry_shape plus) es → Z.of_nat (length (concat es)) < 2 ^ 32 →
  dir_entries (length es) plus (mkVReader (concat es) true) = Some (filter not_dots (map entry_of es)).
Proof.
  induction 1 as [|e es He _ IH]; intros Hl; [done|]. cbn [concat length map] in *. rewrite length_app in Hl.
  destruct (entry_parts plus e He) as (a & name & t & c & tail & -> & Ha & Ht & Hc & Htail).
  assert (Z.of_nat (length name) < 2 ^ 32) as Hn by (rewrite !length_app in Hl; lia).
  rewrite filter_cons, entry_of_parts by done. cbn [dir_entries]. rewrite <- !app_assoc. unfold v_u64, v_u32.
  rewrite v_fixed_app by done. rewrite v_str_app by done. rewrite v_fixed_app by done. rewrite v_fixed_app by done.
  assert ((if plus then v_skip readdirPlusTail (mkVReader (tail ++ concat es) true) else mkVReader (tail ++ concat es) true) =
    mkVReader (concat es) true) as ->.
  { destruct plus; [by rewrite v_skip_app|]. by rewrite (nil_length_inv tail). }
  cbn [v_ok negb]. rewrite IH by (rewrite !length_app in Hl; lia). cbn [mbind option_bind].
  destruct (decide (not_dots (name, be_decode a))) as [[H1 H2]|H]; unfold not_dots in *; cbn [fst] in *.
  - by rewrite (bool_decide_eq_false_2 (name = lit ".")), (bool_decide_eq_false_2 (name = lit "..")).
  - destruct (decide (name = lit ".")) as [E|E]; [by rewrite (bool_decide_eq_true_2 (name = lit "."))|].
    destruct (decide (name = lit "..")) as [E'|E']; [|tauto]. by rewrite (bool_decide_eq_true_2 (name = lit "..")), orb_true_r.
Qed.

(** ** What a served request shows *)

(** To the namespace checker, given the fields the handler read and the answer
    the client was given. *)
Definition shown_op (node : bytes) (kind : Kind) (parent : Z) (name : bytes) (newParent : Z) (newName : bytes) (i : Z)
    (resp : bytes) (call ret : Z) : Op :=
  let ok := resp_errno resp =? 0 in
  let ino := if ok && answers_inode kind then answered_ino resp else i in
  mkOp kind node parent name newParent newName ino [] 0
    (if bool_decide (kind = KindLookup) && ok && (ino =? 0) then errnoENOENT else - resp_errno resp) call ret.

Definition named_kind (o : opcode) : option Kind :=
  match o with
  | ipcOpLookup => Some KindLookup | ipcOpCreate => Some KindCreate | ipcOpMkdir => Some KindMkdir | ipcOpMknod => Some KindMknod
  | ipcOpSymlink => Some KindSymlnk | ipcOpUnlink => Some KindUnlink | ipcOpRmdir => Some KindRmdir | _ => None
  end.

Definition namespace_shown (node : bytes) (o : opcode) (fs : list field) (resp : bytes) (call ret : Z) (es : list (bytes * Z)) : list Op :=
  match o, fs with
  | (ipcOpReaddir | ipcOpReadDirPlus), F64 parent :: F64 off :: _ =>
    [mkOp KindReaddir node parent [] 0 [] 0 es off (- resp_errno resp) call ret]
  | ipcOpRename, F64 p :: FBytes n :: F64 p' :: FBytes n' :: _ => [shown_op node KindRename p n p' n' 0 resp call ret]
  | ipcOpLink, F64 i :: F64 p :: FBytes n :: _ => [shown_op node KindLink p n p n i resp call ret]
  | _, F64 p :: FBytes n :: _ => match named_kind o with Some k => [shown_op node k p n 0 [] 0 resp call ret] | None => [] end
  | _, _ => []
  end.

(** The names of a listing's answer. *)
Definition listed (resp : bytes) (es : list (bytes * Z)) : Prop :=
  if resp_errno resp =? 0
  then ∃ raw, resp = w32 0 ++ w32 (Z.of_nat (length raw)) ++ concat raw ∧ es = filter not_dots (map entry_of raw)
  else es = [].

(** To the byte checker. *)
Definition data_shown (node : bytes) (o : opcode) (fs : list field) (resp : bytes) (call ret : Z) : list ExtentOp :=
  let errno := resp_errno resp in
  match o, fs with
  | ipcOpWrite, F64 ino :: F64 off :: FBytes data :: _ =>
    [mkExtentOp node ino ExtentWrite off 0 (if errno =? 0 then take (Z.to_nat (answered_count resp)) data else []) errno call ret]
  | ipcOpRead, F64 ino :: F64 off :: _ =>
    [mkExtentOp node ino ExtentRead off 0 (if errno =? 0 then answered_data resp else []) errno call ret]
  | ipcOpSetattr, F64 ino :: _ :: F32 valid :: F64 size :: _ =>
    if Z.land valid 8 =? 0 then [] else [mkExtentOp node ino ExtentTruncate size 0 [] errno call ret]
  | ipcOpFallocate, F64 ino :: _ :: F64 off :: F64 len :: _ => [mkExtentOp node ino ExtentInvalidate off len [] errno call ret]
  | (ipcOpFsync | ipcOpFlush), F64 ino :: _ => [mkExtentOp node ino ExtentFsync 0 0 [] (- errno) call ret]
  | _, _ => []
  end.

(** ** Decoding it *)

(** The words after the error number. *)
Lemma word_after_errno resp : (8 <= length resp)%nat → word 4 4 resp = answered_count resp.
Proof.
  intros Hl. destruct (split_at 4 resp) as (x & y & -> & Hx); [lia|]. rewrite length_app in Hl.
  destruct (split_at 4 y) as (z & rest & -> & Hz); [lia|].
  rewrite (word_skip 4 4 0) by widths. unfold word, answered_count, newReader. rewrite u32_4 by done. cbn [snd].
  rewrite u32_4 by done. by rewrite drop_0, take_app_length'.
Qed.

Section decode.
Context (node nm : bytes) (code call ret : Z) (req resp : bytes).
Context (Hreq : Forall is_byte req) (Hresp : Forall is_byte resp).
Let e : History.Entry := record_entry node nm code call ret req resp.

Lemma decode_answer k kind p n p' n' i rest :
  good k resp → kind ≠ KindReaddir → (answers_inode kind = true → resp_errno resp = 0 → (12 <= length resp)%nat) →
  request_fields kind (new_vreader req) = (p, n, p', n', i, mkVReader rest true) →
  decode_op kind e = Some (shown_op node kind p n p' n' i resp call ret).
Proof.
  intros Hg Hk Hl Hf. unfold decode_op, e. rewrite Payloads_record by done. cbn [mbind option_bind].
  destruct (errnoOf_good k resp Hg) as [-> _]. cbn [mbind option_bind]. rewrite bool_decide_eq_false_2 by done. rewrite Hf.
  cbn [v_ok negb e_Node CallNs ReturnNs record_entry]. unfold shown_op.
  assert ((- resp_errno resp =? 0) = (resp_errno resp =? 0)) as ->.
  { destruct (Z.eqb_spec (resp_errno resp) 0); [apply Z.eqb_eq|apply Z.eqb_neq]; lia. }
  destruct (Z.eqb_spec (resp_errno resp) 0) as [E|E]; cbn [andb]; [|by rewrite !andb_false_r].
  destruct (answers_inode kind) eqn:Ea; [|done]. destruct (answered_ino_v resp) as (r & -> & ->); [by apply Hl|]. done.
Qed.

Lemma decode_listing_answer plus p off rest :
  good (Dirents plus) resp → Z.of_nat (length resp) < 2 ^ 32 → is_u64 p → is_u64 off →
  req = w64 p ++ w64 off ++ rest → (code =? readdirPlusOpcode) = plus →
  ∃ es, listed resp es ∧ decode_op KindReaddir e = Some (mkOp KindReaddir node p [] 0 [] 0 es off (- resp_errno resp) call ret).
Proof.
  intros Hg Hl Hp Ho Hq Hc. unfold decode_op, e. rewrite Payloads_record by done. cbn [mbind option_bind].
  destruct (errnoOf_good _ resp Hg) as [-> _]. cbn [mbind option_bind]. rewrite bool_decide_eq_true_2 by done.
  unfold decode_listing, new_vreader. rewrite Hq, !v_u64_w64 by done. cbn [v_ok negb Opcode e_Node CallNs ReturnNs record_entry]. rewrite Hc.
  unfold listed. destruct (Z.eqb_spec (resp_errno resp) 0) as [E|E].
  - destruct Hg as [(v & Hv & ->)|[_ (raw & Hraw & Hs)]]; [rewrite (resp_errno_int32 v) in E by lia; lia|].
    exists (filter not_dots (map entry_of raw)). split; [by exists raw|]. rewrite E, Hraw. cbn [Z.opp Z.eqb].
    rewrite (drop_app_length' (w32 0)) by done. rewrite Hraw, !length_app, !length_w32 in Hl.
    assert (Z.of_nat (length raw) < 2 ^ 32) as Hr.
    { assert (length raw <= length (concat raw))%nat; [|lia]. clear -Hs. induction Hs as [|x raw (nm & Hx & _) _ IH]; [done|].
      cbn [concat length]. rewrite length_app. lia. }
    unfold decodeDirEntries, new_vreader. rewrite v_u32_w32 by lia. cbn [v_ok negb]. by rewrite Nat2Z.id, dir_entries_raw by (done || lia).
  - exists []. split; [done|]. by rewrite (proj2 (Z.eqb_neq (- resp_errno resp) 0)) by lia.
Qed.
Lemma decode_write_answer ino off data rest :
  good Written resp → is_u64 ino → is_u64 off → Z.of_nat (length data) < 2 ^ 32 →
  req = w64 ino ++ w64 off ++ w32 (Z.of_nat (length data)) ++ data ++ rest →
  decodeWrite e = Some (mkExtentOp node ino ExtentWrite off 0
    (if resp_errno resp =? 0 then take (Z.to_nat (answered_count resp)) data else []) (resp_errno resp) call ret).
Proof.
  intros Hg Hi Ho Hd Hq. unfold decodeWrite, e. rewrite Payloads_record by done. cbn [mbind option_bind].
  assert (length req = 20 + length data + length rest)%nat as Hl by (rewrite Hq, !length_app, !length_w64, length_w32; lia).
  rewrite bool_decide_eq_false_2 by lia.
  assert (word 8 0 req = ino) as -> by (rewrite Hq; by apply word_w64).
  assert (word 8 8 req = off) as -> by (rewrite Hq, (word_skip 8 8 0) by widths; by apply word_w64).
  assert (word 4 16 req = Z.of_nat (length data)) as ->.
  { rewrite Hq, (word_skip 4 8 8), (word_skip 4 8 0) by widths. apply word_w32. lia. }
  rewrite (proj2 (Z.ltb_ge _ _)) by lia. rewrite Nat2Z.id.
  assert (take (length data) (drop 20 req) = data) as ->.
  { rewrite Hq, !app_assoc, <- (app_assoc _ data), drop_app_length' by (rewrite !length_app, !length_w64, length_w32; lia). apply take_app_length. }
  destruct (errnoOf_good _ resp Hg) as [_ ->]. cbn [e_Node CallNs ReturnNs record_entry]. f_equal.
  destruct (Z.eqb_spec (resp_errno resp) 0) as [E|E]; cbn [andb].
  - destruct Hg as [(v & Hv & ->)|[_ Hs]]; [rewrite (resp_errno_int32 v) in E by lia; lia|]. rewrite bool_decide_eq_true_2 by lia.
    rewrite word_after_errno by lia. destruct (Z.ltb_spec (answered_count resp) (Z.of_nat (length data))); [done|]. by rewrite take_ge by lia.
  - destruct data; done.
Qed.

Lemma decode_read_answer ino off rest :
  good Data resp → Z.of_nat (length resp) < 2 ^ 32 → is_u64 ino → is_u64 off → (4 <= length rest)%nat → req = w64 ino ++ w64 off ++ rest →
  decodeRead e = Some (mkExtentOp node ino ExtentRead off 0
    (if resp_errno resp =? 0 then answered_data resp else []) (resp_errno resp) call ret).
Proof.
  intros Hg Hl Hi Ho Hr Hq. unfold decodeRead, e. rewrite Payloads_record by done. cbn [mbind option_bind].
  assert (length req = 16 + length rest)%nat as Hlr by (rewrite Hq, !length_app, !length_w64; lia).
  rewrite bool_decide_eq_false_2 by lia.
  assert (word 8 0 req = ino) as -> by (rewrite Hq; by apply word_w64).
  assert (word 8 8 req = off) as -> by (rewrite Hq, (word_skip 8 8 0) by widths; by apply word_w64).
  destruct (errnoOf_good _ resp Hg) as [_ ->]. cbn [e_Node CallNs ReturnNs record_entry]. f_equal.
  destruct (Z.eqb_spec (resp_errno resp) 0) as [E|E]; cbn [andb]; [|done]. f_equal.
  destruct Hg as [(v & Hv & ->)|[_ [data Hs]]]; [rewrite (resp_errno_int32 v) in E by lia; lia|].
  rewrite Hs, !length_app, !length_w32 in Hl.
  assert (word 4 4 resp = Z.of_nat (length data)) as ->.
  { rewrite Hs, (word_skip 4 4 0) by widths. apply word_w32. lia. }
  assert (answered_data resp = data) as ->.
  { unfold answered_data, newReader. rewrite Hs, u32_w32 by lia. cbn [snd]. unfold blob. rewrite u32_w32 by lia.
    rewrite <- (app_nil_r data) at 2. by rewrite take_n_app. }
  rewrite Hs. unfold wrap32. rewrite Z.mod_small by lia. rewrite !length_app, !length_w32.
  rewrite bool_decide_eq_true_2 by lia. rewrite (proj2 (Z.leb_le _ _)) by lia. cbn [andb].
  rewrite take_ge by (rewrite !length_app, !length_w32; lia). rewrite app_assoc. by rewrite drop_app_length' by (rewrite length_app, !length_w32; lia).
Qed.

Lemma decode_setattr_answer ino fh valid size rest :
  good Attr resp → is_u64 ino → is_u64 fh → 0 <= valid < 2 ^ 32 → is_u64 size → req = w64 ino ++ w64 fh ++ w32 valid ++ w64 size ++ rest →
  decodeTruncate e = Some (if Z.land valid 8 =? 0 then None else Some (mkExtentOp node ino ExtentTruncate size 0 [] (resp_errno resp) call ret)).
Proof.
  intros Hg Hi Hf Hv Hs Hq. unfold decodeTruncate, e. rewrite Payloads_record by done. cbn [mbind option_bind].
  rewrite bool_decide_eq_false_2 by (rewrite Hq, !length_app, !length_w64, length_w32; lia).
  assert (word 4 16 req = valid) as -> by (rewrite Hq, (word_skip 4 8 8), (word_skip 4 8 0) by widths; by apply word_w32).
  change History.fattrSize with 8. destruct (Z.land valid 8 =? 0); [done|].
  assert (word 8 0 req = ino) as -> by (rewrite Hq; by apply word_w64).
  assert (word 8 20 req = size) as ->.
  { rewrite Hq, (word_skip 8 8 12), (word_skip 8 8 4), (word_skip 8 4 0) by widths. by apply word_w64. }
  by destruct (errnoOf_good _ resp Hg) as [_ ->].
Qed.

Lemma decode_fallocate_answer ino m off len rest :
  good Ack resp → is_u64 ino → is_u64 off → is_u64 len → req = w64 ino ++ w32 m ++ w64 off ++ w64 len ++ rest →
  decodeFallocate e = Some (mkExtentOp node ino ExtentInvalidate off len [] (resp_errno resp) call ret).
Proof.
  intros Hg Hi Ho Hn Hq. unfold decodeFallocate, e. rewrite Payloads_record by done. cbn [mbind option_bind].
  rewrite bool_decide_eq_false_2 by (rewrite Hq, !length_app, !length_w64, length_w32; lia).
  assert (word 8 0 req = ino) as -> by (rewrite Hq; by apply word_w64).
  assert (word 8 12 req = off) as ->.
  { rewrite Hq, (word_skip 8 8 4), (word_skip 8 4 0) by widths. by apply word_w64. }
  assert (word 8 20 req = len) as ->.
  { rewrite Hq, (word_skip 8 8 12), (word_skip 8 4 8), (word_skip 8 8 0) by widths. by apply word_w64. }
  by destruct (errnoOf_good _ resp Hg) as [_ ->].
Qed.

Lemma decode_fsync_answer ino rest :
  good Ack resp → is_u64 ino → req = w64 ino ++ rest →
  decodeFsync e = Some (mkExtentOp node ino ExtentFsync 0 0 [] (- resp_errno resp) call ret).
Proof.
  intros Hg Hi Hq. unfold decodeFsync, e. rewrite Payloads_record by done. cbn [mbind option_bind].
  rewrite bool_decide_eq_false_2 by (rewrite Hq, !length_app, !length_w64; lia).
  assert (word 8 0 req = ino) as -> by (rewrite Hq; by apply word_w64).
  destruct (errnoOf_good _ resp Hg) as [_ ->]. pose proof (good_errno _ resp Hg). by rewrite Z.abs_neq by lia.
Qed.
End decode.

Lemma namespace_snoc_other file e : namespaceOps (Opcode e) = None → DecodeNamespace (file ++ [e]) = DecodeNamespace file.
Proof. intros He. unfold DecodeNamespace. rewrite omap_app. csimpl. rewrite He. cbn. by rewrite app_nil_r. Qed.
Lemma namespace_snoc file e k op ops :
  namespaceOps (Opcode e) = Some k → decode_op k e = Some op → DecodeNamespace file = Some ops →
  DecodeNamespace (file ++ [e]) = Some (ops ++ [op]).
Proof.
  intros Hk Hd Hf. unfold DecodeNamespace in *. rewrite omap_app. csimpl. rewrite Hk. csimpl. rewrite mapM_snoc, Hf. cbn [mbind option_bind fst snd].
  by rewrite Hd.
Qed.
Lemma extents_snoc file e x xs :
  decode_data e = Some x → DecodeExtents file = Some xs →
  DecodeExtents (file ++ [e]) = Some (xs ++ match x with Some op => [op] | None => [] end).
Proof.
  intros Hd. unfold DecodeExtents. rewrite mapM_snoc, Hd. destruct (mapM decode_data file) as [l|]; [|done].
  cbn [mbind option_bind]. intros [= <-]. rewrite omap_app. by destruct x.
Qed.

(** ** Every request *)

Lemma find_op_code code o : find_op code = Some o → code = code_of o.
Proof.
  unfold find_op. destruct (list_find _ ops_table) as [[i x]|] eqn:E; [|done]. cbn. intros [= <-]. by apply list_find_Some in E as (_ & H & _).
Qed.

Lemma fields_named kind p n rest :
  kind ≠ KindRename → kind ≠ KindLink → kind ≠ KindReaddir → is_u64 p → Z.of_nat (length n) < 2 ^ 32 →
  request_fields kind (new_vreader (w64 p ++ w32 (Z.of_nat (length n)) ++ n ++ rest)) = (p, n, 0, [], 0, mkVReader rest true).
Proof. intros H1 H2 H3 Hp Hn. unfold request_fields, new_vreader. rewrite v_u64_w64, v_str_app by done. by destruct kind. Qed.
Lemma fields_rename p n p' n' rest :
  is_u64 p → Z.of_nat (length n) < 2 ^ 32 → is_u64 p' → Z.of_nat (length n') < 2 ^ 32 →
  request_fields KindRename (new_vreader (w64 p ++ w32 (Z.of_nat (length n)) ++ n ++ w64 p' ++ w32 (Z.of_nat (length n')) ++ n' ++ rest)) =
  (p, n, p', n', 0, mkVReader rest true).
Proof. intros Hp Hn Hp' Hn'. unfold request_fields, new_vreader. by rewrite v_u64_w64, v_str_app, v_u64_w64, v_str_app by done. Qed.
Lemma fields_link i p n rest :
  is_u64 i → is_u64 p → Z.of_nat (length n) < 2 ^ 32 →
  request_fields KindLink (new_vreader (w64 i ++ w64 p ++ w32 (Z.of_nat (length n)) ++ n ++ rest)) = (p, n, p, n, i, mkVReader rest true).
Proof. intros Hi Hp Hn. unfold request_fields, new_vreader. by rewrite !v_u64_w64, v_str_app by done. Qed.

Section one.
Context (node nm : bytes) (call ret : Z) (o : opcode) (fs : list field) (rest resp : bytes) (file : list History.Entry).
Context (ops : list Op) (xs : list ExtentOp).
Let payload : bytes := write_fields fs ++ rest.
Let e : History.Entry := record_entry node nm (code_of o) call ret payload resp.
Context (Hpayload : Forall is_byte payload) (Hresp : Forall is_byte resp) (Hlen : Z.of_nat (length resp) < 2 ^ 32).
Context (Hfs : Forall2 alike (layout o) fs) (Hok : Forall field_ok fs) (Hgood : good (shape_of o) resp).
Context (Hns : DecodeNamespace file = Some ops) (Hxs : DecodeExtents file = Some xs).

Lemma entry_long k : answers_inode k = true → named_kind o = Some k ∨ o = ipcOpLink → resp_errno resp = 0 → (12 <= length resp)%nat.
Proof.
  intros Hk Ho H0. destruct Hgood as [(v & Hv & E)|[_ Hs]]; [rewrite E, (resp_errno_int32 v) in H0 by lia; lia|].
  destruct o; destruct Ho as [Ho|Ho]; try discriminate Ho; try (injection Ho as <-; discriminate Hk); cbn [shape_of] in Hs; cbv beta iota in Hs;
    unfold attr_len in Hs; lia.
Qed.

Lemma write_cons f fs' : write_fields (f :: fs') ++ rest = write_field f ++ write_fields fs' ++ rest.
Proof. unfold write_fields. cbn [map concat]. by rewrite <- app_assoc. Qed.
Lemma write_bytes n fs' : write_fields (FBytes n :: fs') ++ rest = w32 (Z.of_nat (length n)) ++ n ++ write_fields fs' ++ rest.
Proof. rewrite write_cons. cbn [write_field]. by rewrite <- app_assoc. Qed.

Lemma served_named k p n more :
  named_kind o = Some k → fs = F64 p :: FBytes n :: more → decode_op k e = Some (shown_op node k p n 0 [] 0 resp call ret).
Proof.
  intros Hk E. rewrite E in Hok. apply Forall_cons in Hok as [Hp [Hn _]%Forall_cons]. cbn [field_ok] in Hp, Hn.
  apply (decode_answer node nm (code_of o) call ret payload resp Hpayload Hresp (shape_of o) k p n 0 [] 0 (write_fields more ++ rest)).
  - exact Hgood.
  - destruct o; discriminate Hk || by injection Hk as <-.
  - intros Ha. by apply (entry_long k); [|left].
  - unfold payload. rewrite E, write_cons, write_bytes. cbn [write_field].
    apply fields_named; [..|exact Hp|exact Hn]; destruct o; discriminate Hk || by injection Hk as <-.
Qed.
Lemma served_rename p n p' n' more :
  fs = F64 p :: FBytes n :: F64 p' :: FBytes n' :: more →
  decode_op KindRename e = Some (shown_op node KindRename p n p' n' 0 resp call ret).
Proof.
  intros E. rewrite E in Hok. apply Forall_cons in Hok as [Hp [Hn [Hp' [Hn' _]%Forall_cons]%Forall_cons]%Forall_cons].
  cbn [field_ok] in Hp, Hn, Hp', Hn'.
  apply (decode_answer node nm (code_of o) call ret payload resp Hpayload Hresp (shape_of o) KindRename p n p' n' 0 (write_fields more ++ rest));
    [exact Hgood|done|done|].
  unfold payload. rewrite E, write_cons, write_bytes, write_cons, write_bytes. cbn [write_field]. by apply fields_rename.
Qed.

Lemma served_link i p n more :
  o = ipcOpLink → fs = F64 i :: F64 p :: FBytes n :: more →
  decode_op KindLink e = Some (shown_op node KindLink p n p n i resp call ret).
Proof.
  intros Ho E. rewrite E in Hok. apply Forall_cons in Hok as [Hi [Hp [Hn _]%Forall_cons]%Forall_cons]. cbn [field_ok] in Hi, Hp, Hn.
  apply (decode_answer node nm (code_of o) call ret payload resp Hpayload Hresp (shape_of o) KindLink p n p n i (write_fields more ++ rest)).
  - exact Hgood.
  - done.
  - intros Ha. by apply (entry_long KindLink); [|right].
  - unfold payload. rewrite E, write_cons, write_cons, write_bytes. cbn [write_field]. by apply fields_link.
Qed.

Lemma served_listing plus p off more :
  shape_of o = Dirents plus → (code_of o =? readdirPlusOpcode) = plus → fs = F64 p :: F64 off :: more →
  ∃ es, listed resp es ∧ decode_op KindReaddir e = Some (mkOp KindReaddir node p [] 0 [] 0 es off (- resp_errno resp) call ret).
Proof.
  intros Hs Hc E. rewrite E in Hok. apply Forall_cons in Hok as [Hp [Ho _]%Forall_cons]. cbn [field_ok] in Hp, Ho. rewrite Hs in Hgood.
  apply (decode_listing_answer node nm (code_of o) call ret payload resp Hpayload Hresp plus p off (write_fields more ++ rest));
    [exact Hgood|exact Hlen|exact Hp|exact Ho| |exact Hc].
  unfold payload. rewrite E, !write_cons. reflexivity.
Qed.

(** The shape of the fields. *)
Lemma alike_64 v f : alike (F64 v) f → ∃ x, f = F64 x.
Proof. destruct f as [x|x|x]; intros H; [destruct H|by exists x|destruct H]. Qed.
Lemma alike_32 v f : alike (F32 v) f → ∃ x, f = F32 x.
Proof. destruct f as [x|x|x]; intros H; [by exists x|destruct H|destruct H]. Qed.
Lemma alike_bytes v f : alike (FBytes v) f → ∃ x, f = FBytes x.
Proof. destruct f as [x|x|x]; intros H; [destruct H|destruct H|by exists x]. Qed.

(** Name the fields a layout asks for. *)
Ltac spell Hf :=
  repeat (apply Forall2_cons_inv_l in Hf as (? & ? & ? & Hf & ->)); try (apply Forall2_nil_inv_l in Hf as ->);
  repeat match goal with
  | H : alike (F64 _) _ |- _ => apply alike_64 in H as [? ->]
  | H : alike (F32 _) _ |- _ => apply alike_32 in H as [? ->]
  | H : alike (FBytes _) _ |- _ => apply alike_bytes in H as [? ->]
  end.

Lemma namespace_by_kind : ∃ es,
  (namespaceOps (code_of o) = Some KindReaddir → listed resp es) ∧
  match namespaceOps (code_of o) with
  | Some k => ∃ op, decode_op k e = Some op ∧ namespace_shown node o fs resp call ret es = [op]
  | None => namespace_shown node o fs resp call ret es = []
  end.
Proof.
  pose proof Hfs as Hf. pose proof served_named as Hn. pose proof served_rename as Hr. pose proof served_link as Hl. pose proof served_listing as Hd.
  remember fs as gs eqn:Egs. revert Hf Hn Hr Hl Hd. generalize e. clear. intros en.
  destruct o; cbn [layout code_of namespaceOps Z.eqb Pos.eqb named_kind shape_of]; intros Hf Hn Hr Hl Hd.
  all: spell Hf.
  all: cbn [namespace_shown named_kind].
  all: try (exists []; split; [discriminate|reflexivity]).
  all: try (exists []; split; [discriminate|]; eexists; split; [|reflexivity]; first [by eapply Hn | by eapply Hr | by eapply Hl]).
  all: destruct (Hd _ _ _ _ eq_refl eq_refl eq_refl) as (es & He & Hop); exists es; split; [by intros _|]; eexists; split; [exact Hop|reflexivity].
Qed.

Lemma served_namespace : ∃ es,
  (namespaceOps (code_of o) = Some KindReaddir → listed resp es) ∧
  DecodeNamespace (file ++ [e]) = Some (ops ++ namespace_shown node o fs resp call ret es).
Proof.
  destruct namespace_by_kind as (es & He & Hk). exists es. split; [exact He|].
  destruct (namespaceOps (code_of o)) as [k|] eqn:E.
  - destruct Hk as (op & Hd & ->). by apply (namespace_snoc file e k).
  - rewrite Hk, app_nil_r, namespace_snoc_other; [exact Hns|exact E].
Qed.
Lemma served_write ino off data more :
  shape_of o = Written → fs = F64 ino :: F64 off :: FBytes data :: more →
  decodeWrite e = Some (mkExtentOp node ino ExtentWrite off 0
    (if resp_errno resp =? 0 then take (Z.to_nat (answered_count resp)) data else []) (resp_errno resp) call ret).
Proof.
  intros Hs E. rewrite E in Hok. rewrite Hs in Hgood. apply Forall_cons in Hok as [Hi [Ho [Hd _]%Forall_cons]%Forall_cons].
  apply (decode_write_answer node nm (code_of o) call ret payload resp Hpayload Hresp ino off data (write_fields more ++ rest) Hgood Hi Ho Hd).
  unfold payload. by rewrite E, write_cons, write_cons, write_bytes.
Qed.
Lemma served_read ino off w more :
  shape_of o = Data → fs = F64 ino :: F64 off :: F32 w :: more →
  decodeRead e = Some (mkExtentOp node ino ExtentRead off 0 (if resp_errno resp =? 0 then answered_data resp else []) (resp_errno resp) call ret).
Proof.
  intros Hs E. rewrite E in Hok. rewrite Hs in Hgood. apply Forall_cons in Hok as [Hi [Ho _]%Forall_cons].
  apply (decode_read_answer node nm (code_of o) call ret payload resp Hpayload Hresp ino off (write_fields (F32 w :: more) ++ rest) Hgood Hlen Hi Ho).
  - rewrite write_cons. cbn [write_field]. rewrite length_app, length_w32. lia.
  - unfold payload. by rewrite E, !write_cons.
Qed.
Lemma served_setattr ino fh valid size more :
  shape_of o = Attr → fs = F64 ino :: F64 fh :: F32 valid :: F64 size :: more →
  decodeTruncate e = Some (if Z.land valid 8 =? 0 then None else Some (mkExtentOp node ino ExtentTruncate size 0 [] (resp_errno resp) call ret)).
Proof.
  intros Hs E. rewrite E in Hok. rewrite Hs in Hgood. apply Forall_cons in Hok as [Hi [Hf [Hv [Hz _]%Forall_cons]%Forall_cons]%Forall_cons].
  apply (decode_setattr_answer node nm (code_of o) call ret payload resp Hpayload Hresp ino fh valid size (write_fields more ++ rest) Hgood Hi Hf Hv Hz).
  unfold payload. by rewrite E, !write_cons.
Qed.
Lemma served_fallocate ino m off len more :
  shape_of o = Ack → fs = F64 ino :: F32 m :: F64 off :: F64 len :: more →
  decodeFallocate e = Some (mkExtentOp node ino ExtentInvalidate off len [] (resp_errno resp) call ret).
Proof.
  intros Hs E. rewrite E in Hok. rewrite Hs in Hgood. apply Forall_cons in Hok as [Hi [_ [Ho [Hl _]%Forall_cons]%Forall_cons]%Forall_cons].
  apply (decode_fallocate_answer node nm (code_of o) call ret payload resp Hpayload Hresp ino m off len (write_fields more ++ rest) Hgood Hi Ho Hl).
  unfold payload. by rewrite E, !write_cons.
Qed.
Lemma served_fsync ino more :
  shape_of o = Ack → fs = F64 ino :: more →
  decodeFsync e = Some (mkExtentOp node ino ExtentFsync 0 0 [] (- resp_errno resp) call ret).
Proof.
  intros Hs E. rewrite E in Hok. rewrite Hs in Hgood. apply Forall_cons in Hok as [Hi _].
  apply (decode_fsync_answer node nm (code_of o) call ret payload resp Hpayload Hresp ino (write_fields more ++ rest) Hgood Hi).
  unfold payload. by rewrite E, !write_cons.
Qed.

Lemma data_by_code : ∃ x, decode_data e = Some x ∧ data_shown node o fs resp call ret = match x with Some op => [op] | None => [] end.
Proof.
  pose proof Hfs as Hf. pose proof served_write as Hw. pose proof served_read as Hr. pose proof served_setattr as Hs.
  pose proof served_fallocate as Ha. pose proof served_fsync as Hy. unfold decode_data. change (Opcode e) with (code_of o).
  remember fs as gs eqn:Egs. revert Hf Hw Hr Hs Ha Hy. generalize e. clear. intros en.
  destruct o; cbn [layout code_of Z.eqb Pos.eqb orb shape_of]; intros Hf Hw Hr Hs Ha Hy.
  all: spell Hf; cbn [data_shown]; try (by exists None).
  all: first [rewrite (Hw _ _ _ _ eq_refl eq_refl) | rewrite (Hr _ _ _ _ eq_refl eq_refl) | rewrite (Hs _ _ _ _ _ eq_refl eq_refl)
             | rewrite (Ha _ _ _ _ _ eq_refl eq_refl) | rewrite (Hy _ _ eq_refl eq_refl)].
  all: eexists; split; [reflexivity|]; try reflexivity. by match goal with |- context [Z.land ?v 8 =? 0] => destruct (Z.land v 8 =? 0) end.
Qed.

Lemma served_extents : DecodeExtents (file ++ [e]) = Some (xs ++ data_shown node o fs resp call ret).
Proof. destruct data_by_code as (x & Hx & ->). by apply extents_snoc. Qed.
End one.

(** What the decoders make of a history to which a request was added. *)
Definition read_back (node : bytes) (o : opcode) (fs : list field) (ops : list Op) (xs : list ExtentOp) (x : bytes * list History.Entry) : Prop :=
  let '(resp, file') := x in Forall is_byte resp → Z.of_nat (length resp) < 2 ^ 32 →
  ∃ call ret es, (namespaceOps (code_of o) = Some KindReaddir → listed resp es) ∧
    DecodeNamespace file' = Some (ops ++ namespace_shown node o fs resp call ret es) ∧
    DecodeExtents file' = Some (xs ++ data_shown node o fs resp call ret).

(** C33. Every request a daemon serves is read back from the history as it was
    served: if the handler could parse the payload, then whatever the store, the
    device and the kernel reply, the two checkers' decoders accept the new entry
    after any history they accept, and what they see is what the handler read
    and what the client was answered (error number, inode, names listed, data
    read, bytes written); an operation that is neither a namespace nor a data
    operation shows nothing. *)
Theorem served_request_read_back node code o payload file d ops xs
  (Ho : find_op code = Some o) (Hbytes : Forall is_byte payload)
  (Hparsed : r_ok (read_fields (layout o) (newReader payload)).2 = true)
  (Hns : DecodeNamespace file = Some ops) (Hxs : DecodeExtents file = Some xs) :
  returns (λ x, read_back node o (read_fields (layout o) (newReader payload)).1 ops xs x.2)
    (observedDispatch (Some node) code payload file d).
Proof.
  destruct (read_fields (layout o) (newReader payload)) as [fs r] eqn:Er. cbn [fst snd] in *.
  destruct (read_fields_inv _ _ _ _ Hbytes Er Hparsed) as (rest & -> & Hlike & Hok & _).
  revert d. change (answers (read_back node o fs ops xs) (observedDispatch (Some node) code (write_fields fs ++ rest) file)).
  unfold observedDispatch. apply answers_bind. intros start.
  apply (answers_post (good (shape_of o))).
  { intros d. pose proof (dispatch_good code (write_fields fs ++ rest) d) as Hg. by rewrite Ho in Hg. }
  intros resp Hg. apply answers_bind. intros stop. apply answers_ret. intros Hresp Hlen. rewrite (find_op_code _ _ Ho).
  destruct (served_namespace node (opName (code_of o)) start stop o fs rest resp file ops Hbytes Hresp Hlen Hlike Hok Hg Hns) as (es & He & Hn).
  exists start, stop, es. split; [exact He|]. split; [exact Hn|].
  exact (served_extents node (opName (code_of o)) start stop o fs rest resp file xs Hbytes Hresp Hlen Hlike Hok Hg Hxs).
Qed.

(** A lookup of [a] in directory 1 by a read-write daemon. *)
Lemma served_request_read_back_witness :
  let payload := write_fields [F64 1; FBytes (lit "a")] in
  returns (λ x, read_back (lit "n1") ipcOpLookup [F64 1; FBytes (lit "a")] [] [] x.2)
    (observedDispatch (Some (lit "n1")) 1 payload [] (h_daemon false)).
Proof.
  apply (served_request_read_back (lit "n1") 1 ipcOpLookup (write_fields [F64 1; FBytes (lit "a")]) [] (h_daemon false) [] []); try reflexivity.
  apply (bool_decide_unpack _). vm_compute. exact Logic.I.
Defined.
